(* ===== verification/_CoqProject ===== *)
-Q . S2P
Prelude.v
Names.v
Machine.v
Graph.v
Rbac.v
Glob.v
BashSafety.v
Paths.v
PathGuard.v
Routing.v
Correction.v
Permission.v
Workflow.v
WorkflowRefs.v
WorkflowExec.v
Todo.v
Undo.v
Decompose.v
Compress.v
Offload.v
BudgetGuard.v
Minify.v
FileTools.v
Trees.v
Artifacts.v
ReadFile.v
Net.v
WebFetch.v
EditFile.v
Message.v
Conversation.v
Compaction.v
ContextIndex.v
GraphWalk.v
Prompt.v
AuditTrail.v
Streams.v
ToolCalls.v
OpenAi.v
ToolGates.v
Toolsets.v
Outcomes.v
BashOutput.v
Shell.v
Jobs.v
Hooks.v
PreRun.v
Recording.v
Dispatch.v
