(* ===== verification/Prelude.v ===== *)
(** * KirkForge: a verification development

    KirkForge is a coding agent for the command line: a model proposes tool calls, the
    program decides which of them may run, runs them on the user's files, and keeps the
    conversation within its budget.  This development models the parts that make those
    decisions and keep that state, as executable definitions translated from the Rust
    sources under [src/], and proves what they promise.  This file is the shared
    prelude; the overview comes first.  Paths of sources without [crates/] are below
    [src/src/], those with it below [src/].

    ** The parts and how they interact

    An answer of the model arrives as a stream ([Streams], [OpenAi]) from which the tool
    calls are taken ([ToolCalls]).  A batch of calls ([Dispatch]) passes the gates one
    call after the other ([PreRun]): the toolset, plan mode, the schema of the arguments,
    the permission rules and the user, the deny lists, the bash gate, the path guard and
    the hooks.  What passes runs: files are read, written and edited, pages fetched,
    commands run, in the background too.  The outcome is cut, sliced to the budget, put
    into the conversation and recorded ([Recording]); changes of files go to the undo
    stack, decisions to the audit trail.  The conversation is a log on disk, and each
    request is built from it within the budget of the model ([Prompt], [Compaction]).
    Workflows, the decomposition and the correction loop give structure over many calls.

    Foundations:
    - [Prelude]: characters and strings, the string functions of the Rust standard
      library that the sources use, JSON values, the [result] type with its notation,
      stable sorting, lists and options.
    - [Names]: the order of names (of bytes) and sorted lists of them.
    - [Machine]: binary64 and binary32 numbers, [i64], bytes and their decoding.
    - [Graph]: chains, cycles and groundedness of a dependency relation; used by
      [Workflow] and [Todo].
    - [Paths]: [std::path] and a file tree with directories, files and symbolic links in
      which paths are resolved as the kernel does; the calls of [std::fs].
    - [Trees]: how calls change a tree; used by [Artifacts].

    The gates:
    - [Glob], [Permission]: [shared/permission.rs]; the command rules call the clause
      splitter of [BashSafety].
    - [BashSafety]: [shared/bash_safety.rs] and [shared/access/deny_list.rs].
    - [PathGuard]: [shared/access/mod.rs]: [PathGuard] and [ReadGate].
    - [ToolGates]: the checks of [session/executor/helpers/mod.rs].
    - [Toolsets]: [tools/toolset.rs] with [tools/mod.rs] and [session/executor/scout.rs].
    - [Hooks]: [session/hooks.rs]; scripts pass the gate of [BashSafety] and run in the
      environment of [Shell].
    - [PreRun]: [session/executor/pre_run.rs], [approval.rs]; calls all of these.
    - [Rbac]: [crates/kf-rbac], the roles of the daemon's clients.

    The tools:
    - [FileTools], [EditFile], [ReadFile]: [tools/atomic_write.rs], [write_file.rs],
      [edit_file.rs], [read_file.rs], behind [PathGuard], on the tree of [Paths].
    - [Minify]: [shared/minify/expand.rs], the envelope [FileTools] expands.
    - [Net], [WebFetch]: [tools/web_fetch.rs], [web_search.rs].
    - [Shell], [BashOutput]: [session/bash_runner/mod.rs], [tools/bash.rs],
      [tools/bash_minify.rs].
    - [Jobs]: [session/bash_jobs.rs] and the job tools of [tools/bash.rs].
    - [Todo]: [tools/todo.rs].
    - [Undo]: [session/undo.rs]; [FileTools] calls it through the class [UndoLog].

    The turn:
    - [Streams], [OpenAi], [ToolCalls]: the parsers of [adapters/].
    - [Dispatch]: [session/executor/dispatch.rs].
    - [Recording], [Outcomes]: [session/executor/turn.rs], [helpers/outcome.rs],
      [session/error_recovery.rs].
    - [AuditTrail]: [shared/audit.rs]; [Hooks] and [PreRun] write it.
    - [Message], [Conversation]: [shared/mod.rs], [session/conversation.rs].
    - [Compaction], [Prompt]: [session/prompt/].
    - [ContextIndex], [GraphWalk]: [crates/kf-context-index].
    - [Compress]: [crates/kf-compress-core].
    - [Offload], [BudgetGuard]: [crates/kf-budget-core] and [session/budget.rs];
      [BudgetGuard] uses [Compress] and the store of [Offload].

    Orchestration:
    - [Workflow], [WorkflowRefs], [WorkflowExec]: [crates/kf-workflow].
    - [Decompose], [Correction], [Routing], [Artifacts]: [crates/kf-orchestrator]
      ([decompose.rs]; [correction.rs] with [verifier.rs] and [reducer.rs]; the decisions,
      profiles and rates of [routing/]; [routing/path_safety.rs]).

    Definitions keep the names of the source, with a prefix where two records of one
    file share a field name.  Loops that are not structural take fuel; state behind a
    mutex or [&mut] is passed from step to step, in a monad where many operations share
    it ([Streams], [WorkflowExec], [Recording]); the sections of [Jobs] that hold one
    lock are the steps of a relation and interleave.  An operation that fails returns
    [result], one that can panic returns [option].

    What one part promises another is a class: [OffloadStore] with [OffloadStoreLaws] and
    [PersistentStore] (two backends; the slicer, the budget and the recording are
    clients), [Framing] with [FramingLaws] (two ways to cut a body; the loop over chunks
    is the client), [UndoLog], and the records [Toolset] with [ToolsetLaws].

    ** What the theorems show

    - What may run.  [check_bash_command_str] lets a command through exactly when no
      check objects, in any case or quoting.  [pre_run_verdict] lets a call run exactly
      when every gate does; [run_decision] takes the first denial of the hooks, and a
      hook that fails denies nothing.  [evaluate] is first match wins, deny rules see
      every clause of a command and allow rules need all, [glob_match] decides the
      language of its pattern, [authorize_tenant] what the role table and the tenant
      guard allow.
    - What may be touched.  A path that [check_read] passes opens inside the sandbox;
      [check_write] passes exactly what no guard objects to; a write changes at most the
      one entry its argument names, an edit that one file, a batch of artifacts only what
      is below the working directory.  A file call runs exactly when no link lies in its
      path and what it changes has been read.  The first request of a fetch goes to a
      public address.
    - What is kept.  An atomic write is all or nothing; undoing a session's edits restores
      the files; a failed push leaves a sound stack; a log that is opened again has its
      messages, a crash loses at most one, a broken log comes back from its checkpoint,
      the newest five are kept; an audit trail that was changed verifies only with a
      collision; slicing loses nothing; the compressed store is a queue.
    - What is answered.  A batch answers every call, each exactly once without a
      cancellation; events do not depend on how a body is cut into chunks; the streamed
      window of a file is the window of the whole; a planned edit is one of the three the
      code means.
    - What the model sees.  The system prompt stays first; compaction keeps the shape of
      the conversation and fills the tail up to the budget; an incremental rebuild of the
      index keeps embeddings with their symbols; a walk finds the least distances.
    - Orchestration.  [validate] accepts exactly the well-formed workflows; the executor
      ends and finishes every step once, after its dependencies; the sort of tasks is
      correct and complete for every order of its hash maps; each task is delegated
      exactly when its dependencies succeeded; a run is accepted only when verified.
    - Processes.  However operations, watchers and processes interleave, the registry of
      jobs stays within its cap, and a status that is final stays.

    Each file has more lemmas on its other operations (redaction, markup, build logs,
    recovery hints, toolsets, the ladder of tool results, ...).

    Where the code does not do what its comments say, or what its reader would expect, a
    lemma shows it on an input:
    - gates: [double_star_needs_slash], [redirect_forms_missed],
      [detect_shadowed_rules_false_positive], [denied_behind_directory_link],
      [dangling_link_escapes], [bare_new_file_denied], [binary_check_denies_directories],
      [read_only_commands_write], [required_without_properties_unchecked],
      [relative_search_refused], [null_argument_passes], [always_approve_asks_again],
      [denials_unlogged], [timeout_unaudited], [hook_pipe_wedges],
      [claude_command_fails_open];
    - tools: [overlapping_match_accepted], [blank_lines_accepted], [temporary_file_stays],
      [printer_panics], [invalid_tail_unread], [fragment_passes_guards],
      [metadata_case_passes], [ipv6_port_refused], [redirect_escapes],
      [docker_exit_code_lost], [docker_waits_forever], [stderr_named_twice],
      [markers_repeat], [failures_go_with_warnings], [push_oversize_evicted],
      [cancel_between_inserts_kills_nothing], [cancel_of_next_id_leaks],
      [evict_takes_all];
    - the turn: [answers_out_of_order], [cancelled_call_answered_twice],
      [file_writes_unaudited], [halted_batch_unanswered], [directory_link_taken_for_swap],
      [doom_same_text_suppressed], [overflow_has_no_end], [unterminated_line_dropped],
      [bad_line_skipped_by_twin], [native_usage_unread], [null_error_reported],
      [null_error_hides_text], [drained_ids_collide], [unclosed_parameter_eaten];
    - what is kept: [unterminated_line_fuses], [read_error_overwrites_log],
      [separator_shift_undetected], [unhashed_edit_undetected], [deep_edit_undetected],
      [unreadable_file_verifies], [rotation_breaks_chain], [torn_write_breaks_chain],
      [unterminated_event_fuses], [torn_character_verifies], [walkers_disagree];
    - budget and prompt: [mem_reput_not_refreshed], [decide_overdrawn],
      [store_get_resliced], [oversized_put_empties], [heading_panics],
      [compaction_can_grow], [live_question_is_lost], [truncate_cuts_nothing],
      [import_of_changed_dropped], [called_import_ranks_as_import];
    - orchestration: [skipped_dependency_aborts], [skipped_handler_drops_step],
      [tool_arguments_unchecked], [independent_tasks_reordered], [accepted_but_failed],
      [rescan_erases_findings], [deny_paths_bypassed], [link_chain_escapes],
      [directory_made_outside], [dot_cwd_refuses].

    ** Fuel and bounds

    Fuel is the number of steps a loop can take, so it never decides a result; theorems
    like [topological_sort_spec], [run_terminates] and [graph_walk_least] show it for the
    loops where it is not plain.  What can hang in the code, a hook whose pipe is never
    closed ([hook_pipe_wedges]), has no result, and theorems about it speak of a call that
    returns.
    - Text: the loops over a text or a buffer take its length ([redirect_loop],
      [tokenize_from], [remove_loop], [drain_frames]), one more ([decode_from],
      [frame_start_from], [extract_loop], [parameters_loop]), or the distance to its end
      ([floor_loop], [ceil_loop]).
    - Graphs: the cycle search of workflows takes one unit more than the number of steps,
      that of the TODO list one per event on its frames ([dfs_fuel]), the walk of the index
      one per symbol and distance and two more ([walk_fuel]), the sort of tasks their
      number, since each is queued once.
    - State: the executor takes one turn per step and one more; trimming and eviction the
      number of entries; [grow_tail] the number of messages; corrections one turn more
      than are permitted.
    - Files and processes: the resolution of a path follows 40 links ([MAXSYMLINKS], the
      kernel's limit), [create_dir_all] takes the number of components,
      [existing_ancestor] the length of the path and one more, the readers of a pipe the
      bytes left and one more; a schema is matched to its depth and one more.

    Counters of the budget are [usize] with saturating arithmetic at 2^64 - 1; the token
    total and the times of the orchestrator are [i64] with wrap-around; ratios are
    binary64 numbers computed by [SpecFloat].  Counts of tokens in the prompt, and the totals
    of the budget's report, are numbers without a bound.

    ** Parameters

    Third-party and outside behaviour is an argument of the definitions that use it:
    - serde_json ([SerdeJson], [MetaJson], [MessageJson], [AuditJson], [JsonText]), globset
      ([glob_new]), the crate regex ([RegexLib], [RegexCaptures]), the line diff of
      [similar], [shellexpand::tilde], the Unicode tables ([UnicodeCase], [UnicodePrint],
      [UnicodeAlnum]), the tokenizer ([Tokenizer], [count_tokens]);
    - BLAKE3 ([Blake3], [DeriveKey]), SHA-256 and HMAC ([Sha256]): collisions are a
      hypothesis or an alternative of the theorems they matter to;
    - the network ([Network]: two answers of the resolver, whether a client can be built,
      responses and the redirects that are followed);
    - the iteration order of hash maps and sets ([hash_order], any permutation);
    - which file operations fail and where a write stops ([Io], [WriteIo]);
    - processes: what a command does ([Invocation], [bash]), the jobs' exits and output,
      the bodies of tools ([run_tool], [join_tool]), the delegate and the model client,
      the memory of the orchestrator, the verifiers ([correct]), formatters and
      [minify_source], the git probe ([gitignored]), which directories are world-writable;
    - the runner, the join set and the clock of the executor ([StepRunner], [Host]), the
      times of entries, the user ([ask]), the readers of channels, the cancel flag, the
      environment with [HOME], the registered transforms and the scrubber of the audit
      log ([Scrubber]).

    A tree of files is one state for the length of one check, one write or one tool body;
    what other processes do between them is a parameter where the code awaits
    ([ask], [bash], [join_tool]).

    ** What is not modelled

    - Terminal interface, entry points, configuration layers, metrics, the event bus:
      display, glue and counters.
    - Requests to models with their authentication, retries and cache; MCP, LSP and the
      plugin host: protocols around processes and the network.
    - The streaming loop of a turn around [answer_batch], adapter swap and costs; parallel
      orchestration, personas, task routing and delegation: sequences of asynchronous
      calls whose parts are modelled.
    - Process control: resource limits, landlock, seccomp, pseudo-terminals, worktrees and
      calls of git: system calls after the fork.
    - The daemon's sockets (its authorization is [Rbac]), scheduled jobs, the index of
      sessions, forks and replay; the cleanup of orphaned undo directories.
    - The source minifier, the extraction of symbols with tree-sitter, the verifiers, the
      other file tools ([glob], [grep], notebooks, images): walks and third-party parsers
      behind the modelled guards.  In [Recording] the metrics and the carry-over of
      findings to the next session. *)

From Stdlib Require Export Ascii Sorted.
From stdpp Require Export base numbers pretty strings gmap sets list.

#[export] Set Warnings "-register-all,-clear-no-such-hyp".

(** ** Characters and strings

    A Rust [char] is a Unicode scalar value, modelled by its code point; a
    Rust [str]/[String] is the list of its characters.  Operations of the code
    that look at bytes ([len], [as_bytes]) go through the UTF-8 encoding
    [utf8_encode]. *)

Abbreviation char := N (only parsing).
Abbreviation str := (list N).

Declare Scope rust_scope.
Delimit Scope rust_scope with rust.

(** [utf8_decode] reads well-formed UTF-8: the literals of the program, and bytes
    that an encoding or a scan of the program has produced. *)
Fixpoint utf8_decode (bs : list N) : str :=
  match bs with
  | [] => []
  | b0 :: r0 =>
      if (b0 <? 128)%N then b0 :: utf8_decode r0
      else match r0 with
           | [] => []
           | b1 :: r1 =>
               if (b0 <? 224)%N then ((b0 - 192) * 64 + (b1 - 128))%N :: utf8_decode r1
               else match r1 with
                    | [] => []
                    | b2 :: r2 =>
                        if (b0 <? 240)%N
                        then ((b0 - 224) * 4096 + (b1 - 128) * 64 + (b2 - 128))%N
                             :: utf8_decode r2
                        else match r2 with
                             | [] => []
                             | b3 :: r3 =>
                                 ((b0 - 240) * 262144 + (b1 - 128) * 4096
                                  + (b2 - 128) * 64 + (b3 - 128))%N :: utf8_decode r3
                             end
                    end
           end
  end.

Definition bytes_of_string (s : string) : list N :=
  map Ascii.N_of_ascii (String.list_ascii_of_string s).

(** A literal of the program text. *)
Definition lit (s : string) : str := utf8_decode (bytes_of_string s).
Coercion lit : string >-> list.

(** A character literal of the program text. *)
Definition chr (a : Ascii.ascii) : char := Ascii.N_of_ascii a.
Coercion chr : Ascii.ascii >-> N.

(** The double quote. *)
Definition dquote : str := [34%N].

Definition utf8_encode_char (c : char) : list N :=
  if (c <? 128)%N then [c]
  else if (c <? 2048)%N then [192 + c / 64; 128 + c mod 64]%N
  else if (c <? 65536)%N then [224 + c / 4096; 128 + (c / 64) mod 64; 128 + c mod 64]%N
  else [240 + c / 262144; 128 + (c / 4096) mod 64; 128 + (c / 64) mod 64; 128 + c mod 64]%N.

(** [str::as_bytes]. *)
Definition utf8_encode (s : str) : list N := s ≫= utf8_encode_char.

(** [str::len], the length in bytes. *)
Definition byte_len (s : str) : nat := length (utf8_encode s).

Definition str_eqb (a b : str) : bool := bool_decide (a = b).

(** *** Character classes *)

Definition in_range (lo hi c : N) : bool := ((lo <=? c) && (c <=? hi))%N.

(** [char::is_ascii_digit], [char::to_ascii_lowercase]. *)
Definition is_ascii_digit (c : char) : bool := in_range 48 57 c.
Definition ascii_lower (c : char) : char := if in_range 65 90 c then (c + 32)%N else c.
Definition to_ascii_lowercase (s : str) : str := map ascii_lower s.

(** [char::is_ascii_whitespace]: space, tab, line feed, form feed, return. *)
Definition is_ascii_whitespace (c : char) : bool :=
  bool_decide (c ∈ [32; 9; 10; 12; 13]%N).

(** [char::is_whitespace]: the Unicode property [White_Space]. *)
Definition is_whitespace (c : char) : bool :=
  in_range 9 13 c || in_range 8192 8202 c
  || bool_decide (c ∈ [32; 133; 160; 5760; 8232; 8233; 8239; 8287; 12288]%N).

(** [str::to_lowercase] agrees with the ASCII mapping on ASCII characters.  The
    tables of the other characters are the Unicode data the standard library
    ships; they may look at the context (final sigma), so a case mapping gets
    the characters before and after. *)
Class UnicodeCase := lower_nonascii : str -> char -> str -> str.

Fixpoint to_lowercase_from `{UnicodeCase} (before s : str) : str :=
  match s with
  | [] => []
  | c :: rest =>
      (if (c <? 128)%N then [ascii_lower c] else lower_nonascii before c rest)
      ++ to_lowercase_from (before ++ [c]) rest
  end.
Definition to_lowercase `{UnicodeCase} (s : str) : str := to_lowercase_from [] s.

(** *** Searching and splitting *)

Fixpoint starts_with (s p : str) {struct p} : bool :=
  match p, s with
  | [], _ => true
  | _, [] => false
  | x :: p', y :: s' => (x =? y)%N && starts_with s' p'
  end.

Definition ends_with (s p : str) : bool := starts_with (rev s) (rev p).

(** [str::contains] for a string pattern. *)
Fixpoint contains (s p : str) : bool :=
  starts_with s p ||
  match s with
  | [] => false
  | _ :: s' => contains s' p
  end.

(** [str::replace] for a non-empty pattern: left to right, non-overlapping.
    [skip] counts the characters of the current match still to drop. *)
Fixpoint replace_from (skip : nat) (s from to : str) : str :=
  match s with
  | [] => []
  | c :: s' =>
      match skip with
      | S k => replace_from k s' from to
      | O => if starts_with s from
             then to ++ replace_from (length from - 1) s' from to
             else c :: replace_from 0 s' from to
      end
  end.
Definition replace (s from to : str) : str := replace_from 0 s from to.

(** [str::split(c)] for a character pattern: always at least one piece. *)
Fixpoint split_char (sep : char) (s : str) : list str :=
  match s with
  | [] => [[]]
  | c :: s' =>
      if (c =? sep)%N then [] :: split_char sep s'
      else match split_char sep s' with
           | [] => [[c]]
           | piece :: pieces => (c :: piece) :: pieces
           end
  end.

(** [str::split_whitespace]. *)
Fixpoint split_ws_from (cur : str) (s : str) : list str :=
  match s with
  | [] => if decide (cur = []) then [] else [rev cur]
  | c :: s' =>
      if is_whitespace c
      then if decide (cur = []) then split_ws_from [] s' else rev cur :: split_ws_from [] s'
      else split_ws_from (c :: cur) s'
  end.
Definition split_whitespace (s : str) : list str := split_ws_from [] s.

Fixpoint trim_start (s : str) : str :=
  match s with
  | [] => []
  | c :: s' => if is_whitespace c then trim_start s' else s
  end.
Definition trim_end (s : str) : str := rev (trim_start (rev s)).
Definition trim (s : str) : str := trim_end (trim_start s).

(** [str::trim_end_matches(c)] for a character. *)
Fixpoint drop_leading (x : char) (s : str) : str :=
  match s with
  | [] => []
  | c :: s' => if (c =? x)%N then drop_leading x s' else s
  end.
Definition trim_end_matches (x : char) (s : str) : str := rev (drop_leading x (rev s)).

(** [[String]::join]. *)
Fixpoint join (sep : str) (l : list str) : str :=
  match l with
  | [] => []
  | [x] => x
  | x :: l' => x ++ sep ++ join sep l'
  end.

(** [format!("{}", n)] for an unsigned and a signed integer. *)
Definition show_N (n : N) : str := lit (pretty n).
Definition show_nat (n : nat) : str := show_N (N.of_nat n).
Definition show_Z (z : Z) : str := lit (pretty z).

(** [str::parse::<u64>], and [usize] on a 64-bit target: an optional plus sign, at least one
    digit, no overflow. *)
Fixpoint parse_digits (acc : N) (s : str) : option N :=
  match s with
  | [] => Some acc
  | c :: s' =>
      if is_ascii_digit c
      then let acc' := (acc * 10 + (c - 48))%N in
           if (acc' <? 2 ^ 64)%N then parse_digits acc' s' else None
      else None
  end.

Definition parse_u64 (s : str) : option N :=
  match s with
  | [] => None
  | c :: s' =>
      if (c =? 43)%N
      then (if decide (s' = []) then None else parse_digits 0 s')
      else parse_digits 0 s
  end.

(** [format!("{:08}", n)]. *)
Definition zero_pad (width : nat) (s : str) : str := replicate (width - length s) 48%N ++ s.

(** *** Debug formatting

    [{:?}] of strings and characters.  The escapes of ASCII characters are fixed;
    which other characters are printable is Unicode data. *)
Class UnicodePrint := printable_nonascii : char -> bool.

Definition hex_digit (n : N) : char := if (n <? 10)%N then (48 + n)%N else (87 + n)%N.

Fixpoint show_hex_from (fuel : nat) (n : N) (acc : str) : str :=
  match fuel with
  | O => acc
  | S fuel' =>
      let acc' := hex_digit (n mod 16) :: acc in
      if (n / 16 =? 0)%N then acc' else show_hex_from fuel' (n / 16) acc'
  end.

(** A code point has at most six hexadecimal digits. *)
Definition show_hex (n : N) : str := show_hex_from 8 n [].

Definition escape_debug `{UnicodePrint} (quote c : char) : str :=
  if (c =? quote)%N then lit "\" ++ [c]
  else if (c =? 92)%N then lit "\\"
  else if (c =? 9)%N then lit "\t"
  else if (c =? 10)%N then lit "\n"
  else if (c =? 13)%N then lit "\r"
  else if (c =? 0)%N then lit "\0"
  else if (if (c <? 128)%N then in_range 32 126 c else printable_nonascii c) then [c]
  else lit "\u{" ++ show_hex c ++ lit "}".

Definition debug_str `{UnicodePrint} (s : str) : str :=
  dquote ++ (s ≫= escape_debug 34) ++ dquote.
Definition debug_char `{UnicodePrint} (c : char) : str :=
  lit "'" ++ escape_debug 39 c ++ lit "'".

(** ** JSON values

    [serde_json::Value].  A number is kept as its canonical text, an object as
    the list of its members (keys are distinct in a [serde_json::Map]). *)
Inductive json : Type :=
| JNull
| JBool (b : bool)
| JNum (text : str)
| JStr (s : str)
| JArr (l : list json)
| JObj (members : list (str * json)).

Fixpoint assoc {A} (k : str) (l : list (str * A)) : option A :=
  match l with
  | [] => None
  | (k', v) :: l' => if str_eqb k k' then Some v else assoc k l'
  end.

(** [Value::get] with a string index, [as_str], [as_array], [as_bool], [as_u64]. *)
Definition json_get (v : json) (k : str) : option json :=
  match v with JObj m => assoc k m | _ => None end.
Definition as_str (v : json) : option str :=
  match v with JStr s => Some s | _ => None end.
Definition as_array (v : json) : option (list json) :=
  match v with JArr l => Some l | _ => None end.
Definition as_bool (v : json) : option bool :=
  match v with JBool b => Some b | _ => None end.
Definition as_u64 (v : json) : option N :=
  match v with JNum n => parse_u64 n | _ => None end.

(** ** Fallible code *)

Inductive result (A E : Type) : Type :=
| Ok (a : A)
| Err (e : E).
Arguments Ok {A E} a.
Arguments Err {A E} e.

Definition is_ok {A E} (r : result A E) : bool :=
  match r with Ok _ => true | Err _ => false end.

Definition result_bind {A B E} (r : result A E) (k : A -> result B E) : result B E :=
  match r with Ok a => k a | Err e => Err e end.

(** [ok_or] on an option. *)
Definition ok_or {A E} (o : option A) (e : E) : result A E :=
  match o with Some a => Ok a | None => Err e end.

Notation "'let?' x := r 'in' k" := (result_bind r (fun x => k))
  (at level 10, x pattern, r at level 99, k at level 200,
   format "'[v' 'let?'  x  :=  r  'in' '/' k ']'") : rust_scope.
Notation "'do?' r ;; k" := (result_bind r (fun _ => k))
  (at level 10, r at level 99, k at level 200,
   format "'[v' 'do?'  r  ;; '/' k ']'") : rust_scope.
#[global] Open Scope rust_scope.

(** [Option::unwrap_or], [Option::is_none_or]. *)
Definition unwrap_or {A} (d : A) (o : option A) : A :=
  match o with Some a => a | None => d end.
Definition is_none_or {A} (p : A -> bool) (o : option A) : bool :=
  match o with Some a => p a | None => true end.
Definition is_some_b {A} (o : option A) : bool :=
  match o with Some _ => true | None => false end.

Example lit_ascii : lit "ab/" = [97; 98; 47]%N.
Proof. reflexivity. Qed.
Example lit_nonascii : lit "é🔒" = [233; 128274]%N.
Proof. vm_compute. reflexivity. Qed.

Lemma result_bind_Ok {A B E} (r : result A E) (k : A -> result B E) b :
  result_bind r k = Ok b <-> exists a, r = Ok a /\ k a = Ok b.
Proof.
  destruct r as [a|e]; simpl; [|by split; [|intros (? & ? & _)]].
  split; [eauto | by intros (? & [= <-] & ?)].
Qed.

(** ** Lemmas on strings *)

Create HintDb kf discriminated.

(** Case analysis on the tests the definitions make. *)
Ltac case_test :=
  match goal with
  | |- context [if ?b then _ else _] =>
      lazymatch type of b with
      | bool => let E := fresh "E" in destruct b eqn:E
      | _ => case_decide
      end
  | H : context [if ?b then _ else _] |- _ =>
      lazymatch type of b with
      | bool => let E := fresh "E" in destruct b eqn:E
      | _ => case_decide
      end
  end.

(** Turn boolean facts into propositions. *)
Ltac to_prop :=
  repeat match goal with
  | H : str_eqb _ _ = true |- _ => apply bool_decide_eq_true_1 in H
  | H : str_eqb _ _ = false |- _ => apply bool_decide_eq_false_1 in H
  | H : (_ =? _)%N = true |- _ => apply N.eqb_eq in H
  | H : (_ =? _)%N = false |- _ => apply N.eqb_neq in H
  | H : bool_decide _ = true |- _ => apply bool_decide_eq_true_1 in H
  | H : bool_decide _ = false |- _ => apply bool_decide_eq_false_1 in H
  | H : (_ && _) = true |- _ => apply andb_true_iff in H as [? ?]
  | H : (_ || _) = false |- _ => apply orb_false_iff in H as [? ?]
  | H : negb _ = true |- _ => apply negb_true_iff in H
  | H : negb _ = false |- _ => apply negb_false_iff in H
  end.

Lemma str_eqb_eq (a b : str) : str_eqb a b = true <-> a = b.
Proof. unfold str_eqb. by rewrite bool_decide_eq_true. Qed.

Lemma str_eqb_refl (a : str) : str_eqb a a = true.
Proof. by apply str_eqb_eq. Qed.

Lemma str_eqb_neq (a b : str) : str_eqb a b = false <-> a <> b.
Proof. unfold str_eqb. by rewrite bool_decide_eq_false. Qed.

Lemma starts_with_spec (s p : str) : starts_with s p = true <-> exists r, s = p ++ r.
Proof.
  revert s; induction p as [|x p IH]; intros s; simpl.
  - split; [intros _; by exists s | done].
  - destruct s as [|y s]; simpl.
    + split; [done | by intros [r ?]].
    + rewrite andb_true_iff, N.eqb_eq, IH. split.
      * intros [-> [r ->]]. by exists r.
      * intros [r [= -> ->]]. eauto.
Qed.

Lemma ends_with_spec (s p : str) : ends_with s p = true <-> exists r, s = r ++ p.
Proof.
  unfold ends_with. rewrite starts_with_spec. split; intros [r Hr].
  - exists (rev r). apply (f_equal (@rev N)) in Hr.
    by rewrite rev_involutive, rev_app_distr, rev_involutive in Hr.
  - exists (rev r). by rewrite Hr, rev_app_distr.
Qed.

Lemma contains_spec (s p : str) : contains s p = true <-> exists a b, s = a ++ p ++ b.
Proof.
  induction s as [|c s IH]; simpl.
  - rewrite orb_false_r, starts_with_spec. split.
    + intros [r Hr]. by exists [], r.
    + intros ([|??] & b & Hb); [by exists b | done].
  - rewrite orb_true_iff, IH, starts_with_spec. split.
    + intros [[r Hr] | (a & b & ->)]; [by exists [], r | by exists (c :: a), b].
    + intros ([|c' a] & b & Hb).
      * left. by exists b.
      * right. injection Hb as -> ->. eauto.
Qed.

Lemma contains_app_l (a s p : str) : contains s p = true -> contains (a ++ s) p = true.
Proof.
  rewrite !contains_spec. intros (x & y & ->). exists (a ++ x), y. by rewrite app_assoc.
Qed.

Lemma contains_app_r (a s p : str) : contains s p = true -> contains (s ++ a) p = true.
Proof.
  rewrite !contains_spec. intros (x & y & ->). exists x, (y ++ a). by rewrite <-!app_assoc.
Qed.

Lemma trim_start_suffix (s : str) : exists w, s = w ++ trim_start s.
Proof.
  induction s as [|c s [w IH]]; simpl; [by exists [] |].
  destruct (is_whitespace c); [exists (c :: w); simpl; congruence | by exists []].
Qed.

Lemma trim_start_sublist (s : str) x : x ∈ trim_start s -> x ∈ s.
Proof. destruct (trim_start_suffix s) as [w Hw]. intros. rewrite Hw. set_solver. Qed.

Lemma elem_of_rev {A} (l : list A) x : x ∈ rev l <-> x ∈ l.
Proof. by rewrite !list_elem_of_In, <-in_rev. Qed.

Lemma trim_elem (s : str) x : x ∈ trim s -> x ∈ s.
Proof.
  unfold trim, trim_end. rewrite elem_of_rev.
  intros H%trim_start_sublist. rewrite elem_of_rev in H. by apply trim_start_sublist.
Qed.

Lemma split_char_elem sep (s : str) piece x :
  piece ∈ split_char sep s -> x ∈ piece -> x ∈ s /\ x <> sep.
Proof.
  revert piece; induction s as [|c s IH]; intros piece Hp Hx; simpl in *.
  - apply list_elem_of_singleton in Hp as ->. by apply elem_of_nil in Hx.
  - destruct (N.eqb_spec c sep) as [->|Hne].
    + apply elem_of_cons in Hp as [-> | Hp]; [by apply elem_of_nil in Hx |].
      destruct (IH _ Hp Hx). split; [by right | done].
    + destruct (split_char sep s) as [|p0 ps]; simpl in *.
      * apply list_elem_of_singleton in Hp as ->.
        apply list_elem_of_singleton in Hx as ->. split; [by left | done].
      * apply elem_of_cons in Hp as [-> | Hp].
        -- apply elem_of_cons in Hx as [-> | Hx]; [split; [by left | done] |].
           destruct (IH p0 (list_elem_of_here _ _) Hx). split; [by right | done].
        -- destruct (IH piece (list_elem_of_further _ _ _ Hp) Hx). split; [by right | done].
Qed.

Lemma split_char_nonempty sep (s : str) : split_char sep s <> [].
Proof.
  induction s as [|c s IH]; simpl; [done |].
  case_test; [done |]. by destruct (split_char sep s).
Qed.

(** Splitting on a character and joining with it gives the string back. *)
Lemma split_char_join sep (s : str) : join [sep] (split_char sep s) = s.
Proof.
  induction s as [|c s IH]; simpl; [done |].
  pose proof (split_char_nonempty sep s) as Hne.
  case_test; to_prop.
  - subst. destruct (split_char sep s) as [|p ps] eqn:E; [done |].
    simpl in *. by rewrite IH.
  - destruct (split_char sep s) as [|p ps] eqn:E2; [done |].
    destruct ps as [|q ps]; simpl in *; by f_equal.
Qed.

(** ** Lists padded in front *)

Lemma drop_leading_replicate x n (l : str) :
  drop_leading x (replicate n x ++ l) = drop_leading x l.
Proof. induction n as [|n IH]; simpl; [done |]. by rewrite N.eqb_refl. Qed.

Lemma drop_leading_split x (l : str) :
  l = replicate (length l - length (drop_leading x l)) x ++ drop_leading x l
  /\ length (drop_leading x l) <= length l.
Proof.
  induction l as [|c l [IH Hle]]; simpl; [done |].
  destruct (N.eqb_spec c x) as [->|Hne]; simpl.
  - split; [|lia]. rewrite Nat.sub_succ_l by done. simpl. by f_equal.
  - by rewrite Nat.sub_diag.
Qed.

Lemma drop_leading_inj x (l k : str) :
  length l = length k -> drop_leading x l = drop_leading x k -> l = k.
Proof.
  intros Hlen Heq.
  rewrite (proj1 (drop_leading_split x l)), (proj1 (drop_leading_split x k)).
  by rewrite Heq, Hlen.
Qed.

(** ** Early returns

    A run of [if cond { return Some(x) }] is a chain of [orelse]; the same
    inside a [for] loop is [find_map]. *)

Definition orelse {A} (o k : option A) : option A :=
  match o with Some _ => o | None => k end.
Notation "o <|> k" := (orelse o k) (at level 63, right associativity) : rust_scope.

Fixpoint find_map {A B} (f : A -> option B) (l : list A) : option B :=
  match l with
  | [] => None
  | x :: l' => match f x with Some y => Some y | None => find_map f l' end
  end.

Definition when {A} (b : bool) (x : A) : option A := if b then Some x else None.

Lemma orelse_None {A} (o k : option A) : o <|> k = None <-> o = None /\ k = None.
Proof. by destruct o; simpl; (split; [|intros [? ?]]). Qed.

Lemma when_None {A} b (x : A) : when b x = None <-> b = false.
Proof. by destruct b. Qed.

Lemma find_map_Some {A B} (f : A -> option B) l y :
  find_map f l = Some y -> exists x, x ∈ l /\ f x = Some y.
Proof.
  induction l as [|x l IH]; simpl; [done |]. destruct (f x) eqn:E.
  - intros [= <-]. exists x. split; [by left | done].
  - intros H. destruct (IH H) as (z & Hz & ?). exists z. split; [by right | done].
Qed.

Lemma find_map_None {A B} (f : A -> option B) l :
  find_map f l = None <-> Forall (fun x => f x = None) l.
Proof.
  induction l as [|x l IH]; simpl.
  - split; [constructor | done].
  - rewrite List.Forall_cons_iff, <-IH. by destruct (f x); (split; [|intros [? ?]]).
Qed.

(** [iter().find(..)]. *)
Fixpoint find_first {A} (p : A -> bool) (l : list A) : option A :=
  match l with
  | [] => None
  | x :: l' => if p x then Some x else find_first p l'
  end.

Lemma find_first_Some {A} (p : A -> bool) l x :
  find_first p l = Some x -> x ∈ l /\ p x = true.
Proof.
  induction l as [|y l IH]; simpl; [done |].
  destruct (p y) eqn:E.
  - intros [= ->]. split; [by left | done].
  - intros [? ?]%IH. split; [by right | done].
Qed.

Lemma find_first_None {A} (p : A -> bool) l :
  find_first p l = None <-> forall x, x ∈ l -> p x = false.
Proof.
  induction l as [|y l IH]; simpl.
  - split; [by intros _ x ?%elem_of_nil | done].
  - destruct (p y) eqn:E.
    + split; [done |]. intros H. specialize (H y (list_elem_of_here _ _)). congruence.
    + rewrite IH. setoid_rewrite elem_of_cons. split.
      * intros H x [-> | Hx]; [done | by apply H].
      * intros H x Hx. apply H. by right.
Qed.

Lemma existsb_elem {A} (p : A -> bool) l :
  existsb p l = true <-> exists x, x ∈ l /\ p x = true.
Proof.
  rewrite existsb_exists.
  split; intros (x & Hx & ?); exists x; (split; [by apply list_elem_of_In | done]).
Qed.

Lemma forallb_elem {A} (p : A -> bool) l :
  forallb p l = true <-> forall x, x ∈ l -> p x = true.
Proof.
  rewrite forallb_forall. split; intros H x Hx; apply H; by apply list_elem_of_In.
Qed.

(** *** [replace] *)

Lemma starts_with_app_notin (a b p : str) x :
  x ∉ p -> starts_with (a ++ x :: b) p = starts_with a p.
Proof.
  revert a; induction p as [|y p IH]; intros a Hx; [done |].
  apply not_elem_of_cons in Hx as [Hne Hx].
  destruct a as [|c a]; simpl.
  - assert ((y =? x)%N = false) as -> by (by apply N.eqb_neq). done.
  - by rewrite IH.
Qed.

Lemma starts_with_length (s p : str) : starts_with s p = true -> length p <= length s.
Proof. intros [r ->]%starts_with_spec. rewrite length_app. lia. Qed.

(** A character outside the pattern cuts the replacement in two. *)
Lemma replace_from_app k (a b from to : str) x :
  x ∉ from -> from <> [] -> k <= length a ->
  replace_from k (a ++ x :: b) from to = replace_from k a from to ++ x :: replace_from 0 b from to.
Proof.
  intros Hx Hne. revert k; induction a as [|c a IH]; intros k Hk; simpl in *.
  - assert (k = 0) as -> by lia.
    change (x :: b) with ([] ++ x :: b) at 1.
    rewrite starts_with_app_notin by done. by destruct from.
  - destruct k as [|k]; [|apply IH; lia].
    change (c :: a ++ x :: b) with ((c :: a) ++ x :: b).
    rewrite starts_with_app_notin by done.
    destruct (starts_with (c :: a) from) eqn:E.
    + apply starts_with_length in E. simpl in E. rewrite IH by lia. by rewrite <-app_assoc.
    + by rewrite IH by lia.
Qed.

Lemma replace_app (a b from to : str) x :
  x ∉ from -> from <> [] ->
  replace (a ++ x :: b) from to = replace a from to ++ x :: replace b from to.
Proof. intros. apply replace_from_app; [done | done | lia]. Qed.

(** Replacing a one-character pattern is a map. *)
Lemma replace_char_app (a b to : str) x :
  replace (a ++ x :: b) [x] to = replace a [x] to ++ to ++ replace b [x] to.
Proof.
  unfold replace. induction a as [|c a IH]; simpl.
  - by rewrite N.eqb_refl.
  - destruct (x =? c)%N; simpl; rewrite IH; by rewrite ?app_assoc.
Qed.

Lemma replace_elem (s from to : str) x : x ∈ replace s from to -> x ∈ s \/ x ∈ to.
Proof.
  unfold replace. generalize 0 as k.
  induction s as [|c s IH]; intros k; simpl; [auto |].
  rewrite elem_of_cons. destruct k as [|k].
  - case_test; rewrite ?elem_of_app, ?elem_of_cons; intros [?|?]; eauto; by edestruct IH; eauto.
  - intros H. edestruct IH; eauto.
Qed.

Lemma replace_char_notin (s to : str) x : x ∉ to -> x ∉ replace s [x] to.
Proof.
  intros Hto. unfold replace. induction s as [|c s IH]; simpl; [apply not_elem_of_nil |].
  destruct (N.eqb_spec x c) as [->|Hne]; simpl.
  - rewrite elem_of_app. tauto.
  - rewrite elem_of_cons. tauto.
Qed.

Lemma split_char_notin sep n : (sep ∉ n) -> split_char sep n = [n].
Proof.
  induction n as [|c n IH]; [done|]. intros [Hc Hn]%not_elem_of_cons. simpl.
  assert ((c =? sep)%N = false) as -> by (by apply N.eqb_neq). by rewrite IH.
Qed.

Lemma split_char_app sep (u v : str) :
  split_char sep (u ++ sep :: v) = split_char sep u ++ split_char sep v.
Proof.
  induction u as [|c u IH]; simpl.
  - by rewrite N.eqb_refl.
  - case_test; [by rewrite IH |].
    rewrite IH. pose proof (split_char_nonempty sep u). by destruct (split_char sep u).
Qed.

Lemma ascii_lower_idemp c : ascii_lower (ascii_lower c) = ascii_lower c.
Proof.
  unfold ascii_lower, in_range.
  destruct ((65 <=? c) && (c <=? 90))%N eqn:E; [|by rewrite E].
  to_prop. rewrite N.leb_le in *.
  by rewrite (proj2 (N.leb_gt (c + 32) 90)), andb_false_r by lia.
Qed.

(** Lower-casing does not change a test against a character that is not a letter. *)
Lemma ascii_lower_eqb c k :
  in_range 65 90 k = false -> in_range 97 122 k = false ->
  (ascii_lower c =? k)%N = (c =? k)%N.
Proof.
  unfold ascii_lower, in_range. intros H1 H2. case_test; [|done]. to_prop.
  apply andb_false_iff in H1, H2. rewrite !N.leb_le, !N.leb_gt in *.
  destruct (N.eqb_spec (c + 32) k), (N.eqb_spec c k); lia.
Qed.

(** A case table that maps no character outside ASCII; concrete evaluations on
    ASCII inputs use it. *)
Definition ascii_case : UnicodeCase := fun _ c _ => [c].

(** ** Decimal printing and parsing *)

Lemma lit_String a s : (chr a < 128)%N -> lit (String a s) = chr a :: lit s.
Proof.
  intros Ha. unfold lit, bytes_of_string. cbn [String.list_ascii_of_string map utf8_decode].
  fold (chr a). by rewrite (proj2 (N.ltb_lt _ _) Ha).
Qed.

Lemma pretty_N_char_code x : (x < 10)%N -> chr (pretty_N_char x) = (48 + x)%N.
Proof.
  intros Hx. assert (x = 0 \/ x = 1 \/ x = 2 \/ x = 3 \/ x = 4 \/ x = 5 \/ x = 6 \/ x = 7
                     \/ x = 8 \/ x = 9)%N as Hc by lia.
  by repeat destruct Hc as [->|Hc]; subst.
Qed.

Lemma parse_digits_go x s :
  (x < 2 ^ 64)%N -> parse_digits 0 (lit (pretty_N_go x s)) = parse_digits x (lit s).
Proof.
  revert s. induction (N.lt_wf_0 x) as [x _ IH]; intros s Hx.
  destruct (decide (0 < x)%N) as [Hp|Hp].
  - rewrite pretty_N_go_step by done.
    pose proof (N.div_lt x 10 Hp eq_refl) as Hd.
    pose proof (N.mod_lt x 10 ltac:(done)) as Hm.
    rewrite IH by lia. rewrite lit_String by (rewrite pretty_N_char_code by lia; lia).
    rewrite pretty_N_char_code by lia. cbn [parse_digits].
    assert (is_ascii_digit (48 + x `mod` 10)%N = true) as ->
      by (clear -Hm; revert Hm; generalize (x `mod` 10)%N; intros r Hr;
          apply andb_true_iff; split; apply N.leb_le; lia).
    assert (forall r, 48 + r - 48 = r)%N as Hsub by (intros; lia). rewrite Hsub.
    replace (x `div` 10 * 10 + x `mod` 10)%N with x
      by (rewrite N.mul_comm; by apply N.div_mod).
    by rewrite (proj2 (N.ltb_lt x _)).
  - by assert (x = 0%N) as -> by lia.
Qed.

Lemma parse_digits_zeros k s : parse_digits 0 (replicate k 48%N ++ s) = parse_digits 0 s.
Proof. induction k as [|k IH]; [done | exact IH]. Qed.

Lemma parse_digits_show n : (n < 2 ^ 64)%N -> parse_digits 0 (show_N n) = Some n.
Proof.
  intros Hn. unfold show_N, pretty, pretty_N. case_decide as H0; [by subst |].
  by rewrite parse_digits_go.
Qed.

Lemma parse_digits_not_plus s n : parse_digits 0 s = Some n -> s <> [] -> parse_u64 s = Some n.
Proof.
  destruct s as [|c s]; [done |]. intros Hp _. unfold parse_u64.
  destruct (c =? 43)%N eqn:E; [|done]. apply N.eqb_eq in E as ->. by simpl in Hp.
Qed.

Lemma show_N_nonempty n : show_N n <> [].
Proof.
  unfold show_N, pretty, pretty_N. case_decide as H0; [done |].
  assert (forall x s, lit s <> [] \/ (0 < x)%N -> lit (pretty_N_go x s) <> []) as Hgo.
  { intros x. induction (N.lt_wf_0 x) as [x _ IH]; intros s Hs.
    destruct (decide (0 < x)%N) as [Hp|Hp].
    - rewrite pretty_N_go_step by done. apply IH; [by apply N.div_lt |].
      left. rewrite lit_String; [done |].
      rewrite pretty_N_char_code; pose proof (N.mod_lt x 10 ltac:(done)); lia.
    - assert (x = 0%N) as -> by lia. destruct Hs as [Hs|Hs]; [done | lia]. }
  apply Hgo. right. lia.
Qed.

(** Padded numbers are read back. *)
Lemma parse_zero_pad w n : (n < 2 ^ 64)%N -> parse_u64 (zero_pad w (show_N n)) = Some n.
Proof.
  intros Hn. apply parse_digits_not_plus.
  - unfold zero_pad. by rewrite parse_digits_zeros, parse_digits_show.
  - unfold zero_pad. intros He. apply app_eq_nil in He as [_ He]. by apply (show_N_nonempty n).
Qed.

(** ** Finding a text *)

(** [str::find] for a string pattern, as a character offset. *)
Fixpoint find_sub (p s : str) : option nat :=
  if starts_with s p then Some 0
  else match s with
       | [] => None
       | _ :: s' => S <$> find_sub p s'
       end.

(** [str::rfind]. *)
Definition rfind_sub (p s : str) : option nat :=
  (fun k => length s - length p - k) <$> find_sub (rev p) (rev s).

Lemma find_sub_Some p s i :
  find_sub p s = Some i -> s = take i s ++ p ++ drop (i + length p) s.
Proof.
  revert i. induction s as [|c s IH]; intros i; simpl.
  - destruct (starts_with [] p) eqn:E; [|done]. intros [= <-].
    apply starts_with_spec in E as [r E]. symmetry in E. apply app_eq_nil in E as [-> ->]. done.
  - destruct (starts_with (c :: s) p) eqn:E.
    + intros [= <-]. apply starts_with_spec in E as [r E]. rewrite E. simpl.
      by rewrite drop_app_length.
    + destruct (find_sub p s) as [j|]; [|done]. intros [= <-]. simpl. f_equal. by apply IH.
Qed.

Lemma find_sub_None p s : find_sub p s = None <-> contains s p = false.
Proof.
  induction s as [|c s IH]; simpl.
  - destruct (starts_with [] p); simpl; split; congruence.
  - destruct (starts_with (c :: s) p); simpl; [split; congruence|].
    rewrite <-IH. destruct (find_sub p s); simpl; split; congruence.
Qed.

(** ** Sorting by a key

    [slice::sort_by_key], a stable sort. *)

Section SortBy.
Context {A : Type}.
Variable key : A -> N.

Fixpoint insert_by (x : A) (l : list A) : list A :=
  match l with
  | [] => [x]
  | y :: l' => if (key x <=? key y)%N then x :: l else y :: insert_by x l'
  end.
Definition sort_by (l : list A) : list A := foldr insert_by [] l.

Lemma insert_by_perm x l : Permutation (insert_by x l) (x :: l).
Proof.
  induction l as [|y l IH]; simpl; [done |]. case_match; [done |].
  by rewrite IH, Permutation_swap.
Qed.

Lemma sort_by_perm l : Permutation (sort_by l) l.
Proof. induction l as [|x l IH]; simpl; [done |]. by rewrite insert_by_perm, IH. Qed.

Lemma insert_by_sorted x l :
  StronglySorted (fun a b => key a <= key b)%N l ->
  StronglySorted (fun a b => key a <= key b)%N (insert_by x l).
Proof.
  induction l as [|y l IH]; intros Hs; simpl; [by repeat constructor |].
  inversion Hs as [|? ? Hs' Hall]; subst. case_match eqn:E.
  - apply N.leb_le in E. constructor; [done |]. constructor; [done |].
    eapply Forall_impl; [done |]. simpl. intros z ?. lia.
  - apply N.leb_gt in E. constructor; [by apply IH |].
    rewrite insert_by_perm. constructor; [lia | done].
Qed.

Lemma sort_by_sorted l : StronglySorted (fun a b => key a <= key b)%N (sort_by l).
Proof. induction l; simpl; [constructor | by apply insert_by_sorted]. Qed.

(** Elements with distinct keys have one sorted order. *)
Lemma sort_by_unique l l' :
  Permutation l l' -> StronglySorted (fun a b => key a < key b)%N l' -> sort_by l = l'.
Proof.
  intros Hp Hs'. pose proof (sort_by_sorted l) as Hs.
  assert (Permutation (sort_by l) l') as Hp' by (by rewrite sort_by_perm).
  revert Hs Hp'. generalize (sort_by l) as k. clear Hp l.
  induction l' as [|y l' IH]; intros k Hs Hp.
  - by apply Permutation_nil_r in Hp.
  - destruct k as [|x k]; [by apply Permutation_nil_l in Hp |].
    inversion Hs as [|? ? Hsk Hall]; subst. inversion Hs' as [|? ? Hsl' Hall']; subst.
    rewrite Forall_forall in Hall, Hall'.
    assert (x = y) as ->.
    { assert (x ∈ y :: l') as Hx by (rewrite <-Hp; by left).
      apply elem_of_cons in Hx as [->|Hx]; [done |].
      assert (y ∈ x :: k) as Hy by (rewrite Hp; by left).
      apply elem_of_cons in Hy as [->|Hy]; [done |].
      specialize (Hall y Hy). specialize (Hall' x Hx). simpl in *. lia. }
    f_equal. apply IH; [done..|]. by apply Permutation_cons_inv in Hp.
Qed.
End SortBy.

(** ** Digits *)

Lemma parse_digits_all acc s n :
  parse_digits acc s = Some n -> Forall (fun c => is_ascii_digit c = true) s.
Proof.
  revert acc. induction s as [|c s IH]; intros acc; simpl; [constructor |].
  destruct (is_ascii_digit c) eqn:E; [|done]. case_match; [|done]. intros Hp.
  constructor; [done | by eapply IH].
Qed.

Lemma zero_pad_digits w n :
  (n < 2 ^ 64)%N -> Forall (fun c => is_ascii_digit c = true) (zero_pad w (show_N n)).
Proof.
  intros Hn. unfold zero_pad. apply Forall_app. split.
  - by apply Forall_replicate.
  - eapply parse_digits_all, parse_digits_show, Hn.
Qed.

(** ** Lists *)

Lemma NoDup_omap {A B} (f : A -> option B) l :
  NoDup l -> (forall x y z, x ∈ l -> y ∈ l -> f x = Some z -> f y = Some z -> x = y) ->
  NoDup (omap f l).
Proof.
  induction l as [|x l IH]; intros Hnd Hinj; simpl; [constructor |].
  apply NoDup_cons in Hnd as [Hn Hnd].
  assert (NoDup (omap f l)) as Hl.
  { apply IH; [done |]. intros a b z Ha Hb. apply Hinj; by right. }
  destruct (f x) as [z|] eqn:E; [|done]. apply NoDup_cons. split; [|done].
  intros (y & Hy & Hfy)%list_elem_of_omap. apply Hn.
  by rewrite (Hinj x y z ltac:(by left) ltac:(by right) E Hfy).
Qed.

(** A list against its image. *)
Lemma Forall2_map_self {A B} (P : A -> B -> Prop) (f : A -> B) l :
  (forall x, P x (f x)) -> Forall2 P l (map f l).
Proof. intros Hp. induction l; constructor; auto. Qed.
