(* ===== verification/Names.v ===== *)
(** * The order of names

    Strings in the order of their bytes, which is the order of their characters, and
    the sorting of names: checkpoints of the conversation log, keys of canonical JSON,
    members of an object. *)

From Stdlib Require Import ssreflect.
From stdpp Require Import sorting.
From S2P Require Import Prelude.

(** The order of paths in one directory: by bytes, which is by characters. *)
Fixpoint str_le (a b : str) : bool :=
  match a, b with
  | [], _ => true
  | _ :: _, [] => false
  | x :: a', y :: b' => if (x =? y)%N then str_le a' b' else (x <? y)%N
  end.
Fixpoint insert_name (x : str) (l : list str) : list str :=
  match l with [] => [x] | y :: l' => if str_le x y then x :: l else y :: insert_name x l' end.
Definition sort_names (l : list str) : list str := foldr insert_name [] l.

(** [serde_json::Map::insert]: members are sorted by key. *)
Fixpoint insert_member (k : str) (v : json) (l : list (str * json)) : list (str * json) :=
  match l with
  | [] => [(k, v)]
  | (k', v') :: l' =>
      if str_eqb k k' then (k, v) :: l'
      else if str_le k k' then (k, v) :: l
      else (k', v') :: insert_member k v l'
  end.

(** ** Laws *)

Abbreviation names_le := (fun a b => str_le a b = true).

Lemma str_le_total a b : str_le a b = false -> str_le b a = true.
Proof.
  revert b. induction a as [|x a IH]; intros [|y b]; simpl; try done. rw N.eqb_sym.
  destruct (N.eqb_spec y x) as [->|Hne]; [by apply IH|]. intros Hl%N.ltb_ge. apply N.ltb_lt. lia.
Qed.

Lemma str_le_trans a b c : str_le a b = true -> str_le b c = true -> str_le a c = true.
Proof.
  revert b c. induction a as [|x a IH]; intros [|y b] [|z c]; simpl; try done.
  destruct (N.eqb_spec x y), (N.eqb_spec y z), (N.eqb_spec x z); subst; try done; rw ?N.ltb_lt; try lia.
  by apply IH.
Qed.

Lemma str_le_antisym a b : str_le a b = true -> str_le b a = true -> a = b.
Proof.
  revert b. induction a as [|x a IH]; intros [|y b]; simpl; try done. rw (N.eqb_sym y x).
  destruct (N.eqb_spec x y) as [->|Hne]; [by intros H1 H2; rw (IH b)|].
  rw !N.ltb_lt. lia.
Qed.

#[export] Instance names_le_antisym : AntiSymm eq names_le := fun a b => str_le_antisym a b.

Lemma insert_name_perm x l : Permutation (insert_name x l) (x :: l).
Proof.
  induction l as [|y l IH]; simpl; [done|]. destruct (str_le x y); [done|].
  rw IH. apply Permutation_swap.
Qed.

Lemma sort_names_perm l : Permutation (sort_names l) l.
Proof. induction l as [|x l IH]; simpl; [done|]. by rw insert_name_perm IH. Qed.

Lemma insert_name_sorted x l : StronglySorted names_le l -> StronglySorted names_le (insert_name x l).
Proof.
  induction 1 as [|y l Hs IH Hall]; simpl; [repeat constructor|].
  destruct (str_le x y) eqn:E.
  - constructor; [by constructor|]. constructor; [done|]. eapply Forall_impl; [done|].
    intros z. by apply str_le_trans.
  - constructor; [done|]. rw insert_name_perm. constructor; [by apply str_le_total|done].
Qed.

Lemma sort_names_sorted l : StronglySorted names_le (sort_names l).
Proof. induction l as [|x l IH]; simpl; [constructor|]. by apply insert_name_sorted. Qed.

(** Sorting depends on the names only, not on the order they come in. *)
Lemma sort_names_unique l l' : Permutation l l' -> sort_names l = sort_names l'.
Proof.
  intros Hp. apply (StronglySorted_unique names_le); [apply sort_names_sorted..|].
  by rw !sort_names_perm.
Qed.

Lemma sorted_drop n l : StronglySorted names_le l -> StronglySorted names_le (drop n l).
Proof.
  revert l. induction n as [|n IH]; intros l Hs; [done|]. destruct Hs; [constructor|by apply IH].
Qed.

(** A sorted list ends with its greatest element. *)
Lemma sorted_last l x :
  StronglySorted names_le l -> x ∈ l -> (forall y, y ∈ l -> str_le y x = true) -> last l = Some x.
Proof.
  induction 1 as [|y l Hs IH Hall]; intros Hx Hle; [by apply not_elem_of_nil in Hx|].
  destruct l as [|z l].
  - apply list_elem_of_singleton in Hx as ->. done.
  - change (last (z :: l) = Some x). apply IH; [|intros w Hw; apply Hle; by right].
    apply elem_of_cons in Hx as [->|?]; [|done].
    rw Forall_cons in Hall. destruct Hall as [Hyz _].
    rw (str_le_antisym y z) //; [|by left]. apply Hle. right. by left.
Qed.

(** Names with the same prefix and suffix are ordered as the numbers between them. *)
Lemma str_le_app p a b : str_le (p ++ a) (p ++ b) = str_le a b.
Proof. induction p as [|x p IH]; simpl; [done|]. by rw N.eqb_refl. Qed.
