(* ===== verification/Machine.v ===== *)
(** * Machine numbers, UTF-8 and text

    The parts of the Rust language and its standard library that several components
    share: binary64 numbers with the rounding of the hardware ([SpecFloat]), their
    printing with a fixed number of digits, [i64] with the wrap-around of a release
    build, [String::from_utf8], and the functions of [str] that work on byte offsets and
    on lines. *)

From Stdlib Require Import SpecFloat.
From S2P Require Import Prelude.

(** ** Binary64 *)

Definition f64_of (n : N) : spec_float := binary_normalize 53 1024 (Z.of_N n) 0 false.
Definition f64_div (x y : spec_float) : spec_float := SFdiv 53 1024 x y.
Definition f64_ge (x y : spec_float) : bool := SFleb y x.
(** 0.8 *)
Definition f64_0_8 : spec_float := S754_finite false 7205759403792794 (-53).

Notation f64 := spec_float (only parsing).
Definition f64_add (x y : f64) : f64 := SFadd 53 1024 x y.
Definition f64_mul (x y : f64) : f64 := SFmul 53 1024 x y.
Definition f64_sub (x y : f64) : f64 := SFsub 53 1024 x y.
Definition f64_gt (x y : f64) : bool := SFltb y x.

(** Binary32. *)
Notation f32 := spec_float (only parsing).
Definition f32_of_Z (z : Z) : f32 := binary_normalize 24 128 z 0 false.
Definition f32_div (x y : f32) : f32 := SFdiv 24 128 x y.
Definition f32_add (x y : f32) : f32 := SFadd 24 128 x y.
Definition f32_mul (x y : f32) : f32 := SFmul 24 128 x y.
Definition f32_sqrt (x : f32) : f32 := SFsqrt 24 128 x.
Definition f32_decimal (m : Z) (k : N) : f32 := f32_div (f32_of_Z m) (f32_of_Z (10 ^ Z.of_N k)).

(** [z as f64]: the nearest number, ties to even. *)
Definition f64_of_Z (z : Z) : f64 := binary_normalize 53 1024 z 0 false.

(** The literal with the digits [m], of which [k] are behind the point; division rounds
    correctly and both arguments are exact for the literals of the program. *)
Definition decimal (m : Z) (k : N) : f64 := f64_div (f64_of_Z m) (f64_of_Z (10 ^ Z.of_N k)).

(** The nearest integer to [num / den], ties to even. *)
Definition div_half_even (num den : Z) : Z :=
  let q := (num / den)%Z in
  match Z.compare (2 * (num mod den))%Z den with
  | Lt => q
  | Gt => (q + 1)%Z
  | Eq => if Z.even q then q else (q + 1)%Z
  end.

(** [format!("{:.k}", x)]. *)
Definition show_fixed (k : nat) (x : f64) : str :=
  let digits (s : bool) (n : Z) :=
    let p := (10 ^ Z.of_nat k)%Z in
    (if s then lit "-" else []) ++ show_Z (n / p)
    ++ (if Nat.eqb k 0 then [] else lit "." ++ zero_pad k (show_Z (n mod p))) in
  match x with
  | S754_nan => lit "NaN"
  | S754_infinity s => if s then lit "-inf" else lit "inf"
  | S754_zero s => digits s 0%Z
  | S754_finite s m e =>
      let scaled := (Z.pos m * 10 ^ Z.of_nat k)%Z in
      digits s (if (0 <=? e)%Z then (scaled * 2 ^ e)%Z else div_half_even scaled (2 ^ (- e))%Z)
  end.

Example show_fixed_examples :
  show_fixed 4 (decimal 15 5) = lit "0.0001" /\ show_fixed 2 (decimal 25 1) = lit "2.50"
  /\ show_fixed 4 (decimal (-12345678) 4) = lit "-1234.5678" /\ show_fixed 0 (decimal 25 1) = lit "2".
Proof. vm_compute. repeat split; reflexivity. Qed.

(** ** [i64]

    With the wrap-around of the release build. *)

Definition i64_wrap (z : Z) : Z := ((z + 2 ^ 63) mod 2 ^ 64 - 2 ^ 63)%Z.
Definition i64_add (a b : Z) : Z := i64_wrap (a + b).
Definition i64_sub (a b : Z) : Z := i64_wrap (a - b).
Definition in_i64 (z : Z) : Prop := (- 2 ^ 63 <= z < 2 ^ 63)%Z.

Lemma i64_wrap_id z : in_i64 z -> i64_wrap z = z.
Proof. unfold in_i64, i64_wrap. intros Hz. rewrite Z.mod_small; lia. Qed.

(** ** UTF-8 *)

(** [String::from_utf8]: the bytes are the encoding of a text. *)
Definition is_scalar (c : char) : bool :=
  (c <? 55296)%N || ((57344 <=? c)%N && (c <? 1114112)%N).
Definition from_utf8 (b : list N) : option str :=
  let s := utf8_decode b in
  if bool_decide (utf8_encode s = b) && forallb is_scalar s then Some s else None.

Lemma utf8_decode_any c s : utf8_decode (utf8_encode_char c ++ s) = c :: utf8_decode s.
Proof.
  unfold utf8_encode_char.
  destruct (N.ltb_spec c 128) as [H1|H1].
  { cbn [app utf8_decode]. by rewrite (proj2 (N.ltb_lt _ _) H1). }
  pose proof (N.div_mod c 64 ltac:(done)) as D1. pose proof (N.mod_lt c 64 ltac:(done)) as M1.
  assert (c / 4096 = c / 64 / 64)%N as E2 by (by rewrite N.Div0.div_div).
  assert (c / 262144 = c / 64 / 64 / 64)%N as E3 by (by rewrite !N.Div0.div_div).
  pose proof (N.div_mod (c / 64) 64 ltac:(done)) as D2.
  pose proof (N.mod_lt (c / 64) 64 ltac:(done)) as M2.
  pose proof (N.div_mod (c / 64 / 64) 64 ltac:(done)) as D3.
  pose proof (N.mod_lt (c / 64 / 64) 64 ltac:(done)) as M3.
  rewrite E2, E3. set (q1 := (c / 64)%N) in *. set (r1 := (c mod 64)%N) in *.
  set (q2 := (q1 / 64)%N) in *. set (r2 := (q1 mod 64)%N) in *.
  set (q3 := (q2 / 64)%N) in *. set (r3 := (q2 mod 64)%N) in *.
  clearbody q1 r1 q2 r2 q3 r3.
  destruct (N.ltb_spec c 2048) as [H2|H2]; [|destruct (N.ltb_spec c 65536) as [H3|H3]];
    cbn [app utf8_decode].
  - rewrite (proj2 (N.ltb_ge _ _)) by lia. rewrite (proj2 (N.ltb_lt _ _)) by lia. f_equal. lia.
  - rewrite (proj2 (N.ltb_ge _ _)) by lia. rewrite (proj2 (N.ltb_ge _ _)) by lia.
    rewrite (proj2 (N.ltb_lt _ _)) by lia. f_equal. lia.
  - rewrite (proj2 (N.ltb_ge _ _)) by lia. rewrite (proj2 (N.ltb_ge _ _)) by lia.
    rewrite (proj2 (N.ltb_ge _ _)) by lia. f_equal. lia.
Qed.

Lemma utf8_decode_char c s :
  is_scalar c = true -> utf8_decode (utf8_encode_char c ++ s) = c :: utf8_decode s.
Proof. intros _. apply utf8_decode_any. Qed.

(** Different texts have different bytes. *)
Lemma utf8_encode_inj a b : utf8_encode a = utf8_encode b -> a = b.
Proof.
  assert (forall s, utf8_decode (utf8_encode s) = s) as Hd.
  { intros s. unfold utf8_encode. induction s as [|c s IH]; [done |]. by rewrite bind_cons, utf8_decode_any, IH. }
  intros He. by rewrite <-(Hd a), He, Hd.
Qed.

Lemma utf8_decode_encode s : forallb is_scalar s = true -> utf8_decode (utf8_encode s) = s.
Proof.
  unfold utf8_encode. induction s as [|c s IH]; [done |]. cbn [forallb].
  intros [Hc Hs]%andb_true_iff. by rewrite bind_cons, utf8_decode_char, IH.
Qed.

Lemma from_utf8_encode s : forallb is_scalar s = true -> from_utf8 (utf8_encode s) = Some s.
Proof.
  intros Hs. unfold from_utf8. rewrite utf8_decode_encode, Hs by done.
  by rewrite bool_decide_eq_true_2.
Qed.

(** [String::from_utf8_lossy]: what is not UTF-8 becomes U+FFFD, one for each maximal
    prefix of a character. *)
Definition is_cont (b : N) : bool := in_range 128 191 b.

(** The length of the character a byte starts, and the range of its second byte. *)
Definition lead_byte (b : N) : option (nat * N * N) :=
  if in_range 194 223 b then Some (2, 128%N, 191%N)
  else if (b =? 224)%N then Some (3, 160%N, 191%N)
  else if in_range 225 236 b || in_range 238 239 b then Some (3, 128%N, 191%N)
  else if (b =? 237)%N then Some (3, 128%N, 159%N)
  else if (b =? 240)%N then Some (4, 144%N, 191%N)
  else if in_range 241 243 b then Some (4, 128%N, 191%N)
  else if (b =? 244)%N then Some (4, 128%N, 143%N)
  else None.

(** The bytes of the character that [b] starts, as far as they are there: how many, and
    whether they are all. *)
Definition char_prefix (b : N) (rest : list N) : nat * bool :=
  match lead_byte b with
  | None => (1, false)
  | Some (w, lo, hi) =>
      match rest with
      | b1 :: rest1 =>
          if in_range lo hi b1 then
            if bool_decide (w = 2) then (2, true)
            else match rest1 with
                 | b2 :: rest2 =>
                     if is_cont b2 then
                       if bool_decide (w = 3) then (3, true)
                       else match rest2 with
                            | b3 :: _ => if is_cont b3 then (4, true) else (3, false)
                            | [] => (3, false)
                            end
                     else (2, false)
                 | [] => (2, false)
                 end
          else (1, false)
      | [] => (1, false)
      end
  end.

Fixpoint lossy_from (skip : nat) (bs : list N) : str :=
  match bs with
  | [] => []
  | b :: rest =>
      match skip with
      | S k => lossy_from k rest
      | O =>
          if (b <? 128)%N then b :: lossy_from 0 rest
          else let '(n, ok) := char_prefix b rest in
               (if ok then utf8_decode (take n bs) else [65533%N]) ++ lossy_from (n - 1) rest
      end
  end.
Definition from_utf8_lossy (bs : list N) : str := lossy_from 0 bs.

(** [str::parse::<u32>]. *)
Definition parse_u32 (s : str) : option N :=
  match parse_u64 s with Some n => if (n <? 2 ^ 32)%N then Some n else None | None => None end.

(** ** Text *)

(** The largest [usize]. *)
Definition usize_max : N := 2 ^ 64 - 1.
Definition saturating_add (a b : N) : N := N.min usize_max (a + b).

Definition char_len (c : char) : N := N.of_nat (length (utf8_encode_char c)).
Definition str_len (s : str) : N := N.of_nat (byte_len s).

(** [(&s[..i], &s[i..])], a panic when [i] is not a boundary. *)
Fixpoint split_at_byte (s : str) (i : N) : option (str * str) :=
  if (i =? 0)%N then Some ([], s) else
  match s with
  | [] => None
  | c :: s' =>
      if (char_len c <=? i)%N
      then match split_at_byte s' (i - char_len c) with
           | Some (a, b) => Some (c :: a, b)
           | None => None
           end
      else None
  end.

(** [str::lines]: a line ends with a line feed, before which one carriage return is
    dropped; the text after the last line feed is a line when it is not empty. *)
Definition strip_cr (l : str) : str := if ends_with l [13%N] then removelast l else l.
Fixpoint lines_of (pieces : list str) : list str :=
  match pieces with
  | [] => []
  | [p] => if decide (p = []) then [] else [p]
  | p :: pieces' => strip_cr p :: lines_of pieces'
  end.
Definition lines (s : str) : list str := lines_of (split_char 10 s).

(** [str::strip_prefix], [str::strip_suffix]. *)
Definition strip_prefix (s p : str) : option str :=
  if starts_with s p then Some (drop (length p) s) else None.
Definition strip_suffix (s p : str) : option str :=
  if ends_with s p then Some (take (length s - length p) s) else None.

Lemma char_len_pos c : (1 <= char_len c)%N.
Proof. unfold char_len, utf8_encode_char. repeat case_match; simpl; lia. Qed.

Lemma str_len_cons c s : str_len (c :: s) = (char_len c + str_len s)%N.
Proof. unfold str_len, byte_len, char_len, utf8_encode. rewrite bind_cons, length_app. lia. Qed.

Lemma utf8_encode_app a b : utf8_encode (a ++ b) = utf8_encode a ++ utf8_encode b.
Proof. unfold utf8_encode. apply bind_app. Qed.

Lemma str_len_nil : str_len [] = 0%N.
Proof. done. Qed.

Lemma str_len_app a b : str_len (a ++ b) = (str_len a + str_len b)%N.
Proof.
  induction a as [|c a IH]; [done |]. change ((c :: a) ++ b) with (c :: (a ++ b)).
  rewrite !str_len_cons. lia.
Qed.

Lemma str_len_zero s : str_len s = 0%N -> s = [].
Proof. destruct s as [|c s]; [done |]. rewrite str_len_cons. pose proof (char_len_pos c). lia. Qed.

Lemma split_at_byte_spec s i a b :
  split_at_byte s i = Some (a, b) <-> s = a ++ b /\ str_len a = i.
Proof.
  revert i a. induction s as [|c s IH]; intros i a; simpl.
  - destruct (N.eqb_spec i 0) as [->|Hi].
    + split; [intros [= <- <-]; done |]. intros [Hs Ha].
      symmetry in Hs. apply app_nil in Hs as [-> ->]. done.
    + split; [done |]. intros [Hs Ha]. symmetry in Hs. apply app_nil in Hs as [-> ->].
      by rewrite str_len_nil in Ha.
  - pose proof (char_len_pos c) as Hc. destruct (N.eqb_spec i 0) as [->|Hi].
    + split; [intros [= <- <-]; done |]. intros [Hs Ha%str_len_zero]. subst a. simpl in Hs. by subst b.
    + destruct (N.leb_spec (char_len c) i) as [Hle|Hlt].
      * split.
        -- destruct (split_at_byte s (i - char_len c)) as [[a' b']|] eqn:E; [|done].
           intros [= <- <-]. apply IH in E as [-> Ha]. rewrite str_len_cons. split; [done | lia].
        -- intros [Hs Ha]. destruct a as [|x a]; [rewrite str_len_nil in Ha; lia |].
           injection Hs as <- Hs. rewrite str_len_cons in Ha.
           rewrite (proj2 (IH (i - char_len c)%N a)); [done |]. split; [done | lia].
      * split; [done |]. intros [Hs Ha]. destruct a as [|x a]; [rewrite str_len_nil in Ha; lia |].
        injection Hs as <- Hs. rewrite str_len_cons in Ha. lia.
Qed.

Lemma strip_prefix_Some s p r : strip_prefix s p = Some r <-> s = p ++ r.
Proof.
  unfold strip_prefix. destruct (starts_with s p) eqn:E.
  - apply starts_with_spec in E as [r' ->]. rewrite drop_app_length.
    split; [by intros [= ->] | by intros ->%app_inv_head].
  - split; [done |]. intros ->. assert (starts_with (p ++ r) p = true); [|congruence].
    apply starts_with_spec. eauto.
Qed.

Lemma strip_suffix_Some s p r : strip_suffix s p = Some r <-> s = r ++ p.
Proof.
  unfold strip_suffix. destruct (ends_with s p) eqn:E.
  - apply ends_with_spec in E as [r' ->]. rewrite length_app, Nat.add_sub, take_app_length.
    split; [by intros [= ->] | by intros ->%app_inv_tail].
  - split; [done |]. intros ->. assert (ends_with (r ++ p) p = true); [|congruence].
    apply ends_with_spec. eauto.
Qed.

Lemma strip_suffix_app s p : strip_suffix (s ++ p) p = Some s.
Proof. by apply strip_suffix_Some. Qed.
