(* ===== verification/Graph.v ===== *)
(** * Dependency graphs

    The notions the components with dependencies share (workflow steps, TODO items,
    decomposed subtasks): chains of dependencies, cycles, and groundedness (every
    chain from a node ends), for an arbitrary relation. *)

From stdpp Require Import relations.
From S2P Require Import Prelude.

Section Graph.
Context {A : Type}.
Variable R : A -> A -> Prop.

(** A list of nodes, each related to the next. *)
Inductive chain : list A -> Prop :=
| chain_one a : chain [a]
| chain_cons a b p : R a b -> chain (b :: p) -> chain (a :: b :: p).

(** A chain of at least one edge that returns to its first node. *)
Definition is_cycle (c : list A) : Prop :=
  chain c /\ 2 <= length c /\ head c = last c.

Definition acyclic : Prop := forall a, ~ tc R a a.

(** Every chain that starts at [a] ends. *)
Definition grounded (a : A) : Prop := Acc (fun b a => R a b) a.

Lemma grounded_no_cycle a : grounded a -> ~ tc R a a.
Proof.
  intros Hx. induction Hx as [x _ IH]. intros H.
  inversion H as [? ? H1|? z ? H1 H2]; subst.
  - apply (IH x H1). by apply tc_once.
  - apply (IH z H1). by eapply tc_r.
Qed.

Lemma chain_tc a p b : chain (a :: p ++ [b]) -> tc R a b.
Proof.
  revert a. induction p as [|c p IH]; simpl; intros a H; inversion H; subst.
  - by apply tc_once.
  - eapply tc_l; [done | by apply IH].
Qed.

Lemma is_cycle_tc c : is_cycle c -> exists a, tc R a a.
Proof.
  intros (Hp & Hlen & Heq). destruct c as [|a c]; simpl in *; [lia |].
  destruct c as [|z c _] using rev_ind; [simpl in *; lia |].
  rewrite app_comm_cons, last_snoc in Heq. injection Heq as ->.
  exists z. by eapply chain_tc.
Qed.

Lemma chain_snoc p a b : chain (p ++ [a]) -> R a b -> chain ((p ++ [a]) ++ [b]).
Proof.
  induction p as [|c p IH]; simpl; intros H Hd.
  - apply chain_cons; [done | apply chain_one].
  - destruct p as [|e p]; simpl in *; inversion H; subst; apply chain_cons; auto.
Qed.

Lemma chain_app_l p q : p <> [] -> chain (p ++ q) -> chain p.
Proof.
  induction p as [|a [|b p] IH]; [done | intros; apply chain_one |]. simpl. intros _ H.
  inversion H; subst. apply chain_cons; [done | by apply IH].
Qed.

Lemma chain_app_r p q : q <> [] -> chain (p ++ q) -> chain q.
Proof.
  intros Hq. induction p as [|c p IH]; simpl; [done |]. intros H. apply IH.
  inversion H; subst; [|done].
  destruct p; simpl in *; [by subst | done].
Qed.

(** If every node with an outgoing edge is grounded there is no cycle. *)
Lemma grounded_all_acyclic : (forall a b, R a b -> grounded a) -> acyclic.
Proof.
  intros H a Ha. assert (exists b, R a b) as [b Hb] by (inversion Ha; eauto).
  by eapply grounded_no_cycle; [eapply H |].
Qed.
End Graph.
