(* ===== verification/Rbac.v ===== *)
(** * Role-based access control (crates/kf-rbac)

    Roles, permissions, the deny-by-default role table, [authorize] and
    [authorize_tenant] with their audit hook, role resolution from group names
    and the constant-time API-key check.

    The audit hook is a callback that only observes decisions: a call with the
    hook present is modelled by the list of decisions it is called with.  The
    clock ([now_iso]) is the argument [now]. *)

From S2P Require Import Prelude.

(** ** Errors (error.rs) *)

Inductive AuthErrorCode := Unauthorized | Forbidden | InvalidToken | MethodNotAllowed.
#[export] Instance AuthErrorCode_eq_dec : EqDecision AuthErrorCode.
Proof. solve_decision. Defined.

Definition AuthErrorCode_as_str (c : AuthErrorCode) : str :=
  match c with
  | Unauthorized => "UNAUTHORIZED"
  | Forbidden => "FORBIDDEN"
  | InvalidToken => "INVALID_TOKEN"
  | MethodNotAllowed => "METHOD_NOT_ALLOWED"
  end.

Record AuthError := mkAuthError {
  err_code : AuthErrorCode;
  err_message : str;
  err_context : json
}.

(** [AuthError::new] and the shorthands. *)
Definition AuthError_new (code : AuthErrorCode) (message : str) (context : json) : AuthError :=
  {| err_code := code; err_message := message; err_context := context |}.
Definition invalid_token (message : str) : AuthError := AuthError_new InvalidToken message (JObj []).
Definition forbidden (message : str) : AuthError := AuthError_new Forbidden message (JObj []).
Definition unauthorized (message : str) : AuthError := AuthError_new Unauthorized message (JObj []).

(** [impl Display for AuthError]. *)
Definition AuthError_display (e : AuthError) : str :=
  AuthErrorCode_as_str (err_code e) ++ ": " ++ err_message e.

(** ** Roles and permissions (rbac.rs) *)

Inductive Role := Admin | Operator | Developer | Viewer.
#[export] Instance Role_eq_dec : EqDecision Role.
Proof. solve_decision. Defined.

Definition Role_as_str (r : Role) : str :=
  match r with
  | Admin => "admin"
  | Operator => "operator"
  | Developer => "developer"
  | Viewer => "viewer"
  end.

(** [impl FromStr for Role]. *)
Definition Role_from_str (s : str) : result Role unit :=
  if str_eqb s "admin" then Ok Admin
  else if str_eqb s "operator" then Ok Operator
  else if str_eqb s "developer" then Ok Developer
  else if str_eqb s "viewer" then Ok Viewer
  else Err ().

Inductive Permission :=
| AdminConfig | AdminPolicy | AdminTenant | AdminKeys | AdminAuditExport
| OperatorHealth | OperatorRestart | OperatorViewAudit
| DevVerify | DevCorrect | DevObserve | DevMemoryRead | DevMemoryWrite
| ViewerStatus | ViewerResults | ViewerMetrics.
#[export] Instance Permission_eq_dec : EqDecision Permission.
Proof. solve_decision. Defined.

Definition Permission_as_str (p : Permission) : str :=
  match p with
  | AdminConfig => "admin:config"
  | AdminPolicy => "admin:policy"
  | AdminTenant => "admin:tenant"
  | AdminKeys => "admin:keys"
  | AdminAuditExport => "admin:audit_export"
  | OperatorHealth => "operator:health"
  | OperatorRestart => "operator:restart"
  | OperatorViewAudit => "operator:view_audit"
  | DevVerify => "dev:verify"
  | DevCorrect => "dev:correct"
  | DevObserve => "dev:observe"
  | DevMemoryRead => "dev:memory_read"
  | DevMemoryWrite => "dev:memory_write"
  | ViewerStatus => "viewer:status"
  | ViewerResults => "viewer:results"
  | ViewerMetrics => "viewer:metrics"
  end.

Definition ADMIN_PERMS : list Permission :=
  [AdminConfig; AdminPolicy; AdminTenant; AdminKeys; AdminAuditExport;
   OperatorHealth; OperatorRestart; OperatorViewAudit;
   DevVerify; DevCorrect; DevObserve; DevMemoryRead; DevMemoryWrite;
   ViewerStatus; ViewerResults; ViewerMetrics].

Definition OPERATOR_PERMS : list Permission :=
  [OperatorHealth; OperatorRestart; OperatorViewAudit;
   ViewerStatus; ViewerResults; ViewerMetrics].

Definition DEVELOPER_PERMS : list Permission :=
  [DevVerify; DevCorrect; DevObserve; DevMemoryRead; DevMemoryWrite;
   ViewerStatus; ViewerResults; ViewerMetrics].

Definition VIEWER_PERMS : list Permission :=
  [ViewerStatus; ViewerResults; ViewerMetrics].

Definition role_permissions (r : Role) : list Permission :=
  match r with
  | Admin => ADMIN_PERMS
  | Operator => OPERATOR_PERMS
  | Developer => DEVELOPER_PERMS
  | Viewer => VIEWER_PERMS
  end.

Inductive AuthMethod := Oidc | ApiKey | Internal.

Definition AuthMethod_as_str (m : AuthMethod) : str :=
  match m with
  | Oidc => "oidc"
  | ApiKey => "api_key"
  | Internal => "internal"
  end.

Record Actor := mkActor {
  actor_id : str;
  actor_role : Role;
  actor_tenant_id : str;
  actor_auth_method : AuthMethod;
  actor_verified_at : str
}.

Record AuthDecision := mkDecision {
  granted : bool;
  dec_actor_id : str;
  dec_role : Role;
  dec_permission : Permission;
  dec_target_tenant_id : option str;
  dec_actor_tenant_id : str;
  dec_reason : str;
  dec_timestamp : str
}.

(** ** Authorization *)

Definition has_permission (a : Actor) (p : Permission) : bool :=
  bool_decide (p ∈ role_permissions (actor_role a)).

(** What the hook is called with: nothing when there is no hook. *)
Definition emit (hook : bool) (d : AuthDecision) : list AuthDecision :=
  if hook then [d] else [].

Definition decision (g : bool) (a : Actor) (p : Permission) (target : option str)
    (reason now : str) : AuthDecision :=
  {| granted := g; dec_actor_id := actor_id a; dec_role := actor_role a;
     dec_permission := p; dec_target_tenant_id := target;
     dec_actor_tenant_id := actor_tenant_id a; dec_reason := reason;
     dec_timestamp := now |}.

Definition missing_permission_reason (a : Actor) (p : Permission) : str :=
  "Actor " ++ dquote ++ actor_id a ++ dquote ++ " (role=" ++ Role_as_str (actor_role a)
  ++ ") does not have permission " ++ dquote ++ Permission_as_str p ++ dquote.

Definition missing_permission_error (a : Actor) (p : Permission) : AuthError :=
  {| err_code := Forbidden;
     err_message := missing_permission_reason a p;
     err_context := JObj [(lit "actorId", JStr (actor_id a));
                          (lit "role", JStr (Role_as_str (actor_role a)));
                          (lit "permission", JStr (Permission_as_str p))] |}.

Definition authorize (now : str) (a : Actor) (p : Permission) (hook : bool)
    : result unit AuthError * list AuthDecision :=
  if has_permission a p
  then (Ok (), emit hook (decision true a p None [] now))
  else (Err (missing_permission_error a p),
        emit hook (decision false a p None (missing_permission_reason a p) now)).

Definition cross_tenant_reason (a : Actor) (target : str) : str :=
  "Actor " ++ dquote ++ actor_id a ++ dquote ++ " (role=" ++ Role_as_str (actor_role a)
  ++ ", tenant=" ++ actor_tenant_id a ++ ") cannot access tenant "
  ++ dquote ++ target ++ dquote.

Definition authorize_tenant (now : str) (a : Actor) (p : Permission) (target : str)
    (hook : bool) : result unit AuthError * list AuthDecision :=
  if negb (bool_decide (actor_role a = Admin)) && negb (str_eqb (actor_tenant_id a) target)
  then
    (Err {| err_code := Forbidden;
            err_message := cross_tenant_reason a target;
            err_context := JObj [(lit "actorId", JStr (actor_id a));
                                 (lit "role", JStr (Role_as_str (actor_role a)));
                                 (lit "tenantId", JStr (actor_tenant_id a));
                                 (lit "targetTenantId", JStr target);
                                 (lit "permission", JStr (Permission_as_str p))] |},
     emit hook (decision false a p (Some target) (cross_tenant_reason a target) now))
  else if has_permission a p
  then (Ok (), emit hook (decision true a p (Some target) [] now))
  else (Err (missing_permission_error a p),
        emit hook (decision false a p (Some target) (missing_permission_reason a p) now)).

(** ** Role resolution *)

Definition GroupRoleMapping := gmap str Role.

Definition DEFAULT_GROUP_ROLE_MAPPING : gmap str Role :=
  <[lit "viewers" := Viewer]> (<[lit "developers" := Developer]>
  (<[lit "operators" := Operator]> (<[lit "admins" := Admin]>
  (<[lit "kirkforge-viewers" := Viewer]> (<[lit "kirkforge-developers" := Developer]>
  (<[lit "kirkforge-operators" := Operator]> (<[lit "kirkforge-admins" := Admin]> ∅))))))).

(** The inner loop of [resolve_role]: does some group map to [p]? *)
Fixpoint group_has_role (m : gmap str Role) (p : Role) (groups : list str) : bool :=
  match groups with
  | [] => false
  | g :: rest =>
      match m !! g with
      | Some r => if decide (r = p) then true else group_has_role m p rest
      | None => group_has_role m p rest
      end
  end.

Fixpoint first_role (m : gmap str Role) (groups : list str) (priority : list Role) : Role :=
  match priority with
  | [] => Viewer
  | p :: rest => if group_has_role m p groups then p else first_role m groups rest
  end.

Definition resolve_role (groups : list str) (mapping : option (gmap str Role)) : Role :=
  let m := unwrap_or DEFAULT_GROUP_ROLE_MAPPING mapping in
  first_role m groups [Admin; Operator; Developer; Viewer].

(** ** API keys (api_key.rs) *)

Definition CT_BUF_LEN : nat := 256.

(** The right-aligned, zero-padded comparison buffer. *)
Definition padded (buf : list N) : list N :=
  let off := CT_BUF_LEN - min (length buf) CT_BUF_LEN in
  replicate off 0%N ++ take (min (length buf) CT_BUF_LEN) buf.

Definition actor_from_api_key (now token expected_api_key : str) (role : Role)
    (tenant_id : str) : result Actor AuthError :=
  if str_eqb token [] || str_eqb expected_api_key []
  then Err (AuthError_new Unauthorized "Missing token or API key" (JObj []))
  else
    let token_buf := utf8_encode token in
    let key_buf := utf8_encode expected_api_key in
    let token_trunc := CT_BUF_LEN <? length token_buf in
    let key_trunc := CT_BUF_LEN <? length key_buf in
    let eq := bool_decide (padded token_buf = padded key_buf) in
    if eq && negb token_trunc && negb key_trunc
    then Ok {| actor_id := "api-key:" ++ Role_as_str role;
               actor_role := role;
               actor_tenant_id := tenant_id;
               actor_auth_method := ApiKey;
               actor_verified_at := now |}
    else Err (AuthError_new InvalidToken "Invalid token" (JObj [])).

(** ** Properties *)

Lemma has_permission_iff a p :
  has_permission a p = true <-> p ∈ role_permissions (actor_role a).
Proof. unfold has_permission. by rewrite bool_decide_eq_true. Qed.

Lemma Role_from_str_as_str r : Role_from_str (Role_as_str r) = Ok r.
Proof. by destruct r. Qed.

Lemma admin_all p : p ∈ role_permissions Admin.
Proof. destruct p; compute_done. Qed.

(** The decision a call reports, as the specification has it. *)
Definition tenant_allowed (a : Actor) (p : Permission) (target : str) : Prop :=
  (actor_role a = Admin \/ actor_tenant_id a = target)
  /\ p ∈ role_permissions (actor_role a).

(** C21.  Tenant-scoped authorization is granted exactly when the actor is an
    admin or works in the target tenant, and the actor's role lists the
    permission; every refusal is the [Forbidden] error; and the audit hook, when
    there is one, is called once, with a decision that says what the call
    returned, for that actor, permission and tenant. *)
Theorem authorize_tenant_spec now a p target hook :
  let '(r, log) := authorize_tenant now a p target hook in
  (r = Ok () <-> tenant_allowed a p target)
  /\ (forall e, r = Err e -> err_code e = Forbidden)
  /\ (hook = false -> log = [])
  /\ (hook = true -> exists d, log = [d] /\ granted d = is_ok r
        /\ dec_actor_id d = actor_id a /\ dec_role d = actor_role a
        /\ dec_permission d = p /\ dec_target_tenant_id d = Some target
        /\ dec_actor_tenant_id d = actor_tenant_id a).
Proof.
  unfold authorize_tenant, tenant_allowed.
  assert (Hlog : forall d, (hook = false -> emit hook d = [])
            /\ (hook = true -> emit hook d = [d])) by (by destruct hook).
  case_test; to_prop; [|case_test].
  - split; [split; [done | intros [[?|?] _]; congruence] |].
    split; [by intros e [= <-] |]. split; [apply Hlog |].
    intros Hk. eexists. rewrite (proj2 (Hlog _) Hk). done.
  - apply has_permission_iff in E0. apply andb_false_iff in E.
    split; [split; [intros _; split; [|done] | done] |].
    + destruct E as [E|E]; to_prop; eauto.
    + split; [done |]. split; [apply Hlog |].
      intros Hk. eexists. rewrite (proj2 (Hlog _) Hk). done.
  - split; [split; [done | intros [_ ?%has_permission_iff]; congruence] |].
    split; [by intros e [= <-] |]. split; [apply Hlog |].
    intros Hk. eexists. rewrite (proj2 (Hlog _) Hk). done.
Qed.

(** *** Role resolution *)

Definition role_rank (r : Role) : nat :=
  match r with Admin => 3 | Operator => 2 | Developer => 1 | Viewer => 0 end.

Lemma group_has_role_iff m p groups :
  group_has_role m p groups = true <-> exists g, g ∈ groups /\ m !! g = Some p.
Proof.
  induction groups as [|g rest IH]; simpl.
  - split; [done |]. by intros (? & ?%elem_of_nil & _).
  - setoid_rewrite elem_of_cons. destruct (m !! g) as [r|] eqn:E; [case_decide|].
    + subst. split; eauto.
    + rewrite IH. split; [intros (g' & ? & ?); eauto |].
      intros (g' & [-> | Hin] & Hg); [congruence | eauto].
    + rewrite IH. split; [intros (g' & ? & ?); eauto |].
      intros (g' & [-> | Hin] & Hg); [congruence | eauto].
Qed.

(** [resolve_role] returns the highest-privilege role any of the groups
    maps to: no group maps to a role above the result, and the result is the
    role of some group unless it is the [Viewer] fallback. *)
Lemma resolve_role_highest groups mapping :
  let m := unwrap_or DEFAULT_GROUP_ROLE_MAPPING mapping in
  let res := resolve_role groups mapping in
  (forall g r, g ∈ groups -> m !! g = Some r -> role_rank r <= role_rank res)
  /\ (res = Viewer \/ exists g, g ∈ groups /\ m !! g = Some res).
Proof.
  unfold resolve_role. cbn zeta.
  set (m := unwrap_or DEFAULT_GROUP_ROLE_MAPPING mapping). simpl.
  assert (Hno : forall p g, group_has_role m p groups = false ->
            g ∈ groups -> m !! g <> Some p).
  { intros p g Hf Hg Hm. assert (group_has_role m p groups = true)
      by (apply group_has_role_iff; eauto). congruence. }
  destruct (group_has_role m Admin groups) eqn:EA;
    [|destruct (group_has_role m Operator groups) eqn:EO;
      [|destruct (group_has_role m Developer groups) eqn:ED;
        [|destruct (group_has_role m Viewer groups) eqn:EV]]];
    (split;
     [ intros g r Hg Hm; destruct r; simpl; try lia; exfalso;
       match goal with
       | HF : group_has_role m _ groups = false |- _ => exact (Hno _ g HF Hg Hm)
       end
     | first [by left | right; by apply group_has_role_iff] ]).
Qed.

(** *** API keys *)

Lemma length_padded buf : length (padded buf) = CT_BUF_LEN.
Proof.
  unfold padded. rewrite length_app, length_replicate, length_take. lia.
Qed.

Lemma drop_leading_padded buf :
  length buf <= CT_BUF_LEN -> drop_leading 0 (padded buf) = drop_leading 0 buf.
Proof.
  intros H. unfold padded. rewrite drop_leading_replicate, Nat.min_l by done.
  by rewrite take_ge.
Qed.

Lemma padded_eq_iff b k :
  length b <= CT_BUF_LEN -> length k <= CT_BUF_LEN ->
  padded b = padded k <-> drop_leading 0 b = drop_leading 0 k.
Proof.
  intros Hb Hk. rewrite <-(drop_leading_padded b), <-(drop_leading_padded k) by done.
  split; [by intros -> |]. apply drop_leading_inj. by rewrite !length_padded.
Qed.

(** What the key check compares: the UTF-8 bytes without leading NUL bytes. *)
Definition key_bytes (s : str) : list N := drop_leading 0 (utf8_encode s).

(** A bearer token is accepted exactly when neither string is empty, both
    fit the comparison buffer, and their bytes agree up to leading NUL bytes;
    then the actor carries the configured role and tenant. *)
Lemma actor_from_api_key_accepts now token key role tenant :
  (exists a, actor_from_api_key now token key role tenant = Ok a
     /\ actor_role a = role /\ actor_tenant_id a = tenant /\ actor_auth_method a = ApiKey)
  <-> token <> [] /\ key <> [] /\ byte_len token <= CT_BUF_LEN
      /\ byte_len key <= CT_BUF_LEN /\ key_bytes token = key_bytes key.
Proof.
  unfold actor_from_api_key, byte_len, key_bytes.
  destruct (str_eqb token [] || str_eqb key []) eqn:E.
  { split; [by intros (a & ? & _) |]. intros (Ht & Hk & _).
    apply orb_true_iff in E as [E|E]; by to_prop. }
  to_prop.
  destruct (Nat.ltb_spec CT_BUF_LEN (length (utf8_encode token))) as [Ht|Ht];
    [|destruct (Nat.ltb_spec CT_BUF_LEN (length (utf8_encode key))) as [Hk|Hk]].
  1, 2: rewrite ?andb_false_r; simpl;
    split; [by intros (a & ? & _) | intros (_ & _ & ? & ? & _); lia].
  rewrite <-padded_eq_iff by done. case_bool_decide; simpl.
  - split; [done | intros _; eauto].
  - split; [by intros (a & ? & _) | by intros (_ & _ & _ & _ & ?)].
Qed.

(** The comparison is not equality of strings: a token that differs from
    the configured key by a leading NUL byte is accepted. *)
Theorem actor_from_api_key_nul_prefix now role tenant :
  exists token key a,
    token <> key /\ actor_from_api_key now token key role tenant = Ok a.
Proof.
  exists (0%N :: lit "secret"), (lit "secret"). eexists.
  split; [done |]. vm_compute. reflexivity.
Qed.
