(* ===== verification/Glob.v ===== *)
(** * The glob matcher of the permission rules (src/shared/permission.rs)

    [tokenize_glob], the NFA simulation [glob_match] with its ε-closure, the
    declarative language of a pattern and the equivalence of the two. *)

From S2P Require Import Prelude.

Inductive GlobToken :=
| DoubleStar
| SingleStar
| Question
| Literal (c : char).
#[export] Instance GlobToken_eq_dec : EqDecision GlobToken.
Proof. solve_decision. Defined.

Definition slash : char := "/"%char.
Definition star : char := "*"%char.
Definition qmark : char := "?"%char.

(** The inner [while chars.peek() == Some(&'*')]: the length of the run of
    stars at the front, and what follows it. *)
Fixpoint star_run (s : str) : nat * str :=
  match s with
  | c :: s' => if (c =? star)%N then let '(k, rest) := star_run s' in (S k, rest) else (0, s)
  | [] => (0, [])
  end.

(** [tokenize_glob] on the remaining characters; each iteration consumes at
    least one character, so the length of the pattern is enough fuel. *)
Fixpoint tokenize_from (fuel : nat) (s : str) : list GlobToken :=
  match fuel, s with
  | S f, c :: s' =>
      if (c =? star)%N then
        let '(k, rest) := star_run s' in
        (if 2 <=? 1 + k then DoubleStar else SingleStar) :: tokenize_from f rest
      else if (c =? qmark)%N then Question :: tokenize_from f s'
      else Literal c :: tokenize_from f s'
  | _, _ => []
  end.

Definition tokenize_glob (pattern : str) : list GlobToken :=
  tokenize_from (length pattern) pattern.

(** [matches!(t, SingleStar | DoubleStar)]. *)
Definition is_star (t : GlobToken) : bool :=
  match t with SingleStar | DoubleStar => true | _ => false end.

(** One iteration of the loop of [close_over_empty_matches]. *)
Definition close_at (tokens : list GlobToken) (states : list bool) (i : nat) : list bool :=
  match states !! i, tokens !! i with
  | Some true, Some t => if is_star t then <[S i := true]> states else states
  | _, _ => states
  end.

Definition close_over_empty_matches (tokens : list GlobToken) (states : list bool) : list bool :=
  fold_left (close_at tokens) (seq 0 (length tokens)) states.

(** One iteration of the inner loop of [glob_match]: state [i] reads [c]. *)
Definition step_at (tokens : list GlobToken) (states : list bool) (c : char)
    (next : list bool) (i : nat) : list bool :=
  match states !! i, tokens !! i with
  | Some true, Some t =>
      match t with
      | Literal ch => if (ch =? c)%N then <[S i := true]> next else next
      | Question => if negb (c =? slash)%N then <[S i := true]> next else next
      | SingleStar =>
          if negb (c =? slash)%N then <[S i := true]> (<[i := true]> next) else next
      | DoubleStar => <[S i := true]> (<[i := true]> next)
      end
  | _, _ => next
  end.

Definition step_char (tokens : list GlobToken) (states : list bool) (c : char) : list bool :=
  let n := length tokens in
  let next := fold_left (step_at tokens states c) (seq 0 n) (replicate (S n) false) in
  close_over_empty_matches tokens next.

Definition glob_match (pattern value : str) : bool :=
  let tokens := tokenize_glob pattern in
  let n := length tokens in
  let states := close_over_empty_matches tokens (<[0 := true]> (replicate (S n) false)) in
  bool_decide (fold_left (step_char tokens) value states !! n = Some true).

(** ** The language of a pattern *)

Definition not_slash (c : char) : Prop := c <> slash.

(** The strings one token stands for. *)
Definition tok_lang (t : GlobToken) (w : str) : Prop :=
  match t with
  | Literal ch => w = [ch]
  | Question => exists c, w = [c] /\ not_slash c
  | SingleStar => Forall not_slash w
  | DoubleStar => True
  end.

(** The strings a token list stands for: a concatenation of one string per
    token. *)
Definition glob_lang (ts : list GlobToken) (w : str) : Prop :=
  exists ws, Forall2 tok_lang ts ws /\ w = concat ws.

Lemma glob_lang_nil w : glob_lang [] w <-> w = [].
Proof.
  split.
  - by intros (ws & ->%Forall2_nil_inv_l & ->).
  - intros ->. exists []. split; [constructor | done].
Qed.

Lemma glob_lang_app ts us w :
  glob_lang (ts ++ us) w <-> exists w1 w2, w = w1 ++ w2 /\ glob_lang ts w1 /\ glob_lang us w2.
Proof.
  split.
  - intros (ws & HF & ->). apply Forall2_app_inv_l in HF as (a & b & Ha & Hb & ->).
    exists (concat a), (concat b). rewrite concat_app. unfold glob_lang. eauto 10.
  - intros (w1 & w2 & -> & (a & Ha & ->) & (b & Hb & ->)).
    exists (a ++ b). rewrite concat_app. split; [by apply Forall2_app | done].
Qed.

Lemma glob_lang_singleton t w : glob_lang [t] w <-> tok_lang t w.
Proof.
  split.
  - intros (ws & HF & ->). apply Forall2_cons_inv_l in HF as (x & l & ? & ->%Forall2_nil_inv_l & ->).
    simpl. by rewrite app_nil_r.
  - intros H. exists [w]. split; [repeat constructor; done | simpl; by rewrite app_nil_r].
Qed.

Lemma glob_lang_cons t ts w :
  glob_lang (t :: ts) w <-> exists w1 w2, w = w1 ++ w2 /\ tok_lang t w1 /\ glob_lang ts w2.
Proof.
  change (t :: ts) with ([t] ++ ts). rewrite glob_lang_app.
  by setoid_rewrite glob_lang_singleton.
Qed.

(** Can a star token still absorb [c]? *)
Definition absorbs (t : GlobToken) (c : char) : Prop :=
  match t with SingleStar => not_slash c | DoubleStar => True | _ => False end.

(** The characters that end a token: [tok_lang] of one character. *)
Definition accepts (t : GlobToken) (c : char) : Prop := tok_lang t [c].

Lemma star_lang_snoc t w c :
  is_star t = true -> tok_lang t (w ++ [c]) <-> tok_lang t w /\ absorbs t c.
Proof.
  destruct t; simpl; try done; intros _.
  unfold absorbs. rewrite Forall_app, Forall_singleton. done.
Qed.

Lemma accepts_star t c : is_star t = true -> accepts t c <-> absorbs t c.
Proof.
  destruct t; simpl; try done; intros _; unfold accepts; simpl.
  by rewrite Forall_singleton.
Qed.

(** ** The simulation computes the language *)

Section simulation.
Context (ts : list GlobToken).
Abbreviation n := (length ts).

Definition star_at (i : nat) : Prop := exists t, ts !! i = Some t /\ is_star t = true.

(** State [i] is live after [w]: the first [i] tokens match a prefix of [w],
    and the rest is empty or being absorbed by a star at [i]. *)
Definition live (i : nat) (w : str) : Prop :=
  exists w1 w2, w = w1 ++ w2 /\ glob_lang (take i ts) w1
    /\ (w2 = [] \/ exists t, ts !! i = Some t /\ is_star t = true /\ tok_lang t w2).

Lemma take_S_lang i t w :
  ts !! i = Some t ->
  glob_lang (take (S i) ts) w
  <-> exists w1 w2, w = w1 ++ w2 /\ glob_lang (take i ts) w1 /\ tok_lang t w2.
Proof.
  intros Ht. rewrite (take_S_r _ _ _ Ht), glob_lang_app.
  by setoid_rewrite glob_lang_singleton.
Qed.

Lemma live_end w : live n w <-> glob_lang ts w.
Proof.
  unfold live. rewrite firstn_all. split.
  - intros (w1 & w2 & -> & H & [-> | (t & Ht & _)]); [by rewrite app_nil_r |].
    apply lookup_lt_Some in Ht. lia.
  - intros H. exists w, []. rewrite app_nil_r. eauto.
Qed.

(** A star passes its own language on: the closure edge. *)
Lemma live_closure i w : star_at i -> live i w -> live (S i) w.
Proof.
  intros (t & Ht & Hs) (w1 & w2 & -> & H1 & H2).
  exists (w1 ++ w2), []. rewrite app_nil_r. split; [done |]. split; [|by left].
  apply (take_S_lang _ _ _ Ht). exists w1, w2. split; [done |]. split; [done |].
  destruct H2 as [-> | (t' & Ht' & _ & Hl)]; [|congruence].
  by destruct t; simpl in *; try done; constructor.
Qed.

Definition closed_from (P : nat -> Prop) : nat -> Prop :=
  fix go j := match j with
    | O => P O
    | S i => P (S i) \/ (go i /\ star_at i)
    end.

Lemma closed_from_mono (P Q : nat -> Prop) j :
  (forall k, k <= j -> P k <-> Q k) -> closed_from P j <-> closed_from Q j.
Proof.
  induction j as [|i IH]; simpl; intros H; [by apply H |].
  rewrite (H (S i)) by done. rewrite IH; [done |]. intros; apply H; lia.
Qed.

Lemma glob_live i w : glob_lang (take i ts) w -> live i w.
Proof. intros H. exists w, []. rewrite app_nil_r. eauto. Qed.

(** The live states before anything is read. *)
Lemma live_nil j : j <= n -> live j [] <-> closed_from (fun k => k = 0) j.
Proof.
  induction j as [|i IH]; simpl; intros Hj.
  - split; [done | intros _]. apply glob_live. by apply glob_lang_nil.
  - rewrite <-IH by lia. split.
    + intros (w1 & w2 & Hw & H & _). symmetry in Hw. apply app_nil in Hw as [-> ->].
      destruct (lookup_lt_is_Some_2 ts i) as [t Ht]; [lia |].
      destruct (proj1 (take_S_lang _ _ _ Ht) H) as (w1 & w2 & Hw & H1 & H2).
      symmetry in Hw. apply app_nil in Hw as [-> ->].
      right. split; [by apply glob_live |]. exists t. split; [done |].
      destruct t; try done; by destruct H2 as (? & ? & _).
    + intros [? | [H Hs]]; [lia |]. by apply live_closure.
Qed.

(** The states reached by reading [c] from the live states [L], before the
    closure. *)
Definition reads (L : nat -> Prop) (c : char) (j : nat) : Prop :=
  (exists t, ts !! j = Some t /\ absorbs t c /\ L j)
  \/ (exists i t, j = S i /\ ts !! i = Some t /\ accepts t c /\ L i).

Lemma absorbs_star t c : absorbs t c -> is_star t = true.
Proof. by destruct t. Qed.

Lemma reads_live w c j : reads (fun i => live i w) c j -> live j (w ++ [c]).
Proof.
  intros [(t & Ht & Ha & w1 & w2 & -> & H1 & H2) | (i & t & -> & Ht & Ha & w1 & w2 & -> & H1 & H2)].
  - pose proof (absorbs_star _ _ Ha) as Hs.
    exists w1, (w2 ++ [c]). rewrite app_assoc. split; [done |]. split; [done |].
    right. exists t. split; [done |]. split; [done |].
    rewrite star_lang_snoc by done. split; [|done].
    destruct H2 as [-> | (t' & ? & _ & ?)]; [|congruence]. by destruct t; try constructor.
  - apply glob_live, (take_S_lang _ _ _ Ht).
    exists w1, (w2 ++ [c]). rewrite app_assoc. split; [done |]. split; [done |].
    destruct H2 as [-> | (t' & ? & Hs & ?)]; [done |].
    assert (t' = t) as -> by congruence.
    rewrite star_lang_snoc by done. split; [done |]. by apply accepts_star.
Qed.

Lemma live_snoc w c j :
  j <= n -> live j (w ++ [c]) <-> closed_from (reads (fun i => live i w) c) j.
Proof.
  induction j as [|i IH]; intros Hj; simpl.
  - split; [|by apply reads_live].
    intros (w1 & w2 & Hw & H1%glob_lang_nil & H2). simpl in *. subst w1. simpl in Hw. subst w2.
    destruct H2 as [H2 | (t & Ht & Hs & Hl)]; [by apply app_nil in H2 as [_ ?] |].
    apply star_lang_snoc in Hl as [Hl Ha]; [|done].
    left. exists t. split; [done |]. split; [done |]. exists [], w. simpl.
    split; [done |]. split; [by apply glob_lang_nil | eauto].
  - rewrite <-IH by lia. split.
    + intros (w1 & w2 & Hw & H1 & H2). destruct (decide (w2 = [])) as [-> | Hne].
      * rewrite app_nil_r in Hw. subst w1.
        destruct (lookup_lt_is_Some_2 ts i) as [t Ht]; [lia |].
        destruct (proj1 (take_S_lang _ _ _ Ht) H1) as (v1 & v2 & Hv & Hv1 & Hv2).
        destruct (is_star t) eqn:Hs.
        -- right. split; [|by exists t]. exists v1, v2. eauto 10.
        -- left. right. exists i, t. split; [done |]. split; [done |].
           assert (exists x, v2 = [x]) as [x ->].
           { destruct t; simpl in Hv2; try done; [by destruct Hv2 as (y & -> & _); exists y |].
             subst v2. by eexists. }
           apply app_inj_tail in Hv as [-> ->]. split; [done | by apply glob_live].
      * destruct H2 as [-> | (t & Ht & Hs & Hl)]; [done |].
        destruct (exists_last Hne) as (v & x & ->).
        rewrite app_assoc in Hw. apply app_inj_tail in Hw as [-> ->].
        apply star_lang_snoc in Hl as [Hl Ha]; [|done].
        left. left. exists t. split; [done |]. split; [done |]. exists w1, v. eauto 10.
    + intros [H | [H Hs]]; [by apply reads_live | by apply live_closure].
Qed.

(** *** The vectors of the code *)

Definition on (v : list bool) (j : nat) : Prop := v !! j = Some true.

Lemma on_insert (v : list bool) k j :
  k < length v -> on (<[k := true]> v) j <-> on v j \/ j = k.
Proof.
  intros Hk. unfold on. destruct (decide (j = k)) as [->|Hne].
  - rewrite list_lookup_insert_eq by done. split; [by right | done].
  - rewrite list_lookup_insert_ne by done. split; [by left | by intros [?|?]].
Qed.

Lemma length_close_at v i : length (close_at ts v i) = length v.
Proof.
  unfold close_at. repeat case_match; by rewrite ?length_insert.
Qed.

Lemma close_prefix m (v : list bool) :
  length v = S n -> m <= n ->
  length (fold_left (close_at ts) (seq 0 m) v) = S n
  /\ forall j, j <= n ->
      on (fold_left (close_at ts) (seq 0 m) v) j
      <-> (if decide (j <= m) then closed_from (on v) j else on v j).
Proof.
  intros Hlen. induction m as [|m IH]; intros Hm.
  - simpl. split; [done |]. intros j Hj. case_decide; [|done].
    assert (j = 0) as -> by lia. done.
  - rewrite seq_S, fold_left_app. simpl.
    destruct IH as [IHl IH]; [lia |]. set (u := fold_left _ _ v) in *.
    split; [by rewrite length_close_at |]. intros j Hj.
    assert (Hstep : on (close_at ts u m) j <-> on u j \/ (j = S m /\ on u m /\ star_at m)).
    { unfold close_at, star_at. destruct (u !! m) as [[]|] eqn:Hum.
      - destruct (ts !! m) as [t|] eqn:Ht; [destruct (is_star t) eqn:Hs|].
        + rewrite on_insert by lia.
          split; [intros [? | ->]; [by left | right; eauto 10] | tauto].
        + split; [by left | intros [? | (_ & _ & t' & ? & ?)]; [done | congruence]].
        + split; [by left | intros [? | (_ & _ & t' & ? & ?)]; [done | congruence]].
      - split; [by left | intros [? | (_ & Ho & _)]; [done | unfold on in Ho; congruence]].
      - split; [by left | intros [? | (_ & Ho & _)]; [done | unfold on in Ho; congruence]]. }
    rewrite Hstep, IH, (IH m) by lia.
    destruct (decide (m <= m)); [|lia].
    destruct (decide (j <= m)); destruct (decide (j <= S m)); try lia.
    + split; [intros [?|[? _]]; [done | lia] | by left].
    + assert (j = S m) as -> by lia. simpl. tauto.
    + split; [intros [?|[? _]]; [done | lia] | by left].
Qed.

Lemma close_spec (v : list bool) j :
  length v = S n -> j <= n ->
  on (close_over_empty_matches ts v) j <-> closed_from (on v) j.
Proof.
  intros Hl Hj. destruct (close_prefix n v Hl) as [_ H]; [done |].
  unfold close_over_empty_matches. rewrite H by done. by case_decide; [|lia].
Qed.

Lemma length_close (v : list bool) :
  length v = S n -> length (close_over_empty_matches ts v) = S n.
Proof. intros Hl. by apply close_prefix. Qed.

(** The positions the iteration at [i] switches on. *)
Definition sets (L : nat -> Prop) (c : char) (i j : nat) : Prop :=
  L i /\ exists t, ts !! i = Some t
    /\ ((j = S i /\ accepts t c) \/ (j = i /\ absorbs t c)).

Lemma negb_slash c : negb (c =? slash)%N = true <-> not_slash c.
Proof. unfold not_slash. by rewrite negb_true_iff, N.eqb_neq. Qed.

Lemma step_at_spec (v : list bool) c next i j :
  length next = S n -> i < n ->
  length (step_at ts v c next i) = S n
  /\ (on (step_at ts v c next i) j <-> on next j \/ sets (on v) c i j).
Proof.
  intros Hl Hi. unfold step_at, sets.
  assert (Hoff : forall P : Prop, (on v i -> ~ P) ->
    on next j <-> on next j \/ (on v i /\ P)) by tauto.
  destruct (v !! i) as [[]|] eqn:Hv;
    [|split; [done |]; apply Hoff; unfold on; congruence..].
  destruct (lookup_lt_is_Some_2 ts i Hi) as [t Ht]. rewrite Ht.
  assert (Hset : forall P Q : Prop, ((exists t0, Some t = Some t0 /\
      ((j = S i /\ accepts t0 c) \/ (j = i /\ absorbs t0 c))) <-> Q) -> (P <-> on next j \/ Q) ->
      P <-> on next j \/ (on v i /\ exists t0, Some t = Some t0 /\
      ((j = S i /\ accepts t0 c) \/ (j = i /\ absorbs t0 c)))).
  { intros P Q <- ->. unfold on at 2. tauto. }
  assert (Hex : forall Q, (exists t0, Some t = Some t0 /\ Q t0) <-> Q t).
  { intros Q. split; [by intros (t0 & [= <-] & ?) | eauto]. }
  destruct t as [| | |ch]; simpl; repeat case_test;
    rewrite ?length_insert; (split; [done |]); (eapply Hset; [apply Hex |]);
    rewrite ?on_insert by (rewrite ?length_insert; lia);
    unfold accepts, absorbs; simpl; rewrite ?Forall_singleton;
    rewrite ?negb_slash in *;
    try (assert (~ not_slash c) by (rewrite <-negb_slash; congruence));
    to_prop; try tauto.
  - split; [intros [? | ->]; [by left | right; left; split; [done | eauto]] | tauto].
  - split; [by left |]. intros [? | [(_ & x & [= <-] & ?) | [_ []]]]; done.
  - subst. split; [intros [? | ->]; auto | tauto].
  - split; [by left |]. intros [? | [[_ [= ->]] | [_ []]]]; done.
Qed.

Lemma step_fold_spec (v : list bool) c m next :
  length next = S n -> m <= n ->
  length (fold_left (step_at ts v c) (seq 0 m) next) = S n
  /\ forall j, on (fold_left (step_at ts v c) (seq 0 m) next) j
      <-> on next j \/ exists i, i < m /\ sets (on v) c i j.
Proof.
  intros Hl. induction m as [|m IH]; intros Hm.
  - simpl. split; [done |]. intros j. split; [by left | intros [? | (i & ? & _)]; [done | lia]].
  - rewrite seq_S, fold_left_app. simpl. destruct IH as [IHl IH]; [lia |].
    split; [by apply (step_at_spec v c _ m 0 IHl) |]. intros j.
    rewrite (proj2 (step_at_spec v c _ m j IHl ltac:(lia))), IH. split.
    + intros [[? | (i & ? & ?)] | ?]; [by left | right; exists i; auto with lia | right; exists m; auto with lia].
    + intros [? | (i & ? & ?)]; [by do 2 left |].
      destruct (decide (i = m)) as [->|]; [by right |]. left. right. exists i. auto with lia.
Qed.

Lemma on_replicate k j : ~ on (replicate k false) j.
Proof. unfold on. intros H. apply lookup_replicate in H as [? ?]. done. Qed.

Lemma step_char_spec (v : list bool) c j :
  length v = S n -> j <= n ->
  on (step_char ts v c) j <-> closed_from (reads (on v) c) j.
Proof.
  intros Hl Hj. unfold step_char.
  destruct (step_fold_spec v c n (replicate (S n) false)) as [Hlen Hon];
    [apply length_replicate | done |].
  rewrite close_spec by done. apply closed_from_mono. intros k Hk. rewrite Hon.
  unfold sets, reads. split.
  - intros [H | (i & Hi & HL & t & Ht & [[-> Ha] | [-> Ha]])]; [by apply on_replicate in H | | ].
    + right. eauto 10.
    + left. eauto 10.
  - intros [(t & Ht & Ha & HL) | (i & t & -> & Ht & Ha & HL)]; right.
    + exists k. split; [by eapply lookup_lt_Some |]. eauto 10.
    + exists i. split; [by eapply lookup_lt_Some |]. eauto 10.
Qed.

Lemma length_step_char (v : list bool) c :
  length (step_char ts v c) = S n.
Proof.
  unfold step_char. apply length_close.
  apply step_fold_spec; [apply length_replicate | done].
Qed.

Lemma simulate_live value w (v : list bool) :
  length v = S n -> (forall j, j <= n -> on v j <-> live j w) ->
  forall j, j <= n -> on (fold_left (step_char ts) value v) j <-> live j (w ++ value).
Proof.
  revert w v. induction value as [|c value IH]; intros w v Hl Hv j Hj; simpl.
  - rewrite app_nil_r. by apply Hv.
  - rewrite (IH (w ++ [c])), <-app_assoc; [done | by rewrite length_step_char | | done].
    intros k Hk. rewrite step_char_spec, live_snoc by done.
    apply closed_from_mono. intros i Hi. unfold reads.
    split; (intros [(t & Ht & Ha & HL) | (i' & t & -> & Ht & Ha & HL)];
      [left | right]; [exists t | exists i', t]); repeat split; try done; apply Hv; (done || lia).
Qed.
End simulation.

(** The matcher decides the language of the tokenized pattern. *)
Lemma glob_match_lang pattern value :
  glob_match pattern value = true <-> glob_lang (tokenize_glob pattern) value.
Proof.
  unfold glob_match. rewrite bool_decide_eq_true. set (ts := tokenize_glob pattern).
  rewrite <-live_end. change value with ([] ++ value) at 2.
  apply simulate_live; [| |done].
  - apply length_close. by rewrite length_insert, length_replicate.
  - intros j Hj. rewrite close_spec; [|by rewrite length_insert, length_replicate | done].
    rewrite live_nil by done. apply closed_from_mono. intros k Hk.
    rewrite on_insert by (rewrite length_replicate; lia).
    split; [intros [H | ?]; [by apply on_replicate in H | done] | by right].
Qed.

(** ** Tokenizing *)

Lemma star_run_spec s :
  s = replicate (fst (star_run s)) star ++ snd (star_run s)
  /\ length (snd (star_run s)) <= length s.
Proof.
  induction s as [|c s [IH Hle]]; simpl; [done |].
  destruct (N.eqb_spec c star) as [->|]; [|done].
  destruct (star_run s) as [k rest]; simpl in *. split; [by f_equal | lia].
Qed.

(** Induction following the iterations of [tokenize_glob]. *)
Lemma tokenize_ind (P : str -> list GlobToken -> Prop) :
  P [] [] ->
  (forall k rest ts, P rest ts -> P (replicate (S k) star ++ rest)
      ((if 2 <=? 1 + k then DoubleStar else SingleStar) :: ts)) ->
  (forall rest ts, P rest ts -> P (qmark :: rest) (Question :: ts)) ->
  (forall c rest ts, c <> star -> c <> qmark -> P rest ts -> P (c :: rest) (Literal c :: ts)) ->
  forall p, P p (tokenize_glob p).
Proof.
  intros Hnil Hstar Hq Hlit p. unfold tokenize_glob.
  assert (H : forall f s, length s <= f -> P s (tokenize_from f s)); [|by apply H].
  induction f as [|f IH]; intros s Hs; (destruct s as [|c s]; simpl in Hs; [done | try lia]).
  cbn [tokenize_from]. destruct (N.eqb_spec c star) as [->|Hc].
  - destruct (star_run_spec s) as [Heq Hle]. destruct (star_run s) as [k rest]; simpl in *.
    rewrite Heq. apply (Hstar k). apply IH. lia.
  - destruct (N.eqb_spec c qmark) as [->|Hc']; [apply Hq, IH; lia |].
    apply Hlit; [done | done |]. apply IH; lia.
Qed.

(** A literal token is never a metacharacter. *)
Lemma tokenize_literals p c : Literal c ∈ tokenize_glob p -> c <> star /\ c <> qmark.
Proof.
  apply (tokenize_ind (fun _ ts => Literal c ∈ ts -> c <> star /\ c <> qmark));
    clear p; [|intros k rest ts IH|intros rest ts IH|intros c' rest ts Hs Hq IH];
    rewrite ?elem_of_cons.
  - by intros ?%elem_of_nil.
  - intros [H | ?]; [by case_test | auto].
  - intros [? | ?]; [done | auto].
  - intros [[= ->] | ?]; auto.
Qed.

(** A pattern matches its own text. *)
Lemma glob_match_refl p : glob_match p p = true.
Proof.
  apply glob_match_lang.
  apply (tokenize_ind (fun p ts => glob_lang ts p)); clear p;
    [|intros k rest ts IH|intros rest ts IH|intros c rest ts Hs Hq IH].
  - by apply glob_lang_nil.
  - apply glob_lang_cons. eexists _, _. split; [reflexivity |]. split; [|done].
    case_test; [done |]. apply Forall_forall.
    intros x [-> _]%elem_of_replicate. by vm_compute.
  - apply glob_lang_cons. exists [qmark], rest. split; [done |]. split; [|done].
    exists qmark. split; [done | by vm_compute].
  - apply glob_lang_cons. by exists [c], rest.
Qed.

(** Reading every star as [**]. *)
Definition widen (c : char) : GlobToken :=
  if (c =? star)%N then DoubleStar else if (c =? qmark)%N then Question else Literal c.

Lemma glob_lang_stars k w : glob_lang (replicate (S k) DoubleStar) w.
Proof.
  induction k as [|k IH]; [by apply glob_lang_singleton |].
  apply glob_lang_cons. by exists [], w.
Qed.

Lemma glob_lang_widen p w : glob_lang (tokenize_glob p) w -> glob_lang (map widen p) w.
Proof.
  revert w.
  apply (tokenize_ind (fun p ts => forall w, glob_lang ts w -> glob_lang (map widen p) w)); clear p;
    [|intros k rest ts IH|intros rest ts IH|intros c rest ts Hs Hq IH]; intros w.
  - done.
  - intros (w1 & w2 & -> & _ & H2)%glob_lang_cons.
    rewrite map_app. apply glob_lang_app. exists w1, w2. split; [done |]. split; [|auto].
    assert (map widen (replicate (S k) star) = replicate (S k) DoubleStar) as ->.
    { generalize (S k). clear. induction n as [|n IHn]; simpl; [done |]. by rewrite IHn. }
    apply glob_lang_stars.
  - intros (w1 & w2 & -> & H1 & H2)%glob_lang_cons. simpl. apply glob_lang_cons.
    exists w1, w2. auto.
  - intros (w1 & w2 & -> & H1 & H2)%glob_lang_cons. simpl. apply glob_lang_cons.
    unfold widen at 1. rewrite !(proj2 (N.eqb_neq _ _)) by done. exists w1, w2. auto.
Qed.

(** A token that is no [?] and no single star. *)
Definition coarse (t : GlobToken) : Prop := t <> SingleStar /\ t <> Question.

(** If a pattern without [?] and lone stars matches the text of another pattern,
    it matches everything the other pattern matches. *)
Lemma glob_subsume (e l v : str) :
  Forall coarse (tokenize_glob e) ->
  glob_match e l = true -> glob_match l v = true -> glob_match e v = true.
Proof.
  rewrite !glob_match_lang. intros Hc He Hl%glob_lang_widen.
  assert (Hlits : forall c, Literal c ∈ tokenize_glob e -> widen c = Literal c).
  { intros c [Hs Hq]%tokenize_literals. unfold widen.
    by rewrite !(proj2 (N.eqb_neq _ _)). }
  revert l v He Hl. induction Hc as [|t ts [Ht1 Ht2] _ IH]; intros l v.
  - intros ->%glob_lang_nil. done.
  - intros (w1 & w2 & -> & H1 & H2)%glob_lang_cons. rewrite map_app.
    intros (v1 & v2 & -> & Hv1 & Hv2)%glob_lang_app.
    apply glob_lang_cons. exists v1, v2. split; [done |]. split.
    + destruct t as [| | |c]; try done. simpl in H1. subst w1. simpl in Hv1.
      rewrite Hlits in Hv1 by by left. by apply glob_lang_singleton in Hv1.
    + apply (IH) with w2; [|done..]. intros c Hin. apply Hlits. by right.
Qed.

(** C20.  The matcher is exactly the language of the pattern: it answers true
    when the value is a concatenation of one string per token, [*] standing for
    any run without a slash, [**] for any run, [?] for one character other than a
    slash and everything else for itself. *)
Theorem glob_match_spec (pattern value : str) :
  glob_match pattern value = true
  <-> exists ws, Forall2 tok_lang (tokenize_glob pattern) ws /\ value = concat ws.
Proof. apply glob_match_lang. Qed.

(** The separators around a double star are matched too: [src/**/*.rs] does not match a
    file of the directory itself. *)
Lemma double_star_needs_slash :
  glob_match "src/**/*.rs" "src/main.rs" = false /\ glob_match "src/**/*.rs" "src/lib/utils.rs" = true.
Proof. split; vm_compute; reflexivity. Qed.
