(* ===== verification/BashSafety.v ===== *)
(** * The command-string safety gate (src/shared/bash_safety.rs)

    The normalizer, the word-boundary scan, the clause splitter, the redirection
    and [tee] scans, the bash allowlist and the whole gate
    [check_bash_command_str], shared by the bash tool, the bang passthrough and
    the hooks.

    Parameters: [canonicalize] (the file system's path resolution, giving the
    components of the resolved path), the globset matchers inside [DenyList]
    (third-party), and the Unicode lower-case table. *)

From S2P Require Import Prelude.

(** ** Tables *)

Definition DANGEROUS_SHELL_COMMANDS : list str :=
  map lit
  [ "rm -rf /"; "rm -rf /*"; "rm -fr /"; "rm -fr /*";
    "rm --no-preserve-root -rf /"; "rm --no-preserve-root -fr /";
    "rm -rf --no-preserve-root /"; "rm -fr --no-preserve-root /";
    ":(){ :|:& };:"; "> /dev/sda"; "mkfs.";
    "dd if=/dev/zero of="; "dd if=/dev/random of="; "dd if=/dev/urandom of=";
    "chmod -R 777 /"; "chmod 777 /"; "chmod -R a+rwx /"; "chmod a+rwx /";
    "chown -R root:root /"; "chown root:root /"; "dd if=/dev/random";
    "> /dev/null < /dev/sda" ].

Definition PRIVILEGE_ESCALATION_COMMANDS : list str := map lit ["sudo"; "su"; "doas"].

Definition INTERACTIVE_PASSWORD_PATTERNS : list str :=
  map lit ["read -s"; "stty -echo"; "passwd"].

Definition DANGEROUS_REDIRECTION_PATTERNS : list str :=
  map lit
  [ "> /etc/"; ">> /etc/"; ">| /etc/"; "> ~/.ssh/"; ">> ~/.ssh/"; ">| ~/.ssh/";
    "> /root/"; ">> /root/"; ">| /root/"; "tee /etc/"; "tee ~/.ssh/"; "tee /root/";
    "> C:/Windows/"; ">> C:/Windows/"; "> C:\Windows\"; ">> C:\Windows\";
    "> %SystemRoot%"; ">> %SystemRoot%" ].

Definition DANGEROUS_REDIRECTION_TARGETS : list str :=
  map lit
  [ "/etc/"; "~/.ssh/"; "/root/"; "/home/"; "/usr/"; "/bin/"; "/sbin/"; "/lib/";
    "/lib64/"; "/boot/"; "/dev/sda"; "/dev/hda"; "/dev/nvme"; "/dev/xvd"; "/dev/vd";
    "/dev/mmcblk"; "%systemroot%"; "%userprofile%"; "c:\windows"; "c:\programdata";
    "c:\users\"; "/c/windows/"; "/mnt/c/windows/" ].

Definition GLOB_METACHARS : list N := bytes_of_string "[]*?{}".
Definition GLOB_METACHAR_DENY : str := "<glob-metacharacter>".

Definition DENIED_PATH_LITERALS : list str :=
  map lit ["/etc/shadow"; "/etc/passwd"; "/etc/sudoers"; "~/.ssh"; "/root/"].

(** ** Word boundaries *)

Definition boundaries : list N := bytes_of_string " |;&()<>" ++ [9; 10; 0]%N.
Definition is_boundary (c : char) : bool := bool_decide (c ∈ boundaries).

(** The body of the [while] loop at position [i]. *)
Definition word_match_at (cmd p : str) (i : nat) : bool :=
  let plen := length p in
  str_eqb (take plen (drop i cmd)) p
  && ((i =? 0) || match cmd !! (i - 1) with Some c => is_boundary c | None => false end)
  && ((length cmd <=? i + plen)
      || match cmd !! (i + plen) with Some c => is_boundary c | None => false end).

Definition word_boundary_match (cmd pattern : str) : bool :=
  existsb (word_match_at cmd pattern) (seq 0 (length cmd + 1 - length pattern)).

(** ** Normalization *)

Definition squote : char := 39%N.
Definition dquote_c : char := 34%N.
Definition backslash : char := 92%N.
Definition hash : char := 35%N.

Definition ends_in_ws (out : str) : bool :=
  match last out with Some c => is_ascii_whitespace c | None => false end.

(** The loop of [normalize_for_safety]: the two quote flags, the output so far
    and the characters left. *)
Fixpoint normalize_loop (in_single in_double : bool) (out s : str) : str :=
  match s with
  | [] => out
  | c :: rest =>
      if in_single then
        if (c =? squote)%N then normalize_loop false in_double out rest
        else normalize_loop true in_double (out ++ [ascii_lower c]) rest
      else if in_double then
        if (c =? dquote_c)%N then normalize_loop false false out rest
        else if (c =? backslash)%N then
          match rest with
          | next :: rest' => normalize_loop false true (out ++ [ascii_lower next]) rest'
          | [] => out ++ [ascii_lower c]
          end
        else normalize_loop false true (out ++ [ascii_lower c]) rest
      else if (c =? squote)%N then normalize_loop true false out rest
      else if (c =? dquote_c)%N then normalize_loop false true out rest
      else if (c =? hash)%N && (str_eqb out [] || ends_in_ws out) then out
      else if (c =? backslash)%N then
        match rest with
        | next :: rest' => normalize_loop false false (out ++ [ascii_lower next]) rest'
        | [] => out
        end
      else normalize_loop false false (out ++ [ascii_lower c]) rest
  end.

Definition normalize_for_safety (cmd : str) : str :=
  join " " (split_whitespace (normalize_loop false false [] cmd)).

Definition contains_shell_expansion_evasion (cmd : str) : bool :=
  contains cmd "${IFS" || contains cmd "$IFS" || contains cmd "$'"
  || contains cmd "$(" || contains cmd "`".

(** ** Clauses *)

Definition NUL : char := 0%N.

(** The second pass of [split_compound_clauses]: a lone [&] becomes a separator
    unless it is part of a redirection.  The code looks at the neighbouring
    bytes; it only compares them with ASCII bytes, and a byte of a multi-byte
    character is never ASCII, so the neighbouring characters decide the same. *)
Fixpoint split_lone_amp (prev : option char) (s : str) : str :=
  match s with
  | [] => []
  | c :: rest =>
      let next := head rest in
      (if (c =? "&"%char)%N then
         let part_of_redirect :=
           bool_decide (prev = Some (chr ">")) || bool_decide (next = Some (chr ">"))
           || (match prev with Some p => is_ascii_digit p | None => false end
               && match next with Some n => is_ascii_digit n | None => false end) in
         if part_of_redirect then c else NUL
       else c) :: split_lone_amp (Some c) rest
  end.

Definition SEPARATORS : list str := map lit ["&&"; "||"; ";"; "|"] ++ [[10%N]; [13%N]].

Definition split_compound_clauses (cmd : str) : list str :=
  let s := fold_left (fun s sep => replace s sep [NUL]) SEPARATORS cmd in
  filter (fun c => c <> []) (map trim (split_char NUL (split_lone_amp None s))).

(** ** Redirections and tee *)

Definition gt : N := 62%N.

(** [is_shell_token_separator]. *)
Definition is_shell_token_separator (b : N) : bool :=
  bool_decide (b ∈ bytes_of_string " |;&()<>`" ++ [9; 10]%N).

Definition target_has_glob_metachar (target : str) : bool :=
  existsb (fun b => bool_decide (b ∈ GLOB_METACHARS)) (utf8_encode target).

(** The test both scans make on a target: the label of the first rule it trips. *)
Definition dangerous_target (target : str) : option str :=
  when (target_has_glob_metachar target) GLOB_METACHAR_DENY
  <|> find_map (fun prefix =>
        when (starts_with target prefix || str_eqb target (trim_end_matches "/"%char prefix))
             prefix) DANGEROUS_REDIRECTION_TARGETS.

(** The length of the redirection operator at the front of the bytes, 0 if none. *)
Definition redirect_op_len (bs : list N) : nat :=
  match bs with
  | [] => 0
  | b :: rest =>
      if (b =? gt)%N then
        match rest with
        | b1 :: _ => if (b1 =? gt)%N || (b1 =? "|"%char)%N then 2 else 1
        | [] => 1
        end
      else match rest with
           | b1 :: _ =>
               if (is_ascii_digit b || (b =? "&"%char)%N) && (b1 =? gt)%N then 2 else 0
           | [] => 0
           end
  end.

Fixpoint skip_ascii_ws (bs : list N) : list N :=
  match bs with
  | b :: rest => if is_ascii_whitespace b then skip_ascii_ws rest else bs
  | [] => []
  end.

(** The bytes up to the next separator, and the rest. *)
Fixpoint take_token (bs : list N) : list N * list N :=
  match bs with
  | b :: rest =>
      if is_shell_token_separator b then ([], bs)
      else let '(t, r) := take_token rest in (b :: t, r)
  | [] => ([], [])
  end.

Section gate.
Context `{UnicodeCase}.

(** The [while i < bytes.len()] loop on the bytes from [i] on.  Each iteration
    drops at least one byte. *)
Fixpoint redirect_loop (fuel : nat) (bs : list N) : option str :=
  match fuel, bs with
  | S f, _ :: rest =>
      match redirect_op_len bs with
      | O => redirect_loop f rest
      | op_len =>
          let '(t, after) := take_token (skip_ascii_ws (drop op_len bs)) in
          let target := to_lowercase (utf8_decode t) in
          dangerous_target target <|> redirect_loop f after
      end
  | _, _ => None
  end.

Definition redirects_to_dangerous_path (cmd : str) : option str :=
  let bytes := utf8_encode (normalize_for_safety cmd) in
  redirect_loop (length bytes) bytes.

Definition is_tee (tok : str) : bool :=
  str_eqb tok "tee" || ends_with tok "|tee" || ends_with tok ";tee"
  || ends_with tok "&&tee" || ends_with tok "||tee".

Fixpoint skip_flags (tokens : list str) : list str :=
  match tokens with
  | t :: rest => if starts_with t "-" then skip_flags rest else tokens
  | [] => []
  end.

(** The loop over the tokens; [tokens.get(j)?] leaves the function when no
    target follows. *)
Fixpoint tee_loop (tokens : list str) : option str :=
  match tokens with
  | [] => None
  | tok :: rest =>
      if is_tee tok then
        match skip_flags rest with
        | [] => None
        | target :: _ => dangerous_target (to_lowercase target) <|> tee_loop rest
        end
      else tee_loop rest
  end.

Definition tee_to_dangerous_path (cmd : str) : option str :=
  tee_loop (split_whitespace (normalize_for_safety cmd)).

(** ** The deny list, the path guard and the allowlist *)

Record DenyList := mkDenyList {
  path_matchers : list (str -> bool);
  path_patterns : list str;
  url_patterns : list str;
  bash_require_allowlist : bool;
  bash_allowlist : list str
}.

Definition is_path_denied (dl : DenyList) (path : str) : bool :=
  existsb (fun m => m path) (path_matchers dl).

(** [DenyList::is_url_denied] and [url_is_denied]. *)
Definition url_is_denied (url : str) (patterns : list str) : bool :=
  existsb (fun p => negb (str_eqb p []) && starts_with url p) patterns.

(** [DenyList::new]: invalid globs are skipped.  [glob_new] is globset's
    compiler. *)
Definition DenyList_new (glob_new : str -> option (str -> bool))
    (path_pats url_pats : list str) : DenyList :=
  {| path_matchers := omap glob_new path_pats; path_patterns := path_pats;
     url_patterns := url_pats; bash_require_allowlist := false; bash_allowlist := [] |}.

Definition with_bash_allowlist (glob_new : str -> option (str -> bool))
    (path_pats url_pats : list str) (require : bool) (allow : list str) : DenyList :=
  let dl := DenyList_new glob_new path_pats url_pats in
  {| path_matchers := path_matchers dl; path_patterns := path_patterns dl;
     url_patterns := url_patterns dl; bash_require_allowlist := require;
     bash_allowlist := allow |}.

Definition DenyList_default (glob_new : str -> option (str -> bool)) : DenyList :=
  DenyList_new glob_new
    (map lit
     ["**/.ssh/**"; "**/.gnupg/**"; "**/.aws/**"; "**/.config/**"; "**/.docker/**";
      "**/.netrc"; "**/.gitconfig"; "**/.git/**"; "**/__pycache__/**"; "**/.env*";
      "**/*.pem"; "**/*.key"; "**/*.crt"; "**/*.cert"; "/etc/shadow"; "/etc/sudoers";
      "/etc/passwd"; "/etc/kubernetes/**"])
    (map lit
     ["http://169.254.169.254"; "http://metadata.google.internal";
      "http://100.100.100.200"]).

Definition allowlist_message (clause : str) : str :=
  "🔒 Command blocked by bash allowlist: clause '" ++ clause
  ++ "' does not match any allowed prefix".

Definition check_clause (dl : DenyList) (clause : str) : option str :=
  match split_whitespace clause with
  | [] => None
  | head :: _ =>
      when (negb (existsb (fun prefix => starts_with head (trim prefix)) (bash_allowlist dl)))
           (allowlist_message clause)
  end.

Definition check_bash_allowlist (cmd : str) (dl : DenyList) : option str :=
  if negb (bash_require_allowlist dl) || bool_decide (bash_allowlist dl = []) then None
  else find_map (check_clause dl) (split_compound_clauses (normalize_for_safety cmd)).

(** ** The gate *)

(** [Path::canonicalize]: the components of the resolved path, [None] on error. *)
Context (canonicalize : str -> option (list str)).

Definition path_starts_with (p base : list str) : bool := bool_decide (base `prefix_of` p).

(** Step 1, the workdir policy.  [sandbox_dir] is the field of [PathGuard]. *)
Definition check_workdir (workdir sandbox_dir : option str) (bash_sandbox_workdir : bool)
    : option str :=
  if bash_sandbox_workdir then
    match workdir with
    | Some wd =>
        if str_eqb wd [] then None
        else match canonicalize wd with
             | None => Some ("🔒 Bash workdir cannot be resolved: " ++ wd
                             ++ " (sandbox enforcement active)")
             | Some resolved =>
                 match sandbox_dir with
                 | None => None
                 | Some sandbox =>
                     match canonicalize sandbox with
                     | None => Some ("🔒 Sandbox directory cannot be resolved: " ++ sandbox)
                     | Some sb =>
                         when (negb (path_starts_with resolved sb))
                              ("🔒 Bash workdir outside sandbox: " ++ wd
                               ++ " (sandbox: " ++ sandbox ++ ")")
                     end
                 end
             end
    | None => None
    end
  else None.

Definition dangerous_pattern_hit (cmd normalized pattern : str) : bool :=
  let needs_word_boundary := ends_with pattern "/" || ends_with pattern " " in
  let pattern_lower := to_ascii_lowercase pattern in
  (if needs_word_boundary then word_boundary_match cmd pattern else contains cmd pattern)
  || (if needs_word_boundary then word_boundary_match normalized pattern_lower
      else contains normalized pattern_lower).

Definition word_hit (cmd normalized pat : str) : bool :=
  word_boundary_match cmd pat || word_boundary_match normalized (to_ascii_lowercase pat).

Definition check_bash_command_str (cmd : str) (workdir : option str) (dl : DenyList)
    (sandbox_dir : option str) (bash_sandbox_workdir : bool) : option str :=
  let normalized := normalize_for_safety cmd in
  check_workdir workdir sandbox_dir bash_sandbox_workdir
  <|> when (contains cmd "169.254.169.254" || contains cmd "metadata.google"
            || contains cmd "metadata.aws")
           (lit "🔒 Command blocked: contains reference to metadata endpoints")
  <|> find_map (fun url_prefix =>
        when (negb (str_eqb url_prefix []) && contains cmd url_prefix)
             ("🔒 Command blocked: references denied URL '" ++ url_prefix ++ "'"))
        (url_patterns dl)
  <|> when (contains_shell_expansion_evasion cmd || contains_shell_expansion_evasion normalized)
           (lit "🔒 Command blocked: shell parameter expansion evasion detected")
  <|> find_map (fun pattern =>
        when (dangerous_pattern_hit cmd normalized pattern)
             ("🔒 Command blocked: dangerous pattern '" ++ pattern ++ "' detected"))
        DANGEROUS_SHELL_COMMANDS
  <|> find_map (fun pat =>
        when (contains cmd pat || contains normalized pat)
             ("🔒 Command blocked: references denied path '" ++ pat ++ "'"))
        DENIED_PATH_LITERALS
  <|> when (contains cmd "<(")
           (lit "🔒 Command blocked: process substitution detected")
  <|> find_map (fun pat =>
        when (word_hit cmd normalized pat)
             ("🔒 Command blocked: privilege escalation command '" ++ pat
              ++ "' is not allowed"))
        PRIVILEGE_ESCALATION_COMMANDS
  <|> find_map (fun pat =>
        when (word_hit cmd normalized pat)
             ("🔒 Command blocked: interactive password prompt '" ++ pat
              ++ "' is not allowed"))
        INTERACTIVE_PASSWORD_PATTERNS
  <|> find_map (fun pat =>
        when (contains cmd pat || contains normalized (to_ascii_lowercase pat))
             ("🔒 Command blocked: dangerous redirection to system path '" ++ pat ++ "'"))
        DANGEROUS_REDIRECTION_PATTERNS
  <|> ((fun prefix => "🔒 Command blocked: dangerous redirection to system path '"
                      ++ prefix ++ "'") <$> redirects_to_dangerous_path cmd)
  <|> ((fun prefix => "🔒 Command blocked: dangerous redirection to system path '"
                      ++ prefix ++ "'") <$> tee_to_dangerous_path cmd)
  <|> find_map (fun token =>
        when (is_path_denied dl token)
             ("🔒 Command blocked: references denied path '" ++ token ++ "'"))
        (split_whitespace normalized)
  <|> check_bash_allowlist cmd dl.

(** [check_bash_command]: the JSON wrapper of the bash tool. *)
Definition check_bash_command (args : json) (dl : DenyList) (sandbox_dir : option str)
    (bash_sandbox_workdir : bool) : option str :=
  let cmd := unwrap_or [] (json_get args "command" ≫= as_str) in
  let workdir := json_get args "workdir" ≫= as_str in
  check_bash_command_str cmd workdir dl sandbox_dir bash_sandbox_workdir.
End gate.

(** ** Properties *)

(** *** The word-boundary scan *)

(** [p] occurs in [cmd] with a boundary (or an end of the string) on each side. *)
Definition occurs_as_word (cmd p : str) : Prop :=
  exists a b, cmd = a ++ p ++ b
    /\ (a = [] \/ exists c, last a = Some c /\ is_boundary c = true)
    /\ (b = [] \/ exists c, head b = Some c /\ is_boundary c = true).

Lemma word_match_at_spec (a p b : str) :
  word_match_at (a ++ p ++ b) p (length a) = true
  <-> (a = [] \/ exists c, last a = Some c /\ is_boundary c = true)
      /\ (b = [] \/ exists c, head b = Some c /\ is_boundary c = true).
Proof.
  unfold word_match_at. rewrite drop_app_length, take_app_length, str_eqb_refl. simpl.
  rewrite andb_true_iff, !orb_true_iff, Nat.eqb_eq, Nat.leb_le, !length_app.
  assert (Ha : (length a = 0 \/ match (a ++ p ++ b) !! (length a - 1) with
                  Some c => is_boundary c | None => false end = true)
            <-> (a = [] \/ exists c, last a = Some c /\ is_boundary c = true)).
  { destruct a as [|x a] using rev_ind; [simpl; tauto |]. clear IHa.
    rewrite length_app, last_snoc. simpl. rewrite Nat.add_sub, <-!app_assoc.
    rewrite lookup_app_r, Nat.sub_diag by done. simpl.
    split; [intros [?|?]; [lia | eauto] | intros [[]%app_nil | (c & [= ->] & ?)]; [done | by right]]. }
  assert (Hb : (length a + (length p + length b) <= length a + length p
                \/ match (a ++ p ++ b) !! (length a + length p) with
                  Some c => is_boundary c | None => false end = true)
            <-> (b = [] \/ exists c, head b = Some c /\ is_boundary c = true)).
  { rewrite app_assoc, lookup_app_r by (rewrite length_app; lia).
    rewrite length_app, Nat.sub_diag. destruct b as [|x b]; simpl.
    - split; [by left | left; lia].
    - split; [intros [?|?]; [lia | eauto] | intros [? | (c & [= ->] & ?)]; [done | by right]]. }
  by rewrite Ha, Hb.
Qed.

Lemma word_boundary_match_spec (cmd p : str) :
  word_boundary_match cmd p = true <-> occurs_as_word cmd p.
Proof.
  unfold word_boundary_match, occurs_as_word. rewrite existsb_elem. split.
  - intros (i & Hi & Hm). apply elem_of_seq in Hi.
    assert (str_eqb (take (length p) (drop i cmd)) p = true) as Hp%str_eqb_eq.
    { unfold word_match_at in Hm. by apply andb_true_iff in Hm as [[? _]%andb_true_iff _]. }
    exists (take i cmd), (drop (i + length p) cmd).
    assert (Hcmd : cmd = take i cmd ++ p ++ drop (i + length p) cmd).
    { rewrite <-Hp at 1. by rewrite <-drop_drop, take_drop, take_drop. }
    split; [done |]. rewrite <-(word_match_at_spec _ p _), <-Hcmd.
    by rewrite length_take_le by lia.
  - intros (a & b & -> & Hab). exists (length a).
    split; [apply elem_of_seq; rewrite !length_app; lia | by apply word_match_at_spec].
Qed.

(** *** The gate as one statement *)

Section gate_properties.
Context `{UnicodeCase} (canonicalize : str -> option (list str)).

(** What an accepted command satisfies, step by step. *)
Record gate_passes (cmd : str) (workdir : option str) (dl : DenyList)
    (sandbox_dir : option str) (sandboxed : bool) : Prop := {
  gp_workdir : sandboxed = true -> forall wd, workdir = Some wd -> wd <> [] ->
    exists p, canonicalize wd = Some p /\
      forall sandbox, sandbox_dir = Some sandbox ->
        exists sb, canonicalize sandbox = Some sb /\ sb `prefix_of` p;
  gp_metadata : contains cmd "169.254.169.254" = false
    /\ contains cmd "metadata.google" = false /\ contains cmd "metadata.aws" = false;
  gp_url : forall u, u ∈ url_patterns dl -> u = [] \/ contains cmd u = false;
  gp_expansion : contains_shell_expansion_evasion cmd = false
    /\ contains_shell_expansion_evasion (normalize_for_safety cmd) = false;
  gp_dangerous : forall p, p ∈ DANGEROUS_SHELL_COMMANDS ->
    if ends_with p "/" || ends_with p " "
    then ~ occurs_as_word cmd p
         /\ ~ occurs_as_word (normalize_for_safety cmd) (to_ascii_lowercase p)
    else contains cmd p = false
         /\ contains (normalize_for_safety cmd) (to_ascii_lowercase p) = false;
  gp_paths : forall p, p ∈ DENIED_PATH_LITERALS ->
    contains cmd p = false /\ contains (normalize_for_safety cmd) p = false;
  gp_procsub : contains cmd "<(" = false;
  gp_words : forall p, p ∈ PRIVILEGE_ESCALATION_COMMANDS ++ INTERACTIVE_PASSWORD_PATTERNS ->
    ~ occurs_as_word cmd p
    /\ ~ occurs_as_word (normalize_for_safety cmd) (to_ascii_lowercase p);
  gp_redirect_literals : forall p, p ∈ DANGEROUS_REDIRECTION_PATTERNS ->
    contains cmd p = false
    /\ contains (normalize_for_safety cmd) (to_ascii_lowercase p) = false;
  gp_redirect : redirects_to_dangerous_path cmd = None;
  gp_tee : tee_to_dangerous_path cmd = None;
  gp_tokens : forall t, t ∈ split_whitespace (normalize_for_safety cmd) ->
    is_path_denied dl t = false;
  gp_allowlist : bash_require_allowlist dl = true -> bash_allowlist dl <> [] ->
    forall clause hd tl, clause ∈ split_compound_clauses (normalize_for_safety cmd) ->
      split_whitespace clause = hd :: tl ->
      exists prefix, prefix ∈ bash_allowlist dl /\ starts_with hd (trim prefix) = true
}.

Lemma check_workdir_None workdir sandbox_dir sandboxed :
  check_workdir canonicalize workdir sandbox_dir sandboxed = None
  <-> (sandboxed = true -> forall wd, workdir = Some wd -> wd <> [] ->
        exists p, canonicalize wd = Some p /\
          forall sandbox, sandbox_dir = Some sandbox ->
            exists sb, canonicalize sandbox = Some sb /\ sb `prefix_of` p).
Proof.
  unfold check_workdir. destruct sandboxed; [|done].
  destruct workdir as [wd|]; [|done].
  destruct (str_eqb wd []) eqn:E; to_prop.
  { split; [|done]. intros _ _ wd' [= <-]. done. }
  transitivity (exists p, canonicalize wd = Some p /\
          forall sandbox, sandbox_dir = Some sandbox ->
            exists sb, canonicalize sandbox = Some sb /\ sb `prefix_of` p).
  2: { split; [by intros Hx _ wd' [= <-] _ | intros Hx; by apply (Hx eq_refl wd)]. }
  destruct (canonicalize wd) as [p|]; [|split; [done | by intros (? & ? & _)]].
  destruct sandbox_dir as [sandbox|]; [|split; [intros _; exists p; by split | done]].
  destruct (canonicalize sandbox) as [sb|] eqn:Esb.
  - rewrite when_None, negb_false_iff. unfold path_starts_with. rewrite bool_decide_eq_true.
    split.
    + intros Hpre. exists p. split; [done |]. intros ? [= <-]. eauto.
    + intros (p' & [= <-] & Hx). destruct (Hx _ eq_refl) as (sb' & ? & ?). congruence.
  - split; [done |]. intros (p' & [= <-] & Hx).
    destruct (Hx _ eq_refl) as (sb' & ? & _). congruence.
Qed.

Lemma find_when_None {A} (l : list A) (b : A -> bool) (m : A -> str) :
  find_map (fun x => when (b x) (m x)) l = None <-> forall x, x ∈ l -> b x = false.
Proof.
  rewrite find_map_None, Forall_forall. by setoid_rewrite when_None.
Qed.

Lemma check_clause_None dl clause :
  check_clause dl clause = None
  <-> forall hd tl, split_whitespace clause = hd :: tl ->
      exists prefix, prefix ∈ bash_allowlist dl /\ starts_with hd (trim prefix) = true.
Proof.
  unfold check_clause. destruct (split_whitespace clause) as [|h t]; [done |].
  rewrite when_None, negb_false_iff, existsb_elem.
  split; [by intros ? ? ? [= <- <-] | eauto].
Qed.

Lemma check_bash_allowlist_None cmd dl :
  check_bash_allowlist cmd dl = None
  <-> (bash_require_allowlist dl = true -> bash_allowlist dl <> [] ->
       forall clause hd tl, clause ∈ split_compound_clauses (normalize_for_safety cmd) ->
         split_whitespace clause = hd :: tl ->
         exists prefix, prefix ∈ bash_allowlist dl /\ starts_with hd (trim prefix) = true).
Proof.
  unfold check_bash_allowlist.
  destruct (bash_require_allowlist dl); simpl; [|done].
  case_bool_decide as Hnil; [done |].
  rewrite find_map_None, Forall_forall. setoid_rewrite check_clause_None.
  split; [intros Hx _ _ clause hd tl Hc; by apply Hx | intros Hx clause Hc hd tl; by apply Hx].
Qed.

Lemma not_word cmd p : word_boundary_match cmd p = false <-> ~ occurs_as_word cmd p.
Proof. rewrite <-word_boundary_match_spec. by destruct (word_boundary_match cmd p). Qed.

Lemma word_hit_false cmd norm p :
  word_hit cmd norm p = false
  <-> ~ occurs_as_word cmd p /\ ~ occurs_as_word norm (to_ascii_lowercase p).
Proof. unfold word_hit. by rewrite orb_false_iff, !not_word. Qed.

Lemma dangerous_hit_false cmd norm p :
  dangerous_pattern_hit cmd norm p = false
  <-> if ends_with p "/" || ends_with p " "
      then ~ occurs_as_word cmd p /\ ~ occurs_as_word norm (to_ascii_lowercase p)
      else contains cmd p = false /\ contains norm (to_ascii_lowercase p) = false.
Proof.
  unfold dangerous_pattern_hit.
  destruct (ends_with p "/" || ends_with p " "); by rewrite orb_false_iff, ?not_word.
Qed.

Lemma fmap_None_iff {A B} (f : A -> B) (o : option A) : f <$> o = None <-> o = None.
Proof. by destruct o. Qed.

(** C1.  The gate accepts a command exactly when the workdir resolves inside
    the sandbox, no metadata endpoint, denied URL, expansion trick, dangerous
    pattern, denied path, process substitution, privilege-escalation or
    password word occurs in the raw or the normalized text, neither scan finds
    a dangerous redirection or tee target, no token is a denied path, and every
    clause head is on the allowlist when one is required. *)
Theorem check_bash_command_spec cmd workdir dl sandbox_dir sandboxed :
  check_bash_command_str canonicalize cmd workdir dl sandbox_dir sandboxed = None
  <-> gate_passes cmd workdir dl sandbox_dir sandboxed.
Proof.
  unfold check_bash_command_str. cbv zeta.
  rewrite !orelse_None, check_workdir_None, check_bash_allowlist_None.
  rewrite !find_when_None, !when_None, !fmap_None_iff, !orb_false_iff.
  setoid_rewrite word_hit_false. setoid_rewrite dangerous_hit_false.
  remember (contains_shell_expansion_evasion cmd) as e1 eqn:He1.
  remember (contains_shell_expansion_evasion (normalize_for_safety cmd)) as e2 eqn:He2.
  setoid_rewrite orb_false_iff. setoid_rewrite andb_false_iff.
  setoid_rewrite negb_false_iff. setoid_rewrite str_eqb_eq.
  split.
  - intros (? & [[? ?] ?] & ? & ? & ? & ? & ? & Hp & Hi & ? & ? & ? & ? & ?).
    constructor; subst; try done. intros p [?|?]%elem_of_app; [by apply Hp | by apply Hi].
  - intros []. subst. destruct gp_metadata0 as (? & ? & ?), gp_expansion0.
    split_and!; try done; intros p Hp; apply gp_words0, elem_of_app; auto.
Qed.
End gate_properties.

(** *** Normalization hides case and quoting *)

Definition plain (c : char) : Prop :=
  c <> squote /\ c <> dquote_c /\ c <> backslash /\ c <> hash.

Lemma normalize_loop_lower n (s : str) is1 is2 out :
  length s <= n ->
  normalize_loop is1 is2 out (to_ascii_lowercase s) = normalize_loop is1 is2 out s.
Proof.
  revert s is1 is2 out. induction n as [|n IH]; intros s is1 is2 out Hn;
    (destruct s as [|c s]; simpl in *; [done | try lia]).
  rewrite !ascii_lower_eqb, ascii_lower_idemp by done.
  rewrite !IH by lia.
  destruct s as [|d s]; simpl; [done |].
  rewrite ascii_lower_idemp. simpl in Hn. by rewrite !(IH s) by lia.
Qed.

Lemma normalize_loop_plain (a s out : str) :
  Forall plain a ->
  normalize_loop false false out (a ++ s) = normalize_loop false false (out ++ to_ascii_lowercase a) s.
Proof.
  intros Ha. revert out. induction Ha as [|c a (H1 & H2 & H3 & H4) _ IH]; intros out; simpl.
  - by rewrite app_nil_r.
  - rewrite !(proj2 (N.eqb_neq _ _)) by done. simpl. by rewrite IH, <-app_assoc.
Qed.

Lemma normalize_loop_squoted (w s out : str) :
  Forall (fun c => c <> squote) w ->
  normalize_loop true false out (w ++ squote :: s)
  = normalize_loop false false (out ++ to_ascii_lowercase w) s.
Proof.
  intros Hw. revert out. induction Hw as [|c w H1 _ IH]; intros out; simpl.
  - by rewrite app_nil_r.
  - rewrite (proj2 (N.eqb_neq _ _)) by done. by rewrite IH, <-app_assoc.
Qed.

Lemma normalize_loop_dquoted (w s out : str) :
  Forall (fun c => c <> dquote_c /\ c <> backslash) w ->
  normalize_loop false true out (w ++ dquote_c :: s)
  = normalize_loop false false (out ++ to_ascii_lowercase w) s.
Proof.
  intros Hw. revert out. induction Hw as [|c w [H1 H2] _ IH]; intros out; simpl.
  - by rewrite app_nil_r.
  - rewrite !(proj2 (N.eqb_neq _ _)) by done. by rewrite IH, <-app_assoc.
Qed.

Lemma normalize_loop_open (s out : str) :
  normalize_loop false false out (squote :: s) = normalize_loop true false out s
  /\ normalize_loop false false out (dquote_c :: s) = normalize_loop false true out s.
Proof. done. Qed.

(** The deny gates see the same text whatever the letter case and whether a
    plain word is bare, in single quotes or in double quotes: upper-casing or
    quoting a word does not hide it. *)
Lemma normalize_hides_case_and_quotes (a w b : str) :
  Forall plain a -> Forall plain w ->
  normalize_for_safety (to_ascii_lowercase (a ++ w ++ b)) = normalize_for_safety (a ++ w ++ b)
  /\ normalize_for_safety (a ++ [squote] ++ w ++ [squote] ++ b) = normalize_for_safety (a ++ w ++ b)
  /\ normalize_for_safety (a ++ [dquote_c] ++ w ++ [dquote_c] ++ b)
     = normalize_for_safety (a ++ w ++ b).
Proof.
  intros Ha Hw. unfold normalize_for_safety.
  rewrite (normalize_loop_lower (length (a ++ w ++ b))) by done.
  rewrite !(normalize_loop_plain a), !(normalize_loop_plain w) by done. split; [done |].
  change ([squote] ++ w ++ [squote] ++ b) with (squote :: w ++ squote :: b).
  change ([dquote_c] ++ w ++ [dquote_c] ++ b) with (dquote_c :: w ++ dquote_c :: b).
  rewrite (proj1 (normalize_loop_open _ _)), (proj2 (normalize_loop_open _ _)).
  rewrite normalize_loop_squoted, normalize_loop_dquoted; [done | |].
  - by eapply Forall_impl; [exact Hw |]; intros ? (? & ? & ? & ?).
  - by eapply Forall_impl; [exact Hw |]; intros ? (? & ? & ? & ?).
Qed.

(** The evasions the comments name all normalize to the literal command. *)
Lemma normalize_hides_case_and_quotes_witness :
  normalize_for_safety ("rm " ++ [dquote_c] ++ "-RF" ++ [dquote_c] ++ " /x")
  = normalize_for_safety ("rm " ++ "-RF" ++ " /x").
Proof.
  assert (Hp : forall s : str, forallb (fun c => negb (bool_decide (c ∈ [squote; dquote_c; backslash; hash]))) s = true
               -> Forall plain s).
  { intros s Hs. apply Forall_forall. intros c Hc. rewrite forallb_elem in Hs.
    specialize (Hs c Hc). to_prop. unfold plain. set_solver. }
  apply (normalize_hides_case_and_quotes "rm " "-RF" " /x"); apply Hp; vm_compute; reflexivity.
Defined.

(** *** Clauses *)

Definition replace_seps (seps : list str) (s : str) : str :=
  fold_left (fun s sep => replace s sep [NUL]) seps s.

Lemma split_unfold cmd :
  split_compound_clauses cmd
  = filter (fun c => c <> [])
      (map trim (split_char NUL (split_lone_amp None (replace_seps SEPARATORS cmd)))).
Proof. done. Qed.

Lemma replace_seps_cut seps (a b : str) x :
  Forall (fun sep => sep <> [] /\ x ∉ sep) seps ->
  replace_seps seps (a ++ x :: b) = replace_seps seps a ++ x :: replace_seps seps b.
Proof.
  unfold replace_seps. intros Hs. revert a b.
  induction Hs as [|sep seps [Hne Hx] _ IH]; intros a b; simpl; [done |].
  by rewrite replace_app, IH.
Qed.

Lemma replace_seps_split l1 l2 (s : str) :
  replace_seps (l1 ++ l2) s = replace_seps l2 (replace_seps l1 s).
Proof. apply fold_left_app. Qed.

(** A separator character cuts the sentinel string in two. *)
Lemma replace_seps_sep l1 l2 (a b : str) x :
  Forall (fun sep => sep <> [] /\ x ∉ sep) l1 ->
  Forall (fun sep => sep <> [] /\ NUL ∉ sep) l2 ->
  replace_seps (l1 ++ [x] :: l2) (a ++ x :: b)
  = replace_seps (l1 ++ [x] :: l2) a ++ NUL :: replace_seps (l1 ++ [x] :: l2) b.
Proof.
  intros H1 H2. change ([x] :: l2) with ([[x]] ++ l2).
  rewrite !replace_seps_split, replace_seps_cut by done.
  unfold replace_seps at 2. simpl. rewrite replace_char_app.
  by rewrite <-replace_seps_cut.
Qed.

Lemma split_lone_amp_cut prev (a b : str) :
  split_lone_amp prev (a ++ NUL :: b)
  = split_lone_amp prev a ++ NUL :: split_lone_amp None b.
Proof.
  revert prev; induction a as [|c a IH]; intros prev; simpl.
  - f_equal. destruct b as [|d b]; [done |]. simpl. done.
  - rewrite IH. destruct a as [|d a]; simpl; [|done].
    destruct (c =? "&"%char)%N; [|done].
    by rewrite !andb_false_r, !orb_false_r.
Qed.

Lemma split_of_cut (s a b : str) :
  replace_seps SEPARATORS s = replace_seps SEPARATORS a ++ NUL :: replace_seps SEPARATORS b ->
  split_compound_clauses s = split_compound_clauses a ++ split_compound_clauses b.
Proof.
  intros H. rewrite !split_unfold, H, split_lone_amp_cut, split_char_app, map_app.
  apply filter_app.
Qed.

(** The characters that always separate clauses. *)
Definition HARD_SEPARATORS : list char := [59; 10; 13]%N.

Lemma split_compound_app (a b : str) x :
  x ∈ HARD_SEPARATORS ->
  split_compound_clauses (a ++ x :: b) = split_compound_clauses a ++ split_compound_clauses b.
Proof.
  intros Hx. apply split_of_cut.
  assert (Hcut : forall l1 l2, SEPARATORS = l1 ++ [x] :: l2 ->
    forallb (fun sep => negb (bool_decide (sep = [])) && negb (bool_decide (x ∈ sep))) l1 = true ->
    forallb (fun sep => negb (bool_decide (sep = [])) && negb (bool_decide (NUL ∈ sep))) l2 = true ->
    replace_seps SEPARATORS (a ++ x :: b)
    = replace_seps SEPARATORS a ++ NUL :: replace_seps SEPARATORS b).
  { intros l1 l2 -> H1 H2. apply replace_seps_sep; apply Forall_forall; intros sep Hsep;
      [rewrite forallb_elem in H1; specialize (H1 _ Hsep)
      |rewrite forallb_elem in H2; specialize (H2 _ Hsep)]; to_prop; done. }
  unfold HARD_SEPARATORS in Hx.
  repeat (apply elem_of_cons in Hx as [-> | Hx]); [| | | by apply elem_of_nil in Hx].
  - by apply (Hcut (take 2 SEPARATORS) (drop 3 SEPARATORS)).
  - by apply (Hcut (take 4 SEPARATORS) (drop 5 SEPARATORS)).
  - by apply (Hcut (take 5 SEPARATORS) (drop 6 SEPARATORS)).
Qed.

(** *** The separators of two characters *)

(** A doubled character is not cut in two where it cannot straddle. *)
Lemma replace_double_app p (a b to : str) :
  last a <> Some p \/ head b <> Some p ->
  replace (a ++ b) [p; p] to = replace a [p; p] to ++ replace b [p; p] to.
Proof.
  unfold replace. revert b. induction a as [a IH] using (induction_ltof1 _ (@length char)). unfold ltof in IH.
  intros b Hab. destruct a as [|c a]; [done |].
  assert (forall x y l, starts_with (x :: y :: l) [p; p] = (p =? x)%N && (p =? y)%N) as Hsw.
  { intros x y l. simpl. by rewrite andb_true_r. }
  destruct a as [|d a].
  - destruct b as [|x b].
    { change (replace_from 0 [] [p; p] to) with (@nil char). by rewrite !app_nil_r. }
    cbn [app replace_from]. rewrite Hsw.
    assert (starts_with [c] [p; p] = false) as -> by (simpl; by rewrite andb_false_r).
    destruct (N.eqb_spec p c) as [<-|Hc]; [|done].
    destruct (N.eqb_spec p x) as [<-|Hx]; [by destruct Hab | done].
  - assert (last (d :: a) <> Some p \/ head b <> Some p) as Hab' by done.
    cbn [app replace_from]. rewrite !Hsw. destruct (_ && _).
    + cbn [length Nat.sub replace_from]. rewrite <-app_assoc. f_equal. apply IH; [simpl; lia |].
      destruct a as [|e a]; [by left | exact Hab'].
    + rewrite <-app_comm_cons. f_equal. apply (IH (d :: a)); [simpl; lia | done].
Qed.

(** Replacing separators brings no new character but NUL to an end of a text. *)
Definition ends_kept (f : str -> str) : Prop :=
  forall s q, q <> NUL ->
    (last (f s) = Some q -> last s = Some q) /\ (head (f s) = Some q -> head s = Some q).

Lemma ends_kept_compose f g : ends_kept f -> ends_kept g -> ends_kept (fun s => g (f s)).
Proof.
  intros Hf Hg s q Hq. destruct (Hf s q Hq) as [Hf1 Hf2], (Hg (f s) q Hq) as [Hg1 Hg2].
  split; [intros H; by apply Hf1, Hg1 | intros H; by apply Hf2, Hg2].
Qed.

Lemma last_tail {A} (x : A) l y : last l = Some y -> last (x :: l) = Some y.
Proof. intros H. rewrite last_cons. by rewrite H. Qed.

Lemma ends_kept_replace sep : ends_kept (fun s => replace s sep [NUL]).
Proof.
  intros s q Hq. unfold replace. split.
  - generalize 0 as k. induction s as [|c s IH]; intros k; [done |]. destruct k as [|k]; cbn [replace_from].
    2: { intros H. by eapply last_tail, IH. }
    destruct (starts_with _ _); cbn [app]; rewrite last_cons.
    + destruct (last (replace_from _ s _ _)) as [z|] eqn:E; [intros [= ->]; by eapply last_tail, IH |]. by intros [= <-].
    + destruct (last (replace_from _ s _ _)) as [z|] eqn:E; [intros [= ->]; by eapply last_tail, IH |].
      intros [= <-]. destruct s as [|d s]; [done |]. exfalso. apply last_None in E. revert E. cbn [replace_from].
      by destruct (starts_with _ _).
  - destruct s as [|c s]; [done |]. cbn [replace_from].
    destruct (starts_with _ _); cbn [app head]; [by intros [= <-] | done].
Qed.

Lemma ends_kept_seps seps : ends_kept (replace_seps seps).
Proof.
  induction seps as [|sep seps IH]; [by intros s q |].
  apply (ends_kept_compose (fun s => replace s sep [NUL]) (replace_seps seps)); [apply ends_kept_replace | exact IH].
Qed.

Lemma last_kept f (s : str) q : ends_kept f -> q <> NUL -> last s <> Some q -> last (f s) <> Some q.
Proof. intros Hf Hq Hs H. by apply Hs, (Hf s q Hq). Qed.
Lemma head_kept f (s : str) q : ends_kept f -> q <> NUL -> head s <> Some q -> head (f s) <> Some q.
Proof. intros Hf Hq Hs H. by apply Hs, (Hf s q Hq). Qed.

Definition amp : char := "&"%char.
Definition bar : char := "|"%char.

(** The replacements of the code: two doubled characters, then single ones. *)
Definition double_amps (s : str) : str := replace s [amp; amp] [NUL].
Definition double_bars (s : str) : str := replace s [bar; bar] [NUL].
Definition singles (s : str) : str := replace_seps [[59]; [bar]; [10]; [13]]%N s.

Lemma replace_seps_stages s : replace_seps SEPARATORS s = singles (double_bars (double_amps s)).
Proof. done. Qed.

Lemma singles_app a b : singles (a ++ b) = singles a ++ singles b.
Proof.
  unfold singles, replace_seps. cbn [fold_left].
  assert (forall x u v, replace (u ++ v) [x] [NUL] = replace u [x] [NUL] ++ replace v [x] [NUL]) as Hr; [|by rewrite !Hr].
  intros x u v. unfold replace. induction u as [|c u IH]; [done |]. cbn [app replace_from starts_with length Nat.sub].
  rewrite andb_true_r. by destruct (x =? c)%N; rewrite IH.
Qed.

Lemma double_amps_app a b : last a <> Some amp \/ head b <> Some amp -> double_amps (a ++ b) = double_amps a ++ double_amps b.
Proof. apply replace_double_app. Qed.
Lemma double_bars_app a b : last a <> Some bar \/ head b <> Some bar -> double_bars (a ++ b) = double_bars a ++ double_bars b.
Proof. apply replace_double_app. Qed.

(** A lone ampersand that is no part of a redirection cuts the text in two. *)
Definition lone_amp (a b : str) : Prop :=
  last a <> Some amp /\ last a <> Some (chr ">") /\ head b <> Some amp /\ head b <> Some (chr ">")
  /\ ~ (exists p n, last a = Some p /\ head b = Some n /\ is_ascii_digit p = true /\ is_ascii_digit n = true).

Lemma split_lone_amp_here prev (a b : str) :
  (a = [] -> prev <> Some (chr ">") /\ ~ (exists p n, prev = Some p /\ head b = Some n /\ is_ascii_digit p = true /\ is_ascii_digit n = true)) ->
  lone_amp a b -> split_lone_amp prev (a ++ amp :: b) = split_lone_amp prev a ++ NUL :: split_lone_amp None b.
Proof.
  revert prev. induction a as [|c a IH]; intros prev Hprev (Ha & Hg & Hb & Hgb & Hd).
  - destruct (Hprev eq_refl) as [Hp Hpd]. cbn [app split_lone_amp]. change (amp =? "&"%char)%N with true. cbv iota.
    rewrite (bool_decide_eq_false_2 (prev = _)), (bool_decide_eq_false_2 (head b = _)) by done. cbn [orb].
    assert ((match prev with Some p => is_ascii_digit p | None => false end)
            && (match head b with Some n => is_ascii_digit n | None => false end) = false) as ->.
    { destruct prev as [p|], (head b) as [n|] eqn:En; try done; [|by rewrite andb_false_r].
      apply not_true_iff_false. intros [Hx Hy]%andb_true_iff. apply Hpd. by exists p, n. }
    f_equal. destruct b as [|d b]; [done |]. cbn [split_lone_amp head] in *.
    assert ((d =? "&"%char)%N = false) as -> by (apply N.eqb_neq; intros ->; by apply Hb). done.
  - cbn [app split_lone_amp]. rewrite IH.
    + f_equal. destruct a as [|d a]; [|done]. cbn [app head].
      assert ((c =? "&"%char)%N = false) as -> by (apply N.eqb_neq; intros ->; by apply Ha). done.
    + intros ->. cbn [last] in *. split; [exact Hg |]. exact Hd.
    + destruct a as [|d a]; [|done]. split; [done |]. split; [done |]. split; [done |]. split; [done |].
      by intros (p & n & ? & _).
Qed.

(** How a separator stands between two commands, so that it is the token there. *)
Inductive separates : str -> str -> str -> Prop :=
| separates_hard a x b : x ∈ HARD_SEPARATORS -> separates a [x] b
| separates_and a b : last a <> Some amp -> separates a [amp; amp] b
| separates_or a b : last a <> Some bar -> separates a [bar; bar] b
| separates_pipe a b : last a <> Some bar -> head b <> Some bar -> separates a [bar] b
| separates_background a b : lone_amp a b -> separates a [amp] b.

(** The clauses of a compound command are those of its parts. *)
Lemma split_compound_join (a sep b : str) :
  separates a sep b ->
  split_compound_clauses (a ++ sep ++ b) = split_compound_clauses a ++ split_compound_clauses b.
Proof.
  assert (ends_kept double_amps) as Ka by apply ends_kept_replace.
  assert (ends_kept double_bars) as Kb by apply ends_kept_replace.
  intros [a' x b' Hx|a' b' Ha|a' b' Ha|a' b' Ha Hb|a' b' H]; clear a sep b; rename a' into a, b' into b.
  - by apply split_compound_app.
  - apply split_of_cut. rewrite !replace_seps_stages, (double_amps_app a) by (by left).
    change (double_amps ([amp; amp] ++ b)) with ([NUL] ++ double_amps b).
    rewrite double_bars_app by (by right). rewrite (double_bars_app [NUL]) by (by left). by rewrite !singles_app.
  - apply split_of_cut. rewrite !replace_seps_stages, (double_amps_app a) by (by right).
    rewrite (double_amps_app [bar; bar]) by (by left). change (double_amps [bar; bar]) with [bar; bar].
    rewrite double_bars_app by (left; by apply last_kept). 
    change (double_bars ([bar; bar] ++ double_amps b)) with ([NUL] ++ double_bars (double_amps b)).
    by rewrite !singles_app.
  - apply split_of_cut. rewrite !replace_seps_stages, (double_amps_app a) by (by right).
    rewrite (double_amps_app [bar]) by (by left). change (double_amps [bar]) with [bar].
    rewrite double_bars_app by (left; by apply last_kept).
    rewrite (double_bars_app [bar]) by (right; by apply head_kept). by rewrite !singles_app.
  - assert (ends_kept (replace_seps SEPARATORS)) as Ks by apply ends_kept_seps.
    rewrite !split_unfold. pose proof H as (Ha & Hg & Hb & Hgb & Hd).
    assert (replace_seps SEPARATORS (a ++ [amp] ++ b) = replace_seps SEPARATORS a ++ amp :: replace_seps SEPARATORS b) as ->.
    { rewrite !replace_seps_stages, (double_amps_app a) by (by left). rewrite (double_amps_app [amp]) by (by right).
      change (double_amps [amp]) with [amp]. rewrite double_bars_app by (by right).
      rewrite (double_bars_app [amp]) by (by left). by rewrite !singles_app. }
    rewrite split_lone_amp_here, split_char_app, map_app; [apply filter_app | by split; [|intros (? & ? & ? & _)] |].
    split; [by apply last_kept |]. split; [by apply last_kept |]. split; [by apply head_kept |].
    split; [by apply head_kept |]. intros (p & n & Hp & Hn & Hdp & Hdn). apply Hd. exists p, n.
    split; [by apply (Ks a p); [intros -> |] |]. split; [by apply (Ks b n); [intros -> |] | done].
Qed.

Lemma split_lone_amp_elem prev (s : str) x : x ∈ split_lone_amp prev s -> x ∈ s \/ x = NUL.
Proof.
  revert prev; induction s as [|c s IH]; intros prev; simpl; [by left |].
  rewrite !elem_of_cons. intros [-> | H].
  - repeat case_test; auto.
  - destruct (IH _ H); auto.
Qed.

Lemma replace_seps_elem seps (s : str) x : x ∈ replace_seps seps s -> x ∈ s \/ x = NUL.
Proof.
  unfold replace_seps. revert s; induction seps as [|sep seps IH]; intros s; simpl; [auto |].
  intros [H | ->]%IH; [|auto]. apply replace_elem in H as [? | ->%list_elem_of_singleton]; auto.
Qed.

Lemma replace_seps_notin l1 l2 (s : str) x :
  x <> NUL -> x ∉ replace_seps (l1 ++ [x] :: l2) s.
Proof.
  intros Hne. change ([x] :: l2) with ([[x]] ++ l2). rewrite !replace_seps_split.
  intros [H | ?]%replace_seps_elem; [|done]. revert H. simpl.
  apply replace_char_notin. by intros ->%list_elem_of_singleton.
Qed.

Lemma trim_start_idemp s : trim_start (trim_start s) = trim_start s.
Proof. induction s as [|c s IH]; simpl; [done |]. destruct (is_whitespace c) eqn:E; [done |]. simpl. by rewrite E. Qed.

(** A string with no white space at either end. *)
Definition trimmed (s : str) : Prop :=
  (forall c, head s = Some c -> is_whitespace c = false)
  /\ (forall c, last s = Some c -> is_whitespace c = false).

Lemma head_trim_start s c : head (trim_start s) = Some c -> is_whitespace c = false.
Proof.
  induction s as [|d s IH]; simpl; [done |].
  destruct (is_whitespace d) eqn:E; [done |]. by intros [= <-].
Qed.

Lemma last_rev {A} (l : list A) : last (rev l) = head l.
Proof. destruct l as [|x l]; simpl; [done |]. apply last_snoc. Qed.

Lemma trim_trimmed s : trimmed (trim s).
Proof.
  unfold trimmed, trim, trim_end. split; intros c.
  - set (u := trim_start s). intros H.
    destruct (trim_start_suffix (rev u)) as [w Hw].
    assert (Hu : u = rev (trim_start (rev u)) ++ rev w).
    { by rewrite <-rev_app_distr, <-Hw, rev_involutive. }
    destruct (rev (trim_start (rev u))) as [|d v] eqn:E; [done |].
    apply (head_trim_start s). fold u. rewrite Hu. simpl in *. done.
  - rewrite last_rev. apply head_trim_start.
Qed.

(** Compound commands are split at every [;], newline and return, whatever
    stands around them: the clauses of [a;b] are those of [a] followed by those
    of [b]; and every clause is non-empty, trimmed and free of [;], [|],
    newlines and returns. *)
Lemma split_compound_clauses_spec :
  (forall (a b : str) x, x ∈ HARD_SEPARATORS ->
     split_compound_clauses (a ++ x :: b) = split_compound_clauses a ++ split_compound_clauses b)
  /\ (forall (cmd clause : str), clause ∈ split_compound_clauses cmd ->
        clause <> [] /\ trimmed clause
        /\ forall x, x ∈ clause -> x ∉ [59; 124; 10; 13]%N).
Proof.
  split; [intros; by apply split_compound_app |].
  intros cmd clause Hc. rewrite split_unfold in Hc.
  apply list_elem_of_filter in Hc as [Hne Hc].
  apply list_elem_of_fmap in Hc as (p & -> & Hp).
  split; [done |]. split; [apply trim_trimmed |].
  intros x Hx%trim_elem Hsep. destruct (split_char_elem _ _ _ _ Hp Hx) as [Hin Hnul].
  apply split_lone_amp_elem in Hin as [Hin | ?]; [|done].
  assert (forall l1 l2, SEPARATORS = l1 ++ [x] :: l2 -> False) as Hno.
  { intros l1 l2 Heq. rewrite Heq in Hin. by apply replace_seps_notin in Hin. }
  repeat (apply elem_of_cons in Hsep as [-> | Hsep]); [| | | | by apply elem_of_nil in Hsep].
  - by apply (Hno (take 2 SEPARATORS) (drop 3 SEPARATORS)).
  - by apply (Hno (take 3 SEPARATORS) (drop 4 SEPARATORS)).
  - by apply (Hno (take 4 SEPARATORS) (drop 5 SEPARATORS)).
  - by apply (Hno (take 5 SEPARATORS) (drop 6 SEPARATORS)).
Qed.

(** *** The redirection scan *)

Section redirect.
Context `{UnicodeCase}.

Lemma skip_ascii_ws_length bs : length (skip_ascii_ws bs) <= length bs.
Proof. induction bs as [|b bs IH]; simpl; [done |]. case_test; simpl; lia. Qed.

Lemma take_token_length bs : length (snd (take_token bs)) <= length bs.
Proof.
  induction bs as [|b bs IH]; simpl; [done |]. case_test; simpl; [lia |].
  destruct (take_token bs); simpl in *. lia.
Qed.

(** Any fuel from the length of the input on gives the same answer: the loop
    terminates, every iteration consuming a byte. *)
Lemma redirect_loop_fuel f g bs :
  length bs <= f -> length bs <= g -> redirect_loop f bs = redirect_loop g bs.
Proof.
  revert g bs; induction f as [|f IH]; intros g bs Hf Hg.
  - destruct bs; [by destruct g | simpl in Hf; lia].
  - destruct bs as [|b bs]; [by destruct g |].
    destruct g as [|g]; [simpl in Hg; lia |]. simpl in Hf, Hg.
    cbn [redirect_loop].
    destruct (redirect_op_len (b :: bs)) as [|k] eqn:Ek; [apply IH; lia |].
    destruct (take_token (skip_ascii_ws (drop (S k) (b :: bs)))) as [t after] eqn:Et.
    assert (length after <= length bs).
    { pose proof (take_token_length (skip_ascii_ws (drop (S k) (b :: bs)))) as H1.
      rewrite Et in H1. simpl in H1.
      pose proof (skip_ascii_ws_length (drop k bs)). rewrite length_drop in *. lia. }
    by rewrite (IH g after) by lia.
Qed.

Definition redirect_scan (bs : list N) : option str := redirect_loop (length bs) bs.

Lemma redirect_scan_cons b bs :
  redirect_scan (b :: bs) =
  match redirect_op_len (b :: bs) with
  | O => redirect_scan bs
  | op_len =>
      let '(t, after) := take_token (skip_ascii_ws (drop op_len (b :: bs))) in
      dangerous_target (to_lowercase (utf8_decode t)) <|> redirect_scan after
  end.
Proof.
  unfold redirect_scan at 1. simpl length. cbn [redirect_loop].
  destruct (redirect_op_len (b :: bs)) as [|k]; [done |].
  destruct (take_token (skip_ascii_ws (drop (S k) (b :: bs)))) as [t after] eqn:Et.
  unfold redirect_scan. f_equal. apply redirect_loop_fuel; [|done].
  pose proof (take_token_length (skip_ascii_ws (drop (S k) (b :: bs)))) as H1.
  rewrite Et in H1. simpl in H1.
  pose proof (skip_ascii_ws_length (drop k bs)). rewrite length_drop in *. lia.
Qed.

(** The text of a redirection target: bytes that are no separators, the first
    not white space, up to a separator or the end. *)
Definition is_target (ws t after : list N) : Prop :=
  Forall (fun b => is_ascii_whitespace b = true) ws
  /\ (exists b t', t = b :: t' /\ is_ascii_whitespace b = false)
  /\ Forall (fun b => is_shell_token_separator b = false) t
  /\ (after = [] \/ exists b r, after = b :: r /\ is_shell_token_separator b = true).

Lemma skip_to_target ws t after :
  is_target ws t after -> skip_ascii_ws (ws ++ t ++ after) = t ++ after.
Proof.
  intros (Hws & (b & t' & -> & Hb) & _ & _).
  induction Hws as [|c ws Hc _ IH]; simpl; [by rewrite Hb | by rewrite Hc].
Qed.

Lemma take_target ws t after :
  is_target ws t after -> take_token (t ++ after) = (t, after).
Proof.
  intros (_ & _ & Ht & Ha). induction Ht as [|b t Hb _ IH]; simpl.
  - destruct Ha as [-> | (b & r & -> & Hb)]; simpl; [done | by rewrite Hb].
  - by rewrite Hb, IH.
Qed.

Lemma target_head_not_op ws t after :
  is_target ws t after ->
  redirect_op_len (gt :: ws ++ t ++ after) = 1.
Proof.
  intros (Hws & (b & t' & -> & Hb) & Ht & _).
  unfold redirect_op_len. rewrite N.eqb_refl.
  assert (exists d r, ws ++ (b :: t') ++ after = d :: r
    /\ ((d =? gt)%N || (d =? "|"%char)%N) = false) as (d & r & -> & ->); [|done].
  apply Forall_cons in Ht as [Hs _]. destruct Hws as [|c ws Hc _]; simpl.
  - eexists _, _. split; [done |]. apply orb_false_iff.
    split; apply N.eqb_neq; intros ->; by vm_compute in Hs.
  - eexists _, _. split; [done |]. apply orb_false_iff.
    split; apply N.eqb_neq; intros ->; by vm_compute in Hc.
Qed.

Lemma redirect_found ws t after l :
  is_target ws t after -> dangerous_target (to_lowercase (utf8_decode t)) = Some l ->
  redirect_scan (gt :: ws ++ t ++ after) = Some l.
Proof.
  intros Ht Hd. rewrite redirect_scan_cons, (target_head_not_op _ _ _ Ht).
  change (drop 1 (gt :: ws ++ t ++ after)) with (ws ++ t ++ after). cbv iota beta.
  by rewrite (skip_to_target _ _ _ Ht), (take_target _ _ _ Ht), Hd.
Qed.

(** An operator that does not start with [>] is a descriptor and a [>]. *)
Lemma fd_prefix b rest k :
  b <> gt -> redirect_op_len (b :: rest) = S k -> k = 1 /\ head rest = Some gt.
Proof.
  intros Hb. unfold redirect_op_len. rewrite (proj2 (N.eqb_neq b gt)) by done.
  destruct rest as [|d rest]; [done |].
  destruct (N.eqb_spec d gt) as [->|]; [|by rewrite andb_false_r].
  rewrite andb_true_r. case_test; [by intros [= <-] | done].
Qed.

(** [>] and [>>]; the position is the first [>] of the text. *)
Lemma redirect_detects pre op ws t after l :
  gt ∉ pre -> op ∈ [[gt]; [gt; gt]] ->
  is_target ws t after -> dangerous_target (to_lowercase (utf8_decode t)) = Some l ->
  redirect_scan (pre ++ op ++ ws ++ t ++ after) = Some l.
Proof.
  intros Hpre Hop Ht Hd.
  assert (Hfound : redirect_scan (op ++ ws ++ t ++ after) = Some l).
  { repeat (apply elem_of_cons in Hop as [-> | Hop]); [| | by apply elem_of_nil in Hop].
    - exact (redirect_found ws t after l Ht Hd).
    - change ([gt; gt] ++ ws ++ t ++ after) with (gt :: gt :: ws ++ t ++ after).
      rewrite redirect_scan_cons.
      change (redirect_op_len (gt :: gt :: ws ++ t ++ after)) with 2. cbv iota beta.
      change (drop 2 (gt :: gt :: ws ++ t ++ after)) with (ws ++ t ++ after).
      by rewrite (skip_to_target _ _ _ Ht), (take_target _ _ _ Ht), Hd. }
  assert (Hafter : exists r, op ++ ws ++ t ++ after = gt :: r
     /\ (r = ws ++ t ++ after \/ r = gt :: ws ++ t ++ after)).
  { repeat (apply elem_of_cons in Hop as [-> | Hop]); [| | by apply elem_of_nil in Hop];
      eexists; (split; [reflexivity |]); auto. }
  induction pre as [|b pre IH]; [done |].
  apply not_elem_of_cons in Hpre as [Hb Hpre].
  specialize (IH Hpre). simpl. rewrite redirect_scan_cons.
  destruct (redirect_op_len (b :: pre ++ op ++ ws ++ t ++ after)) as [|k] eqn:Ek; [done |].
  apply fd_prefix in Ek as [-> Hhd]; [|done].
  destruct pre as [|d pre].
  - destruct Hafter as (r & Hr & Hcase).
    change ([] ++ op ++ ws ++ t ++ after) with (op ++ ws ++ t ++ after). rewrite Hr.
    change (drop 2 (b :: gt :: r)) with r.
    destruct Hcase as [-> | ->].
    + by rewrite (skip_to_target _ _ _ Ht), (take_target _ _ _ Ht), Hd.
    + exact (redirect_found ws t after l Ht Hd).
  - injection Hhd as ->. by apply not_elem_of_cons in Hpre as [? _].
Qed.

(** The scan finds the first output redirection: when the normalized
    command is some text without [>], then [>] or [>>], optional white space
    and a target on a system path or with a glob character, the scan reports
    it and the gate refuses the command, whatever file descriptor precedes. *)
Lemma redirect_to_system_path_blocked canonicalize cmd workdir dl sandbox_dir sandboxed
    pre op ws t after l :
  utf8_encode (normalize_for_safety cmd) = pre ++ op ++ ws ++ t ++ after ->
  gt ∉ pre -> op ∈ [[gt]; [gt; gt]] -> is_target ws t after ->
  dangerous_target (to_lowercase (utf8_decode t)) = Some l ->
  redirects_to_dangerous_path cmd = Some l
  /\ check_bash_command_str canonicalize cmd workdir dl sandbox_dir sandboxed <> None.
Proof.
  intros Hb Hpre Hop Ht Hd.
  assert (Hr : redirects_to_dangerous_path cmd = Some l).
  { unfold redirects_to_dangerous_path. rewrite Hb. by apply redirect_detects. }
  split; [done |]. unfold check_bash_command_str. cbv zeta. rewrite !orelse_None. intros Hx.
  rewrite Hr in Hx. by destruct Hx as (_ & _ & _ & _ & _ & _ & _ & _ & _ & _ & ? & _).
Qed.
End redirect.

Definition no_denials : DenyList :=
  {| path_matchers := []; path_patterns := []; url_patterns := [];
     bash_require_allowlist := false; bash_allowlist := [] |}.

Lemma redirect_to_system_path_blocked_witness :
  @check_bash_command_str ascii_case (fun _ => None) "echo x 2>> /USR/lib/y && ls" None
    no_denials None false <> None.
Proof.
  apply (@redirect_to_system_path_blocked ascii_case (fun _ => None)
           "echo x 2>> /USR/lib/y && ls" None no_denials None false
           (bytes_of_string "echo x 2") [gt; gt] [32%N] (bytes_of_string "/usr/lib/y")
           (bytes_of_string " && ls") "/usr/").
  - vm_compute. reflexivity.
  - apply (bool_decide_eq_true_1 (gt ∉ bytes_of_string "echo x 2")). vm_compute. reflexivity.
  - right. left.
  - split; [repeat constructor |]. split; [eexists _, _; split; vm_compute; reflexivity |].
    split; [vm_compute; repeat constructor |]. right. eexists _, _. split; vm_compute; reflexivity.
  - vm_compute. reflexivity.
Defined.

(** Two forms of output redirection the shell honours slip through the
    whole gate: the clobber operator behind a file descriptor, and [>&file]. *)
Lemma redirect_forms_missed :
  @check_bash_command_str ascii_case (fun _ => None) "echo x 1>|/usr/lib/y" None
    no_denials None false = None
  /\ @check_bash_command_str ascii_case (fun _ => None) "echo x >&/usr/lib/y" None
    no_denials None false = None
  /\ @check_bash_command_str ascii_case (fun _ => None) "echo x >|/usr/lib/y" None
    no_denials None false <> None.
Proof. split_and!; vm_compute; (reflexivity || discriminate). Qed.
