(* ===== verification/Paths.v ===== *)
(** * Paths and the file tree

    What the program uses of [std::path] and of the operating system's path
    resolution: the lexical functions ([components], [parent], [file_name],
    [extension], [join], [starts_with]) on the text of a path, and a file tree with
    directories, files and symbolic links in which a path is resolved component by
    component, following at most 40 links ([walk]), with the errors the calls answer.

    Paths are UTF-8 texts, so [display] and [to_string_lossy] are the path itself.
    One state of the tree is used for one guard: changes made between two calls by
    other processes are outside the model. *)

From Stdlib Require Import ssreflect.
From S2P Require Import Prelude.

(** ** Lexical paths ([std::path]) *)

Inductive component := RootDir | CurDir | ParentDir | Normal (n : str).

#[global] Instance component_eq_dec : EqDecision component.
Proof. solve_decision. Defined.

(** How a path starts: at the root, with an explicit [.], or with a name. *)
Inductive start := Rooted | Dotted | Bare.

Definition path_body (p : str) : start * list str :=
  match split_char "/"%char p with
  | [] :: ((_ :: _) as r) => (Rooted, r)
  | x :: r => if str_eqb x "." then (Dotted, r) else (Bare, x :: r)
  | [] => (Bare, [])
  end.

(** Repeated separators and [.] inside a path are skipped. *)
Definition trivial_piece (x : str) : bool := str_eqb x [] || str_eqb x ".".

Definition component_of (x : str) : option component :=
  if trivial_piece x then None
  else if str_eqb x ".." then Some ParentDir else Some (Normal x).

(** [Path::components]. *)
Definition components (p : str) : list component :=
  let '(s, b) := path_body p in
  match s with Rooted => [RootDir] | Dotted => [CurDir] | Bare => [] end
  ++ omap component_of b.

(** [Path::starts_with]: by whole components. *)
Definition path_starts_with (p base : str) : bool :=
  bool_decide (components base `prefix_of` components p).

(** [Path::file_name]. *)
Definition file_name (p : str) : option str :=
  match last (components p) with Some (Normal n) => Some n | _ => None end.

Fixpoint trim_pieces (l : list str) : list str :=
  match l with
  | [] => []
  | x :: r => match trim_pieces r with
              | [] => if trivial_piece x then [] else [x]
              | r' => x :: r'
              end
  end.

Definition show_path (s : start) (l : list str) : str :=
  match s with
  | Rooted => "/" ++ join "/" l
  | Dotted => match l with [] => "." | _ => "./" ++ join "/" l end
  | Bare => join "/" l
  end.

(** [Path::parent]: the text before the last component, without the separators and
    the [.] that end it. *)
Definition parent (p : str) : option str :=
  let '(s, b) := path_body p in
  match rev (trim_pieces b) with
  | _ :: r => Some (show_path s (trim_pieces (rev r)))
  | [] => match s with Dotted => Some [] | _ => None end
  end.

(** [Path::extension]: after the last dot of the file name, unless the name has no
    dot or only starts with one. *)
Definition extension (p : str) : option str :=
  match file_name p with
  | None => None
  | Some n =>
      match rev (split_char "."%char n) with
      | after :: ((_ :: _) as before) =>
          if str_eqb (join "." (rev before)) [] then None else Some after
      | _ => None
      end
  end.

(** [Path::join]. *)
Definition path_join (base p : str) : str :=
  if starts_with p "/" then p
  else if str_eqb base [] || ends_with base "/" then base ++ p
  else base ++ "/" ++ p.

(** ** The file tree *)

Inductive node := File (content : list N) | Dir | Link (target : str).

#[global] Instance node_eq_dec : EqDecision node.
Proof. solve_decision. Defined.

Inductive errno := ENOENT | EIO | EACCES | EBUSY | EEXIST | ENOTDIR | EISDIR | ENOSPC | ELOOP.

(** The text of the error. *)
Definition errno_text (e : errno) : str :=
  match e with
  | ENOENT => "No such file or directory (os error 2)"
  | EIO => "Input/output error (os error 5)"
  | EACCES => "Permission denied (os error 13)"
  | EBUSY => "Device or resource busy (os error 16)"
  | EEXIST => "File exists (os error 17)"
  | ENOTDIR => "Not a directory (os error 20)"
  | EISDIR => "Is a directory (os error 21)"
  | ENOSPC => "No space left on device (os error 28)"
  | ELOOP => "Too many levels of symbolic links (os error 40)"
  end.

(** A location is the list of names from the root; the root is always a directory. *)
Record Fs := mkFs {
  nodes : gmap (list str) node;
  cwd : list str;
  may_search : list str -> bool;
  may_read : list str -> bool;
  may_write : list str -> bool;
  dir_len : list str -> N
}.

Definition with_nodes (fs : Fs) (m : gmap (list str) node) : Fs :=
  {| nodes := m; cwd := cwd fs; may_search := may_search fs; may_read := may_read fs;
     may_write := may_write fs; dir_len := dir_len fs |}.

Definition node_at (fs : Fs) (loc : list str) : option node :=
  match loc with [] => Some Dir | _ => nodes fs !! loc end.

Definition nonempty_piece (x : str) : bool := negb (str_eqb x []).

(** The components the kernel looks up; a final separator stands for a final [.]. *)
Definition kernel_comps (p : str) : list str :=
  List.filter nonempty_piece (split_char "/"%char p) ++ (if ends_with p "/" then [lit "."] else []).

Definition start_of (fs : Fs) (cur : list str) (p : str) : list str :=
  if starts_with p "/" then [] else cur.

(** The parent of a directory; the root is its own parent. *)
Definition up (loc : list str) : list str := removelast loc.

(** What a call does with the last component: follow it, take it as it is ([lstat]),
    or follow it and accept that it does not exist yet ([open] with [O_CREAT]). *)
Inductive final := Follow | NoFollow | Create.

#[global] Instance final_eq_dec : EqDecision final.
Proof. solve_decision. Defined.

(** Path resolution from the directory [cur], with [links] symbolic links left. *)
Fixpoint walk (links : nat) (fs : Fs) (follow : final) : list str -> list str -> result (list str) errno :=
  fix go (cur comps : list str) {struct comps} : result (list str) errno :=
    match comps with
    | [] => Ok cur
    | c :: rest =>
        if str_eqb c "." then go cur rest
        else if negb (may_search fs cur) then Err EACCES
        else if str_eqb c ".." then go (up cur) rest
        else match node_at fs (cur ++ [c]) with
             | None =>
                 match rest, follow with
                 | [], Create => Ok (cur ++ [c])
                 | _, _ => Err ENOENT
                 end
             | Some Dir => go (cur ++ [c]) rest
             | Some (File _) =>
                 match rest with [] => Ok (cur ++ [c]) | _ => Err ENOTDIR end
             | Some (Link t) =>
                 match rest, follow with
                 | [], NoFollow => Ok (cur ++ [c])
                 | _, _ =>
                     match links with
                     | O => Err ELOOP
                     | S links' =>
                         if str_eqb t [] then Err ENOENT
                         else walk links' fs follow (start_of fs cur t)
                                (kernel_comps t ++ rest)
                     end
                 end
             end
    end.

Definition MAXSYMLINKS : nat := 40.

Definition resolve (fs : Fs) (follow : final) (p : str) : result (list str) errno :=
  if str_eqb p [] then Err ENOENT
  else walk MAXSYMLINKS fs follow (start_of fs (cwd fs) p) (kernel_comps p).

(** The absolute path of a location. *)
Definition show_loc (loc : list str) : str := "/" ++ join "/" loc.

(** [std::fs::canonicalize]. *)
Definition canonicalize (fs : Fs) (p : str) : result str errno :=
  let? loc := resolve fs Follow p in Ok (show_loc loc).

Definition stat_at (fs : Fs) (loc : list str) : result node errno :=
  ok_or (node_at fs loc) ENOENT.

(** [std::fs::metadata] and [std::fs::symlink_metadata]. *)
Definition metadata (fs : Fs) (p : str) : result (list str * node) errno :=
  let? loc := resolve fs Follow p in
  let? n := stat_at fs loc in Ok (loc, n).
Definition symlink_metadata (fs : Fs) (p : str) : result node errno :=
  let? loc := resolve fs NoFollow p in stat_at fs loc.

(** [Path::exists]: false on every error. *)
Definition path_exists (fs : Fs) (p : str) : bool := is_ok (metadata fs p).

Definition is_symlink (n : node) : bool := match n with Link _ => true | _ => false end.

(** [Metadata::len]. *)
Definition node_len (fs : Fs) (ln : list str * node) : N :=
  match ln.2 with
  | File b => N.of_nat (length b)
  | Dir => dir_len fs ln.1
  | Link t => N.of_nat (byte_len t)
  end.

(** [std::fs::read]. *)
Definition read_bytes (fs : Fs) (p : str) : result (list N) errno :=
  let? ln := metadata fs p in
  if negb (may_read fs ln.1) then Err EACCES
  else match ln.2 with File b => Ok b | Dir => Err EISDIR | Link _ => Err ELOOP end.

(** ** Changing the tree

    A call that creates or replaces a name resolves everything before the last
    component; the last one is a name in that directory and is not followed. *)
Definition entry_of (fs : Fs) (p : str) : result (list str * str) errno :=
  if str_eqb p [] then Err ENOENT
  else match rev (kernel_comps p) with
       | [] => Err EBUSY
       | c :: r =>
           let? d := walk MAXSYMLINKS fs Follow (start_of fs (cwd fs) p) (rev r ++ [lit "."]) in
           if str_eqb c "." || str_eqb c ".." then Err EBUSY
           else if negb (may_search fs d) then Err EACCES
           else Ok (d, c)
       end.

(** [open] with [O_CREAT | O_EXCL], then writing [b]. *)
Definition create_new (fs : Fs) (p : str) (b : list N) : result Fs errno :=
  let? e := entry_of fs p in
  match node_at fs (e.1 ++ [e.2]) with
  | Some _ => Err EEXIST
  | None =>
      if negb (may_write fs e.1) then Err EACCES
      else Ok (with_nodes fs (<[e.1 ++ [e.2] := File b]> (nodes fs)))
  end.

(** [rename] of the file at [src] over [dst]. *)
Definition rename (fs : Fs) (src dst : str) : result Fs errno :=
  let? s := entry_of fs src in
  let? d := entry_of fs dst in
  match node_at fs (s.1 ++ [s.2]), node_at fs (d.1 ++ [d.2]) with
  | None, _ => Err ENOENT
  | _, Some Dir => Err EISDIR
  | Some n, _ =>
      if negb (may_write fs s.1 && may_write fs d.1) then Err EACCES
      else Ok (with_nodes fs (<[d.1 ++ [d.2] := n]> (delete (s.1 ++ [s.2]) (nodes fs))))
  end.

(** [std::fs::remove_file]: directories are refused. *)
Definition remove_file (fs : Fs) (p : str) : result Fs errno :=
  let? e := entry_of fs p in
  match node_at fs (e.1 ++ [e.2]) with
  | None => Err ENOENT
  | Some Dir => Err EISDIR
  | Some _ =>
      if negb (may_write fs e.1) then Err EACCES
      else Ok (with_nodes fs (delete (e.1 ++ [e.2]) (nodes fs)))
  end.

(** ** Sound trees *)

Definition valid_name (n : str) : Prop :=
  n <> [] /\ (chr "/"%char ∉ n) /\ n <> "." /\ n <> "..".

#[global] Instance valid_name_dec n : Decision (valid_name n).
Proof. unfold valid_name. apply _. Defined.

Record fs_wf (fs : Fs) : Prop := {
  wf_names : forall loc n, nodes fs !! loc = Some n -> Forall valid_name loc;
  wf_parent : forall loc c n, nodes fs !! (loc ++ [c]) = Some n -> node_at fs loc = Some Dir;
  wf_cwd : node_at fs (cwd fs) = Some Dir
}.

(** ** Lemmas on lexical paths *)

Lemma trim_pieces_omap l : omap component_of (trim_pieces l) = omap component_of l.
Proof.
  induction l as [|x r IH]; [done|]. cbn [omap list_omap]. rw -{}IH. simpl.
  destruct (trim_pieces r) as [|y r']; [|done].
  unfold component_of. destruct (trivial_piece x) eqn:Ht; simpl; [done|].
  unfold component_of. by rw Ht.
Qed.

Lemma split_join sep (l : list str) :
  l <> [] -> Forall (fun n => sep ∉ n) l -> split_char sep (join [sep] l) = l.
Proof.
  intros Hne Hl. induction Hl as [|x l Hx Hl IH]; [done|].
  destruct l as [|y l]; [simpl; by apply split_char_notin|].
  change (join [sep] (x :: y :: l)) with (x ++ sep :: join [sep] (y :: l)).
  by rw split_char_app (split_char_notin sep x Hx) IH.
Qed.

(** The names of a location come back from its path. *)
Lemma pieces_show_loc loc :
  Forall valid_name loc -> loc <> [] ->
  split_char "/"%char (show_loc loc) = [] :: loc.
Proof.
  intros Hv Hne. unfold show_loc.
  change (lit "/" ++ join "/" loc) with ([] ++ chr "/"%char :: join [chr "/"%char] loc).
  rw split_char_app split_join //.
  eapply Forall_impl; [exact Hv|]. by intros n (_ & Hn & _).
Qed.

Lemma component_of_valid n : valid_name n -> component_of n = Some (Normal n).
Proof.
  intros (Hne & _ & Hd & Hdd). unfold component_of, trivial_piece.
  rw (proj2 (str_eqb_neq n _) Hne) (proj2 (str_eqb_neq n _) Hd)
    (proj2 (str_eqb_neq n _) Hdd). done.
Qed.

Lemma omap_valid loc : Forall valid_name loc -> omap component_of loc = map Normal loc.
Proof.
  induction 1 as [|n loc Hn Hl IH]; [done|].
  cbn [omap list_omap]. rw (component_of_valid _ Hn) IH. done.
Qed.

Lemma components_show_loc loc :
  Forall valid_name loc -> components (show_loc loc) = RootDir :: map Normal loc.
Proof.
  intros Hv. destruct (decide (loc = [])) as [->|Hne]; [done|].
  unfold components, path_body. rw pieces_show_loc //.
  destruct loc as [|x r]; [done|].
  change (RootDir :: omap component_of (x :: r) = RootDir :: map Normal (x :: r)).
  by rw (omap_valid _ Hv).
Qed.

Lemma kernel_comps_show_loc loc :
  Forall valid_name loc -> loc <> [] -> kernel_comps (show_loc loc) = loc.
Proof.
  intros Hv Hne. unfold kernel_comps. rw pieces_show_loc //.
  assert (ends_with (show_loc loc) "/" = false) as ->.
  { apply not_true_is_false. intros [r Hr]%ends_with_spec.
    assert (split_char "/"%char (show_loc loc) = split_char "/"%char r ++ [[]]) as E.
    { rw Hr. change (lit "/") with ([chr "/"%char]). by rw split_char_app. }
    rw pieces_show_loc // in E.
    destruct (exists_last Hne) as [l' [x ->]]. apply Forall_app in Hv as [_ Hx].
    change ([] :: (l' ++ [x])) with (([] :: l') ++ [x]) in E.
    apply app_inj_tail in E as [_ ->]. inversion Hx as [|? ? [Hx' _]]. done. }
  rw app_nil_r. simpl. clear Hne. induction Hv as [|n l [Hn _] Hl IH]; [done|].
  simpl. unfold nonempty_piece at 1. rw (proj2 (str_eqb_neq n _) Hn) /=. by rw IH.
Qed.

Definition normal_name (c : component) : option str :=
  match c with Normal n => Some n | _ => None end.

Lemma omap_normal_name l : omap normal_name (map Normal l) = l.
Proof. induction l as [|x l IH]; [done|]. cbn [map omap list_omap normal_name]. by f_equal. Qed.

(** Lexical containment of two canonical paths is containment of their locations. *)
Lemma starts_with_show_loc a b :
  Forall valid_name a -> Forall valid_name b ->
  path_starts_with (show_loc a) (show_loc b) = true <-> b `prefix_of` a.
Proof.
  intros Ha Hb. unfold path_starts_with. rw !components_show_loc // bool_decide_eq_true.
  split.
  - intros H%prefix_cons_inv_2. destruct H as [k H].
    apply (f_equal (omap normal_name)) in H. rw omap_app !omap_normal_name in H.
    by eexists.
  - intros [k ->]. rw map_app. exists (map Normal k). done.
Qed.

(** ** Lemmas on resolution *)

Lemma walk_nil l fs f cur : walk l fs f cur [] = Ok cur.
Proof. by destruct l. Qed.

(** What following the link [t] before [rest] does. *)
Definition follow_link (l : nat) (fs : Fs) (f : final) (cur : list str) (t : str)
    (rest : list str) : result (list str) errno :=
  match l with
  | O => Err ELOOP
  | S l' => if str_eqb t [] then Err ENOENT
            else walk l' fs f (start_of fs cur t) (kernel_comps t ++ rest)
  end.

Lemma walk_cons l fs f cur c rest :
  walk l fs f cur (c :: rest) =
  if str_eqb c "." then walk l fs f cur rest
  else if negb (may_search fs cur) then Err EACCES
  else if str_eqb c ".." then walk l fs f (up cur) rest
  else match node_at fs (cur ++ [c]) with
       | None =>
           match rest, f with [], Create => Ok (cur ++ [c]) | _, _ => Err ENOENT end
       | Some Dir => walk l fs f (cur ++ [c]) rest
       | Some (File _) => match rest with [] => Ok (cur ++ [c]) | _ => Err ENOTDIR end
       | Some (Link t) =>
           match rest, f with
           | [], NoFollow => Ok (cur ++ [c])
           | _, _ => follow_link l fs f cur t rest
           end
       end.
Proof.
  destruct l; simpl;
  (destruct (str_eqb c "."); [done|]; destruct (negb (may_search fs cur)); [done|];
   destruct (str_eqb c ".."); [done|];
   destruct (node_at fs (cur ++ [c])) as [[]|]; [done|done| |]; by destruct rest, f).
Qed.

(** Induction on a resolution: the links that are left, then the components. *)
Lemma walk_ind (P : nat -> list str -> list str -> Prop) :
  (forall l cur, P l cur []) ->
  (forall l cur c rest,
     (forall cur', P l cur' rest) ->
     (forall l' cur' comps, l' < l -> P l' cur' comps) -> P l cur (c :: rest)) ->
  forall l cur comps, P l cur comps.
Proof.
  intros Hnil Hcons l. induction l as [l IHl] using lt_wf_ind. intros cur comps. revert cur.
  induction comps as [|c rest IH]; intros cur; [apply Hnil|]. apply Hcons; [done|]. by eauto.
Qed.

Ltac walk_cases :=
  repeat match goal with
  | |- context [if ?b then _ else _] => destruct b eqn:?; try done
  | |- context [match node_at ?fs ?l with _ => _ end] =>
      destruct (node_at fs l) as [[| |]|] eqn:?; try done
  end.

Definition nodots (l : list str) : list str := List.filter (fun c => negb (str_eqb c ".")) l.

Lemma nodots_app l k : nodots (l ++ k) = nodots l ++ nodots k.
Proof. apply List.filter_app. Qed.

Lemma nodots_idemp l : nodots (nodots l) = nodots l.
Proof.
  induction l as [|c l IH]; [done|]. simpl. destruct (str_eqb c ".") eqn:E; simpl; [done|].
  by rw E /= IH.
Qed.

(** [.] before the last component changes nothing. *)
Lemma walk_nodots l fs f cur xs x :
  walk l fs f cur (xs ++ [x]) = walk l fs f cur (nodots xs ++ [x]).
Proof.
  revert l cur xs. apply (walk_ind (fun l cur xs => walk l fs f cur (xs ++ [x])
    = walk l fs f cur (nodots xs ++ [x]))); [done|].
  intros l cur c rest IH IHl. cbn [app nodots List.filter].
  rw walk_cons. destruct (str_eqb c ".") eqn:Ec; simpl; [apply IH|].
  fold (nodots rest). rw walk_cons Ec.
  destruct (negb (may_search fs cur)); [done|]. destruct (str_eqb c ".."); [apply IH|].
  assert (forall ys (a : result (list str) errno) b, match ys ++ [x] with [] => a | _ => b end = b)
    as Hm by (by intros []).
  destruct (node_at fs (cur ++ [c])) as [[| |t]|];
    [by rw !Hm|apply IH| |by rw !Hm].
  assert (follow_link l fs f cur t (rest ++ [x]) = follow_link l fs f cur t (nodots rest ++ [x])) as E.
  { destruct l as [|l']; [done|]. simpl. destruct (str_eqb t []); [done|]. rw !app_assoc.
    rw (IHl l' _ (kernel_comps t ++ rest) ltac:(lia)).
    rw (IHl l' _ (kernel_comps t ++ nodots rest) ltac:(lia)).
    by rw !nodots_app nodots_idemp. }
  destruct rest as [|y r]; simpl in *; [by destruct f|]. rw E. by destruct (nodots (y :: r)).
Qed.

(** A path that resolves with a final [.] resolves to the same place without. *)
Lemma walk_dot_inv l fs cur xs d :
  walk l fs Follow cur (xs ++ [lit "."]) = Ok d -> walk l fs Follow cur xs = Ok d.
Proof.
  revert l cur xs. apply (walk_ind (fun l cur xs => walk l fs Follow cur (xs ++ [lit "."]) = Ok d ->
    walk l fs Follow cur xs = Ok d)).
  - intros l cur. by rw walk_cons walk_nil.
  - intros l cur c rest IH IHl. cbn [app]. rw !walk_cons.
    destruct (str_eqb c "."); [apply IH|]. destruct (negb (may_search fs cur)); [done|].
    destruct (str_eqb c ".."); [apply IH|].
    destruct (node_at fs (cur ++ [c])) as [[| |t]|]; [by destruct rest|apply IH| |by destruct rest].
    intros H. assert (follow_link l fs Follow cur t rest = Ok d) as E; [|by destruct rest].
    assert (follow_link l fs Follow cur t (rest ++ [lit "."]) = Ok d) as E by by destruct rest.
    destruct l as [|l']; [done|]. simpl in *. destruct (str_eqb t []); [done|].
    apply (IHl l' _ (kernel_comps t ++ rest) ltac:(lia)). by rw -app_assoc.
Qed.

(** Resolving a name in a directory: the directory, then its entry. *)
Lemma walk_snoc l fs cur xs c d :
  walk l fs Follow cur (xs ++ [lit "."]) = Ok d ->
  str_eqb c "." = false -> str_eqb c ".." = false ->
  walk l fs NoFollow cur (xs ++ [c]) =
  if negb (may_search fs d) then Err EACCES
  else match node_at fs (d ++ [c]) with None => Err ENOENT | Some _ => Ok (d ++ [c]) end.
Proof.
  intros H Hc Hcc. revert l cur xs H.
  apply (walk_ind (fun l cur xs => walk l fs Follow cur (xs ++ [lit "."]) = Ok d ->
    walk l fs NoFollow cur (xs ++ [c]) = _)).
  - intros l cur. simpl app. rw !walk_cons !walk_nil Hc Hcc. cbn. intros [= ->].
    destruct (negb (may_search fs d)); [done|]. by destruct (node_at fs (d ++ [c])) as [[]|].
  - intros l cur x rest IH IHl. cbn [app]. rw !walk_cons.
    destruct (str_eqb x "."); [apply IH|]. destruct (negb (may_search fs cur)); [done|].
    destruct (str_eqb x ".."); [apply IH|].
    destruct (node_at fs (cur ++ [x])) as [[| |t]|]; [by destruct rest|apply IH| |by destruct rest].
    intros H.
    assert (follow_link l fs Follow cur t (rest ++ [lit "."]) = Ok d) as E by by destruct rest.
    destruct l as [|l']; [done|]. simpl in *. destruct (str_eqb t []); [done|].
    rw app_assoc in E. rw -(IHl l' _ (kernel_comps t ++ rest) ltac:(lia) E) -app_assoc.
    by destruct rest.
Qed.

(** A last component that is not a link makes no difference to following it. *)
Lemma walk_nofollow l fs cur xs loc :
  walk l fs NoFollow cur xs = Ok loc ->
  (forall t, node_at fs loc <> Some (Link t)) -> walk l fs Follow cur xs = Ok loc.
Proof.
  intros H Hl. revert l cur xs H.
  apply (walk_ind (fun l cur xs => walk l fs NoFollow cur xs = Ok loc ->
    walk l fs Follow cur xs = Ok loc)).
  - intros l cur. by rw !walk_nil.
  - intros l cur c rest IH IHl. rw !walk_cons.
    destruct (str_eqb c "."); [apply IH|]. destruct (negb (may_search fs cur)); [done|].
    destruct (str_eqb c ".."); [apply IH|].
    destruct (node_at fs (cur ++ [c])) as [[| |t]|] eqn:En; [done|apply IH| |by destruct rest].
    destruct rest as [|y r]; [by intros [= <-]; destruct (Hl t)|].
    destruct l as [|l']; [done|]. simpl. destruct (str_eqb t []); [done|].
    apply IHl. lia.
Qed.

Lemma node_at_valid fs loc n : fs_wf fs -> node_at fs loc = Some n -> Forall valid_name loc.
Proof.
  intros Hw H. destruct loc as [|c r]; [constructor|]. by apply (wf_names _ Hw) in H.
Qed.

Lemma node_at_snoc fs loc c : node_at fs (loc ++ [c]) = nodes fs !! (loc ++ [c]).
Proof. by destruct loc. Qed.

Lemma up_dir fs loc : fs_wf fs -> node_at fs loc = Some Dir -> node_at fs (up loc) = Some Dir.
Proof.
  intros Hw H. destruct loc as [|c r] using rev_ind; [done|]. unfold up.
  rw removelast_last. rw node_at_snoc in H. by eapply wf_parent.
Qed.

(** What a path resolves to exists, and is not a link when links are followed. *)
Lemma walk_sound l fs f cur xs loc :
  fs_wf fs -> f <> Create -> node_at fs cur = Some Dir -> walk l fs f cur xs = Ok loc ->
  exists n, node_at fs loc = Some n /\ (f = Follow -> is_symlink n = false).
Proof.
  intros Hw Hf. revert l cur xs.
  apply (walk_ind (fun l cur xs => node_at fs cur = Some Dir -> walk l fs f cur xs = Ok loc ->
    exists n, node_at fs loc = Some n /\ (f = Follow -> is_symlink n = false))).
  - intros l cur Hc. rw walk_nil. intros [= <-]. by exists Dir.
  - intros l cur c rest IH IHl Hc. rw walk_cons.
    destruct (str_eqb c "."); [by apply IH|]. destruct (negb (may_search fs cur)); [done|].
    destruct (str_eqb c ".."); [apply IH; by apply up_dir|].
    destruct (node_at fs (cur ++ [c])) as [[b| |t]|] eqn:En; [|by apply IH| |by destruct rest, f].
    + destruct rest; [|done]. intros [= <-]. by exists (File b).
    + intros H. destruct (decide (rest = [] /\ f = NoFollow)) as [[-> ->]|Hn].
      { injection H as [= <-]. by exists (Link t). }
      assert (follow_link l fs f cur t rest = Ok loc) as E.
      { destruct rest, f; try done. by destruct Hn. }
      destruct l as [|l']; [done|]. simpl in E. destruct (str_eqb t []); [done|].
      eapply (IHl l'); [lia| |exact E]. unfold start_of. by destruct (starts_with t "/").
Qed.

Lemma start_dir fs p : fs_wf fs -> node_at fs (start_of fs (cwd fs) p) = Some Dir.
Proof. intros Hw. unfold start_of. destruct (starts_with p "/"); [done|apply (wf_cwd _ Hw)]. Qed.

Lemma resolve_sound fs f p loc :
  fs_wf fs -> f <> Create -> resolve fs f p = Ok loc ->
  exists n, node_at fs loc = Some n /\ (f = Follow -> is_symlink n = false).
Proof.
  intros Hw Hf. unfold resolve. destruct (str_eqb p []); [done|]. apply walk_sound; [done..|].
  by apply start_dir.
Qed.

Lemma follow_sound fs p loc :
  fs_wf fs -> resolve fs Follow p = Ok loc ->
  exists n, node_at fs loc = Some n /\ is_symlink n = false.
Proof.
  intros Hw Hr. destruct (resolve_sound fs Follow p loc Hw ltac:(done) Hr) as (n & Hn & Hl).
  exists n. split; [done|by apply Hl].
Qed.

Lemma canonicalize_Ok fs p s :
  canonicalize fs p = Ok s <-> exists loc, resolve fs Follow p = Ok loc /\ s = show_loc loc.
Proof.
  unfold canonicalize. rw result_bind_Ok. split.
  - intros (loc & H & [= <-]). by exists loc.
  - intros (loc & H & ->). by exists loc.
Qed.

(** *** Canonical paths *)

(** Every directory above the location may be searched. *)
Definition open_path (fs : Fs) (loc : list str) : Prop :=
  forall a c b, loc = a ++ c :: b -> may_search fs a = true.

Lemma open_path_snoc fs loc c :
  open_path fs loc -> may_search fs loc = true -> open_path fs (loc ++ [c]).
Proof.
  intros Ho Hs a c' b E. destruct b as [|x b'] using rev_ind.
  - by apply app_inj_tail in E as [<- _].
  - rw app_comm_cons app_assoc in E. apply app_inj_tail in E as [E _]. by eapply Ho.
Qed.

Lemma open_path_up fs loc : open_path fs loc -> open_path fs (up loc).
Proof.
  intros Ho a c b E. destruct loc as [|x loc'] using rev_ind; [by destruct a|].
  unfold up in E. rw removelast_last in E. subst loc'. rw -app_assoc in Ho. by eapply (Ho a).
Qed.

Lemma walk_open l fs f cur xs loc :
  open_path fs cur -> walk l fs f cur xs = Ok loc -> open_path fs loc.
Proof.
  revert l cur xs. apply (walk_ind (fun l cur xs => open_path fs cur ->
    walk l fs f cur xs = Ok loc -> open_path fs loc)).
  - intros l cur Ho. rw walk_nil. by intros [= <-].
  - intros l cur c rest IH IHl Ho. rw walk_cons.
    destruct (str_eqb c "."); [by apply IH|].
    destruct (may_search fs cur) eqn:Hs; [|done]. cbn [negb].
    pose proof (open_path_snoc fs cur c Ho Hs) as Ho'.
    destruct (str_eqb c ".."); [apply IH; by apply open_path_up|].
    destruct (node_at fs (cur ++ [c])) as [[b| |t]|]; [|by apply IH| |].
    + destruct rest; [|done]. by intros [= <-].
    + intros H. destruct (decide (rest = [] /\ f = NoFollow)) as [[-> ->]|Hn];
        [by injection H as [= <-]|].
      assert (follow_link l fs f cur t rest = Ok loc) as E.
      { destruct rest, f; try done. by destruct Hn. }
      destruct l as [|l']; [done|]. simpl in E. destruct (str_eqb t []); [done|].
      eapply (IHl l'); [lia| |exact E]. unfold start_of. destruct (starts_with t "/"); [|done].
      intros a c' b E'. by destruct a.
    + destruct rest, f; try done. by intros [= <-].
Qed.

(** A location is reached by its own names. *)
Lemma walk_self l fs f pre k n :
  fs_wf fs -> open_path fs (pre ++ k) -> node_at fs (pre ++ k) = Some n ->
  (f <> NoFollow -> is_symlink n = false) -> walk l fs f pre k = Ok (pre ++ k).
Proof.
  intros Hw. revert pre. induction k as [|c k IH]; intros pre Ho Hn Hf.
  { rw walk_nil. by rw app_nil_r. }
  pose proof (node_at_valid _ _ _ Hw Hn) as Hv. apply Forall_app in Hv as [_ Hv].
  apply Forall_cons in Hv as [(_ & _ & Hd & Hdd) _].
  rw walk_cons (proj2 (str_eqb_neq c _) Hd) (proj2 (str_eqb_neq c _) Hdd) (Ho pre c k) //.
  cbn [negb]. rw cons_middle app_assoc in Ho Hn |- *.
  destruct k as [|x k'].
  - rw app_nil_r in Hn |- *. rw Hn. destruct n as [b| |t]; [done|by rw walk_nil|].
    destruct f; [by specialize (Hf ltac:(done))|done|by specialize (Hf ltac:(done))].
  - assert (node_at fs (pre ++ [c]) = Some Dir) as ->; [|by apply IH].
    clear IH Ho. revert n Hn Hf. induction k' as [|y k' IHk] using rev_ind; intros n Hn Hf.
    + rw node_at_snoc in Hn. by eapply wf_parent.
    + rw app_comm_cons app_assoc node_at_snoc in Hn. apply (wf_parent _ Hw) in Hn.
      by eapply (IHk Dir).
Qed.

Lemma show_loc_nonempty loc : show_loc loc <> [].
Proof. discriminate. Qed.

Lemma resolve_show_loc fs f loc n :
  fs_wf fs -> open_path fs loc -> node_at fs loc = Some n ->
  (f <> NoFollow -> is_symlink n = false) -> resolve fs f (show_loc loc) = Ok loc.
Proof.
  intros Hw Ho Hn Hf. unfold resolve, start_of. cbn [show_loc app str_eqb].
  assert (starts_with (show_loc loc) "/" = true) as -> by done.
  rw (proj2 (str_eqb_neq _ _) (show_loc_nonempty loc)).
  destruct (decide (loc = [])) as [->|Hne].
  { assert (kernel_comps (show_loc []) = [lit "."]) as -> by done. by rw walk_cons walk_nil. }
  rw (kernel_comps_show_loc _ (node_at_valid _ _ _ Hw Hn) Hne). by eapply (walk_self _ fs f [] loc n).
Qed.

Lemma resolve_open fs f p loc :
  open_path fs (cwd fs) -> resolve fs f p = Ok loc -> open_path fs loc.
Proof.
  intros Ho. unfold resolve. destruct (str_eqb p []); [done|]. apply walk_open.
  unfold start_of. destruct (starts_with p "/"); [|done]. intros a c b E. by destruct a.
Qed.

(** A canonical path is its own canonical path. *)
Lemma canonicalize_idem fs p s :
  fs_wf fs -> open_path fs (cwd fs) -> canonicalize fs p = Ok s -> canonicalize fs s = Ok s.
Proof.
  intros Hw Ho (loc & Hr & ->)%canonicalize_Ok. apply canonicalize_Ok. exists loc.
  destruct (follow_sound _ _ _ Hw Hr) as (n & Hn & Hf). split; [|done].
  eapply resolve_show_loc; [done|by eapply resolve_open|done|]. intros _. by apply Hf.
Qed.

(** *** The entry a path names in its parent directory *)

Lemma piece_notin sep p : Forall (fun x => sep ∉ x) (split_char sep p).
Proof.
  induction p as [|c p IH]; [by repeat constructor; apply not_elem_of_nil|]. simpl.
  destruct (c =? sep)%N eqn:E; [constructor; [apply not_elem_of_nil|done]|].
  apply N.eqb_neq in E. destruct (split_char sep p) as [|x r].
  - constructor; [|done]. rw list_elem_of_singleton. congruence.
  - apply Forall_cons in IH as [Hx Hr]. constructor; [|done]. rw not_elem_of_cons. split; congruence || done.
Qed.

Definition solid (x : str) : bool := negb (trivial_piece x).

Lemma nodots_filter l : nodots (List.filter nonempty_piece l) = List.filter solid l.
Proof.
  induction l as [|x l IH]; [done|]. simpl. unfold solid at 1, trivial_piece, nonempty_piece at 1.
  destruct (str_eqb x []); simpl; [done|]. destruct (str_eqb x "."); simpl; by rw -IH.
Qed.

Lemma nodots_kernel_comps p : nodots (kernel_comps p) = List.filter solid (split_char "/"%char p).
Proof.
  unfold kernel_comps. rw nodots_app nodots_filter. destruct (ends_with p "/"); apply app_nil_r.
Qed.

Lemma filter_trim l : List.filter solid (trim_pieces l) = List.filter solid l.
Proof.
  induction l as [|x r IH]; [done|]. cbn [List.filter trim_pieces].
  rw -{}IH. destruct (trim_pieces r) as [|y r']; [|done].
  unfold solid. destruct (trivial_piece x) eqn:E; simpl; [done|]. unfold solid. by rw E.
Qed.

Lemma trim_incl l : incl (trim_pieces l) l.
Proof.
  induction l as [|x r IH]; [by intros z|]. simpl. destruct (trim_pieces r) as [|y r'].
  - destruct (trivial_piece x); [by intros z|]. intros z [<-|[]]. by left.
  - intros z [<-|Hz]; [by left|]. right. by apply IH.
Qed.

(** The pieces of a path are its body, after the mark of its start. *)
Lemma path_body_spec p :
  split_char "/"%char p
  = match (path_body p).1 with Rooted => [[]] | Dotted => [lit "."] | Bare => [] end
    ++ (path_body p).2
  /\ ((path_body p).1 = Bare -> forall x r, (path_body p).2 = x :: r -> x = [] -> p = []).
Proof.
  unfold path_body. pose proof (split_char_join "/"%char p) as Hj.
  destruct (split_char "/"%char p) as [|[|c x] [|y r]] eqn:E; [done| | | |].
  - split; [done|]. by intros _ x r [= <- <-].
  - split; [done|]. by intros [=].
  - destruct (str_eqb (c :: x) ".") eqn:Ex; simpl.
    + apply str_eqb_eq in Ex as ->. by split.
    + split; [done|]. by intros _ ? ? [= <- <-].
  - destruct (str_eqb (c :: x) ".") eqn:Ex; simpl.
    + apply str_eqb_eq in Ex as ->. by split.
    + split; [done|]. by intros _ ? ? [= <- <-].
Qed.

Lemma trim_head l y r : trim_pieces l = y :: r -> exists r', l = y :: r'.
Proof.
  destruct l as [|x l]; [done|]. simpl.
  destruct (trim_pieces l); [destruct (trivial_piece x); [done|]|]; intros [= <- _]; by eexists.
Qed.

Lemma split_show_path s l :
  Forall (fun x => chr "/"%char ∉ x) l ->
  List.filter solid (split_char "/"%char (show_path s l)) = List.filter solid l.
Proof.
  intros Hl. assert (l <> [] -> split_char "/"%char (join "/" l) = l) as Hj.
  { intros Hne. by apply (split_join "/"%char l Hne). }
  assert (forall m r, m <> chr "/"%char -> split_char "/"%char (m :: chr "/"%char :: r)
    = [m] :: split_char "/"%char r) as Hm.
  { intros m r Hm. change (m :: chr "/"%char :: r) with ([m] ++ chr "/"%char :: r).
    rw split_char_app. simpl. by rw (proj2 (N.eqb_neq m _) Hm). }
  destruct s, l as [|x l]; try done; specialize (Hj ltac:(done)).
  - change (split_char "/"%char (show_path Rooted (x :: l)))
      with ([] :: split_char "/"%char (join "/" (x :: l))). by rw Hj.
  - change (show_path Dotted (x :: l))
      with (chr "."%char :: chr "/"%char :: join "/" (x :: l)). rw Hm //. by rw Hj.
  - change (show_path Bare (x :: l)) with (join "/" (x :: l)). by rw Hj.
Qed.

Lemma rooted_split p : starts_with p "/" = true -> exists r, split_char "/"%char p = [] :: r.
Proof. intros [r ->]%starts_with_spec. by exists (split_char "/"%char r). Qed.

Definition start_mark (s : start) : list str :=
  match s with Rooted => [[]] | Dotted => [lit "."] | Bare => [] end.

Lemma trim_last_solid l c k : rev (trim_pieces l) = c :: k -> solid c = true.
Proof.
  revert c k. induction l as [|x r IH]; intros c k; [done|]. simpl.
  destruct (trim_pieces r) as [|y r'] eqn:E.
  - destruct (trivial_piece x) eqn:Ex; [done|]. intros [= <- _]. unfold solid. by rw Ex.
  - intros H. change (rev (y :: r') ++ [x] = c :: k) in H.
    destruct (rev (y :: r')) as [|z k'] eqn:Er.
    { apply (f_equal length) in Er. by rw length_rev in Er. }
    injection H as [= -> _]. by eapply IH.
Qed.

(** What resolution sees of a path: the solid pieces of its body. *)
Lemma nodots_body p : nodots (kernel_comps p) = List.filter solid (path_body p).2.
Proof.
  rw nodots_kernel_comps (proj1 (path_body_spec p)) List.filter_app.
  by destruct (path_body p).1.
Qed.

Lemma body_notin p : Forall (fun x => chr "/"%char ∉ x) (path_body p).2.
Proof.
  pose proof (piece_notin "/"%char p) as Hn. rw (proj1 (path_body_spec p)) in Hn.
  by apply Forall_app in Hn as [_ Hn].
Qed.

(** A path shown with the same start and the same first piece is resolved from the
    same directory. *)
Lemma show_path_start p s b l :
  p <> [] -> path_body p = (s, b) -> Forall (fun x => chr "/"%char ∉ x) l ->
  (forall y r, l = y :: r -> exists r', b = y :: r') ->
  show_path s l <> [] -> starts_with (show_path s l) "/" = starts_with p "/".
Proof.
  intros Hp Hb Hl Hh Hq. destruct (path_body_spec p) as [Hs Hbare]. rw Hb /= in Hs, Hbare.
  pose proof (f_equal (join [chr "/"%char]) Hs) as Hj. rw split_char_join in Hj.
  destruct s.
  - rw Hj. simpl. by destruct b.
  - rw Hj. simpl. destruct b; simpl; by destruct l.
  - cbn [app show_path] in *. assert (starts_with p "/" = false) as ->.
    { apply not_true_iff_false. intros [r Hr]%rooted_split. rw Hs in Hr.
      by apply Hp, (Hbare eq_refl [] r). }
    apply not_true_iff_false. intros [r Hr]%rooted_split. destruct l as [|y l]; [done|].
    rw (split_join "/"%char) // in Hr. injection Hr as [= -> ->].
    destruct (Hh [] r eq_refl) as [r' ->]. by apply Hp, (Hbare eq_refl [] r').
Qed.

Lemma path_body_nonempty p s b : path_body p = (s, b) -> s <> Bare -> p <> [].
Proof. intros Hb Hs ->. by injection Hb as [= <- <-]. Qed.

(** The parent's solid pieces are the path's without the last one. *)
Lemma parent_spec p q :
  parent p = Some q ->
  (nodots (kernel_comps p) = [] /\ q = []
   \/ exists c, nodots (kernel_comps p) = nodots (kernel_comps q) ++ [c])
  /\ (q <> [] -> starts_with q "/" = starts_with p "/").
Proof.
  pose proof (nodots_body p) as Hb. pose proof (body_notin p) as Hn. unfold parent.
  destruct (path_body p) as [s b] eqn:Ep. simpl in Hb, Hn. rw -filter_trim in Hb.
  destruct (rev (trim_pieces b)) as [|c r] eqn:Er.
  { destruct s; [done| |done]. intros [= <-]. split; [left|done].
    apply (f_equal (@rev str)) in Er. rw rev_involutive in Er. by rw Hb Er. }
  intros [= <-]. pose proof (trim_last_solid _ _ _ Er) as Hc.
  apply (f_equal (@rev str)) in Er. rw rev_involutive /= in Er.
  assert (Forall (fun x => chr "/"%char ∉ x) (trim_pieces (rev r))) as Hn'.
  { eapply List.incl_Forall; [|exact Hn]. intros z Hz%trim_incl.
    apply trim_incl. rw Er. apply List.in_or_app. by left. }
  split.
  - right. exists c. rw Hb Er List.filter_app nodots_kernel_comps split_show_path //
      filter_trim /=. by rw Hc.
  - apply (show_path_start p s b); [|done|done|].
    + intros ->. injection Ep as [= <- <-]. by destruct (rev r).
    + intros y k Hk. apply trim_head in Hk as [k' Hk]. rw Hk /= in Er. by eapply trim_head.
Qed.

Lemma entry_of_Ok fs p d c :
  entry_of fs p = Ok (d, c) ->
  p <> [] /\ c <> "." /\ c <> ".." /\ exists xs,
    kernel_comps p = xs ++ [c]
    /\ walk MAXSYMLINKS fs Follow (start_of fs (cwd fs) p) (xs ++ [lit "."]) = Ok d
    /\ may_search fs d = true.
Proof.
  unfold entry_of. destruct (str_eqb p []) eqn:Hp; [done|].
  destruct (rev (kernel_comps p)) as [|c' r] eqn:Er; [done|].
  rw result_bind_Ok. intros (d' & Hw & H).
  destruct (str_eqb c' "." || str_eqb c' "..") eqn:Hc; [done|].
  destruct (may_search fs d') eqn:Hs; [|done]. injection H as [= -> ->].
  apply orb_false_iff in Hc as [Hc Hcc]. apply str_eqb_neq in Hp, Hc, Hcc.
  split_and!; [done..|]. exists (rev r). split; [|done].
  by rw -(rev_involutive (kernel_comps p)) Er.
Qed.

Lemma nodots_snoc (xs : list str) (c : str) : c <> lit "." -> nodots (xs ++ [c]) = nodots xs ++ [c].
Proof. intros Hc. rw nodots_app /=. by rw (proj2 (str_eqb_neq c _) Hc). Qed.

Lemma entry_parent_some fs p e : entry_of fs p = Ok e -> exists q, parent p = Some q.
Proof.
  destruct e as [d c]. intros (Hp & Hc & _ & xs & Hk & _)%entry_of_Ok.
  pose proof (nodots_body p) as Hb. rw Hk nodots_snoc // -filter_trim in Hb. unfold parent.
  destruct (path_body p) as [s b]. simpl in Hb.
  destruct (trim_pieces b) as [|x k]; [by destruct (nodots xs)|].
  destruct (rev (x :: k)) eqn:E; [|by eexists]. by apply (f_equal length) in E; rw length_rev in E.
Qed.

(** The directory of an entry is what the path's [parent] resolves to. *)
Lemma entry_parent fs p d c q s :
  entry_of fs p = Ok (d, c) -> parent p = Some q -> canonicalize fs q = Ok s -> s = show_loc d.
Proof.
  intros (Hp & Hc & _ & xs & Hk & Hw & _)%entry_of_Ok Hq (loc & Hr & ->)%canonicalize_Ok.
  f_equal. unfold resolve in Hr. destruct (str_eqb q []) eqn:Hqe; [done|].
  apply str_eqb_neq in Hqe. destruct (parent_spec p q Hq) as [Hn Hs].
  rw Hk nodots_snoc // in Hn. destruct Hn as [[Hn _]|(c' & Hn)]; [by destruct (nodots xs)|].
  apply app_inj_tail in Hn as [Hn _].
  unfold start_of in *. rw Hs // in Hr. rw walk_nodots Hn -walk_nodots in Hw.
  apply walk_dot_inv in Hw. congruence.
Qed.

(** An existing path that is not a link is the entry it names. *)
Lemma entry_existing fs p d c n :
  entry_of fs p = Ok (d, c) -> symlink_metadata fs p = Ok n -> is_symlink n = false ->
  resolve fs Follow p = Ok (d ++ [c]) /\ node_at fs (d ++ [c]) = Some n.
Proof.
  intros (Hp & Hc & Hcc & xs & Hk & Hw & Hs)%entry_of_Ok.
  pose proof (walk_snoc _ _ _ _ _ _ Hw (proj2 (str_eqb_neq c _) Hc) (proj2 (str_eqb_neq c _) Hcc)) as Hlast.
  rw Hs in Hlast. cbn [negb] in Hlast.
  unfold symlink_metadata, resolve. rw (proj2 (str_eqb_neq p _) Hp) Hk result_bind_Ok.
  intros (loc & Hl & Hn) Hnl. rw Hl in Hlast.
  destruct (node_at fs (d ++ [c])) as [n'|] eqn:En; [|done]. injection Hlast as [= ->].
  unfold stat_at in Hn. rw En in Hn. injection Hn as [= ->]. split; [|done].
  apply walk_nofollow; [done|]. intros t Ht. rw En in Ht. by injection Ht as [= ->].
Qed.

Lemma entry_dir fs p d c :
  fs_wf fs -> entry_of fs p = Ok (d, c) -> node_at fs d = Some Dir.
Proof.
  intros Hw (_ & _ & _ & xs & _ & Hwk & _)%entry_of_Ok.
  pose proof (start_dir fs p Hw) as Hd. revert Hd Hwk. generalize (start_of fs (cwd fs) p).
  generalize MAXSYMLINKS. clear -Hw. intros l cur. revert l cur xs.
  apply (walk_ind (fun l cur xs => node_at fs cur = Some Dir ->
    walk l fs Follow cur (xs ++ [lit "."]) = Ok d -> node_at fs d = Some Dir)).
  - intros l cur Hd. simpl app. rw walk_cons walk_nil. by intros [= <-].
  - intros l cur x rest IH IHl Hd. cbn [app]. rw walk_cons.
    destruct (str_eqb x "."); [by apply IH|].
    destruct (negb (may_search fs cur)); [done|].
    destruct (str_eqb x ".."); [apply IH; by apply up_dir|].
    destruct (node_at fs (cur ++ [x])) as [[b| |t]|] eqn:En; [by destruct rest|by apply IH| |by destruct rest].
    intros H.
    assert (follow_link l fs Follow cur t (rest ++ [lit "."]) = Ok d) as E by by destruct rest.
    destruct l as [|l']; [done|]. simpl in E. destruct (str_eqb t []); [done|].
    rw app_assoc in E. eapply (IHl l'); [lia| |exact E].
    unfold start_of. by destruct (starts_with t "/").
Qed.

(** ** Writing *)

(** [std::fs::write]: [open] with [O_CREAT | O_TRUNC], then writing.  Unlike
    [entry_of], a link in the last component is followed. *)
Definition plain_write (fs : Fs) (p : str) (b : list N) : result Fs errno :=
  let? loc := resolve fs Create p in
  match node_at fs loc with
  | Some Dir => Err EISDIR
  | Some (Link _) => Err ELOOP
  | Some (File _) =>
      if negb (may_write fs loc) then Err EACCES
      else Ok (with_nodes fs (<[loc := File b]> (nodes fs)))
  | None =>
      if negb (may_write fs (up loc)) then Err EACCES
      else Ok (with_nodes fs (<[loc := File b]> (nodes fs)))
  end.

(** [mkdir]; final separators are allowed. *)
Definition mkdir (fs : Fs) (p : str) : result Fs errno :=
  let q := trim_end_matches "/"%char p in
  if str_eqb q [] && negb (str_eqb p []) then Err EEXIST
  else
    let? e := entry_of fs q in
    match node_at fs (e.1 ++ [e.2]) with
    | Some _ => Err EEXIST
    | None =>
        if negb (may_write fs e.1) then Err EACCES
        else Ok (with_nodes fs (<[e.1 ++ [e.2] := Dir]> (nodes fs)))
    end.

Definition is_dir (fs : Fs) (p : str) : bool :=
  match metadata fs p with Ok (_, Dir) => true | _ => false end.

(** [mkdir], where finding the directory already there is no error. *)
Definition mkdir_or_there (fs : Fs) (p : str) : result Fs errno :=
  match mkdir fs p with
  | Ok fs' => Ok fs'
  | Err e => if is_dir fs p then Ok fs else Err e
  end.

(** [std::fs::create_dir_all]: a call per component; what it has made before an error
    stays. *)
Fixpoint create_dir_all (fuel : nat) (fs : Fs) (p : str) : result unit errno * Fs :=
  if str_eqb p [] then (Ok tt, fs)
  else match mkdir fs p with
       | Ok fs' => (Ok tt, fs')
       | Err ENOENT =>
           match fuel, parent p with
           | S fuel', Some q =>
               let '(r, fs1) := create_dir_all fuel' fs q in
               match r with
               | Err e => (Err e, fs1)
               | Ok _ => match mkdir_or_there fs1 p with
                         | Ok fs2 => (Ok tt, fs2)
                         | Err e => (Err e, fs1)
                         end
               end
           | _, _ => (Err ENOENT, fs)
           end
       | Err e => (if is_dir fs p then Ok tt else Err e, fs)
       end.

(** *** The parent of a path that exists *)

Lemma walk_nodots_ok l fs cur xs loc :
  walk l fs Follow cur xs = Ok loc -> walk l fs Follow cur (nodots xs) = Ok loc.
Proof.
  destruct xs as [|x xs _] using rev_ind; [done|]. rw walk_nodots nodots_app. simpl.
  destruct (str_eqb x ".") eqn:E; simpl; [|done]. apply str_eqb_eq in E as ->.
  rw app_nil_r. apply walk_dot_inv.
Qed.

Lemma walk_prefix_dir l fs f cur xs c loc :
  str_eqb c "." = false -> walk l fs f cur (xs ++ [c]) = Ok loc ->
  exists d, walk l fs Follow cur (xs ++ [lit "."]) = Ok d.
Proof.
  intros Hc. revert l cur xs. apply (walk_ind (fun l cur xs => walk l fs f cur (xs ++ [c]) = Ok loc ->
    exists d, walk l fs Follow cur (xs ++ [lit "."]) = Ok d)).
  - intros l cur _. exists cur. simpl app. by rw walk_cons walk_nil.
  - intros l cur x rest IH IHl. cbn [app]. rw !walk_cons.
    destruct (str_eqb x "."); [apply IH|]. destruct (negb (may_search fs cur)); [done|].
    destruct (str_eqb x ".."); [apply IH|].
    destruct (node_at fs (cur ++ [x])) as [[| |t]|]; [by destruct rest|apply IH| |by destruct rest].
    intros H. assert (follow_link l fs f cur t (rest ++ [c]) = Ok loc) as E by by destruct rest.
    assert (exists d, follow_link l fs Follow cur t (rest ++ [lit "."]) = Ok d) as [d Hd];
      [|exists d; by destruct rest].
    destruct l as [|l']; [done|]. simpl in *. destruct (str_eqb t []); [done|].
    rw !app_assoc in E |- *. apply (IHl l' _ (kernel_comps t ++ rest)); [lia|done].
Qed.

Lemma parent_exists fs p q c :
  fs_wf fs -> canonicalize fs p = Ok c -> parent p = Some q -> q <> [] -> path_exists fs q = true.
Proof.
  intros Hw (loc & Hr & ->)%canonicalize_Ok Hq Hne. destruct (parent_spec p q Hq) as [Hn Hs].
  destruct Hn as [[_ ?]|(x & Hn)]; [done|]. unfold resolve in Hr.
  destruct (str_eqb p []); [done|]. apply walk_nodots_ok in Hr. rw Hn in Hr.
  assert (str_eqb x "." = false) as Hx.
  { pose proof (nodots_idemp (kernel_comps p)) as Hi. rw Hn nodots_app nodots_idemp in Hi.
    simpl in Hi. destruct (str_eqb x "."); [|done].
    apply (f_equal length) in Hi. rw !length_app /= in Hi. lia. }
  apply walk_prefix_dir in Hr as [d Hd]; [|done]. rw -walk_nodots in Hd.
  apply walk_dot_inv in Hd. unfold path_exists, metadata, resolve, start_of.
  rw (proj2 (str_eqb_neq q _) Hne) Hs //. unfold start_of in Hd. rw Hd /=.
  destruct (walk_sound _ _ _ _ _ _ Hw (ltac:(done) : Follow <> Create) (start_dir fs p Hw) Hd)
    as (n & Hnode & _).
  unfold stat_at. by rw Hnode.
Qed.

Lemma show_loc_end loc : Forall valid_name loc -> loc <> [] -> ends_with (show_loc loc) "/" = false.
Proof.
  intros Hv Hne. apply not_true_iff_false. intros [r Hr]%ends_with_spec.
  assert (split_char "/"%char (show_loc loc) = split_char "/"%char r ++ [[]]) as E.
  { rw Hr. change (lit "/") with ([chr "/"%char]). by rw split_char_app. }
  rw pieces_show_loc // in E. destruct (exists_last Hne) as [l' [x ->]].
  apply Forall_app in Hv as [_ Hx]. change ([] :: (l' ++ [x])) with (([] :: l') ++ [x]) in E.
  apply app_inj_tail in E as [_ ->]. inversion Hx as [|? ? [Hx' _]]. done.
Qed.

Lemma join_snoc sep l x : l <> [] -> join sep (l ++ [x]) = join sep l ++ sep ++ x.
Proof.
  induction l as [|y l IH]; [done|]. intros _. destruct l as [|z l]; [done|].
  change (join sep ((y :: z :: l) ++ [x])) with (y ++ sep ++ join sep ((z :: l) ++ [x])).
  rw IH //. change (join sep (y :: z :: l)) with (y ++ sep ++ join sep (z :: l)). by rw -!app_assoc.
Qed.

Lemma path_join_loc loc n :
  Forall valid_name loc -> valid_name n -> path_join (show_loc loc) n = show_loc (loc ++ [n]).
Proof.
  intros Hv (Hne & Hs & _). unfold path_join.
  assert (starts_with n "/" = false) as ->.
  { apply not_true_iff_false. intros [r ->]%starts_with_spec. apply Hs. by left. }
  rw (proj2 (str_eqb_neq _ _) (show_loc_nonempty loc)). cbn [orb].
  destruct (decide (loc = [])) as [->|Hl]; [done|]. rw show_loc_end //. unfold show_loc. rw join_snoc //.
Qed.

(** What is above a location is a directory. *)
Lemma dir_above fs loc c k n : fs_wf fs -> node_at fs (loc ++ c :: k) = Some n -> node_at fs loc = Some Dir.
Proof.
  intros Hw. revert n. induction k as [|x k IH] using rev_ind; intros n.
  - rw node_at_snoc. by apply wf_parent.
  - rw app_comm_cons app_assoc node_at_snoc. intros Hn. eapply IH. by eapply wf_parent.
Qed.

(** A walk by the names of a location that is no link ends there, if it ends. *)
Lemma walk_names l fs f pre k n d :
  fs_wf fs -> node_at fs (pre ++ k) = Some n -> is_symlink n = false ->
  walk l fs f pre (k ++ [lit "."]) = Ok d -> d = pre ++ k.
Proof.
  intros Hw. revert pre. induction k as [|c k IH]; intros pre Hn Hl; cbn [app].
  { rw walk_cons walk_nil app_nil_r. by intros [= <-]. }
  pose proof (node_at_valid _ _ _ Hw Hn) as Hv. apply Forall_app in Hv as [_ Hv].
  apply Forall_cons in Hv as [(_ & _ & Hd & Hdd) _].
  rw walk_cons (proj2 (str_eqb_neq c _) Hd) (proj2 (str_eqb_neq c _) Hdd). destruct (negb _); [done|].
  rw cons_middle app_assoc in Hn |- *. specialize (IH (pre ++ [c]) Hn Hl).
  destruct k as [|x k]; [|by rw (dir_above _ _ _ _ _ Hw Hn)].
  rw app_nil_r in Hn. rw Hn. by destruct n.
Qed.

Lemma component_of_Normal x n : component_of x = Some (Normal n) -> n = x /\ x <> [] /\ x <> "." /\ x <> "..".
Proof.
  unfold component_of, trivial_piece. destruct (str_eqb x []) eqn:E1; [done|]. destruct (str_eqb x ".") eqn:E2; [done|].
  destruct (str_eqb x "..") eqn:E3; [done|]. cbn [orb]. intros [= ->].
  by split_and!; [|apply str_eqb_neq..].
Qed.

Lemma file_name_valid p c : file_name p = Some c -> valid_name c.
Proof.
  unfold file_name. destruct (last (components p)) as [[]|] eqn:E; try done. intros [= ->].
  apply last_Some_elem_of in E. unfold components in E. pose proof (path_body_spec p) as [Hb _].
  destruct (path_body p) as [s b]. cbn [snd] in Hb. apply elem_of_app in E as [E|E].
  { by destruct s; [apply list_elem_of_singleton in E..|apply elem_of_nil in E]. }
  apply list_elem_of_omap in E as (x & Hx & (-> & Hne & Hd & Hdd)%component_of_Normal).
  split_and!; [done| |done..]. assert (x ∈ split_char "/"%char p) as Hs by (rw Hb; apply elem_of_app; by right).
  intros Hc. by destruct (split_char_elem _ _ _ _ Hs Hc).
Qed.

(** The entry of a name under the absolute path of a location. *)
Lemma entry_of_joined fs loc m n d c :
  fs_wf fs -> node_at fs loc = Some m -> is_symlink m = false -> valid_name n ->
  entry_of fs (path_join (show_loc loc) n) = Ok (d, c) -> d = loc /\ c = n.
Proof.
  intros Hw Hn Hm Hv. pose proof (node_at_valid _ _ _ Hw Hn) as Hl. rw path_join_loc //.
  intros (_ & _ & _ & xs & Hk & Hwk & _)%entry_of_Ok.
  rw kernel_comps_show_loc in Hk; [by apply Forall_app; split; [|constructor]|by destruct loc|].
  apply app_inj_tail in Hk as [<- <-]. split; [|done]. by apply (walk_names _ _ _ [] loc m) in Hwk.
Qed.

(** The last component of a path that ends in a text without a separator. *)
Lemma split_char_tail sep s t :
  (sep ∉ t) -> exists xs q, split_char sep (s ++ t) = xs ++ [q ++ t].
Proof.
  intros Ht. induction s as [|c s IH].
  - exists [], []. by apply split_char_notin.
  - destruct IH as (xs & q & IH). simpl. rw IH. destruct (c =? sep)%N; [by exists ([] :: xs), q|].
    destruct xs as [|x xs]; [by exists [], (c :: q)|by exists ((c :: x) :: xs), q].
Qed.

Lemma entry_name_suffix fs s t d c :
  t <> [] -> (chr "/"%char ∉ t) -> entry_of fs (s ++ t) = Ok (d, c) -> exists q, c = q ++ t.
Proof.
  intros Hne Ht (_ & Hc & _ & xs & Hk & _)%entry_of_Ok.
  destruct (split_char_tail "/"%char s t Ht) as (ys & q & Hs). unfold kernel_comps in Hk.
  destruct (ends_with (s ++ t) "/"); [by apply app_inj_tail in Hk as [_ <-]|].
  rw app_nil_r Hs List.filter_app /= in Hk. unfold nonempty_piece at 2 in Hk.
  rw (proj2 (str_eqb_neq (q ++ t) [])) in Hk; [by destruct q|].
  apply app_inj_tail in Hk as [_ <-]. by exists q.
Qed.

(** A tree with full permissions, for concrete inputs. *)
Definition tree (l : list (list str * node)) (cwd : list str) : Fs :=
  {| nodes := list_to_map l; cwd := cwd; may_search := fun _ => true;
     may_read := fun _ => true; may_write := fun _ => true; dir_len := fun _ => 4096%N |}.

(** The bytes of some pieces, with a separator before each. *)
Definition pieces_size (l : list str) : nat := foldr (fun x n => S (length x) + n) 0 l.

Lemma length_join_slash l : length (join "/" l) = pieces_size l - 1.
Proof.
  induction l as [|x l IH]; [done|]. destruct l as [|y l]; [cbn [join pieces_size foldr]; lia|].
  change (join "/" (x :: y :: l)) with (x ++ lit "/" ++ join "/" (y :: l)). rw !length_app IH.
  change (length (lit "/")) with 1. cbn [pieces_size foldr]. lia.
Qed.

Lemma pieces_size_app l k : pieces_size (l ++ k) = pieces_size l + pieces_size k.
Proof. induction l as [|x l IH]; [done|].
  change (S (length x) + pieces_size (l ++ k) = S (length x) + pieces_size l + pieces_size k). lia. Qed.

Lemma trim_size l : pieces_size (trim_pieces l) <= pieces_size l.
Proof.
  induction l as [|x l IH]; [done|]. cbn [trim_pieces]. change (pieces_size (x :: l)) with (S (length x) + pieces_size l).
  destruct (trim_pieces l) as [|y r]; [destruct (trivial_piece x)|]; cbn [pieces_size foldr] in *; lia.
Qed.

(** A parent is a shorter text, so taking parents ends. *)
Lemma parent_shorter p q : parent p = Some q -> length q < length p.
Proof.
  pose proof (path_body_spec p) as [Hp _]. unfold parent.
  pose proof (f_equal (fun l => length (join "/" l)) Hp) as Hl. cbn beta in Hl.
  pose proof (split_char_join "/"%char p) as Hj. change (lit "/") with [chr "/"%char] in Hl. rw Hj in Hl.
  change [chr "/"%char] with (lit "/") in Hl. rw length_join_slash pieces_size_app in Hl.
  destruct (path_body p) as [s b]. cbn [fst snd] in Hl.
  assert (length p = (match s with Rooted => 1 | Dotted => 2 | Bare => 0 end) + pieces_size b - 1) as Hlen by (by destruct s).
  clear Hl Hp Hj.
  destruct (rev (trim_pieces b)) as [|c r] eqn:Er.
  { destruct s; try done. intros [= <-]. cbn [length]. lia. }
  intros [= <-]. pose proof (trim_last_solid _ _ _ Er) as Hc. pose proof (trim_size b) as Hb.
  apply (f_equal (@rev str)) in Er. rw rev_involutive in Er. rw Er in Hb. cbn [rev] in Hb. rw pieces_size_app in Hb.
  pose proof (trim_size (rev r)) as Ht. assert (0 < length c) as Hpos by (destruct c; [done|cbn; lia]).
  cbn [pieces_size foldr] in Hb. assert (length (join "/" (trim_pieces (rev r))) + 2 <= pieces_size b) as Hj.
  { rw length_join_slash. lia. }
  destruct s; cbn [show_path]; [|destruct (trim_pieces (rev r))|lia].
  - rw length_app. change (length (lit "/")) with 1. lia.
  - change (length (lit ".")) with 1. lia.
  - rw length_app. change (length (lit "./")) with 2. lia.
Qed.
