(* ===== verification/PathGuard.v ===== *)
(** * The path guard and the read gate (src/shared/access/mod.rs)

    [PathGuard] decides whether a path may be listed, read or written: deny list,
    existence, symbolic links, sandbox, size, binary content; for writes extension,
    dotfiles, size of the file overwritten, links and allowed directories.  [ReadGate]
    records which files were read.  Both work on the file tree of [Paths].

    Parameters: whether git ignores a path ([gitignored], a probe that answers [false]
    on every failure), globset ([glob_new]) and the Unicode lower-case table.  Reads
    and writes of one check see one state of the tree. *)

From Stdlib Require Import ssreflect.
From S2P Require Import Prelude BashSafety Paths.

Inductive GuardVerdict := Allowed (p : str) | Denied (msg : str).

#[global] Instance GuardVerdict_eq_dec : EqDecision GuardVerdict.
Proof. solve_decision. Defined.

Record PathGuard := mkPathGuard {
  sandbox_dir : option str;
  deny_extensions : list str;
  block_dotfiles : bool;
  block_gitignored_dotfiles : bool;
  max_read_size : N;
  max_overwrite_size : N;
  deny_list : DenyList;
  follow_symlinks : bool;
  allowed_write_dirs : list str;
  block_binary_reads : bool
}.

Definition is_sandboxed (g : PathGuard) : bool :=
  is_some_b (sandbox_dir g) || negb (bool_decide (allowed_write_dirs g = [])).

(** A step of a check that ends it with a denial, or lets it go on. *)
Definition cannot_resolve (what p : str) (e : errno) (suffix : str) : str :=
  "Cannot resolve " ++ what ++ " '" ++ p ++ "': " ++ errno_text e ++ suffix.

Definition cannot_read_metadata (p : str) (e : errno) : str :=
  "Cannot read metadata for '" ++ p ++ "': " ++ errno_text e.

Definition map_err {A E F} (f : E -> F) (r : result A E) : result A F :=
  match r with Ok a => Ok a | Err e => Err (f e) end.

(** [Err] when the condition holds. *)
Definition deny_if {E} (b : bool) (e : E) : result unit E := if b then Err e else Ok tt.

Definition verdict (r : result str str) : GuardVerdict :=
  match r with Ok p => Allowed p | Err m => Denied m end.

(** The symbolic-link step of [check_traversal]. *)
Definition traversal_link_step (fs : Fs) (g : PathGuard) (path : str) : result unit str :=
  if follow_symlinks g then Ok tt
  else
    let? n := map_err (cannot_read_metadata path) (symlink_metadata fs path) in
    deny_if (is_symlink n) ("Symlinks not allowed: " ++ path).

(** The sandbox step of [check_traversal]. *)
Definition traversal_sandbox_step (fs : Fs) (g : PathGuard) (path canonical : str)
    : result unit str :=
  match sandbox_dir g with
  | None => Ok tt
  | Some sandbox =>
      let? sb := map_err (fun e => cannot_resolve "sandbox dir" sandbox e []) (canonicalize fs sandbox) in
      deny_if (negb (path_starts_with canonical sb)) ("Path outside sandbox: " ++ path)
  end.

(** [PathGuard::check_traversal]. *)
Definition traverse (fs : Fs) (g : PathGuard) (path : str) : result str str :=
  do? deny_if (is_path_denied (deny_list g) path)
        ("Path denied by deny list: " ++ path) ;;
  do? deny_if (negb (path_exists fs path)) ("Path does not exist: " ++ path) ;;
  do? traversal_link_step fs g path ;;
  let? canonical := map_err (fun e => cannot_resolve "path" path e []) (canonicalize fs path) in
  do? deny_if (follow_symlinks g && is_path_denied (deny_list g) canonical)
        ("Resolved path denied by deny list: " ++ canonical) ;;
  do? traversal_sandbox_step fs g path canonical ;;
  Ok canonical.

Definition check_traversal (fs : Fs) (g : PathGuard) (path : str) : GuardVerdict :=
  verdict (traverse fs g path).

(** [PathGuard::is_binary]: a NUL among the first 512 bytes. *)
Definition is_binary (content : list N) : bool :=
  existsb (fun b => (b =? 0)%N) (take 512 content).

Definition read_size_step (fs : Fs) (g : PathGuard) (canonical : str) : result unit str :=
  if (0 <? max_read_size g)%N then
    let? ln := map_err (cannot_read_metadata canonical) (metadata fs canonical) in
    deny_if (max_read_size g <? node_len fs ln)%N
      ("File too large (" ++ show_N (node_len fs ln) ++ " > " ++ show_N (max_read_size g)
       ++ " bytes): " ++ canonical)
  else Ok tt.

Definition read_binary_step (fs : Fs) (g : PathGuard) (canonical : str) : result unit str :=
  if block_binary_reads g then
    let? sample := map_err (fun e => "Cannot read '" ++ canonical ++ "' for binary detection: "
                                     ++ errno_text e) (read_bytes fs canonical) in
    deny_if (is_binary sample) ("Binary file blocked: " ++ canonical)
  else Ok tt.

(** [PathGuard::check_read]. *)
Definition check_read (fs : Fs) (g : PathGuard) (path : str) : GuardVerdict :=
  match check_traversal fs g path with
  | Denied m => Denied m
  | Allowed canonical =>
      verdict (do? read_size_step fs g canonical ;;
               do? read_binary_step fs g canonical ;;
               Ok canonical)
  end.

(** The path whose containment a write is checked by: the path itself when it
    exists, else its parent. *)
Definition write_anchor (fs : Fs) (path refusing : str) : result str str :=
  if path_exists fs path then
    map_err (fun e => cannot_resolve "path" path e refusing) (canonicalize fs path)
  else
    let par := unwrap_or (lit ".") (parent path) in
    map_err (fun e => cannot_resolve "parent directory" par e refusing) (canonicalize fs par).

Definition write_sandbox_step (fs : Fs) (g : PathGuard) (path : str) : result unit str :=
  match sandbox_dir g with
  | None => Ok tt
  | Some sandbox =>
      let? sb := map_err (fun e => cannot_resolve "sandbox dir" sandbox e []) (canonicalize fs sandbox) in
      let? check := write_anchor fs path " (refusing write outside sandbox)" in
      do? deny_if (negb (path_starts_with check sb)) ("Path outside sandbox: " ++ path) ;;
      deny_if (follow_symlinks g && is_path_denied (deny_list g) check)
        ("Resolved path denied by deny list: " ++ check)
  end.

Definition write_extension_step `{UnicodeCase} (g : PathGuard) (path : str) : result unit str :=
  match extension path with
  | None => Ok tt
  | Some ext =>
      let ext_str := "." ++ to_lowercase ext in
      deny_if (existsb (fun d => str_eqb d ext_str) (deny_extensions g))
        ("Extension '" ++ ext_str ++ "' denied for write: " ++ path)
  end.

Definition is_dotfile (path : str) : bool :=
  match file_name path with Some name => starts_with name "." | None => false end.

Definition write_overwrite_step (fs : Fs) (g : PathGuard) (path : str) : result unit str :=
  if (0 <? max_overwrite_size g)%N && path_exists fs path then
    let? ln := map_err (cannot_read_metadata path) (metadata fs path) in
    deny_if (max_overwrite_size g <? node_len fs ln)%N
      ("Refusing to overwrite " ++ path ++ " (" ++ show_N (node_len fs ln)
       ++ " bytes) because it exceeds the " ++ show_N (max_overwrite_size g) ++ "-byte limit")
  else Ok tt.

Definition write_link_step (fs : Fs) (path : str) : result unit str :=
  if path_exists fs path then
    let? n := map_err (cannot_read_metadata path) (symlink_metadata fs path) in
    deny_if (is_symlink n) ("Cannot write through symlink: " ++ path)
  else Ok tt.

Definition write_dirs_step (fs : Fs) (g : PathGuard) (path : str) : result unit str :=
  if bool_decide (allowed_write_dirs g = []) then Ok tt
  else
    let? check := write_anchor fs path " (refusing write outside allowed dirs)" in
    deny_if (negb (existsb (fun d => match canonicalize fs d with
                                     | Ok cd => path_starts_with check cd
                                     | Err _ => false
                                     end) (allowed_write_dirs g)))
      ("Path not in allowed write directories: " ++ path).

(** [PathGuard::check_write]. *)
Definition check_write `{UnicodeCase} (gitignored : str -> bool) (fs : Fs) (g : PathGuard)
    (path : str) : GuardVerdict :=
  verdict (
    do? deny_if (is_path_denied (deny_list g) path)
          ("Path denied by deny list: " ++ path) ;;
    do? write_sandbox_step fs g path ;;
    do? write_extension_step g path ;;
    do? deny_if (block_dotfiles g && is_dotfile path) ("Dotfiles not allowed: " ++ path) ;;
    do? deny_if (block_gitignored_dotfiles g && is_dotfile path && gitignored path)
          ("Git-ignored dotfile write blocked: " ++ path
           ++ ". Add an explicit permission rule if you really need this file.") ;;
    do? write_overwrite_step fs g path ;;
    do? write_link_step fs path ;;
    do? write_dirs_step fs g path ;;
    Ok path).

(** [PathGuard::default]. *)
Definition default_deny_extensions : list str :=
  map lit [".pem"; ".key"; ".crt"; ".cert"; ".o"; ".so"; ".dll"; ".dylib"; ".exe"].

Definition PathGuard_default (glob_new : str -> option (str -> bool)) : PathGuard :=
  {| sandbox_dir := None; deny_extensions := default_deny_extensions;
     block_dotfiles := false; block_gitignored_dotfiles := false;
     max_read_size := 1048576; max_overwrite_size := 1048576;
     deny_list := DenyList_default glob_new; follow_symlinks := false;
     allowed_write_dirs := []; block_binary_reads := false |}.

(** ** The startup gates *)

Definition refuse_if_unsandboxed (g : PathGuard) : result unit str :=
  if is_sandboxed g then Ok tt
  else Err ("Refused to start in --harden mode: no `sandbox_dir` and no `allowed_write_dirs` "
    ++ "configured. Hardened mode requires an explicit write scope. Set `sandbox_dir` in "
    ++ "config.toml or via KF_CODE_SANDBOX_DIR, or list `allowed_write_dirs`.").

Definition refuse_if_production_unsandboxed (g : PathGuard) : result unit str :=
  if is_sandboxed g then Ok tt
  else Err ("Refused to start: no `sandbox_dir` configured and this is a release build. "
    ++ "Model-driven writes are unrestricted. Set `sandbox_dir = " ++ dquote ++ "." ++ dquote
    ++ "` in config.toml "
    ++ "(or KF_CODE_SANDBOX_DIR) for a minimal safe default, or list `allowed_write_dirs` "
    ++ "to scope writes.").

(** ** The read-before-edit gate *)

(** A path as a key of a hash table: equal when the components are. *)
Definition path_key (fs : Fs) (path : str) : str :=
  match canonicalize fs path with Ok c => c | Err _ => path end.

#[global] Instance component_countable : Countable component.
Proof.
  apply (inj_countable'
    (fun c => match c with RootDir => inl 0%N | CurDir => inl 1%N | ParentDir => inl 2%N
                         | Normal n => inr n end)
    (fun x => match x with inl 0%N => RootDir | inl 1%N => CurDir | inl _ => ParentDir
                         | inr n => Normal n end)).
  by intros [].
Defined.

(** Per key, the path it was first stored under and the number of reads. *)
Record ReadGate := mkReadGate {
  read_files : gset (list component);
  access_counts : gmap (list component) (str * nat)
}.

Definition ReadGate_new : ReadGate := {| read_files := ∅; access_counts := ∅ |}.

Definition mark_read (fs : Fs) (path : str) (g : ReadGate) : ReadGate :=
  let key := path_key fs path in
  let k := components key in
  {| read_files := {[ k ]} ∪ read_files g;
     access_counts :=
       <[k := match access_counts g !! k with
              | Some (first, n) => (first, S n)
              | None => (key, 1)
              end]> (access_counts g) |}.

Definition was_read (fs : Fs) (path : str) (g : ReadGate) : bool :=
  bool_decide (components (path_key fs path) ∈ read_files g).

Definition check_edit (fs : Fs) (path resolved : str) (g : ReadGate) : GuardVerdict :=
  if bool_decide (components (path_key fs resolved) ∈ read_files g) then Allowed path
  else Denied ("Read-before-edit: '" ++ path ++ "' has not been read this session. "
               ++ "Use read_file first.").

(** [ReadGate::top_files]: [entries] lists the counts in the iteration order of the
    table; the sort is stable and descending. *)
Definition top_files (entries : list (str * nat)) (n : nat) : list str :=
  let top := foldr (fun e => N.max (N.of_nat e.2)) 0%N entries in
  map fst (take n (sort_by (fun e => top - N.of_nat e.2)%N entries)).

Definition ReadGate_clear (g : ReadGate) : ReadGate := ReadGate_new.

(** ** Construction from the configuration *)

Record SecurityConfig := mkSecurityConfig {
  cfg_deny_paths : list str;
  cfg_deny_urls : list str;
  cfg_deny_extensions : list str;
  cfg_allowed_write_dirs : list str;
  cfg_sandbox_dir : option str;
  cfg_block_dotfiles : bool;
  cfg_block_gitignored_dotfiles : bool;
  cfg_max_file_read_size : N;
  cfg_max_overwrite_size : N;
  cfg_bash_require_allowlist : bool;
  cfg_bash_allowlist : list str;
  cfg_follow_symlinks : bool;
  cfg_block_binary_reads : bool
}.

(** [access_from_config]. *)
Definition access_from_config (glob_new : str -> option (str -> bool)) (c : SecurityConfig)
    : DenyList * PathGuard * ReadGate :=
  let base := DenyList_default glob_new in
  let dl := with_bash_allowlist glob_new (path_patterns base ++ cfg_deny_paths c)
              (url_patterns base ++ cfg_deny_urls c)
              (cfg_bash_require_allowlist c) (cfg_bash_allowlist c) in
  let guard :=
    {| sandbox_dir := match cfg_sandbox_dir c with
                      | Some s => if str_eqb s [] then None else Some s
                      | None => None
                      end;
       deny_extensions := default_deny_extensions ++ cfg_deny_extensions c;
       block_dotfiles := cfg_block_dotfiles c;
       block_gitignored_dotfiles := cfg_block_gitignored_dotfiles c;
       max_read_size := cfg_max_file_read_size c;
       max_overwrite_size := cfg_max_overwrite_size c;
       deny_list := dl;
       follow_symlinks := cfg_follow_symlinks c;
       allowed_write_dirs := List.filter nonempty_piece (cfg_allowed_write_dirs c);
       block_binary_reads := cfg_block_binary_reads c |} in
  (dl, guard, ReadGate_new).

(** ** What a passed check means *)

Lemma deny_if_Ok {E} b (e : E) u : deny_if b e = Ok u <-> b = false.
Proof. destruct b, u; simpl; split; congruence. Qed.

Lemma map_err_Ok {A E F} (f : E -> F) (r : result A E) a : map_err f r = Ok a <-> r = Ok a.
Proof. destruct r; simpl; split; congruence. Qed.

Lemma verdict_Allowed r p : verdict r = Allowed p <-> r = Ok p.
Proof. destruct r; simpl; split; congruence. Qed.

Lemma do_Ok {A E} (r : result unit E) (k : result A E) a :
  (do? r ;; k) = Ok a <-> r = Ok tt /\ k = Ok a.
Proof. rw result_bind_Ok. split; [by intros ([] & ? & ?)|intros []; by exists tt]. Qed.

Lemma path_exists_Ok fs p :
  fs_wf fs -> path_exists fs p = true <-> exists c, canonicalize fs p = Ok c.
Proof.
  intros Hw. unfold path_exists, metadata, canonicalize.
  destruct (resolve fs Follow p) as [loc|e] eqn:Er; simpl.
  - destruct (follow_sound fs p loc Hw Er) as (n & Hn & _).
    unfold stat_at. rw Hn /=. split; [by eexists|done].
  - split; [done|by intros []].
Qed.

(** The path does not end in a symbolic link. *)
Definition not_a_link (fs : Fs) (p : str) : Prop :=
  exists n, symlink_metadata fs p = Ok n /\ is_symlink n = false.

(** The path lies in the directory that [dir] resolves to. *)
Definition inside (fs : Fs) (dir c : str) : Prop :=
  exists s, canonicalize fs dir = Ok s /\ path_starts_with c s = true.

Lemma link_step_Ok fs g p u :
  traversal_link_step fs g p = Ok u <-> (follow_symlinks g = false -> not_a_link fs p).
Proof.
  unfold traversal_link_step, not_a_link. destruct u, (follow_symlinks g); [by split|].
  rw result_bind_Ok. setoid_rewrite map_err_Ok. setoid_rewrite deny_if_Ok. naive_solver.
Qed.

Lemma sandbox_step_Ok fs g p c u :
  traversal_sandbox_step fs g p c = Ok u
  <-> (forall dir, sandbox_dir g = Some dir -> inside fs dir c).
Proof.
  unfold traversal_sandbox_step, inside. destruct u, (sandbox_dir g) as [dir|]; [|naive_solver].
  rw result_bind_Ok. setoid_rewrite map_err_Ok. setoid_rewrite deny_if_Ok.
  setoid_rewrite negb_false_iff. naive_solver.
Qed.

(** What [check_traversal] requires of a path that resolves to [c]. *)
Record traversable (fs : Fs) (g : PathGuard) (p c : str) : Prop := {
  trav_resolved : canonicalize fs p = Ok c;
  trav_listed : is_path_denied (deny_list g) p = false;
  trav_link : follow_symlinks g = false -> not_a_link fs p;
  trav_target : follow_symlinks g = true -> is_path_denied (deny_list g) c = false;
  trav_sandbox : forall dir, sandbox_dir g = Some dir -> inside fs dir c
}.

Lemma check_traversal_Allowed fs g p c :
  fs_wf fs -> check_traversal fs g p = Allowed c <-> traversable fs g p c.
Proof.
  intros Hw. unfold check_traversal, traverse. rw verdict_Allowed !do_Ok !deny_if_Ok result_bind_Ok.
  rw link_step_Ok negb_false_iff path_exists_Ok //. setoid_rewrite map_err_Ok.
  setoid_rewrite do_Ok. setoid_rewrite do_Ok. setoid_rewrite deny_if_Ok.
  setoid_rewrite sandbox_step_Ok. setoid_rewrite andb_false_iff. split.
  - intros (Hd & _ & Hl & c' & Hc & Ht & Hs & [= <-]). constructor; [done..| |done].
    intros Hf. rw Hf in Ht. by destruct Ht.
  - intros [Hc Hd Hl Ht Hs]. split_and!; [done|by exists c|done|]. exists c. split_and!; [done| |done|done].
    destruct (follow_symlinks g); [right; by apply Ht|by left].
Qed.

(** What [check_read] requires beyond that. *)
Definition small_enough (fs : Fs) (g : PathGuard) (c : str) : Prop :=
  max_read_size g = 0%N
  \/ exists ln, metadata fs c = Ok ln /\ (node_len fs ln <= max_read_size g)%N.

Definition textual (fs : Fs) (g : PathGuard) (c : str) : Prop :=
  block_binary_reads g = true ->
  exists b, read_bytes fs c = Ok b /\ forall x, x ∈ take 512 b -> x <> 0%N.

Lemma is_binary_spec b : is_binary b = false <-> forall x, x ∈ take 512 b -> x <> 0%N.
Proof.
  unfold is_binary. rw -not_true_iff_false existsb_elem. setoid_rewrite N.eqb_eq. naive_solver.
Qed.

Lemma read_size_step_Ok fs g c u : read_size_step fs g c = Ok u <-> small_enough fs g c.
Proof.
  unfold read_size_step, small_enough. destruct u, (0 <? max_read_size g)%N eqn:E.
  - apply N.ltb_lt in E. rw result_bind_Ok. setoid_rewrite map_err_Ok. setoid_rewrite deny_if_Ok.
    setoid_rewrite N.ltb_ge. split; [naive_solver|]. intros [H|H]; [lia|done].
  - apply N.ltb_ge in E. split; [|done]. left. lia.
Qed.

Lemma read_binary_step_Ok fs g c u : read_binary_step fs g c = Ok u <-> textual fs g c.
Proof.
  unfold read_binary_step, textual. destruct u, (block_binary_reads g); [|done].
  rw result_bind_Ok. setoid_rewrite map_err_Ok. setoid_rewrite deny_if_Ok.
  setoid_rewrite is_binary_spec. naive_solver.
Qed.

Lemma check_read_Allowed fs g p c :
  fs_wf fs ->
  check_read fs g p = Allowed c
  <-> traversable fs g p c /\ small_enough fs g c /\ textual fs g c.
Proof.
  intros Hw. unfold check_read.
  destruct (check_traversal fs g p) as [c'|m] eqn:E.
  - apply check_traversal_Allowed in E as Ht; [|done].
    rw verdict_Allowed !do_Ok read_size_step_Ok read_binary_step_Ok. split.
    + by intros (? & ? & [= <-]).
    + intros (H & ? & ?). assert (c' = c) as ->; [|done].
      pose proof (trav_resolved _ _ _ _ Ht). pose proof (trav_resolved _ _ _ _ H). congruence.
  - split; [done|]. intros (H & _). apply check_traversal_Allowed in H; [congruence|done].
Qed.

(** What a write's containment is checked by. *)
Definition anchored (fs : Fs) (p a : str) : Prop :=
  if path_exists fs p then canonicalize fs p = Ok a
  else canonicalize fs (unwrap_or (lit ".") (parent p)) = Ok a.

Lemma write_anchor_Ok fs p m a : write_anchor fs p m = Ok a <-> anchored fs p a.
Proof. unfold write_anchor, anchored. destruct (path_exists fs p); apply map_err_Ok. Qed.

Lemma anchored_unique fs p a b : anchored fs p a -> anchored fs p b -> a = b.
Proof. unfold anchored. destruct (path_exists fs p); congruence. Qed.

(** The extension is not on the list. *)
Definition extension_allowed `{UnicodeCase} (g : PathGuard) (p : str) : Prop :=
  forall ext, extension p = Some ext -> ("." ++ to_lowercase ext) ∉ deny_extensions g.

(** What [check_write] requires of a path. *)
Record writable `{UnicodeCase} (gitignored : str -> bool) (fs : Fs) (g : PathGuard) (p : str)
    : Prop := {
  wr_listed : is_path_denied (deny_list g) p = false;
  wr_sandbox : forall dir, sandbox_dir g = Some dir -> exists a,
    anchored fs p a /\ inside fs dir a
    /\ (follow_symlinks g = true -> is_path_denied (deny_list g) a = false);
  wr_extension : extension_allowed g p;
  wr_dotfile : is_dotfile p = true ->
    block_dotfiles g = false /\ (block_gitignored_dotfiles g = true -> gitignored p = false);
  wr_size : path_exists fs p = true -> max_overwrite_size g <> 0%N ->
    exists ln, metadata fs p = Ok ln /\ (node_len fs ln <= max_overwrite_size g)%N;
  wr_link : path_exists fs p = true -> not_a_link fs p;
  wr_dirs : allowed_write_dirs g <> [] -> exists a d,
    anchored fs p a /\ d ∈ allowed_write_dirs g /\ inside fs d a
}.

Lemma inside_test fs d a :
  match canonicalize fs d with Ok cd => path_starts_with a cd | Err _ => false end = true
  <-> inside fs d a.
Proof.
  unfold inside. destruct (canonicalize fs d) as [cd|]; split; try done.
  - by exists cd.
  - by intros (s & [= ->] & H).
  - by intros (s & ? & _).
Qed.

Lemma write_sandbox_step_Ok fs g p u :
  write_sandbox_step fs g p = Ok u
  <-> (forall dir, sandbox_dir g = Some dir -> exists a,
        anchored fs p a /\ inside fs dir a
        /\ (follow_symlinks g = true -> is_path_denied (deny_list g) a = false)).
Proof.
  unfold write_sandbox_step, inside. destruct u, (sandbox_dir g) as [dir|]; [|naive_solver].
  rw result_bind_Ok. setoid_rewrite map_err_Ok. setoid_rewrite result_bind_Ok.
  setoid_rewrite write_anchor_Ok. setoid_rewrite do_Ok. setoid_rewrite deny_if_Ok.
  setoid_rewrite negb_false_iff. destruct (follow_symlinks g); simpl; naive_solver.
Qed.

Lemma write_extension_step_Ok `{UnicodeCase} g p u :
  write_extension_step g p = Ok u <-> extension_allowed g p.
Proof.
  unfold write_extension_step, extension_allowed. destruct u, (extension p) as [ext|]; [|done].
  rw deny_if_Ok -not_true_iff_false existsb_elem. setoid_rewrite str_eqb_eq. naive_solver.
Qed.

Lemma write_overwrite_step_Ok fs g p u :
  write_overwrite_step fs g p = Ok u
  <-> (path_exists fs p = true -> max_overwrite_size g <> 0%N ->
       exists ln, metadata fs p = Ok ln /\ (node_len fs ln <= max_overwrite_size g)%N).
Proof.
  unfold write_overwrite_step. destruct u, (path_exists fs p); [|rw andb_false_r; naive_solver].
  rw andb_true_r. destruct (0 <? max_overwrite_size g)%N eqn:E.
  - apply N.ltb_lt in E. rw result_bind_Ok. setoid_rewrite map_err_Ok. setoid_rewrite deny_if_Ok.
    setoid_rewrite N.ltb_ge. split; [naive_solver|]. intros H. apply H; [done|lia].
  - apply N.ltb_ge in E. split; [|done]. intros _ _ H. lia.
Qed.

Lemma write_link_step_Ok fs p u :
  write_link_step fs p = Ok u <-> (path_exists fs p = true -> not_a_link fs p).
Proof.
  unfold write_link_step, not_a_link. destruct u, (path_exists fs p); [|done].
  rw result_bind_Ok. setoid_rewrite map_err_Ok. setoid_rewrite deny_if_Ok. naive_solver.
Qed.

Lemma write_dirs_step_Ok fs g p u :
  write_dirs_step fs g p = Ok u
  <-> (allowed_write_dirs g <> [] -> exists a d,
        anchored fs p a /\ d ∈ allowed_write_dirs g /\ inside fs d a).
Proof.
  unfold write_dirs_step. destruct u. case_bool_decide as E; [naive_solver|].
  rw result_bind_Ok. setoid_rewrite write_anchor_Ok. setoid_rewrite deny_if_Ok.
  setoid_rewrite negb_false_iff. setoid_rewrite existsb_elem. setoid_rewrite inside_test.
  naive_solver.
Qed.

Lemma check_write_Allowed `{UnicodeCase} gitignored fs g p q :
  check_write gitignored fs g p = Allowed q <-> q = p /\ writable gitignored fs g p.
Proof.
  unfold check_write. rw verdict_Allowed !do_Ok !deny_if_Ok write_sandbox_step_Ok
    write_extension_step_Ok write_overwrite_step_Ok write_link_step_Ok write_dirs_step_Ok. split.
  - intros (? & ? & ? & Hd & Hg & ? & ? & ? & [= <-]). split; [done|]. constructor; try done.
    intros Hdot. rw Hdot in Hd Hg. rw andb_true_r in Hd. rw andb_true_r in Hg.
    split; [done|]. intros Hb. by rw Hb in Hg.
  - intros [-> [? ? ? Hd ? ? ?]]. split_and!; try done.
    + destruct (is_dotfile p); [|apply andb_false_r]. by destruct (Hd eq_refl) as [-> _].
    + destruct (is_dotfile p); [|by rw andb_false_r]. destruct (Hd eq_refl) as [_ Hg].
      destruct (block_gitignored_dotfiles g); [|done]. by apply Hg.
Qed.

(** ** Containment *)

Lemma canonicalize_inside fs dir p c :
  fs_wf fs -> canonicalize fs p = Ok c -> inside fs dir c ->
  exists s loc, canonicalize fs dir = Ok (show_loc s) /\ c = show_loc loc
    /\ resolve fs Follow p = Ok loc /\ s `prefix_of` loc.
Proof.
  intros Hw (loc & Hr & ->)%canonicalize_Ok (cs & (s & Hs & ->)%canonicalize_Ok & Hin).
  exists s, loc. destruct (follow_sound _ _ _ Hw Hr) as (n & Hn & _).
  destruct (follow_sound _ _ _ Hw Hs) as (m & Hm & _).
  apply starts_with_show_loc in Hin; [|by eapply node_at_valid..].
  split_and!; try done. apply canonicalize_Ok. by exists s.
Qed.

(** Reading through the canonical path is reading through the path. *)
Lemma metadata_canonical fs p c :
  fs_wf fs -> open_path fs (cwd fs) -> canonicalize fs p = Ok c -> metadata fs c = metadata fs p.
Proof.
  intros Hw Ho Hc. pose proof (canonicalize_idem _ _ _ Hw Ho Hc) as Hcc.
  apply canonicalize_Ok in Hc as (loc & Hr & ->).
  destruct (follow_sound _ _ _ Hw Hr) as (n & Hn & Hl).
  unfold metadata. rw Hr (resolve_show_loc fs Follow loc n) //; by eapply resolve_open.
Qed.

Lemma read_contained_lemma fs g dir p c b :
  fs_wf fs -> open_path fs (cwd fs) -> sandbox_dir g = Some dir ->
  check_read fs g p = Allowed c -> read_bytes fs p = Ok b ->
  exists s loc, canonicalize fs dir = Ok (show_loc s) /\ s `prefix_of` loc
    /\ node_at fs loc = Some (File b)
    /\ (max_read_size g = 0 \/ N.of_nat (length b) <= max_read_size g)%N
    /\ (block_binary_reads g = true -> forall x, x ∈ take 512 b -> x <> 0%N).
Proof.
  intros Hw Ho Hd (Ht & Hs & Hx)%check_read_Allowed Hb; [|done].
  pose proof (trav_resolved _ _ _ _ Ht) as Hc.
  destruct (canonicalize_inside fs dir p c Hw Hc (trav_sandbox _ _ _ _ Ht dir Hd))
    as (s & loc & Hsd & _ & Hr & Hpre).
  pose proof (metadata_canonical fs p c Hw Ho Hc) as Hm.
  assert (read_bytes fs c = Ok b) as Hbc by (unfold read_bytes in *; by rw Hm).
  unfold read_bytes in Hb. apply result_bind_Ok in Hb as ([loc' n] & Hmp & Hb).
  assert (loc' = loc /\ node_at fs loc = Some n) as [-> Hn].
  { unfold metadata in Hmp. rw Hr in Hmp. simpl in Hmp. unfold stat_at in Hmp.
    destruct (node_at fs loc) as [n'|]; [|done]. by injection Hmp as [= <- <-]. }
  simpl in Hb. destruct (negb (may_read fs loc)); [done|]. destruct n as [b'| |]; [|done..].
  injection Hb as [= ->]. exists s, loc. split_and!; try done.
  - destruct Hs as [->|(ln & Hln & Hle)]; [by left|right].
    rw Hm Hmp in Hln. by injection Hln as [= <-].
  - intros Hbin. destruct (Hx Hbin) as (b' & Hb' & Hnul). rw Hbc in Hb'. by injection Hb' as [= <-].
Qed.

(** ** The read gate *)

Definition mark_all (fs : Fs) (ps : list str) (g : ReadGate) : ReadGate :=
  foldl (fun g p => mark_read fs p g) g ps.

Definition same_file (fs : Fs) (p q : str) : Prop :=
  components (path_key fs p) = components (path_key fs q).

#[global] Instance same_file_dec fs p q : Decision (same_file fs p q).
Proof. unfold same_file. apply _. Defined.

Definition reads_of (g : ReadGate) (k : list component) : nat :=
  match access_counts g !! k with Some (_, n) => n | None => 0 end.

Lemma mark_read_reads fs p g k :
  reads_of (mark_read fs p g) k
  = (if bool_decide (components (path_key fs p) = k) then 1 else 0) + reads_of g k.
Proof.
  unfold reads_of, mark_read. simpl. case_bool_decide as Hne; [subst k|].
  - rw lookup_insert_eq. by destruct (access_counts g !! _) as [[? n]|].
  - by rw lookup_insert_ne.
Qed.

Lemma mark_all_spec fs ps g q :
  (was_read fs q (mark_all fs ps g) = true
   <-> was_read fs q g = true \/ exists p, p ∈ ps /\ same_file fs p q)
  /\ reads_of (mark_all fs ps g) (components (path_key fs q))
     = length (filter (fun p => same_file fs p q) ps) + reads_of g (components (path_key fs q)).
Proof.
  revert g. induction ps as [|p ps IH]; intros g.
  { split; [|done]. split; [by left|]. by intros [?|(p & ?%elem_of_nil & _)]. }
  change (mark_all fs (p :: ps) g) with (mark_all fs ps (mark_read fs p g)).
  destruct (IH (mark_read fs p g)) as [-> ->]. split.
  - unfold was_read at 1, mark_read. cbn [read_files]. rw bool_decide_eq_true elem_of_union
      elem_of_singleton. unfold was_read. rw bool_decide_eq_true.
    setoid_rewrite elem_of_cons. unfold same_file. naive_solver.
  - rw mark_read_reads filter_cons. unfold same_file.
    case_bool_decide; case_decide; try done. simpl. lia.
Qed.

(** A path the guard resolved passes the gate exactly when its file was read, under
    whatever name. *)
Lemma check_edit_spec fs ps path resolved :
  check_edit fs path resolved (mark_all fs ps ReadGate_new) = Allowed path
  <-> exists p, p ∈ ps /\ same_file fs p resolved.
Proof.
  pose proof (proj1 (mark_all_spec fs ps ReadGate_new resolved)) as H.
  unfold was_read in H. unfold check_edit. case_bool_decide as E.
  - split; [|done]. intros _. destruct (proj1 H eq_refl) as [Hn|?]; [|done].
    apply bool_decide_eq_true in Hn. set_solver.
  - split; [done|]. intros Hp. by discriminate (proj2 H (or_intror Hp)).
Qed.

(** *** The most read files *)

Definition at_least (a b : str * nat) : Prop := b.2 <= a.2.

Lemma top_bound entries e :
  e ∈ entries -> (N.of_nat e.2 <= foldr (fun e : str * nat => N.max (N.of_nat e.2)) 0 entries)%N.
Proof.
  induction entries as [|x l IH]; [by intros ?%elem_of_nil|].
  intros [->|H]%elem_of_cons; simpl; [lia|]. specialize (IH H). lia.
Qed.

Lemma sorted_app {A} (R : A -> A -> Prop) l k :
  StronglySorted R (l ++ k) -> StronglySorted R l /\ forall x y, x ∈ l -> y ∈ k -> R x y.
Proof.
  induction l as [|a l IH]; simpl; intros Hs.
  - split; [constructor|]. by intros x y ?%elem_of_nil.
  - inversion Hs as [|? ? Hs' Hall]; subst. destruct (IH Hs') as [Hl Hr].
    apply Forall_app in Hall as [Ha Hk]. split; [by constructor|].
    intros x y [->|Hx]%elem_of_cons Hy; [|by apply Hr].
    rw List.Forall_forall in Hk. apply Hk. by apply list_elem_of_In.
Qed.

Lemma StronglySorted_impl {A} (R S : A -> A -> Prop) l :
  (forall x y, x ∈ l -> y ∈ l -> R x y -> S x y) -> StronglySorted R l -> StronglySorted S l.
Proof.
  intros H Hs. induction Hs as [|x l Hs IH Hall]; [constructor|]. constructor.
  - apply IH. intros a b Ha Hb. apply H; by right.
  - rw !List.Forall_forall in Hall |- *. intros y Hy. apply H; [by left| |by apply Hall].
    right. by apply list_elem_of_In.
Qed.

Lemma top_files_spec entries n :
  exists top rest, top_files entries n = map fst top
    /\ Permutation entries (top ++ rest)
    /\ length top = Nat.min n (length entries)
    /\ StronglySorted at_least top
    /\ forall a b, a ∈ top -> b ∈ rest -> at_least a b.
Proof.
  unfold top_files. set (m := foldr _ 0%N entries). set (key := fun e : str * nat => (m - N.of_nat e.2)%N).
  exists (take n (sort_by key entries)), (drop n (sort_by key entries)).
  rw take_drop. assert (StronglySorted at_least (sort_by key entries)) as Hs.
  { eapply StronglySorted_impl; [|apply (sort_by_sorted key)]. intros x y Hx Hy.
    rw (sort_by_perm key) in Hx. rw (sort_by_perm key) in Hy.
    apply top_bound in Hx, Hy. fold m in Hx, Hy. unfold key, at_least. lia. }
  split_and!; [done|by rw sort_by_perm| | |].
  - by rw length_take sort_by_perm.
  - rw -(take_drop n (sort_by key entries)) in Hs. by apply sorted_app in Hs as [? _].
  - intros a b. rw -(take_drop n (sort_by key entries)) in Hs.
    apply sorted_app in Hs as [_ Hr]. apply Hr.
Qed.

(** ** Gaps *)

(** A new file named without a directory has the empty path as its parent, which does
    not resolve: the [unwrap_or(".")] of the guard is never reached. *)
Lemma bare_new_file_denied `{UnicodeCase} gitignored fs g dir p :
  sandbox_dir g = Some dir -> parent p = Some [] -> path_exists fs p = false ->
  forall q, check_write gitignored fs g p <> Allowed q.
Proof.
  intros Hd Hp He q (-> & Hw)%check_write_Allowed.
  destruct (wr_sandbox _ _ _ _ Hw dir Hd) as (a & Ha & _). unfold anchored in Ha.
  by rw He Hp in Ha.
Qed.

(** globset, for the one pattern that matters here. *)
Definition ssh_glob (pat : str) : option (str -> bool) :=
  if str_eqb pat "**/.ssh/**" then Some (fun p => contains p "/.ssh/") else Some (fun _ => false).

Definition ssh_tree : Fs :=
  tree [([lit "w"], Dir); ([lit "w"; lit "d"], Link "/h/.ssh"); ([lit "h"], Dir);
        ([lit "h"; lit ".ssh"], Dir); ([lit "h"; lit ".ssh"; lit "id"], File [7%N])] [lit "w"].

(** With links not followed, only the last component is looked at and the resolved
    path is not matched against the deny list again: a link to a denied directory
    opens what is in it.  The path itself is denied. *)
Lemma denied_behind_directory_link :
  check_read ssh_tree (PathGuard_default ssh_glob) "/w/d/id" = Allowed "/h/.ssh/id"
  /\ check_read ssh_tree (PathGuard_default ssh_glob) "/h/.ssh/id"
     = Denied "Path denied by deny list: /h/.ssh/id"
  /\ read_bytes ssh_tree "/w/d/id" = Ok [7%N].
Proof. vm_compute. done. Qed.

Definition sandboxed (dir : str) : PathGuard :=
  {| sandbox_dir := Some dir; deny_extensions := default_deny_extensions;
     block_dotfiles := false; block_gitignored_dotfiles := false;
     max_read_size := 1048576; max_overwrite_size := 1048576;
     deny_list := DenyList_default (fun _ => None); follow_symlinks := false;
     allowed_write_dirs := []; block_binary_reads := false |}.

Definition dangling_tree : Fs :=
  tree [([lit "w"], Dir); ([lit "w"; lit "l"], Link "/o/x"); ([lit "o"], Dir)] [lit "w"].

(** A link to a file that does not exist yet is not seen by the guard, since
    [exists] follows it; a write that follows it, too, leaves the sandbox. *)
Lemma dangling_link_escapes :
  check_write (H := ascii_case) (fun _ => false) dangling_tree (sandboxed "/w") "/w/l"
    = Allowed "/w/l"
  /\ (forall b, exists fs', plain_write dangling_tree "/w/l" b = Ok fs'
        /\ node_at fs' [lit "o"; lit "x"] = Some (File b)).
Proof.
  split; [by vm_compute|]. intros b.
  exists (with_nodes dangling_tree (<[[lit "o"; lit "x"] := File b]> (nodes dangling_tree))).
  split; [reflexivity|]. apply lookup_insert_eq.
Qed.

(** A search below a directory fails when binary files are blocked: the directory
    itself cannot be read. *)
Lemma binary_check_denies_directories fs g p c :
  fs_wf fs -> open_path fs (cwd fs) -> block_binary_reads g = true -> is_dir fs p = true ->
  check_read fs g p <> Allowed c.
Proof.
  intros Hw Ho Hb Hd (Ht & _ & Hx)%check_read_Allowed; [|done].
  destruct (Hx Hb) as (b & Hr & _). unfold read_bytes in Hr.
  rw (metadata_canonical fs p c Hw Ho (trav_resolved _ _ _ _ Ht)) in Hr.
  unfold is_dir in Hd. destruct (metadata fs p) as [[loc n]|]; [|done]. simpl in Hr.
  destruct (negb (may_read fs loc)); [done|]. by destruct n.
Qed.

(** ** Properties *)

(** C4.  A file that passes [check_read] under a sandbox is, when the path is opened
    afterwards, a file of the sandbox's tree, whatever links the path goes through; it
    is no longer than the limit and has no NUL where the binary check looks. *)
Theorem read_contained fs g dir p c b :
  fs_wf fs -> open_path fs (cwd fs) -> sandbox_dir g = Some dir ->
  check_read fs g p = Allowed c -> read_bytes fs p = Ok b ->
  exists s loc, canonicalize fs dir = Ok (show_loc s) /\ s `prefix_of` loc
    /\ node_at fs loc = Some (File b)
    /\ (max_read_size g = 0 \/ N.of_nat (length b) <= max_read_size g)%N
    /\ (block_binary_reads g = true -> forall x, x ∈ take 512 b -> x <> 0%N).
Proof. apply read_contained_lemma. Qed.

Definition small_tree : Fs :=
  tree [([lit "w"], Dir); ([lit "w"; lit "f"], File [7%N]); ([lit "w"; lit "d"], Dir);
        ([lit "w"; lit "d"; lit "l"], Link "../f")] [lit "w"].

Lemma tree_wf l c :
  Forall (fun e => Forall valid_name e.1
    /\ match rev e.1 with
       | [] => False
       | _ :: r => node_at (tree l c) (rev r) = Some Dir
       end) l ->
  node_at (tree l c) c = Some Dir -> fs_wf (tree l c).
Proof.
  intros Hl Hc. assert (forall loc n, nodes (tree l c) !! loc = Some n -> (loc, n) ∈ l) as He.
  { intros loc n. apply elem_of_list_to_map_2. }
  rw Forall_forall in Hl. constructor; [| |done].
  - intros loc n Hn. by apply (Hl (loc, n)), He.
  - intros loc x n Hn. apply He in Hn. apply Hl in Hn as [_ Hp]. simpl in Hp.
    by rw rev_unit rev_involutive in Hp.
Qed.

Lemma small_tree_wf : fs_wf small_tree.
Proof.
  apply tree_wf; [|done]. repeat constructor; try done.
  all: by apply (bool_decide_unpack (valid_name _)).
Qed.

Lemma small_tree_open : open_path small_tree (cwd small_tree).
Proof. by intros a c b _. Qed.

Lemma read_contained_witness :
  exists s loc, canonicalize small_tree "/w" = Ok (show_loc s) /\ s `prefix_of` loc
    /\ node_at small_tree loc = Some (File [7%N])
    /\ (max_read_size (sandboxed "/w") = 0
        \/ N.of_nat (length [7%N]) <= max_read_size (sandboxed "/w"))%N
    /\ (block_binary_reads (sandboxed "/w") = true -> forall x, x ∈ take 512 [7%N] -> x <> 0%N).
Proof.
  apply (read_contained small_tree (sandboxed "/w") "/w" "d/../f" "/w/f" [7%N]).
  - apply small_tree_wf.
  - apply small_tree_open.
  - reflexivity.
  - reflexivity.
  - reflexivity.
Defined.

(** C5.  [check_write] lets through exactly the paths that no guard objects to: not on
    the deny list; the path (or the directory of a new file) inside the sandbox, and,
    when links are followed, not denied there; extension and dotfile rules; the file
    that would be overwritten within the limit and not a link; inside one of the
    allowed directories.  The verdict carries the path as it was given. *)
Theorem check_write_iff `{UnicodeCase} gitignored fs g p q :
  check_write gitignored fs g p = Allowed q <-> q = p /\ writable gitignored fs g p.
Proof. apply check_write_Allowed. Qed.

(** The read gate opens for a path exactly when a file with the same resolved path
    was marked, under any name; each mark of it counts once. *)
Lemma read_gate_exact fs ps path resolved :
  (check_edit fs path resolved (mark_all fs ps ReadGate_new) = Allowed path
   <-> exists p, p ∈ ps /\ same_file fs p resolved)
  /\ reads_of (mark_all fs ps ReadGate_new) (components (path_key fs resolved))
     = length (filter (fun p => same_file fs p resolved) ps).
Proof.
  split; [apply check_edit_spec|]. rw (proj2 (mark_all_spec fs ps ReadGate_new resolved)).
  by rw /reads_of lookup_empty Nat.add_0_r.
Qed.
