(* ===== verification/Routing.v ===== *)
(** * Correction decisions, task profiles and rates

    The pure part of [crates/kf-orchestrator/src/routing]: the packet of verification
    state, the decision after a turn and the truth table of the final verdict
    ([correction.rs]), the task profiles and their detection ([profile.rs]), and the
    rates of the providers ([cost.rs]).

    The crate [regex] is the parameter [RegexLib]. *)

From S2P Require Import Prelude Machine.

(** [RegexSet::matches]: the indexes of the patterns that match, ascending;
    [Regex::find_iter]: the byte ranges of the matches, in order; [replace_all]. *)
Class RegexLib := {
  regex_set_matches : list str -> str -> list nat;
  regex_find_iter : str -> str -> list (N * N);
  regex_replace_all : str -> str -> str -> str
}.

(** ** The packet *)

Record Changes := mkChanges {
  files_changed : Z;
  changed_paths : list str;
  insertions : Z;
  deletions : Z
}.
Record GraphState := mkGraph { edge_count : Z; new_edges : Z; broken_edges : Z; cycles : Z }.
Record LintState := mkLint { lint_errors : Z; lint_warnings : Z }.
Record TypesState := mkTypes { type_errors : Z }.
Record SecurityState := mkSecurity { findings : Z; critical : Z; high : Z }.

Inductive OverallVerdict := Pass | Fail | Warn | Unknown.

#[export] Instance OverallVerdict_eq_dec : EqDecision OverallVerdict.
Proof. solve_decision. Defined.

(** [format!("{:?}", v)] and its lower case. *)
Definition verdict_debug (v : OverallVerdict) : str :=
  match v with Pass => "Pass" | Fail => "Fail" | Warn => "Warn" | Unknown => "Unknown" end.
Definition verdict_lowercase (v : OverallVerdict) : str :=
  match v with Pass => "pass" | Fail => "fail" | Warn => "warn" | Unknown => "unknown" end.

Record Verification := mkVerification {
  lint : LintState;
  types : TypesState;
  security : SecurityState;
  overall : OverallVerdict
}.

Record VerifierPolicy := mkPolicy {
  required : list str;
  advisory : list str;
  missing_required : list str;
  skipped_required : list str
}.

Record ReducedStatePacket := mkPacket {
  pk_task_id : str;
  pk_turn : Z;
  pk_ts : str;
  changes : Changes;
  graph : GraphState;
  verification : Verification;
  verifier_policy : option VerifierPolicy
}.

Definition default_verification : Verification :=
  mkVerification (mkLint 0 0) (mkTypes 0) (mkSecurity 0 0 0) Unknown.
Definition default_packet : ReducedStatePacket :=
  mkPacket [] 0 [] (mkChanges 0 [] 0 0) (mkGraph 0 0 0 0) default_verification None.

(** ** [decide_correction] *)

Inductive CorrectionAction := Accept | Escalate | Correct.

Record CorrectionDecision := mkDecision {
  action : CorrectionAction;
  decision_rationale : str;
  correction_prompt : option str;
  correction_count : Z;
  worker_tokens : Z;
  session_tokens : Z
}.

Inductive SlotPolicy := Required | Advisory | Absent.

Definition slot_policy (policy : option VerifierPolicy) (slot : str) : SlotPolicy :=
  match policy with
  | None => Required
  | Some p =>
      if existsb (fun s => str_eqb s slot) (required p) then Required
      else if existsb (fun s => str_eqb s slot) (advisory p) then Advisory
      else Absent
  end.

Definition is_required (p : SlotPolicy) : bool :=
  match p with Required => true | _ => false end.

Definition correction_prompt_for (packet : ReducedStatePacket) : str :=
  let v := verification packet in
  let sec := security v in
  if ((0 <? findings sec) || (0 <? critical sec) || (0 <? high sec))%Z then
    "address the reported security findings: " ++ show_Z (critical sec) ++ " critical, "
    ++ show_Z (high sec) ++ " high"
  else if (0 <? broken_edges (graph packet))%Z then
    "restore or update the broken imports (" ++ show_Z (broken_edges (graph packet))
    ++ " broken edges)"
  else if (0 <? lint_errors (lint v))%Z then
    "fix the reported lints (" ++ show_Z (lint_errors (lint v)) ++ " errors)"
  else if (0 <? type_errors (types v))%Z then
    "fix the type errors (" ++ show_Z (type_errors (types v)) ++ " errors)"
  else
    "targeted correction: overall=" ++ verdict_debug (overall v) ++ ", broken_edges="
    ++ show_Z (broken_edges (graph packet)) ++ ", lint_errors=" ++ show_Z (lint_errors (lint v)).

(** The cost of the session has reached the budget. *)
Definition over_cost (session_cost : f64) (max_cost : option f64) : option f64 :=
  match max_cost with
  | Some max => if f64_ge session_cost max then Some max else None
  | None => None
  end.

Definition cost_text (session_cost max : f64) : str :=
  "session cost $" ++ show_fixed 4 session_cost ++ " exceeds budget $" ++ show_fixed 4 max.

Definition failed_validator_text (rest : str) : str :=
  "taskPass: false (external validator failed); " ++ rest.

Definition decide_correction (packet : ReducedStatePacket) (correction_count max_corrections
    worker_tokens session_tokens : Z) (session_cost : f64) (max_cost : option f64)
    (task_pass : option bool) : CorrectionDecision :=
  let echo a r p := mkDecision a r p correction_count worker_tokens session_tokens in
  let v := verification packet in
  match task_pass with
  | Some true => echo Accept (lit "taskPass: true (external validator passed)") None
  | Some false =>
      if (max_corrections <=? correction_count)%Z then
        echo Escalate (failed_validator_text "exceeded corrections") None
      else match over_cost session_cost max_cost with
           | Some max => echo Escalate (failed_validator_text (cost_text session_cost max)) None
           | None => echo Correct (failed_validator_text "targeted correction")
                       (Some (correction_prompt_for packet))
           end
  | None =>
      if (0 <? critical (security v))%Z && is_required (slot_policy (verifier_policy packet) "security")
      then echo Escalate (lit "critical security finding") None
      else if (0 <? broken_edges (graph packet))%Z
              && is_required (slot_policy (verifier_policy packet) "graph")
      then echo Escalate (show_Z (broken_edges (graph packet)) ++ " broken import edges") None
      else if (max_corrections <=? correction_count)%Z
      then echo Escalate ("exceeded " ++ show_Z max_corrections ++ " corrections") None
      else match over_cost session_cost max_cost with
           | Some max => echo Escalate (cost_text session_cost max) None
           | None =>
               match overall v with
               | Pass => echo Accept (lit "verification passed") None
               | o => echo Correct ("verification " ++ verdict_debug o ++ "; targeted correction")
                        (Some (correction_prompt_for packet))
               end
           end
  end.

(** ** The truth table *)

Inductive FinalVerdict := FinalPass | FinalFail | FinalError | FinalUnknown.
Inductive SourceOfTruth := TaskValidator | Verifier.
Inductive ValidationStatus := StatusPass | StatusFail | StatusError | StatusSkipped | StatusOther.
Inductive FinalAction := FinalAccept | FinalEscalate.

#[export] Instance FinalAction_eq_dec : EqDecision FinalAction.
Proof. solve_decision. Defined.

Record TruthProfile := mkTruthProfile { truth_language : str; truth_validator_required : bool }.

Record TruthInput := mkTruthInput {
  truth_validation : ValidationStatus;
  has_validator : bool;
  truth_action : FinalAction;
  truth_packet : option ReducedStatePacket;
  truth_profile : TruthProfile;
  actual_mode : str;
  protocol_broken : bool
}.

Record TruthOutput := mkTruth {
  final_verdict : FinalVerdict;
  source_of_truth : SourceOfTruth;
  truth_reason : str
}.

Definition final_verdict_from_validation (v : ValidationStatus) : FinalVerdict :=
  match v with StatusPass => FinalPass | StatusFail => FinalFail | _ => FinalUnknown end.

Definition final_verdict_from_verifier (a : FinalAction) (packet : option ReducedStatePacket)
    : FinalVerdict :=
  match a, packet with
  | FinalAccept, Some p => match overall (verification p) with Pass => FinalPass | _ => FinalFail end
  | FinalAccept, None => FinalFail
  | FinalEscalate, Some p =>
      match overall (verification p) with Fail => FinalFail | _ => FinalUnknown end
  | FinalEscalate, None => FinalUnknown
  end.

Definition status_str (s : ValidationStatus) : str :=
  match s with
  | StatusPass => "pass" | StatusFail => "fail" | StatusError => "error"
  | StatusSkipped => "skipped" | StatusOther => "other"
  end.

Definition overall_or (none : str) (packet : option ReducedStatePacket) : str :=
  match packet with Some p => verdict_lowercase (overall (verification p)) | None => none end.

Definition final_action_str (a : FinalAction) : str :=
  match a with FinalAccept => "accept" | FinalEscalate => "escalate" end.

Definition compute_final_verdict (input : TruthInput) : TruthOutput :=
  if protocol_broken input then
    mkTruth FinalFail (if has_validator input then TaskValidator else Verifier)
      "protocol integrity broken (unterminated markers or truncated model output) — all artifact writes blocked"
  else if has_validator input then
    mkTruth (final_verdict_from_validation (truth_validation input)) TaskValidator
      ("validator result: " ++ status_str (truth_validation input))
  else if truth_validator_required (truth_profile input) then
    mkTruth FinalUnknown Verifier
      ("validator required for " ++ truth_language (truth_profile input)
       ++ " profile but not configured — verifier pass is advisory only")
  else if str_eqb (actual_mode input) "schema-contract" then
    match option_map (fun p => overall (verification p)) (truth_packet input) with
    | Some Pass =>
        mkTruth FinalUnknown Verifier
          "schema-contract validates structured output but does not persist files — pass cannot confirm code emission"
    | _ =>
        mkTruth (final_verdict_from_verifier (truth_action input) (truth_packet input)) Verifier
          ("schema-contract verifier outcome: " ++ overall_or "no packet" (truth_packet input))
    end
  else
    mkTruth (final_verdict_from_verifier (truth_action input) (truth_packet input)) Verifier
      ("verifier result: overall=" ++ overall_or "none" (truth_packet input)
       ++ ", action=" ++ final_action_str (truth_action input)).

Definition validation_outcome_for_memory (v : ValidationStatus) : str :=
  match v with StatusPass => "pass" | StatusFail => "fail" | _ => "error" end.

(** ** Task profiles *)

Inductive TaskLanguage :=
  Typescript | Javascript | Python | Shell | Cpp | C | Rust | Go | Sql | Text.

#[export] Instance TaskLanguage_eq_dec : EqDecision TaskLanguage.
Proof. solve_decision. Defined.

Definition language_str (l : TaskLanguage) : str :=
  match l with
  | Typescript => "typescript" | Javascript => "javascript" | Python => "python"
  | Shell => "shell" | Cpp => "cpp" | C => "c" | Rust => "rust" | Go => "go"
  | Sql => "sql" | Text => "text"
  end.

Record StructuredCheckCommand := mkCheck {
  check_program : str;
  check_args : list str;
  append_files : bool
}.

Record WritePolicy := mkWritePolicy { allow_overwrite : bool; deny_paths : list str }.

Record TaskProfile := mkProfile {
  profile_language : TaskLanguage;
  default_file : str;
  fence_languages : list str;
  check_command : str;
  structured_check : option StructuredCheckCommand;
  prompt_hint : str;
  allowed_extensions : list str;
  forbidden_extensions : list str;
  profile_verifiers : VerifierPolicy;
  validator_required : bool;
  write_policy : option WritePolicy
}.

Definition strs (l : list string) : list str := map lit l.

Definition policy (req adv : list string) : VerifierPolicy := mkPolicy (strs req) (strs adv) [] [].

(** The profiles of the languages whose verifiers are all advisory share their policy. *)
Definition all_advisory : VerifierPolicy := policy [] ["lint"; "types"; "security"; "graph"]%string.

(** The profiles, one insertion of [build_profiles] each. *)
Definition typescript_profile : TaskProfile :=
  (mkProfile Typescript "output.ts" (strs ["typescript"; "ts"]) "npx tsc --noEmit"
    (Some (mkCheck "npx" (strs ["tsc"; "--noEmit"]) false))
    "Emit TypeScript files. Prefer .ts paths."
    (strs [".ts"; ".tsx"; ".json"; ".css"; ".html"; ".txt"]) (strs [".py"; ".rs"; ".go"; ".sh"])
    (policy ["lint"; "types"; "security"] ["graph"]) false None)%string.

Definition javascript_profile : TaskProfile :=
  (mkProfile Javascript "output.js" (strs ["javascript"; "js"]) "node --check"
    (Some (mkCheck "node" (strs ["--check"]) true))
    "Emit JavaScript files. Prefer .js paths."
    (strs [".js"; ".jsx"; ".json"; ".css"; ".html"; ".txt"]) (strs [".py"; ".rs"; ".go"])
    (policy ["lint"; "security"] ["types"; "graph"]) false None)%string.

Definition python_profile : TaskProfile :=
  (mkProfile Python "solution.py" (strs ["python"; "py"]) "python3 -m py_compile"
    (Some (mkCheck "python3" (strs ["-m"; "py_compile"]) true))
    "Emit Python files. Prefer .py paths."
    (strs [".py"; ".txt"; ".toml"; ".cfg"]) (strs [".ts"; ".tsx"; ".js"; ".jsx"; ".d.ts"])
    (policy ["lint"; "types"] ["security"; "graph"]) false None)%string.

Definition shell_profile : TaskProfile :=
  (mkProfile Shell "solution.sh" (strs ["bash"; "sh"; "shell"]) "bash -n"
    (Some (mkCheck "bash" (strs ["-n"]) true))
    "Emit POSIX shell files. Prefer .sh paths. Install shellcheck for best results."
    (strs [".sh"; ".bash"; ".txt"]) (strs [".ts"; ".tsx"; ".js"; ".py"; ".rs"])
    (policy ["security"; "lint"] ["types"; "graph"]) true None)%string.

Definition cpp_profile : TaskProfile :=
  (mkProfile Cpp "solution.cpp" (strs ["cpp"; "c++"]) "g++ -fsyntax-only"
    (Some (mkCheck "g++" (strs ["-fsyntax-only"]) true))
    "Emit C++ files. Prefer .cpp paths."
    (strs [".cpp"; ".cc"; ".cxx"; ".h"; ".hpp"; ".txt"]) (strs [".ts"; ".tsx"; ".py"])
    all_advisory true None)%string.

Definition c_profile : TaskProfile :=
  (mkProfile C "solution.c" (strs ["c"]) "gcc -fsyntax-only"
    (Some (mkCheck "gcc" (strs ["-fsyntax-only"]) true))
    "Emit C files. Prefer .c paths."
    (strs [".c"; ".h"; ".txt"]) (strs [".ts"; ".tsx"; ".py"])
    all_advisory true None)%string.

Definition rust_profile : TaskProfile :=
  (mkProfile Rust "solution.rs" (strs ["rust"; "rs"]) "rustc --emit=metadata"
    (Some (mkCheck "rustc" (strs ["--emit=metadata"]) true))
    "Emit Rust files. Prefer .rs paths."
    (strs [".rs"; ".toml"; ".txt"]) (strs [".ts"; ".tsx"; ".py"])
    all_advisory true None)%string.

Definition go_profile : TaskProfile :=
  (mkProfile Go "main.go" (strs ["go"]) "go vet ./..."
    (Some (mkCheck "go" (strs ["vet"; "./..."]) false))
    "Emit Go files. Prefer .go paths."
    (strs [".go"; ".mod"; ".sum"; ".txt"]) (strs [".ts"; ".tsx"; ".py"])
    all_advisory true None)%string.

Definition sql_profile : TaskProfile :=
  (mkProfile Sql "query.sql" (strs ["sql"]) "" None
    "Emit SQL files. Prefer .sql paths."
    (strs [".sql"; ".txt"]) (strs [".ts"; ".tsx"; ".py"])
    all_advisory true None)%string.

Definition text_profile : TaskProfile :=
  (mkProfile Text "answer.txt" (strs ["text"]) "" None
    "Emit .txt or .md. Other extensions require explicit --language or --validator."
    (strs [".txt"; ".md"])
    (strs [".ts"; ".tsx"; ".js"; ".jsx"; ".py"; ".rs"; ".go"; ".sh"; ".bash"; ".exe"; ".dll";
           ".so"; ".json"; ".csv"; ".yaml"; ".yml"; ".toml"; ".xml"; ".html"; ".css"])
    all_advisory true (Some (mkWritePolicy false [])))%string.

Definition profile_for_language (l : TaskLanguage) : TaskProfile :=
  match l with
  | Typescript => typescript_profile
  | Javascript => javascript_profile
  | Python => python_profile
  | Shell => shell_profile
  | Cpp => cpp_profile
  | C => c_profile
  | Rust => rust_profile
  | Go => go_profile
  | Sql => sql_profile
  | Text => text_profile
  end.

(** The patterns, in order of precedence. *)
Definition DETECTION_RULES : list (TaskLanguage * str) :=
  map (fun r => (r.1, lit r.2))
  [(Python, "\b(?:python|py_compile|pytest|pandas|flask|django|cython|pip|requirements\.txt|csv|parquet|jupyter|notebook|classifier|debug.*program|broken-python|vul-flask)\b");
   (Shell, "\b(?:bash|shell|sh script|script|bucket|aws|s3|cron|unix|linux|command line|cli command|create-bucket)\b");
   (Cpp, "\b(?:c\+\+|cpp|g\+\+|clang\+\+|cmake|cpp-compatibility)\b");
   (C, "\b(?:gcc|clang|makefile|\.c\b|c program)\b");
   (Rust, "\b(?:rust|cargo|rustc)\b");
   (Go, "\b(?:golang|go test|go\.mod)\b");
   (Sql, "\b(?:sql|sqlite|postgres|query|database|simple-sql-query)\b");
   (Javascript, "\b(?:javascript|node\.?js|node --check|\.js|jsx)\b");
   (Typescript, "\b(?:typescript|\bts\b|tsc|\.ts|tsx|web scraper|form-filling|server endpoint|endpoint)\b")]%string.

(** The first pattern that matches decides; an index outside the table would panic. *)
Definition detect_task_profile `{RegexLib} (description : str) : option TaskProfile :=
  match regex_set_matches (map (fun r => "(?i)" ++ r.2) DETECTION_RULES) description with
  | [] => Some (profile_for_language Text)
  | i :: _ => option_map (fun r => profile_for_language r.1) (DETECTION_RULES !! i)
  end.

Definition extension_for_language `{UnicodeCase} (language : option str) : str :=
  match language with
  | None => ".txt"
  | Some l =>
      unwrap_or (lit ".txt") (assoc (to_lowercase l)
        (map (fun p => (lit p.1, lit p.2))
          [("python", ".py"); ("shell", ".sh"); ("bash", ".sh"); ("sh", ".sh"); ("cpp", ".cpp");
           ("c++", ".cpp"); ("c", ".c"); ("rust", ".rs"); ("go", ".go"); ("sql", ".sql");
           ("javascript", ".js"); ("js", ".js"); ("typescript", ".ts"); ("ts", ".ts")]%string))
  end.

(** ** Rates *)

(** Per thousand tokens of the prompt and of the completion. *)
Definition RATES : list (str * (f64 * f64)) :=
  [(lit "local-ollama", (decimal 0 1, decimal 0 1));
   (lit "openrouter-free", (decimal 0 1, decimal 0 1));
   (lit "nvidia-free", (decimal 0 1, decimal 0 1));
   (lit "openai", (decimal 15 5, decimal 6 4));
   (lit "anthropic", (decimal 8 4, decimal 4 3));
   (lit "deepseek", (decimal 14 6, decimal 28 6));
   (lit "google", (decimal 375 7, decimal 15 5));
   (lit "xai", (decimal 2 4, decimal 8 4));
   (lit "groq", (decimal 59 6, decimal 79 6));
   (lit "mistral", (decimal 2 4, decimal 6 4));
   (lit "cohere", (decimal 3 4, decimal 15 4))].

Definition resolve_cost_provider_key `{UnicodeCase} (provider : str) : str :=
  if existsb (fun r => str_eqb r.1 provider) RATES then provider
  else match find_first (fun r => starts_with (to_lowercase provider) r.1) RATES with
       | Some r => r.1
       | None => "local-ollama"
       end.

Definition estimate_simple_cost `{UnicodeCase} (provider : str)
    (prompt_tokens completion_tokens : Z) : f64 :=
  let rate := unwrap_or (f64_of_Z 0, f64_of_Z 0) (assoc (resolve_cost_provider_key provider) RATES) in
  f64_div (f64_add (f64_mul (f64_of_Z prompt_tokens) rate.1)
                   (f64_mul (f64_of_Z completion_tokens) rate.2)) (f64_of_Z 1000).

Example openai_rate : resolve_cost_provider_key (H := ascii_case) "OpenAI/gpt-4o" = lit "openai"
  /\ show_fixed 7 (estimate_simple_cost (H := ascii_case) "openai" 1000 500) = lit "0.0004500".
Proof. vm_compute. split; reflexivity. Qed.
