(* ===== verification/Correction.v ===== *)
(** * The correction loop

    Models [crates/kf-orchestrator/src/correction.rs] with what it calls: the records of
    [types.rs], the security scan of [verifier.rs], the reducer of [reducer.rs] and the
    decisions of [Routing].

    The delegate, the routing memory, the clock and the crates [regex] and [serde_json]
    (reading an [EmittedFileInfo]) are parameters; the files that are scanned are those
    of the file tree of [Paths]. *)

From Stdlib Require Import ssreflect.
From S2P Require Import Prelude Machine Paths Routing.

(** ** Delegation records *)

Inductive DelegationMode := Artifact | SchemaContract | HardPrompt | TaskDecompose.

Record TaskInput := mkTask {
  task_id : option str;
  task_description : str;
  task_context : option str;
  task_files : option (list str);
  mode_override : option DelegationMode;
  task_pass : option bool;
  suppress_memory : bool;
  task_language : option str;
  task_actor : option str
}.

Definition with_turn (t : TaskInput) (id description : str) : TaskInput :=
  mkTask (Some id) description (task_context t) (task_files t) (mode_override t) (task_pass t)
    (suppress_memory t) (task_language t) (task_actor t).

Record Emission := mkEmission {
  agent_id : str;
  em_content : str;
  prompt_tokens : Z;
  completion_tokens : Z;
  total_tokens : Z;
  reasoning_tokens : option Z;
  em_model : str;
  format : str;
  schema_contract : option json;
  finish_reason : option str;
  retried : bool
}.

Definition was_truncated (e : Emission) : bool :=
  match finish_reason e with
  | Some r => str_eqb r "length" || str_eqb r "max_tokens"
  | None => false
  end.

Record Signal := mkSignal {
  signal_id : str;
  signal_task_id : str;
  domain : str;
  kind : str;
  source : str;
  signal_ts : str;
  value : json;
  confidence : option f64
}.

Record DelegationDecisionInfo := mkDecisionInfo { mode : str; reason : str; auto_routed : bool }.

Record DelegationResult := mkResult {
  decision : DelegationDecisionInfo;
  emission : Emission;
  signals : list Signal;
  packet : option ReducedStatePacket;
  provider_resolved : option str;
  skills_loaded : option (list str)
}.

Record EmittedFileInfo := mkEmitted {
  emitted_path : str;
  sha256 : str;
  bytes_written : Z;
  before_hash : option str;
  existed : bool
}.

Definition is_write_signal (s : Signal) : bool :=
  str_eqb (kind s) "files.written" || str_eqb (kind s) "artifact.emitted".

Definition signal_files (s : Signal) : option (list json) :=
  if is_write_signal s then
    match json_get (value s) "files" with Some v => as_array v | None => None end
  else None.

(** A path of the list: a string, or the [path] of an object. *)
Definition written_path (f : json) : option str :=
  match as_str f with
  | Some s => Some s
  | None => match json_get f "path" with Some p => as_str p | None => None end
  end.

(** The first signal that carries a list of files decides. *)
Fixpoint extract_written (l : list Signal) : list str :=
  match l with
  | [] => []
  | s :: l' =>
      match signal_files s with
      | Some fs => List.filter (fun p => negb (str_eqb p [])) (omap written_path fs)
      | None => extract_written l'
      end
  end.
Definition extract_written_files (r : DelegationResult) : list str := extract_written (signals r).

Section Emitted.
(** [serde_json::from_value::<EmittedFileInfo>]. *)
Variable emitted_of : json -> option EmittedFileInfo.

(** The first such signal whose list is not empty decides. *)
Fixpoint extract_emitted (l : list Signal) : list EmittedFileInfo :=
  match l with
  | [] => []
  | s :: l' =>
      match signal_files s with
      | Some ((_ :: _) as fs) => omap emitted_of fs
      | _ => extract_emitted l'
      end
  end.
Definition extract_emission_files (r : DelegationResult) : list EmittedFileInfo :=
  extract_emitted (signals r).
End Emitted.

(** ** The security scan *)

Record SecurityFinding := mkFinding { rule_id : str; finding_file : str; finding_line : N }.

Inductive Lang := Js | Py.
#[export] Instance Lang_eq_dec : EqDecision Lang.
Proof. solve_decision. Defined.

Definition MAX_SCAN_BYTES : N := 2 ^ 20.

(** [Read::take]. *)
Definition read_at_most (n : N) (b : list N) : list N :=
  if (N.of_nat (length b) <=? n)%N then b else take (N.to_nat n) b.

(** A quote of either kind, as the patterns write it. *)
Definition q : str := "['\" ++ dquote ++ "]".

Definition RULE_SPEC : list (str * str * Lang) :=
  [("\[\s*" ++ q ++ "eval" ++ q ++ "\s*\]\s*\(", lit "no-bracket-eval", Js);
   ("\[\s*" ++ q ++ "Function" ++ q ++ "\s*\]", lit "no-bracket-function", Js);
   ("child_process\s*\[\s*" ++ q ++ "(?:exec|execSync|spawn|spawnSync|fork)" ++ q ++ "\s*\]\s*\(",
      lit "no-bracket-shell-exec", Js);
   (lit "child_process\s*\.\s*(?:exec|execSync)\s*\(", lit "no-shell-exec-concat", Js);
   ("require\s*\(\s*" ++ q ++ "child_process" ++ q
      ++ "\s*\)\s*\.\s*(?:exec|execSync|spawn|spawnSync)\s*\(", lit "no-required-shell-exec", Js);
   (lit "\bvm\s*\.\s*(?:runInContext|runInNewContext|compileFunction)\s*\(", lit "no-vm-codegen", Js);
   (lit "Reflect\s*\.\s*(?:apply|construct)\s*\(\s*eval\b", lit "no-reflect-eval", Js);
   (lit "\beval\s*\(", lit "py-eval", Py);
   (lit "\bexec\s*\(", lit "py-exec", Py);
   (lit "\bos\s*\.\s*(?:system|popen)\s*\(", lit "py-os-system", Py);
   (lit "subprocess\s*\.\s*(?:Popen|call|run|check_output|check_call)\s*\([^)]*?shell\s*=\s*True",
      lit "py-subprocess-shell", Py);
   ("(?:__builtins__\s*\[\s*" ++ q ++ "eval" ++ q ++ "|getattr\s*\(\s*__builtins__\s*,\s*" ++ q
      ++ "eval" ++ q ++ ")", lit "py-builtin-eval-alias", Py);
   (lit "\bpickle\s*\.\s*loads?\s*\(", lit "py-pickle-load", Py);
   (lit "\byaml\s*\.\s*load\s*\(", lit "py-yaml-load", Py)].

Definition JS_EXTS : list str := strs ["ts"; "tsx"; "mjs"; "cjs"; "js"; "jsx"; "mts"; "cts"]%string.

Definition lang_of_ext (ext : str) : option Lang :=
  if existsb (fun e => str_eqb e ext) JS_EXTS then Some Js
  else if str_eqb ext "py" then Some Py else None.

Definition strip_comments `{RegexLib} (src : str) (lang : Lang) : str :=
  let out := regex_replace_all "/\*[\s\S]*?\*/" src [] in
  let out := regex_replace_all "//[^\n]*" out [] in
  match lang with Py => regex_replace_all "(?m)^\s*#[^\n]*" out [] | Js => out end.

(** One more than the line feeds before the byte. *)
Definition line_of (src : str) (byte_idx : N) : N :=
  1 + N.of_nat (length (List.filter (fun b => (b =? 10)%N) (take (N.to_nat byte_idx) (utf8_encode src)))).

Definition scan_text `{RegexLib} (file clean : str) (lang : Lang) : list SecurityFinding :=
  RULE_SPEC ≫= fun rule =>
    if bool_decide (rule.2 = lang)
    then map (fun m => mkFinding rule.1.2 file (line_of clean m.1)) (regex_find_iter rule.1.1 clean)
    else [].

(** A file without a known extension, that cannot be read, or whose first MiB is not
    UTF-8, has no findings. *)
Definition scan_file `{RegexLib} (fs : Fs) (file : str) : list SecurityFinding :=
  match extension file ≫= lang_of_ext with
  | None => []
  | Some lang =>
      match read_bytes fs file with
      | Err _ => []
      | Ok b =>
          match from_utf8 (read_at_most MAX_SCAN_BYTES b) with
          | None => []
          | Some src => scan_text file (strip_comments src lang) lang
          end
      end
  end.

Definition scan_files `{RegexLib} (fs : Fs) (files : list str) : list SecurityFinding :=
  files ≫= scan_file fs.

Definition with_verification (p : ReducedStatePacket) (v : Verification) : ReducedStatePacket :=
  mkPacket (pk_task_id p) (pk_turn p) (pk_ts p) (changes p) (graph p) v (verifier_policy p).

Definition apply_security_findings (p : ReducedStatePacket) (found : list SecurityFinding)
    : ReducedStatePacket :=
  let v := verification p in
  let n := Z.of_nat (length found) in
  with_verification p
    (mkVerification (lint v) (types v) (mkSecurity n n 0)
       (match found with [] => overall v | _ :: _ => Fail end)).

(** ** The reducer *)

Definition fold_overall (l : LintState) (t : TypesState) (s : SecurityState) : OverallVerdict :=
  if ((0 <? critical s) || (0 <? lint_errors l) || (0 <? type_errors t))%Z then Fail
  else if ((0 <? findings s) || (0 <? high s) || (0 <? lint_warnings l))%Z then Warn
  else Pass.

Definition changes_from_result (emitted_of : json -> option EmittedFileInfo)
    (r : DelegationResult) : Changes :=
  let files := extract_emission_files emitted_of r in
  mkChanges (Z.of_nat (length files)) (map emitted_path files) 0 0.

(** [resolve], for a written path: [Path::join] keeps an absolute path. *)
Definition resolve_written (path cwd : str) : str :=
  if starts_with path "/" then path else path_join cwd path.

Definition reduce_result `{RegexLib} (emitted_of : json -> option EmittedFileInfo) (fs : Fs)
    (id : str) (turn : Z) (ts cwd : str) (r : DelegationResult) : ReducedStatePacket :=
  let ch := changes_from_result emitted_of r in
  let files := map (fun p => resolve_written p cwd) (changed_paths ch) in
  let found := scan_files fs files in
  let p := apply_security_findings
             (mkPacket id turn ts ch (mkGraph 0 0 0 0) default_verification None) found in
  let v := verification p in
  with_verification p
    (mkVerification (lint v) (types v) (security v) (fold_overall (lint v) (types v) (security v))).

(** ** The loop *)

Record TaskValidationResult := mkValidation {
  status : str;
  validator : str;
  validation_reason : option str;
  validator_duration : Z
}.

Definition skipped (validator reason : str) : TaskValidationResult :=
  mkValidation "skipped" validator (Some reason) 0.

Inductive ValidatorConfig :=
| ShellValidator (command : str) (timeout_ms : N)
| StructuredValidator (command : str) (args : list str) (cwd : option str) (timeout_ms : N).

Record CorrectionLoopConfig := mkLoopConfig {
  max_corrections : Z;
  max_cost : option f64;
  validator_config : option ValidatorConfig
}.

Record CorrectionLoopOutcome := mkOutcome {
  out_action : str;
  out_verdict : str;
  out_source : str;
  out_validation : TaskValidationResult;
  task_outcome : str;
  out_tokens : Z;
  out_cost : f64;
  validator_duration_ms : Z
}.

(** The fields of a [TaskObservationInput] that are set; the others keep their defaults. *)
Record TaskObservation := mkObservation {
  ob_task_id : str;
  ob_description : str;
  ob_language : str;
  ob_mode : str;
  ob_model : str;
  ob_provider_key : option str;
  ob_final_action : option str;
  ob_task_pass : option bool;
  ob_outcome : option str;
  ob_tokens : Z;
  ob_duration_ms : Z;
  ob_turns : option Z;
  ob_final_verdict : option str;
  ob_source_of_truth : option str
}.

Definition source_of_truth_str (s : SourceOfTruth) : str :=
  match s with TaskValidator => "task-validator" | Verifier => "verifier" end.
Definition final_verdict_str (t : TruthOutput) : str :=
  match final_verdict t with
  | FinalPass => "pass" | FinalFail => "fail" | FinalError => "error" | FinalUnknown => "unknown"
  end.

Definition kf_routing_validation (v : TaskValidationResult) : ValidationStatus :=
  if str_eqb (status v) "pass" then StatusPass
  else if str_eqb (status v) "fail" then StatusFail
  else if str_eqb (status v) "error" then StatusError
  else if str_eqb (status v) "skipped" then StatusSkipped
  else StatusOther.

Definition task_outcome_from_validation (v : TaskValidationResult) : str :=
  if str_eqb (status v) "pass" then "pass"
  else if str_eqb (status v) "fail" then "task_fail"
  else "validator_error".

(** The verdict of the external validator, if it ran. *)
Definition validation_pass (v : TaskValidationResult) : option bool :=
  if str_eqb (status v) "pass" then Some true
  else if str_eqb (status v) "fail" then Some false
  else None.

(** What one turn leaves to the next. *)
Record LoopState := mkLoop {
  ls_task : TaskInput;
  ls_task_id : str;
  ls_tokens : Z;
  ls_cost : f64;
  last_provider : option str;
  last_packet : option ReducedStatePacket;
  last_format : str;
  last_model : str;
  task_validation : TaskValidationResult
}.

Definition blank_lines : str := [10%N; 10%N].

Definition validator_feedback (v : TaskValidationResult) : str :=
  if str_eqb (status v) "fail" then
    blank_lines ++ "External task validator (" ++ validator v ++ ") " ++ status v ++ ": "
    ++ unwrap_or (lit "no reason") (validation_reason v)
  else [].

Section Loop.
Context `{RegexLib} `{UnicodeCase}.
Context {W : Type}.
(** [delegate.delegate_turn], the store's [write_task_observation] (whose outcome is
    ignored), the clock and the files. *)
Variable delegate_turn : TaskInput -> W -> result DelegationResult str * W.
Variable write_task_observation : TaskObservation -> W -> W.
Variable now_millis : W -> Z.
Variable files : W -> Fs.

(** The packet of the turn with the findings of the files it wrote. *)
Definition scanned_packet (r : DelegationResult) (wd : W) : ReducedStatePacket :=
  apply_security_findings (unwrap_or default_packet (packet r))
    (scan_files (files wd) (extract_written_files r)).

Definition pending_validation (c : CorrectionLoopConfig) (v : TaskValidationResult)
    : TaskValidationResult :=
  match validator_config c with
  | Some _ => skipped "pending-wo-29.7-followup" "validator configured but execution is deferred"
  | None => v
  end.

(** After the delegation of a turn. *)
Definition absorb (c : CorrectionLoopConfig) (s : LoopState) (r : DelegationResult) (wd : W)
    : LoopState :=
  let e := emission r in
  let key := unwrap_or (lit "local-ollama") (provider_resolved r) in
  mkLoop (ls_task s) (ls_task_id s) (i64_add (ls_tokens s) (total_tokens e))
    (f64_add (ls_cost s)
       (estimate_simple_cost (resolve_cost_provider_key key) (prompt_tokens e) (completion_tokens e)))
    (Some key) (Some (scanned_packet r wd)) (format e) (em_model e)
    (pending_validation c (task_validation s)).

Definition decide_turn (c : CorrectionLoopConfig) (turn : Z) (s : LoopState) (r : DelegationResult)
    : CorrectionDecision :=
  decide_correction (unwrap_or default_packet (last_packet s)) turn (max_corrections c)
    (total_tokens (emission r)) (ls_tokens s) (ls_cost s) (max_cost c)
    (match validation_pass (task_validation s) with
     | Some b => Some b
     | None => task_pass (ls_task s)
     end).

(** The task of the next turn. *)
Definition corrected (base_id : str) (turn : Z) (s : LoopState) (d : CorrectionDecision) : LoopState :=
  let next_id := base_id ++ "-c" ++ show_Z (i64_add turn 1) in
  let description := task_description (ls_task s) ++ blank_lines
                     ++ unwrap_or [] (correction_prompt d) ++ validator_feedback (task_validation s) in
  mkLoop (with_turn (ls_task s) next_id description) next_id (ls_tokens s) (ls_cost s)
    (last_provider s) (last_packet s) (last_format s) (last_model s) (task_validation s).

(** One turn; [None] goes on. *)
Definition run_turn (c : CorrectionLoopConfig) (base_id : str) (turn : Z) (s : LoopState) (wd : W)
    : option FinalAction * LoopState * W :=
  match delegate_turn (ls_task s) wd with
  | (Err _, wd') => (Some FinalEscalate, s, wd')
  | (Ok r, wd') =>
      let s' := absorb c s r wd' in
      let d := decide_turn c turn s' r in
      match action d with
      | Accept => (Some FinalAccept, s', wd')
      | Escalate => (Some FinalEscalate, s', wd')
      | Correct => (None, corrected base_id turn s' d, wd')
      end
  end.

Fixpoint run_turns (n : nat) (c : CorrectionLoopConfig) (base_id : str) (turn : Z) (s : LoopState)
    (wd : W) : FinalAction * LoopState * W :=
  match n with
  | 0%nat => (FinalEscalate, s, wd)
  | Datatypes.S n' =>
      match run_turn c base_id turn s wd with
      | (Some a, s', wd') => (a, s', wd')
      | (None, s', wd') => run_turns n' c base_id (turn + 1)%Z s' wd'
      end
  end.

(** [0..=max_corrections]. *)
Definition turns_of (c : CorrectionLoopConfig) : nat := Z.to_nat (max_corrections c + 1).

Definition start_state (task : TaskInput) (base_id : str) : LoopState :=
  mkLoop task base_id 0 (f64_of_Z 0) None None "unknown" "unknown"
    (skipped "none" "no task validator configured").

(** A configured validator that did not pass takes an acceptance back. *)
Definition validated_action (c : CorrectionLoopConfig) (s : LoopState) (a : FinalAction) : FinalAction :=
  match validator_config c with
  | Some _ => if str_eqb (status (task_validation s)) "pass" then a else FinalEscalate
  | None => a
  end.

Definition truth_of (c : CorrectionLoopConfig) (profile : TaskProfile) (s : LoopState)
    (a : FinalAction) : TruthOutput :=
  compute_final_verdict
    (mkTruthInput (kf_routing_validation (task_validation s)) (is_some_b (validator_config c)) a
       (last_packet s)
       (mkTruthProfile (language_str (profile_language profile)) (validator_required profile))
       (last_format s) false).

Definition observation_of (c : CorrectionLoopConfig) (profile : TaskProfile) (description : str)
    (s : LoopState) (a : FinalAction) (elapsed : Z) : TaskObservation :=
  let t := truth_of c profile s a in
  mkObservation (ls_task_id s) description (language_str (profile_language profile)) (last_format s)
    (last_model s) (last_provider s) (Some (final_action_str a)) (validation_pass (task_validation s))
    (Some (final_verdict_str t)) (ls_tokens s) elapsed (Some (i64_add (max_corrections c) 1))
    (Some (final_verdict_str t)) (Some (source_of_truth_str (source_of_truth t))).

(** [None] is the panic of [detect_task_profile] on an index outside its table. *)
Definition run_correction_loop (has_memory : bool) (task : TaskInput) (c : CorrectionLoopConfig) (wd : W)
    : option (CorrectionLoopOutcome * W) :=
  let description := task_description task in
  let base_id := unwrap_or ("task-" ++ show_Z (now_millis wd)) (task_id task) in
  match detect_task_profile description with
  | None => None
  | Some profile =>
      let started := now_millis wd in
      let '(a0, s, wd1) := run_turns (turns_of c) c base_id 0 (start_state task base_id) wd in
      let a := validated_action c s a0 in
      let t := truth_of c profile s a in
      let wd2 := if has_memory
                 then write_task_observation
                        (observation_of c profile description s a (now_millis wd1 - started)) wd1
                 else wd1 in
      Some (mkOutcome (final_action_str a) (final_verdict_str t) (source_of_truth_str (source_of_truth t))
              (task_validation s) (task_outcome_from_validation (task_validation s)) (ls_tokens s)
              (ls_cost s) (validator_duration (task_validation s)), wd2)
  end.
End Loop.

(** ** Facts about the decision *)

(** Whoever decides, the last permitted turn does not ask for a correction. *)
Lemma last_turn_decides p turn max wt st cost mc tp :
  (max <= turn)%Z -> action (decide_correction p turn max wt st cost mc tp) <> Correct.
Proof.
  intros Hm. apply Z.leb_le in Hm. unfold decide_correction. rw Hm.
  destruct tp as [[]|]; [done..|]. by repeat case_match.
Qed.

(** An acceptance is the word of the external validator, or a verification that passed. *)
Lemma accept_inv p turn max wt st cost mc tp :
  action (decide_correction p turn max wt st cost mc tp) = Accept ->
  tp = Some true \/ tp = None /\ overall (verification p) = Pass.
Proof.
  unfold decide_correction. destruct tp as [[]|]; [by left|by repeat case_match|].
  intros Ha. right. split; [done|]. by repeat case_match.
Qed.

Lemma pass_from_verifier a p :
  final_verdict_from_verifier a p = FinalPass ->
  a = FinalAccept /\ exists k, p = Some k /\ overall (verification k) = Pass.
Proof. destruct a, p as [k|]; simpl; repeat case_match; by eauto. Qed.

Lemma truth_pass_inv t :
  final_verdict (compute_final_verdict t) = FinalPass ->
  (has_validator t = true /\ truth_validation t = StatusPass)
  \/ has_validator t = false /\ truth_validator_required (truth_profile t) = false
     /\ actual_mode t <> lit "schema-contract" /\ truth_action t = FinalAccept
     /\ exists k, truth_packet t = Some k /\ overall (verification k) = Pass.
Proof.
  unfold compute_final_verdict.
  destruct (protocol_broken t); [done|]. destruct (has_validator t) eqn:Hv.
  { by destruct (truth_validation t); left. }
  destruct (truth_validator_required _) eqn:Hr; [done|]. destruct (str_eqb _ _) eqn:Hm; intros Hp.
  - exfalso. assert (final_verdict_from_verifier (truth_action t) (truth_packet t) = FinalPass
      /\ option_map (fun p => overall (verification p)) (truth_packet t) <> Some Pass) as [Hf Hn].
    { destruct (option_map _ _) as [[]|]; by split. }
    apply pass_from_verifier in Hf as (_ & k & Hk & Ho). apply Hn. by rw Hk /= Ho.
  - right. apply pass_from_verifier in Hp. by apply str_eqb_neq in Hm.
Qed.

Lemma final_verdict_str_pass t : final_verdict_str t = lit "pass" -> final_verdict t = FinalPass.
Proof. unfold final_verdict_str. by destruct (final_verdict t). Qed.

Lemma apply_security_overall p found :
  overall (verification (apply_security_findings p found)) = Pass ->
  found = [] /\ overall (verification p) = Pass.
Proof. by destruct found. Qed.

Section LoopFacts.
Context `{RegexLib} `{UnicodeCase}.
Context {W : Type}.
Variable delegate_turn : TaskInput -> W -> result DelegationResult str * W.
Variable files : W -> Fs.

(** Nothing in the loop runs the validator. *)
Definition not_validated (s : LoopState) : Prop := status (task_validation s) = lit "skipped".

Lemma absorb_not_validated c s r wd : not_validated s -> not_validated (absorb files c s r wd).
Proof. unfold not_validated, absorb, pending_validation. simpl. by destruct (validator_config c). Qed.

Lemma run_turns_not_validated n c base turn s wd a s' wd' :
  not_validated s -> run_turns delegate_turn files n c base turn s wd = (a, s', wd') -> not_validated s'.
Proof.
  revert turn s wd. induction n as [|n IH]; intros turn s wd Hs; simpl; [by intros [= <- <- <-]|].
  unfold run_turn. destruct (delegate_turn _ wd) as [[r|e] wd1]; [|by intros [= <- <- <-]].
  pose proof (absorb_not_validated c s r wd1 Hs) as Ha.
  destruct (action _); [by intros [= <- <- <-]..|]. by apply IH.
Qed.

(** The task keeps the verdict of the caller through every turn. *)
Lemma run_turns_accept n c base turn s wd s' wd' :
  run_turns delegate_turn files n c base turn s wd = (FinalAccept, s', wd') ->
  exists t s0 wd0 r turn', task_pass t = task_pass (ls_task s) /\ ls_task s0 = t
    /\ delegate_turn t wd0 = (Ok r, wd') /\ s' = absorb files c s0 r wd'
    /\ action (decide_turn c turn' s' r) = Accept.
Proof.
  revert turn s wd. induction n as [|n IH]; intros turn s wd; simpl; [done|].
  unfold run_turn at 1. destruct (delegate_turn _ wd) as [[r|e] wd1] eqn:E; [|done].
  destruct (action _) eqn:Ha.
  - intros [= <- <-]. exists (ls_task s), s, wd, r, turn. done.
  - done.
  - intros Hr. apply IH in Hr as (t & s0 & wd0 & r0 & turn' & Ht & Hs).
    by exists t, s0, wd0, r0, turn'.
Qed.
End LoopFacts.

(** ** The calls of a run *)

(** The delegate with a log of the tasks it was given. *)
Definition logged {W} (delegate_turn : TaskInput -> W -> result DelegationResult str * W)
    (t : TaskInput) (wl : W * list TaskInput) : result DelegationResult str * (W * list TaskInput) :=
  let '(r, w') := delegate_turn t wl.1 in (r, (w', wl.2 ++ [t])).

(** A later turn of a task: another id and a description that goes on; nothing else. *)
Record follows (base : str) (turn : Z) (first t : TaskInput) : Prop := {
  follows_id : task_id t = Some (base ++ "-c" ++ show_Z turn);
  follows_description : exists more, task_description t = task_description first ++ blank_lines ++ more;
  follows_rest : t = with_turn first (base ++ "-c" ++ show_Z turn) (task_description t)
}.

Definition call_at (base : str) (turn : Z) (first t : TaskInput) (i : nat) : Prop :=
  match i with
  | 0%nat => t = first
  | Datatypes.S _ => follows base (turn + Z.of_nat i) first t
  end.

Lemma follows_trans base k k' a b c :
  follows base k a b -> follows base k' b c -> follows base k' a c.
Proof.
  intros [Hi (m & Hm) Hr] [Hi' (m' & Hm') Hr']. split; [done| |].
  - exists (m ++ blank_lines ++ m'). by rw Hm' Hm -!app_assoc.
  - rw Hr'. by rw Hr.
Qed.

Section Calls.
Context `{RegexLib} `{UnicodeCase}.
Context {W : Type}.
Variable delegate_turn : TaskInput -> W -> result DelegationResult str * W.
Variable files : W -> Fs.

Lemma corrected_follows base turn s d :
  in_i64 (turn + 1) -> follows base (turn + 1) (ls_task s) (ls_task (corrected base turn s d)).
Proof.
  intros Ht. unfold corrected. rw /i64_add i64_wrap_id; [done|]. split; [done| |done].
  by eexists.
Qed.

Lemma run_turn_logged c base turn s wd log :
  exists step s1 wd1,
    run_turn (logged delegate_turn) (fun p => files p.1) c base turn s (wd, log)
    = (step, s1, (wd1, log ++ [ls_task s]))
    /\ (step = None -> in_i64 (turn + 1) -> follows base (turn + 1) (ls_task s) (ls_task s1)).
Proof.
  unfold run_turn, logged. simpl. destruct (delegate_turn _ wd) as [[r|e] wd1]; [|by eexists _, _, _].
  destruct (action _) eqn:Ha; [by eexists _, _, _..|]. eexists _, _, _. split; [done|]. intros _ Hn.
  apply (corrected_follows base turn (absorb _ _ s r (wd1, _))), Hn.
Qed.

(** The call of this turn before those of the turns after it. *)
Lemma prepend_call base turn first log (log' : list TaskInput) n :
  (exists calls, log' = (log ++ [first]) ++ calls /\ length calls <= n
    /\ forall i t, calls !! i = Some t -> call_at base turn first t (Datatypes.S i)) ->
  exists calls, log' = log ++ calls /\ length calls <= Datatypes.S n
    /\ (0 < Datatypes.S n -> calls <> [])
    /\ forall i t, calls !! i = Some t -> call_at base turn first t i.
Proof.
  intros (calls & -> & Hl & Hc). exists (first :: calls). rw -app_assoc.
  split; [done|]. split; [simpl; lia|]. split; [done|]. intros [|i] t; [by intros [= <-]|apply Hc].
Qed.

Lemma run_turns_calls n c base turn s wd log a s' wd' log' :
  (forall k, (turn < k < turn + Z.of_nat n)%Z -> in_i64 k) ->
  run_turns (logged delegate_turn) (fun p => files p.1) n c base turn s (wd, log) = (a, s', (wd', log')) ->
  exists calls, log' = log ++ calls /\ length calls <= n /\ (0 < n -> calls <> [])
    /\ forall i t, calls !! i = Some t -> call_at base turn (ls_task s) t i.
Proof.
  revert turn s wd log. induction n as [|n IH]; intros turn s wd log Hb; simpl.
  { intros [= <- <- <- <-]. exists []. rw app_nil_r. split; [done|]. split; [done|].
    split; [lia|]. by intros i t. }
  destruct (run_turn_logged c base turn s wd log) as (step & s1 & wd1 & -> & Hnext).
  intros Hr. apply prepend_call. destruct step as [a0|].
  { injection Hr as <- <- <- <-. exists []. rw app_nil_r. split; [done|]. split; [simpl; lia|].
    by intros i t. }
  destruct n as [|n].
  { injection Hr as <- <- <- <-. exists []. rw app_nil_r. split; [done|]. split; [done|].
    by intros i t. }
  apply IH in Hr as (calls & -> & Hl & _ & Hc); [|intros k Hk; apply Hb; lia].
  exists calls. split; [done|]. split; [done|]. intros i t Ht. specialize (Hc i t Ht).
  assert (follows base (turn + 1) (ls_task s) (ls_task s1)) as Hf by (apply Hnext, Hb; [done|lia]).
  destruct i as [|i]; simpl in Hc |- *; [by subst t|].
  replace (turn + Z.of_nat (Datatypes.S (Datatypes.S i)))%Z
    with (turn + 1 + Z.of_nat (Datatypes.S i))%Z by lia. by eapply follows_trans.
Qed.
End Calls.

(** ** The reducer *)

(** The packet of a delegation passes exactly when the scan of the written files is
    clean, and is a failure otherwise; it never warns and is never unknown. *)
Lemma reduce_result_overall `{RegexLib} emitted_of fs id turn ts cwd r :
  let p := reduce_result emitted_of fs id turn ts cwd r in
  let found := scan_files fs (map (fun x => resolve_written x cwd) (changed_paths (changes p))) in
  critical (security (verification p)) = Z.of_nat (length found)
  /\ overall (verification p) = match found with [] => Pass | _ :: _ => Fail end
  /\ files_changed (changes p) = Z.of_nat (length (changed_paths (changes p))).
Proof.
  simpl. unfold reduce_result. simpl. rw length_map. split; [done|]. split; [|done].
  unfold fold_overall. simpl. destruct (scan_files _ _) as [|f found]; [done|]. by rw (proj2 (Z.ltb_lt 0 _)); [simpl; lia|].
Qed.

(** ** The turns of a run *)

Section Runs.
Context `{RegexLib} `{UnicodeCase}.
Context {W : Type}.
Variable delegate_turn : TaskInput -> W -> result DelegationResult str * W.
Variable write_task_observation : TaskObservation -> W -> W.
Variable now_millis : W -> Z.
Variable files : W -> Fs.

(** A delegation whose written files are clean, in a packet that passed. *)
Definition clean_turn (t : TaskInput) (r : DelegationResult) (wd' : W) : Prop :=
  (exists wd, delegate_turn t wd = (Ok r, wd'))
  /\ scan_files (files wd') (extract_written_files r) = []
  /\ overall (verification (unwrap_or default_packet (packet r))) = Pass
  /\ format (emission r) <> lit "schema-contract".

Lemma pass_sound_lemma has_memory task c wd o wd' :
  run_correction_loop delegate_turn write_task_observation now_millis files has_memory task c wd
  = Some (o, wd') ->
  out_verdict o = lit "pass" ->
  out_action o = lit "accept" /\ validator_config c = None /\ task_pass task <> Some false
  /\ (exists profile, detect_task_profile (task_description task) = Some profile
                      /\ validator_required profile = false)
  /\ exists t r wd1, clean_turn t r wd1.
Proof.
  unfold run_correction_loop. destruct (detect_task_profile _) as [profile|]; [|done].
  destruct (run_turns _ _ _ _ _ _ _ _) as [[a s] wd1] eqn:Hr. intros [= <- _]. simpl.
  intros Hp%final_verdict_str_pass%truth_pass_inv. simpl in Hp.
  assert (not_validated s) as Hs by (by eapply run_turns_not_validated, Hr).
  destruct Hp as [[_ Hk]|(Hv & Hq & Hm & Ha & k & Hk & Ho)].
  { exfalso. unfold kf_routing_validation in Hk. by rw Hs in Hk. }
  assert (validator_config c = None) as Hc by (by destruct (validator_config c)).
  rw /validated_action Hc in Ha. subst a. rw /validated_action Hc. split; [done|]. split; [done|].
  apply run_turns_accept in Hr as (t & s0 & wd0 & r & turn & Ht & Hs0 & Hd & -> & Hacc).
  simpl in Ht, Hk, Hm. injection Hk as <-. apply apply_security_overall in Ho as [Hscan Hov].
  split. { intros Hf. apply accept_inv in Hacc. unfold validation_pass in Hacc. rw Hs in Hacc.
           simpl in Hacc. rw Hs0 Ht Hf in Hacc. by destruct Hacc as [|[]]. }
  split; [by exists profile|]. exists t, r, wd1. split; [by exists wd0|]. done.
Qed.
End Runs.

(** ** Properties *)

(** C26.  A run is reported as passed only when some delegation earned it: its packet
    passed, the scan of the files it wrote found nothing, and it was not a
    schema contract.  The action is then accept, no external validator is configured
    (a configured one is not run, so it never passes), the caller did not mark the task
    as failed, and the language of the task asks for no validator. *)
Theorem correction_pass_sound `{RegexLib} `{UnicodeCase} {W} delegate_turn write_task_observation
    now_millis (files : W -> Fs) has_memory task c wd o wd' :
  run_correction_loop delegate_turn write_task_observation now_millis files has_memory task c wd
  = Some (o, wd') ->
  out_verdict o = lit "pass" ->
  out_action o = lit "accept" /\ validator_config c = None /\ task_pass task <> Some false
  /\ (exists profile, detect_task_profile (task_description task) = Some profile
                      /\ validator_required profile = false)
  /\ exists t r wd1, clean_turn delegate_turn files t r wd1.
Proof. apply pass_sound_lemma. Qed.

(** A run delegates at least once and at most [max_corrections + 1] times.  The
    first call gets the task as it is; the call after [i] corrections gets the same task
    under the id with the suffix [-ci], its description continued. *)
Lemma correction_calls_bounded `{RegexLib} `{UnicodeCase} {W} delegate_turn write_task_observation
    now_millis (files : W -> Fs) has_memory task c wd o wd' calls :
  (0 <= max_corrections c < 2 ^ 63)%Z ->
  run_correction_loop (logged delegate_turn)
    (fun ob p => (write_task_observation ob p.1, p.2)) (fun p => now_millis p.1) (fun p => files p.1)
    has_memory task c (wd, []) = Some (o, (wd', calls)) ->
  (1 <= Z.of_nat (length calls) <= max_corrections c + 1)%Z
  /\ forall i t, calls !! i = Some t ->
     call_at (unwrap_or ("task-" ++ show_Z (now_millis wd)) (task_id task)) 0 task t i.
Proof.
  intros Hc. unfold run_correction_loop. destruct (detect_task_profile _) as [profile|]; [|done].
  destruct (run_turns _ _ _ _ _ _ _ _) as [[a s] [wd1 log]] eqn:Hr. intros [= _ Hw].
  assert (log = calls) as -> by (by destruct has_memory; injection Hw).
  apply run_turns_calls in Hr as (k & -> & Hl & Hne & Hk).
  - simpl in Hk |- *. unfold turns_of in Hl, Hne. split; [|exact Hk].
    destruct k; [by exfalso; apply Hne; [lia|]|]. simpl in *. lia.
  - unfold in_i64, turns_of. intros k Hk. lia.
Qed.

(** ** Concrete runs *)

(** The one pattern the examples need, and a language without a validator. *)
Definition demo_regex : RegexLib := {|
  regex_set_matches := fun _ _ => [8];
  regex_find_iter := fun pat s =>
    if str_eqb pat "\beval\s*\(" then
      match find_sub "eval(" s with Some i => [(N.of_nat i, N.of_nat (i + 5))] | None => [] end
    else [];
  regex_replace_all := fun _ s _ => s
|}.

Definition written_signal (path : string) : Signal :=
  mkSignal "s" "t" "code" "files.written" "agent" "now"
    (JObj [(lit "files", JArr [JObj [(lit "path", JStr path)]])]) None.

Definition demo_result (v : OverallVerdict) (signals : list Signal) : DelegationResult :=
  mkResult (mkDecisionInfo [] [] false)
    (mkEmission "agent" "" 1000 500 1500 None "model" "artifact" None None false) signals
    (Some (with_verification default_packet
             (mkVerification (mkLint 0 0) (mkTypes 0) (mkSecurity 0 0 0) v)))
    (Some (lit "openai")) None.

Definition demo_task (tp : option bool) : TaskInput :=
  mkTask (Some (lit "t")) "d" None None None tp false None None.

Definition demo_files : unit -> Fs := fun _ => tree [] [].

(** Fails until the second correction. *)
Definition demo_turn (t : TaskInput) (wd : unit) : result DelegationResult str * unit :=
  (Ok (demo_result (if starts_with (unwrap_or [] (task_id t)) "t-c2" then Pass else Fail) []), wd).

Definition demo_config (max : Z) : CorrectionLoopConfig := mkLoopConfig max None None.

Lemma correction_pass_sound_witness :
  exists o, run_correction_loop (H := demo_regex) (H0 := ascii_case) demo_turn (fun _ wd => wd)
      (fun _ => 0%Z) demo_files true (demo_task None) (demo_config 3) tt = Some (o, tt)
    /\ out_tokens o = 4500%Z /\ out_action o = lit "accept" /\ task_pass (demo_task None) <> Some false.
Proof.
  eexists. split; [by vm_compute|]. split; [done|].
  edestruct (correction_pass_sound (H := demo_regex) (H0 := ascii_case) demo_turn (fun _ wd => wd)
    (fun _ => 0%Z) demo_files true (demo_task None) (demo_config 3) tt) as (Ha & _ & Ht & _).
  - by vm_compute.
  - done.
  - split; [exact Ha|exact Ht].
Defined.

Lemma correction_calls_bounded_witness :
  exists o calls, run_correction_loop (H := demo_regex) (H0 := ascii_case) (logged demo_turn)
      (fun _ p => (p.1, p.2)) (fun _ => 0%Z) (fun p => demo_files p.1) true (demo_task None)
      (demo_config 3) (tt, []) = Some (o, (tt, calls))
    /\ length calls = 3 /\ (1 <= Z.of_nat (length calls) <= 4)%Z.
Proof.
  eexists _, _. split; [by vm_compute|]. split; [done|].
  edestruct (correction_calls_bounded (H := demo_regex) (H0 := ascii_case) demo_turn (fun _ wd => wd)
    (fun _ => 0%Z) demo_files true (demo_task None) (demo_config 3) tt) as [Hl _].
  - done.
  - by vm_compute.
  - exact Hl.
Defined.

(** The word of the caller's validator is accepted, and reported as a failure when the
    packet has not passed. *)
Lemma accepted_but_failed :
  exists o, run_correction_loop (H := demo_regex) (H0 := ascii_case) demo_turn (fun _ wd => wd)
      (fun _ => 0%Z) demo_files true (demo_task (Some true)) (demo_config 3) tt = Some (o, tt)
    /\ out_action o = lit "accept" /\ out_verdict o = lit "fail".
Proof. eexists. split; [by vm_compute|]. done. Qed.

Definition evil_tree : Fs :=
  tree [([lit "p"], Dir); ([lit "p"; lit "a.py"], File (lit "eval(x)")); ([lit "w"], Dir)] [lit "w"].

Definition path_only (v : json) : option EmittedFileInfo :=
  match json_get v "path" ≫= as_str with
  | Some p => Some (mkEmitted p [] 0 None false)
  | None => None
  end.

(** The reducer resolves a written path against the directory of the orchestrator, the
    loop does not: when that is not the directory of the process, the critical finding
    of the reducer is overwritten, and the run is corrected instead of escalated. *)
Lemma rescan_erases_findings :
  let r := demo_result Pass [written_signal "a.py"] in
  let p := reduce_result (H := demo_regex) path_only evil_tree "t" 0 "0" "/p" r in
  let r' := mkResult (decision r) (emission r) (signals r) (Some p) (provider_resolved r) None in
  let p' := scanned_packet (H := demo_regex) (fun _ : unit => evil_tree) r' tt in
  let act k := action (decide_correction k 0 3 0 0 (f64_of_Z 0) None None) in
  critical (security (verification p)) = 1%Z /\ act p = Escalate
  /\ critical (security (verification p')) = 0%Z /\ act p' = Correct.
Proof. by vm_compute. Qed.
