(* ===== verification/Permission.v ===== *)
(** * Permission rules (src/shared/permission.rs)

    The rule list and its evaluation, the deny and allow matchers for bash
    commands, [suggest_rule], [detect_shadowed_rules] and [push_rule_unique],
    on top of the glob matcher (file Glob) and the normalizer and clause splitter
    of the safety gate (file BashSafety). *)

From S2P Require Import Prelude Glob BashSafety.

Inductive PermissionAction := Allow | Ask | Deny.
#[export] Instance PermissionAction_eq_dec : EqDecision PermissionAction.
Proof. solve_decision. Defined.

Record PermissionRule := mkRule {
  rule_tool : str;
  rule_key : str;
  rule_pattern : str;
  rule_action : PermissionAction
}.
#[export] Instance PermissionRule_eq_dec : EqDecision PermissionRule.
Proof. solve_decision. Defined.

Definition is_deny (a : PermissionAction) : bool := bool_decide (a = Deny).

Definition tool_matches (pattern tool : str) : bool :=
  str_eqb pattern "*" || str_eqb pattern tool.

(** [normalize_command_pattern]: a lone star becomes two, a pair is kept. *)
Fixpoint normalize_command_pattern (p : str) : str :=
  match p with
  | [] => []
  | c :: rest =>
      if (c =? star)%N then
        match rest with
        | d :: rest' =>
            if (d =? star)%N then star :: star :: normalize_command_pattern rest'
            else star :: star :: normalize_command_pattern rest
        | [] => [star; star]
        end
      else c :: normalize_command_pattern rest
  end.

Definition is_prefix_pattern (p : str) : bool :=
  ends_with p "/" || ends_with p " " || ends_with p [9%N].

(** The closure [matches_clause] of [deny_command_matches]. *)
Definition deny_matches_clause (pattern c : str) : bool :=
  let normalized := normalize_command_pattern pattern in
  let pattern_lower := to_ascii_lowercase normalized in
  let n := normalize_for_safety c in
  glob_match pattern_lower n
  || (is_prefix_pattern normalized && starts_with n pattern_lower).

Definition deny_command_matches (pattern command : str) : bool :=
  existsb (deny_matches_clause pattern) (split_compound_clauses command)
  || deny_matches_clause pattern command.

Definition allow_command_matches (pattern command : str) : bool :=
  let clauses := split_compound_clauses command in
  match clauses with
  | [] => glob_match pattern command
  | _ => forallb (fun c => glob_match pattern (normalize_for_safety c)) clauses
  end.

(** The [matched] test of [evaluate] on a string argument. *)
Definition pattern_matches (r : PermissionRule) (s : str) : bool :=
  if str_eqb (rule_tool r) "bash" && str_eqb (rule_key r) "command" then
    if is_deny (rule_action r) then deny_command_matches (rule_pattern r) s
    else allow_command_matches (rule_pattern r) s
  else glob_match (rule_pattern r) s.

(** The loop of [evaluate] from index [i] on. *)
Fixpoint evaluate_from (i : nat) (rules : list PermissionRule) (tool : str) (args : json)
    (default : PermissionAction) : PermissionAction * option nat :=
  match rules with
  | [] => (default, None)
  | r :: rest =>
      if negb (tool_matches (rule_tool r) tool) then evaluate_from (S i) rest tool args default
      else if str_eqb (rule_key r) "*" then (rule_action r, Some i)
      else match json_get args (rule_key r) with
           | Some v =>
               match as_str v with
               | Some s =>
                   if pattern_matches r s then (rule_action r, Some i)
                   else evaluate_from (S i) rest tool args default
               | None =>
                   if is_deny (rule_action r) then (Deny, Some i)
                   else evaluate_from (S i) rest tool args default
               end
           | None => evaluate_from (S i) rest tool args default
           end
  end.

Definition evaluate (rules : list PermissionRule) (tool : str) (args : json)
    (default : PermissionAction) : PermissionAction * option nat :=
  evaluate_from 0 rules tool args default.

Definition suggest_rule (tool : str) (args : json) : PermissionRule :=
  let arg k := unwrap_or [] (json_get args k ≫= as_str) in
  let '(key, pattern) :=
    if str_eqb tool "bash" then (lit "command", arg "command")
    else if str_eqb tool "edit_file" || str_eqb tool "write_file" || str_eqb tool "read_file"
    then (lit "path", arg "path")
    else (lit "*", []) in
  mkRule tool key pattern Allow.

Definition rule_subsumes (earlier later : PermissionRule) : bool :=
  if negb (tool_matches (rule_tool earlier) (rule_tool later)) then false
  else if str_eqb (rule_key earlier) "*" then true
  else if negb (str_eqb (rule_key earlier) (rule_key later)) then false
  else
    (if str_eqb (rule_tool earlier) "bash" && str_eqb (rule_key earlier) "command"
        && is_deny (rule_action earlier)
     then
       let e_norm := normalize_command_pattern (rule_pattern earlier) in
       let later_pat := if is_deny (rule_action later)
                        then normalize_command_pattern (rule_pattern later)
                        else rule_pattern later in
       glob_match (to_ascii_lowercase e_norm) (to_ascii_lowercase later_pat)
       || (is_prefix_pattern e_norm
           && starts_with (to_ascii_lowercase later_pat) (to_ascii_lowercase e_norm))
     else false)
    || glob_match (rule_pattern earlier) (rule_pattern later).

(** The inner loop with its [break]: the first earlier rule that subsumes. *)
Fixpoint first_shadower (m : nat) (earlier : list PermissionRule) (later : PermissionRule)
    : option nat :=
  match earlier with
  | [] => None
  | e :: rest => if rule_subsumes e later then Some m else first_shadower (S m) rest later
  end.

Fixpoint detect_from (n : nat) (seen rules : list PermissionRule) : list (nat * nat) :=
  match rules with
  | [] => []
  | later :: rest =>
      match first_shadower 0 seen later with
      | Some m => [(n, m)]
      | None => []
      end ++ detect_from (S n) (seen ++ [later]) rest
  end.

Definition detect_shadowed_rules (rules : list PermissionRule) : list (nat * nat) :=
  detect_from 0 [] rules.

Definition push_rule_unique (rules : list PermissionRule) (new_rule : PermissionRule)
    : list PermissionRule :=
  let duplicate :=
    existsb (fun r => str_eqb (rule_tool r) (rule_tool new_rule)
                      && str_eqb (rule_key r) (rule_key new_rule)
                      && str_eqb (rule_pattern r) (rule_pattern new_rule)) rules in
  if duplicate then rules else rules ++ [new_rule].

(** ** Properties *)

(** *** Evaluation: first match wins *)

(** A rule fires on a call: it names the tool, and its key is the wildcard, or
    is bound to a matching string, or it is a deny rule bound to a non-string. *)
Definition fires (r : PermissionRule) (tool : str) (args : json) : Prop :=
  tool_matches (rule_tool r) tool = true
  /\ (rule_key r = lit "*"
      \/ exists v, json_get args (rule_key r) = Some v
         /\ ((exists s, v = JStr s /\ pattern_matches r s = true)
             \/ (as_str v = None /\ rule_action r = Deny))).

Lemma evaluate_cons i r rest tool args d :
  (fires r tool args /\ evaluate_from i (r :: rest) tool args d = (rule_action r, Some i))
  \/ (~ fires r tool args
      /\ evaluate_from i (r :: rest) tool args d = evaluate_from (S i) rest tool args d).
Proof.
  unfold fires. simpl.
  destruct (tool_matches (rule_tool r) tool); simpl; [|right; split; [by intros [? _] | done]].
  destruct (str_eqb (rule_key r) "*") eqn:Ek; to_prop; [by left; auto |].
  destruct (json_get args (rule_key r)) as [v|];
    [|right; split; [by intros [_ [?|(? & ? & _)]] | done]].
  destruct (as_str v) as [s|] eqn:Es.
  - assert (v = JStr s) as -> by (by destruct v; simplify_eq/=).
    destruct (pattern_matches r s) eqn:Em.
    + left. split; [|done]. split; [done |]. right. exists (JStr s). split; [done |].
      left. by exists s.
    + right. split; [|done].
      intros [_ [? | (v & [= <-] & [(s' & [= <-] & ?) | [? _]])]]; congruence.
  - unfold is_deny. case_bool_decide as Ed.
    + left. rewrite Ed. split; [|done]. split; [done |]. right. exists v. auto.
    + right. split; [|done].
      by intros [_ [? | (v' & [= <-] & [(s' & -> & ?) | [_ ?]])]].
Qed.

Lemma evaluate_from_spec i rules tool args d a o :
  evaluate_from i rules tool args d = (a, o) ->
  match o with
  | Some k => i <= k /\ exists r, rules !! (k - i) = Some r /\ a = rule_action r
      /\ fires r tool args
      /\ forall j r', j < k - i -> rules !! j = Some r' -> ~ fires r' tool args
  | None => a = d /\ forall r, r ∈ rules -> ~ fires r tool args
  end.
Proof.
  revert i. induction rules as [|r rest IH]; intros i.
  - simpl. intros [= <- <-]. split; [done |]. by intros r ?%elem_of_nil.
  - destruct (evaluate_cons i r rest tool args d) as [[Hf ->] | [Hf ->]].
    + intros [= <- <-]. split; [done |]. exists r. rewrite Nat.sub_diag.
      repeat (split; [done |]). intros; lia.
    + intros H. specialize (IH _ H). destruct o as [k|].
      * destruct IH as (Hk & r0 & Hr0 & -> & Hf0 & Hmin). split; [lia |].
        exists r0. replace (k - i) with (S (k - S i)) by lia.
        repeat (split; [done |]). intros [|j] r' Hj Hr'; [by injection Hr' as <- |].
        apply (Hmin j); [lia | done].
      * destruct IH as [-> Hall]. split; [done |].
        intros r' [-> | ?]%elem_of_cons; auto.
Qed.

(** C12.  Evaluation is first-match-wins and fail-closed: the reported rule
    fires, no earlier rule does, and the action is that rule's; the default is
    returned only when no rule fires; a deny rule whose key is bound to a
    non-string argument fires. *)
Theorem evaluate_first_match rules tool args d :
  match evaluate rules tool args d with
  | (a, Some k) =>
      exists r, rules !! k = Some r /\ a = rule_action r /\ fires r tool args
        /\ forall j r', j < k -> rules !! j = Some r' -> ~ fires r' tool args
  | (a, None) => a = d /\ forall r, r ∈ rules -> ~ fires r tool args
  end.
Proof.
  unfold evaluate. destruct (evaluate_from 0 rules tool args d) as [a o] eqn:E.
  apply evaluate_from_spec in E. destruct o as [k|]; [|done].
  rewrite Nat.sub_0_r in E. by destruct E as [_ ?].
Qed.

(** *** Compound commands *)

(** C13.  Rules see every command of a compound one: a permissive rule authorizes two
    commands joined by a separator only if it authorizes both, and a deny rule that refuses
    some clause of either refuses the whole, so a payload cannot hide behind another
    command.  The separators are [;], newline, carriage return, [&&], [||], [|] and a lone
    [&], each where it is the token between the two: [&&] not after another ampersand,
    [||] not after another bar, [|] next to no bar, and [&] next to no ampersand, to no
    [>], and not between two digits. *)
Theorem command_rules_per_clause pattern (a sep b : str) :
  separates a sep b ->
  split_compound_clauses a <> [] -> split_compound_clauses b <> [] ->
  allow_command_matches pattern (a ++ sep ++ b)
    = allow_command_matches pattern a && allow_command_matches pattern b
  /\ ((exists c, c ∈ split_compound_clauses a ++ split_compound_clauses b
        /\ deny_matches_clause pattern c = true) ->
      deny_command_matches pattern (a ++ sep ++ b) = true).
Proof.
  intros Hs Ha Hb. unfold allow_command_matches, deny_command_matches.
  rewrite (split_compound_join a sep b Hs). split.
  - destruct (split_compound_clauses a) as [|ca la]; [done |].
    destruct (split_compound_clauses b) as [|cb lb]; [done |].
    simpl app. cbv iota beta. rewrite <-forallb_app. done.
  - intros (c & Hc & Hm). apply orb_true_iff. left. apply existsb_elem. eauto.
Qed.

(** The separators of the example commands. *)
Lemma demo_separators :
  separates "cargo test " "&" " curl evil" /\ separates "ls" "&&" "rm -rf x" /\ separates "ls" "||" "rm -rf x"
  /\ separates "ls" "|" "rm -rf x" /\ separates "ls" ";" "rm -rf x".
Proof.
  split; [|split; [|split; [|split]]].
  - apply separates_background. split; [done |]. split; [done |]. split; [done |]. split; [done |].
    by intros (p & n & [= <-] & [= <-] & ? & ?).
  - by apply separates_and.
  - by apply separates_or.
  - by apply separates_pipe.
  - apply separates_hard. by left.
Qed.

Lemma command_rules_per_clause_witness :
  allow_command_matches "cargo test*" ("cargo test " ++ "&" ++ " curl evil") = false
  /\ deny_command_matches "RM*" ("ls" ++ "&&" ++ "rm -rf x") = true.
Proof.
  split.
  - transitivity (allow_command_matches "cargo test*" "cargo test "
                  && allow_command_matches "cargo test*" " curl evil");
      [|vm_compute; reflexivity].
    apply (command_rules_per_clause "cargo test*" "cargo test " "&" " curl evil");
      [apply demo_separators | vm_compute; discriminate | vm_compute; discriminate].
  - apply (command_rules_per_clause "RM*" "ls" "&&" "rm -rf x");
      [apply demo_separators | vm_compute; discriminate | vm_compute; discriminate |].
    exists (lit "rm -rf x"). split; [|vm_compute; reflexivity].
    vm_compute split_compound_clauses. right. by left.
Defined.

(** *** The promotion of lone stars *)

Definition promote (t : GlobToken) : GlobToken :=
  match t with SingleStar => DoubleStar | _ => t end.

Lemma normalize_stars k rest :
  match rest with c :: _ => c <> star | [] => True end ->
  exists m, normalize_command_pattern (replicate (S k) star ++ rest)
            = replicate (2 + m) star ++ normalize_command_pattern rest.
Proof.
  intros Hr.
  assert (H : forall n k, k <= n -> exists m,
    normalize_command_pattern (replicate (S k) star ++ rest)
            = replicate (2 + m) star ++ normalize_command_pattern rest); [|by apply (H k)].
  induction n as [|n IH]; intros k' Hk'.
  - assert (k' = 0) as -> by lia. exists 0. simpl.
    destruct rest as [|c rest]; simpl; [done |].
    by rewrite (proj2 (N.eqb_neq c star)).
  - destruct k' as [|[|k']]; [by apply IH; lia | |].
    + exists 0. done.
    + destruct (IH k') as [m Hm]; [lia |]. exists (2 + m).
      change (normalize_command_pattern (replicate (S (S (S k'))) star ++ rest))
        with (star :: star :: normalize_command_pattern (replicate (S k') star ++ rest)).
      by rewrite Hm.
Qed.

Lemma star_run_replicate k rest :
  match rest with c :: _ => c <> star | [] => True end ->
  star_run (replicate k star ++ rest) = (k, rest).
Proof.
  intros Hr. induction k as [|k IH]; simpl.
  - destruct rest as [|c rest]; simpl; [done |]. by rewrite (proj2 (N.eqb_neq c star)).
  - by rewrite IH.
Qed.

Lemma star_run_rest s : match snd (star_run s) with c :: _ => c <> star | [] => True end.
Proof.
  induction s as [|c s IH]; simpl; [done |].
  destruct (N.eqb_spec c star) as [->|]; [|done]. by destruct (star_run s).
Qed.

Lemma tokenize_fuel f g s : length s <= f -> length s <= g -> tokenize_from f s = tokenize_from g s.
Proof.
  revert g s; induction f as [|f IH]; intros g s Hf Hg.
  - destruct s; [by destruct g | simpl in Hf; lia].
  - destruct s as [|c s]; [by destruct g |]. destruct g as [|g]; [simpl in Hg; lia |].
    simpl in Hf, Hg. cbn [tokenize_from].
    destruct (star_run_spec s) as [_ Hle]. destruct (star_run s) as [k rest]; simpl in Hle.
    by rewrite (IH g rest), (IH g s) by lia.
Qed.

Lemma tokenize_stars k rest :
  match rest with c :: _ => c <> star | [] => True end ->
  tokenize_glob (replicate (S k) star ++ rest)
  = (if 2 <=? 1 + k then DoubleStar else SingleStar) :: tokenize_glob rest.
Proof.
  intros Hr. unfold tokenize_glob. simpl length.
  change (replicate (S k) star ++ rest) with (star :: replicate k star ++ rest).
  cbn [tokenize_from]. rewrite star_run_replicate by done. f_equal.
  apply tokenize_fuel; [|done]. rewrite length_app. lia.
Qed.

Lemma normalize_tokens p :
  tokenize_glob (normalize_command_pattern p) = map promote (tokenize_glob p).
Proof.
  assert (H : forall n p, length p <= n ->
    tokenize_glob (normalize_command_pattern p) = map promote (tokenize_glob p)); [|by apply (H _ p (le_n _))].
  induction n as [|n IH]; intros s Hs; (destruct s as [|c s]; simpl in Hs; [done | try lia]).
  destruct (N.eqb_spec c star) as [->|Hc].
  - destruct (star_run_spec s) as [Heq Hle]. pose proof (star_run_rest s) as Hrest.
    destruct (star_run s) as [k rest]. simpl in Heq, Hle, Hrest. rewrite Heq.
    change (star :: replicate k star ++ rest) with (replicate (S k) star ++ rest).
    rewrite tokenize_stars by done.
    destruct (normalize_stars k rest Hrest) as [m Hm]. rewrite Hm.
    change (replicate (2 + m) star) with (replicate (S (S m)) star).
    rewrite tokenize_stars.
    + simpl. rewrite IH by lia. by destruct k.
    + destruct rest as [|d rest]; simpl; [done |]. by rewrite (proj2 (N.eqb_neq d star)).
  - assert (Hn : normalize_command_pattern (c :: s) = c :: normalize_command_pattern s)
      by (simpl; by rewrite (proj2 (N.eqb_neq c star))).
    rewrite Hn. unfold tokenize_glob. simpl length. cbn [tokenize_from].
    rewrite (proj2 (N.eqb_neq c star)) by done.
    case_test; simpl; f_equal; apply IH; lia.
Qed.

(** [normalize_command_pattern] makes every star cross slashes and changes
    nothing else; so a promoted deny pattern blocks at least what the written
    pattern matches, absolute paths included. *)
Lemma normalize_command_pattern_spec pattern :
  tokenize_glob (normalize_command_pattern pattern) = map promote (tokenize_glob pattern)
  /\ forall value, glob_match pattern value = true ->
     glob_match (normalize_command_pattern pattern) value = true.
Proof.
  split; [apply normalize_tokens |]. intros value.
  rewrite !glob_match_lang, normalize_tokens. intros (ws & HF & ->). exists ws. split; [|done].
  induction HF as [|t w ts ws Ht _ IH]; simpl; constructor; [|done]. by destruct t.
Qed.

(** *** Shadowed rules *)

Lemma first_shadower_Some m seen later k :
  first_shadower m seen later = Some k ->
  m <= k /\ exists e, seen !! (k - m) = Some e /\ rule_subsumes e later = true.
Proof.
  revert m; induction seen as [|e seen IH]; intros m; simpl; [done |].
  destruct (rule_subsumes e later) eqn:E.
  - intros [= <-]. split; [done |]. exists e. by rewrite Nat.sub_diag.
  - intros H. destruct (IH _ H) as (Hle & e' & He & ?). split; [lia |].
    exists e'. by replace (k - m) with (S (k - S m)) by lia.
Qed.

Lemma detect_from_elem n seen rules i j :
  length seen = n -> (i, j) ∈ detect_from n seen rules ->
  j < i /\ exists e l, (seen ++ rules) !! j = Some e /\ (seen ++ rules) !! i = Some l
    /\ rule_subsumes e l = true.
Proof.
  revert n seen; induction rules as [|l rules IH]; intros n seen Hn; simpl.
  { by intros ?%elem_of_nil. }
  rewrite elem_of_app. intros [H | H].
  - destruct (first_shadower 0 seen l) as [m|] eqn:E; [|by apply elem_of_nil in H].
    apply list_elem_of_singleton in H as [= -> ->].
    apply first_shadower_Some in E as (_ & e & He & Hs). rewrite Nat.sub_0_r in He.
    pose proof (lookup_lt_Some _ _ _ He). split; [lia |]. exists e, l.
    rewrite lookup_app_l by lia. rewrite lookup_app_r, <-Hn, Nat.sub_diag by lia. done.
  - apply IH in H; [|rewrite length_app; simpl; lia]. by rewrite <-app_assoc in H.
Qed.

(** The rules whose pattern is compared as a plain glob. *)
Definition plain_glob_rule (r : PermissionRule) : Prop :=
  ~ (rule_tool r = lit "bash" /\ rule_key r = lit "command").

Lemma pattern_matches_plain r s :
  plain_glob_rule r -> pattern_matches r s = glob_match (rule_pattern r) s.
Proof.
  unfold plain_glob_rule, pattern_matches. intros H.
  destruct (str_eqb (rule_tool r) "bash" && str_eqb (rule_key r) "command") eqn:E; [|done].
  to_prop. tauto.
Qed.

Lemma tool_matches_trans a b t :
  tool_matches a b = true -> tool_matches b t = true -> tool_matches a t = true.
Proof.
  unfold tool_matches. rewrite !orb_true_iff, !str_eqb_eq. intros [->| ->]; [auto |].
  auto.
Qed.

Lemma rule_subsumes_fires e l tool args :
  plain_glob_rule e -> plain_glob_rule l ->
  (rule_key e = lit "*" \/ Forall coarse (tokenize_glob (rule_pattern e))) ->
  (rule_action l = Deny -> rule_action e = Deny) ->
  rule_subsumes e l = true -> fires l tool args -> fires e tool args.
Proof.
  intros He Hl Hc Hd Hs [Ht Hf]. unfold rule_subsumes in Hs.
  destruct (tool_matches (rule_tool e) (rule_tool l)) eqn:Etm; [|done].
  split; [by eapply tool_matches_trans |]. simpl in Hs.
  destruct (str_eqb (rule_key e) "*") eqn:Eke; to_prop; [by left |].
  destruct (str_eqb (rule_key e) (rule_key l)) eqn:Ekk; [|done]. simpl in Hs. to_prop.
  destruct (str_eqb (rule_tool e) "bash" && str_eqb (rule_key e) "command") eqn:Eb.
  { to_prop. exfalso. by apply He. }
  simpl in Hs. destruct Hc as [? | Hc]; [done |].
  destruct Hf as [? | (v & Hv & [(s & -> & Hm) | [Hn Ha]])]; [congruence | |];
    right; rewrite Ekk; [exists (JStr s) | exists v]; (split; [done |]).
  - left. exists s. split; [done |].
    rewrite pattern_matches_plain in Hm |- * by done. by eapply glob_subsume.
  - right. auto.
Qed.

(** A reported shadowing is real for rules compared as plain globs when the
    earlier pattern has no [?] and no lone star: the later rule is never the one
    that decides. *)
Lemma detect_shadowed_rules_sound rules i j e l :
  (i, j) ∈ detect_shadowed_rules rules ->
  rules !! j = Some e -> rules !! i = Some l ->
  plain_glob_rule e -> plain_glob_rule l ->
  (rule_key e = lit "*" \/ Forall coarse (tokenize_glob (rule_pattern e))) ->
  (rule_action l = Deny -> rule_action e = Deny) ->
  j < i /\ forall tool args d a, evaluate rules tool args d <> (a, Some i).
Proof.
  intros Hin He Hl Hpe Hpl Hc Hd.
  apply detect_from_elem in Hin as (Hlt & e' & l' & He' & Hl' & Hs); [|done].
  simpl in He', Hl'. simplify_eq. split; [done |].
  intros tool args d a Hev. pose proof (evaluate_from_spec 0 rules tool args d a (Some i) Hev) as H.
  destruct H as (_ & r & Hr & _ & Hf & Hmin). rewrite Nat.sub_0_r in Hr, Hmin. simplify_eq.
  eapply (Hmin j _ Hlt); [eassumption |]. by eapply rule_subsumes_fires.
Qed.

Lemma detect_shadowed_rules_sound_witness :
  evaluate [mkRule "edit_file" "path" "src/**" Allow; mkRule "edit_file" "path" "src/*.rs" Ask]
    "edit_file" (JObj [(lit "path", JStr "src/main.rs")]) Deny <> (Ask, Some 1).
Proof.
  eapply (detect_shadowed_rules_sound
    [mkRule "edit_file" "path" "src/**" Allow; mkRule "edit_file" "path" "src/*.rs" Ask] 1 0
    (mkRule "edit_file" "path" "src/**" Allow) (mkRule "edit_file" "path" "src/*.rs" Ask)).
  - vm_compute detect_shadowed_rules. by left.
  - reflexivity.
  - reflexivity.
  - intros [? _]. discriminate.
  - intros [? _]. discriminate.
  - right. vm_compute. repeat constructor; discriminate.
  - discriminate.
Defined.

(** In general the report is not sound: a lone star is reported to shadow
    [**] and a [?] to shadow a star, and a permissive rule is reported to shadow a
    deny rule that still decides when the argument is not a string. *)
Lemma detect_shadowed_rules_false_positive :
  (let rules := [mkRule "read_file" "path" "*" Allow; mkRule "read_file" "path" "**" Deny] in
   detect_shadowed_rules rules = [(1, 0)]
   /\ evaluate rules "read_file" (JObj [(lit "path", JStr "a/b")]) Ask = (Deny, Some 1))
  /\ (let rules := [mkRule "read_file" "path" "?" Allow; mkRule "read_file" "path" "*" Deny] in
      detect_shadowed_rules rules = [(1, 0)]
      /\ evaluate rules "read_file" (JObj [(lit "path", JStr "ab")]) Ask = (Deny, Some 1))
  /\ (let rules := [mkRule "read_file" "path" "**" Allow; mkRule "read_file" "path" "k*" Deny] in
      detect_shadowed_rules rules = [(1, 0)]
      /\ evaluate rules "read_file" (JObj [(lit "path", JNum "42")]) Ask = (Deny, Some 1)).
Proof. vm_compute. auto 10. Qed.

(** *** The suggested rule *)

Definition file_tools : list str := map lit ["edit_file"; "write_file"; "read_file"].

(** The rule the "always" key writes authorizes the call it was made from:
    for the file tools always, for bash when the command is one clause already in
    normal form, and for every other tool whatever the arguments. *)
Lemma suggest_rule_allows tool args d :
  (tool ∈ file_tools -> exists p, json_get args "path" = Some (JStr p)) ->
  (tool = lit "bash" -> exists c, json_get args "command" = Some (JStr c)
     /\ exists clause, split_compound_clauses c = [clause] /\ normalize_for_safety clause = c) ->
  evaluate [suggest_rule tool args] tool args d = (Allow, Some 0).
Proof.
  intros Hfile Hbash. unfold evaluate.
  destruct (evaluate_cons 0 (suggest_rule tool args) [] tool args d) as [[_ ->] | [Hf _]].
  { unfold suggest_rule. by repeat case_test. }
  exfalso. apply Hf. clear Hf. unfold suggest_rule.
  destruct (str_eqb tool "bash") eqn:Eb; to_prop; [|case_test].
  - destruct (Hbash Eb) as (c & Hc & clause & Hs & Hn). rewrite Hc. simpl.
    split; [unfold tool_matches; simpl; by rewrite str_eqb_refl, orb_true_r |].
    right. exists (JStr c). split; [done |]. left. exists c. split; [done |].
    unfold pattern_matches. simpl. subst tool. simpl. unfold allow_command_matches.
    rewrite Hs. simpl. by rewrite Hn, glob_match_refl.
  - assert (tool ∈ file_tools) as Hin.
    { unfold file_tools. apply orb_true_iff in E as [[E|E]%orb_true_iff|E]; to_prop; subst;
        [left | right; left | right; right; left]. }
    destruct (Hfile Hin) as [p Hp]. rewrite Hp. simpl.
    split; [unfold tool_matches; simpl; by rewrite str_eqb_refl, orb_true_r |].
    right. exists (JStr p). split; [done |]. left. exists p. split; [done |].
    rewrite pattern_matches_plain by (intros [? ?]; done). apply glob_match_refl.
  - split; [unfold tool_matches; simpl; by rewrite str_eqb_refl, orb_true_r | by left].
Qed.

Lemma suggest_rule_allows_witness :
  let args := JObj [(lit "command", JStr "cargo test --release")] in
  evaluate [suggest_rule "bash" args] "bash" args Ask = (Allow, Some 0).
Proof.
  cbv zeta. apply suggest_rule_allows.
  - intros H. exfalso. unfold file_tools in H.
    by repeat (apply elem_of_cons in H as [H | H]); [..|apply elem_of_nil in H].
  - intros _. eexists. split; [reflexivity |]. exists (lit "cargo test --release").
    split; vm_compute; reflexivity.
Defined.

(** The rule suggested for a command with an upper-case letter does not
    match that command: the value is lower-cased before the comparison and the
    pattern is not, so the call falls through to the default. *)
Theorem suggest_rule_uppercase_dead :
  let args := JObj [(lit "command", JStr "make TEST=1")] in
  evaluate [suggest_rule "bash" args] "bash" args Ask = (Ask, None).
Proof. vm_compute. reflexivity. Qed.

(** *** Adding rules *)

Definition rule_shape (r : PermissionRule) : str * str * str :=
  (rule_tool r, rule_key r, rule_pattern r).

(** Adding a rule keeps every rule and its position, keeps the shapes
    (tool, key, pattern) distinct, and afterwards some rule has the shape of the
    new one; the list only grows when none had it. *)
Lemma push_rule_unique_spec rules r :
  NoDup (map rule_shape rules) ->
  NoDup (map rule_shape (push_rule_unique rules r))
  /\ rule_shape r ∈ map rule_shape (push_rule_unique rules r)
  /\ (rule_shape r ∈ map rule_shape rules -> push_rule_unique rules r = rules)
  /\ (rule_shape r ∉ map rule_shape rules -> push_rule_unique rules r = rules ++ [r]).
Proof.
  intros Hnd. unfold push_rule_unique.
  match goal with |- context [if ?b then _ else _] => destruct b eqn:E end.
  - assert (rule_shape r ∈ map rule_shape rules) as Hin.
    { apply existsb_elem in E as (x & Hx & E). to_prop. apply list_elem_of_fmap.
      exists x. split; [|done]. unfold rule_shape. congruence. }
    tauto.
  - assert (rule_shape r ∉ map rule_shape rules) as Hnin.
    { intros (x & Heq & Hx)%list_elem_of_fmap. injection Heq as H1 H2 H3.
      assert (H : existsb (fun r0 => str_eqb (rule_tool r0) (rule_tool r)
        && str_eqb (rule_key r0) (rule_key r)
        && str_eqb (rule_pattern r0) (rule_pattern r)) rules = true); [|congruence].
      apply existsb_elem. exists x. by rewrite <-H1, <-H2, <-H3, !str_eqb_refl. }
    rewrite map_app. simpl. split; [|split; [|tauto]].
    + apply NoDup_app. split; [done |]. split; [|apply NoDup_singleton].
      intros x Hx ->%list_elem_of_singleton. done.
    + apply elem_of_app. right. by left.
Qed.

Lemma push_rule_unique_spec_witness :
  push_rule_unique [mkRule "bash" "command" "ls" Allow] (mkRule "bash" "command" "ls" Ask)
  = [mkRule "bash" "command" "ls" Allow].
Proof.
  apply (push_rule_unique_spec [mkRule "bash" "command" "ls" Allow]
           (mkRule "bash" "command" "ls" Ask)).
  - apply NoDup_singleton.
  - by left.
Defined.
