(* ===== verification/Workflow.v ===== *)
(** * Workflows: data model, validation, cycle search, scheduling frontier

    Models [src/crates/kf-workflow/src/lib.rs] and [discovery.rs].  The DFS of
    [find_cycle] is [dfs] with its mutable [state] vector and [path] threaded
    through; [Workflow::validate] is [validate].  The theorems: the DFS reports a
    cycle exactly when the dependencies have one (and the path it reports is one),
    [validate] accepts exactly the well-formed workflows, and a validated workflow
    always has a ready step while it is not finished. *)

From stdpp Require Import relations.
From S2P Require Import Prelude Graph.

Inductive StepKind := Agent | Bash | Tool | FanOut | FanIn.

#[export] Instance StepKind_eq_dec : EqDecision StepKind.
Proof. solve_decision. Defined.

Record Step := mkStep {
  step_name : str;
  step_kind : StepKind;
  prompt : option str;
  persona : option str;
  command : option str;
  tool_name : option str;
  tool_arguments : option json;
  depends_on : list str;
  critique : option bool;
  condition : option str;
  on_error : option str;
  fork_from : option str;
  over : option str;
  as_name : option str;
  max_parallel : option N
}.

(** A step with the fields serde defaults when they are absent. *)
Definition default_step (name : str) (kind : StepKind) : Step :=
  mkStep name kind None None None None None [] None None None None None None None.

Record Budget := mkBudget {
  max_tokens : option N;
  max_seconds : option N;
  max_iterations : option N;
  on_exceeded : option str
}.

Record Workflow := mkWorkflow {
  wf_name : str;
  steps : list Step;
  budget : option Budget
}.

(** ** Validation *)

(** [self.steps.iter().any(|s| &s.name == name)]. *)
Definition has_step (l : list Step) (name : str) : bool :=
  existsb (fun s => str_eqb (step_name s) name) l.

(** [self.steps.iter().find(|s| &s.name == name)]. *)
Definition find_step (l : list Step) (name : str) : option Step :=
  find (fun s => str_eqb (step_name s) name) l.

(** [o.as_ref().is_none_or(|s| s.is_empty())]. *)
Definition missing (o : option str) : bool :=
  is_none_or (fun s => bool_decide (s = [])) o.

Definition known_persona (p : str) : bool :=
  existsb (str_eqb p) [lit "explore"; lit "plan"; lit "coder"].

Definition step_msg (s : Step) (rest : str) : str :=
  lit "step '" ++ step_name s ++ lit "'" ++ rest.

Definition validate_kind (s : Step) : result unit str :=
  match step_kind s with
  | Agent =>
      if missing (prompt s)
      then Err (step_msg s " is an agent step but has no prompt")
      else match persona s with
           | Some p =>
               if known_persona p then Ok tt
               else Err (step_msg s (lit " has unknown persona '" ++ p
                                     ++ lit "'; expected explore/plan/coder"))
           | None => Err (step_msg s " is an agent step but has no persona")
           end
  | Bash =>
      if missing (command s)
      then Err (step_msg s " is a bash step but has no command") else Ok tt
  | Tool =>
      if missing (tool_name s)
      then Err (step_msg s " is a tool step but has no tool_name") else Ok tt
  | FanOut =>
      if missing (over s)
      then Err (step_msg s " is a fan_out step but has no 'over'")
      else if missing (as_name s)
      then Err (step_msg s " is a fan_out step but has no 'as_name'")
      else if decide (max_parallel s = Some 0%N)
      then Err (step_msg s " has max_parallel=0 which would deadlock")
      else Ok tt
  | FanIn => Ok tt
  end.

(** An optional reference to another step of the workflow. *)
Definition validate_ref (l : list Step) (o : option str) (msg : str -> str)
  : result unit str :=
  match o with
  | Some r => if has_step l r then Ok tt else Err (msg r)
  | None => Ok tt
  end.

Fixpoint validate_deps (l : list Step) (s : Step) (deps : list str) : result unit str :=
  match deps with
  | [] => Ok tt
  | dep :: deps' =>
      if str_eqb dep (step_name s) then Err (step_msg s " depends on itself")
      else if has_step l dep then validate_deps l s deps'
      else Err (step_msg s (lit " depends on unknown step '" ++ dep ++ lit "'"))
  end.

(** The body of the loop over the steps; [names] is the set of names seen. *)
Definition validate_step (l : list Step) (names : gset str) (s : Step)
  : result (gset str) str :=
  if decide (step_name s ∈ names)
  then Err (lit "duplicate step name: " ++ step_name s)
  else
    do? validate_kind s ;;
    do? validate_ref l (on_error s) (fun r =>
          step_msg s (lit " on_error references unknown step '" ++ r ++ lit "'")) ;;
    do? validate_ref l (fork_from s) (fun r =>
          step_msg s (lit " fork_from references unknown step '" ++ r ++ lit "'")) ;;
    do? validate_deps l s (depends_on s) ;;
    Ok ({[step_name s]} ∪ names).

Fixpoint validate_steps (l : list Step) (names : gset str) (todo : list Step)
  : result unit str :=
  match todo with
  | [] => Ok tt
  | s :: todo' => let? names := validate_step l names s in validate_steps l names todo'
  end.

(** ** The cycle search *)

(** [steps.iter().enumerate().map(|(i, s)| (s.name, i)).collect()]: the last
    step of a name wins. *)
Fixpoint build_index (i : nat) (l : list Step) (m : gmap str nat) : gmap str nat :=
  match l with
  | [] => m
  | s :: l' => build_index (S i) l' (<[step_name s := i]> m)
  end.

Definition names_of (l : list Step) (p : list nat) : list str :=
  omap (fun i => step_name <$> l !! i) p.

(** [path.iter().position(|&p| p == x).unwrap_or(0)], then [path[start..]]. *)
Fixpoint suffix_from (x : nat) (p : list nat) : option (list nat) :=
  match p with
  | [] => None
  | y :: p' => if decide (y = x) then Some p else suffix_from x p'
  end.

Section Dfs.
Variable l : list Step.
Variable index : gmap str nat.

(** What a call of [dfs] leaves: the returned option, [state] and [path]. *)
Definition DfsState : Type := option (list str) * list nat * list nat.

(** The loop over the dependencies of [idx]; [rec] is the recursive call.  The
    [?] on an unknown name returns [None] without unwinding. *)
Fixpoint visit_deps (rec : nat -> list nat -> list nat -> DfsState)
    (idx : nat) (deps : list str) (state path : list nat) : DfsState :=
  match deps with
  | [] => (None, <[idx := 2]> state, removelast path)
  | dep :: deps' =>
      match index !! dep with
      | None => (None, state, path)
      | Some dep_idx =>
          if decide (state !! dep_idx = Some 1) then
            let cycle := unwrap_or path (suffix_from dep_idx path) in
            (Some (names_of l (cycle ++ [dep_idx])), state, path)
          else if decide (state !! dep_idx = Some 0) then
            match rec dep_idx state path with
            | (Some c, state', path') => (Some c, state', path')
            | (None, state', path') => visit_deps rec idx deps' state' path'
            end
          else visit_deps rec idx deps' state path
      end
  end.

Fixpoint dfs (fuel idx : nat) (state path : list nat) : DfsState :=
  match fuel with
  | O => (None, state, path)
  | S fuel' =>
      visit_deps (dfs fuel') idx
        (match l !! idx with Some s => depends_on s | None => [] end)
        (<[idx := 1]> state) (path ++ [idx])
  end.

(** The loop [for i in 0..n]. *)
Fixpoint dfs_roots (roots : list nat) (state path : list nat) : option (list str) :=
  match roots with
  | [] => None
  | i :: roots' =>
      if decide (state !! i = Some 0) then
        match dfs (S (length l)) i state path with
        | (Some c, _, _) => Some c
        | (None, state', path') => dfs_roots roots' state' path'
        end
      else dfs_roots roots' state path
  end.
End Dfs.

Definition find_cycle (w : Workflow) : option (list str) :=
  let n := length (steps w) in
  dfs_roots (steps w) (build_index 0 (steps w) ∅) (seq 0 n) (replicate n 0) [].

Definition has_cycle (w : Workflow) : bool := is_some_b (find_cycle w).

Definition validate_budget (w : Workflow) : result unit str :=
  match budget w with
  | Some b => validate_ref (steps w) (on_exceeded b) (fun r =>
      lit "budget on_exceeded references unknown step '" ++ r ++ lit "'")
  | None => Ok tt
  end.

Definition validate (w : Workflow) : result unit str :=
  do? validate_steps (steps w) ∅ (steps w) ;;
  do? validate_budget w ;;
  match find_cycle w with
  | Some cycle => Err (lit "dependency cycle detected: " ++ join " -> " cycle)
  | None => Ok tt
  end.

(** [Workflow::from_json]; [from_slice] is serde's deserializer, whose error is
    replaced by the context when displayed. *)
Definition from_json (from_slice : list N -> option Workflow) (data : list N)
  : result Workflow str :=
  let? wf := ok_or (from_slice data) (lit "failed to parse workflow JSON") in
  do? validate wf ;;
  Ok wf.

(** ** The scheduling frontier *)

Definition is_ready (completed : gset str) (s : Step) : bool :=
  negb (bool_decide (step_name s ∈ completed))
  && forallb (fun d => bool_decide (d ∈ completed)) (depends_on s).

Definition ready_steps (w : Workflow) (completed : gset str) : list str :=
  map step_name (List.filter (is_ready completed) (steps w)).

Definition all_dependencies (w : Workflow) : gset str :=
  list_to_set (steps w ≫= depends_on).

(** ** Workflow files *)

Definition is_bare_filename (name : str) : bool :=
  negb (contains name "/") && negb (contains name "\")
  && negb (str_eqb name "..") && negb (str_eqb name ".").

(** [find_workflow_file]: [exists] is the file system, [data_dir] the user's data
    directory; paths are the joined strings. *)
Definition find_workflow_file (exists_ : str -> bool) (data_dir : option str) (name : str)
  : option str :=
  if negb (is_bare_filename name) then None
  else
    let local := lit ".kf-code/workflows" ++ "/" ++ name ++ lit ".json" in
    if exists_ local then Some local
    else match data_dir with
         | Some dir =>
             let shared := dir ++ "/" ++ lit "kf-code/workflows" ++ "/" ++ name ++ lit ".json" in
             if exists_ shared then Some shared else None
         | None => None
         end.

Definition user_workflow_dir (data_dir : option str) : str :=
  match data_dir with
  | Some dir => dir ++ "/" ++ lit "kf-code/workflows"
  | None => lit ".kf-code/workflows"
  end.

(** ** Declarative specification *)

(** [b] is a dependency of the step named [a]. *)
Definition depends (l : list Step) (a b : str) : Prop :=
  exists s, s ∈ l /\ step_name s = a /\ b ∈ depends_on s.

Definition closed_deps (l : list Step) : Prop :=
  forall s d, s ∈ l -> d ∈ depends_on s -> d ∈ map step_name l.

Lemma unique_step l s t :
  NoDup (map step_name l) -> s ∈ l -> t ∈ l -> step_name s = step_name t -> s = t.
Proof.
  intros Hnd [i Hi]%list_elem_of_lookup [j Hj]%list_elem_of_lookup He.
  assert (i = j) as ->; [|congruence].
  eapply (NoDup_lookup (map step_name l) i j (step_name t) Hnd);
    rewrite list_lookup_fmap; [rewrite Hi | rewrite Hj]; simpl; congruence.
Qed.

(** *** The index of step names *)

Lemma build_index_lookup i l m x :
  NoDup (map step_name l) ->
  build_index i l m !! x =
    match list_find (fun s => step_name s = x) l with
    | Some (k, _) => Some (i + k)
    | None => m !! x
    end.
Proof.
  revert i m. induction l as [|s l IH]; intros i m Hnd; simpl; [done |].
  apply NoDup_cons in Hnd as [Hn Hnd]. rewrite IH by done.
  case_decide as Hs; subst.
  - rewrite (proj2 (list_find_None _ _)), lookup_insert_eq; [f_equal; lia |].
    apply Forall_forall. intros t Ht He. apply Hn. rewrite <-He.
    by apply list_elem_of_fmap_2.
  - destruct (list_find _ l) as [[k t]|]; simpl; [f_equal; lia |].
    by apply lookup_insert_ne.
Qed.

Lemma index_spec l x i :
  NoDup (map step_name l) ->
  build_index 0 l ∅ !! x = Some i <-> exists s, l !! i = Some s /\ step_name s = x.
Proof.
  intros Hnd. rewrite build_index_lookup by done. split.
  - destruct (list_find _ l) as [[k t]|] eqn:E; [|by rewrite lookup_empty].
    intros [= <-]. apply list_find_Some in E as (? & ? & _). eauto.
  - intros (s & Hs & Hx).
    destruct (list_find _ l) as [[k t]|] eqn:E.
    + apply list_find_Some in E as (Hk & Ht & _). f_equal. simpl.
      eapply (NoDup_lookup (map step_name l) k i x Hnd);
        rewrite list_lookup_fmap; [rewrite Hk | rewrite Hs]; simpl; congruence.
    + apply list_find_None in E. eapply Forall_lookup_1 in E; [|done]. done.
Qed.

(** *** Correctness of the depth-first search *)

Section DfsCorrect.
Variable l : list Step.
Hypothesis names_distinct : NoDup (map step_name l).
Hypothesis deps_known : closed_deps l.

Abbreviation index := (build_index 0 l ∅).

Record dfs_inv (state path : list nat) : Prop := {
  inv_len : length state = length l;
  inv_colour : forall j x, state !! j = Some x -> x = 0 \/ x = 1 \/ x = 2;
  inv_path : forall j, j ∈ path <-> state !! j = Some 1;
  inv_nodup : NoDup path;
  inv_chain : names_of l path = [] \/ chain (depends l) (names_of l path);
  inv_done : forall j s, state !! j = Some 2 -> l !! j = Some s -> grounded (depends l) (step_name s)
}.

(** Finished steps stay finished and no step becomes unvisited. *)
Definition grows_at (st st' : list nat) (j : nat) : Prop :=
  (st !! j = Some 2 -> st' !! j = Some 2)
  /\ (st !! j = Some 1 -> st' !! j <> Some 0)
  /\ (st' !! j = Some 0 -> st !! j = Some 0).
Definition grows (st st' : list nat) : Prop := forall j, grows_at st st' j.

Lemma grows_at_same st st' j : st' !! j = st !! j -> grows_at st st' j.
Proof. unfold grows_at. intros ->. repeat split; congruence. Qed.

Lemma grows_at_trans a b c j : grows_at a b j -> grows_at b c j -> grows_at a c j.
Proof.
  intros (A1 & B1 & C1) (A2 & B2 & C2). split; [auto |]. split; [|auto].
  intros Ha Hc. exact (B1 Ha (C2 Hc)).
Qed.

Lemma known_dep i s d :
  l !! i = Some s -> d ∈ depends_on s ->
  exists j t, index !! d = Some j /\ l !! j = Some t /\ step_name t = d.
Proof.
  intros Hi Hd. pose proof (deps_known s d (list_elem_of_lookup_2 _ _ _ Hi) Hd) as H.
  apply list_elem_of_fmap in H as (t & -> & Ht). apply list_elem_of_lookup in Ht as [j Hj].
  exists j, t. split; [|done]. apply index_spec; eauto.
Qed.

Lemma names_of_app p q : names_of l (p ++ q) = names_of l p ++ names_of l q.
Proof. apply omap_app. Qed.

Lemma names_of_one i s : l !! i = Some s -> names_of l [i] = [step_name s].
Proof. unfold names_of. simpl. by intros ->. Qed.

Lemma suffix_from_elem x p :
  x ∈ p -> exists a q, p = a ++ x :: q /\ suffix_from x p = Some (x :: q).
Proof.
  induction p as [|y p IH]; intros H; [by apply elem_of_nil in H |].
  simpl. case_decide as E.
  - subst. by exists [], p.
  - apply elem_of_cons in H as [->|H]; [done |].
    destruct (IH H) as (a & q & -> & Hs). exists (y :: a), q. by rewrite Hs.
Qed.

(** A visited dependency closes a cycle. *)
Lemma found_cycle st path idx s d j t :
  dfs_inv st (path ++ [idx]) ->
  l !! idx = Some s -> d ∈ depends_on s -> l !! j = Some t -> step_name t = d ->
  st !! j = Some 1 ->
  is_cycle (depends l) (names_of l (unwrap_or (path ++ [idx]) (suffix_from j (path ++ [idx])) ++ [j])).
Proof.
  intros Hinv Hs Hd Ht Hn Hj. apply (inv_path _ _ Hinv) in Hj.
  destruct (suffix_from_elem _ _ Hj) as (a & q & Hp & ->). cbn [unwrap_or].
  assert (chain (depends l) (names_of l ((path ++ [idx]) ++ [j]))) as Hc.
  { rewrite !names_of_app, (names_of_one idx s), (names_of_one j t) by done.
    apply chain_snoc; [|exists s; rewrite Hn; eauto using list_elem_of_lookup_2].
    destruct (inv_chain _ _ Hinv) as [H|H].
    - rewrite names_of_app, (names_of_one idx s) in H by done. by destruct (names_of l path).
    - by rewrite names_of_app, (names_of_one idx s) in H. }
  rewrite Hp, <-app_assoc, names_of_app in Hc. apply chain_app_r in Hc; cycle 1.
  { simpl. unfold names_of. simpl. by rewrite Ht. }
  repeat split; [done | |].
  - rewrite names_of_app, length_app, (names_of_one j t) by done.
    unfold names_of. simpl. rewrite Ht. simpl. lia.
  - rewrite names_of_app, (names_of_one j t), last_snoc by done.
    unfold names_of. simpl. by rewrite Ht.
Qed.

Lemma inv_enter st path idx s :
  dfs_inv st path -> l !! idx = Some s -> st !! idx = Some 0 ->
  (path = [] \/ exists p k t, path = p ++ [k] /\ l !! k = Some t
                              /\ step_name s ∈ depends_on t) ->
  dfs_inv (<[idx := 1]> st) (path ++ [idx]).
Proof.
  intros Hinv Hs H0 Hlast. assert (idx < length st) as Hlt by (by eapply lookup_lt_Some).
  destruct Hinv as [H1 H2 H3 H4 H5 H6]. split.
  - by rewrite length_insert.
  - intros j x. destruct (decide (j = idx)) as [->|Hne].
    + rewrite list_lookup_insert_eq by done. intros [= <-]. auto.
    + rewrite list_lookup_insert_ne by done. apply H2.
  - intros j. rewrite elem_of_app, list_elem_of_singleton, H3.
    destruct (decide (j = idx)) as [->|Hne].
    + rewrite list_lookup_insert_eq by done. tauto.
    + rewrite list_lookup_insert_ne by done. tauto.
  - apply NoDup_app. split; [done |]. split; [|apply NoDup_singleton].
    intros x Hx ->%list_elem_of_singleton. apply H3 in Hx. congruence.
  - right. rewrite names_of_app, (names_of_one idx s) by done.
    destruct Hlast as [->|(p & k & t & -> & Hk & Hd)]; [apply chain_one |].
    rewrite names_of_app, (names_of_one k t) in * by done.
    destruct H5 as [H5|H5]; [by destruct (names_of l p) |].
    apply chain_snoc; [done |]. exists t. eauto using list_elem_of_lookup_2.
  - intros j t. destruct (decide (j = idx)) as [->|Hne].
    + by rewrite list_lookup_insert_eq.
    + rewrite list_lookup_insert_ne by done. apply H6.
Qed.

Lemma inv_leave st path idx s :
  dfs_inv st (path ++ [idx]) -> l !! idx = Some s -> grounded (depends l) (step_name s) ->
  dfs_inv (<[idx := 2]> st) path.
Proof.
  intros [H1 H2 H3 H4 H5 H6] Hs Hg.
  assert (st !! idx = Some 1) as Hi by (apply H3; rewrite elem_of_app; right; by left).
  assert (idx < length st) as Hlt by (by eapply lookup_lt_Some).
  apply NoDup_app in H4 as (Hnd & Hnin & _). split; [by rewrite length_insert | | |done | |].
  - intros j x. destruct (decide (j = idx)) as [->|Hne].
    + rewrite list_lookup_insert_eq by done. intros [= <-]. auto.
    + rewrite list_lookup_insert_ne by done. apply H2.
  - intros j. destruct (decide (j = idx)) as [->|Hne].
    + rewrite list_lookup_insert_eq by done. split; [|done].
      intros H%Hnin. by destruct H; left.
    + rewrite list_lookup_insert_ne, <-H3, elem_of_app, list_elem_of_singleton by done. tauto.
  - rewrite names_of_app in H5. destruct (names_of l path) as [|x q] eqn:E; [by left | right].
    destruct H5 as [H5|H5]; [done |]. by eapply chain_app_l.
  - intros j t. destruct (decide (j = idx)) as [->|Hne].
    + rewrite list_lookup_insert_eq by done. intros _ Ht. by simplify_eq.
    + rewrite list_lookup_insert_ne by done. apply H6.
Qed.

(** What a call that explores step [idx] guarantees. *)
Definition dfs_post (st path : list nat) (idx : nat) (r : DfsState) : Prop :=
  match r with
  | (Some c, _, _) => is_cycle (depends l) c
  | (None, st', path') =>
      path' = path /\ dfs_inv st' path /\ st' !! idx = Some 2 /\ grows st st'
  end.

Definition dfs_pre (st path : list nat) (idx : nat) (s : Step) : Prop :=
  dfs_inv st path /\ l !! idx = Some s /\ st !! idx = Some 0
  /\ (path = [] \/ exists p k t, path = p ++ [k] /\ l !! k = Some t
                                 /\ step_name s ∈ depends_on t).

Lemma visit_deps_correct rec idx s path deps st :
  (forall j t st, dfs_pre st (path ++ [idx]) j t ->
     dfs_post st (path ++ [idx]) j (rec j st (path ++ [idx]))) ->
  l !! idx = Some s ->
  dfs_inv st (path ++ [idx]) ->
  (forall d, d ∈ depends_on s -> d ∈ deps \/ exists j, index !! d = Some j /\ st !! j = Some 2) ->
  (forall d, d ∈ deps -> d ∈ depends_on s) ->
  match visit_deps l index rec idx deps st (path ++ [idx]) with
  | (Some c, _, _) => is_cycle (depends l) c
  | (None, st', path') =>
      path' = path /\ dfs_inv st' path /\ st' !! idx = Some 2
      /\ (forall j, j <> idx -> grows_at st st' j)
  end.
Proof.
  intros Hrec Hs. revert st. induction deps as [|d deps IH]; intros st Hinv Hall Hsub; simpl.
  - rewrite removelast_last. assert (idx < length st) as Hlt.
    { rewrite (inv_len _ _ Hinv). by eapply lookup_lt_Some. }
    split; [done |]. split; [|split].
    + eapply inv_leave; [done..|]. constructor. intros b (s' & Hs' & Hn & Hb).
      assert (s' = s) as ->.
      { by apply (unique_step l); eauto using list_elem_of_lookup_2. }
      destruct (Hall b Hb) as [H|(j & Hj & H2)]; [by apply elem_of_nil in H |].
      apply index_spec in Hj as (t & Ht & <-); [|done]. by eapply (inv_done _ _ Hinv).
    + by apply list_lookup_insert_eq.
    + intros j Hne. apply grows_at_same. by rewrite list_lookup_insert_ne.
  - destruct (known_dep idx s d Hs (Hsub d ltac:(by left))) as (j & t & Hj & Ht & Hn).
    rewrite Hj. case_decide as H1; [|case_decide as H0].
    + eapply found_cycle; eauto. apply Hsub. by left.
    + assert (dfs_pre st (path ++ [idx]) j t) as Hpre.
      { split; [done |]. split; [done |]. split; [done |]. right. exists path, idx, s.
        rewrite Hn. split; [done |]. split; [done |]. apply Hsub. by left. }
      specialize (Hrec j t st Hpre).
      destruct (rec j st (path ++ [idx])) as [[[c|] st'] path']; [done |].
      destruct Hrec as (-> & Hinv' & H2 & Hg).
      specialize (IH st' Hinv'). destruct (visit_deps _ _ _ _ _ _ _) as [[[c|] st2] path2].
      * apply IH.
        -- intros d' Hd'. destruct (Hall d' Hd') as [[->|H]%elem_of_cons|(k & Hk & H)]; eauto.
           right. exists k. split; [done |]. by apply Hg.
        -- intros d' Hd'. apply Hsub. by right.
      * destruct IH as (-> & Hi & Hx & Hg2).
        -- intros d' Hd'. destruct (Hall d' Hd') as [[->|H]%elem_of_cons|(k & Hk & H)]; eauto.
           right. exists k. split; [done |]. by apply Hg.
        -- intros d' Hd'. apply Hsub. by right.
        -- split; [done |]. split; [done |]. split; [done |].
           intros k Hk. eapply grows_at_trans; [apply Hg | by apply Hg2].
    + apply IH; [done | |].
      * intros d' Hd'. destruct (Hall d' Hd') as [[->|H]%elem_of_cons|H]; eauto.
        right. exists j. split; [done |].
        assert (is_Some (st !! j)) as [x Hx].
        { apply lookup_lt_is_Some. rewrite (inv_len _ _ Hinv). by eapply lookup_lt_Some. }
        destruct (inv_colour _ _ Hinv j x Hx) as [-> | [-> | -> ] ]; done.
      * intros d' Hd'. apply Hsub. by right.
Qed.

Lemma path_bound st path : dfs_inv st path -> length path <= length l.
Proof.
  intros [H1 _ H3 H4 _ _]. rewrite <-H1, <-(length_seq (length st) 0).
  apply NoDup_incl_length; [by apply NoDup_ListNoDup |].
  intros x Hx%list_elem_of_In%H3. apply in_seq.
  apply lookup_lt_Some in Hx. lia.
Qed.

Lemma dfs_correct fuel st path idx s :
  dfs_pre st path idx s -> length l < fuel + length path ->
  dfs_post st path idx (dfs l index fuel idx st path).
Proof.
  revert st path idx s. induction fuel as [|fuel IH]; intros st path idx s Hpre Hf.
  - destruct Hpre as (Hinv & _). apply path_bound in Hinv. lia.
  - destruct Hpre as (Hinv & Hs & H0 & Hlast). simpl. rewrite Hs.
    pose proof (inv_enter st path idx s Hinv Hs H0 Hlast) as Hinv'.
    assert (forall j t st, dfs_pre st (path ++ [idx]) j t ->
              dfs_post st (path ++ [idx]) j (dfs l index fuel j st (path ++ [idx]))) as Hrec.
    { intros j t st' Hp. eapply IH; [done |]. rewrite length_app. simpl. lia. }
    pose proof (visit_deps_correct _ idx s path (depends_on s) (<[idx := 1]> st) Hrec Hs Hinv')
      as H.
    destruct (visit_deps _ _ _ _ _ _ _) as [[[c|] st'] path']; simpl.
    + apply H; [by left | done].
    + destruct H as (-> & Hi & H2 & Hg); [by left | done |].
      split; [done |]. split; [done |]. split; [done |]. intros j.
      destruct (decide (j = idx)) as [->|Hne].
      * unfold grows_at. rewrite H0, H2. repeat split; congruence.
      * specialize (Hg j Hne). unfold grows_at in *.
        by rewrite list_lookup_insert_ne in Hg.
Qed.

Lemma dfs_roots_correct roots st :
  dfs_inv st [] ->
  (forall i, i < length l -> i ∈ roots \/ st !! i = Some 2) ->
  (forall i, i ∈ roots -> i < length l) ->
  match dfs_roots l index roots st [] with
  | Some c => is_cycle (depends l) c
  | None => forall s, s ∈ l -> grounded (depends l) (step_name s)
  end.
Proof.
  revert st. induction roots as [|i roots IH]; intros st Hinv Hall Hlt; cbn [dfs_roots].
  - intros s Hs. apply list_elem_of_lookup in Hs as [i Hi].
    destruct (Hall i ltac:(by eapply lookup_lt_Some)) as [H|H]; [by apply elem_of_nil in H |].
    by eapply (inv_done _ _ Hinv).
  - destruct (lookup_lt_is_Some_2 l i (Hlt i ltac:(by left))) as [s Hs].
    case_decide as H0.
    + assert (dfs_pre st [] i s) as Hpre.
      { split; [exact Hinv |]. split; [exact Hs |]. split; [exact H0 |]. by left. }
      pose proof (dfs_correct (S (length l)) st [] i s Hpre ltac:(simpl; lia)) as H.
      destruct (dfs _ _ _ _ _ _) as [[[c|] st'] path']; [done |].
      destruct H as (-> & Hi & H2 & Hg). apply IH; [done | |].
      * intros k Hk. destruct (Hall k Hk) as [[->|H]%elem_of_cons|H]; auto.
        right. by apply Hg.
      * intros k Hk. apply Hlt. by right.
    + apply IH; [done | |].
      * intros k Hk. destruct (Hall k Hk) as [[->|H]%elem_of_cons|H]; auto.
        right. destruct (lookup_lt_is_Some_2 st i) as [x Hx].
        { rewrite (inv_len _ _ Hinv). by eapply lookup_lt_Some. }
        destruct (inv_colour _ _ Hinv i x Hx) as [-> | [-> | -> ] ]; [done | |done].
        by apply (inv_path _ _ Hinv), elem_of_nil in Hx.
      * intros k Hk. apply Hlt. by right.
Qed.
End DfsCorrect.

Lemma find_cycle_correct w :
  NoDup (map step_name (steps w)) -> closed_deps (steps w) ->
  match find_cycle w with
  | Some c => is_cycle (depends (steps w)) c
  | None => forall s, s ∈ steps w -> grounded (depends (steps w)) (step_name s)
  end.
Proof.
  intros Hnd Hcl. unfold find_cycle. apply dfs_roots_correct; [done | done | | |].
  - split; [by rewrite length_replicate | | |constructor | by left |].
    + intros j x [-> _]%lookup_replicate. auto.
    + intros j. split; [by intros ?%elem_of_nil |]. by intros [? _]%lookup_replicate.
    + by intros j s [? _]%lookup_replicate.
  - intros i Hi. left. apply elem_of_seq. lia.
  - intros i Hi%elem_of_seq. lia.
Qed.

Lemma steps_acyclic l :
  (forall s, s ∈ l -> grounded (depends l) (step_name s)) -> acyclic (depends l).
Proof. intros H. apply grounded_all_acyclic. intros a b (s & Hs & <- & _). by apply H. Qed.

(** Fields a step of each kind must have. *)
Definition present (o : option str) : Prop := exists x, o = Some x /\ x <> [].

Definition kind_ok (s : Step) : Prop :=
  match step_kind s with
  | Agent => present (prompt s)
             /\ exists p, persona s = Some p /\ p ∈ [lit "explore"; lit "plan"; lit "coder"]
  | Bash => present (command s)
  | Tool => present (tool_name s)
  | FanOut => present (over s) /\ present (as_name s) /\ max_parallel s <> Some 0%N
  | FanIn => True
  end.

Definition ref_ok (l : list Step) (o : option str) : Prop :=
  forall r, o = Some r -> r ∈ map step_name l.

Record step_ok (l : list Step) (s : Step) : Prop := {
  ok_kind : kind_ok s;
  ok_on_error : ref_ok l (on_error s);
  ok_fork_from : ref_ok l (fork_from s);
  ok_deps : forall d, d ∈ depends_on s -> d ∈ map step_name l /\ d <> step_name s
}.

Record valid_workflow (w : Workflow) : Prop := {
  valid_names : NoDup (map step_name (steps w));
  valid_steps : Forall (step_ok (steps w)) (steps w);
  valid_budget : forall b, budget w = Some b -> ref_ok (steps w) (on_exceeded b);
  valid_acyclic : acyclic (depends (steps w))
}.

Lemma has_step_spec l x : has_step l x = true <-> x ∈ map step_name l.
Proof.
  unfold has_step. rewrite existsb_exists, list_elem_of_fmap. split.
  - intros (s & Hs%list_elem_of_In & Hx%str_eqb_eq). eauto.
  - intros (s & -> & Hs). exists s. rewrite str_eqb_eq. by rewrite <-list_elem_of_In.
Qed.

Lemma missing_spec o : missing o = false <-> present o.
Proof.
  unfold missing, present. destruct o as [x|]; simpl.
  - rewrite bool_decide_eq_false. split; [eauto | by intros (? & [= <-] & ?)].
  - split; [done | by intros (? & ? & _)].
Qed.

Lemma validate_ref_spec l o msg : validate_ref l o msg = Ok tt <-> ref_ok l o.
Proof.
  unfold validate_ref, ref_ok. destruct o as [r|]; [|done].
  pose proof (has_step_spec l r) as H. destruct (has_step l r).
  - split; [|done]. intros _ r' [= <-]. by apply H.
  - split; [done |]. intros Hr. specialize (Hr r eq_refl). by apply H in Hr.
Qed.

Lemma validate_deps_spec l s deps :
  validate_deps l s deps = Ok tt
  <-> forall d, d ∈ deps -> d ∈ map step_name l /\ d <> step_name s.
Proof.
  induction deps as [|d deps IH]; simpl.
  - split; [intros _ d H; by apply elem_of_nil in H | done].
  - pose proof (has_step_spec l d) as Hd. destruct (str_eqb d (step_name s)) eqn:E.
    + apply str_eqb_eq in E. split; [done |]. intros H.
      by destruct (H d ltac:(by left)).
    + apply str_eqb_neq in E. destruct (has_step l d).
      * rewrite IH. split.
        -- intros H x [->|Hx]%elem_of_cons; [|auto]. split; [by apply Hd | done].
        -- intros H x Hx. apply H. by right.
      * split; [done |]. intros H. destruct (H d ltac:(by left)) as [H' _]. by apply Hd in H'.
Qed.

Lemma known_persona_spec p :
  known_persona p = true <-> p ∈ [lit "explore"; lit "plan"; lit "coder"].
Proof.
  unfold known_persona. rewrite existsb_elem. split.
  - by intros (x & Hx & ->%str_eqb_eq).
  - intros H. exists p. by rewrite str_eqb_refl.
Qed.

Lemma validate_kind_spec s : validate_kind s = Ok tt <-> kind_ok s.
Proof.
  unfold validate_kind, kind_ok. destruct (step_kind s); [| | | |done].
  - rewrite <-missing_spec. destruct (missing (prompt s)); [by split; [|intros [? _]] |].
    destruct (persona s) as [p|]; [|by split; [|intros (_ & ? & ? & _)]].
    destruct (known_persona p) eqn:E.
    + split; [|done]. intros _. split; [done |]. exists p. by rewrite <-known_persona_spec.
    + split; [done |]. intros (_ & q & [= <-] & Hq%known_persona_spec). congruence.
  - rewrite <-missing_spec. by destruct (missing (command s)).
  - rewrite <-missing_spec. by destruct (missing (tool_name s)).
  - rewrite <-!missing_spec. destruct (missing (over s)); [by split; [|intros [? _]] |].
    destruct (missing (as_name s)); [by split; [|intros (_ & ? & _)] |].
    case_decide; [by split; [|intros (_ & _ & ?)] | done].
Qed.

Lemma validate_step_spec l names s names' :
  validate_step l names s = Ok names'
  <-> names' = {[step_name s]} ∪ names /\ (step_name s ∉ names) /\ step_ok l s.
Proof.
  unfold validate_step. case_decide as Hin; [by split; [|intros (_ & ? & _)] |].
  repeat setoid_rewrite result_bind_Ok. split.
  - intros ([] & H1%validate_kind_spec & [] & H2%validate_ref_spec & [] & H3%validate_ref_spec
            & [] & H4 & [= <-]).
    rewrite validate_deps_spec in H4. split; [done |]. split; [done |]. by split.
  - intros (-> & _ & [H1 H2 H3 H4]). exists tt. split; [by apply validate_kind_spec |].
    exists tt. split; [by apply validate_ref_spec |].
    exists tt. split; [by apply validate_ref_spec |].
    exists tt. split; [by apply validate_deps_spec | done].
Qed.

Lemma validate_steps_spec l names todo :
  validate_steps l names todo = Ok tt
  <-> NoDup (map step_name todo)
      /\ (forall s, s ∈ todo -> step_name s ∉ names) /\ Forall (step_ok l) todo.
Proof.
  revert names. induction todo as [|s todo IH]; intros names; simpl.
  - split; [|done]. intros _. split; [constructor |]. split; [|constructor].
    intros s H. by apply elem_of_nil in H.
  - rewrite result_bind_Ok. setoid_rewrite validate_step_spec. setoid_rewrite IH.
    rewrite NoDup_cons, Forall_cons. setoid_rewrite elem_of_cons. split.
    + intros (? & (-> & Hs & Hok) & Hnd & Hn & Hall).
      split; [split; [|done] | split; [|done]].
      * intros (t & Ht & Hin)%list_elem_of_fmap. apply (Hn t Hin). rewrite <-Ht. set_solver.
      * intros t [->|Ht]; [done |]. specialize (Hn t Ht). set_solver.
    + intros ([Hs Hnd] & Hn & Hok & Hall). exists ({[step_name s]} ∪ names).
      split; [split; [done | split; [by apply Hn; left | done]] |].
      split; [done |]. split; [|done].
      intros t Ht. apply not_elem_of_union. split; [|by apply Hn; right].
      rewrite not_elem_of_singleton. intros He. apply Hs. rewrite <-He.
      by apply list_elem_of_fmap_2.
Qed.

Lemma step_ok_closed l : Forall (step_ok l) l -> closed_deps l.
Proof. intros H s d Hs Hd. rewrite Forall_forall in H.
  exact (proj1 (ok_deps _ _ (H s Hs) d Hd)). Qed.

(** The depth-first search decides cycles: on a workflow with distinct step
    names and known dependencies it reports a chain of dependencies that returns to
    its first step, and when it reports nothing there is no such chain. *)
Lemma find_cycle_spec w :
  NoDup (map step_name (steps w)) -> closed_deps (steps w) ->
  match find_cycle w with
  | Some c => is_cycle (depends (steps w)) c
  | None => acyclic (depends (steps w))
  end.
Proof.
  intros Hnd Hcl. pose proof (find_cycle_correct w Hnd Hcl) as H.
  destruct (find_cycle w); [done | by apply steps_acyclic].
Qed.

Definition two_step_loop : Workflow :=
  mkWorkflow "loop"
    [mkStep "a" FanIn None None None None None [lit "b"] None None None None None None None;
     mkStep "b" FanIn None None None None None [lit "a"] None None None None None None None]
    None.

Lemma find_cycle_spec_witness : is_cycle (depends (steps two_step_loop)) [lit "a"; lit "b"; lit "a"].
Proof.
  refine (find_cycle_spec two_step_loop _ _).
  - apply (bool_decide_unpack _). vm_compute. exact I.
  - intros s d Hs Hd. simpl in Hs. apply elem_of_cons in Hs as [->|Hs].
    + apply list_elem_of_singleton in Hd as ->. right. by left.
    + apply list_elem_of_singleton in Hs as ->. apply list_elem_of_singleton in Hd as ->. by left.
Defined.

Lemma validate_budget_spec w :
  validate_budget w = Ok tt
  <-> forall b, budget w = Some b -> ref_ok (steps w) (on_exceeded b).
Proof.
  unfold validate_budget. destruct (budget w) as [b|]; [|done].
  rewrite validate_ref_spec. split; [by intros H ? [= <-] | auto].
Qed.

Lemma validate_valid w : validate w = Ok tt <-> valid_workflow w.
Proof.
  unfold validate. rewrite result_bind_Ok. split.
  - intros ([] & (Hnd & _ & Hall)%validate_steps_spec & H).
    apply result_bind_Ok in H as ([] & Hb & Hc). rewrite validate_budget_spec in Hb.
    pose proof (find_cycle_correct w Hnd (step_ok_closed _ Hall)) as H.
    destruct (find_cycle w); [done |]. split; auto. by apply steps_acyclic.
  - intros [Hnd Hall Hb Hac]. exists tt. split.
    { apply validate_steps_spec. split; [done |]. split; [|done].
      intros s _. apply not_elem_of_empty. }
    apply result_bind_Ok. exists tt. split; [by rewrite validate_budget_spec |].
    pose proof (find_cycle_correct w Hnd (step_ok_closed _ Hall)) as H.
    destruct (find_cycle w); [|done]. apply is_cycle_tc in H as [a Ha]. by destruct (Hac a).
Qed.

(** C40.  [validate] accepts exactly the well-formed workflows: distinct names, the fields it
    requires of each kind of step (a prompt and a known persona, a command, a tool's name
    but not its arguments, a list to fan out over), every reference to an existing step,
    no self-dependency and no dependency cycle. *)
Theorem validate_spec w : validate w = Ok tt <-> valid_workflow w.
Proof. apply validate_valid. Qed.

Lemma valid_grounded w s :
  valid_workflow w -> s ∈ steps w -> grounded (depends (steps w)) (step_name s).
Proof.
  intros [Hnd Hall _ Hac] Hs.
  pose proof (find_cycle_correct w Hnd (step_ok_closed _ Hall)) as H.
  destruct (find_cycle w); [|by apply H]. apply is_cycle_tc in H as [a Ha]. by destruct (Hac a).
Qed.

Lemma ready_steps_elem w done_ x :
  x ∈ ready_steps w done_
  <-> (x ∉ done_) /\ exists s, s ∈ steps w /\ step_name s = x
                   /\ forall d, d ∈ depends_on s -> d ∈ done_.
Proof.
  unfold ready_steps. rewrite list_elem_of_fmap. split.
  - intros (s & -> & Hs). apply list_elem_of_In, filter_In in Hs as [Hs H].
    apply andb_true_iff in H as [H1 H2]. to_prop. split; [done |]. exists s.
    split; [by apply list_elem_of_In |]. split; [done |].
    intros d Hd. rewrite forallb_forall in H2.
    specialize (H2 d ltac:(by apply list_elem_of_In)). by to_prop.
  - intros (Hx & s & Hs & <- & Hd). exists s. split; [done |].
    apply list_elem_of_In, filter_In. split; [by apply list_elem_of_In |].
    apply andb_true_iff. split; [by rewrite bool_decide_eq_false_2 |].
    apply forallb_forall. intros d Hin%list_elem_of_In. apply bool_decide_eq_true. auto.
Qed.

Lemma ready_steps_progress w done_ s :
  valid_workflow w -> s ∈ steps w -> step_name s ∉ done_ -> ready_steps w done_ <> [].
Proof.
  intros Hw Hs. pose proof (valid_grounded w s Hw Hs) as Hg.
  remember (step_name s) as x eqn:Hx. revert s Hs Hx.
  induction Hg as [x _ IH]. intros s Hs -> Hn Hr.
  destruct (decide (Exists (fun d => d ∉ done_) (depends_on s))) as [He|He].
  - apply Exists_exists in He as (d & Hd & Hdn).
    pose proof (step_ok_closed _ (valid_steps w Hw) s d Hs Hd) as Hk.
    apply list_elem_of_fmap in Hk as (t & -> & Ht).
    eapply (IH (step_name t)); [exists s; eauto | exact Ht | done | done | done].
  - assert (step_name s ∈ ready_steps w done_) as Hin; [|by rewrite Hr in Hin; apply elem_of_nil in Hin].
    apply ready_steps_elem. split; [done |]. exists s. split; [done |]. split; [done |].
    intros d Hd. destruct (decide (d ∈ done_)); [done |]. destruct He.
    apply Exists_exists. eauto.
Qed.

(** The scheduling frontier: [ready_steps] lists the steps that are not done
    and whose dependencies are done, and a validated workflow with a step left
    always has one, so the executor cannot get stuck. *)
Lemma ready_steps_spec w done_ :
  validate w = Ok tt ->
  (forall x, x ∈ ready_steps w done_
     <-> (x ∉ done_) /\ exists s, s ∈ steps w /\ step_name s = x
                      /\ forall d, d ∈ depends_on s -> d ∈ done_)
  /\ (ready_steps w done_ = [] <-> forall s, s ∈ steps w -> step_name s ∈ done_).
Proof.
  intros Hv%validate_valid. split; [intros x; apply ready_steps_elem |]. split.
  - intros Hr s Hs. destruct (decide (step_name s ∈ done_)); [done |].
    by destruct (ready_steps_progress w done_ s Hv Hs).
  - intros H. destruct (ready_steps w done_) as [|x r] eqn:E; [done |].
    assert (x ∈ ready_steps w done_) as Hx by (rewrite E; by left).
    apply ready_steps_elem in Hx as (Hx & s & Hs & <- & _). by destruct Hx; apply H.
Qed.

Definition two_step_plan : Workflow :=
  mkWorkflow "plan"
    [mkStep "tests" Bash None None (Some (lit "cargo test")) None None [] None None None None
       None None None;
     mkStep "join" FanIn None None None None None [lit "tests"] None None None None None None None]
    None.

Lemma ready_steps_spec_witness : lit "join" ∈ ready_steps two_step_plan {[lit "tests"]}.
Proof.
  eapply (ready_steps_spec two_step_plan {[lit "tests"]}).
  - vm_compute. reflexivity.
  - split; [apply (bool_decide_unpack _); vm_compute; exact I |].
    eexists. split; [right; by left |]. split; [reflexivity |].
    intros d ->%list_elem_of_singleton. by apply elem_of_singleton.
Defined.

Definition dangling_dependency : Workflow :=
  mkWorkflow "w"
    [mkStep "a" FanIn None None None None None [lit "missing"] None None None None None None None;
     mkStep "b" FanIn None None None None None [lit "a"] None None None None None None None]
    None.

(** On a workflow that was not validated the search can report a cycle that
    does not exist: an unknown dependency leaves its step marked as being visited,
    and a later step that depends on it is reported as a cycle. *)
Theorem find_cycle_unknown_dependency :
  find_cycle dangling_dependency = Some [lit "a"; lit "b"; lit "a"]
  /\ acyclic (depends (steps dangling_dependency)).
Proof.
  split; [vm_compute; reflexivity |]. apply steps_acyclic.
  assert (forall x, x <> lit "a" -> x <> lit "b" -> grounded (depends (steps dangling_dependency)) x) as Hleaf.
  { intros x Ha Hb. constructor. intros y (s & Hs & <- & _).
    by repeat (apply elem_of_cons in Hs as [->|Hs]); [..|apply elem_of_nil in Hs]. }
  assert (grounded (depends (steps dangling_dependency)) (lit "a")) as Hga.
  { constructor. intros y (s & Hs & Hn & Hy).
    apply elem_of_cons in Hs as [->|Hs].
    - apply list_elem_of_singleton in Hy as ->. by apply Hleaf.
    - apply list_elem_of_singleton in Hs as ->. done. }
  intros s Hs. apply elem_of_cons in Hs as [->|Hs]; [exact Hga |].
  apply list_elem_of_singleton in Hs as ->. constructor. intros y (t & Ht & Hn & Hy).
  apply elem_of_cons in Ht as [->|Ht]; [done |].
  apply list_elem_of_singleton in Ht as ->. by apply list_elem_of_singleton in Hy as ->.
Qed.

(** Template names cannot leave the workflow directories: a file is only
    looked up when the name has no separator and is not a dot name, and the path
    found is the name inside one of the two directories. *)
Lemma find_workflow_file_confined exists_ data_dir name p :
  find_workflow_file exists_ data_dir name = Some p ->
  (chr "/" ∉ name) /\ (chr "\" ∉ name) /\ name <> ".." /\ name <> "."
  /\ exists_ p = true
  /\ (p = lit ".kf-code/workflows" ++ "/" ++ name ++ ".json"
      \/ p = user_workflow_dir data_dir ++ "/" ++ name ++ ".json").
Proof.
  unfold find_workflow_file. destruct (is_bare_filename name) eqn:Hb; [|done]. simpl negb.
  cbv iota. unfold is_bare_filename in Hb. to_prop. intros Hf_.
  assert (forall c : Ascii.ascii, contains name [chr c] = false -> chr c ∉ name) as Hc.
  { intros c Hf Hin. apply list_elem_of_split in Hin as (a & b & ->).
    assert (contains (a ++ chr c :: b) [chr c] = true); [|congruence].
    apply contains_spec. by exists a, b. }
  split; [by apply Hc |]. split; [by apply Hc |]. split; [done |]. split; [done |].
  destruct (exists_ (_ ++ _ ++ name ++ _)) eqn:E1; simplify_eq; [by eauto |].
  destruct data_dir as [dir|]; [|done].
  destruct (exists_ (dir ++ _)) eqn:E2; simplify_eq. split; [done |]. right.
  unfold user_workflow_dir. by rewrite <-!app_assoc.
Qed.

Lemma find_workflow_file_confined_witness :
  user_workflow_dir None = lit ".kf-code/workflows"
  /\ (lit ".kf-code/workflows/review.json" = lit ".kf-code/workflows" ++ "/" ++ lit "review" ++ ".json"
      \/ lit ".kf-code/workflows/review.json" = user_workflow_dir None ++ "/" ++ lit "review" ++ ".json").
Proof.
  split; [reflexivity |].
  apply (find_workflow_file_confined (str_eqb ".kf-code/workflows/review.json") None "review").
  vm_compute. reflexivity.
Defined.

(** The arguments of a tool step are documented as required; [validate] does not ask for
    them. *)
Lemma tool_arguments_unchecked :
  let step := mkStep "a" Tool None None None (Some (lit "grep")) None [] None None None None None None None in
  tool_arguments step = None /\ validate (mkWorkflow "w" [step] None) = Ok tt.
Proof. split; [done | vm_compute; reflexivity]. Qed.
