(* ===== verification/WorkflowRefs.v ===== *)
(** * Step references and conditions of workflows

    Models [src/crates/kf-workflow/src/refs.rs] and the [StepOutput] record of
    [lib.rs].  [resolve_step_refs] scans characters; the byte scan of the code for
    the ASCII parentheses finds the same positions.  [serde_json]'s printer and
    parser are the operations of the class [SerdeJson]. *)

From S2P Require Import Prelude Workflow.

(** [Value::to_string] and [serde_json::from_str]. *)
Class SerdeJson := {
  json_to_string : json -> str;
  json_from_str : str -> option json
}.

Record StepOutput := mkStepOutput {
  out_name : str;
  out_kind : StepKind;
  out_persona : str;
  out_summary : str;
  out_critique : option str;
  structured_output : option json;
  out_run_id : option str
}.

Definition StepOutput_default : StepOutput := mkStepOutput [] Agent [] [] None None None.

(** [Value::get] with an integer index. *)
Definition json_index (v : json) (i : N) : option json :=
  match v with JArr l => l !! N.to_nat i | _ => None end.

Definition get_field (v : json) (field : str) : option json :=
  json_get v field <|> (parse_u64 field ≫= json_index v).

Fixpoint follow (v : json) (fields : list str) : option json :=
  match fields with
  | [] => Some v
  | f :: fields' => match get_field v f with
                    | Some v' => follow v' fields'
                    | None => None
                    end
  end.

Section Refs.
Context `{SerdeJson}.

Definition extract_field (val : json) (path : str) : str :=
  match follow val (split_char "."%char path) with
  | None => lit "$(" ++ path ++ lit " not found)"
  | Some (JStr s) => s
  | Some (JNum n) => n
  | Some (JBool b) => if b then lit "true" else lit "false"
  | Some JNull => lit "null"
  | Some other => json_to_string other
  end.

(** The scan for the closing parenthesis: the characters before it, or [None]
    when the parentheses are unbalanced. *)
Fixpoint scan_ref (depth : nat) (s : str) : option str :=
  match s with
  | [] => None
  | c :: s' =>
      let depth' := if (c =? "("%char)%N then S depth
                    else if (c =? ")"%char)%N then pred depth else depth in
      match depth' with
      | O => Some []
      | S _ => cons c <$> scan_ref depth' s'
      end
  end.

(** [content.splitn(2, '.')]. *)
Fixpoint split_name (s : str) : str * option str :=
  match s with
  | [] => ([], None)
  | c :: s' => if (c =? "."%char)%N then ([], Some s')
               else let '(n, p) := split_name s' in (c :: n, p)
  end.

(** The text a reference stands for. *)
Definition resolve_ref (outputs : gmap str StepOutput) (content : str) : str :=
  let '(step_name, field_path) := split_name content in
  match outputs !! step_name with
  | Some output =>
      match field_path with
      | Some path =>
          match structured_output output with
          | Some val => extract_field val path
          | None => out_summary output
          end
      | None => out_summary output
      end
  | None => lit "$(" ++ content ++ lit ")"
  end.

(** The loop of [resolve_step_refs]; [skip] counts the characters of a reference
    the iterator still has to pass. *)
Fixpoint resolve_from (outputs : gmap str StepOutput) (skip : nat) (s : str) : str :=
  match s with
  | [] => []
  | c :: s' =>
      match skip with
      | S k => resolve_from outputs k s'
      | O =>
          if (c =? "$"%char)%N && starts_with s' "(" then
            match scan_ref 1 (drop 1 s') with
            | None => c :: resolve_from outputs 0 s'
            | Some content =>
                resolve_ref outputs content
                ++ resolve_from outputs (length content + 2) s'
            end
          else c :: resolve_from outputs 0 s'
      end
  end.

Definition resolve_step_refs (text : str) (outputs : gmap str StepOutput) : str :=
  resolve_from outputs 0 text.
End Refs.

(** ** Conditions *)

Definition is_safe_condition_char (c : char) : bool :=
  in_range 97 122 c || in_range 65 90 c || in_range 48 57 c
  || bool_decide (c ∈ lit " _-=!<>()'/.:\" ++ dquote ++ [9; 10]%N).

(** What spawning [sh -c condition] under the wall-clock bound leads to. *)
Inductive ShOutcome :=
| Exited (success : bool)
| SpawnFailed (e : str)
| TimedOut.

(** [eval_condition_bounded]; [run_sh] is the spawned shell. *)
Definition eval_condition_bounded `{UnicodePrint} (run_sh : str -> ShOutcome)
    (condition : str) : result bool str :=
  match find (fun c => negb (is_safe_condition_char c)) condition with
  | Some bad =>
      Err (lit "condition contains disallowed character " ++ debug_char bad
           ++ lit ": " ++ condition)
  | None =>
      match run_sh condition with
      | Exited success => Ok success
      | SpawnFailed e =>
          Err (lit "condition eval failed for '" ++ condition ++ lit "': " ++ e)
      | TimedOut => Ok false
      end
  end.

(** ** Properties of references *)

Section RefsProofs.
Context `{SerdeJson}.
Implicit Types (outputs : gmap str StepOutput).

Lemma scan_ref_split depth s content :
  scan_ref (S depth) s = Some content -> exists rest, s = content ++ chr ")" :: rest.
Proof.
  revert depth content. induction s as [|c s IH]; intros depth content; [done |].
  cbn [scan_ref]. case_eq (c =? "("%char)%N; intros Hc.
  - intros Hs. apply fmap_Some in Hs as (x & Hx & ->).
    destruct (IH _ _ Hx) as [r ->]. by exists r.
  - case_eq (c =? ")"%char)%N; intros Hc'.
    + apply N.eqb_eq in Hc' as ->. cbn [pred]. destruct depth as [|depth].
      * intros [= <-]. by exists s.
      * intros Hs. apply fmap_Some in Hs as (x & Hx & ->).
        destruct (IH _ _ Hx) as [r ->]. by exists r.
    + intros Hs. apply fmap_Some in Hs as (x & Hx & ->).
      destruct (IH _ _ Hx) as [r ->]. by exists r.
Qed.

Definition no_paren (s : str) : Prop := (chr "(" ∉ s) /\ (chr ")" ∉ s).

Lemma scan_ref_plain s rest :
  no_paren s -> scan_ref 1 (s ++ chr ")" :: rest) = Some s.
Proof.
  unfold no_paren. induction s as [|c s IH]; intros [H1 H2]; [done |].
  apply not_elem_of_cons in H1 as [H1 H1'], H2 as [H2 H2'].
  cbn [app scan_ref]. rewrite (proj2 (N.eqb_neq _ _)), (proj2 (N.eqb_neq _ _)) by congruence.
  by rewrite IH.
Qed.

Lemma resolve_from_skip outputs p s :
  resolve_from outputs (length p) (p ++ s) = resolve_from outputs 0 s.
Proof. induction p as [|c p IH]; [done | exact IH]. Qed.

(** One step of the scan at a reference. *)
Lemma resolve_ref_step outputs content rest :
  scan_ref 1 (content ++ chr ")" :: rest) = Some content ->
  resolve_from outputs 0 (lit "$(" ++ content ++ chr ")" :: rest)
  = resolve_ref outputs content ++ resolve_from outputs 0 rest.
Proof.
  intros Hs. change (lit "$(") with [chr "$"; chr "("]. cbn [app resolve_from].
  change ((chr "$" =? "$"%char)%N) with true.
  change (starts_with (chr "(" :: content ++ chr ")" :: rest) "(") with true.
  cbn [andb]. change (drop 1 (chr "(" :: content ++ chr ")" :: rest))
    with (content ++ chr ")" :: rest).
  rewrite Hs. f_equal.
  replace (length content + 2) with (length (chr "(" :: content ++ [chr ")"]))
    by (simpl; rewrite length_app; simpl; lia).
  rewrite <-(resolve_from_skip outputs (chr "(" :: content ++ [chr ")"]) rest).
  by rewrite <-app_comm_cons, <-app_assoc.
Qed.

(** Text with no dollar sign is copied. *)
Lemma resolve_from_plain outputs a s :
  chr "$" ∉ a -> resolve_from outputs 0 (a ++ s) = a ++ resolve_from outputs 0 s.
Proof.
  induction a as [|c a IH]; intros Ha; [done |].
  apply not_elem_of_cons in Ha as [Hc Ha]. cbn [app resolve_from].
  rewrite (proj2 (N.eqb_neq c "$"%char)) by congruence. cbn [andb]. by rewrite IH.
Qed.

Lemma split_name_plain n : chr "." ∉ n -> split_name n = (n, None).
Proof.
  induction n as [|c n IH]; intros Hn; [done |]. apply not_elem_of_cons in Hn as [Hc Hn].
  cbn [split_name]. rewrite (proj2 (N.eqb_neq c "."%char)), (IH Hn) by congruence. done.
Qed.

Lemma split_name_field n p : chr "." ∉ n -> split_name (n ++ lit "." ++ p) = (n, Some p).
Proof.
  induction n as [|c n IH]; intros Hn; [done |]. apply not_elem_of_cons in Hn as [Hc Hn].
  cbn [app split_name]. rewrite (proj2 (N.eqb_neq c "."%char)), (IH Hn) by congruence. done.
Qed.

(** References are replaced in one left-to-right pass: after text without
    dollar signs, a reference to a completed step becomes its summary, one with a
    field path becomes the field of its structured output (or the summary when there
    is none), an unknown step's reference is left as it is; the inserted text is
    never scanned again. *)
Lemma resolve_step_refs_spec outputs a n path rest :
  (chr "$" ∉ a) -> no_paren n -> (chr "." ∉ n) -> no_paren path ->
  resolve_step_refs (a ++ lit "$(" ++ n ++ chr ")" :: rest) outputs
  = a ++ match outputs !! n with
         | Some o => out_summary o
         | None => lit "$(" ++ n ++ lit ")"
         end ++ resolve_step_refs rest outputs
  /\ resolve_step_refs (a ++ lit "$(" ++ (n ++ lit "." ++ path) ++ chr ")" :: rest) outputs
  = a ++ match outputs !! n with
         | Some o => match structured_output o with
                     | Some v => extract_field v path
                     | None => out_summary o
                     end
         | None => lit "$(" ++ (n ++ lit "." ++ path) ++ lit ")"
         end ++ resolve_step_refs rest outputs.
Proof.
  intros Ha [Hn1 Hn2] Hdot [Hp1 Hp2]. unfold resolve_step_refs.
  rewrite !(resolve_from_plain _ a) by done. rewrite !resolve_ref_step.
  - unfold resolve_ref. rewrite split_name_plain, split_name_field by done. done.
  - apply scan_ref_plain. unfold no_paren. rewrite !not_elem_of_app.
    change (lit ".") with [chr "."].
    repeat split; try done; apply not_elem_of_cons; split; (done || apply not_elem_of_nil).
  - by apply scan_ref_plain.
Qed.

Lemma split_name_join s : let '(n, p) := split_name s in
  s = match p with Some q => n ++ chr "." :: q | None => n end.
Proof.
  induction s as [|c s IH]; [done |]. cbn [split_name].
  destruct (c =? "."%char)%N eqn:E; [by apply N.eqb_eq in E as -> |].
  destruct (split_name s) as [n [q|]]; by rewrite IH.
Qed.

Lemma resolve_ref_unknown outputs content :
  outputs !! (split_name content).1 = None ->
  resolve_ref outputs content = lit "$(" ++ content ++ lit ")".
Proof. unfold resolve_ref. destruct (split_name content). simpl. by intros ->. Qed.

Lemma resolve_from_no_outputs n s : resolve_from ∅ n s = drop n s.
Proof.
  revert n. induction s as [|c s IH]; intros n; [by destruct n |].
  destruct n as [|n]; [|apply IH].
  cbn [resolve_from]. destruct ((c =? "$"%char)%N && starts_with s "(") eqn:E.
  - to_prop. subst c. apply starts_with_spec in H1 as [s1 ->].
    change (lit "(") with [chr "("] in *. cbn [app] in IH. cbn [app drop skipn]. rewrite drop_0.
    destruct (scan_ref 1 s1) as [content|] eqn:Hs.
    + apply scan_ref_split in Hs as [r ->].
      rewrite resolve_ref_unknown by apply lookup_empty.
      rewrite IH. change (lit "$(") with [chr "$"; chr "("].
      replace (length content + 2) with (length (chr "(" :: content ++ [chr ")"]))
        by (simpl; rewrite length_app; simpl; lia).
      replace (chr "(" :: content ++ chr ")" :: r)
        with ((chr "(" :: content ++ [chr ")"]) ++ r) by (simpl; by rewrite <-app_assoc).
      rewrite drop_app_length. simpl. by rewrite <-!app_assoc.
    + f_equal. apply IH.
  - rewrite IH. reflexivity.
Qed.

(** With no completed step every text is left unchanged, whatever reference
    syntax (nested, unbalanced or truncated) it holds. *)
Theorem resolve_step_refs_no_outputs text : resolve_step_refs text ∅ = text.
Proof. unfold resolve_step_refs. by rewrite resolve_from_no_outputs. Qed.
End RefsProofs.

#[local] Instance demo_serde : SerdeJson :=
  {| json_to_string _ := []; json_from_str _ := None |}.

Lemma resolve_step_refs_spec_witness :
  resolve_step_refs (lit "run " ++ lit "$(" ++ (lit "plan" ++ lit "." ++ lit "cmd")
                     ++ chr ")" :: lit "!")
    {[lit "plan" := mkStepOutput "plan" Agent [] "text" None
                      (Some (JObj [(lit "cmd", JStr "$(plan)")])) None]}
  = lit "run $(plan)!".
Proof.
  etransitivity.
  - eapply (resolve_step_refs_spec _ (lit "run ") (lit "plan") (lit "cmd") (lit "!")).
    all: unfold no_paren; try split; apply (bool_decide_unpack _); vm_compute; exact I.
  - vm_compute. reflexivity.
Defined.

(** ** Properties of conditions *)

Lemma eval_condition_reaches_shell `{UnicodePrint} run_sh condition :
  Forall (fun c => is_safe_condition_char c = true) condition ->
  eval_condition_bounded run_sh condition
  = match run_sh condition with
    | Exited success => Ok success
    | SpawnFailed e => Err (lit "condition eval failed for '" ++ condition ++ lit "': " ++ e)
    | TimedOut => Ok false
    end.
Proof.
  intros Hc. unfold eval_condition_bounded.
  destruct (find _ condition) as [bad|] eqn:E; [|done].
  apply find_some in E as [Hin Hb]. rewrite Forall_forall in Hc.
  rewrite (Hc bad) in Hb by (by apply list_elem_of_In). done.
Qed.

(** A condition reaches the shell only when every character is on the
    allowlist: the result then is the exit status, [false] on a timeout, an error on
    a failed spawn; a condition with a semicolon, ampersand, pipe, dollar sign or
    backtick is an error whatever the shell would do.  The newline, which separates
    shell commands too, is on the list. *)
Lemma eval_condition_bounded_spec `{UnicodePrint} run_sh condition :
  (Forall (fun c => is_safe_condition_char c = true) condition ->
   eval_condition_bounded run_sh condition
   = match run_sh condition with
     | Exited success => Ok success
     | SpawnFailed e => Err (lit "condition eval failed for '" ++ condition ++ lit "': " ++ e)
     | TimedOut => Ok false
     end)
  /\ (~ Forall (fun c => is_safe_condition_char c = true) condition ->
      is_ok (eval_condition_bounded run_sh condition) = false)
  /\ Forall (fun c => is_safe_condition_char c = false) (lit ";&|$`*?{}~#%")
  /\ is_safe_condition_char 10 = true.
Proof.
  split; [apply eval_condition_reaches_shell |]. split.
  - intros Hn. unfold eval_condition_bounded.
    destruct (find _ condition) as [bad|] eqn:E; [done |].
    exfalso. apply Hn. apply Forall_forall. intros c Hc%list_elem_of_In.
    pose proof (find_none _ _ E c Hc) as Hf. by apply negb_false_iff in Hf.
  - split; [vm_compute; repeat constructor | reflexivity].
Qed.

#[local] Instance ascii_print : UnicodePrint := fun _ => false.

Lemma eval_condition_bounded_spec_witness :
  eval_condition_bounded (fun _ => TimedOut) "sleep infinity" = Ok false.
Proof.
  apply (eval_condition_bounded_spec (fun _ => TimedOut) "sleep infinity").
  vm_compute. repeat constructor.
Defined.
