(* ===== verification/WorkflowExec.v ===== *)
(** * The workflow executor

    Models [src/crates/kf-workflow/src/executor.rs] with the [StepRunner] trait,
    [StepRequest], [BatchErrors] and [WorkflowSummary] of [lib.rs].

    The executor is written in a state-and-error monad [M]: its state is the three
    collections of [run] ([completed], [skipped], [outputs]) and the outside world.
    The world is a type parameter: the runner's operations ([StepRunner]), the
    clock, the cancellation flag and tokio's [JoinSet] ([Host]) act on it.  The loop
    of [run] takes fuel; [run_terminates] shows that one turn per step suffices for
    every runner that reports on the steps it was given. *)

From S2P Require Import Prelude Workflow WorkflowRefs.

(** ** Errors and requests *)

(** An [anyhow::Error]: a message, or a [BatchErrors] value that can be recovered
    by [downcast_ref]. *)
Inductive error :=
| Anyhow (msg : str)
| Batch (successes : list (str * str)) (failures : list (str * error)).

(** [Display]. *)
Definition error_display (e : error) : str :=
  match e with
  | Anyhow msg => msg
  | Batch successes failures =>
      lit "batch failed: " ++ show_nat (length failures) ++ "/"
      ++ show_nat (length successes + length failures) ++ lit " steps errored"
  end.

(** [BatchErrors::has_failures]. *)
Definition has_failures (failures : list (str * error)) : bool :=
  negb (bool_decide (length failures = 0)).

Record StepRequest := mkRequest {
  req_name : str;
  req_kind : StepKind;
  req_prompt : str;
  req_persona : str;
  req_command : str;
  req_tool_name : str;
  req_tool_arguments : json;
  with_critique : bool
}.

Record WorkflowSummary := mkSummary {
  workflow_name : str;
  sum_outputs : gmap str StepOutput;
  budget_exceeded : bool;
  sum_run_id : option str
}.

(** [WorkflowSummary::ordered_outputs]. *)
Definition ordered_outputs (s : WorkflowSummary) (order : list str) : list StepOutput :=
  omap (fun n => sum_outputs s !! n) order.

(** The [StepRunner] trait over a world [W]. *)
Record StepRunner (W : Type) := mkRunner {
  run_step : str -> str -> str -> W -> result str error * W;
  run_bash : str -> str -> W -> result str error * W;
  run_tool : str -> str -> json -> W -> result str error * W;
  eval_condition : str -> W -> result bool error * W;
  run_batch : list StepRequest -> W -> result (list (str * str)) error * W
}.
Arguments run_step {W}.
Arguments run_bash {W}.
Arguments run_tool {W}.
Arguments eval_condition {W}.
Arguments run_batch {W}.

(** The default methods of the trait, for a runner that has only [run_step]. *)
Definition default_run_bash {W} (name _command : str) (w : W) : result str error * W :=
  (Err (Anyhow (lit "bash steps not supported by this runner (step '" ++ name ++ lit "')")), w).
Definition default_run_tool {W} (name _tool : str) (_args : json) (w : W)
  : result str error * W :=
  (Err (Anyhow (lit "tool steps not supported by this runner (step '" ++ name ++ lit "')")), w).

(** One request of the default [run_batch]. *)
Definition run_request {W} (r : StepRunner W) (req : StepRequest) (w : W)
  : result str error * W :=
  match req_kind req with
  | Agent => run_step r (req_name req) (req_prompt req) (req_persona req) w
  | Bash => run_bash r (req_name req) (req_command req) w
  | Tool => run_tool r (req_name req) (req_tool_name req) (req_tool_arguments req) w
  | FanOut => (Err (Anyhow "fan_out steps are expanded before reaching run_batch"), w)
  | FanIn =>
      (Err (Anyhow "fan_in steps collect fan-out results, not dispatched individually"), w)
  end.

(** The default [run_batch]: in order, stopping at the first error. *)
Fixpoint default_run_batch {W} (r : StepRunner W) (reqs : list StepRequest) (w : W)
  : result (list (str * str)) error * W :=
  match reqs with
  | [] => (Ok [], w)
  | req :: reqs' =>
      match run_request r req w with
      | (Err e, w') => (Err e, w')
      | (Ok summary, w') =>
          match default_run_batch r reqs' w' with
          | (Err e, w'') => (Err e, w'')
          | (Ok out, w'') => (Ok ((req_name req, summary) :: out), w'')
          end
      end
  end.

(** What a joined child task gave. *)
Inductive Joined :=
| TaskDone (r : result str error)
| TaskPanicked (e : str).

Record ChildTask := mkChild {
  child_index : nat;
  child_name : str;
  child_prompt : str;
  child_persona : str
}.

(** The runtime: the cancellation flag (if the caller passed one), the seconds
    since [run] started, and the join of the spawned children under a semaphore:
    the completions in the order they arrive, or [None] when the cancellation flag
    was seen first. *)
Record Host (W : Type) := mkHost {
  cancellation : option (W -> bool);
  elapsed_secs : W -> N;
  join_children : nat -> list ChildTask -> W -> option (list (nat * Joined)) * W
}.
Arguments cancellation {W}.
Arguments elapsed_secs {W}.
Arguments join_children {W}.

(** ** State and errors *)

Record Exec (W : Type) := mkExec {
  completed : gset str;
  skipped : gset str;
  outputs : gmap str StepOutput;
  world : W
}.
Arguments mkExec {W}.
Arguments completed {W}.
Arguments skipped {W}.
Arguments outputs {W}.
Arguments world {W}.

Definition M (W A : Type) : Type := Exec W -> result A error * Exec W.

Definition ret {W A} (a : A) : M W A := fun s => (Ok a, s).
Definition bail {W A} (e : error) : M W A := fun s => (Err e, s).
Definition bind {W A B} (m : M W A) (k : A -> M W B) : M W B := fun s =>
  match m s with
  | (Ok a, s') => k a s'
  | (Err e, s') => (Err e, s')
  end.
Definition lift {W A} (r : result A error) : M W A := fun s => (r, s).
Definition get {W} : M W (Exec W) := fun s => (Ok s, s).
Definition call {W A} (f : W -> result A error * W) : M W A := fun s =>
  let '(r, w) := f (world s) in
  (r, mkExec (completed s) (skipped s) (outputs s) w).
Definition mark_completed {W} (x : str) : M W unit := fun s =>
  (Ok tt, mkExec ({[x]} ∪ completed s) (skipped s) (outputs s) (world s)).
Definition mark_skipped {W} (x : str) : M W unit := fun s =>
  (Ok tt, mkExec (completed s) ({[x]} ∪ skipped s) (outputs s) (world s)).
Definition insert_output {W} (x : str) (o : StepOutput) : M W unit := fun s =>
  (Ok tt, mkExec (completed s) (skipped s) (<[x := o]> (outputs s)) (world s)).

Notation "'let!' x := m 'in' k" := (bind m (fun x => k))
  (at level 10, x pattern, m at level 99, k at level 200,
   format "'[v' 'let!'  x  :=  m  'in' '/' k ']'") : rust_scope.
Notation "'do!' m ;; k" := (bind m (fun _ => k))
  (at level 10, m at level 99, k at level 200,
   format "'[v' 'do!'  m  ;; '/' k ']'") : rust_scope.

(** ** The executor *)

Section Executor.
Context `{SerdeJson} {W : Type}.
Variable runner : StepRunner W.
Variable host : Host W.
Variable w : Workflow.
Variable run_id : option str.

(** The outputs with the session's run id stamped on each of them. *)
Definition stamp_run_id (outs : gmap str StepOutput) : gmap str StepOutput :=
  match run_id with
  | Some rid =>
      (fun o => mkStepOutput (out_name o) (out_kind o) (out_persona o) (out_summary o)
                  (out_critique o) (structured_output o) (Some rid)) <$> outs
  | None => outs
  end.

Definition summary_of (exceeded : bool) (outs : gmap str StepOutput) : WorkflowSummary :=
  mkSummary (wf_name w) (stamp_run_id outs) exceeded run_id.

(** A synthetic output with an empty persona: the error and budget handlers. *)
Definition handler_output (name summary : str) : StepOutput :=
  mkStepOutput name Agent [] summary None None None.

Definition insert_on_exceeded (handler reason : str) : M W unit :=
  let! s := get in
  if bool_decide (handler ∉ completed s) && bool_decide (handler ∉ skipped s) then
    do! mark_completed handler ;;
    insert_output handler (handler_output handler reason)
  else ret tt.

Definition exceeded_with (b : Budget) (reason : str) : M W bool :=
  do! match on_exceeded b with
      | Some handler => insert_on_exceeded handler reason
      | None => ret tt
      end ;;
  ret true.

Definition check_seconds (b : Budget) : M W bool :=
  let! s := get in
  match max_seconds b with
  | Some max_secs =>
      if (max_secs <=? elapsed_secs host (world s))%N
      then exceeded_with b (lit "budget exceeded: max_seconds (" ++ show_N max_secs ++ lit ")")
      else ret false
  | None => ret false
  end.

Definition check_budget (b : Budget) (iterations : N) : M W bool :=
  match max_iterations b with
  | Some max_iter =>
      if (max_iter <=? iterations)%N
      then exceeded_with b
             (lit "budget exceeded: max_iterations (" ++ show_N max_iter ++ lit ")")
      else check_seconds b
  | None => check_seconds b
  end.

Definition newline : str := [10%N].

(** The context of one dependency in an agent prompt. *)
Fixpoint dep_context (outs : gmap str StepOutput) (deps : list str) : result str error :=
  match deps with
  | [] => Ok []
  | dep :: deps' =>
      match outs !! dep with
      | None => Err (Anyhow (lit "missing output for dependency " ++ dep))
      | Some o =>
          let? rest := dep_context outs deps' in
          Ok (newline ++ lit "## " ++ dep ++ lit " (" ++ out_persona o ++ lit "):" ++ newline
              ++ out_summary o
              ++ match out_critique o with
                 | Some c => newline ++ newline ++ lit "Critique of " ++ dep ++ lit ":"
                             ++ newline ++ c
                 | None => []
                 end ++ rest)
      end
  end.

Definition build_agent_prompt (step : Step) (outs : gmap str StepOutput)
  : result str error :=
  let prompt0 := unwrap_or [] (prompt step) in
  let prompt1 :=
    match fork_from step with
    | Some fork =>
        match outs !! fork with
        | Some o => lit "Context from forked step '" ++ fork ++ lit "':" ++ newline
                    ++ out_summary o ++ newline ++ newline ++ lit "---" ++ newline ++ newline
                    ++ prompt0
        | None => prompt0
        end
    | None => prompt0
    end in
  let? prompt2 :=
    (if decide (depends_on step = []) then Ok prompt1
     else let? ctx := dep_context outs (depends_on step) in
          Ok (prompt1 ++ newline ++ newline ++ lit "Context from previous steps:" ++ newline
              ++ ctx)) in
  Ok (resolve_step_refs prompt2 outs).

(** *** Fan-out and fan-in *)

Definition fan_child (step : Step) (persona_ : str) (name : str) (outs : gmap str StepOutput)
    (i : nat) (item : json) : ChildTask :=
  let item_str := match item with JStr s => s | other => json_to_string other end in
  mkChild i (step_name step ++ lit "_" ++ show_nat i)
    (replace (resolve_step_refs (unwrap_or [] (prompt step)) outs)
       (lit "${" ++ name ++ lit "}") item_str)
    persona_.

(** The drain of the [JoinSet]: the results in arrival order and the first error. *)
Fixpoint drain (arrived : list (nat * Joined)) : list (nat * str) * option error :=
  match arrived with
  | [] => ([], None)
  | (i, TaskDone (Ok summary)) :: rest =>
      let '(results, err) := drain rest in ((i, summary) :: results, err)
  | (_, TaskDone (Err e)) :: rest => (fst (drain rest), Some e)
  | (_, TaskPanicked e) :: rest =>
      (fst (drain rest), Some (Anyhow (lit "fan-out task panicked: " ++ e)))
  end.

(** [results.sort_by_key(|(i, _, _)| *i)]. *)
Definition sort_by_key (l : list (nat * str)) : list (nat * str) :=
  sort_by (fun r => N.of_nat (fst r)) l.

Definition child_section (step : Step) (r : nat * str) : str :=
  lit "## " ++ (step_name step ++ lit "_" ++ show_nat (fst r)) ++ lit " (item "
  ++ show_nat (fst r) ++ lit "):" ++ newline ++ snd r.

Definition child_value (items : list json) (r : nat * str) : json :=
  JObj [(lit "index", JNum (show_nat (fst r)));
        (lit "item", unwrap_or JNull (items !! fst r));
        (lit "structured_output", unwrap_or JNull (json_from_str (snd r)));
        (lit "summary", JStr (snd r))].

Definition fan_out_output (step : Step) (persona_ : str) (items : list json)
    (results : list (nat * str)) : StepOutput :=
  let sorted := sort_by_key results in
  mkStepOutput (step_name step) FanOut persona_
    (join (newline ++ newline) (map (child_section step) sorted)) None
    (Some (JArr (map (child_value items) sorted))) None.

Definition fan_out_failed (step : Step) (persona_ : str) (e : error)
  : M W (option StepOutput) :=
  match on_error step with
  | Some handler =>
      do! mark_completed (step_name step) ;;
      do! mark_completed handler ;;
      do! insert_output (step_name step)
            (mkStepOutput (step_name step) FanOut persona_
               (lit "fan-out failed: " ++ error_display e) None None None) ;;
      do! insert_output handler
            (handler_output handler
               (lit "error handler triggered by: " ++ error_display e)) ;;
      ret None
  | None => bail e
  end.

Definition run_fan_out (step : Step) : M W (option StepOutput) :=
  let! over_expr := lift (ok_or (over step)
        (Anyhow (lit "fan_out step '" ++ step_name step ++ lit "' requires 'over'"))) in
  let! name := lift (ok_or (as_name step)
        (Anyhow (lit "fan_out step '" ++ step_name step ++ lit "' requires 'as_name'"))) in
  let! s := get in
  let resolved_over := resolve_step_refs over_expr (outputs s) in
  let! items := lift (ok_or (json_from_str resolved_over ≫= as_array)
        (Anyhow (lit "fan_out step '" ++ step_name step
                 ++ lit "': 'over' must resolve to a JSON array, got: " ++ resolved_over))) in
  let persona_ := unwrap_or (lit "coder") (persona step) in
  let max_permits :=
    Nat.max (unwrap_or (length items) (N.to_nat <$> max_parallel step)) 1 in
  let children := imap (fan_child step persona_ name (outputs s)) items in
  let! joined := call (fun wd =>
        let '(r, wd') := join_children host max_permits children wd in
        (ok_or r (Anyhow "workflow cancelled"), wd')) in
  let '(results, err) := drain joined in
  match err with
  | Some e => fan_out_failed step persona_ e
  | None =>
      do! mark_completed (step_name step) ;;
      ret (Some (fan_out_output step persona_ items results))
  end.

Definition fan_in_text (step : Step) (outs : gmap str StepOutput) : str :=
  depends_on step ≫= fun dep =>
    match outs !! dep with
    | Some o => lit "## " ++ dep ++ lit ":" ++ newline ++ out_summary o ++ newline ++ newline
    | None => []
    end.

Definition run_fan_in (step : Step) : M W StepOutput :=
  let! s := get in
  let combined := fan_in_text step (outputs s) in
  do! mark_completed (step_name step) ;;
  ret (mkStepOutput (step_name step) FanIn []
         (if decide (combined = []) then lit "no fan-out results" else trim_end combined)
         None None None).

(** *** Batch errors *)

(** [format!("{:?}", step.kind).to_lowercase()]. *)
Definition kind_lowercase (k : StepKind) : str :=
  match k with
  | Agent => "agent" | Bash => "bash" | Tool => "tool"
  | FanOut => "fanout" | FanIn => "fanin"
  end.

(** The output of a step that succeeded. *)
Definition success_output (step : Step) (name summary : str) (crit : option str) : StepOutput :=
  mkStepOutput name (step_kind step)
    (unwrap_or (kind_lowercase (step_kind step)) (persona step)) summary crit
    (json_from_str summary) None.

(** The output of a step that failed. *)
Definition failure_output (step : Step) (name msg : str) : StepOutput :=
  mkStepOutput name (step_kind step) (unwrap_or [] (persona step))
    (lit "step failed: " ++ msg) None None None.

Definition route_of (name : str) : option str :=
  find_step (steps w) name ≫= on_error.

Definition trigger_handler (handler msg : str) : M W unit :=
  do! mark_completed handler ;;
  insert_output handler (handler_output handler (lit "error handler triggered by: " ++ msg)).

Fixpoint store_successes (l : list (str * str)) : M W unit :=
  match l with
  | [] => ret tt
  | (name, summary) :: l' =>
      let! step := lift (ok_or (find_step (steps w) name)
            (Anyhow (lit "batch step '" ++ name ++ lit "' not found in workflow"))) in
      do! insert_output name (success_output step name summary None) ;;
      do! mark_completed name ;;
      store_successes l'
  end.

(** The loop over the failures; it carries the first message and the first route. *)
Fixpoint store_failures (l : list (str * error)) (first_error_msg route : option str)
  : M W (option str * option str) :=
  match l with
  | [] => ret (first_error_msg, route)
  | (name, err) :: l' =>
      let first' := match first_error_msg with
                    | None => Some (error_display err)
                    | some => some
                    end in
      let! step := lift (ok_or (find_step (steps w) name)
            (Anyhow (lit "batch step '" ++ name ++ lit "' not found in workflow"))) in
      let route' := match route with None => on_error step | some => some end in
      do! insert_output name (failure_output step name (error_display err)) ;;
      do! mark_completed name ;;
      store_failures l' first' route'
  end.

Definition handle_partitioned_batch_error (successes : list (str * str))
    (failures : list (str * error)) : M W unit :=
  do! store_successes successes ;;
  let! (first_error_msg, route) := store_failures failures None None in
  match route with
  | Some handler => trigger_handler handler (unwrap_or (lit "batch failure") first_error_msg)
  | None => bail (Anyhow (unwrap_or (lit "batch failed with no error detail") first_error_msg))
  end.

Fixpoint store_all_failed (tasks : list StepRequest) (msg : str) : M W unit :=
  match tasks with
  | [] => ret tt
  | task :: tasks' =>
      let! step := lift (ok_or (find_step (steps w) (req_name task))
            (Anyhow (lit "batch error step '" ++ req_name task
                     ++ lit "' not found in workflow"))) in
      do! insert_output (req_name task) (failure_output step (req_name task) msg) ;;
      do! mark_completed (req_name task) ;;
      store_all_failed tasks' msg
  end.

Definition handle_batch_error (tasks : list StepRequest) (e : error) : M W unit :=
  match e with
  | Batch successes failures => handle_partitioned_batch_error successes failures
  | Anyhow _ =>
      if negb (existsb (fun t => is_some_b (route_of (req_name t))) tasks) then bail e
      else
        do! store_all_failed tasks (error_display e) ;;
        match find_map (fun t => route_of (req_name t)) tasks with
        | Some handler => trigger_handler handler (error_display e)
        | None => ret tt
        end
  end.

(** *** One turn of the loop *)

(** Evaluate the conditions of the ready steps; the ones to run remain. *)
Fixpoint filter_conditions (ready : list str) : M W (list str) :=
  match ready with
  | [] => ret []
  | name :: ready' =>
      let! step := lift (ok_or (find_step (steps w) name)
            (Anyhow (lit "missing step " ++ name))) in
      let! keep := match condition step with
                   | Some cond => call (eval_condition runner cond)
                   | None => ret true
                   end in
      if keep then
        let! rest := filter_conditions ready' in ret (name :: rest)
      else
        do! mark_skipped name ;;
        filter_conditions ready'
  end.

(** The request of an agent, bash or tool step. *)
Definition request_of (step : Step) (outs : gmap str StepOutput) : result StepRequest error :=
  match step_kind step with
  | Agent =>
      let? p := build_agent_prompt step outs in
      Ok (mkRequest (step_name step) Agent p (unwrap_or [] (persona step)) [] [] JNull
            (unwrap_or false (critique step)))
  | Bash =>
      Ok (mkRequest (step_name step) Bash [] []
            (resolve_step_refs (unwrap_or [] (command step)) outs) [] JNull false)
  | _ =>
      Ok (mkRequest (step_name step) Tool
            (resolve_step_refs (unwrap_or [] (prompt step)) outs) [] []
            (unwrap_or [] (tool_name step)) (unwrap_or (JObj []) (tool_arguments step)) false)
  end.

(** Fan steps run inline; the others become the tasks of the batch. *)
Fixpoint collect_tasks (names : list str) : M W (list StepRequest) :=
  match names with
  | [] => ret []
  | name :: names' =>
      let! step := lift (ok_or (find_step (steps w) name)
            (Anyhow (lit "missing step " ++ name))) in
      match step_kind step with
      | FanOut =>
          let! result := run_fan_out step in
          do! match result with
              | Some output => insert_output (step_name step) output
              | None => ret tt
              end ;;
          collect_tasks names'
      | FanIn =>
          let! output := run_fan_in step in
          do! insert_output (step_name step) output ;;
          collect_tasks names'
      | _ =>
          let! s := get in
          let! req := lift (request_of step (outputs s)) in
          let! rest := collect_tasks names' in
          ret (req :: rest)
      end
  end.

Definition critique_prompt (summary : str) : str :=
  lit "You are a critical reviewer. Evaluate the following output for risks, gaps, and correctness. Keep it concise."
  ++ newline ++ newline ++ lit "Output to critique:" ++ newline ++ summary.

(** Pair the results with the tasks by name; in a [HashMap] built from a list the
    last entry of a name wins. *)
Fixpoint store_results (results : list (str * str)) (tasks : list StepRequest) : M W unit :=
  match tasks with
  | [] => ret tt
  | task :: tasks' =>
      let! step := lift (ok_or (find_step (steps w) (req_name task))
            (Anyhow (lit "missing step " ++ req_name task))) in
      let! summary := lift (ok_or (assoc (req_name task) (rev results))
            (Anyhow (lit "runner returned no result for step '" ++ req_name task ++ lit "'"))) in
      let! crit :=
        (if with_critique task then
           let! c := call (run_step runner (req_name task ++ lit "-critique")
                             (critique_prompt summary) "plan") in ret (Some c)
         else ret None) in
      do! mark_completed (req_name task) ;;
      do! insert_output (req_name task) (success_output step (req_name task) summary crit) ;;
      store_results results tasks'
  end.

(** What a turn of the loop decides. *)
Inductive Turn := Next | Return (s : WorkflowSummary).

Definition run_tasks (tasks : list StepRequest) : M W Turn :=
  let! batch_result := (fun s =>
        let '(r, wd) := run_batch runner tasks (world s) in
        (Ok r, mkExec (completed s) (skipped s) (outputs s) wd)) in
  match batch_result with
  | Err e => do! handle_batch_error tasks e ;; ret Next
  | Ok results => do! store_results results tasks ;; ret Next
  end.

Definition run_ready : M W Turn :=
  let! s := get in
  let ready := ready_steps w (completed s ∪ skipped s) in
  match ready with
  | [] => bail (Anyhow "workflow has no ready steps but is not complete (possible cycle)")
  | _ =>
      let! ready_filtered := filter_conditions ready in
      match ready_filtered with
      | [] => ret Next
      | _ =>
          let! tasks := collect_tasks ready_filtered in
          match tasks with
          | [] => ret Next
          | _ => run_tasks tasks
          end
      end
  end.

Definition turn (iterations : N) : M W Turn :=
  let! s := get in
  if match cancellation host with Some flag => flag (world s) | None => false end
  then bail (Anyhow "workflow cancelled")
  else
    let! exceeded := match budget w with
                     | Some b => check_budget b iterations
                     | None => ret false
                     end in
    if exceeded then let! s := get in ret (Return (summary_of true (outputs s)))
    else run_ready.

Definition unfinished (s : Exec W) : bool :=
  size (completed s) + size (skipped s) <? length (steps w).

(** [run]; [None] when the fuel runs out. *)
Fixpoint run_loop (fuel : nat) (iterations : N) (s : Exec W)
  : option (result WorkflowSummary error * Exec W) :=
  match fuel with
  | O => None
  | S fuel' =>
      if unfinished s then
        match turn iterations s with
        | (Err e, s') => Some (Err e, s')
        | (Ok (Return r), s') => Some (Ok r, s')
        | (Ok Next, s') => run_loop fuel' (iterations + 1) s'
        end
      else Some (Ok (summary_of false (outputs s)), s)
  end.

Definition initial (wd : W) : Exec W := mkExec ∅ ∅ ∅ wd.

Definition run (wd : W) : option (result WorkflowSummary error * Exec W) :=
  run_loop (S (length (steps w))) 0 (initial wd).
End Executor.

(** ** How the state evolves *)

(** One change of the executor's state; [sk] and [ok] say which names may be
    skipped and completed. *)
Inductive evolve {W} (sk ok : str -> Prop) : Exec W -> Exec W -> Prop :=
| ev_world s wd : evolve sk ok s (mkExec (completed s) (skipped s) (outputs s) wd)
| ev_complete s x o : ok x -> out_name o = x ->
    evolve sk ok s (mkExec ({[x]} ∪ completed s) (skipped s) (<[x := o]> (outputs s)) (world s))
| ev_skip s x : sk x ->
    evolve sk ok s (mkExec (completed s) ({[x]} ∪ skipped s) (outputs s) (world s)).

Abbreviation evolves sk ok := (rtc (evolve sk ok)).

Lemma bind_Ok {W A B} (m : M W A) (k : A -> M W B) s b s' :
  bind m k s = (Ok b, s') <-> exists a s1, m s = (Ok a, s1) /\ k a s1 = (Ok b, s').
Proof.
  unfold bind. destruct (m s) as [[a|e] s1]; split.
  - eauto.
  - by intros (? & ? & [= <- <-] & ?).
  - done.
  - by intros (? & ? & ? & _).
Qed.

Lemma call_Ok {W A} (f : W -> result A error * W) s a s' :
  call f s = (Ok a, s') ->
  exists wd, f (world s) = (Ok a, wd) /\ s' = mkExec (completed s) (skipped s) (outputs s) wd.
Proof. unfold call. destruct (f (world s)) as [r wd]. intros [= -> <-]. eauto. Qed.

Lemma ok_or_Ok {A E} (o : option A) (e : E) a : ok_or o e = Ok a <-> o = Some a.
Proof. destruct o; simpl; split; congruence. Qed.

(** Invert a successful run of a monadic computation. *)
Ltac inv_M :=
  repeat match goal with
  | H : bind _ _ _ = (Ok _, _) |- _ =>
      let a := fresh "a" in let s := fresh "s" in
      let H1 := fresh "H" in let H2 := fresh "H" in
      apply bind_Ok in H as (a & s & H1 & H2)
  | H : ret _ _ = _ |- _ => unfold ret in H; injection H as <- <-
  | H : get _ = _ |- _ => unfold get in H; injection H as <- <-
  | H : lift _ _ = (Ok _, _) |- _ => unfold lift in H; injection H as H <-
  | H : bail _ _ = (Ok _, _) |- _ => discriminate H
  | H : mark_completed _ _ = _ |- _ => unfold mark_completed in H; injection H as <- <-
  | H : mark_skipped _ _ = _ |- _ => unfold mark_skipped in H; injection H as <- <-
  | H : insert_output _ _ _ = _ |- _ => unfold insert_output in H; injection H as <- <-
  | H : ok_or _ _ = Ok _ |- _ => apply ok_or_Ok in H
  | H : call _ _ = (Ok _, _) |- _ =>
      let wd := fresh "wd" in apply call_Ok in H as (wd & H & ->)
  end; cbn [completed skipped outputs world] in *.

Lemma evolves_complete {W} sk ok (s : Exec W) x o :
  ok x -> out_name o = x ->
  evolves sk ok s (mkExec ({[x]} ∪ completed s) (skipped s) (<[x := o]> (outputs s)) (world s)).
Proof. intros. apply rtc_once. by constructor. Qed.

Lemma evolves_world {W} sk ok (s : Exec W) wd :
  evolves sk ok s (mkExec (completed s) (skipped s) (outputs s) wd).
Proof. apply rtc_once. constructor. Qed.

Lemma evolves_complete2 {W} sk ok (s : Exec W) x o y p wd :
  ok x -> out_name o = x -> ok y -> out_name p = y ->
  evolves sk ok s (mkExec ({[y]} ∪ ({[x]} ∪ completed s)) (skipped s)
                  (<[y := p]> (<[x := o]> (outputs s))) wd).
Proof.
  intros Hx Ho Hy Hp. eapply rtc_l; [apply (ev_world sk ok s wd) |].
  eapply rtc_l; [apply (ev_complete sk ok (mkExec _ _ _ wd) x o Hx Ho) |].
  apply rtc_once. exact (ev_complete sk ok (mkExec _ _ _ wd) y p Hy Hp).
Qed.

(** The finished names only grow. *)
Lemma evolves_grows {W} sk ok (s s' : Exec W) :
  evolves sk ok s s' -> completed s ⊆ completed s' /\ skipped s ⊆ skipped s'.
Proof.
  induction 1 as [s|s s1 s2 H _ IH]; [done |]. destruct IH as [H1 H2].
  inversion H; subst; simpl in *; set_solver.
Qed.

Lemma evolves_completed {W} sk ok (s s' : Exec W) x :
  evolves sk ok s s' -> x ∈ completed s -> x ∈ completed s'.
Proof. intros [H _]%evolves_grows. set_solver. Qed.

Lemma find_step_name l x s : find_step l x = Some s -> s ∈ l /\ step_name s = x.
Proof.
  intros H. apply find_some in H as [H1 H2]. apply str_eqb_eq in H2.
  by rewrite list_elem_of_In.
Qed.

Lemma find_step_None l x : find_step l x = None -> x ∉ map step_name l.
Proof.
  intros H (s & -> & Hs)%list_elem_of_fmap.
  pose proof (find_none _ _ H s ltac:(by apply list_elem_of_In)) as E.
  cbv beta in E. by rewrite str_eqb_refl in E.
Qed.

Section Evolution.
Context `{SerdeJson} {W : Type}.
Variable runner : StepRunner W.
Variable host : Host W.
Variable w : Workflow.
Variables sk ok : str -> Prop.
(** A name that may be finished may have its error handler finished. *)
Hypothesis ok_handler : forall x s h,
  ok x -> find_step (steps w) x = Some s -> on_error s = Some h -> ok h.

Lemma trigger_handler_evolves h msg (s : Exec W) u s' :
  ok h -> trigger_handler h msg s = (Ok u, s') -> evolves sk ok s s'.
Proof. intros Hok Ht. unfold trigger_handler in Ht. inv_M. by apply evolves_complete. Qed.

Lemma store_successes_evolves l (s : Exec W) u s' :
  (forall x, x ∈ map fst l -> ok x) ->
  store_successes w l s = (Ok u, s') -> evolves sk ok s s'.
Proof.
  revert s. induction l as [|[x sm] l IH]; simpl; intros s Hok Hs; inv_M; [constructor |].
  etrans; [|eapply IH; [|eassumption]].
  - apply (evolves_complete sk ok s x); [apply Hok; by left | done].
  - intros y Hy. apply Hok. by right.
Qed.

Lemma store_failures_spec l first route (s : Exec W) r s' :
  (forall x, x ∈ map fst l -> ok x) -> (forall h, route = Some h -> ok h) ->
  store_failures w l first route s = (Ok r, s') ->
  evolves sk ok s s' /\ (forall x, x ∈ map fst l -> x ∈ completed s')
  /\ (forall h, snd r = Some h -> ok h) /\ (l = [] -> snd r = route).
Proof.
  revert s first route. induction l as [|[x e] l IH]; simpl; intros s first route Hok Hr Hs; inv_M.
  - split; [constructor |]. split; [|done]. intros x Hx. by apply elem_of_nil in Hx.
  - match goal with Hs : store_failures _ _ _ _ _ = _ |- _ =>
      apply IH in Hs as (He & Hc & Hr' & _) end; cycle 1.
    + intros y Hy. apply Hok. by right.
    + intros h. destruct route; [by apply Hr |]. intros Hh. eapply ok_handler; [|done|done].
      apply Hok. by left.
    + split; [etrans; [|exact He]; by apply (evolves_complete sk ok s x); [apply Hok; left|] |].
      split; [|done]. intros y [->|Hy]%elem_of_cons; [|by apply Hc].
      eapply evolves_completed; [exact He |]. simpl. set_solver.
Qed.

Lemma store_all_failed_spec tasks msg (s : Exec W) u s' :
  (forall x, x ∈ map req_name tasks -> ok x) ->
  store_all_failed w tasks msg s = (Ok u, s') ->
  evolves sk ok s s' /\ forall x, x ∈ map req_name tasks -> x ∈ completed s'.
Proof.
  revert s. induction tasks as [|t tasks IH]; simpl; intros s Hok Hs; inv_M.
  - split; [constructor |]. intros x Hx. by apply elem_of_nil in Hx.
  - match goal with Hs : store_all_failed _ _ _ _ = _ |- _ => apply IH in Hs as [He Hc] end;
      [|intros y Hy; apply Hok; by right].
    split; [etrans; [|exact He]; by apply (evolves_complete sk ok s (req_name t)); [apply Hok; left|] |].
    intros y [->|Hy]%elem_of_cons; [|by apply Hc].
    eapply evolves_completed; [exact He |]. simpl. set_solver.
Qed.

Lemma store_results_spec results tasks (s : Exec W) u s' :
  (forall x, x ∈ map req_name tasks -> ok x) ->
  store_results runner w results tasks s = (Ok u, s') ->
  evolves sk ok s s' /\ forall x, x ∈ map req_name tasks -> x ∈ completed s'.
Proof.
  revert s. induction tasks as [|t tasks IH]; simpl; intros s Hok Hs; inv_M.
  - split; [constructor |]. intros x Hx. by apply elem_of_nil in Hx.
  - assert (exists wd, s2 = mkExec (completed s) (skipped s) (outputs s) wd) as [wd ->].
    { destruct (with_critique t); inv_M; [by eexists | by exists (world s); destruct s]. }
    cbn [completed skipped outputs world] in *.
    match goal with Hs : store_results _ _ _ _ _ = _ |- _ => apply IH in Hs as [He Hc] end;
      [|intros y Hy; apply Hok; by right]. split.
    + etrans; [apply (evolves_world sk ok s wd) |]. etrans; [|exact He].
      eapply (evolves_complete sk ok (mkExec _ _ _ wd) (req_name t)); [apply Hok; by left | done].
    + intros y [->|Hy]%elem_of_cons; [|by apply Hc].
      eapply evolves_completed; [exact He |]. simpl. set_solver.
Qed.

(** Which runners report errors about the steps they were given: the names of a
    [BatchErrors] value are names of the batch. *)
Definition reports_on_tasks : Prop :=
  forall tasks wd successes failures wd',
    run_batch runner tasks wd = (Err (Batch successes failures), wd') ->
    forall x, x ∈ map fst successes ++ map fst failures -> x ∈ map req_name tasks.

Lemma handle_batch_error_spec tasks e (s : Exec W) u s' :
  (forall x, x ∈ map req_name tasks -> ok x) ->
  (forall successes failures, e = Batch successes failures ->
     forall x, x ∈ map fst successes ++ map fst failures -> x ∈ map req_name tasks) ->
  tasks <> [] ->
  handle_batch_error w tasks e s = (Ok u, s') ->
  evolves sk ok s s' /\ exists x, x ∈ map req_name tasks /\ x ∈ completed s'.
Proof.
  intros Hok Hrep Hne Hh. destruct e as [msg|succ fail]; simpl in Hh.
  - destruct (existsb _ tasks); [|discriminate]. simpl in Hh. inv_M.
    match goal with Hs : store_all_failed _ _ _ _ = _ |- _ =>
      apply store_all_failed_spec in Hs as [He Hc]; [|done] end.
    assert (exists x, x ∈ map req_name tasks) as [x Hx].
    { destruct tasks as [|t ?]; [done |]. exists (req_name t). by left. }
    destruct (find_map _ tasks) as [h|] eqn:Hf.
    + apply find_map_Some in Hf as (t & Ht & Hroute). unfold route_of in Hroute.
      apply bind_Some in Hroute as (st & Hst & Hon).
      match goal with Hs : trigger_handler _ _ _ = _ |- _ => apply trigger_handler_evolves in Hs end.
      2: { eapply ok_handler; [|done|done]. apply Hok. by apply list_elem_of_fmap_2. }
      split; [by etrans |]. exists x. split; [done |]. eapply evolves_completed; eauto.
    + inv_M. split; [done |]. eauto.
  - specialize (Hrep succ fail eq_refl). setoid_rewrite elem_of_app in Hrep.
    unfold handle_partitioned_batch_error in Hh. inv_M.
    match goal with Hs : store_successes _ _ _ = _ |- _ => apply store_successes_evolves in Hs as He1 end;
      [|auto].
    match goal with Hs : store_failures _ _ _ _ _ = (Ok ?r, _) |- _ =>
      destruct r as [first route]; apply store_failures_spec in Hs as (He2 & Hc & Hr & Hnil) end;
      [|auto|done].
    destruct route as [h|]; [|inv_M].
    match goal with Hs : trigger_handler _ _ _ = _ |- _ => apply trigger_handler_evolves in Hs as He3 end;
      [|by apply Hr].
    split; [by etrans; [|etrans] |].
    destruct fail as [|[x e] fail]; [by specialize (Hnil eq_refl) |].
    exists x. split; [apply Hrep; right; by left |].
    eapply evolves_completed; [exact He3 |]. apply Hc. by left.
Qed.

Lemma run_fan_out_spec step (s : Exec W) r s' :
  ok (step_name step) -> (forall h, on_error step = Some h -> ok h) ->
  run_fan_out host step s = (Ok r, s') ->
  match r with
  | None => evolves sk ok s s' /\ step_name step ∈ completed s'
  | Some o => out_name o = step_name step
      /\ exists wd, s' = mkExec ({[step_name step]} ∪ completed s) (skipped s) (outputs s) wd
  end.
Proof.
  intros Hok Hh Hf. unfold run_fan_out in Hf. inv_M.
  match goal with Hd : context [drain ?l] |- _ => destruct (drain l) as [results [e|]] end.
  - unfold fan_out_failed in *. destruct (on_error step) as [h|]; inv_M.
    split; [apply evolves_complete2; auto | simpl; set_solver].
  - inv_M. split; [done |]. by eexists.
Qed.

Lemma request_of_name step outs req :
  request_of step outs = Ok req -> req_name req = step_name step.
Proof.
  unfold request_of. destruct (step_kind step); intros Hr; [|by injection Hr as <- ..].
  by apply result_bind_Ok in Hr as (p & _ & [= <-]).
Qed.

Lemma collect_tasks_spec names (s : Exec W) tasks s' :
  (forall x, x ∈ names -> ok x) ->
  collect_tasks host w names s = (Ok tasks, s') ->
  evolves sk ok s s' /\ map req_name tasks ⊆ names
  /\ forall x, x ∈ names -> x ∈ map req_name tasks \/ x ∈ completed s'.
Proof.
  revert s tasks. induction names as [|x names IH]; simpl; intros s tasks Hok Hc; inv_M.
  - split; [constructor |]. split; [done |]. intros x Hx. by apply elem_of_nil in Hx.
  - assert (forall y, y ∈ names -> ok y) as Hok' by (intros y Hy; apply Hok; by right).
    match goal with Hs : find_step _ _ = Some ?st |- _ =>
      pose proof (find_step_name _ _ _ Hs) as [_ Hn]; rename st into step; rename Hs into Hst end.
    assert (ok x) as Hx by (apply Hok; by left).
    assert (forall h, on_error step = Some h -> ok h) as Hh by eauto.
    assert (forall t s1, evolves sk ok s s1 -> x ∈ completed s1 ->
              collect_tasks host w names s1 = (Ok t, s') ->
              evolves sk ok s s' /\ map req_name t ⊆ x :: names
              /\ forall y, y ∈ x :: names -> y ∈ map req_name t \/ y ∈ completed s') as Hfan.
    { intros t s1 He Hxc Hct. apply IH in Hct as (He' & Hsub & Hall); [|done].
      split; [by etrans |]. split; [set_solver |].
      intros y [->|Hy]%elem_of_cons; [right; by eapply evolves_completed | auto]. }
    assert (forall t, (let! req := lift (request_of step (outputs s)) in
              let! rest := collect_tasks host w names in ret (req :: rest)) s = (Ok t, s') ->
              evolves sk ok s s' /\ map req_name t ⊆ x :: names
              /\ forall y, y ∈ x :: names -> y ∈ map req_name t \/ y ∈ completed s') as Hreq.
    { intros t Hr. inv_M.
      match goal with Hc : collect_tasks _ _ _ _ = _ |- _ =>
        apply IH in Hc as (He' & Hsub & Hall); [|done] end.
      match goal with Hr : request_of _ _ = Ok _ |- _ => apply request_of_name in Hr as Hrn end.
      split; [done |]. simpl. rewrite Hrn, Hn. split; [set_solver |].
      intros y [->|Hy]%elem_of_cons; [left; by left |].
      destruct (Hall y Hy); [left; by right | by right]. }
    match goal with Hm : (match step_kind step with _ => _ end) _ = _ |- _ =>
      destruct (step_kind step); try (apply Hreq; exact Hm) end; inv_M.
    + match goal with Hr : run_fan_out _ _ _ = (Ok ?r, _) |- _ =>
        apply run_fan_out_spec in Hr; [|by rewrite Hn |done]; destruct r as [o|] end; inv_M.
      * match goal with Hr : _ /\ (exists _, _) |- _ => destruct Hr as (Ho & wd & ->) end.
        cbn [completed skipped outputs world] in *. eapply Hfan; [| |eassumption].
        -- etrans; [apply (evolves_world sk ok s wd) |].
           apply (evolves_complete sk ok (mkExec _ _ _ wd) (step_name step) o); [by rewrite Hn | done].
        -- simpl. set_solver.
      * match goal with Hr : _ /\ _ ∈ _ |- _ => destruct Hr as [He Hxc] end.
        eapply Hfan; [exact He | by rewrite <-Hn | eassumption].
    + unfold run_fan_in in *. inv_M. eapply Hfan; [| |eassumption].
      * by apply evolves_complete; [rewrite Hn |].
      * simpl. set_solver.
Qed.

Lemma filter_conditions_spec ready (s : Exec W) rest s' :
  (forall x, x ∈ ready -> sk x) ->
  filter_conditions runner w ready s = (Ok rest, s') ->
  evolves sk ok s s' /\ rest ⊆ ready /\ completed s' = completed s
  /\ forall x, x ∈ ready -> x ∈ rest \/ x ∈ skipped s'.
Proof.
  clear ok_handler. revert s rest.
  induction ready as [|x ready IH]; simpl; intros s rest Hok Hc; inv_M.
  - split; [constructor |]. split; [done |]. split; [done |].
    intros x Hx. by apply elem_of_nil in Hx.
  - assert (forall y, y ∈ ready -> sk y) as Hok' by (intros y Hy; apply Hok; by right).
    assert (exists wd, s1 = mkExec (completed s) (skipped s) (outputs s) wd) as [wd ->].
    { destruct (condition a); inv_M; [by eexists | by exists (world s); destruct s]. }
    match goal with Hk : (if ?b then _ else _) _ = _ |- _ => destruct b end; inv_M.
    + match goal with Hc : filter_conditions _ _ _ _ = _ |- _ =>
        apply IH in Hc as (He & Hsub & Heq & Hall); [|done] end.
      split; [etrans; [apply evolves_world | done] |]. split; [set_solver |]. split; [done |].
      intros y [->|Hy]%elem_of_cons; [left; by left |].
      destruct (Hall y Hy); [left; by right | by right].
    + match goal with Hc : filter_conditions _ _ _ _ = _ |- _ =>
        apply IH in Hc as (He & Hsub & Heq & Hall); [|done] end.
      split; [|split; [set_solver |split; [done |]]].
      * etrans; [apply (evolves_world sk ok s wd) |].
        eapply rtc_l; [apply (ev_skip sk ok (mkExec _ _ _ wd) x); apply Hok; by left | exact He].
      * intros y [->|Hy]%elem_of_cons; [|by apply Hall].
        right. apply evolves_grows in He as [_ He]. simpl in He. set_solver.
Qed.

Lemma run_tasks_spec tasks (s : Exec W) t s' :
  (forall x, x ∈ map req_name tasks -> ok x) -> reports_on_tasks -> tasks <> [] ->
  run_tasks runner w tasks s = (Ok t, s') ->
  t = Next /\ evolves sk ok s s' /\ exists x, x ∈ map req_name tasks /\ x ∈ completed s'.
Proof.
  intros Hok Hrep Hne Hr. unfold run_tasks in Hr. apply bind_Ok in Hr as (r & s1 & Hb & Hr).
  destruct (run_batch runner tasks (world s)) as [r' wd] eqn:Hbatch. injection Hb as -> <-.
  destruct r as [results|e]; inv_M.
  - match goal with Hs : store_results _ _ _ _ _ = _ |- _ =>
      apply store_results_spec in Hs as [He Hc]; [|done] end.
    split; [done |]. split; [etrans; [apply evolves_world | done] |].
    destruct tasks as [|t tasks]; [done |]. exists (req_name t). split; [by left |].
    apply Hc. by left.
  - match goal with Hs : handle_batch_error _ _ _ _ = _ |- _ =>
      apply handle_batch_error_spec in Hs as [He Hc]; [|done| |done] end.
    + split; [done |]. split; [etrans; [apply evolves_world | done] | done].
    + intros succ fail ->. by eapply Hrep.
Qed.

Lemma run_ready_spec (s : Exec W) t s' :
  (forall x, x ∈ ready_steps w (completed s ∪ skipped s) -> sk x /\ ok x) ->
  reports_on_tasks ->
  run_ready runner host w s = (Ok t, s') ->
  t = Next /\ evolves sk ok s s'
  /\ exists x, x ∈ ready_steps w (completed s ∪ skipped s) /\ x ∈ completed s' ∪ skipped s'.
Proof.
  intros Hok Hrep Hr. unfold run_ready in Hr. apply bind_Ok in Hr as (s0 & s1 & Hg & Hr). unfold get in Hg; injection Hg as <- <-.
  destruct (ready_steps w _) as [|x ready] eqn:Hready; [discriminate |].
  apply bind_Ok in Hr as (rest & s1 & Hf & Hr).
  apply filter_conditions_spec in Hf as (He1 & Hsub & _ & Hall); [|intros z Hz; by apply Hok].
  destruct rest as [|y rest].
  { inv_M. split; [done |]. split; [done |]. exists x. split; [by left |].
    destruct (Hall x ltac:(by left)) as [Hn|Hs]; [by apply elem_of_nil in Hn | set_solver]. }
  apply bind_Ok in Hr as (tasks & s2 & Hc & Hr).
  apply collect_tasks_spec in Hc as (He2 & Hsub2 & Hall2); [|intros z Hz; apply Hok, Hsub, Hz].
  destruct tasks as [|task tasks].
  { inv_M. split; [done |]. split; [by etrans |]. exists y.
    split; [apply Hsub; by left |].
    destruct (Hall2 y ltac:(by left)) as [Hn|Hs]; [by apply elem_of_nil in Hn | set_solver]. }
  apply run_tasks_spec in Hr as (-> & He3 & z & Hz & Hzc);
    [|intros z Hz; by apply Hok, Hsub, Hsub2|done|done].
  split; [done |]. split; [by etrans; [|etrans] |]. exists z.
  split; [by apply Hsub, Hsub2 | set_solver].
Qed.
End Evolution.

(** ** Termination *)

(** The number of steps that are neither completed nor skipped. *)
Definition left_over {W} (w : Workflow) (s : Exec W) : nat :=
  length (filter (fun x => x ∉ completed s ∪ skipped s) (map step_name (steps w))).

Lemma filter_length_lt (X Y : gset str) l x :
  X ⊆ Y -> x ∈ l -> x ∉ X -> x ∈ Y ->
  length (filter (fun y => y ∉ Y) l) < length (filter (fun y => y ∉ X) l).
Proof.
  intros Hsub. assert (forall l, length (filter (fun y => y ∉ Y) l)
                                 <= length (filter (fun y => y ∉ X) l)) as Hle.
  { intros l'. induction l' as [|y l' IH]; [done |]. rewrite !filter_cons.
    repeat case_decide; simpl; try lia; set_solver. }
  induction l as [|y l IH]; intros Hx Hn Hy; [by apply elem_of_nil in Hx |].
  specialize (Hle l). apply elem_of_cons in Hx as [->|Hx].
  - rewrite !filter_cons, decide_False, decide_True by set_solver. simpl. lia.
  - specialize (IH Hx Hn Hy). rewrite !filter_cons.
    repeat case_decide; simpl; try lia; set_solver.
Qed.

Section Run.
Context `{SerdeJson} {W : Type}.
Variable runner : StepRunner W.
Variable host : Host W.
Variable w : Workflow.
Variable run_id : option str.

Lemma check_seconds_cases b (s : Exec W) :
  check_seconds host b s = (Ok false, s)
  \/ exists reason, check_seconds host b s = exceeded_with b reason s.
Proof.
  unfold check_seconds, bind, get. destruct (max_seconds b) as [m|]; [|by left].
  case_match; [right; by eexists | by left].
Qed.

Lemma check_budget_cases b it (s : Exec W) :
  check_budget host b it s = (Ok false, s)
  \/ exists reason, check_budget host b it s = exceeded_with b reason s.
Proof.
  unfold check_budget. destruct (max_iterations b) as [m|]; [|apply check_seconds_cases].
  case_match; [right; by eexists | apply check_seconds_cases].
Qed.

(** An exceeded budget ends the run; the handler, if there is one and it has not
    been finished, gets a synthetic output. *)
Lemma exceeded_with_spec sk ok b reason (s : Exec W) :
  (forall h, on_exceeded b = Some h -> ok h) ->
  exists s', exceeded_with b reason s = (Ok true, s') /\ evolves sk ok s s'
             /\ (on_exceeded b = None -> s' = s).
Proof.
  intros Hok. unfold exceeded_with. destruct (on_exceeded b) as [h|] eqn:Hb; [|by exists s].
  unfold insert_on_exceeded, bind, get.
  destruct (bool_decide (h ∉ completed s) && bool_decide (h ∉ skipped s)); [|by exists s].
  eexists. split; [reflexivity |]. split; [|done].
  apply (evolves_complete sk ok s h); [by apply Hok | done].
Qed.

Lemma turn_cases it (s : Exec W) t s' :
  turn runner host w run_id it s = (Ok t, s') ->
  run_ready runner host w s = (Ok t, s')
  \/ exists b reason, budget w = Some b
       /\ exceeded_with b reason s = (Ok true, s')
       /\ t = Return (summary_of w run_id true (outputs s')).
Proof.
  unfold turn. intros Ht. apply bind_Ok in Ht as (s0 & s1 & Hg & Ht).
  unfold get in Hg; injection Hg as <- <-.
  destruct (match cancellation host with Some _ => _ | None => _ end); [discriminate |].
  apply bind_Ok in Ht as (ex & s1 & Hc & Ht).
  destruct (budget w) as [b|]; [|inv_M; by left].
  destruct (check_budget_cases b it s) as [Hf|[reason Hx]].
  - rewrite Hf in Hc. injection Hc as <- <-. by left.
  - right. exists b, reason. split; [done |].
    destruct (exceeded_with_spec (fun _ => True) (fun _ => True) b reason s) as (s2 & H2 & _); [done |].
    rewrite Hx, H2 in Hc. injection Hc as <- <-. inv_M. by rewrite H2.
Qed.

Lemma turn_progress it (s : Exec W) s' :
  reports_on_tasks runner ->
  turn runner host w run_id it s = (Ok Next, s') -> left_over w s' < left_over w s.
Proof.
  intros Hrep [Ht|(? & ? & _ & _ & ?)]%turn_cases; [|done].
  apply (run_ready_spec runner host w (fun _ => True) (fun _ => True)) in Ht
    as (_ & He & x & Hx & Hd); [|done..].
  apply evolves_grows in He as [H1 H2]. apply ready_steps_elem in Hx as (Hn & st & Hst & <- & _).
  eapply filter_length_lt; [|by apply list_elem_of_fmap_2 |done|done]. set_solver.
Qed.

Lemma run_loop_terminates fuel it (s : Exec W) :
  reports_on_tasks runner -> left_over w s < fuel ->
  is_Some (run_loop runner host w run_id fuel it s).
Proof.
  intros Hrep. revert it s. induction fuel as [|fuel IH]; intros it s Hlt; [lia |].
  cbn [run_loop]. destruct (unfinished w s); [|done].
  destruct (turn runner host w run_id it s) as [[[|r]|e] s'] eqn:Ht; [|done..].
  apply IH. apply turn_progress in Ht; [lia | done].
Qed.

(** C17.  [run] ends: at every turn of the loop a step that was ready becomes
    completed or skipped, so one turn per step is enough, for every runner whose
    batch errors are about the steps of the batch. *)
Theorem run_terminates wd :
  reports_on_tasks runner -> exists r s', run runner host w run_id wd = Some (r, s').
Proof.
  intros Hrep. destruct (run_loop_terminates (S (length (steps w))) 0 (initial wd)) as [[r s'] Hr].
  - done.
  - unfold left_over. apply Nat.lt_succ_r. etrans; [apply length_filter |]. by rewrite length_map.
  - by exists r, s'.
Qed.

(** *** What a run leaves behind *)

Definition step_names : gset str := list_to_set (map step_name (steps w)).

(** The invariant of every run: outputs are recorded exactly for the completed
    steps, under their names, and all names are steps of the workflow. *)
Record wf_state (s : Exec W) : Prop := {
  wf_dom : dom (outputs s) = completed s;
  wf_out_name : forall x o, outputs s !! x = Some o -> out_name o = x;
  wf_names : completed s ∪ skipped s ⊆ step_names
}.

Lemma wf_initial wd : wf_state (initial wd).
Proof. split; simpl; [set_solver | by intros ?? ?%lookup_empty_Some | set_solver]. Qed.

Lemma evolves_wf sk ok s s' :
  (forall x, sk x \/ ok x -> x ∈ step_names) -> evolves sk ok s s' -> wf_state s -> wf_state s'.
Proof.
  intros Hok. induction 1 as [s|s s1 s2 Hs _ IH]; [done |]. intros [H1 H2 H3]. apply IH.
  inversion Hs as [|? x o Hx Hn|? x Hx]; subst; split; simpl; auto.
  - rewrite dom_insert_L. set_solver.
  - intros y o'. destruct (decide (y = out_name o)) as [->|Hne].
    + rewrite lookup_insert_eq. by intros [= <-].
    + rewrite lookup_insert_ne by done. apply H2.
  - specialize (Hok (out_name o) (or_intror Hx)). set_solver.
  - specialize (Hok x (or_introl Hx)). set_solver.
Qed.

Lemma evolves_new sk ok (s s' : Exec W) :
  evolves sk ok s s' ->
  (forall x, x ∈ completed s' -> x ∈ completed s \/ ok x)
  /\ (forall x, x ∈ skipped s' -> x ∈ skipped s \/ sk x).
Proof.
  induction 1 as [s|s s1 s2 Hs _ [IH1 IH2]]; [by auto |].
  inversion Hs; subst; simpl in *; split; intros y Hy;
    [apply IH1 in Hy | apply IH2 in Hy | apply IH1 in Hy | apply IH2 in Hy
    | apply IH1 in Hy | apply IH2 in Hy]; set_solver.
Qed.

Lemma step_names_spec x : x ∈ step_names <-> x ∈ map step_name (steps w).
Proof. apply elem_of_list_to_set. Qed.

Lemma find_step_known x st : find_step (steps w) x = Some st -> x ∈ step_names.
Proof.
  intros (Hs & <-)%find_step_name. apply step_names_spec. by apply list_elem_of_fmap_2.
Qed.

Lemma valid_handler_known x st h :
  valid_workflow w -> find_step (steps w) x = Some st -> on_error st = Some h -> h ∈ step_names.
Proof.
  intros Hv (Hs & _)%find_step_name Hh. apply step_names_spec.
  pose proof (valid_steps w Hv) as Hall. rewrite Forall_forall in Hall.
  by apply (ok_on_error _ _ (Hall st Hs)).
Qed.

Lemma valid_exceeded_known b h :
  valid_workflow w -> budget w = Some b -> on_exceeded b = Some h -> h ∈ step_names.
Proof. intros Hv Hb Hh. apply step_names_spec. by eapply (valid_budget w Hv b Hb). Qed.

Lemma ready_known x done_ : x ∈ ready_steps w done_ -> x ∈ step_names.
Proof.
  intros (_ & st & Hst & <- & _)%ready_steps_elem. apply step_names_spec.
  by apply list_elem_of_fmap_2.
Qed.

Lemma turn_wf it s t s' :
  valid_workflow w -> reports_on_tasks runner -> wf_state s ->
  turn runner host w run_id it s = (Ok t, s') ->
  wf_state s' /\ forall r, t = Return r -> r = summary_of w run_id true (outputs s').
Proof.
  intros Hv Hrep Hwf [Ht|(b & reason & Hb & Hx & ->)]%turn_cases.
  - apply (run_ready_spec runner host w (fun x => x ∈ step_names) (fun x => x ∈ step_names)) in Ht
      as (-> & He & _); [|intros; by eapply valid_handler_known |intros x Hx; split; by eapply ready_known |done].
    split; [|done]. eapply evolves_wf; [|done..]. tauto.
  - destruct (exceeded_with_spec (fun x => x ∈ step_names) (fun x => x ∈ step_names) b reason s)
      as (s2 & H2 & He & _); [intros h Hh; by eapply valid_exceeded_known |].
    rewrite H2 in Hx. injection Hx as ->. split; [|by intros r [= <-]].
    eapply evolves_wf; [|done..]. tauto.
Qed.

(** Any property of states that turns keep holds at the end of the loop. *)
Lemma run_loop_inv (I : Exec W -> Prop) fuel it s r s' :
  (forall it s t s', I s -> turn runner host w run_id it s = (Ok t, s') ->
     I s' /\ forall r, t = Return r -> r = summary_of w run_id true (outputs s')) ->
  I s -> run_loop runner host w run_id fuel it s = Some (Ok r, s') ->
  I s' /\ exists exceeded, r = summary_of w run_id exceeded (outputs s')
                           /\ (exceeded = false -> unfinished w s' = false).
Proof.
  intros Hturn. revert it s. induction fuel as [|fuel IH]; intros it s Hs Hr; [done |].
  cbn [run_loop] in Hr. destruct (unfinished w s) eqn:Hu.
  - destruct (turn runner host w run_id it s) as [[[|r']|e] s1] eqn:Ht; [| |done].
    + eapply IH; [|done]. by eapply Hturn.
    + injection Hr as <- <-. destruct (Hturn _ _ _ _ Hs Ht) as [Hi Hret]. split; [done |].
      exists true. by rewrite (Hret r' eq_refl).
  - injection Hr as <- <-. split; [done |]. by exists false.
Qed.

Lemma summary_dom (ex : bool) (outs : gmap str StepOutput) :
  dom (sum_outputs (summary_of w run_id ex outs)) = dom outs.
Proof. simpl. unfold stamp_run_id. destruct run_id; [apply dom_fmap_L | done]. Qed.

(** The summary of a run of a validated workflow: each recorded output is
    filed under its own step name, which is a step of the workflow, and when the
    executor has a session id it is stamped on the summary and on every output. *)
Lemma run_summary_wf wd r s' :
  validate w = Ok tt -> reports_on_tasks runner ->
  run runner host w run_id wd = Some (Ok r, s') ->
  dom (sum_outputs r) = completed s' /\ dom (sum_outputs r) ⊆ step_names
  /\ (forall x o, sum_outputs r !! x = Some o -> out_name o = x)
  /\ sum_run_id r = run_id
  /\ (forall x o rid, run_id = Some rid -> sum_outputs r !! x = Some o -> out_run_id o = Some rid).
Proof.
  intros Hv%validate_valid Hrep Hr.
  apply (run_loop_inv wf_state) in Hr as ([H1 H2 H3] & ex & -> & _);
    [|intros; by eapply turn_wf | apply wf_initial].
  assert (forall x, sum_outputs (summary_of w run_id ex (outputs s')) !! x
            = (fun o => match run_id with
                        | Some rid => mkStepOutput (out_name o) (out_kind o) (out_persona o)
                            (out_summary o) (out_critique o) (structured_output o) (Some rid)
                        | None => o end) <$> outputs s' !! x) as Hl.
  { intros x. simpl. unfold stamp_run_id. destruct run_id; [by rewrite lookup_fmap |].
    by destruct (outputs s' !! x). }
  assert (dom (sum_outputs (summary_of w run_id ex (outputs s'))) = completed s') as Hd
    by (by rewrite summary_dom).
  split; [done |]. split; [rewrite Hd; set_solver |]. split; [|split; [done |]].
  - intros x o. rewrite Hl. intros (o' & Ho & ->)%fmap_Some. specialize (H2 x o' Ho).
    by destruct run_id.
  - intros x o rid Hrid. rewrite Hl, Hrid. by intros (o' & _ & ->)%fmap_Some.
Qed.

(** *** Runs without error or budget routes *)

(** No step has an [on_error] route and the budget has no [on_exceeded] step. *)
Definition no_routes : Prop :=
  (forall st, st ∈ steps w -> on_error st = None)
  /\ (forall b, budget w = Some b -> on_exceeded b = None).

Lemma ready_NoDup done_ : NoDup (map step_name (steps w)) -> NoDup (ready_steps w done_).
Proof.
  unfold ready_steps. induction (steps w) as [|st l IH]; simpl; [done |].
  intros [Hn Hnd]%NoDup_cons. destruct (is_ready done_ st); [|by apply IH].
  simpl. apply NoDup_cons. split; [|by apply IH].
  intros (st' & He & Hin)%list_elem_of_fmap. apply Hn. rewrite He.
  apply list_elem_of_fmap_2. apply list_elem_of_In in Hin.
  apply filter_In in Hin as [Hin _]. by apply list_elem_of_In.
Qed.

Lemma filter_conditions_disjoint ready (s : Exec W) rest s' :
  NoDup ready -> filter_conditions runner w ready s = (Ok rest, s') ->
  forall x, x ∈ rest -> x ∉ skipped s -> x ∉ skipped s'.
Proof.
  revert s rest. induction ready as [|y ready IH]; simpl; intros s rest Hnd Hf x Hx; inv_M.
  { by apply elem_of_nil in Hx. }
  apply NoDup_cons in Hnd as [Hy Hnd].
  assert (exists wd, s1 = mkExec (completed s) (skipped s) (outputs s) wd) as [wd ->].
  { destruct (condition a); inv_M; [by eexists | by exists (world s); destruct s]. }
  match goal with Hk : (if ?b then _ else _) _ = _ |- _ => destruct b end; inv_M.
  - match goal with Hc : filter_conditions _ _ _ _ = _ |- _ =>
      pose proof Hc as Hc'; apply (filter_conditions_spec runner w (fun z => z ∈ ready)
        (fun _ => False)) in Hc' as (He & _); [|done] end.
    intros Hns. apply elem_of_cons in Hx as [->|Hx].
    + apply evolves_new in He as [_ Hnew]. intros Hs%Hnew. simpl in Hs. tauto.
    + by eapply IH.
  - intros Hns. match goal with Hc : filter_conditions _ _ _ _ = _ |- _ =>
      pose proof Hc as Hc'; apply (filter_conditions_spec runner w (fun z => z ∈ ready)
        (fun _ => False)) in Hc' as (_ & Hsub & _); [|done] end.
    eapply IH; [done|done|done|]. simpl. apply Hsub in Hx. set_solver.
Qed.

(** A turn without routes: first some ready steps are skipped, then some of the
    remaining ones completed. *)
Lemma run_ready_phases (s : Exec W) t s' :
  no_routes -> reports_on_tasks runner -> NoDup (map step_name (steps w)) ->
  run_ready runner host w s = (Ok t, s') ->
  let ready := ready_steps w (completed s ∪ skipped s) in
  exists s1 rest, evolves (fun x => x ∈ ready) (fun _ => False) s s1
    /\ rest ⊆ ready /\ (forall x, x ∈ rest -> x ∉ skipped s1)
    /\ evolves (fun _ => False) (fun x => x ∈ rest) s1 s'.
Proof.
  intros [Hroute _] Hrep Hnd Hr ready. unfold run_ready in Hr.
  apply bind_Ok in Hr as (s0 & s1 & Hg & Hr). unfold get in Hg; injection Hg as <- <-.
  pose proof (ready_NoDup (completed s ∪ skipped s) Hnd) as Hrnd.
  fold ready in Hr. fold ready in Hrnd. destruct ready as [|x l] eqn:Hready; [discriminate |].
  rewrite <-Hready in *. apply bind_Ok in Hr as (rest & s1 & Hf & Hr).
  pose proof (filter_conditions_disjoint _ _ _ _ Hrnd Hf) as Hdis.
  apply (filter_conditions_spec runner w (fun z => z ∈ ready) (fun _ => False)) in Hf
    as (He1 & Hsub & _ & _); [|done].
  exists s1, rest. split; [done |]. split; [done |]. split.
  { intros y Hy. apply Hdis; [done |]. apply Hsub in Hy. subst ready.
    apply ready_steps_elem in Hy as (Hy & _). set_solver. }
  assert (forall z st h, z ∈ rest -> find_step (steps w) z = Some st -> on_error st = Some h ->
            h ∈ rest) as Hok.
  { intros z st h _ (Hst & _)%find_step_name Hh. by rewrite Hroute in Hh. }
  destruct rest as [|y rest]; [inv_M; constructor |].
  apply bind_Ok in Hr as (tasks & s2 & Hc & Hr).
  apply (collect_tasks_spec host w (fun _ => False) (fun z => z ∈ y :: rest)) in Hc
    as (He2 & Hsub2 & _); [|done|done].
  destruct tasks as [|task tasks]; [by inv_M |].
  apply (run_tasks_spec runner w (fun _ => False) (fun z => z ∈ y :: rest)) in Hr
    as (_ & He3 & _); [by etrans|done| |done|done].
  intros z Hz. by apply Hsub2.
Qed.

Record good_state (s : Exec W) : Prop := {
  good_wf : wf_state s;
  good_disjoint : completed s ## skipped s;
  good_deps : forall st, st ∈ steps w -> step_name st ∈ completed s ∪ skipped s ->
    forall d, d ∈ depends_on st -> d ∈ completed s ∪ skipped s
}.

Lemma turn_good it s t s' :
  valid_workflow w -> reports_on_tasks runner -> no_routes -> good_state s ->
  turn runner host w run_id it s = (Ok t, s') ->
  good_state s' /\ forall r, t = Return r -> r = summary_of w run_id true (outputs s').
Proof.
  intros Hv Hrep Hno [Hwf Hdis Hdep] Ht.
  destruct (turn_wf _ _ _ _ Hv Hrep Hwf Ht) as [Hwf' Hret]. split; [|done].
  apply turn_cases in Ht as [Ht|(b & reason & Hb & Hx & ->)].
  - apply run_ready_phases in Ht as (s1 & rest & He1 & Hsub & Hd & He2);
      [|done|done|apply Hv].
    pose proof (evolves_grows _ _ _ _ He1) as [G1 G2].
    pose proof (evolves_grows _ _ _ _ He2) as [G3 G4].
    destruct (evolves_new _ _ _ _ He1) as [N1 N2], (evolves_new _ _ _ _ He2) as [N3 N4].
    assert (forall x, x ∈ completed s' ∪ skipped s' ->
              x ∈ completed s ∪ skipped s \/ x ∈ ready_steps w (completed s ∪ skipped s)) as Hnew.
    { intros x [[Hx|Hx]%N3|[Hx|[]]%N4]%elem_of_union.
      - apply N1 in Hx as [Hx|[]]. left. set_solver.
      - right. by apply Hsub.
      - apply N2 in Hx as [Hx|Hx]; [left; set_solver | by right]. }
    split; [done | |].
    + intros x Hc Hs. apply N4 in Hs as [Hs|[]]. apply N3 in Hc as [Hc|Hc]; [|by apply (Hd x)].
      apply N1 in Hc as [Hc|[]]. apply N2 in Hs as [Hs|Hs]; [by apply (Hdis x) |].
      apply ready_steps_elem in Hs as (Hs & _). set_solver.
    + intros st Hst Hin d Hdin. apply Hnew in Hin as [Hin|Hin].
      * specialize (Hdep st Hst Hin d Hdin). set_solver.
      * apply ready_steps_elem in Hin as (_ & st' & Hst' & Hn & Hall).
        assert (st' = st) as ->.
        { by apply (unique_step (steps w)); [apply Hv|..]. }
        specialize (Hall d Hdin). set_solver.
  - destruct (exceeded_with_spec (fun _ => True) (fun _ => True) b reason s) as (s2 & H2 & _ & Hs);
      [done |]. rewrite H2 in Hx. injection Hx as ->. by rewrite (Hs (proj2 Hno b Hb)).
Qed.

(** C16.  A run without error or budget routes is complete and ordered: when it
    ends within its budget every step of the workflow has an output or was skipped,
    never both; and whether or not the budget cut it short, every step with an
    output has all its dependencies completed or skipped. *)
Theorem run_complete wd r s' :
  validate w = Ok tt -> reports_on_tasks runner -> no_routes ->
  run runner host w run_id wd = Some (Ok r, s') ->
  dom (sum_outputs r) = completed s' /\ completed s' ## skipped s'
  /\ (budget_exceeded r = false -> completed s' ∪ skipped s' = step_names)
  /\ (forall st, st ∈ steps w -> step_name st ∈ dom (sum_outputs r) ->
       forall d, d ∈ depends_on st -> d ∈ dom (sum_outputs r) \/ d ∈ skipped s').
Proof.
  intros Hval Hrep Hno Hr. pose proof Hval as Hv%validate_valid.
  apply (run_loop_inv good_state) in Hr as ([[H1 H2 H3] Hdis Hdep] & ex & -> & Hfin);
    [|intros; by eapply turn_good |].
  2: { split; [apply wf_initial | simpl; set_solver | simpl; set_solver]. }
  assert (dom (sum_outputs (summary_of w run_id ex (outputs s'))) = completed s') as Hdom
    by (by rewrite summary_dom).
  split; [done |]. split; [done |]. split.
  - simpl. intros ->. apply set_subseteq_size_eq; [done |].
    specialize (Hfin eq_refl). apply Nat.ltb_ge in Hfin.
    rewrite size_union by done. unfold step_names.
    rewrite size_list_to_set by apply Hv. by rewrite length_map.
  - rewrite Hdom. intros st Hst Hin d Hd.
    specialize (Hdep st Hst ltac:(set_solver) d Hd). set_solver.
Qed.
End Run.

(** ** The default batch *)

(** A request runs without a partitioned error. *)
Definition plain_errors {W} (r : StepRunner W) : Prop :=
  forall req wd succ fail wd', run_request r req wd <> (Err (Batch succ fail), wd').

Lemma default_run_batch_Err {W} (r : StepRunner W) reqs wd e wd' :
  default_run_batch r reqs wd = (Err e, wd') ->
  exists req wd0, run_request r req wd0 = (Err e, wd').
Proof.
  revert wd. induction reqs as [|req reqs IH]; simpl; intros wd Hr; [done |].
  destruct (run_request r req wd) as [[sm|e'] wd1] eqn:E.
  - destruct (default_run_batch r reqs wd1) as [[out|e2] wd2] eqn:E2; [done |].
    injection Hr as <- <-. by eapply IH.
  - injection Hr as <- <-. eauto.
Qed.

Lemma default_reports {W} (r : StepRunner W) :
  (forall reqs wd, run_batch r reqs wd = default_run_batch r reqs wd) ->
  plain_errors r -> reports_on_tasks r.
Proof.
  intros Hd Hp tasks wd succ fail wd' Hr. rewrite Hd in Hr.
  apply default_run_batch_Err in Hr as (req & wd0 & Hr). by apply Hp in Hr.
Qed.

(** ** Fan-out *)

Definition all_done (l : list (nat * str)) : list (nat * Joined) :=
  map (fun p => (fst p, TaskDone (Ok (snd p)))) l.

Lemma drain_all_done l : drain (all_done l) = (l, None).
Proof. induction l as [|[i s] l IH]; [done |]. simpl. by rewrite IH. Qed.

Lemma imap_pair_sorted k (ss : list str) :
  StronglySorted (fun a b => N.of_nat (fst a) < N.of_nat (fst b))%N
    (imap (fun i s => (k + i, s)) ss).
Proof.
  revert k. induction ss as [|s ss IH]; intros k; simpl; [constructor |].
  assert (imap ((fun i s => (k + i, s)) ∘ S) ss = imap (fun i (s : str) => (S k + i, s)) ss) as ->.
  { apply imap_ext. intros i x _. simpl. f_equal. lia. }
  constructor; [apply IH |]. apply Forall_forall.
  intros p (i & y & -> & _)%elem_of_lookup_imap. simpl. lia.
Qed.

Lemma sort_by_key_imap (ss : list str) l :
  Permutation l (imap pair ss) -> sort_by_key l = imap pair ss.
Proof. intros Hp. apply sort_by_unique; [done | apply (imap_pair_sorted 0)]. Qed.

Section FanOutOrder.
Context `{SerdeJson} {W : Type}.
Variable host : Host W.

(** A fan-out step whose children all succeed gives one section and one
    structured entry per item, in the order of the items, whatever the order in
    which the children finish. *)
Lemma fan_out_in_item_order (step : Step) (s : Exec W) expr name items ss arrived wd' :
  over step = Some expr -> as_name step = Some name ->
  json_from_str (resolve_step_refs expr (outputs s)) = Some (JArr items) ->
  let persona_ := unwrap_or (lit "coder") (persona step) in
  join_children host (Nat.max (unwrap_or (length items) (N.to_nat <$> max_parallel step)) 1)
    (imap (fan_child step persona_ name (outputs s)) items) (world s)
    = (Some (all_done arrived), wd') ->
  Permutation arrived (imap pair ss) ->
  exists o, run_fan_out host step s
      = (Ok (Some o), mkExec ({[step_name step]} ∪ completed s) (skipped s) (outputs s) wd')
    /\ out_summary o
       = join (newline ++ newline)
           (imap (fun i sm => lit "## " ++ (step_name step ++ lit "_" ++ show_nat i)
                    ++ lit " (item " ++ show_nat i ++ lit "):" ++ newline ++ sm) ss)
    /\ exists vs, structured_output o = Some (JArr vs) /\ length vs = length ss
       /\ forall i sm, ss !! i = Some sm ->
            exists v, vs !! i = Some v /\ json_get v "summary" = Some (JStr sm)
                      /\ json_get v "item" = Some (unwrap_or JNull (items !! i)).
Proof.
  intros Ho Ha Hj persona_ Hjoin Hp. unfold run_fan_out, bind, lift, get, call.
  rewrite Ho, Ha. cbn [ok_or]. rewrite Hj. cbn [mbind option_bind as_array ok_or].
  fold persona_. rewrite Hjoin. cbn [ok_or]. rewrite drain_all_done.
  cbn [mark_completed completed skipped outputs world]. eexists. split; [reflexivity |].
  unfold fan_out_output. cbn [out_summary structured_output].
  rewrite (sort_by_key_imap ss) by done. split.
  - f_equal. change (map (child_section step)) with (fmap (M:=list) (child_section step)). by rewrite fmap_imap.
  - eexists. split; [reflexivity |]. split; [by rewrite length_map, length_imap |].
    intros i sm Hi. eexists. split.
    + rewrite list_lookup_fmap, list_lookup_imap, Hi. reflexivity.
    + done.
Qed.
End FanOutOrder.

(** ** Prompts of agent steps *)

Lemma dep_context_ok outs deps :
  is_ok (dep_context outs deps) = true <-> forall d, d ∈ deps -> d ∈ dom outs.
Proof.
  induction deps as [|d deps IH]; simpl.
  - split; [|done]. intros _ d Hd. by apply elem_of_nil in Hd.
  - destruct (outs !! d) as [o|] eqn:E.
    + transitivity (is_ok (dep_context outs deps) = true).
      { by destruct (dep_context outs deps). }
      rewrite IH. split; [|intros H x Hx; apply H; by right].
      intros H x [->|Hx]%elem_of_cons; [by eapply elem_of_dom_2 | auto].
    + split; [done |]. intros H. specialize (H d ltac:(by left)).
      apply elem_of_dom in H as [o Ho]. congruence.
Qed.

Lemma build_agent_prompt_ok `{SerdeJson} step outs :
  is_ok (build_agent_prompt step outs) = true
  <-> forall d, d ∈ depends_on step -> d ∈ dom outs.
Proof.
  rewrite <-dep_context_ok. unfold build_agent_prompt. case_decide as Hd.
  - rewrite Hd. done.
  - destruct (dep_context outs (depends_on step)); done.
Qed.

(** ** Partitioned batch errors *)

Section Partition.
Context `{SerdeJson} {W : Type}.
Variable w : Workflow.

Definition known (x : str) : Prop := is_Some (find_step (steps w) x).

Definition record_success (outs : gmap str StepOutput) (p : str * str) : gmap str StepOutput :=
  match find_step (steps w) (fst p) with
  | Some st => <[fst p := success_output st (fst p) (snd p) None]> outs
  | None => outs
  end.

Definition record_failure (outs : gmap str StepOutput) (p : str * error) : gmap str StepOutput :=
  match find_step (steps w) (fst p) with
  | Some st => <[fst p := failure_output st (fst p) (error_display (snd p))]> outs
  | None => outs
  end.

Lemma store_successes_run l (s : Exec W) :
  Forall (fun p => known (fst p)) l ->
  store_successes w l s
  = (Ok tt, mkExec (list_to_set (map fst l) ∪ completed s) (skipped s)
              (foldl record_success (outputs s) l) (world s)).
Proof.
  revert s. induction l as [|[x sm] l IH]; intros s Hk; simpl.
  - destruct s; simpl. unfold ret. do 2 f_equal. set_solver.
  - apply Forall_cons in Hk as [[st Hst] Hk]. unfold bind, lift. simpl in Hst.
    unfold record_success at 2. simpl. rewrite Hst. cbn [ok_or].
    unfold insert_output, mark_completed. cbn [completed skipped outputs world].
    rewrite IH by done. cbn [completed skipped outputs world]. do 2 f_equal. set_solver.
Qed.

(** The first message and the first route of the failures. *)
Definition first_message (l : list (str * error)) (m : option str) : option str :=
  match m with Some x => Some x | None => error_display ∘ snd <$> head l end.
Definition first_route (l : list (str * error)) (r : option str) : option str :=
  match r with Some x => Some x | None => find_map (route_of w ∘ fst) l end.

Lemma store_failures_run l m r (s : Exec W) :
  Forall (fun p => known (fst p)) l ->
  store_failures w l m r s
  = (Ok (first_message l m, first_route l r),
     mkExec (list_to_set (map fst l) ∪ completed s) (skipped s)
       (foldl record_failure (outputs s) l) (world s)).
Proof.
  revert m r s. induction l as [|[x e] l IH]; intros m r s Hk; simpl.
  - destruct s, m, r; simpl; unfold ret; do 2 f_equal; set_solver.
  - apply Forall_cons in Hk as [[st Hst] Hk]. unfold bind, lift. simpl in Hst.
    unfold record_failure at 2. simpl. rewrite Hst. cbn [ok_or].
    unfold insert_output, mark_completed. cbn [completed skipped outputs world].
    rewrite IH by done. cbn [completed skipped outputs world]. f_equal; [f_equal; f_equal |].
    + by destruct m.
    + assert (route_of w x = on_error st) as Hr by (unfold route_of; by rewrite Hst).
      destruct r; [done |]. unfold first_route. cbn [find_map compose fst]. rewrite Hr.
      by destruct (on_error st).
    + f_equal. set_solver.
Qed.

Lemma record_success_other outs p x : x <> fst p -> record_success outs p !! x = outs !! x.
Proof.
  intros Hx. unfold record_success. destruct (find_step _ _); [|done]. by apply lookup_insert_ne.
Qed.

Lemma record_failure_other outs p x : x <> fst p -> record_failure outs p !! x = outs !! x.
Proof.
  intros Hx. unfold record_failure. destruct (find_step _ _); [|done]. by apply lookup_insert_ne.
Qed.

Lemma foldl_record_fresh {B} (rec_ : gmap str StepOutput -> str * B -> gmap str StepOutput)
    l outs x :
  (forall o p y, y <> fst p -> rec_ o p !! y = o !! y) ->
  x ∉ map fst l -> foldl rec_ outs l !! x = outs !! x.
Proof.
  intros Hrec. revert outs. induction l as [|p l IH]; intros outs Hx; simpl; [done |].
  apply not_elem_of_cons in Hx as [H1 H2]. rewrite IH by done. by apply Hrec.
Qed.

Lemma foldl_record_lookup {B} (rec_ : gmap str StepOutput -> str * B -> gmap str StepOutput)
    l outs x b :
  (forall o p y, y <> fst p -> rec_ o p !! y = o !! y) ->
  NoDup (map fst l) -> (x, b) ∈ l ->
  exists o, foldl rec_ outs l !! x = rec_ o (x, b) !! x.
Proof.
  intros Hrec. revert outs. induction l as [|p l IH]; intros outs Hnd Hin; simpl.
  - by apply elem_of_nil in Hin.
  - apply NoDup_cons in Hnd as [Hn Hnd]. apply elem_of_cons in Hin as [<-|Hin]; [|by apply IH].
    exists outs. by apply foldl_record_fresh.
Qed.

(** A partitioned batch error keeps what succeeded: every successful sibling
    is recorded with its real summary, every failed step with its own error; the run
    goes on exactly when some failed step has an [on_error] route, and then the first
    such handler is recorded with the first error; otherwise the first error is
    returned. *)
Lemma handle_partitioned_batch_error_spec succ fail (s : Exec W) :
  Forall (fun p => known (fst p)) succ -> Forall (fun p => known (fst p)) fail ->
  NoDup (map fst succ ++ map fst fail) ->
  let '(r, s') := handle_partitioned_batch_error w succ fail s in
  let msg := error_display ∘ snd <$> head fail in
  match find_map (fun p => route_of w (fst p)) fail with
  | None => r = Err (Anyhow (unwrap_or (lit "batch failed with no error detail") msg))
  | Some h =>
      r = Ok tt
      /\ outputs s' !! h = Some (handler_output h
           (lit "error handler triggered by: " ++ unwrap_or (lit "batch failure") msg))
      /\ completed s' = {[h]} ∪ list_to_set (map fst succ ++ map fst fail) ∪ completed s
      /\ (forall x sm st, (x, sm) ∈ succ -> x <> h -> find_step (steps w) x = Some st ->
            outputs s' !! x = Some (success_output st x sm None))
      /\ (forall x e st, (x, e) ∈ fail -> x <> h -> find_step (steps w) x = Some st ->
            outputs s' !! x = Some (failure_output st x (error_display e)))
  end.
Proof.
  intros Hs Hf (Hnd1 & Hdis & Hnd2)%NoDup_app.
  unfold handle_partitioned_batch_error, bind. rewrite store_successes_run by done.
  rewrite store_failures_run by done. cbn [completed skipped outputs world].
  change (first_route fail None) with (find_map (fun p => route_of w (fst p)) fail).
  destruct (find_map _ fail) as [h|]; [|done].
  cbn [trigger_handler bind mark_completed insert_output completed skipped outputs world].
  split; [done |]. split; [by rewrite lookup_insert_eq |].
  split; [rewrite list_to_set_app_L; set_solver |]. split.
  - intros x sm st Hin Hx Hst. rewrite lookup_insert_ne by done.
    rewrite foldl_record_fresh; [|apply record_failure_other |
      apply Hdis; by apply (list_elem_of_fmap_2 fst _ (x, sm))].
    destruct (foldl_record_lookup record_success succ (outputs s) x sm record_success_other Hnd1 Hin)
      as [o ->]. unfold record_success. simpl. by rewrite Hst, lookup_insert_eq.
  - intros x e st Hin Hx Hst. rewrite lookup_insert_ne by done.
    destruct (foldl_record_lookup record_failure fail (foldl record_success (outputs s) succ)
                x e record_failure_other Hnd2 Hin)
      as [o ->]. unfold record_failure. simpl. by rewrite Hst, lookup_insert_eq.
Qed.
End Partition.

(** ** Concrete runs *)

(** A runner that logs the names it runs; the command and the condition [false]
    fail. *)
Definition demo_bash (name cmd : str) (log : list str) : result str error * list str :=
  (if str_eqb cmd "false" then Err (Anyhow "exit 1") else Ok (lit "ok"), log ++ [name]).

Definition demo_base : StepRunner (list str) :=
  {| run_step name _ _ log := (Ok (lit "ok"), log ++ [name]);
     run_bash := demo_bash;
     run_tool name _ _ log := (Ok (lit "ok"), log ++ [name]);
     eval_condition c log := (Ok (negb (str_eqb c "false")), log);
     run_batch _ log := (Ok [], log) |}.

Definition demo_runner : StepRunner (list str) :=
  {| run_step := run_step demo_base; run_bash := run_bash demo_base;
     run_tool := run_tool demo_base; eval_condition := eval_condition demo_base;
     run_batch := default_run_batch demo_base |}.

(** Children finish in reverse order. *)
Definition demo_host : Host (list str) :=
  {| cancellation := None;
     elapsed_secs _ := 0%N;
     join_children _ children log :=
       (Some (rev (map (fun c => (child_index c, TaskDone (Ok (child_name c)))) children)), log) |}.

#[local] Instance demo_json : SerdeJson :=
  {| json_to_string _ := [];
     json_from_str s := if str_eqb s "[1,2]" then Some (JArr [JNum "1"; JNum "2"]) else None |}.

Lemma demo_reports : reports_on_tasks demo_runner.
Proof.
  apply default_reports.
  { intros reqs. induction reqs as [|q reqs IH]; intros wd; [reflexivity |]. simpl in *.
    change (run_request demo_runner q wd) with (run_request demo_base q wd).
    destruct (run_request demo_base q wd) as [[sm|e] wd']; [by rewrite IH | reflexivity]. }
  intros req wd succ fail wd'. unfold run_request. simpl. unfold demo_bash.
  destruct (req_kind req); try discriminate. by destruct (str_eqb _ _).
Defined.

Lemma run_terminates_witness :
  exists r s', run demo_runner demo_host two_step_plan None [] = Some (r, s').
Proof. apply (run_terminates demo_runner demo_host two_step_plan None []). exact demo_reports. Defined.

Definition plan_result : option (result WorkflowSummary error * Exec (list str)) :=
  run demo_runner demo_host two_step_plan (Some (lit "r1")) [].

Definition plan_summary : WorkflowSummary :=
  match plan_result with Some (Ok r, _) => r | _ => mkSummary [] ∅ true None end.
Definition plan_state : Exec (list str) :=
  match plan_result with Some (_, s) => s | None => initial [] end.

Lemma run_summary_wf_witness : dom (sum_outputs plan_summary) = completed plan_state.
Proof.
  apply (run_summary_wf demo_runner demo_host two_step_plan (Some (lit "r1")) [] plan_summary plan_state).
  - vm_compute. reflexivity.
  - exact demo_reports.
  - vm_compute. reflexivity.
Defined.

Lemma run_complete_witness :
  completed plan_state ∪ skipped plan_state = step_names two_step_plan.
Proof.
  apply (run_complete demo_runner demo_host two_step_plan (Some (lit "r1")) [] plan_summary plan_state).
  - vm_compute. reflexivity.
  - exact demo_reports.
  - split; [|discriminate]. intros st Hst.
    apply elem_of_cons in Hst as [->|Hst]; [done |]. by apply list_elem_of_singleton in Hst as ->.
  - vm_compute. reflexivity.
  - vm_compute. reflexivity.
Defined.

Definition fan_step : Step :=
  mkStep "f" FanOut (Some (lit "do ${x}")) None None None None [] None None None None
    (Some (lit "[1,2]")) (Some (lit "x")) None.

Lemma fan_out_in_item_order_witness :
  exists o, run_fan_out demo_host fan_step (initial [])
      = (Ok (Some o), mkExec {[lit "f"]} ∅ ∅ [])
    /\ out_summary o = lit "## f_0 (item 0):" ++ newline ++ lit "f_0" ++ newline ++ newline
                       ++ lit "## f_1 (item 1):" ++ newline ++ lit "f_1".
Proof.
  destruct (fan_out_in_item_order demo_host fan_step (initial []) "[1,2]" "x" [JNum "1"; JNum "2"]
              [lit "f_0"; lit "f_1"] [(1, lit "f_1"); (0, lit "f_0")] []) as (o & Hr & Hs & _).
  - reflexivity.
  - reflexivity.
  - vm_compute. reflexivity.
  - vm_compute. reflexivity.
  - apply Permutation_swap.
  - exists o. split; [|rewrite Hs; vm_compute; reflexivity].
    rewrite Hr. f_equal.
Defined.

Lemma handle_partitioned_batch_error_spec_witness :
  fst (handle_partitioned_batch_error two_step_plan [(lit "tests", lit "ok")]
         [(lit "join", Anyhow "boom")] (initial (W := unit) tt))
  = Err (Anyhow "boom").
Proof.
  apply (handle_partitioned_batch_error_spec (W := unit) two_step_plan [(lit "tests", lit "ok")]
           [(lit "join", Anyhow "boom")] (initial tt)).
  - constructor; [|constructor]. eexists. reflexivity.
  - constructor; [|constructor]. eexists. reflexivity.
  - apply (bool_decide_unpack _). vm_compute. exact I.
Defined.

(** ** Where the executor departs from its documentation *)

(** A skipped dependency counts as done for scheduling but has no output: an
    agent step is scheduled once its dependencies are done, and its prompt is built
    exactly when every dependency has an output, so a workflow whose agent step
    depends on a skipped step aborts with an error instead of going on. *)
Lemma skipped_dependency_aborts :
  (forall step outs, is_ok (build_agent_prompt step outs) = true
     <-> forall d, d ∈ depends_on step -> d ∈ dom outs)
  /\ let w := mkWorkflow "w"
       [mkStep "check" Bash None None (Some (lit "true")) None None [] None
          (Some (lit "false")) None None None None None;
        mkStep "plan" Agent (Some (lit "go")) (Some (lit "plan")) None None None [lit "check"]
          None None None None None None None] None in
     validate w = Ok tt
     /\ fst <$> run demo_runner demo_host w None []
        = Some (Err (Anyhow "missing output for dependency check")).
Proof. split; [apply build_agent_prompt_ok | vm_compute; done]. Qed.

(** An error route to a step that was skipped counts that step twice, as
    completed and as skipped: the loop then ends although a step of the workflow was
    never run, and the run reports success without an output for it. *)
Lemma skipped_handler_drops_step :
  let w := mkWorkflow "w"
    [mkStep "cleanup" Bash None None (Some (lit "true")) None None [] None
       (Some (lit "false")) None None None None None;
     mkStep "build" Bash None None (Some (lit "false")) None None [] None None
       (Some (lit "cleanup")) None None None None;
     mkStep "report" Bash None None (Some (lit "true")) None None [lit "build"]
       None None None None None None None] None in
  validate w = Ok tt
  /\ exists r s', run demo_runner demo_host w None [] = Some (Ok r, s')
       /\ budget_exceeded r = false
       /\ sum_outputs r !! lit "report" = None /\ (lit "report" ∉ skipped s')
       /\ world s' = [lit "build"].
Proof.
  split; [vm_compute; reflexivity |].
  match goal with |- exists r s', ?x = _ /\ _ => destruct x as [[[r|e] s']|] eqn:E end.
  - exists r, s'. split; [reflexivity |]. vm_compute in E. injection E as <- <-.
    repeat split; try reflexivity. apply (bool_decide_unpack _). vm_compute. exact I.
  - vm_compute in E. discriminate.
  - vm_compute in E. discriminate.
Qed.
