(* ===== verification/Todo.v ===== *)
(** * The session TODO list

    Models [src/src/tools/todo.rs]: decoding, validation, the explicit-stack
    depth-first search for dependency cycles, rendering, and the two tools on the
    shared list.  The vector of frames is a list with its top first; [color] and
    [parent] are the vectors of the code.  The theorems: validation accepts exactly
    the well-formed lists, a rejected write leaves the list unchanged and a read
    renders the last accepted write. *)

From stdpp Require Import relations.
From S2P Require Import Prelude Graph.

Inductive TodoStatus := Pending | InProgress | Completed.

#[export] Instance TodoStatus_eq_dec : EqDecision TodoStatus.
Proof. solve_decision. Defined.

Record TodoItem := mkTodo {
  id : str;
  content : str;
  status : TodoStatus;
  depends_on : list str
}.

Definition TodoStatus_from_str (s : str) : option TodoStatus :=
  if str_eqb s "pending" then Some Pending
  else if str_eqb s "in_progress" then Some InProgress
  else if str_eqb s "completed" then Some Completed
  else None.

Definition marker (s : TodoStatus) : str :=
  match s with
  | Pending => "[ ]"
  | InProgress => "[>]"
  | Completed => "[x]"
  end.

Section Todo.
Context `{UnicodePrint}.
(** [serde_json::from_str] with the text of its error. *)
Variable json_parse : str -> result json str.

(** ** Decoding *)

Definition get_str (entry : json) (key : str) : option str := json_get entry key ≫= as_str.

Definition parse_entry (i : nat) (entry : json) : result TodoItem str :=
  let? id_ := ok_or (get_str entry "id")
        (lit "item at index " ++ show_nat i ++ lit " missing string 'id'") in
  let? content_ := ok_or (get_str entry "content")
        (lit "item " ++ debug_str id_ ++ lit " missing string 'content'") in
  let? status_str := ok_or (get_str entry "status")
        (lit "item " ++ debug_str id_ ++ lit " missing string 'status'") in
  let? status_ := ok_or (TodoStatus_from_str status_str)
        (lit "item " ++ debug_str id_ ++ lit " has invalid status " ++ debug_str status_str
         ++ lit " (must be pending, in_progress, or completed)") in
  Ok (mkTodo id_ content_ status_
        (match json_get entry "depends_on" ≫= as_array with
         | Some a => omap as_str a
         | None => []
         end)).

Fixpoint parse_entries (i : nat) (l : list json) : result (list TodoItem) str :=
  match l with
  | [] => Ok []
  | entry :: l' =>
      let? item := parse_entry i entry in
      let? items := parse_entries (S i) l' in
      Ok (item :: items)
  end.

Definition parse_todos (args : json) : result (list TodoItem) str :=
  let? raw := ok_or (json_get args "todos")
        (lit "todo_write requires a 'todos' array (use [] to clear)") in
  let? value := match raw with
                | JStr s => match json_parse s with
                            | Ok v => Ok v
                            | Err e => Err (lit "failed to parse todos string as JSON: " ++ e)
                            end
                | v => Ok v
                end in
  let? arr := ok_or (as_array value) (lit "'todos' must be an array") in
  parse_entries 0 arr.

(** ** The cycle search *)

Record Dfs := mkDfs {
  stack : list (nat * nat);
  color : list nat;
  parent : list Z
}.

(** Walk the parents from [x] back to [v]. *)
Fixpoint walk_parents (fuel : nat) (par : list Z) (x : Z) (v : nat) : list nat :=
  match fuel with
  | O => []
  | S fuel' =>
      if (x =? -1)%Z || (x =? Z.of_nat v)%Z then []
      else Z.to_nat x :: walk_parents fuel' par (unwrap_or (-1)%Z (par !! Z.to_nat x)) v
  end.

Inductive DfsOutcome :=
| CycleFound (cycle : list nat)
| NoCycle (color : list nat) (parent : list Z)
| OutOfFuel.

(** The [while let] loop of [dfs]. *)
Fixpoint dfs_loop (items : list TodoItem) (idx : gmap str nat) (fuel : nat) (s : Dfs)
  : DfsOutcome :=
  match fuel with
  | O => OutOfFuel
  | S fuel' =>
      match stack s with
      | [] => NoCycle (color s) (parent s)
      | (u, edge_i) :: rest =>
          let deps := match items !! u with Some it => depends_on it | None => [] end in
          match deps !! edge_i with
          | Some dep =>
              match idx !! dep with
              | Some v =>
                  if decide (color s !! v = Some 0) then
                    dfs_loop items idx fuel'
                      (mkDfs ((v, 0) :: (u, S edge_i) :: rest) (<[v := 1]> (color s))
                         (<[v := Z.of_nat u]> (parent s)))
                  else if decide (color s !! v = Some 1) then
                    CycleFound (v :: walk_parents (length items) (parent s) (Z.of_nat u) v ++ [v])
                  else
                    dfs_loop items idx fuel' (mkDfs ((u, S edge_i) :: rest) (color s) (parent s))
              | None =>
                  (* the code panics here; dangling references are rejected before *)
                  dfs_loop items idx fuel' (mkDfs ((u, S edge_i) :: rest) (color s) (parent s))
              end
          | None =>
              dfs_loop items idx fuel' (mkDfs rest (<[u := 2]> (color s)) (parent s))
          end
      end
  end.

(** Every turn moves an edge cursor or pops a frame. *)
Definition dfs_fuel (items : list TodoItem) : nat :=
  S (sum_list (map (fun it => S (length (depends_on it))) items)).

Fixpoint find_cycle_from (items : list TodoItem) (idx : gmap str nat) (roots : list nat)
    (col : list nat) (par : list Z) : option (list nat) :=
  match roots with
  | [] => None
  | i :: roots' =>
      if decide (col !! i = Some 0) then
        match dfs_loop items idx (dfs_fuel items) (mkDfs [(i, 0)] (<[i := 1]> col) par) with
        | CycleFound cycle => Some (rev cycle)
        | NoCycle col' par' => find_cycle_from items idx roots' col' par'
        | OutOfFuel => None
        end
      else find_cycle_from items idx roots' col par
  end.

Definition ids_of (items : list TodoItem) (p : list nat) : list str :=
  omap (fun n => id <$> items !! n) p.

Definition find_cycle (items : list TodoItem) (idx : gmap str nat) : option str :=
  let n := length items in
  (fun c => join " -> " (ids_of items c)) <$>
    find_cycle_from items idx (seq 0 n) (replicate n 0) (replicate n (-1)%Z).

(** ** Validation *)

Fixpoint check_shape (i : nat) (l : list TodoItem) (ids : gmap str nat)
  : result (gmap str nat) str :=
  match l with
  | [] => Ok ids
  | it :: l' =>
      if decide (trim (id it) = [])
      then Err (lit "item at index " ++ show_nat i ++ lit " has empty id")
      else if decide (trim (content it) = [])
      then Err (lit "item " ++ debug_str (id it) ++ lit " has empty content")
      else match ids !! id it with
           | Some _ => Err (lit "duplicate id " ++ debug_str (id it))
           | None => check_shape (S i) l' (<[id it := i]> ids)
           end
  end.

Fixpoint check_deps (ids : gmap str nat) (it : TodoItem) (deps : list str) : result unit str :=
  match deps with
  | [] => Ok tt
  | dep :: deps' =>
      if str_eqb dep (id it)
      then Err (lit "item " ++ debug_str (id it) ++ lit " lists itself in depends_on")
      else match ids !! dep with
           | None => Err (lit "item " ++ debug_str (id it) ++ lit " depends on unknown id "
                          ++ debug_str dep)
           | Some _ => check_deps ids it deps'
           end
  end.

Fixpoint check_all_deps (ids : gmap str nat) (l : list TodoItem) : result unit str :=
  match l with
  | [] => Ok tt
  | it :: l' => do? check_deps ids it (depends_on it) ;; check_all_deps ids l'
  end.

Definition unfinished (items : list TodoItem) (ids : gmap str nat) (dep : str) : bool :=
  match ids !! dep ≫= (fun i => items !! i) with
  | Some d => negb (bool_decide (status d = Completed))
  | None => true
  end.

Definition blockers (items : list TodoItem) (ids : gmap str nat) (it : TodoItem) : list str :=
  List.filter (unfinished items ids) (depends_on it).

Fixpoint check_progress (items : list TodoItem) (ids : gmap str nat) (l : list TodoItem)
  : result unit str :=
  match l with
  | [] => Ok tt
  | it :: l' =>
      if decide (status it = InProgress) then
        match blockers items ids it with
        | [] => check_progress items ids l'
        | bs => Err (lit "item " ++ debug_str (id it)
                     ++ lit " is in_progress but depends on unfinished items: " ++ join ", " bs)
        end
      else check_progress items ids l'
  end.

Definition validate_todo_list (items : list TodoItem) : result unit str :=
  let? ids := check_shape 0 items ∅ in
  do? check_all_deps ids items ;;
  match find_cycle items ids with
  | Some cycle => Err (lit "dependency cycle detected: " ++ cycle)
  | None => check_progress items ids items
  end.

(** ** Rendering *)

Definition is_blocked (items : list TodoItem) (it : TodoItem) : bool :=
  existsb (fun d => negb (existsb (fun x => bool_decide (status x = Completed)
                                            && str_eqb (id x) d) items)) (depends_on it).

Definition format_item (items : list TodoItem) (i : nat) (it : TodoItem) : str :=
  lit "  " ++ marker (status it) ++ lit " " ++ show_nat (i + 1) ++ lit ". " ++ content it
  ++ (if decide (depends_on it = []) then []
      else lit "  (depends on: " ++ join ", " (depends_on it) ++ lit ")"
           ++ (if negb (bool_decide (status it = Completed)) && is_blocked items it
               then lit " [blocked]" else []))
  ++ [10%N].

Definition format_todo_list (items : list TodoItem) : str :=
  if decide (items = []) then lit "TODO list is empty."
  else trim_end
         (lit "TODO list (" ++ show_nat (length items) ++ lit " item"
          ++ (if length items =? 1 then [] else lit "s") ++ lit "):" ++ [10%N]
          ++ concat (imap (format_item items) items)).

(** ** The tools *)

Definition TodoState := list TodoItem.

(** [TodoWrite::run]: the outcome and the list afterwards. *)
Definition todo_write (st : TodoState) (args : json) : result str str * TodoState :=
  match parse_todos args with
  | Err msg => (Err msg, st)
  | Ok items =>
      match validate_todo_list items with
      | Err msg => (Err msg, st)
      | Ok _ => (Ok (lit "TODO list updated." ++ [10%N] ++ format_todo_list items), items)
      end
  end.

(** [TodoRead::run]. *)
Definition todo_read (st : TodoState) : result str str := Ok (format_todo_list st).
End Todo.

(** ** Correctness of the search *)

Section DfsCorrect.
Variable items : list TodoItem.
Variable idx : gmap str nat.
(** [idx] finds the items by id, and every dependency is an item. *)
Hypothesis idx_spec : forall x i, idx !! x = Some i <-> exists it, items !! i = Some it /\ id it = x.
Hypothesis deps_known : forall u it d, items !! u = Some it -> d ∈ depends_on it -> is_Some (idx !! d).

Definition edge (u v : nat) : Prop :=
  exists it d, items !! u = Some it /\ d ∈ depends_on it /\ idx !! d = Some v.

Definition cost (u : nat) : nat :=
  match items !! u with Some it => S (length (depends_on it)) | None => 0 end.

(** The frames below the node [above] (if any): the dependencies before the cursor
    are finished, but for the one being explored. *)
Inductive frames (col : list nat) : option nat -> list (nat * nat) -> Prop :=
| frames_nil a : frames col a []
| frames_cons a u e rest it :
    items !! u = Some it -> e <= length (depends_on it) ->
    (forall k d j, k < e -> depends_on it !! k = Some d -> idx !! d = Some j ->
       col !! j = Some 2 \/ a = Some j) ->
    (forall j, a = Some j -> edge u j) ->
    frames col (Some u) rest -> frames col a ((u, e) :: rest).

(** Each frame's parent is the frame below it. *)
Inductive linked (par : list Z) : list (nat * nat) -> Prop :=
| linked_nil : linked par []
| linked_one x : linked par [x]
| linked_cons v e u e' rest : par !! v = Some (Z.of_nat u) ->
    linked par ((u, e') :: rest) -> linked par ((v, e) :: (u, e') :: rest).

Record inv (s : Dfs) : Prop := {
  i_len : length (color s) = length items;
  i_plen : length (parent s) = length items;
  i_colour : forall j x, color s !! j = Some x -> x = 0 \/ x = 1 \/ x = 2;
  i_gray : forall j, j ∈ map fst (stack s) <-> color s !! j = Some 1;
  i_nodup : NoDup (map fst (stack s));
  i_black : forall j, color s !! j = Some 2 -> grounded edge j;
  i_frames : frames (color s) None (stack s);
  i_linked : linked (parent s) (stack s)
}.

Lemma frames_mono col col' a st :
  (forall j, col !! j = Some 2 -> col' !! j = Some 2) -> frames col a st -> frames col' a st.
Proof.
  intros Hm Hf. induction Hf as [a|a u e rest it Hi He Hk Ha _ IH]; [constructor |].
  econstructor; [done..| |done|done].
  intros k d j H1 H2 H3. destruct (Hk k d j H1 H2 H3); auto.
Qed.

(** The explored child is finished. *)
Lemma frames_pop col u st :
  frames col (Some u) st -> col !! u = Some 2 -> frames col None st.
Proof.
  intros Hf Hu. inversion Hf as [|? p e rest it Hi He Hk Ha Hr]; subst; [constructor |].
  econstructor; [done..| |done|done].
  intros k d j H1 H2 H3. left. by destruct (Hk k d j H1 H2 H3) as [?|[= ->]].
Qed.

Lemma linked_insert par v z st :
  v ∉ map fst st -> linked par st -> linked (<[v := z]> par) st.
Proof.
  intros Hv Hl. induction Hl as [|x|w e u e' rest Hp _ IH]; [constructor..|].
  simpl in Hv. apply not_elem_of_cons in Hv as [H1 H2]. constructor; [|by apply IH].
  by rewrite list_lookup_insert_ne.
Qed.

Lemma frames_chain col a st :
  frames col a st -> st <> [] -> chain edge (rev (map fst st)).
Proof.
  intros Hf. induction Hf as [|a u e rest it Hi He Hk Ha Hf IH]; [done |]. intros _. simpl.
  destruct rest as [|[p e'] rest]; [apply chain_one |].
  simpl in *. apply chain_snoc; [by apply IH |].
  inversion Hf as [|? ? ? ? ? ? ? ? Hj _]; subst. by apply Hj.
Qed.

Lemma walk_linked par st fuel pre u e0 v e post :
  linked par st -> st = (u, e0) :: pre ++ (v, e) :: post ->
  NoDup (map fst st) -> S (length pre) <= fuel ->
  walk_parents fuel par (Z.of_nat u) v = u :: map fst pre.
Proof.
  revert st u e0 fuel. induction pre as [|[p e1] pre IH]; intros st u e0 fuel Hl -> Hnd Hf.
  - destruct fuel as [|fuel]; [simpl in Hf; lia |]. simpl in *.
    apply NoDup_cons in Hnd as [Hn _]. apply not_elem_of_cons in Hn as [Hn _].
    rewrite (proj2 (Z.eqb_neq _ _)), (proj2 (Z.eqb_neq (Z.of_nat u) (Z.of_nat v))) by lia.
    simpl. rewrite Nat2Z.id. inversion Hl as [| |? ? ? ? ? Hp _]; subst. rewrite Hp. simpl.
    destruct fuel; [done |]. simpl. by rewrite Z.eqb_refl, orb_true_r.
  - destruct fuel as [|fuel]; [simpl in Hf; lia |]. simpl in Hnd, Hf.
    apply NoDup_cons in Hnd as [Hn Hnd].
    assert (u <> v) as Huv.
    { intros ->. apply Hn. right. rewrite fmap_app. apply elem_of_app. right. by left. }
    cbn [walk_parents]. rewrite (proj2 (Z.eqb_neq _ _)), (proj2 (Z.eqb_neq (Z.of_nat u) (Z.of_nat v))) by lia.
    simpl. rewrite Nat2Z.id. inversion Hl as [| |? ? ? ? ? Hp Hl']; subst. rewrite Hp. simpl.
    f_equal. eapply (IH _ p e1); [exact Hl' | done | done | lia].
Qed.

(** A gray dependency closes a cycle along the stack. *)
Lemma gray_cycle s u e rest v :
  inv s -> stack s = (u, e) :: rest -> edge u v -> color s !! v = Some 1 ->
  is_cycle edge (rev (v :: walk_parents (length items) (parent s) (Z.of_nat u) v ++ [v])).
Proof.
  intros Hinv Hst Hedge Hv. pose proof Hv as Hin. apply (i_gray s Hinv) in Hin.
  pose proof (frames_chain _ _ _ (i_frames s Hinv) ltac:(by rewrite Hst)) as Hch.
  assert (chain edge (rev (map fst (stack s)) ++ [v])) as Hch'.
  { rewrite Hst in *. simpl in *. by apply chain_snoc. }
  assert (exists pre e' post, stack s = pre ++ (v, e') :: post
            /\ walk_parents (length items) (parent s) (Z.of_nat u) v = map fst pre)
    as (pre & e' & post & Hs & Hw).
  { apply list_elem_of_fmap in Hin as ([v' e'] & Hvv & Hin). simpl in Hvv. subst v'.
    apply list_elem_of_split in Hin as (pre & post & Hs). exists pre, e', post. split; [done |].
    destruct pre as [|[u' e0] pre].
    - simpl in *. rewrite Hst in Hs. injection Hs as <- <- <-.
      destruct (length items); [done |]. simpl. by rewrite Z.eqb_refl, orb_true_r.
    - rewrite Hst in Hs. pose proof Hs as Hs'. injection Hs' as <- <- ->.
      eapply walk_linked; [apply (i_linked s Hinv) | by rewrite Hst | apply (i_nodup s Hinv) |].
      pose proof (i_nodup s Hinv) as Hnd. rewrite Hst in Hnd.
      assert (length (map fst ((u, e) :: pre ++ (v, e') :: post)) <= length items) as Hle.
      { rewrite <-(i_len s Hinv), <-(length_seq (length (color s)) 0).
        apply NoDup_incl_length; [by apply NoDup_ListNoDup |].
        intros x Hx%list_elem_of_In. rewrite <-Hst in Hx. apply (i_gray s Hinv) in Hx.
        apply in_seq. apply lookup_lt_Some in Hx. lia. }
      simpl in Hle. rewrite length_map, length_app in Hle. simpl in Hle. lia. }
  rewrite Hw. rewrite Hs, fmap_app in Hch'. simpl in Hch'.
  rewrite rev_app_distr in Hch'. simpl in Hch'. rewrite <-!app_assoc in Hch'. simpl in Hch'.
  apply chain_app_r in Hch'; [|done].
  replace (rev (v :: map fst pre ++ [v])) with (v :: rev (map fst pre) ++ [v])
    by (simpl; by rewrite rev_app_distr).
  split; [done |]. split; [simpl; rewrite length_app; simpl; lia |].
  by rewrite app_comm_cons, last_snoc.
Qed.

(** *** Potential *)

Definition white_cost (col : list nat) : nat :=
  sum_list (imap (fun i c => if decide (c = 0) then cost i else 0) col).
Definition stack_cost (st : list (nat * nat)) : nat :=
  sum_list (map (fun p => cost (fst p) - snd p) st).

Lemma sum_imap_insert (f : nat -> nat -> nat) col v c c' :
  col !! v = Some c ->
  sum_list (imap f (<[v := c']> col)) + f v c = sum_list (imap f col) + f v c'.
Proof.
  revert f v. induction col as [|x col IH]; intros f v; [done |].
  destruct v as [|v]; simpl.
  - intros [= ->]. lia.
  - intros Hv. specialize (IH (f ∘ S) v Hv). simpl in IH. lia.
Qed.

Lemma white_cost_enter col v :
  col !! v = Some 0 -> white_cost (<[v := 1]> col) + cost v = white_cost col.
Proof.
  intros Hv. pose proof (sum_imap_insert (fun i c => if decide (c = 0) then cost i else 0)
                           col v 0 1 Hv) as Hs. simpl in Hs. unfold white_cost. lia.
Qed.

Lemma white_cost_leave col v :
  col !! v = Some 1 -> white_cost (<[v := 2]> col) = white_cost col.
Proof.
  intros Hv. pose proof (sum_imap_insert (fun i c => if decide (c = 0) then cost i else 0)
                           col v 1 2 Hv) as Hs. simpl in Hs. unfold white_cost. lia.
Qed.

(** Descending into an unvisited dependency. *)
Lemma inv_push s u e rest it d v :
  inv s -> stack s = (u, e) :: rest -> items !! u = Some it -> depends_on it !! e = Some d ->
  idx !! d = Some v -> color s !! v = Some 0 ->
  inv (mkDfs ((v, 0) :: (u, S e) :: rest) (<[v := 1]> (color s)) (<[v := Z.of_nat u]> (parent s))).
Proof.
  intros [H1 H2 H3 H4 H5 H6 H7 H8] Hst Hu Hd Hv H0. rewrite Hst in *.
  assert (v < length (color s)) as Hlt by (by eapply lookup_lt_Some).
  assert (v ∉ map fst ((u, e) :: rest)) as Hvn by (intros Hin%H4; congruence).
  assert (forall j, color s !! j = Some 2 -> <[v := 1]> (color s) !! j = Some 2) as Hm.
  { intros j Hj. rewrite list_lookup_insert_ne; [done | congruence]. }
  split; cbn [stack color parent].
  - by rewrite length_insert.
  - by rewrite length_insert.
  - intros j x. destruct (decide (j = v)) as [->|Hne].
    + rewrite list_lookup_insert_eq by done. intros [= <-]. auto.
    + rewrite list_lookup_insert_ne by done. apply H3.
  - intros j. change (map fst ((v, 0) :: (u, S e) :: rest)) with (v :: map fst ((u, e) :: rest)).
    rewrite elem_of_cons, H4. destruct (decide (j = v)) as [->|Hne].
    + rewrite list_lookup_insert_eq by done. tauto.
    + rewrite list_lookup_insert_ne by done. tauto.
  - by apply NoDup_cons.
  - intros j. destruct (decide (j = v)) as [->|Hne].
    + by rewrite list_lookup_insert_eq.
    + rewrite list_lookup_insert_ne by done. apply H6.
  - apply (frames_mono _ _ _ _ Hm) in H7.
    inversion H7 as [|? ? ? ? it' Hi He Hk Ha Hr]; subst. simplify_eq.
    destruct (proj1 (idx_spec d v) Hv) as (itv & Hiv & _).
    apply (frames_cons _ None v 0 _ itv); [done | lia | intros; lia | done |].
    apply (frames_cons _ (Some v) u (S e) _ it); [done | | | |done].
    + apply lookup_lt_Some in Hd. lia.
    + intros k d' j Hlt' Hd' Hj. destruct (decide (k = e)) as [->|Hne]; [right; congruence |].
      destruct (Hk k d' j ltac:(lia) Hd' Hj) as [?|?]; [by left | done].
    + intros j [= <-]. exists it, d. eauto using list_elem_of_lookup_2.
  - constructor; [rewrite list_lookup_insert_eq; [done | lia] |].
    assert (linked (parent s) ((u, S e) :: rest)) as Hl.
    { inversion H8; subst; by constructor. }
    by apply linked_insert.
Qed.

(** Passing over a finished dependency. *)
Lemma inv_advance s u e rest it d v :
  inv s -> stack s = (u, e) :: rest -> items !! u = Some it -> depends_on it !! e = Some d ->
  idx !! d = Some v -> color s !! v = Some 2 ->
  inv (mkDfs ((u, S e) :: rest) (color s) (parent s)).
Proof.
  intros [H1 H2 H3 H4 H5 H6 H7 H8] Hst Hu Hd Hv H0. rewrite Hst in *.
  split; cbn [stack color parent]; [exact H1|exact H2|exact H3|exact H4|exact H5|exact H6| |].
  - inversion H7 as [|? ? ? ? it' Hi He Hk Ha Hr]; subst. simplify_eq.
    apply (frames_cons _ None u (S e) _ it); [done | | | done |done].
    + apply lookup_lt_Some in Hd. lia.
    + intros k d' j Hlt' Hd' Hj. destruct (decide (k = e)) as [->|Hne]; [left; congruence |].
      apply (Hk k d' j); [lia | done..].
  - inversion H8; subst; by constructor.
Qed.

(** Leaving a node whose dependencies are all finished. *)
Lemma inv_pop s u e rest it :
  inv s -> stack s = (u, e) :: rest -> items !! u = Some it -> depends_on it !! e = None ->
  inv (mkDfs rest (<[u := 2]> (color s)) (parent s)).
Proof.
  intros [H1 H2 H3 H4 H5 H6 H7 H8] Hst Hu Hd. rewrite Hst in *.
  assert (color s !! u = Some 1) as H1u by (apply H4; by left).
  assert (u < length (color s)) as Hlt by (by eapply lookup_lt_Some).
  simpl in H5. apply NoDup_cons in H5 as [Hn Hnd].
  inversion H7 as [|? ? ? ? it' Hi He Hk Ha Hr]; subst. simplify_eq.
  assert (grounded edge u) as Hg.
  { constructor. intros b (it2 & d & Hi2 & Hdin & Hb). simplify_eq.
    apply list_elem_of_lookup in Hdin as [k Hkd].
    assert (k < e) as Hke.
    { apply lookup_ge_None in Hd. apply lookup_lt_Some in Hkd. lia. }
    destruct (Hk k d b Hke Hkd Hb) as [Hb2|?]; [by apply H6 | done]. }
  assert (forall j, color s !! j = Some 2 -> <[u := 2]> (color s) !! j = Some 2) as Hm.
  { intros j Hj. rewrite list_lookup_insert_ne; [done | congruence]. }
  split; cbn [stack color parent]; [by rewrite length_insert|exact H2| | |exact Hnd| | |].
  - intros j x. destruct (decide (j = u)) as [->|Hne].
    + rewrite list_lookup_insert_eq by done. intros [= <-]. auto.
    + rewrite list_lookup_insert_ne by done. apply H3.
  - intros j. destruct (decide (j = u)) as [->|Hne].
    + rewrite list_lookup_insert_eq by done. split; [by intros ?%Hn | done].
    + rewrite list_lookup_insert_ne, <-H4 by done. simpl. rewrite elem_of_cons. tauto.
  - intros j. destruct (decide (j = u)) as [->|Hne]; [done |].
    rewrite list_lookup_insert_ne by done. apply H6.
  - eapply frames_pop; [by eapply frames_mono |]. by apply list_lookup_insert_eq.
  - inversion H8; subst; [constructor | done].
Qed.

Lemma dfs_loop_correct fuel s :
  inv s -> stack_cost (stack s) + white_cost (color s) < fuel ->
  match dfs_loop items idx fuel s with
  | CycleFound c => is_cycle edge (rev c)
  | NoCycle col par =>
      inv (mkDfs [] col par) /\ forall j, color s !! j <> Some 0 -> col !! j <> Some 0
  | OutOfFuel => False
  end.
Proof.
  revert s. induction fuel as [|fuel IH]; intros s Hinv Hf; [lia |].
  cbn [dfs_loop]. destruct (stack s) as [|[u e] rest] eqn:Hst.
  { split; [|done]. destruct s as [st c p]. simpl in *. by subst. }
  assert (exists it, items !! u = Some it /\ e <= length (depends_on it)) as (it & Hu & He).
  { pose proof (i_frames s Hinv) as Hfr. rewrite Hst in Hfr. inversion Hfr; subst. eauto. }
  rewrite Hu. assert (color s !! u = Some 1) as H1u.
  { apply (i_gray s Hinv). rewrite Hst. by left. }
  assert (stack_cost ((u, e) :: rest) = S (length (depends_on it)) - e + stack_cost rest) as Hc.
  { unfold stack_cost, cost. simpl. by rewrite Hu. }
  rewrite Hc in Hf. destruct (depends_on it !! e) as [d|] eqn:Hd.
  - destruct (deps_known u it d Hu (list_elem_of_lookup_2 _ _ _ Hd)) as [v Hv]. rewrite Hv.
    pose proof (lookup_lt_Some _ _ _ Hd) as Hlt.
    assert (stack_cost ((u, S e) :: rest) = length (depends_on it) - e + stack_cost rest) as Hc'.
    { unfold stack_cost, cost. simpl. rewrite Hu. lia. }
    case_decide as H0; [|case_decide as H1].
    + pose proof (inv_push s u e rest it d v Hinv Hst Hu Hd Hv H0) as Hi.
      assert (stack_cost ((v, 0) :: (u, S e) :: rest) = cost v + stack_cost ((u, S e) :: rest)) as Hc2.
      { unfold stack_cost. simpl. lia. }
      pose proof (white_cost_enter _ _ H0) as Hw.
      specialize (IH _ Hi ltac:(cbn [stack color]; lia)). cbn [color] in IH.
      destruct (dfs_loop _ _ _ _); [done | |done]. destruct IH as [? IH]. split; [done |].
      intros j Hj. apply IH. intros Hz. apply Hj.
      destruct (decide (j = v)) as [->|Hne]; [done |]. by rewrite list_lookup_insert_ne in Hz.
    + eapply gray_cycle; [done | exact Hst | | done]. exists it, d.
      eauto using list_elem_of_lookup_2.
    + assert (color s !! v = Some 2) as H2.
      { destruct (proj1 (idx_spec d v) Hv) as (itv & Hiv & _).
        destruct (lookup_lt_is_Some_2 (color s) v) as [x Hx].
        { rewrite (i_len s Hinv). by eapply lookup_lt_Some. }
        destruct (i_colour s Hinv v x Hx) as [-> | [-> | -> ] ]; done. }
      pose proof (inv_advance s u e rest it d v Hinv Hst Hu Hd Hv H2) as Hi.
      exact (IH _ Hi ltac:(cbn [stack color]; lia)).
  - pose proof (inv_pop s u e rest it Hinv Hst Hu Hd) as Hi.
    pose proof (white_cost_leave _ _ H1u) as Hw.
    specialize (IH _ Hi ltac:(cbn [stack color]; lia)). cbn [color] in IH.
    destruct (dfs_loop _ _ _ _); [done | |done]. destruct IH as [? IH]. split; [done |].
    intros j Hj. apply IH. destruct (decide (j = u)) as [->|Hne].
    + rewrite list_lookup_insert_eq; [done | by eapply lookup_lt_Some].
    + by rewrite list_lookup_insert_ne.
Qed.

Lemma white_cost_bound (g : TodoItem -> nat) l (h : nat -> nat) col :
  length col = length l -> (forall i it, l !! i = Some it -> h i = g it) ->
  sum_list (imap (fun i c => if decide (c = 0) then h i else 0) col) <= sum_list (map g l).
Proof.
  revert h col. induction l as [|it l IH]; intros h col Hlen Hh; destruct col as [|c col];
    simpl in *; try lia.
  specialize (IH (h ∘ S) col ltac:(lia) (fun i => Hh (S i))). simpl in IH.
  rewrite <-(Hh 0 it eq_refl). case_decide; simpl; unfold compose in *; lia.
Qed.

Lemma fuel_enough col i :
  length col = length items -> col !! i = Some 0 ->
  stack_cost [(i, 0)] + white_cost (<[i := 1]> col) < dfs_fuel items.
Proof.
  intros Hlen Hi. pose proof (white_cost_enter col i Hi) as Hw.
  pose proof (white_cost_bound (fun it => S (length (depends_on it))) items cost col Hlen) as Hb.
  specialize (Hb ltac:(intros j it Hj; unfold cost; by rewrite Hj)).
  unfold dfs_fuel, stack_cost. simpl. unfold white_cost in *. lia.
Qed.

Lemma inv_root col par i :
  inv (mkDfs [] col par) -> i < length items -> col !! i = Some 0 ->
  inv (mkDfs [(i, 0)] (<[i := 1]> col) par).
Proof.
  intros [H1 H2 H3 H4 H5 H6 H7 H8] Hlt H0. cbn [stack color parent] in *.
  split; cbn [stack color parent].
  - by rewrite length_insert.
  - done.
  - intros j x. destruct (decide (j = i)) as [->|Hne].
    + rewrite list_lookup_insert_eq by lia. intros [= <-]. auto.
    + rewrite list_lookup_insert_ne by done. apply H3.
  - intros j. simpl. rewrite list_elem_of_singleton. destruct (decide (j = i)) as [->|Hne].
    + rewrite list_lookup_insert_eq by lia. tauto.
    + rewrite list_lookup_insert_ne, <-H4 by done. simpl.
      split; [done | intros ?%elem_of_nil; done].
  - apply NoDup_singleton.
  - intros j. destruct (decide (j = i)) as [->|Hne].
    + rewrite list_lookup_insert_eq by lia. done.
    + rewrite list_lookup_insert_ne by done. apply H6.
  - destruct (lookup_lt_is_Some_2 items i Hlt) as [it Hit].
    apply (frames_cons _ None i 0 [] it); [done | lia | intros; lia | done | constructor].
  - constructor.
Qed.

Lemma find_cycle_from_correct roots col par :
  inv (mkDfs [] col par) ->
  (forall i, i < length items -> i ∈ roots \/ col !! i <> Some 0) ->
  (forall i, i ∈ roots -> i < length items) ->
  match find_cycle_from items idx roots col par with
  | Some c => is_cycle edge c
  | None => forall i, i < length items -> grounded edge i
  end.
Proof.
  revert col par. induction roots as [|i roots IH]; intros col par Hinv Hall Hlt;
    cbn [find_cycle_from]; pose proof (i_len _ Hinv : length col = length items) as Hlen.
  - intros i Hi. destruct (Hall i Hi) as [Hn|Hn]; [by apply elem_of_nil in Hn |].
    destruct (lookup_lt_is_Some_2 col i) as [x Hx]; [by rewrite Hlen |].
    destruct (i_colour _ Hinv i x Hx) as [-> | [-> | -> ] ]; [done | |].
    + apply (i_gray _ Hinv i) in Hx. by apply elem_of_nil in Hx.
    + by apply (i_black _ Hinv i).
  - assert (forall j, j ∈ roots -> j < length items) as Hlt' by (intros j Hj; apply Hlt; by right).
    case_decide as H0.
    + pose proof (inv_root col par i Hinv (Hlt i ltac:(by left)) H0) as Hr.
      pose proof (dfs_loop_correct (dfs_fuel items) _ Hr (fuel_enough col i (i_len _ Hinv) H0)) as Hd.
      destruct (dfs_loop _ _ _ _) as [c|col' par'|]; [done | |done].
      destruct Hd as [Hi' Hg]. apply IH; [done | |done].
      intros j Hj. cbn [color] in Hg. destruct (decide (j = i)) as [->|Hne].
      * right. apply Hg. rewrite list_lookup_insert_eq; [done |].
        rewrite Hlen. by apply Hlt; left.
      * destruct (Hall j Hj) as [[->|Hin]%elem_of_cons|Hc]; [done | by left |].
        right. apply Hg. by rewrite list_lookup_insert_ne.
    + apply IH; [done | |done].
      intros j Hj. destruct (Hall j Hj) as [[->|Hin]%elem_of_cons|Hc]; auto.
Qed.

(** *** From positions to ids *)

Definition item_depends (a b : str) : Prop :=
  exists it, it ∈ items /\ id it = a /\ b ∈ depends_on it.

Lemma edge_depends u v itu itv :
  edge u v -> items !! u = Some itu -> items !! v = Some itv -> item_depends (id itu) (id itv).
Proof.
  intros (it & d & Hu & Hd & Hv) Hu' Hv'. simplify_eq.
  apply idx_spec in Hv as (it' & Hi & <-). simplify_eq.
  eexists. eauto using list_elem_of_lookup_2.
Qed.

Lemma chain_ids p :
  chain edge p -> Forall (fun i => i < length items) p ->
  chain item_depends (ids_of items p) /\ length (ids_of items p) = length p
  /\ head (ids_of items p) = (head p ≫= fun i => id <$> items !! i).
Proof.
  induction 1 as [a|a b p He Hc IH]; intros Hall; apply Forall_cons in Hall as [Ha Hall];
    destruct (lookup_lt_is_Some_2 items a Ha) as [ita Hita]; unfold ids_of in *; simpl.
  - rewrite Hita. simpl. split; [apply chain_one | done].
  - specialize (IH Hall). rewrite Hita. simpl.
    apply Forall_cons in Hall as [Hb Hall].
    destruct (lookup_lt_is_Some_2 items b Hb) as [itb Hitb]. simpl in IH |- *.
    rewrite Hitb in *. simpl in *. destruct IH as (IH1 & IH2 & _).
    split; [|split; [by rewrite IH2 | done]].
    apply chain_cons; [|done]. by eapply edge_depends.
Qed.

Lemma chain_in_range p : chain edge p -> 2 <= length p -> Forall (fun i => i < length items) p.
Proof.
  assert (forall a b, edge a b -> a < length items /\ b < length items) as Hr.
  { intros a b (it & d & Ha & _ & Hb). split; [by eapply lookup_lt_Some |].
    apply idx_spec in Hb as (it' & Hb & _). by eapply lookup_lt_Some. }
  induction 1 as [a|a b p He Hc IH]; simpl; intros Hlen; [lia |].
  destruct (Hr a b He) as [Ha Hb]. constructor; [done |].
  destruct p as [|c p]; [by constructor |]. apply IH. simpl. lia.
Qed.

Lemma last_ids p x :
  last p = Some x -> x < length items -> last (ids_of items p) = id <$> items !! x.
Proof.
  intros (q & ->)%last_Some Hx. unfold ids_of. rewrite omap_app. simpl.
  destruct (lookup_lt_is_Some_2 items x Hx) as [it ->]. simpl. by rewrite last_snoc.
Qed.

Lemma cycle_ids c : is_cycle edge c -> is_cycle item_depends (ids_of items c).
Proof.
  intros (Hc & Hlen & Heq). pose proof (chain_in_range c Hc Hlen) as Hr.
  destruct (chain_ids c Hc Hr) as (H1 & H2 & H3). split; [done |]. split; [lia |].
  destruct (last c) as [x|] eqn:Hl; [|by apply last_None in Hl; subst].
  rewrite H3, Heq. simpl. symmetry. apply last_ids; [done |].
  rewrite Forall_forall in Hr. apply Hr. apply last_Some in Hl as [q ->].
  apply elem_of_app. right. by left.
Qed.

Lemma grounded_ids u it : grounded edge u -> items !! u = Some it -> grounded item_depends (id it).
Proof.
  intros Hg. revert it. induction Hg as [u _ IH]. intros it Hit. constructor.
  intros b (it2 & Hin & Hid & Hb). apply list_elem_of_lookup in Hin as [u2 Hu2].
  assert (u2 = u) as ->.
  { assert (idx !! id it = Some u2) as E1 by (apply idx_spec; eauto).
    assert (idx !! id it = Some u) as E2 by (apply idx_spec; eauto). congruence. }
  simplify_eq. destruct (deps_known u it b Hit Hb) as [v Hv].
  pose proof Hv as Hv'. apply idx_spec in Hv' as (itv & Hitv & <-).
  apply (IH v); [|done]. exists it, (id itv). eauto.
Qed.

Lemma inv_initial :
  inv (mkDfs [] (replicate (length items) 0) (replicate (length items) (-1)%Z)).
Proof.
  split; cbn [stack color parent]; [by rewrite length_replicate | by rewrite length_replicate | |
    | constructor | | constructor | constructor].
  - intros j x [-> _]%lookup_replicate. auto.
  - intros j. split; [by intros ?%elem_of_nil | by intros [? _]%lookup_replicate].
  - by intros j [? _]%lookup_replicate.
Qed.

Lemma todo_cycle_correct :
  match find_cycle_from items idx (seq 0 (length items)) (replicate (length items) 0)
          (replicate (length items) (-1)%Z) with
  | Some c => is_cycle item_depends (ids_of items c)
  | None => acyclic item_depends
  end.
Proof.
  pose proof (find_cycle_from_correct (seq 0 (length items)) _ _ inv_initial) as Hf.
  specialize (Hf ltac:(intros i Hi; left; apply elem_of_seq; lia)
                 ltac:(intros i Hi%elem_of_seq; lia)).
  destruct (find_cycle_from _ _ _ _ _) as [c|]; [by apply cycle_ids |].
  apply grounded_all_acyclic. intros a b (it & Hit & <- & _).
  apply list_elem_of_lookup in Hit as [u Hu]. eapply grounded_ids; [|done]. apply Hf.
  by eapply lookup_lt_Some.
Qed.
End DfsCorrect.

(** ** Validation and the tools *)

Section ValidateCorrect.
Context `{UnicodePrint}.
Implicit Types (items : list TodoItem) (ids : gmap str nat).

(** The lists the documentation promises to accept. *)
Record valid_todos items : Prop := {
  v_filled : Forall (fun it => trim (id it) <> [] /\ trim (content it) <> []) items;
  v_distinct : NoDup (map id items);
  v_deps : forall it d, it ∈ items -> d ∈ depends_on it -> d <> id it /\ d ∈ map id items;
  v_acyclic : acyclic (item_depends items);
  v_progress : forall it d it', it ∈ items -> status it = InProgress -> d ∈ depends_on it ->
    it' ∈ items -> id it' = d -> status it' = Completed
}.

Definition filled (it : TodoItem) : Prop := trim (id it) <> [] /\ trim (content it) <> [].

Lemma check_shape_spec i l ids :
  (forall ids', check_shape i l ids = Ok ids' ->
     Forall filled l /\ NoDup (map id l) /\ (forall it, it ∈ l -> ids !! id it = None)
     /\ forall x, ids' !! x = match list_find (fun it => id it = x) l with
                             | Some (k, _) => Some (i + k)
                             | None => ids !! x
                             end)
  /\ (Forall filled l -> NoDup (map id l) -> (forall it, it ∈ l -> ids !! id it = None) ->
      is_ok (check_shape i l ids) = true).
Proof.
  revert i ids. induction l as [|it l IH]; intros i ids; simpl.
  { split; [|done]. intros ids' [= <-]. split; [constructor |]. split; [constructor |].
    split; [|done]. intros it Hit. by apply elem_of_nil in Hit. }
  destruct (IH (S i) (<[id it := i]> ids)) as [IH1 IH2]. split.
  - intros ids'. case_decide as Hid; [done |]. case_decide as Hc; [done |].
    destruct (ids !! id it) eqn:E; [done |]. intros Hok.
    destruct (IH1 ids' Hok) as (Hf & Hnd & Hnew & Hl).
    assert (id it ∉ map id l) as Hn.
    { intros (it' & He & Hin)%list_elem_of_fmap. specialize (Hnew it' Hin).
      by rewrite <-He, lookup_insert_eq in Hnew. }
    split; [by constructor |]. split; [by apply NoDup_cons |]. split.
    + intros it' [->|Hin]%elem_of_cons; [done |]. specialize (Hnew it' Hin).
      by apply lookup_insert_None in Hnew as [? _].
    + intros x. rewrite Hl. case_decide as Hx.
      * subst x. rewrite (proj2 (list_find_None _ _)), lookup_insert_eq; [f_equal; lia |].
        apply Forall_forall. intros it' Hin He. apply Hn. rewrite <-He.
        by apply list_elem_of_fmap_2.
      * destruct (list_find _ l) as [[k t]|]; simpl; [f_equal; lia | by apply lookup_insert_ne].
  - intros [[Hid Hc] Hf]%Forall_cons [Hn Hnd]%NoDup_cons Hnew.
    rewrite decide_False, decide_False, (Hnew it) by (done || by left).
    apply IH2; [done | done |]. intros it' Hin. rewrite lookup_insert_ne.
    + apply Hnew. by right.
    + intros He. apply Hn. rewrite He. by apply list_elem_of_fmap_2.
Qed.

Lemma index_of_ids items ids :
  NoDup (map id items) ->
  (forall x, ids !! x = match list_find (fun it => id it = x) items with
                       | Some (k, _) => Some (0 + k)
                       | None => (∅ : gmap str nat) !! x
                       end) ->
  forall x i, ids !! x = Some i <-> exists it, items !! i = Some it /\ id it = x.
Proof.
  intros Hnd Hl x i. rewrite Hl. split.
  - destruct (list_find _ items) as [[k t]|] eqn:E; [|by rewrite lookup_empty].
    intros [= <-]. apply list_find_Some in E as (? & ? & _). eauto.
  - intros (it & Hi & Hx). destruct (list_find _ items) as [[k t]|] eqn:E.
    + apply list_find_Some in E as (Hk & Ht & _). f_equal. simpl.
      eapply (NoDup_lookup (map id items) k i x Hnd);
        rewrite list_lookup_fmap; [rewrite Hk | rewrite Hi]; simpl; congruence.
    + apply list_find_None in E. eapply Forall_lookup_1 in E; [|done]. done.
Qed.

Lemma check_deps_spec ids it deps :
  check_deps ids it deps = Ok tt <-> forall d, d ∈ deps -> d <> id it /\ is_Some (ids !! d).
Proof.
  induction deps as [|d deps IH]; simpl.
  - split; [intros _ d Hd; by apply elem_of_nil in Hd | done].
  - destruct (str_eqb d (id it)) eqn:E.
    + apply str_eqb_eq in E. split; [done |]. intros Ha. by destruct (Ha d ltac:(by left)).
    + apply str_eqb_neq in E. destruct (ids !! d) eqn:Ed.
      * rewrite IH. split; [|intros Ha x Hx; apply Ha; by right].
        intros Ha x [->|Hx]%elem_of_cons; [|auto]. by rewrite Ed.
      * split; [done |]. intros Ha. destruct (Ha d ltac:(by left)) as [_ [? ?]]. congruence.
Qed.

Lemma check_all_deps_spec ids l :
  check_all_deps ids l = Ok tt
  <-> forall it d, it ∈ l -> d ∈ depends_on it -> d <> id it /\ is_Some (ids !! d).
Proof.
  induction l as [|it l IH]; simpl.
  - split; [intros _ it d Hit; by apply elem_of_nil in Hit | done].
  - rewrite result_bind_Ok. split.
    + intros ([] & H1 & H2) it' d [->|Hin]%elem_of_cons Hd.
      * by apply (proj1 (check_deps_spec _ _ _) H1).
      * by apply (proj1 IH H2 it').
    + intros Ha. exists tt. split.
      * apply check_deps_spec. intros d Hd. apply Ha; [by left | done].
      * apply IH. intros it' d Hin Hd. apply Ha; [by right | done].
Qed.

Lemma blockers_nil items ids it :
  (forall x i, ids !! x = Some i <-> exists it, items !! i = Some it /\ id it = x) ->
  (forall d, d ∈ depends_on it -> is_Some (ids !! d)) ->
  blockers items ids it = []
  <-> forall d it', d ∈ depends_on it -> it' ∈ items -> id it' = d -> status it' = Completed.
Proof.
  intros Hidx Hk. unfold blockers.
  assert (forall d, d ∈ depends_on it -> unfinished items ids d = false
            <-> forall it', it' ∈ items -> id it' = d -> status it' = Completed) as Hu.
  { intros d Hd. destruct (Hk d Hd) as [i Hi]. unfold unfinished. rewrite Hi. simpl.
    destruct (proj1 (Hidx d i) Hi) as (t & Ht & Htd). rewrite Ht.
    rewrite negb_false_iff, bool_decide_eq_true. split.
    - intros Hs it' Hin He. apply list_elem_of_lookup in Hin as [j Hj].
      assert (ids !! d = Some j) as Hj' by (apply Hidx; eauto). congruence.
    - intros Ha. apply (Ha t); [by eapply list_elem_of_lookup_2 | done]. }
  split.
  - intros Hb d it' Hd. apply Hu; [done |].
    destruct (unfinished items ids d) eqn:E; [|done].
    assert (d ∈ List.filter (unfinished items ids) (depends_on it)) as Hin.
    { apply list_elem_of_In, filter_In. split; [by apply list_elem_of_In | done]. }
    rewrite Hb in Hin. by apply elem_of_nil in Hin.
  - intros Ha. destruct (List.filter _ _) as [|d ds] eqn:E; [done |].
    assert (d ∈ List.filter (unfinished items ids) (depends_on it)) as Hin by (rewrite E; by left).
    apply list_elem_of_In, filter_In in Hin as [Hd%list_elem_of_In Hf].
    rewrite (proj2 (Hu d Hd)) in Hf; [done |]. intros it'. by apply Ha.
Qed.

Lemma check_progress_spec items ids l :
  (forall x i, ids !! x = Some i <-> exists it, items !! i = Some it /\ id it = x) ->
  (forall it d, it ∈ l -> d ∈ depends_on it -> is_Some (ids !! d)) ->
  check_progress items ids l = Ok tt
  <-> forall it d it', it ∈ l -> status it = InProgress -> d ∈ depends_on it ->
        it' ∈ items -> id it' = d -> status it' = Completed.
Proof.
  intros Hidx. induction l as [|it l IH]; intros Hk; simpl.
  - split; [intros _ it d it' Hit; by apply elem_of_nil in Hit | done].
  - specialize (IH ltac:(intros x d Hx; apply Hk; by right)).
    pose proof (blockers_nil items ids it Hidx (fun d => Hk it d ltac:(by left))) as Hb.
    case_decide as Hs.
    + destruct (blockers items ids it) as [|b bs].
      * rewrite IH. split.
        -- intros Ha x d it' [->|Hx]%elem_of_cons; [|by apply Ha]. intros _. by apply Hb.
        -- intros Ha x d it' Hx. apply Ha. by right.
      * split; [done |]. intros Ha. exfalso. assert (b :: bs = []) as Hn; [|done].
        apply Hb. intros d it' Hd. by apply (Ha it d it' ltac:(by left) Hs).
    + rewrite IH. split.
      * intros Ha x d it' [->|Hx]%elem_of_cons; [done | by apply Ha].
      * intros Ha x d it' Hx. apply Ha. by right.
Qed.

(** [validate_todo_list] accepts exactly the well-formed lists: ids and
    contents that are not blank, distinct ids, known dependencies other than the item
    itself, no dependency cycle, and no item in progress before its dependencies are
    completed. *)
Lemma validate_todo_list_spec items :
  validate_todo_list items = Ok tt <-> valid_todos items.
Proof.
  unfold validate_todo_list. rewrite result_bind_Ok.
  pose proof (check_shape_spec 0 items ∅) as [Hshape1 Hshape2]. split.
  - intros (ids & (Hf & Hnd & _ & Hl)%Hshape1 & H1).
    apply result_bind_Ok in H1 as ([] & Hdeps & H1). rewrite check_all_deps_spec in Hdeps.
    pose proof (index_of_ids items ids Hnd Hl) as Hidx.
    assert (forall u it d, items !! u = Some it -> d ∈ depends_on it -> is_Some (ids !! d)) as Hk.
    { intros u it d Hu Hd. apply (Hdeps it d); eauto using list_elem_of_lookup_2. }
    pose proof (todo_cycle_correct items ids Hidx Hk) as Hc. unfold find_cycle in H1.
    destruct (find_cycle_from _ _ _ _ _); [done |]. simpl in H1.
    rewrite check_progress_spec in H1; [|done|intros it d Hin Hd; by apply (Hdeps it d)].
    split; [done | done | | done | done].
    intros it d Hin Hd. destruct (Hdeps it d Hin Hd) as [Hne [i Hi]]. split; [done |].
    apply Hidx in Hi as (t & Ht & <-). apply list_elem_of_fmap_2. by eapply list_elem_of_lookup_2.
  - intros [Hf Hnd Hdeps Hac Hp].
    specialize (Hshape2 Hf Hnd ltac:(intros; apply lookup_empty)).
    destruct (check_shape 0 items ∅) as [ids|e] eqn:Es; [|done].
    destruct (Hshape1 ids eq_refl) as (_ & _ & _ & Hl).
    pose proof (index_of_ids items ids Hnd Hl) as Hidx. exists ids. split; [done |].
    assert (forall it d, it ∈ items -> d ∈ depends_on it -> d <> id it /\ is_Some (ids !! d)) as Hk.
    { intros it d Hin Hd. destruct (Hdeps it d Hin Hd) as [Hne Hm]. split; [done |].
      apply list_elem_of_fmap in Hm as (t & -> & Ht). apply list_elem_of_lookup in Ht as [i Hi].
      exists i. apply Hidx. eauto. }
    apply result_bind_Ok. exists tt. split; [by apply check_all_deps_spec |].
    pose proof (todo_cycle_correct items ids Hidx) as Hc. unfold find_cycle.
    specialize (Hc ltac:(intros u it d Hu Hd; apply (Hk it d); eauto using list_elem_of_lookup_2)).
    destruct (find_cycle_from _ _ _ _ _) as [c|]; simpl.
    + apply is_cycle_tc in Hc as [a Ha]. by destruct (Hac a).
    + rewrite check_progress_spec; [done | done | intros it d Hin Hd; by apply (Hk it d)].
Qed.

(** Replace semantics: an accepted write makes the sent items the list, which
    is then well-formed, and the following read renders exactly those items; a
    rejected write changes nothing. *)
Lemma todo_write_read json_parse st args :
  let '(r, st') := todo_write json_parse st args in
  (is_ok r = true ->
     parse_todos json_parse args = Ok st' /\ valid_todos st'
     /\ r = Ok (lit "TODO list updated." ++ [10%N] ++ format_todo_list st')
     /\ todo_read st' = Ok (format_todo_list st'))
  /\ (is_ok r = false -> st' = st).
Proof.
  unfold todo_write. destruct (parse_todos json_parse args) as [items|e]; [|done].
  destruct (validate_todo_list items) as [[]|e] eqn:E; [|done].
  split; [|done]. intros _. split; [done |]. split; [|done]. by apply validate_todo_list_spec.
Qed.
End ValidateCorrect.
