(* ===== verification/Undo.v ===== *)
(** * The undo stack

    Models [src/src/session/undo.rs] with [UndoKind] of [src/src/shared/undo.rs] and
    [atomic_write] of [src/src/tools/atomic_write.rs].  The file system is a finite
    map from paths to contents; [Io] says which operations succeed.  The metadata
    sidecars go through serde, a pair of functions with their round trip.  The
    theorems: undoing every edit of a session restores the files, the stack stays
    within its caps with its snapshots on disk, a failed push keeps the stack, and a
    stack is recovered when the session is opened again. *)

From S2P Require Import Prelude Machine.

Abbreviation bytes := (list N).
Abbreviation files := (gmap str bytes).

Inductive UndoKind := Edit | Write.

Definition UndoKind_as_str (k : UndoKind) : str :=
  match k with Edit => "edit" | Write => "write" end.

Definition MAX_ENTRIES : nat := 50.
Definition MAX_TOTAL_SNAPSHOT_BYTES : N := 50 * 1024 * 1024.

Record UndoOp := mkOp {
  seq : N;
  kind : UndoKind;
  path : str;
  prev_existed : bool;
  snapshot_size : N;
  timestamp : Z
}.

(** The sidecar has the fields of the operation. *)
Definition SerializedMeta := UndoOp.

Record UndoSummary := mkSum {
  sum_seq : N;
  sum_kind : UndoKind;
  sum_path : str;
  sum_snapshot_size : N;
  sum_timestamp : Z
}.

Definition UndoSummary_from (op : UndoOp) : UndoSummary :=
  mkSum (seq op) (kind op) (path op) (snapshot_size op) (timestamp op).

Record UndoStack := mkStack {
  dir : str;
  ops : list UndoOp;
  next_seq : N;
  total_snapshot_bytes : N
}.

Record RestoredOp := mkRestored {
  res_path : str;
  res_kind : UndoKind;
  res_prev_existed : bool
}.

(** Which operations of the file system succeed; a plain write that fails may leave
    any content behind. *)
Record Io := mkIo {
  write_ok : str -> bool;
  partial_write : str -> bytes;
  read_ok : str -> bool;
  remove_ok : str -> bool
}.

(** serde_json on the sidecars. *)
Class MetaJson := {
  meta_to_json : SerializedMeta -> bytes;
  meta_from_json : bytes -> option SerializedMeta;
  meta_roundtrip : forall m, meta_from_json (meta_to_json m) = Some m
}.

(** ** Files *)

(** A temporary file in the same directory is written and renamed: all or nothing. *)
Definition atomic_write (io : Io) (p : str) (b : bytes) (fs : files) : bool * files :=
  if write_ok io p then (true, <[p := b]> fs) else (false, fs).

(** [std::fs::write]. *)
Definition plain_write (io : Io) (p : str) (b : bytes) (fs : files) : bool * files :=
  if write_ok io p then (true, <[p := b]> fs) else (false, <[p := partial_write io p]> fs).

(** [std::fs::remove_file]; the caller ignores or reports a failure. *)
Definition remove_file (io : Io) (p : str) (fs : files) : bool * files :=
  match fs !! p with
  | Some _ => if remove_ok io p then (true, delete p fs) else (false, fs)
  | None => (false, fs)
  end.

Definition read_file (io : Io) (p : str) (fs : files) : option bytes :=
  if read_ok io p then fs !! p else None.

Definition snapshot_path (d : str) (n : N) : str :=
  d ++ lit "/" ++ zero_pad 8 (show_N n) ++ lit ".snap".
Definition meta_path (d : str) (n : N) : str :=
  d ++ lit "/" ++ zero_pad 8 (show_N n) ++ lit ".meta.json".

Section Undo.
Context `{MetaJson}.
Variable io : Io.

Definition remove_snapshot (d : str) (n : N) (fs : files) : files :=
  snd (remove_file io (meta_path d n) (snd (remove_file io (snapshot_path d n) fs))).

(** ** Opening *)

(** The name of an entry directly below [d]. *)
Definition strip_dir (d p : str) : option str :=
  if starts_with p (d ++ lit "/")
  then let name := drop (length (d ++ lit "/")) p in
       if contains name "/" then None else Some name
  else None.

(** What [for_session] makes of one directory entry. *)
Definition load_entry (d : str) (e : str * bytes) : option UndoOp :=
  strip_dir d (fst e) ≫= fun fname =>
  strip_suffix fname ".meta.json" ≫= fun seq_str =>
  parse_u64 seq_str ≫= fun _ =>
  if read_ok io (fst e) then meta_from_json (snd e) else None.

(** [ops_vec.sort_by_key(|op| op.seq)]. *)
Definition sort_by_seq (l : list UndoOp) : list UndoOp := sort_by seq l.

Definition sum_sizes (l : list UndoOp) : N := foldr (fun op n => snapshot_size op + n)%N 0%N l.
Definition max_seq (l : list UndoOp) : N := foldr (fun op n => N.max (seq op) n) 0%N l.

(** [for_session] on the directory [d]; the entries come in the order of the map,
    which stands for the order of [read_dir]. *)
Definition for_session (d : str) (fs : files) : UndoStack :=
  let loaded := omap (load_entry d) (map_to_list fs) in
  let sorted := sort_by_seq loaded in
  mkStack d sorted (max_seq loaded + 1) (sum_sizes sorted).

(** ** Pushing *)

(** [pop_front] with the removal of the snapshot. *)
Definition evict (st : UndoStack) (fs : files) : UndoStack * files :=
  match ops st with
  | [] => (st, fs)
  | oldest :: rest =>
      (mkStack (dir st) rest (next_seq st) (total_snapshot_bytes st - snapshot_size oldest),
       remove_snapshot (dir st) (seq oldest) fs)
  end.

(** [while self.ops.len() > MAX_ENTRIES]; the fuel is the number of entries. *)
Fixpoint trim_entries (fuel : nat) (st : UndoStack) (fs : files) : UndoStack * files :=
  match fuel with
  | O => (st, fs)
  | S fuel' =>
      if MAX_ENTRIES <? length (ops st)
      then let '(st', fs') := evict st fs in trim_entries fuel' st' fs'
      else (st, fs)
  end.

(** [while !self.ops.is_empty() && self.total_snapshot_bytes > MAX]. *)
Fixpoint trim_bytes (fuel : nat) (st : UndoStack) (fs : files) : UndoStack * files :=
  match fuel with
  | O => (st, fs)
  | S fuel' =>
      if negb (bool_decide (ops st = [])) && (MAX_TOTAL_SNAPSHOT_BYTES <? total_snapshot_bytes st)%N
      then let '(st', fs') := evict st fs in trim_bytes fuel' st' fs'
      else (st, fs)
  end.

Definition fifo_trim (st : UndoStack) (fs : files) : UndoStack * files :=
  let '(st1, fs1) := trim_entries (length (ops st)) st fs in
  trim_bytes (length (ops st1)) st1 fs1.

(** [push]: the assigned number, or [None] when a write failed. *)
Definition push (now : Z) (k : UndoKind) (p : str) (existed : bool) (prev : bytes)
    (st : UndoStack) (fs : files) : option N * UndoStack * files :=
  let new_bytes := N.of_nat (length prev) in
  let n := next_seq st in
  let st0 := mkStack (dir st) (ops st) (n + 1) (total_snapshot_bytes st) in
  let '(ok1, fs1) := atomic_write io (snapshot_path (dir st) n) prev fs in
  if negb ok1 then (None, st0, fs1) else
  let op := mkOp n k p existed new_bytes now in
  let '(ok2, fs2) := plain_write io (meta_path (dir st) n) (meta_to_json op) fs1 in
  if negb ok2 then (None, st0, fs2) else
  let '(st2, fs3) :=
    fifo_trim (mkStack (dir st) (ops st ++ [op]) (n + 1) (total_snapshot_bytes st + new_bytes)) fs2 in
  (Some n, st2, fs3).

(** ** Popping *)

Inductive PopResult :=
| Empty
| Restored (r : RestoredOp)
| RestoreFailed.

Definition pop (st : UndoStack) (fs : files) : PopResult * UndoStack * files :=
  match last (ops st) with
  | None => (Empty, st, fs)
  | Some op =>
      let st' := mkStack (dir st) (removelast (ops st)) (next_seq st)
                   (total_snapshot_bytes st - snapshot_size op) in
      let restored := Restored (mkRestored (path op) (kind op) (prev_existed op)) in
      if prev_existed op then
        match read_file io (snapshot_path (dir st) (seq op)) fs with
        | None => (RestoreFailed, st', fs)
        | Some b =>
            let '(ok, fs1) := atomic_write io (path op) b fs in
            if ok then (restored, st', remove_snapshot (dir st) (seq op) fs1)
            else (RestoreFailed, st', fs1)
        end
      else
        match fs !! path op with
        | Some _ =>
            let '(ok, fs1) := remove_file io (path op) fs in
            if ok then (restored, st', remove_snapshot (dir st) (seq op) fs1)
            else (RestoreFailed, st', fs1)
        | None => (restored, st', remove_snapshot (dir st) (seq op) fs)
        end
  end.

(** ** The other operations *)

Definition list_ops (st : UndoStack) : list UndoSummary := map UndoSummary_from (ops st).
Definition is_empty (st : UndoStack) : bool := bool_decide (ops st = []).
Definition len (st : UndoStack) : nat := length (ops st).

Definition clear (st : UndoStack) (fs : files) : nat * UndoStack * files :=
  (length (ops st), mkStack (dir st) [] (next_seq st) 0,
   foldl (fun fs op => remove_snapshot (dir st) (seq op) fs) fs (ops st)).
End Undo.

(** ** Invariant *)

(** [p] is not a file of the undo directory [d]. *)
Definition outside (d p : str) : Prop :=
  forall n, p <> snapshot_path d n /\ p <> meta_path d n.

Lemma pad_inj n m rest :
  (n < 2 ^ 64)%N -> (m < 2 ^ 64)%N ->
  zero_pad 8 (show_N n) ++ rest = zero_pad 8 (show_N m) ++ rest -> n = m.
Proof.
  intros Hn Hm He%app_inv_tail. apply (f_equal parse_u64) in He.
  rewrite !parse_zero_pad in He by done. congruence.
Qed.

Lemma snapshot_path_inj d n m :
  (n < 2 ^ 64)%N -> (m < 2 ^ 64)%N -> snapshot_path d n = snapshot_path d m -> n = m.
Proof.
  unfold snapshot_path. intros Hn Hm He. do 2 apply app_inv_head in He. by eapply pad_inj.
Qed.

Lemma meta_path_inj d n m :
  (n < 2 ^ 64)%N -> (m < 2 ^ 64)%N -> meta_path d n = meta_path d m -> n = m.
Proof.
  unfold meta_path. intros Hn Hm He. do 2 apply app_inv_head in He. by eapply pad_inj.
Qed.

Lemma snapshot_meta_ne d n m : snapshot_path d n <> meta_path d m.
Proof.
  unfold snapshot_path, meta_path. intros He. do 2 apply app_inv_head in He.
  apply (f_equal (@rev N)) in He. rewrite !rev_app_distr in He. by injection He.
Qed.

Lemma remove_file_other io p q fs : q <> p -> snd (remove_file io p fs) !! q = fs !! q.
Proof.
  intros Hne. unfold remove_file. destruct (fs !! p); [|done].
  destruct (remove_ok io p); [|done]. by apply lookup_delete_ne.
Qed.

Lemma remove_snapshot_other io d n q fs :
  q <> snapshot_path d n -> q <> meta_path d n -> remove_snapshot io d n fs !! q = fs !! q.
Proof. intros H1 H2. unfold remove_snapshot. by rewrite !remove_file_other. Qed.

Section Invariant.
Context `{MetaJson}.

(** The snapshot and the sidecar of an operation are on disk. *)
Definition on_disk (d : str) (fs : files) (op : UndoOp) : Prop :=
  (exists b, fs !! snapshot_path d (seq op) = Some b
             /\ snapshot_size op = N.of_nat (length b))
  /\ fs !! meta_path d (seq op) = Some (meta_to_json op).

Record stack_wf (st : UndoStack) (fs : files) : Prop := {
  wf_total : total_snapshot_bytes st = sum_sizes (ops st);
  wf_seq : forall op, op ∈ ops st -> (seq op < next_seq st)%N;
  wf_sorted : StronglySorted N.lt (map seq (ops st));
  wf_disk : forall op, op ∈ ops st -> on_disk (dir st) fs op;
  wf_outside : forall op, op ∈ ops st -> outside (dir st) (path op)
}.

Lemma sum_sizes_app a b : sum_sizes (a ++ b) = (sum_sizes a + sum_sizes b)%N.
Proof. induction a as [|op a IH]; simpl; [done |]. rewrite IH. lia. Qed.

Lemma on_disk_frame d fs fs' op :
  fs' !! snapshot_path d (seq op) = fs !! snapshot_path d (seq op) ->
  fs' !! meta_path d (seq op) = fs !! meta_path d (seq op) ->
  on_disk d fs op -> on_disk d fs' op.
Proof. unfold on_disk. by intros -> ->. Qed.

Lemma on_disk_remove io d fs n op :
  (n < 2 ^ 64)%N -> (seq op < 2 ^ 64)%N -> seq op <> n ->
  on_disk d fs op -> on_disk d (remove_snapshot io d n fs) op.
Proof.
  intros Hn Hs Hne. apply on_disk_frame; apply remove_snapshot_other.
  - intros He%snapshot_path_inj; done.
  - apply snapshot_meta_ne.
  - intros He. by eapply snapshot_meta_ne.
  - intros He%meta_path_inj; done.
Qed.

Lemma evict_wf io st fs :
  stack_wf st fs -> (next_seq st < 2 ^ 64)%N ->
  let '(st', fs') := evict io st fs in
  stack_wf st' fs' /\ ops st' = tail (ops st) /\ dir st' = dir st /\ next_seq st' = next_seq st
  /\ forall q, outside (dir st) q -> fs' !! q = fs !! q.
Proof.
  intros [H1 H2 H3 H4 H5] Hb. unfold evict. destruct (ops st) as [|o rest] eqn:E.
  { split; [by constructor; rewrite ?E |]. by rewrite E. }
  simpl in *. inversion H3 as [|? ? Hs Hall]; subst.
  split; [split; cbn [total_snapshot_bytes ops dir next_seq] | repeat split].
  - rewrite H1. lia.
  - intros op Hop. apply H2. by right.
  - done.
  - intros op Hop. assert (seq o < seq op)%N as Hlt.
    { rewrite Forall_forall in Hall. apply Hall. by apply list_elem_of_fmap_2. }
    pose proof (H2 op ltac:(by right)). pose proof (H2 o ltac:(by left)).
    apply on_disk_remove; [lia | lia | lia |]. apply H4. by right.
  - intros op Hop. apply H5. by right.
  - intros q Hq. apply remove_snapshot_other; apply Hq.
Qed.

(** A trimmed stack: a suffix of the entries, still well formed. *)
Definition trimmed (st : UndoStack) (fs : files) (r : UndoStack * files) : Prop :=
  stack_wf (fst r) (snd r) /\ ops (fst r) `suffix_of` ops st /\ dir (fst r) = dir st
  /\ next_seq (fst r) = next_seq st /\ forall q, outside (dir st) q -> snd r !! q = fs !! q.

Lemma trimmed_refl st fs : stack_wf st fs -> trimmed st fs (st, fs).
Proof. intros Hw. unfold trimmed. by split_and!. Qed.

Lemma trimmed_evict io st fs r :
  stack_wf st fs -> (next_seq st < 2 ^ 64)%N ->
  (let '(st', fs') := evict io st fs in stack_wf st' fs' -> (next_seq st' < 2 ^ 64)%N ->
     trimmed st' fs' r) -> trimmed st fs r.
Proof.
  intros Hw Hb. pose proof (evict_wf io st fs Hw Hb) as He. destruct (evict io st fs) as [st' fs'].
  destruct He as (Hw' & Ho & Hd & Hn & Hf). intros Ht.
  destruct (Ht Hw' ltac:(by rewrite Hn)) as (T1 & T2 & T3 & T4 & T5).
  split; [done |]. split; [|split; [congruence |split; [congruence |]]].
  - etrans; [done |]. rewrite Ho. destruct (ops st); [done |]. by apply suffix_cons_r.
  - intros q Hq. rewrite T5 by (by rewrite Hd). by apply Hf.
Qed.

Lemma trim_entries_spec io fuel st fs :
  stack_wf st fs -> (next_seq st < 2 ^ 64)%N -> length (ops st) <= fuel ->
  trimmed st fs (trim_entries io fuel st fs)
  /\ length (ops (fst (trim_entries io fuel st fs))) <= MAX_ENTRIES
  /\ (length (ops st) <= MAX_ENTRIES -> trim_entries io fuel st fs = (st, fs)).
Proof.
  revert st fs. induction fuel as [|fuel IH]; intros st fs Hw Hb Hf; cbn [trim_entries].
  - split; [by apply trimmed_refl |]. split; [simpl; lia | done].
  - destruct (MAX_ENTRIES <? length (ops st)) eqn:E.
    + apply Nat.ltb_lt in E. pose proof (evict_wf io st fs Hw Hb) as He.
      pose proof (trimmed_evict io st fs) as Ht.
      destruct (evict io st fs) as [st' fs']. destruct He as (Hw' & Ho & Hd & Hn & Hfr).
      destruct (IH st' fs' Hw' ltac:(by rewrite Hn)) as (T1 & T2 & _).
      { rewrite Ho. destruct (ops st); simpl in *; lia. }
      split; [by apply Ht |]. split; [done | lia].
    + apply Nat.ltb_ge in E. split; [by apply trimmed_refl | done].
Qed.

Lemma trim_bytes_spec io fuel st fs :
  stack_wf st fs -> (next_seq st < 2 ^ 64)%N -> length (ops st) <= fuel ->
  trimmed st fs (trim_bytes io fuel st fs)
  /\ (total_snapshot_bytes (fst (trim_bytes io fuel st fs)) <= MAX_TOTAL_SNAPSHOT_BYTES)%N
  /\ ((total_snapshot_bytes st <= MAX_TOTAL_SNAPSHOT_BYTES)%N -> trim_bytes io fuel st fs = (st, fs)).
Proof.
  revert st fs. induction fuel as [|fuel IH]; intros st fs Hw Hb Hf; cbn [trim_bytes].
  - split; [by apply trimmed_refl |]. split; [|done]. simpl. rewrite (wf_total _ _ Hw).
    destruct (ops st); simpl in *; [unfold MAX_TOTAL_SNAPSHOT_BYTES; lia | lia].
  - destruct (_ && _) eqn:E.
    + apply andb_true_iff in E as [E1 E2]. to_prop. apply N.ltb_lt in E2.
      pose proof (evict_wf io st fs Hw Hb) as He. pose proof (trimmed_evict io st fs) as Ht.
      destruct (evict io st fs) as [st' fs']. destruct He as (Hw' & Ho & Hd & Hn & Hfr).
      destruct (IH st' fs' Hw' ltac:(by rewrite Hn)) as (T1 & T2 & _).
      { rewrite Ho. destruct (ops st); simpl in *; lia. }
      split; [by apply Ht |]. split; [done | lia].
    + split; [by apply trimmed_refl |]. split; [|done]. cbn [fst].
      apply andb_false_iff in E as [E|E].
      * to_prop. rewrite (wf_total _ _ Hw), E. unfold MAX_TOTAL_SNAPSHOT_BYTES. simpl. lia.
      * by apply N.ltb_ge in E.
Qed.

Lemma trimmed_trans st fs r1 r2 :
  trimmed st fs r1 -> trimmed (fst r1) (snd r1) r2 -> trimmed st fs r2.
Proof.
  intros (A1 & A2 & A3 & A4 & A5) (B1 & B2 & B3 & B4 & B5). unfold trimmed. split_and!.
  - done.
  - by etrans.
  - congruence.
  - congruence.
  - intros q Hq. rewrite B5 by (by rewrite A3). by apply A5.
Qed.

Lemma fifo_trim_spec io st fs :
  stack_wf st fs -> (next_seq st < 2 ^ 64)%N ->
  trimmed st fs (fifo_trim io st fs)
  /\ length (ops (fst (fifo_trim io st fs))) <= MAX_ENTRIES
  /\ (total_snapshot_bytes (fst (fifo_trim io st fs)) <= MAX_TOTAL_SNAPSHOT_BYTES)%N
  /\ (length (ops st) <= MAX_ENTRIES ->
      (total_snapshot_bytes st <= MAX_TOTAL_SNAPSHOT_BYTES)%N -> fifo_trim io st fs = (st, fs)).
Proof.
  intros Hw Hb. unfold fifo_trim.
  destruct (trim_entries_spec io (length (ops st)) st fs Hw Hb) as (T1 & T2 & T3); [done |].
  destruct (trim_entries io (length (ops st)) st fs) as [st1 fs1]. cbn [fst snd] in *.
  pose proof T1 as (W1 & S1 & D1 & N1 & F1). cbn [fst snd] in *.
  destruct (trim_bytes_spec io (length (ops st1)) st1 fs1) as (B1 & B2 & B3);
    [done | by rewrite N1 | done |].
  split; [by eapply trimmed_trans; [exact T1 |] |]. split.
  - destruct B1 as (_ & HS & _). apply suffix_length in HS. simpl in HS. lia.
  - split; [done |]. intros Hl Ht. specialize (T3 Hl). injection T3 as -> ->. by apply B3.
Qed.

(** What a push leaves when both files were written. *)
Lemma pushed_wf st fs op prev :
  stack_wf st fs -> (next_seq st < 2 ^ 64)%N -> seq op = next_seq st ->
  outside (dir st) (path op) -> snapshot_size op = N.of_nat (length prev) ->
  stack_wf (mkStack (dir st) (ops st ++ [op]) (next_seq st + 1)
              (total_snapshot_bytes st + snapshot_size op))
    (<[meta_path (dir st) (next_seq st) := meta_to_json op]>
       (<[snapshot_path (dir st) (next_seq st) := prev]> fs)).
Proof.
  intros [H1 H2 H3 H4 H5] Hb Hs Hp Hsz. split; cbn [total_snapshot_bytes ops dir next_seq].
  - rewrite sum_sizes_app, H1. simpl. lia.
  - intros o [Ho| ->%list_elem_of_singleton]%elem_of_app; [pose proof (H2 o Ho) |]; lia.
  - rewrite map_app. simpl. clear -H2 H3 Hs. induction (ops st) as [|o l IH]; simpl.
    + by repeat constructor.
    + simpl in H3. inversion H3 as [|? ? Hsl Hall]; subst. constructor.
      * apply IH; [|done]. intros o' Ho'. apply H2. by right.
      * apply Forall_app. split; [done |]. repeat constructor. rewrite Hs. apply H2. by left.
  - intros o [Ho| ->%list_elem_of_singleton]%elem_of_app.
    + pose proof (H2 o Ho) as Hlt. eapply on_disk_frame; [| |by apply H4].
      * rewrite lookup_insert_ne by (intros He; by eapply snapshot_meta_ne).
        rewrite lookup_insert_ne; [done |]. intros He%snapshot_path_inj; lia.
      * rewrite lookup_insert_ne by (intros He%meta_path_inj; lia).
        by rewrite lookup_insert_ne by (apply snapshot_meta_ne).
    + unfold on_disk. rewrite Hs, lookup_insert_eq, lookup_insert_ne, lookup_insert_eq
        by (intros He; by eapply snapshot_meta_ne).
      split; [by exists prev | done].
  - intros o [Ho| ->%list_elem_of_singleton]%elem_of_app; [by apply H5 | done].
Qed.

(** The counter moves on when a push fails. *)
Lemma failed_wf st fs fs' :
  stack_wf st fs ->
  (forall op, op ∈ ops st -> fs' !! snapshot_path (dir st) (seq op) = fs !! snapshot_path (dir st) (seq op)
                             /\ fs' !! meta_path (dir st) (seq op) = fs !! meta_path (dir st) (seq op)) ->
  stack_wf (mkStack (dir st) (ops st) (next_seq st + 1) (total_snapshot_bytes st)) fs'.
Proof.
  intros [H1 H2 H3 H4 H5] Hf. split; cbn [total_snapshot_bytes ops dir next_seq]; auto.
  - intros op Ho%H2. lia.
  - intros op Ho. destruct (Hf op Ho). eapply on_disk_frame; eauto.
Qed.

Lemma push_keeps_wf io now k p existed prev st fs :
  stack_wf st fs -> (next_seq st + 1 < 2 ^ 64)%N -> outside (dir st) p ->
  let '(r, st', fs') := push io now k p existed prev st fs in
  stack_wf st' fs' /\ dir st' = dir st /\ next_seq st' = (next_seq st + 1)%N
  /\ (forall q, outside (dir st) q -> fs' !! q = fs !! q)
  /\ match r with
     | Some n =>
         n = next_seq st /\ length (ops st') <= MAX_ENTRIES
         /\ (total_snapshot_bytes st' <= MAX_TOTAL_SNAPSHOT_BYTES)%N
         /\ ops st' `suffix_of`
              ops st ++ [mkOp n k p existed (N.of_nat (length prev)) now]
     | None => ops st' = ops st /\ total_snapshot_bytes st' = total_snapshot_bytes st
     end.
Proof.
  intros Hw Hb Hp. unfold push, atomic_write, plain_write.
  assert (forall (P : Prop) b b' q, (q <> snapshot_path (dir st) (next_seq st) ->
            q <> meta_path (dir st) (next_seq st) ->
            <[meta_path (dir st) (next_seq st) := b']>
              (<[snapshot_path (dir st) (next_seq st) := b]> fs) !! q = fs !! q)) as Hother.
  { intros _ b b' q H1 H2. by rewrite !lookup_insert_ne. }
  destruct (write_ok io (snapshot_path (dir st) (next_seq st))); cbn [negb]; cycle 1.
  { split_and!; try done. by apply failed_wf with fs. }
  destruct (write_ok io (meta_path (dir st) (next_seq st))); cbn [negb]; cycle 1.
  { split_and!; try done.
    - apply failed_wf with fs; [done |]. intros op Ho. pose proof (wf_seq _ _ Hw op Ho).
      split; apply (Hother True).
      + intros He%snapshot_path_inj; lia.
      + apply snapshot_meta_ne.
      + intros He. by eapply snapshot_meta_ne.
      + intros He%meta_path_inj; lia.
    - intros q Hq. apply (Hother True); apply Hq. }
  set (op := mkOp (next_seq st) k p existed (N.of_nat (length prev)) now).
  pose proof (pushed_wf st fs op prev Hw ltac:(lia) eq_refl Hp eq_refl) as Hw2.
  destruct (fifo_trim_spec io _ _ Hw2) as ((T1 & T2 & T3 & T4 & T5) & L1 & L2 & _);
    [cbn [next_seq]; lia |].
  cbn [snapshot_size op] in *. destruct (fifo_trim io _ _) as [st2 fs3].
  cbn [fst snd dir ops next_seq] in *. split_and!; try done.
  intros q Hq. rewrite T5 by done. apply (Hother True); apply Hq.
Qed.

(** C19.  [push] keeps the stack sound, whatever file operations fail: the byte
    count is the sum of the entries, numbers increase, and every entry has its
    snapshot and sidecar on disk.  A push that succeeds ends within both caps and
    keeps a suffix of the old entries with the new one; one that fails keeps all the
    old entries.  Files outside the undo directory are never touched. *)
Theorem push_sound io now k p existed prev st fs :
  stack_wf st fs -> (next_seq st + 1 < 2 ^ 64)%N -> outside (dir st) p ->
  let '(r, st', fs') := push io now k p existed prev st fs in
  stack_wf st' fs' /\ dir st' = dir st /\ next_seq st' = (next_seq st + 1)%N
  /\ (forall q, outside (dir st) q -> fs' !! q = fs !! q)
  /\ match r with
     | Some n =>
         n = next_seq st /\ length (ops st') <= MAX_ENTRIES
         /\ (total_snapshot_bytes st' <= MAX_TOTAL_SNAPSHOT_BYTES)%N
         /\ ops st' `suffix_of`
              ops st ++ [mkOp n k p existed (N.of_nat (length prev)) now]
     | None => ops st' = ops st /\ total_snapshot_bytes st' = total_snapshot_bytes st
     end.
Proof. apply push_keeps_wf. Qed.

(** ** Undoing *)

(** An edit tool: snapshot the file, then write the new content. *)
Definition edit_file (io : Io) (now : Z) (k : UndoKind) (p : str) (new : bytes)
    (st : UndoStack) (fs : files) : UndoStack * files :=
  let '(r, st', fs') := push io now k p (is_some_b (fs !! p)) (unwrap_or [] (fs !! p)) st fs in
  match r with
  | Some _ => (st', <[p := new]> fs')
  | None => (st', fs')
  end.

Fixpoint edit_files (io : Io) (es : list (Z * UndoKind * str * bytes))
    (st : UndoStack) (fs : files) : UndoStack * files :=
  match es with
  | [] => (st, fs)
  | (now, k, p, new) :: es' =>
      let '(st', fs') := edit_file io now k p new st fs in edit_files io es' st' fs'
  end.

Fixpoint pop_n (io : Io) (n : nat) (st : UndoStack) (fs : files) : UndoStack * files :=
  match n with
  | O => (st, fs)
  | S n' => let '(_, st', fs') := pop io st fs in pop_n io n' st' fs'
  end.

Definition all_ok (io : Io) : Prop :=
  forall p, write_ok io p = true /\ read_ok io p = true /\ remove_ok io p = true.

(** [fs'] agrees with [fs] on the user's files and on the snapshots of [l]. *)
Definition agrees (d : str) (l : list UndoOp) (fs fs' : files) : Prop :=
  (forall q, outside d q -> fs' !! q = fs !! q)
  /\ (forall op, op ∈ l -> fs' !! snapshot_path d (seq op) = fs !! snapshot_path d (seq op)).

Lemma stack_wf_frame st fs fs' :
  (forall op, op ∈ ops st -> fs' !! snapshot_path (dir st) (seq op) = fs !! snapshot_path (dir st) (seq op)
                             /\ fs' !! meta_path (dir st) (seq op) = fs !! meta_path (dir st) (seq op)) ->
  stack_wf st fs -> stack_wf st fs'.
Proof.
  intros Hf [H1 H2 H3 H4 H5]. split; auto. intros op Ho. destruct (Hf op Ho).
  eapply on_disk_frame; eauto.
Qed.

Lemma user_write_wf st fs p b :
  outside (dir st) p -> stack_wf st fs -> stack_wf st (<[p := b]> fs).
Proof.
  intros Hp. apply stack_wf_frame. intros op _. destruct (Hp (seq op)).
  by rewrite !lookup_insert_ne.
Qed.

Lemma user_delete_wf st fs p :
  outside (dir st) p -> stack_wf st fs -> stack_wf st (delete p fs).
Proof.
  intros Hp. apply stack_wf_frame. intros op _. destruct (Hp (seq op)).
  by rewrite !lookup_delete_ne.
Qed.

(** The state after a push whose writes succeed and that evicts nothing. *)
Lemma push_no_evict io now k p existed prev st fs r st' fs' :
  all_ok io -> stack_wf st fs -> (next_seq st + 1 < 2 ^ 64)%N -> outside (dir st) p ->
  push io now k p existed prev st fs = (r, st', fs') ->
  length (ops st') = S (length (ops st)) ->
  ops st' = ops st ++ [mkOp (next_seq st) k p existed (N.of_nat (length prev)) now]
  /\ fs' = <[meta_path (dir st) (next_seq st)
              := meta_to_json (mkOp (next_seq st) k p existed (N.of_nat (length prev)) now)]>
             (<[snapshot_path (dir st) (next_seq st) := prev]> fs).
Proof.
  intros Hok Hw Hb Hp. unfold push, atomic_write, plain_write.
  rewrite (proj1 (Hok (snapshot_path (dir st) (next_seq st)))).
  rewrite (proj1 (Hok (meta_path (dir st) (next_seq st)))). cbn [negb].
  set (op := mkOp (next_seq st) k p existed (N.of_nat (length prev)) now).
  pose proof (pushed_wf st fs op prev Hw ltac:(lia) eq_refl Hp eq_refl) as Hw2.
  destruct (fifo_trim_spec io _ _ Hw2) as ((T1 & T2 & _) & L1 & L2 & L3); [cbn [next_seq]; lia |].
  cbn [snapshot_size op] in *. cbn [ops total_snapshot_bytes] in L3.
  destruct (fifo_trim io _ _) as [st2 fs3] eqn:Ef. cbn [fst snd ops] in *.
  intros [= <- <- <-] Hlen.
  assert (ops st2 = ops st ++ [op]) as Ho.
  { apply suffix_length_eq; [done |]. rewrite length_app, Hlen. simpl. lia. }
  assert ((st2, fs3) = (mkStack (dir st) (ops st ++ [op]) (next_seq st + 1)
             (total_snapshot_bytes st + N.of_nat (length prev)),
           <[meta_path (dir st) (next_seq st) := meta_to_json op]>
             (<[snapshot_path (dir st) (next_seq st) := prev]> fs))) as He.
  { apply L3; [rewrite <-Ho; done |].
    rewrite (wf_total _ _ T1), Ho, sum_sizes_app, <-(wf_total _ _ Hw) in L2. simpl in L2. lia. }
  injection He as -> ->. done.
Qed.

Lemma edit_file_no_evict io now k p new st fs :
  all_ok io -> stack_wf st fs -> (next_seq st + 1 < 2 ^ 64)%N -> outside (dir st) p ->
  let '(st', fs') := edit_file io now k p new st fs in
  stack_wf st' fs' /\ dir st' = dir st /\ next_seq st' = (next_seq st + 1)%N
  /\ length (ops st') <= S (length (ops st))
  /\ (length (ops st') = S (length (ops st)) ->
      exists op, ops st' = ops st ++ [op] /\ seq op = next_seq st /\ path op = p
        /\ prev_existed op = is_some_b (fs !! p)
        /\ fs' !! snapshot_path (dir st) (seq op) = Some (unwrap_or [] (fs !! p))
        /\ agrees (dir st) (ops st) (<[p := new]> fs) fs').
Proof.
  intros Hok Hw Hb Hp. unfold edit_file.
  pose proof (push_keeps_wf io now k p (is_some_b (fs !! p)) (unwrap_or [] (fs !! p)) st fs Hw Hb Hp)
    as Hps.
  pose proof (push_no_evict io now k p (is_some_b (fs !! p)) (unwrap_or [] (fs !! p)) st fs) as Hpn.
  destruct (push io now k p _ _ st fs) as [[r st'] fs'].
  destruct Hps as (Hw' & Hd & Hn & _ & Hr). specialize (Hpn r st' fs' Hok Hw Hb Hp eq_refl).
  destruct r as [n|].
  - destruct Hr as (-> & _ & _ & Hsuf). apply suffix_length in Hsuf. rewrite length_app in Hsuf.
    split; [apply user_write_wf; [by rewrite Hd | done] |].
    split; [done |]. split; [done |]. split; [simpl in Hsuf; lia |].
    intros Hlen. destruct (Hpn Hlen) as [-> ->]. eexists. split; [done |]. cbn [seq path prev_existed].
    split; [done |]. split; [done |]. split; [done |].
    assert (forall x, p <> snapshot_path (dir st) x) as Hps by (intros x; apply Hp).
    assert (forall x, p <> meta_path (dir st) x) as Hpm by (intros x; apply Hp).
    split; [rewrite lookup_insert_ne by done;
            rewrite lookup_insert_ne by (intros He; by eapply snapshot_meta_ne);
            by rewrite lookup_insert_eq |]. split.
    + intros q Hq. destruct (decide (q = p)) as [->|Hne]; [by rewrite !lookup_insert_eq |].
      rewrite (lookup_insert_ne _ p q) by done.
      rewrite (lookup_insert_ne _ p q) by done.
      destruct (Hq (next_seq st)). by rewrite !lookup_insert_ne.
    + intros op Ho. pose proof (wf_seq _ _ Hw op Ho).
      rewrite !(lookup_insert_ne _ p) by done.
      rewrite lookup_insert_ne by (intros He; by eapply snapshot_meta_ne).
      rewrite lookup_insert_ne; [done |]. intros He%snapshot_path_inj; lia.
  - destruct Hr as [Ho _]. split; [done |]. split; [done |]. split; [done |].
    rewrite Ho. split; [lia |]. lia.
Qed.

(** [pop] on the last entry, when the file operations succeed. *)
Lemma pop_last io st fs l op b :
  all_ok io -> stack_wf st fs -> (next_seq st < 2 ^ 64)%N -> ops st = l ++ [op] ->
  fs !! snapshot_path (dir st) (seq op) = Some b ->
  let '(_, st', fs') := pop io st fs in
  stack_wf st' fs' /\ ops st' = l /\ dir st' = dir st /\ next_seq st' = next_seq st
  /\ fs' !! path op = (if prev_existed op then Some b else None)
  /\ (forall q, q <> path op -> outside (dir st) q -> fs' !! q = fs !! q)
  /\ (forall o, o ∈ l -> fs' !! snapshot_path (dir st) (seq o) = fs !! snapshot_path (dir st) (seq o)).
Proof.
  intros Hok Hw Hb Ho Hsnap.
  assert (outside (dir st) (path op)) as Hp.
  { apply (wf_outside _ _ Hw). rewrite Ho. apply elem_of_app. right. by left. }
  assert (forall x, path op <> snapshot_path (dir st) x) as Hps by (intros x; apply Hp).
  assert (forall x, path op <> meta_path (dir st) x) as Hpm by (intros x; apply Hp).
  set (fs1 := if prev_existed op then <[path op := b]> fs else delete (path op) fs).
  set (st1 := mkStack (dir st) (removelast (ops st)) (next_seq st)
                (total_snapshot_bytes st - snapshot_size op)).
  assert (exists r, pop io st fs = (r, st1, remove_snapshot io (dir st) (seq op) fs1)) as [r ->].
  { unfold pop, read_file, atomic_write, remove_file.
    assert (last (ops st) = Some op) as -> by (rewrite Ho; apply last_snoc).
    rewrite (proj1 (proj2 (Hok (snapshot_path (dir st) (seq op))))), Hsnap.
    rewrite (proj1 (Hok (path op))), (proj2 (proj2 (Hok (path op)))). unfold fs1, st1.
    destruct (prev_existed op); [by eexists |].
    destruct (fs !! path op) eqn:E; [by eexists |]. eexists.
    by rewrite delete_id. }
  assert (stack_wf st fs1) as Hw1.
  { unfold fs1. destruct (prev_existed op); [by apply user_write_wf | by apply user_delete_wf]. }
  assert (forall o, o ∈ l -> o ∈ ops st /\ (seq o < seq op)%N) as Hl.
  { intros o Hin. split; [rewrite Ho; apply elem_of_app; by left |].
    pose proof (wf_sorted _ _ Hw) as Hs. rewrite Ho, map_app in Hs.
    clear -Hs Hin. induction l as [|x l IH]; [by apply elem_of_nil in Hin |].
    simpl in Hs. inversion Hs as [|? ? Hs' Hall]; subst.
    apply elem_of_cons in Hin as [->|Hin]; [|by apply IH].
    rewrite Forall_forall in Hall. apply Hall, elem_of_app. right. by left. }
  assert (seq op < next_seq st)%N as Hlt.
  { apply (wf_seq _ _ Hw). rewrite Ho. apply elem_of_app. right. by left. }
  assert (removelast (ops st) = l) as Hrl by (rewrite Ho; apply removelast_last).
  split; [|split_and!].
  - destruct Hw1 as [H1 H2 H3 H4 H5]. unfold st1. rewrite Hrl.
    split; cbn [total_snapshot_bytes ops dir next_seq].
    + rewrite H1, Ho, sum_sizes_app. simpl. lia.
    + intros o Hin. by apply H2, Hl.
    + rewrite Ho, map_app in H3. clear -H3. induction l as [|x l IH]; [constructor |].
      simpl in *. inversion H3 as [|? ? Hs Hall]; subst. constructor; [by apply IH |].
      by apply Forall_app in Hall as [? _].
    + intros o Hin. destruct (Hl o Hin) as [Hino Hs]. apply on_disk_remove; [lia..|].
      by apply H4.
    + intros o Hin. by apply H5, Hl.
  - done.
  - done.
  - done.
  - rewrite remove_snapshot_other by done. unfold fs1.
    destruct (prev_existed op); [by rewrite lookup_insert_eq | by rewrite lookup_delete_eq].
  - intros q Hne Hq. rewrite remove_snapshot_other by apply Hq. unfold fs1.
    destruct (prev_existed op); [by rewrite lookup_insert_ne | by rewrite lookup_delete_ne].
  - intros o Hin. destruct (Hl o Hin) as [Hino Hs]. rewrite remove_snapshot_other.
    + unfold fs1. destruct (prev_existed op); [by rewrite lookup_insert_ne | by rewrite lookup_delete_ne].
    + intros He%snapshot_path_inj; lia.
    + apply snapshot_meta_ne.
Qed.

Lemma pop_n_S io n st fs :
  pop_n io (S n) st fs = (let '(st1, fs1) := pop_n io n st fs in
                          let '(_, st2, fs2) := pop io st1 fs1 in (st2, fs2)).
Proof.
  revert st fs. induction n as [|n IH]; intros st fs.
  - simpl. by destruct (pop io st fs) as [[? ?] ?].
  - change (pop_n io (S (S n)) st fs) with
      (let '(_, st', fs') := pop io st fs in pop_n io (S n) st' fs').
    cbn [pop_n]. destruct (pop io st fs) as [[r st'] fs']. apply IH.
Qed.

Lemma edit_files_bound io es st fs :
  all_ok io -> stack_wf st fs -> (next_seq st + N.of_nat (length es) < 2 ^ 64)%N ->
  Forall (fun e => outside (dir st) (snd (fst e))) es ->
  length (ops (fst (edit_files io es st fs))) <= length (ops st) + length es.
Proof.
  intros Hok. revert st fs. induction es as [|[[[now k] p] new] es IH]; intros st fs Hw Hb Hp.
  - simpl. lia.
  - apply Forall_cons in Hp as [Hp Hps]. cbn [edit_files length] in *. simpl in Hp.
    pose proof (edit_file_no_evict io now k p new st fs Hok Hw ltac:(lia) Hp) as He.
    destruct (edit_file io now k p new st fs) as [st' fs']. destruct He as (Hw' & Hd & Hn & Hl & _).
    specialize (IH st' fs' Hw' ltac:(lia) ltac:(by rewrite Hd)). lia.
Qed.

Lemma undo_edits io es st fs :
  all_ok io -> stack_wf st fs -> (next_seq st + N.of_nat (length es) < 2 ^ 64)%N ->
  Forall (fun e => outside (dir st) (snd (fst e))) es ->
  let '(st1, fs1) := edit_files io es st fs in
  length (ops st1) = length (ops st) + length es ->
  let '(st2, fs2) := pop_n io (length es) st1 fs1 in
  stack_wf st2 fs2 /\ ops st2 = ops st /\ dir st2 = dir st /\ (next_seq st2 < 2 ^ 64)%N
  /\ agrees (dir st) (ops st) fs fs2.
Proof.
  intros Hok. revert st fs. induction es as [|[[[now k] p] new] es IH]; intros st fs Hw Hb Hp.
  - intros _. simpl in *. split_and!; try done. lia.
  - apply Forall_cons in Hp as [Hp Hps]. simpl in Hp.
    change (edit_files io ((now, k, p, new) :: es) st fs) with
      (let '(st', fs') := edit_file io now k p new st fs in edit_files io es st' fs').
    change (length ((now, k, p, new) :: es)) with (S (length es)) in *.
    pose proof (edit_file_no_evict io now k p new st fs Hok Hw ltac:(lia) Hp) as He.
    destruct (edit_file io now k p new st fs) as [st' fs'].
    destruct He as (Hw' & Hd & Hn & Hl & Hne).
    specialize (IH st' fs' Hw' ltac:(lia) ltac:(by rewrite Hd)).
    pose proof (edit_files_bound io es st' fs' Hok Hw' ltac:(lia) ltac:(by rewrite Hd)) as Hbound.
    destruct (edit_files io es st' fs') as [st1 fs1]. cbn [fst] in Hbound. intros Hlen.
    specialize (IH ltac:(lia)). rewrite pop_n_S.
    destruct (pop_n io (length es) st1 fs1) as [st2 fs2].
    destruct IH as (Hw2 & Ho2 & Hd2 & Hb2 & Hag). destruct (Hne ltac:(lia)) as
      (op & Ho & Hs & Hpath & Hex & Hsnap & Hag1).
    assert (fs2 !! snapshot_path (dir st2) (seq op) = Some (unwrap_or [] (fs !! p))) as Hsnap2.
    { rewrite Hd2, Hd, <-Hsnap, <-Hd. apply Hag. rewrite Ho. apply elem_of_app. right. by left. }
    pose proof (pop_last io st2 fs2 (ops st) op _ Hok Hw2 Hb2 ltac:(congruence) Hsnap2) as Hpop.
    destruct (pop io st2 fs2) as [[r st3] fs3].
    destruct Hpop as (Hw3 & Ho3 & Hd3 & Hn3 & Hpf & Hoth & Hsn).
    rewrite Hpath, Hex in Hpf. rewrite Hpath in Hoth. rewrite Hd2, Hd in *.
    destruct Hag as [Hag1a Hag1b], Hag1 as [Hag2a Hag2b].
    split_and!; [done | done | congruence | congruence |]. split.
    + intros q Hq. destruct (decide (q = p)) as [->|Hqp].
      * rewrite Hpf. by destruct (fs !! p).
      * rewrite Hoth, Hag1a, Hag2a by done. by rewrite lookup_insert_ne.
    + intros o Hin. rewrite Hsn by done. rewrite Hag1b by (rewrite Ho; apply elem_of_app; by left).
      rewrite Hag2b by done. apply lookup_insert_ne. apply Hp.
Qed.

(** C18.  Undo is exact: after any number of edits of files outside the undo
    directory, undoing them one by one, as long as none of them was evicted by the
    caps, brings every file back to its content before the edits (files the edits
    created are gone) and the stack back to its entries before the edits. *)
Theorem undo_restores io es st fs :
  all_ok io -> stack_wf st fs -> (next_seq st + N.of_nat (length es) < 2 ^ 64)%N ->
  Forall (fun e => outside (dir st) (snd (fst e))) es ->
  let '(st1, fs1) := edit_files io es st fs in
  length (ops st1) = length (ops st) + length es ->
  let '(st2, fs2) := pop_n io (length es) st1 fs1 in
  ops st2 = ops st /\ forall q, outside (dir st) q -> fs2 !! q = fs !! q.
Proof.
  intros Hok Hw Hb Hp. pose proof (undo_edits io es st fs Hok Hw Hb Hp) as Hu.
  destruct (edit_files io es st fs) as [st1 fs1]. intros Hl. specialize (Hu Hl).
  destruct (pop_n io (length es) st1 fs1) as [st2 fs2].
  destruct Hu as (_ & Ho & _ & _ & Hag & _). done.
Qed.

(** ** Opening a session again *)

Lemma strip_dir_app d name :
  contains name "/" = false -> strip_dir d (d ++ lit "/" ++ name) = Some name.
Proof.
  intros Hn. unfold strip_dir. rewrite (proj2 (starts_with_spec _ _)).
  - rewrite app_assoc, drop_app_length. by rewrite Hn.
  - exists name. by rewrite <-app_assoc.
Qed.

Lemma load_meta io d n op :
  all_ok io -> (n < 2 ^ 64)%N -> load_entry io d (meta_path d n, meta_to_json op) = Some op.
Proof.
  intros Hok Hn. unfold load_entry, meta_path. cbn [fst snd]. rewrite strip_dir_app; cycle 1.
  { destruct (contains _ _) eqn:E; [|done]. exfalso.
    apply contains_spec in E as (a & b & E).
    assert (chr "/" ∈ zero_pad 8 (show_N n) ++ lit ".meta.json") as Hin.
    { rewrite E. apply elem_of_app. right. by left. }
    apply elem_of_app in Hin as [Hin|Hin].
    - pose proof (zero_pad_digits 8 n Hn) as Hd. rewrite Forall_forall in Hd.
      by specialize (Hd _ Hin).
    - revert Hin. apply (bool_decide_unpack _). vm_compute. exact I. }
  simpl. rewrite strip_suffix_app. simpl. rewrite parse_zero_pad by done. simpl.
  rewrite (proj1 (proj2 (Hok _))). apply meta_roundtrip.
Qed.

(** Every sidecar of the directory belongs to an entry of the stack. *)
Definition no_stray (io : Io) (st : UndoStack) (fs : files) : Prop :=
  forall p b op, fs !! p = Some b -> load_entry io (dir st) (p, b) = Some op ->
    exists o, o ∈ ops st /\ p = meta_path (dir st) (seq o).

Lemma loaded_perm io st fs :
  all_ok io -> stack_wf st fs -> (next_seq st < 2 ^ 64)%N -> no_stray io st fs ->
  Permutation (omap (load_entry io (dir st)) (map_to_list fs)) (ops st).
Proof.
  intros Hok Hw Hb Hns.
  assert (forall p b op, (p, b) ∈ map_to_list fs -> load_entry io (dir st) (p, b) = Some op ->
            op ∈ ops st /\ p = meta_path (dir st) (seq op)) as Hload.
  { intros p b op Hin%elem_of_map_to_list Hl.
    destruct (Hns p b op Hin Hl) as (o & Ho & ->).
    destruct (wf_disk _ _ Hw o Ho) as [_ Hm]. rewrite Hm in Hin. injection Hin as <-.
    pose proof (wf_seq _ _ Hw o Ho). rewrite load_meta in Hl by (done || lia).
    by injection Hl as <-. }
  apply NoDup_Permutation.
  - apply NoDup_omap; [apply NoDup_map_to_list |].
    intros [p b] [p' b'] op Hin Hin' Hl Hl'.
    destruct (Hload p b op Hin Hl) as [_ ->], (Hload p' b' op Hin' Hl') as [_ ->].
    apply elem_of_map_to_list in Hin, Hin'. congruence.
  - pose proof (wf_sorted _ _ Hw) as Hs. clear -Hs.
    induction (ops st) as [|o l IH]; [constructor |].
    simpl in Hs. inversion Hs as [|? ? Hs' Hall]; subst. apply NoDup_cons.
    split; [|by apply IH]. intros Hin. rewrite Forall_forall in Hall.
    specialize (Hall (seq o) ltac:(by apply list_elem_of_fmap_2)). lia.
  - intros op. rewrite list_elem_of_omap. split.
    + intros ([p b] & Hin & Hl). by apply (Hload p b op).
    + intros Ho. exists (meta_path (dir st) (seq op), meta_to_json op). split.
      * apply elem_of_map_to_list. by apply (wf_disk _ _ Hw op Ho).
      * apply load_meta; [done |]. pose proof (wf_seq _ _ Hw op Ho). lia.
Qed.

(** Opening the undo directory again recovers the stack: the entries in
    order, their byte count, and a counter past every entry, whatever order the
    directory is read in. *)
Lemma for_session_recovers io st fs :
  all_ok io -> stack_wf st fs -> (next_seq st < 2 ^ 64)%N -> no_stray io st fs ->
  let st' := for_session io (dir st) fs in
  ops st' = ops st /\ dir st' = dir st /\ total_snapshot_bytes st' = total_snapshot_bytes st
  /\ (forall op, op ∈ ops st -> seq op < next_seq st')%N.
Proof.
  intros Hok Hw Hb Hns. unfold for_session. cbn [ops dir total_snapshot_bytes next_seq].
  pose proof (loaded_perm io st fs Hok Hw Hb Hns) as Hp.
  assert (sort_by_seq (omap (load_entry io (dir st)) (map_to_list fs)) = ops st) as ->.
  { apply sort_by_unique; [done |]. pose proof (wf_sorted _ _ Hw) as Hs.
    induction (ops st) as [|o l IH] in Hs |- *; [constructor |]. simpl in Hs.
    inversion Hs as [|? ? Hs' Hall]; subst. constructor; [by apply IH |].
    apply Forall_forall. intros x Hx. rewrite Forall_forall in Hall. apply Hall.
    by apply list_elem_of_fmap_2. }
  split; [done |]. split; [done |]. split; [by rewrite (wf_total _ _ Hw) |].
  intros op Ho. rewrite <-Hp in Ho. clear -Ho.
  induction (omap _ _) as [|x l IH]; [by apply elem_of_nil in Ho |]. simpl.
  apply elem_of_cons in Ho as [->|Ho]; [lia |]. specialize (IH Ho). lia.
Qed.

(** A snapshot above the byte cap is not kept, although the comment promises
    at least one undo: such a push reports success, but the loop that trims by size
    also removes the new entry, so the whole stack is empty and the edit that follows
    cannot be undone. *)
Lemma push_oversize_evicted io now k p existed prev st fs n st' fs' :
  stack_wf st fs -> (next_seq st + 1 < 2 ^ 64)%N -> outside (dir st) p ->
  (MAX_TOTAL_SNAPSHOT_BYTES < N.of_nat (length prev))%N ->
  push io now k p existed prev st fs = (Some n, st', fs') ->
  ops st' = [] /\ pop io st' fs' = (Empty, st', fs').
Proof.
  intros Hw Hb Hp Hbig Hpush. pose proof (push_keeps_wf io now k p existed prev st fs Hw Hb Hp) as Hs.
  rewrite Hpush in Hs. destruct Hs as (Hw' & _ & _ & _ & _ & _ & Htot & Hsuf).
  assert (ops st' = []) as Ho.
  { destruct Hsuf as [l Hl]. destruct (ops st') as [|o r _] eqn:E using rev_ind; [done |].
    rewrite app_assoc in Hl. apply app_inj_tail in Hl as [_ <-].
    rewrite (wf_total _ _ Hw'), E, sum_sizes_app in Htot. simpl in Htot. lia. }
  split; [done |]. unfold pop. by rewrite Ho.
Qed.
End Invariant.

(** ** Concrete sessions *)

#[local] Instance UndoKind_eq_dec : EqDecision UndoKind.
Proof. solve_decision. Defined.

Definition encode_meta (m : SerializedMeta) : positive :=
  encode (seq m, match kind m with Edit => true | Write => false end, path m, prev_existed m,
          snapshot_size m, timestamp m).
Definition decode_meta (p : positive) : option SerializedMeta :=
  match decode p with
  | Some (n, k, q, e, sz, ts) => Some (mkOp n (if k : bool then Edit else Write) q e sz ts)
  | None => None
  end.

#[local] Instance demo_meta : MetaJson.
Proof.
  refine {| meta_to_json m := [Npos (encode_meta m)];
            meta_from_json b := match b with [Npos p] => decode_meta p | _ => None end |}.
  intros [n [] q e sz ts]; unfold decode_meta, encode_meta; cbn [seq kind path prev_existed
    snapshot_size timestamp]; by rewrite decode_encode.
Defined.

Definition demo_io : Io :=
  {| write_ok _ := true; partial_write _ := []; read_ok _ := true; remove_ok _ := true |}.

Lemma demo_io_ok : all_ok demo_io.
Proof. done. Defined.

Definition fresh : UndoStack := for_session demo_io "/u" ∅.

Lemma fresh_wf (fs : files) : stack_wf fresh fs.
Proof.
  split; [reflexivity | | constructor | |]; intros op Hop; by apply elem_of_nil in Hop.
Defined.

Lemma outside_src (p : str) : head p <> Some 47%N -> outside "/u" p.
Proof. intros Hh n. split; intros ->; by apply Hh. Defined.

(** The numbers of a new session start at 1, not at 0 as the field's comment
    says. *)
Theorem first_sequence_number :
  next_seq (for_session demo_io "/u" ∅) = 1%N
  /\ fst (fst (push demo_io 0 Edit "a" false [] fresh ∅)) = Some 1%N.
Proof. split; vm_compute; reflexivity. Qed.

Lemma push_sound_witness :
  length (ops (snd (fst (push demo_io 0 Edit "a" false [7%N] fresh ∅)))) <= MAX_ENTRIES.
Proof.
  pose proof (push_sound demo_io 0 Edit "a" false [7%N] fresh ∅ (fresh_wf ∅)) as Hp.
  specialize (Hp ltac:(vm_compute; reflexivity) ltac:(by apply outside_src)).
  destruct (push demo_io 0 Edit "a" false [7%N] fresh ∅) as [[[n|] st'] fs'] eqn:E; [apply Hp |].
  vm_compute in E. discriminate.
Defined.

Lemma undo_restores_witness :
  snd (pop_n demo_io 2 (fst (edit_files demo_io [(0%Z, Edit, lit "a", [1%N]); (1%Z, Write, lit "b", [2%N])]
                               fresh {[lit "a" := [9%N]]}))
         (snd (edit_files demo_io [(0%Z, Edit, lit "a", [1%N]); (1%Z, Write, lit "b", [2%N])]
                 fresh {[lit "a" := [9%N]]}))) !! lit "a" = Some [9%N].
Proof.
  pose proof (undo_restores demo_io [(0%Z, Edit, lit "a", [1%N]); (1%Z, Write, lit "b", [2%N])]
                fresh {[lit "a" := [9%N]]} demo_io_ok (fresh_wf _) ltac:(vm_compute; reflexivity)) as Hu.
  specialize (Hu ltac:(repeat constructor; by apply outside_src)).
  destruct (edit_files _ _ _ _) as [st1 fs1] eqn:E. cbn [fst snd].
  assert (length (ops st1) = 2) as Hl.
  { apply (f_equal (fun r => length (ops (fst r)))) in E. simpl fst in E. rewrite <-E.
    vm_compute. reflexivity. }
  specialize (Hu Hl). change (length _) with 2 in Hu.
  destruct (pop_n demo_io 2 st1 fs1) as [st2 fs2]. cbn [snd].
  etransitivity; [apply Hu; by apply outside_src | reflexivity].
Defined.

Definition one_push : UndoStack * files :=
  let '(_, st, fs) := push demo_io 0 Edit "a" true [7%N] fresh ∅ in (st, fs).

Lemma one_push_files :
  snd one_push = <[meta_path "/u" 1 := meta_to_json (mkOp 1 Edit "a" true 1 0)]>
                   (<[snapshot_path "/u" 1 := [7%N]]> ∅).
Proof. vm_compute. reflexivity. Defined.

Lemma one_push_wf : stack_wf (fst one_push) (snd one_push).
Proof.
  pose proof (push_keeps_wf demo_io 0 Edit "a" true [7%N] fresh ∅ (fresh_wf ∅)) as Hp.
  specialize (Hp ltac:(vm_compute; reflexivity) ltac:(by apply outside_src)).
  unfold one_push. destruct (push _ _ _ _ _ _ _ _) as [[r st] fs]. apply Hp.
Defined.

Lemma for_session_recovers_witness :
  ops (for_session demo_io "/u" (snd one_push)) = [mkOp 1 Edit "a" true 1 0].
Proof.
  transitivity (ops (fst one_push)); [|vm_compute; reflexivity].
  apply (for_session_recovers demo_io (fst one_push) (snd one_push));
    [exact demo_io_ok | exact one_push_wf | vm_compute; reflexivity |].
  intros p b op. rewrite one_push_files.
  intros [[<- _]|[_ [[<- <-]|[_ Hn]]%lookup_insert_Some]]%lookup_insert_Some Hl.
  - eexists. split; [by left | reflexivity].
  - vm_compute in Hl. discriminate.
  - by apply lookup_empty_Some in Hn.
Defined.

Lemma demo_push_ok prev :
  exists st' fs', push demo_io 0 Edit "a" true prev fresh ∅ = (Some 1%N, st', fs').
Proof.
  unfold push, atomic_write, plain_write. cbn [write_ok demo_io negb].
  destruct (fifo_trim demo_io _ _) as [st2 fs2]. by exists st2, fs2.
Defined.

Lemma push_oversize_evicted_witness :
  exists st' fs',
    push demo_io 0 Edit "a" true (replicate (N.to_nat (MAX_TOTAL_SNAPSHOT_BYTES + 1)) 0%N) fresh ∅
      = (Some 1%N, st', fs')
    /\ ops st' = [].
Proof.
  destruct (demo_push_ok (replicate (N.to_nat (MAX_TOTAL_SNAPSHOT_BYTES + 1)) 0%N))
    as (st' & fs' & Hp).
  exists st', fs'. split; [exact Hp |].
  refine (proj1 (push_oversize_evicted demo_io 0 Edit "a" true _ fresh ∅ 1%N st' fs'
                   (fresh_wf ∅) _ _ _ Hp)).
  - reflexivity.
  - by apply outside_src.
  - rewrite length_replicate, N2Nat.id. reflexivity.
Defined.
