(* ===== verification/Decompose.v ===== *)
(** * Task decomposition

    Models [src/crates/kf-orchestrator/src/decompose.rs] with the records of
    [types.rs] it uses: Kahn's topological sort, the parser of model output, the
    decomposition call with its retry, and the execution of a stored decomposition.

    A [HashMap] is iterated in an order the program does not control: [hash_order]
    is that order, any permutation of the keys.  The model client, the memory store,
    the delegate and serde are parameters. *)

From S2P Require Import Prelude Machine Routing Correction.

Record TaskNode := mkNode {
  node_id : str;
  description : str;
  language : str;
  depends_on : list str;
  estimated_complexity : str;
  output_files : list str;
  verification_hint : str
}.

Record DecompositionResult := mkDecomposition {
  root_task : str;
  tasks : list TaskNode;
  total_estimated_tokens : Z;
  rationale : str
}.

Definition MAX_SUBTASKS : nat := 24.

(** ** Topological sort *)

Fixpoint build_by_id (nodes : list TaskNode) (m : gmap str TaskNode)
  : result (gmap str TaskNode) str :=
  match nodes with
  | [] => Ok m
  | n :: nodes' =>
      match m !! node_id n with
      | Some _ => Err (lit "duplicate task id: " ++ node_id n)
      | None => build_by_id nodes' (<[node_id n := n]> m)
      end
  end.

(** The edges and the in-degrees. *)
Record Edges := mkEdges {
  in_degree : gmap str Z;
  adj : gmap str (list str)
}.

Definition no_edges (nodes : list TaskNode) : Edges :=
  mkEdges (foldl (fun m n => <[node_id n := 0%Z]> m) ∅ nodes)
          (foldl (fun m n => <[node_id n := []]> m) ∅ nodes).

Fixpoint add_deps (by_id : gmap str TaskNode) (n : TaskNode) (deps : list str) (e : Edges)
  : result Edges str :=
  match deps with
  | [] => Ok e
  | dep :: deps' =>
      if str_eqb dep (node_id n)
      then Err (lit "Task " ++ node_id n ++ lit " cannot depend on itself")
      else match by_id !! dep with
           | None => Err (lit "Task " ++ node_id n ++ lit " depends on unknown task: " ++ dep)
           | Some _ =>
               add_deps by_id n deps'
                 (mkEdges (alter (Z.add 1) (node_id n) (in_degree e))
                          (alter (fun l => l ++ [node_id n]) dep (adj e)))
           end
  end.

Fixpoint add_edges (by_id : gmap str TaskNode) (nodes : list TaskNode) (e : Edges)
  : result Edges str :=
  match nodes with
  | [] => Ok e
  | n :: nodes' => let? e := add_deps by_id n (depends_on n) e in add_edges by_id nodes' e
  end.

(** The loop over the successors of a finished task. *)
Fixpoint relax (nexts : list str) (deg : gmap str Z) (queue : list str)
  : gmap str Z * list str :=
  match nexts with
  | [] => (deg, queue)
  | next :: nexts' =>
      let d := (unwrap_or 0 (deg !! next) - 1)%Z in
      relax nexts' (<[next := d]> deg) (if (d =? 0)%Z then queue ++ [next] else queue)
  end.

(** [while let Some(id) = queue.pop_front()]; every task is queued at most once. *)
Fixpoint kahn (by_id : gmap str TaskNode) (adj_ : gmap str (list str)) (fuel : nat)
    (deg : gmap str Z) (queue : list str) (sorted : list TaskNode) : list TaskNode :=
  match fuel with
  | O => sorted
  | S fuel' =>
      match queue with
      | [] => sorted
      | id :: queue' =>
          let sorted' := match by_id !! id with Some n => sorted ++ [n] | None => sorted end in
          let '(deg', queue'') :=
            match adj_ !! id with Some nexts => relax nexts deg queue' | None => (deg, queue') end in
          kahn by_id adj_ fuel' deg' queue'' sorted'
      end
  end.

Section Sort.
Variable hash_order : list str -> list str.

Definition topological_sort (nodes : list TaskNode) : result (list TaskNode) str :=
  let? by_id := build_by_id nodes ∅ in
  let? e := add_edges by_id nodes (no_edges nodes) in
  let queue := List.filter (fun k => bool_decide (in_degree e !! k = Some 0%Z))
                 (hash_order (map node_id nodes)) in
  let sorted := kahn by_id (adj e) (length nodes) (in_degree e) queue [] in
  if length sorted =? length nodes then Ok sorted
  else Err (lit "Cycle detected in task dependencies").
End Sort.

(** ** Correctness of the sort *)

(** Every dependency of a task comes before it. *)
Definition dep_ordered (l : list TaskNode) : Prop :=
  forall i n d, l !! i = Some n -> d ∈ depends_on n ->
    exists j m, j < i /\ l !! j = Some m /\ node_id m = d.

Definition count (x : str) (l : list str) : nat := length (List.filter (str_eqb x) l).

Lemma count_cons x y l : count x (y :: l) = (if str_eqb x y then 1 else 0) + count x l.
Proof. unfold count. simpl. by destruct (str_eqb x y). Qed.

Lemma count_app x a b : count x (a ++ b) = count x a + count x b.
Proof. unfold count. by rewrite List.filter_app, length_app. Qed.

Lemma count_pos x l : 0 < count x l <-> x ∈ l.
Proof.
  unfold count. split.
  - intros Hp. destruct (List.filter (str_eqb x) l) as [|y r] eqn:E; [simpl in Hp; lia |].
    assert (y ∈ List.filter (str_eqb x) l) as Hy by (rewrite E; by left).
    apply list_elem_of_In, filter_In in Hy as [Hy Hx]. apply str_eqb_eq in Hx as ->.
    by apply list_elem_of_In.
  - intros Hx. assert (x ∈ List.filter (str_eqb x) l) as Hy.
    { apply list_elem_of_In, filter_In. rewrite str_eqb_refl. by rewrite <-list_elem_of_In. }
    destruct (List.filter _ _); [by apply elem_of_nil in Hy | simpl; lia].
Qed.

(** One pass over the successors: degrees drop by the number of occurrences, and a
    task is queued when its degree reaches zero. *)
Lemma relax_spec nexts deg queue :
  (forall x, x ∈ nexts -> exists d, deg !! x = Some d /\ (Z.of_nat (count x nexts) <= d)%Z) ->
  (forall x, x ∈ queue -> x ∉ nexts) -> NoDup queue ->
  let '(deg', queue') := relax nexts deg queue in
  (forall x, deg' !! x = (fun d => d - Z.of_nat (count x nexts))%Z <$> deg !! x)
  /\ NoDup queue'
  /\ (forall x, x ∈ queue' <-> x ∈ queue \/ (x ∈ nexts /\ deg !! x = Some (Z.of_nat (count x nexts)))).
Proof.
  revert deg queue. induction nexts as [|y nexts IH]; intros deg queue Hd Hq Hnd; simpl.
  { split; [|split; [done |]].
    - intros x. unfold count. simpl. destruct (deg !! x); simpl; [f_equal; lia | done].
    - intros x. split; [by left |]. intros [Hx|[Hx _]]; [done | by apply elem_of_nil in Hx]. }
  destruct (Hd y ltac:(by left)) as (dy & Hy & Hcy). rewrite Hy. simpl.
  rewrite count_cons, str_eqb_refl in Hcy.
  set (q := if (dy - 1 =? 0)%Z then queue ++ [y] else queue).
  assert (forall x, x <> y -> count x (y :: nexts) = count x nexts) as Hne.
  { intros x Hx. rewrite count_cons. by rewrite (proj2 (str_eqb_neq x y) Hx). }
  assert (y ∈ nexts -> (dy - 1 =? 0)%Z = false) as Hyin.
  { intros Hin%count_pos. apply Z.eqb_neq. lia. }
  specialize (IH (<[y := (dy - 1)%Z]> deg) q). 
  destruct (relax nexts (<[y := (dy - 1)%Z]> deg) q) as [deg' queue'].
  destruct IH as (I1 & I2 & I3).
  - intros x Hx. destruct (decide (x = y)) as [->|Hxy].
    + exists (dy - 1)%Z. rewrite lookup_insert_eq. split; [done | lia].
    + rewrite lookup_insert_ne by done. destruct (Hd x ltac:(by right)) as (d & ? & Hc).
      exists d. by rewrite Hne in Hc.
  - intros x Hx Hin. unfold q in Hx. destruct (dy - 1 =? 0)%Z eqn:E.
    + apply elem_of_app in Hx as [Hx|Hx]; [apply (Hq x Hx); by right |].
      apply list_elem_of_singleton in Hx as ->. by apply Hyin in Hin.
    + apply (Hq x Hx). by right.
  - unfold q. destruct (dy - 1 =? 0)%Z; [|done]. apply NoDup_app. split; [done |].
    split; [|apply NoDup_singleton]. intros x Hx ->%list_elem_of_singleton.
    apply (Hq y Hx). by left.
  - split; [|split; [done |]].
    + intros x. rewrite I1. destruct (decide (x = y)) as [->|Hxy].
      * rewrite lookup_insert_eq, Hy, count_cons, str_eqb_refl. simpl. f_equal. lia.
      * by rewrite lookup_insert_ne, Hne.
    + intros x. rewrite I3. destruct (decide (x = y)) as [->|Hxy].
      * rewrite lookup_insert_eq, Hy, count_cons, str_eqb_refl. unfold q. split.
        -- intros [Hx|[Hx Hc]].
           ++ destruct (dy - 1 =? 0)%Z eqn:E; [|by left].
              apply Z.eqb_eq in E. right. split; [by left |]. f_equal.
              assert (count y nexts = 0) as H0 by lia. rewrite H0. lia.
           ++ right. split; [by left |]. f_equal. injection Hc as Hc. lia.
        -- intros [Hx|[_ [= Hc]]].
           ++ left. destruct (dy - 1 =? 0)%Z; [apply elem_of_app; by left | done].
           ++ destruct (decide (y ∈ nexts)) as [Hin|Hout].
              ** right. split; [done |]. f_equal. lia.
              ** left. assert (count y nexts = 0) as H0.
                 { destruct (count y nexts) eqn:E0; [done |]. exfalso. apply Hout.
                   apply count_pos. lia. }
                 rewrite (proj2 (Z.eqb_eq _ _)) by lia. apply elem_of_app. right. by left.
      * rewrite lookup_insert_ne, Hne by done. unfold q.
        assert (x ∈ (if (dy - 1 =? 0)%Z then queue ++ [y] else queue) <-> x ∈ queue) as ->.
        { destruct (dy - 1 =? 0)%Z; [|done]. rewrite elem_of_app, list_elem_of_singleton. tauto. }
        rewrite elem_of_cons. tauto.
Qed.

(** *** The graph *)

(** The successors of [x], one entry per occurrence of [x] as a dependency. *)
Definition succs (nodes : list TaskNode) (x : str) : list str :=
  nodes ≫= fun n => replicate (count x (depends_on n)) (node_id n).

Definition degree_sum (nodes : list TaskNode) (y : str) : nat :=
  sum_list (map (fun n => if str_eqb y (node_id n) then length (depends_on n) else 0) nodes).

Lemma count_replicate x y k : count x (replicate k y) = if str_eqb x y then k else 0.
Proof.
  induction k as [|k IH]; [by destruct (str_eqb x y) |]. simpl replicate.
  rewrite count_cons, IH. by destruct (str_eqb x y).
Qed.

Lemma build_by_id_spec nodes m :
  (forall m', build_by_id nodes m = Ok m' ->
     NoDup (map node_id nodes) /\ (forall n, n ∈ nodes -> m !! node_id n = None)
     /\ forall x, m' !! x = match list_find (fun n => node_id n = x) nodes with
                            | Some (_, n) => Some n
                            | None => m !! x
                            end)
  /\ (NoDup (map node_id nodes) -> (forall n, n ∈ nodes -> m !! node_id n = None) ->
      is_ok (build_by_id nodes m) = true).
Proof.
  revert m. induction nodes as [|n nodes IH]; intros m; simpl.
  { split; [|done]. intros m' [= <-]. split; [constructor |].
    split; [intros n Hn; by apply elem_of_nil in Hn | done]. }
  destruct (m !! node_id n) eqn:E.
  { split; [done |]. intros _ Hn. specialize (Hn n ltac:(by left)). congruence. }
  destruct (IH (<[node_id n := n]> m)) as [IH1 IH2]. split.
  - intros m' (Hnd & Hnone & Hl)%IH1.
    assert (node_id n ∉ map node_id nodes) as Hn.
    { intros (n' & He & Hin)%list_elem_of_fmap. specialize (Hnone n' Hin).
      by rewrite <-He, lookup_insert_eq in Hnone. }
    split; [by apply NoDup_cons |]. split.
    + intros n' [->|Hin]%elem_of_cons; [done |]. specialize (Hnone n' Hin).
      by apply lookup_insert_None in Hnone as [? _].
    + intros x. rewrite Hl. case_decide as Hx.
      * subst x. rewrite (proj2 (list_find_None _ _)), lookup_insert_eq; [done |].
        apply Forall_forall. intros n' Hin He. apply Hn. rewrite <-He.
        by apply list_elem_of_fmap_2.
      * destruct (list_find _ nodes) as [[k t]|]; simpl; [done | by apply lookup_insert_ne].
  - intros [Hn Hnd]%NoDup_cons Hnone. apply IH2; [done |].
    intros n' Hin. rewrite lookup_insert_ne; [apply Hnone; by right |].
    intros He. apply Hn. rewrite He. by apply list_elem_of_fmap_2.
Qed.

Lemma add_deps_spec by_id n deps e :
  (forall e', add_deps by_id n deps e = Ok e' ->
     (forall d, d ∈ deps -> d <> node_id n /\ is_Some (by_id !! d))
     /\ (forall y, in_degree e' !! y
           = (fun d => d + if str_eqb y (node_id n) then Z.of_nat (length deps) else 0)%Z
             <$> in_degree e !! y)
     /\ (forall x, adj e' !! x = (fun l => l ++ replicate (count x deps) (node_id n)) <$> adj e !! x))
  /\ ((forall d, d ∈ deps -> d <> node_id n /\ is_Some (by_id !! d)) ->
      is_ok (add_deps by_id n deps e) = true).
Proof.
  revert e. induction deps as [|dep deps IH]; intros e; simpl.
  { split; [|done]. intros e' [= <-]. split; [intros d Hd; by apply elem_of_nil in Hd |]. split.
    - intros y. destruct (in_degree e !! y); simpl; [|done]. f_equal. case_match; lia.
    - intros x. destruct (adj e !! x); simpl; [by rewrite app_nil_r | done]. }
  destruct (str_eqb dep (node_id n)) eqn:Es.
  { split; [done |]. apply str_eqb_eq in Es. intros Hd. by destruct (Hd dep ltac:(by left)). }
  apply str_eqb_neq in Es. destruct (by_id !! dep) as [t|] eqn:Eb.
  2: { split; [done |]. intros Hd. destruct (Hd dep ltac:(by left)) as [_ [? ?]]. congruence. }
  specialize (IH (mkEdges (alter (Z.add 1) (node_id n) (in_degree e))
                    (alter (fun l => l ++ [node_id n]) dep (adj e)))) as [IH1 IH2].
  cbn [in_degree adj] in IH1. split.
  - intros e' (Hd & Hdeg & Hadj)%IH1. split; [|split].
    + intros d [->|Hin]%elem_of_cons; [by rewrite Eb | by apply Hd].
    + intros y. rewrite Hdeg. destruct (str_eqb y (node_id n)) eqn:Ey.
      * apply str_eqb_eq in Ey as ->. rewrite lookup_alter_eq.
        destruct (in_degree e !! node_id n); simpl; [f_equal; lia | done].
      * apply str_eqb_neq in Ey. by rewrite lookup_alter_ne.
    + intros x. rewrite Hadj, count_cons. destruct (str_eqb x dep) eqn:Ex.
      * apply str_eqb_eq in Ex as ->. rewrite lookup_alter_eq.
        destruct (adj e !! dep); simpl; [by rewrite <-app_assoc | done].
      * apply str_eqb_neq in Ex. by rewrite lookup_alter_ne.
  - intros Hd. apply IH2. intros d Hin. apply Hd. by right.
Qed.

Lemma add_edges_spec by_id nodes e :
  (forall e', add_edges by_id nodes e = Ok e' ->
     (forall n d, n ∈ nodes -> d ∈ depends_on n -> d <> node_id n /\ is_Some (by_id !! d))
     /\ (forall y, in_degree e' !! y
           = (fun d => d + Z.of_nat (degree_sum nodes y))%Z <$> in_degree e !! y)
     /\ (forall x, adj e' !! x = (fun l => l ++ succs nodes x) <$> adj e !! x))
  /\ ((forall n d, n ∈ nodes -> d ∈ depends_on n -> d <> node_id n /\ is_Some (by_id !! d)) ->
      is_ok (add_edges by_id nodes e) = true).
Proof.
  revert e. induction nodes as [|n nodes IH]; intros e; simpl.
  { split; [|done]. intros e' [= <-]. split; [intros n d Hn; by apply elem_of_nil in Hn |]. split.
    - intros y. destruct (in_degree e !! y); simpl; [|done]. f_equal. unfold degree_sum. simpl. lia.
    - intros x. destruct (adj e !! x); simpl; [by rewrite app_nil_r | done]. }
  destruct (add_deps_spec by_id n (depends_on n) e) as [D1 D2].
  destruct (add_deps by_id n (depends_on n) e) as [e1|err] eqn:E1; simpl.
  - destruct (D1 e1 eq_refl) as (Hd1 & Hdeg1 & Hadj1). destruct (IH e1) as [IH1 IH2]. split.
    + intros e' (Hd & Hdeg & Hadj)%IH1. split; [|split].
      * intros n' d [->|Hin]%elem_of_cons; [by apply Hd1 | by apply Hd].
      * intros y. rewrite Hdeg, Hdeg1. unfold degree_sum. simpl.
        destruct (in_degree e !! y); simpl; [|done]. f_equal.
        destruct (str_eqb y (node_id n)); lia.
      * intros x. rewrite Hadj, Hadj1. destruct (adj e !! x); simpl; [|done].
        by rewrite <-app_assoc.
    + intros Hd. apply IH2. intros n' d Hin. apply Hd. by right.
  - split; [done |]. intros Hd. specialize (D2 ltac:(intros d; apply Hd; by left)). done.
Qed.

(** *** Kahn's loop *)

Lemma succs_elem nodes x y :
  y ∈ succs nodes x <-> exists n, n ∈ nodes /\ node_id n = y /\ x ∈ depends_on n.
Proof.
  unfold succs. rewrite list_elem_of_bind. split.
  - intros (n & Hy & Hn). apply elem_of_replicate in Hy as [-> Hc]. exists n.
    split; [done |]. split; [done |]. apply count_pos. lia.
  - intros (n & Hn & <- & Hx). exists n. split; [|done]. apply elem_of_replicate.
    split; [done |]. apply count_pos in Hx. lia.
Qed.

Lemma succs_cons a l x :
  succs (a :: l) x = replicate (count x (depends_on a)) (node_id a) ++ succs l x.
Proof. done. Qed.

Lemma count_succs nodes x n :
  NoDup (map node_id nodes) -> n ∈ nodes ->
  count (node_id n) (succs nodes x) = count x (depends_on n).
Proof.
  induction nodes as [|a l IH]; intros Hnd Hn; [by apply elem_of_nil in Hn |].
  simpl in Hnd. apply NoDup_cons in Hnd as [Ha Hnd].
  rewrite succs_cons, count_app, count_replicate.
  destruct (str_eqb (node_id n) (node_id a)) eqn:E.
  - apply str_eqb_eq in E. apply elem_of_cons in Hn as [->|Hn].
    + destruct (count (node_id a) (succs l x)) eqn:Ec; [lia |]. exfalso. apply Ha.
      assert (node_id a ∈ succs l x) as Hin by (apply count_pos; lia).
      apply succs_elem in Hin as (m & Hm & <- & _). by apply list_elem_of_fmap_2.
    + exfalso. apply Ha. rewrite <-E. by apply list_elem_of_fmap_2.
  - apply str_eqb_neq in E. apply elem_of_cons in Hn as [->|Hn]; [done |].
    simpl. by apply IH.
Qed.

Section Kahn.
Variable nodes : list TaskNode.
Variable by_id : gmap str TaskNode.
Variable adj_ : gmap str (list str).
Hypothesis ids_distinct : NoDup (map node_id nodes).
Hypothesis by_id_spec : forall x n, by_id !! x = Some n <-> n ∈ nodes /\ node_id n = x.
Hypothesis deps_known : forall n d, n ∈ nodes -> d ∈ depends_on n -> is_Some (by_id !! d).
Hypothesis adj_spec : forall n, n ∈ nodes -> adj_ !! node_id n = Some (succs nodes (node_id n)).

Lemma same_id n n' : n ∈ nodes -> n' ∈ nodes -> node_id n = node_id n' -> n = n'.
Proof.
  intros Hn Hn' He. assert (by_id !! node_id n = Some n) as H1 by (by apply by_id_spec).
  assert (by_id !! node_id n = Some n') as H2 by (by apply by_id_spec). congruence.
Qed.

(** The dependencies that are not processed yet. *)
Definition pending (P : list str) (n : TaskNode) : list str :=
  List.filter (fun d => negb (bool_decide (d ∈ P))) (depends_on n).

Record kahn_inv (P : list str) (deg : gmap str Z) (queue : list str) : Prop := {
  k_nodup : NoDup (P ++ queue);
  k_known : forall x, x ∈ P -> x ∈ map node_id nodes;
  k_deg : forall n, n ∈ nodes -> deg !! node_id n = Some (Z.of_nat (length (pending P n)));
  k_queue : forall x, x ∈ queue <->
    exists n, n ∈ nodes /\ node_id n = x /\ (x ∉ P) /\ pending P n = [];
  k_order : forall i x n d, P !! i = Some x -> n ∈ nodes -> node_id n = x -> d ∈ depends_on n ->
    exists j, j < i /\ P !! j = Some d
}.

Lemma pending_nil P n : pending P n = [] <-> forall d, d ∈ depends_on n -> d ∈ P.
Proof.
  unfold pending. split.
  - intros Hp d Hd. destruct (decide (d ∈ P)) as [|Hn]; [done |]. exfalso.
    assert (d ∈ List.filter (fun d => negb (bool_decide (d ∈ P))) (depends_on n)) as Hin.
    { apply list_elem_of_In, filter_In. split; [by apply list_elem_of_In |].
      by rewrite bool_decide_eq_false_2. }
    rewrite Hp in Hin. by apply elem_of_nil in Hin.
  - intros Ha. destruct (List.filter _ _) as [|d l] eqn:E; [done |].
    assert (d ∈ List.filter (fun d => negb (bool_decide (d ∈ P))) (depends_on n)) as Hin
      by (rewrite E; by left).
    apply list_elem_of_In, filter_In in Hin as [Hd%list_elem_of_In Hb].
    rewrite bool_decide_eq_true_2 in Hb by auto. done.
Qed.

(** Processing [x] removes its occurrences from the pending dependencies. *)
Lemma pending_snoc P x n :
  x ∉ P -> length (pending (P ++ [x]) n) + count x (depends_on n) = length (pending P n).
Proof.
  intros Hx. unfold pending. induction (depends_on n) as [|d l IH]; [done |].
  rewrite count_cons. simpl. destruct (str_eqb x d) eqn:E.
  - apply str_eqb_eq in E as <-. rewrite (bool_decide_eq_false_2 (x ∈ P)) by done.
    rewrite bool_decide_eq_true_2 by (apply elem_of_app; right; by left). simpl. lia.
  - apply str_eqb_neq in E. destruct (decide (d ∈ P)) as [Hd|Hd].
    + rewrite !bool_decide_eq_true_2 by (try apply elem_of_app; auto). simpl. lia.
    + rewrite !bool_decide_eq_false_2; [simpl; lia | done |].
      rewrite elem_of_app, list_elem_of_singleton. intros [?| ->]; done.
Qed.

Lemma kahn_step P deg x queue :
  kahn_inv P deg (x :: queue) ->
  let '(deg', queue') := relax (succs nodes x) deg queue in
  kahn_inv (P ++ [x]) deg' queue'.
Proof.
  intros [K1 K2 K3 K4 K5].
  destruct (proj1 (K4 x) ltac:(by left)) as (nx & Hnx & Hidx & HxP & Hpx).
  apply NoDup_app in K1 as (HndP & Hdis & Hndq). apply NoDup_cons in Hndq as [Hxq Hndq].
  assert (forall n d, n ∈ nodes -> node_id n ∈ P -> d ∈ depends_on n -> d ∈ P) as HPdeps.
  { intros n d Hn Hin Hd. apply list_elem_of_lookup in Hin as [i Hi].
    destruct (K5 i _ n d Hi Hn eq_refl Hd) as (j & _ & Hj). by eapply list_elem_of_lookup_2. }
  pose proof (relax_spec (succs nodes x) deg queue) as Hr.
  destruct (relax (succs nodes x) deg queue) as [deg' queue']. destruct Hr as (R1 & R2 & R3).
  - intros y (n & Hn & <- & Hx)%succs_elem. exists (Z.of_nat (length (pending P n))).
    split; [by apply K3 |]. rewrite count_succs by done.
    pose proof (pending_snoc P x n HxP). lia.
  - intros y Hy (n & Hn & <- & Hx)%succs_elem.
    destruct (proj1 (K4 (node_id n)) ltac:(by right)) as (n' & Hn' & He & _ & Hp).
    apply same_id in He as ->; [|done|done]. rewrite pending_nil in Hp. by apply HxP, Hp.
  - done.
  - assert (forall y, y ∈ queue' <-> exists n, n ∈ nodes /\ node_id n = y /\ (y ∉ P ++ [x])
              /\ pending (P ++ [x]) n = []) as Hq.
    { intros y. rewrite R3. split.
      - intros [Hy|[(n & Hn & <- & Hx)%succs_elem Hc]].
        + destruct (proj1 (K4 y) ltac:(by right)) as (n & Hn & He & HyP & Hp).
          exists n. split; [done |]. split; [done |]. split.
          * rewrite not_elem_of_app, list_elem_of_singleton. split; [done |]. by intros ->.
          * rewrite pending_nil in *. intros d Hd. apply elem_of_app. left. auto.
        + exists n. split; [done |]. split; [done |]. split.
          * rewrite not_elem_of_app, list_elem_of_singleton. split.
            -- intros Hin. by apply HxP, (HPdeps n).
            -- intros He. rewrite <-Hidx in He. apply same_id in He as ->; [|done|done].
               rewrite pending_nil in Hpx. by apply HxP, Hpx.
          * rewrite K3, count_succs in Hc by done. injection Hc as Hc.
            pose proof (pending_snoc P x n HxP). destruct (pending (P ++ [x]) n); [done | simpl in *; lia].
      - intros (n & Hn & <- & HnP & Hp). rewrite not_elem_of_app, list_elem_of_singleton in HnP.
        destruct HnP as [HnP Hne]. pose proof (pending_snoc P x n HxP) as Hs. rewrite Hp in Hs.
        destruct (decide (x ∈ depends_on n)) as [Hx|Hx].
        + right. split; [apply succs_elem; eauto |]. rewrite K3, count_succs by done.
          f_equal. simpl in Hs. lia.
        + left. assert (node_id n ∈ x :: queue) as Hin.
          { apply K4. exists n. split_and!; try done. rewrite pending_nil in *. intros d Hd.
            specialize (Hp d Hd). apply elem_of_app in Hp as [Hp|Hp]; [done |].
            apply list_elem_of_singleton in Hp as ->. done. }
          apply elem_of_cons in Hin as [He|Hin]; [|done]. done. }
    split.
    + apply NoDup_app. split; [apply NoDup_app; split; [done | split; [|apply NoDup_singleton]] |].
      * intros y Hy ->%list_elem_of_singleton. done.
      * split; [|done]. intros y Hy Hyq. apply Hq in Hyq as (_ & _ & _ & Hn & _). done.
    + intros y [Hy| ->%list_elem_of_singleton]%elem_of_app; [by apply K2 |].
      rewrite <-Hidx. by apply list_elem_of_fmap_2.
    + intros n Hn. rewrite R1, K3, count_succs by done. simpl. f_equal.
      pose proof (pending_snoc P x n HxP). lia.
    + exact Hq.
    + intros i y n d Hi Hn He Hd. apply lookup_app_Some in Hi as [Hi|[Hlen Hi]].
      * destruct (K5 i y n d Hi Hn He Hd) as (j & Hj & Hl). exists j. split; [done |].
        by apply lookup_app_l_Some.
      * apply list_lookup_singleton_Some in Hi as [Hi ->].
        rewrite <-Hidx in He. apply same_id in He as ->; [|done|done].
        rewrite pending_nil in Hpx. specialize (Hpx d Hd).
        apply list_elem_of_lookup in Hpx as [j Hj]. exists j.
        pose proof (lookup_lt_Some _ _ _ Hj). split; [lia |]. by apply lookup_app_l_Some.
Qed.

Lemma kahn_bound P deg queue :
  kahn_inv P deg queue -> length P + length queue <= length nodes.
Proof.
  intros [K1 K2 _ K4 _]. rewrite <-length_app, <-(length_map node_id nodes).
  apply NoDup_incl_length; [by apply NoDup_ListNoDup |].
  intros x Hx%list_elem_of_In. apply list_elem_of_In.
  apply elem_of_app in Hx as [Hx|Hx]; [by apply K2 |].
  apply K4 in Hx as (n & Hn & <- & _). by apply list_elem_of_fmap_2.
Qed.

Lemma kahn_correct fuel P deg queue sorted :
  kahn_inv P deg queue -> map node_id sorted = P -> (forall n, n ∈ sorted -> n ∈ nodes) ->
  length nodes <= fuel + length P ->
  let s := kahn by_id adj_ fuel deg queue sorted in
  (exists deg', kahn_inv (map node_id s) deg' []) /\ forall n, n ∈ s -> n ∈ nodes.
Proof.
  revert P deg queue sorted. induction fuel as [|fuel IH]; intros P deg queue sorted Hinv Hm Hs Hf.
  - simpl. pose proof (kahn_bound P deg queue Hinv). split; [|done]. exists deg.
    destruct queue; [by rewrite Hm | simpl in *; lia].
  - cbn [kahn]. destruct queue as [|x queue]; [split; [exists deg; by rewrite Hm | done] |].
    destruct (proj1 (k_queue _ _ _ Hinv x) ltac:(by left)) as (n & Hn & Hid & _).
    assert (by_id !! x = Some n) as -> by (by apply by_id_spec).
    assert (adj_ !! x = Some (succs nodes x)) as -> by (rewrite <-Hid; by apply adj_spec).
    pose proof (kahn_step P deg x queue Hinv) as Hstep.
    destruct (relax (succs nodes x) deg queue) as [deg' queue'].
    apply (IH (P ++ [x])); [done | | |].
    + by rewrite map_app, Hm, <-Hid.
    + intros m [Hm'| ->%list_elem_of_singleton]%elem_of_app; [by apply Hs | done].
    + rewrite length_app. simpl. lia.
Qed.

(** When the queue is empty, an order of the tasks would have been followed to its
    end. *)
Lemma stuck_no_order P deg order :
  kahn_inv P deg [] -> Permutation order nodes -> dep_ordered order ->
  forall n, n ∈ nodes -> node_id n ∈ P.
Proof.
  intros Hinv Hp Ho.
  assert (forall i n, order !! i = Some n -> node_id n ∈ P) as Hall.
  { intros i. induction i as [i IH] using lt_wf_ind. intros n Hi.
    destruct (decide (node_id n ∈ P)) as [|Hn]; [done |]. exfalso.
    apply (not_elem_of_nil (node_id n)). apply (k_queue _ _ _ Hinv).
    exists n. split; [rewrite <-Hp; by eapply list_elem_of_lookup_2 |]. split; [done |].
    split; [done |]. apply pending_nil. intros d Hd.
    destruct (Ho i n d Hi Hd) as (j & m & Hlt & Hj & <-). by eapply IH. }
  intros n Hn. rewrite <-Hp in Hn. apply list_elem_of_lookup in Hn as [i Hi]. eauto.
Qed.
End Kahn.

Lemma foldl_insert_lookup {A} (f : TaskNode -> A) (nodes : list TaskNode) (m : gmap str A) x v :
  (forall n, n ∈ nodes -> node_id n = x -> f n = v) -> x ∈ map node_id nodes ->
  foldl (fun m n => <[node_id n := f n]> m) m nodes !! x = Some v.
Proof.
  revert m. induction nodes as [|n nodes IH] using rev_ind; intros m Hf Hx.
  - by apply elem_of_nil in Hx.
  - rewrite foldl_snoc. destruct (decide (node_id n = x)) as [<-|Hne].
    + rewrite lookup_insert_eq. f_equal. apply Hf; [|done]. apply elem_of_app. right. by left.
    + rewrite lookup_insert_ne by done. apply IH.
      * intros n' Hin. apply Hf. apply elem_of_app. by left.
      * rewrite map_app in Hx. apply elem_of_app in Hx as [Hx|Hx]; [done |].
        apply list_elem_of_singleton in Hx. congruence.
Qed.

Lemma degree_sum_node nodes n :
  NoDup (map node_id nodes) -> n ∈ nodes -> degree_sum nodes (node_id n) = length (depends_on n).
Proof.
  unfold degree_sum. induction nodes as [|a l IH]; intros Hnd Hn; [by apply elem_of_nil in Hn |].
  simpl in *. apply NoDup_cons in Hnd as [Ha Hnd].
  assert (forall m, node_id m ∉ map node_id l ->
            sum_list (map (fun k => if str_eqb (node_id m) (node_id k) then length (depends_on k) else 0) l) = 0)
    as Hz.
  { clear. intros m. induction l as [|k l IH]; simpl; [done |].
    intros [H1 H2]%not_elem_of_cons. rewrite (proj2 (str_eqb_neq _ _) H1), IH by done. done. }
  apply elem_of_cons in Hn as [->|Hn].
  - rewrite str_eqb_refl, Hz by done. lia.
  - assert (node_id n <> node_id a) as Hne.
    { intros He. apply Ha. rewrite <-He. by apply list_elem_of_fmap_2. }
    rewrite (proj2 (str_eqb_neq _ _) Hne). by apply IH.
Qed.

Section SortCorrect.
Variable hash_order : list str -> list str.
Hypothesis hash_order_perm : forall l, Permutation (hash_order l) l.

(** The state in which the loop starts. *)
Lemma initial_inv nodes by_id e :
  build_by_id nodes ∅ = Ok by_id -> add_edges by_id nodes (no_edges nodes) = Ok e ->
  (forall x n, by_id !! x = Some n <-> n ∈ nodes /\ node_id n = x)
  /\ (forall n, n ∈ nodes -> adj e !! node_id n = Some (succs nodes (node_id n)))
  /\ kahn_inv nodes [] (in_degree e)
       (List.filter (fun k => bool_decide (in_degree e !! k = Some 0%Z)) (hash_order (map node_id nodes))).
Proof.
  intros Hb He. apply build_by_id_spec in Hb as (Hnd & _ & Hl).
  apply add_edges_spec in He as (Hd & Hdeg & Hadj).
  assert (forall x n, by_id !! x = Some n <-> n ∈ nodes /\ node_id n = x) as Hby.
  { intros x n. rewrite Hl. split.
    - destruct (list_find _ nodes) as [[k m]|] eqn:E; [|by rewrite lookup_empty].
      intros [= <-]. apply list_find_Some in E as (Hk & Hx & _).
      split; [by eapply list_elem_of_lookup_2 | done].
    - intros [Hn Hx]. destruct (list_find _ nodes) as [[k m]|] eqn:E.
      + apply list_find_Some in E as (Hk & Hx' & _). f_equal.
        apply list_elem_of_lookup in Hn as [i Hi]. assert (i = k) as ->; [|congruence].
        eapply (NoDup_lookup (map node_id nodes) i k x Hnd);
          rewrite list_lookup_fmap; [rewrite Hi | rewrite Hk]; simpl; congruence.
      + apply list_find_None in E. rewrite Forall_forall in E. by destruct (E n Hn). }
  assert (forall n, n ∈ nodes -> in_degree e !! node_id n = Some (Z.of_nat (length (pending [] n)))) as Hdn.
  { intros n Hn. rewrite Hdeg. unfold no_edges. cbn [in_degree].
    rewrite (foldl_insert_lookup (fun _ => 0%Z) nodes ∅ _ 0%Z);
      [|done|by apply list_elem_of_fmap_2]. simpl. f_equal.
    rewrite degree_sum_node by done. unfold pending. f_equal.
    clear. induction (depends_on n) as [|d l IH]; [done |]. cbn [List.filter].
    rewrite bool_decide_eq_false_2 by apply not_elem_of_nil. cbn [negb length]. lia. }
  split; [done |]. split.
  - intros n Hn. rewrite Hadj. unfold no_edges. cbn [adj].
    rewrite (foldl_insert_lookup (fun _ => []) nodes ∅ _ []);
      [done|done|by apply list_elem_of_fmap_2].
  - split.
    + simpl. apply NoDup_ListNoDup, List.NoDup_filter, NoDup_ListNoDup. by rewrite hash_order_perm.
    + intros x Hx. by apply elem_of_nil in Hx.
    + done.
    + intros x. rewrite list_elem_of_In, filter_In, <-list_elem_of_In, hash_order_perm. split.
      * intros [Hx Hz]. to_prop. apply list_elem_of_fmap in Hx as (n & -> & Hn).
        exists n. split; [done |]. split; [done |]. split; [apply not_elem_of_nil |].
        rewrite Hdn in Hz by done. injection Hz as Hz. destruct (pending [] n); [done | simpl in Hz; lia].
      * intros (n & Hn & <- & _ & Hp). split; [by apply list_elem_of_fmap_2 |].
        apply bool_decide_eq_true. rewrite Hdn, Hp by done. done.
    + intros i x n d Hi. by rewrite lookup_nil in Hi.
Qed.

Lemma topological_sort_sound nodes sorted :
  topological_sort hash_order nodes = Ok sorted ->
  Permutation sorted nodes /\ dep_ordered sorted /\ NoDup (map node_id nodes).
Proof.
  unfold topological_sort. intros (by_id & Eb & (e & Ee & H1)%result_bind_Ok)%result_bind_Ok.
  destruct (build_by_id_spec nodes ∅) as [B1 _].
  destruct (add_edges_spec by_id nodes (no_edges nodes)) as [A1 _].
  destruct (initial_inv nodes by_id e Eb Ee) as (Hby & Hadj & Hinit).
  destruct (B1 by_id Eb) as (Hnd & _). destruct (A1 e Ee) as (Hd & _).
  destruct (kahn_correct nodes by_id (adj e) Hnd Hby Hadj (length nodes) [] (in_degree e) _ []
              Hinit eq_refl) as [[deg' Hk] Hsub]; [by intros n ?%elem_of_nil | simpl; lia |].
  destruct (_ =? _) eqn:El; [|done]. injection H1 as <-. set (s := kahn _ _ _ _ _ _) in *.
  pose proof (k_nodup _ _ _ _ Hk) as HndP. rewrite app_nil_r in HndP.
  apply Nat.eqb_eq in El. split; [|split; [|done]].
  - apply submseteq_length_Permutation; [|lia]. apply NoDup_submseteq; [|done].
    by apply (NoDup_fmap_1 node_id).
  - intros i n d Hi Hdep.
    destruct (k_order _ _ _ _ Hk i (node_id n) n d) as (j & Hj & Hl);
      [by rewrite list_lookup_fmap, Hi | apply Hsub; by eapply list_elem_of_lookup_2 | done | done |].
    rewrite list_lookup_fmap in Hl. apply fmap_Some in Hl as (m & Hm & ->). eauto.
Qed.

(** Tasks that can be ordered pass the checks on the edges. *)
Lemma orderable_edges nodes by_id order :
  build_by_id nodes ∅ = Ok by_id -> Permutation order nodes -> dep_ordered order ->
  is_ok (add_edges by_id nodes (no_edges nodes)) = true.
Proof.
  intros Eb Hp Ho. destruct (add_edges_spec by_id nodes (no_edges nodes)) as [_ A2].
  destruct (build_by_id_spec nodes ∅) as [B1 _]. destruct (B1 by_id Eb) as (Hnd & _ & Hl).
  apply A2. intros n d Hn Hdep.
  assert (exists i, order !! i = Some n) as [i Hi]
    by (apply list_elem_of_lookup; by rewrite Hp).
  destruct (Ho i n d Hi Hdep) as (j & m & Hj & Hm & <-).
  assert (m ∈ nodes) as Hmn by (rewrite <-Hp; by eapply list_elem_of_lookup_2). split.
  - intros He. assert (j = i) as ->; [|lia].
    eapply (NoDup_lookup (map node_id order) j i (node_id m)); [by rewrite Hp | |];
      rewrite list_lookup_fmap; [by rewrite Hm | rewrite Hi; simpl; congruence].
  - rewrite Hl. destruct (list_find _ nodes) as [[k t]|] eqn:E; [done |].
    apply list_find_None in E. rewrite Forall_forall in E. by destruct (E m Hmn).
Qed.

Lemma topological_sort_complete nodes order :
  NoDup (map node_id nodes) -> Permutation order nodes -> dep_ordered order ->
  exists sorted, topological_sort hash_order nodes = Ok sorted.
Proof.
  intros Hnd Hp Ho. unfold topological_sort. destruct (build_by_id_spec nodes ∅) as [_ B2].
  specialize (B2 Hnd ltac:(intros; apply lookup_empty)).
  destruct (build_by_id nodes ∅) as [by_id|err] eqn:Eb; [|done]. simpl.
  pose proof (orderable_edges nodes by_id order Eb Hp Ho) as Hok.
  destruct (add_edges by_id nodes (no_edges nodes)) as [e|err] eqn:Ee; [|done]. simpl.
  destruct (initial_inv nodes by_id e Eb Ee) as (Hby & Hadj & Hinit).
  destruct (kahn_correct nodes by_id (adj e) Hnd Hby Hadj (length nodes) [] (in_degree e) _ []
              Hinit eq_refl) as [[deg' Hk] Hsub]; [by intros n ?%elem_of_nil | simpl; lia |].
  set (s := kahn _ _ _ _ _ _) in *. pose proof (kahn_bound _ _ _ _ Hk) as Hbound.
  pose proof (stuck_no_order nodes _ _ order Hk Hp Ho) as Hall.
  rewrite length_map in Hbound. simpl in Hbound.
  assert (length (map node_id nodes) <= length (map node_id s)) as Hle.
  { apply NoDup_incl_length; [by apply NoDup_ListNoDup |].
    intros x Hx%list_elem_of_In. apply list_elem_of_In.
    apply list_elem_of_fmap in Hx as (n & -> & Hn). by apply Hall. }
  rewrite !length_map in Hle. rewrite (proj2 (Nat.eqb_eq _ _)) by lia. eauto.
Qed.

(** C24.  [topological_sort] is correct and complete for every iteration order of
    its hash maps: the result is a rearrangement of the tasks in which every
    dependency comes before the tasks that need it, and an error is returned only
    when the ids are not distinct or no such order exists. *)
Theorem topological_sort_spec nodes :
  match topological_sort hash_order nodes with
  | Ok sorted => Permutation sorted nodes /\ dep_ordered sorted
  | Err _ => ~ (NoDup (map node_id nodes) /\
                exists order, Permutation order nodes /\ dep_ordered order)
  end.
Proof.
  destruct (topological_sort hash_order nodes) as [sorted|err] eqn:E.
  - apply topological_sort_sound in E as (H1 & H2 & _). done.
  - intros [Hnd (order & Hp & Ho)].
    destruct (topological_sort_complete nodes order Hnd Hp Ho) as [s Hs]. congruence.
Qed.
End SortCorrect.

(** ** Parsing model output *)

(** The text between a code fence and the next one, for the expression
    [```(?:json)?\s*\n?([\s\S]*?)```]: the optional [json] and the white space after
    the first fence are skipped, the rest is taken up to the first closing fence. *)
Definition fence : str := "```".

Definition fence_capture (s : str) : option str :=
  match find_sub fence s with
  | None => None
  | Some i =>
      let body := drop (i + 3) s in
      let body := if starts_with body "json" then drop 4 body else body in
      let body := trim_start body in
      match find_sub fence body with
      | Some j => Some (take j body)
      | None => None
      end
  end.

(** The bracket heuristic. *)
Definition cut_start (s : str) : str :=
  match find_sub "[{" s with
  | Some i => if 0 <? i then drop i s else s
  | None => match find_sub "[" s with
            | Some i => if 0 <? i then drop i s else s
            | None => s
            end
  end.
Definition cut_end (s : str) : str :=
  match rfind_sub "}]" s with
  | Some i => if 0 <? i then take (i + 2) s else s
  | None => match rfind_sub "]" s with
            | Some i => if (0 <? i) && (i <? length s - 1) then take (i + 1) s else s
            | None => s
            end
  end.

Definition valid_complexities : list str :=
  [lit "trivial"; lit "simple"; lit "moderate"; lit "complex"].
Definition valid_languages : list str :=
  [lit "typescript"; lit "javascript"; lit "python"; lit "shell"; lit "cpp"; lit "c";
   lit "rust"; lit "go"; lit "sql"; lit "text"].

Definition get_text (t : json) (key : str) : option str := json_get t key ≫= as_str.

(** [a.iter().map(|v| v.as_str().unwrap_or("").to_string())]. *)
Definition texts_of (a : list json) : list str := map (fun v => unwrap_or [] (as_str v)) a.

Definition parse_task (i : nat) (t : json) (ids : gset str) : result (TaskNode * gset str) str :=
  let id_ := unwrap_or (lit "task-" ++ show_nat (i + 1)) (get_text t "id") in
  if decide (id_ ∈ ids) then Err (lit "Duplicate task id: " ++ id_) else
  let complexity := unwrap_or (lit "moderate") (get_text t "estimatedComplexity") in
  if negb (existsb (str_eqb complexity) valid_complexities)
  then Err (lit "Invalid complexity " ++ dquote ++ complexity ++ dquote ++ lit " in task " ++ id_)
  else
    let lang := unwrap_or (lit "text") (get_text t "language") in
    Ok (mkNode id_
          (take 500 (unwrap_or [] (get_text t "description")))
          (if existsb (str_eqb lang) valid_languages then lang else lit "text")
          (match json_get t "dependsOn" ≫= as_array with Some a => texts_of a | None => [] end)
          complexity
          (match json_get t "outputFiles" ≫= as_array with
           | Some a => texts_of (take 20 a)
           | None => []
           end)
          (take 200 (unwrap_or [] (get_text t "verificationHint"))),
        {[id_]} ∪ ids).

Fixpoint parse_tasks (i : nat) (l : list json) (ids : gset str) : result (list TaskNode) str :=
  match l with
  | [] => Ok []
  | t :: l' =>
      let? (n, ids') := parse_task i t ids in
      let? rest := parse_tasks (S i) l' ids' in
      Ok (n :: rest)
  end.

Section Parse.
Variable hash_order : list str -> list str.
(** [serde_json::from_str] with the text of its error. *)
Variable json_parse : str -> result json str.

Definition parse_decomposition (raw : str) : result DecompositionResult str :=
  let s0 := trim raw in
  let s1 := match fence_capture s0 with Some c => trim c | None => s0 end in
  let s2 := cut_end (cut_start s1) in
  let? parsed := match json_parse s2 with
                 | Ok v => Ok v
                 | Err e => Err (lit "Failed to parse decomposition JSON: " ++ e)
                 end in
  let? arr := ok_or (as_array parsed) (lit "Decomposition output must be a JSON array") in
  if decide (arr = []) then Err (lit "Decomposition produced zero subtasks") else
  let? nodes := parse_tasks 0 arr ∅ in
  if MAX_SUBTASKS <? length nodes
  then Err (lit "Decomposition produced " ++ show_nat (length nodes)
            ++ lit " subtasks; maximum is " ++ show_nat MAX_SUBTASKS)
  else
    let? sorted := topological_sort hash_order nodes in
    let with_deps := length (List.filter (fun n => negb (bool_decide (depends_on n = []))) sorted) in
    Ok (mkDecomposition [] sorted
          (Z.of_nat (length sorted) * 400
           + foldr (fun n acc => Z.of_nat (byte_len (description n)) + acc) 0 sorted)%Z
          (lit "Decomposed into " ++ show_nat (length sorted) ++ lit " subtasks ("
           ++ show_nat with_deps ++ lit " with dependencies)")).

(** ** The model call *)

(** The fields that are set; the others keep their defaults. *)
Record TaskBrief := mkBrief {
  template : str;
  brief_description : str;
  variables : json
}.

(** [client.execute], the store's [write_decomposition] (whose outcome is
    ignored), [serde_json::to_value] and [detect_task_profile]. *)
Variable W : Type.
Variable execute : TaskBrief -> W -> result str str * W.
Variable write_decomposition : str -> str -> list json -> str -> W -> W.
Variable to_value : TaskNode -> json.
Variable profile_language : str -> str.
Variable profile_default_file : str -> str.
Variable now_millis : W -> Z.

Definition decompose_brief (task_description extra : str) : TaskBrief :=
  mkBrief "task-decompose" (task_description ++ extra)
    (JObj [(lit "defaultFile", JStr (profile_default_file task_description));
           (lit "language", JStr (profile_language task_description))]).

Definition retry_suffix : str :=
  [10%N; 10%N] ++ lit "---" ++ [10%N]
  ++ lit "Your previous output could not be parsed as valid JSON. Output ONLY a JSON array, no markdown, no explanation.".

Definition finish (has_memory : bool) (task_id task_description : str) (dr : DecompositionResult)
    (wd : W) : DecompositionResult * W :=
  (mkDecomposition task_description (tasks dr) (total_estimated_tokens dr) (rationale dr),
   if has_memory
   then write_decomposition task_id task_description (map to_value (tasks dr))
          (profile_language task_description) wd
   else wd).

Definition decompose_task (has_memory : bool) (task_id_opt : option str) (task_description : str)
    (wd : W) : result DecompositionResult str * W :=
  let task_id := unwrap_or (lit "decomp-" ++ show_Z (now_millis wd)) task_id_opt in
  match execute (decompose_brief task_description []) wd with
  | (Err e, wd1) => (Err e, wd1)
  | (Ok content, wd1) =>
      match parse_decomposition content with
      | Ok dr => let '(dr', wd2) := finish has_memory task_id task_description dr wd1 in (Ok dr', wd2)
      | Err _ =>
          match execute (decompose_brief task_description retry_suffix) wd1 with
          | (Err e, wd2) => (Err e, wd2)
          | (Ok content2, wd2) =>
              match parse_decomposition content2 with
              | Err e => (Err (lit "Decomposition failed after retry: " ++ e), wd2)
              | Ok dr =>
                  let '(dr', wd3) := finish has_memory task_id task_description dr wd2 in (Ok dr', wd3)
              end
          end
      end
  end.

(** ** Executing a decomposition *)

Record SubtaskExecutionResult := mkSubtask {
  sub_node_id : str;
  sub_ok : bool;
  sub_description : str;
  sub_language : str;
  duration_ms : Z;
  tokens_used : Z;
  verdict : option str;
  sub_error : option str;
  sub_files : option (list str)
}.

Record DecompositionExecutionResult := mkExecution {
  ex_root_task : str;
  results : list SubtaskExecutionResult;
  total_subtasks : Z;
  succeeded_count : Z;
  failed_count : Z;
  ex_total_tokens : Z;
  total_duration_ms : Z
}.

(** [delegate.delegate] on a task with this id and description. *)
Variable delegate : str -> str -> W -> result DelegationResult str * W.

(** The first dependency that stops a task, if any. *)
Fixpoint skip_reason (completed : gmap str SubtaskExecutionResult) (n : TaskNode)
    (deps : list str) : option str :=
  match deps with
  | [] => None
  | dep :: deps' =>
      match completed !! dep with
      | None => Some (lit "Dependency " ++ dep ++ lit " for task " ++ node_id n ++ lit " was not found")
      | Some r => if sub_ok r then skip_reason completed n deps'
                  else Some (lit "Skipped: dependency " ++ dep ++ lit " failed")
      end
  end.

Definition skipped_result (n : TaskNode) (reason : str) : SubtaskExecutionResult :=
  mkSubtask (node_id n) false (description n) (language n) 0 0 None (Some reason) None.

(** Delegate once, and once more under another id when the first call fails. *)
Definition delegate_with_retry (task_id : str) (n : TaskNode) (wd : W)
  : result DelegationResult str * W :=
  match delegate (task_id ++ lit "--" ++ node_id n) (description n) wd with
  | (Ok r, wd1) => (Ok r, wd1)
  | (Err _, wd1) => delegate (task_id ++ lit "--" ++ node_id n ++ lit "-r") (description n) wd1
  end.

Definition subtask_result (n : TaskNode) (r : result DelegationResult str) (elapsed : Z)
  : SubtaskExecutionResult :=
  match r with
  | Ok d =>
      let v := overall_or "unknown" (packet d) in
      mkSubtask (node_id n) (str_eqb v "pass" || str_eqb v "warn") (description n) (language n)
        elapsed (total_tokens (emission d)) (Some v) None None
  | Err e => mkSubtask (node_id n) false (description n) (language n) elapsed 0 None (Some e) None
  end.

Definition tokens_of (r : result DelegationResult str) : Z :=
  match r with Ok d => total_tokens (emission d) | Err _ => 0%Z end.

(** The loop over the ordered tasks. *)
Fixpoint run_nodes (task_id : str) (nodes : list TaskNode)
    (completed : gmap str SubtaskExecutionResult) (tokens : Z) (wd : W)
  : list SubtaskExecutionResult * Z * W :=
  match nodes with
  | [] => ([], tokens, wd)
  | n :: nodes' =>
      match skip_reason completed n (depends_on n) with
      | Some reason =>
          let sr := skipped_result n reason in
          let '(rs, tk, wd') := run_nodes task_id nodes' (<[node_id n := sr]> completed) tokens wd in
          (sr :: rs, tk, wd')
      | None =>
          let sub_started := now_millis wd in
          let '(r, wd1) := delegate_with_retry task_id n wd in
          let sr := subtask_result n r (i64_sub (now_millis wd1) sub_started) in
          let '(rs, tk, wd') :=
            run_nodes task_id nodes' (<[node_id n := sr]> completed) (i64_add tokens (tokens_of r)) wd1 in
          (sr :: rs, tk, wd')
      end
  end.

(** [memory.recall_decomposition]: an error, nothing, or the stored description and
    tasks; [from_value] is serde. *)
Variable recall : str -> result (option (str * list json)) str.
Variable from_value : json -> option TaskNode.

Definition execute_decomposition (task_id : str) (wd : W)
  : result DecompositionExecutionResult str * W :=
  match recall task_id with
  | Err e => (Err (lit "recall failed: " ++ e), wd)
  | Ok None => (Err (lit "No decomposition found for taskId: " ++ task_id), wd)
  | Ok (Some (desc, stored)) =>
      if decide (stored = []) then (Err (lit "No decomposition found for taskId: " ++ task_id), wd) else
      let tasks_ := omap from_value stored in
      if decide (tasks_ = []) then (Err (lit "Stored decomposition has no parseable tasks"), wd) else
      match topological_sort hash_order tasks_ with
      | Err e => (Err (lit "Stored decomposition has invalid dependency graph: " ++ e), wd)
      | Ok ordered =>
          let started_at := now_millis wd in
          let '(rs, tokens, wd') := run_nodes task_id ordered ∅ 0 wd in
          let succeeded := Z.of_nat (length (List.filter sub_ok rs)) in
          (Ok (mkExecution desc rs (Z.of_nat (length ordered)) succeeded
                 (Z.of_nat (length ordered) - succeeded) tokens (i64_sub (now_millis wd') started_at)), wd')
      end
  end.
End Parse.

(** ** Properties *)

Lemma known_language lang :
  (if existsb (str_eqb lang) valid_languages then lang else lit "text") ∈ valid_languages.
Proof.
  destruct (existsb (str_eqb lang) valid_languages) eqn:El.
  - apply existsb_elem in El as (x & Hx & ->%str_eqb_eq). done.
  - apply (bool_decide_unpack _). vm_compute. exact I.
Qed.

Lemma parse_task_spec i t ids n ids' :
  parse_task i t ids = Ok (n, ids') ->
  ids' = {[node_id n]} ∪ ids /\ (node_id n ∉ ids)
  /\ estimated_complexity n ∈ valid_complexities /\ language n ∈ valid_languages
  /\ length (description n) <= 500 /\ length (output_files n) <= 20
  /\ length (verification_hint n) <= 200.
Proof.
  unfold parse_task. case_decide as Hid; [done |].
  destruct (existsb _ valid_complexities) eqn:Ec; [|done]. cbn [negb]. intros [= <- <-].
  cbn [node_id estimated_complexity language description output_files verification_hint].
  split; [done |]. split; [done |]. split.
  { apply existsb_elem in Ec as (x & Hx & ->%str_eqb_eq). done. }
  split; [exact (known_language _) |].
  split; [rewrite length_take; lia |]. split; [|rewrite length_take; lia].
  destruct (json_get t "outputFiles" ≫= as_array); [|simpl; lia].
  unfold texts_of. rewrite length_map, length_take. lia.
Qed.

Definition well_formed_task (n : TaskNode) : Prop :=
  estimated_complexity n ∈ valid_complexities /\ language n ∈ valid_languages
  /\ length (description n) <= 500 /\ length (output_files n) <= 20
  /\ length (verification_hint n) <= 200.

Lemma parse_tasks_spec i l ids ns :
  parse_tasks i l ids = Ok ns ->
  length ns = length l /\ NoDup (map node_id ns) /\ (forall n, n ∈ ns -> node_id n ∉ ids)
  /\ Forall well_formed_task ns.
Proof.
  revert i ids ns. induction l as [|t l IH]; intros i ids ns; simpl.
  { intros [= <-]. split; [done |]. split; [constructor |]. split; [|constructor].
    intros n Hn. by apply elem_of_nil in Hn. }
  intros ([n ids'] & Ht & Hrest)%result_bind_Ok.
  apply parse_task_spec in Ht as (-> & Hn & Hwf).
  apply result_bind_Ok in Hrest as (rest & (Hlen & Hnd & Hnew & Hall)%IH & [= <-]).
  split; [simpl; lia |]. split; [|split; [|by constructor]].
  - simpl. apply NoDup_cons. split; [|done]. intros (m & He & Hm)%list_elem_of_fmap.
    specialize (Hnew m Hm). set_solver.
  - intros m [->|Hm]%elem_of_cons; [done |]. specialize (Hnew m Hm). set_solver.
Qed.

(** An accepted decomposition is well formed: between 1 and 24 subtasks with
    distinct ids, in dependency order, each with a known complexity and language and
    with the length caps on its fields respected. *)
Lemma parse_decomposition_wf hash_order json_parse raw dr :
  (forall l, Permutation (hash_order l) l) ->
  parse_decomposition hash_order json_parse raw = Ok dr ->
  1 <= length (tasks dr) <= MAX_SUBTASKS /\ NoDup (map node_id (tasks dr))
  /\ dep_ordered (tasks dr) /\ Forall well_formed_task (tasks dr).
Proof.
  intros Hperm. unfold parse_decomposition. intros (v & _ & H1)%result_bind_Ok.
  apply result_bind_Ok in H1 as (arr & _ & H1). case_decide as Harr; [done |].
  apply result_bind_Ok in H1 as (ns & (Hlen & Hnd & _ & Hwf)%parse_tasks_spec & H1).
  destruct (MAX_SUBTASKS <? length ns) eqn:Emax; [done |]. apply Nat.ltb_ge in Emax.
  apply result_bind_Ok in H1 as (sorted & Hs & [= <-]). cbn [tasks].
  apply topological_sort_sound in Hs as (Hp & Ho & _); [|done]. split.
  - rewrite (Permutation_length Hp). destruct arr; [done | simpl in *; lia].
  - split; [rewrite Hp; exact Hnd |]. split; [exact Ho |]. rewrite Hp. exact Hwf.
Qed.

Section ExecuteProofs.
Context {W : Type}.
Variable now_millis : W -> Z.
Variable delegate : str -> str -> W -> result DelegationResult str * W.

Definition record_result (m : gmap str SubtaskExecutionResult) (r : SubtaskExecutionResult) :=
  <[sub_node_id r := r]> m.

Lemma skip_reason_None completed n deps :
  skip_reason completed n deps = None
  <-> forall d, d ∈ deps -> exists r, completed !! d = Some r /\ sub_ok r = true.
Proof.
  induction deps as [|d deps IH]; simpl.
  - split; [intros _ d Hd; by apply elem_of_nil in Hd | done].
  - destruct (completed !! d) as [r|] eqn:E.
    + destruct (sub_ok r) eqn:Eo.
      * rewrite IH. split; [|intros Ha x Hx; apply Ha; by right].
        intros Ha x [->|Hx]%elem_of_cons; [by exists r | auto].
      * split; [done |]. intros Ha. destruct (Ha d ltac:(by left)) as (r' & ? & ?). congruence.
    + split; [done |]. intros Ha. destruct (Ha d ltac:(by left)) as (r' & ? & ?). congruence.
Qed.

(** A call of the delegate: the id and the description it was given, and its answer. *)
Definition Call : Type := str * str * result DelegationResult str.

(** The delegate with a log of its calls. *)
Definition log_calls (name desc : str) (wl : W * list Call) : result DelegationResult str * (W * list Call) :=
  let '(r, w') := delegate name desc wl.1 in (r, (w', wl.2 ++ [(name, desc, r)])).

(** The calls made for a task and the answer that counts: one, or a second one under
    another id after an error. *)
Definition calls_for (task_id : str) (n : TaskNode) (calls : list Call) (o : result DelegationResult str) : Prop :=
  let first := task_id ++ lit "--" ++ node_id n in
  (exists d, o = Ok d /\ calls = [(first, description n, Ok d)])
  \/ (exists e, calls = [(first, description n, Err e); (first ++ lit "-r", description n, o)]).

Lemma delegate_logged task_id n wd log :
  exists o wd1 calls, delegate_with_retry (W * list Call) log_calls task_id n (wd, log) = (o, (wd1, log ++ calls))
    /\ delegate_with_retry W delegate task_id n wd = (o, wd1) /\ calls_for task_id n calls o.
Proof.
  unfold delegate_with_retry, log_calls, calls_for. cbn [fst snd].
  destruct (delegate (task_id ++ lit "--" ++ node_id n) (description n) wd) as [[d|e] wd1].
  - exists (Ok d), wd1. eexists. split; [done |]. split; [done |]. left. by exists d.
  - cbn [fst snd]. rewrite <-!app_assoc.
    destruct (delegate (task_id ++ lit "--" ++ node_id n ++ lit "-r") (description n) wd1) as [o wd2].
    exists o, wd2. eexists. split; [by rewrite <-app_assoc |]. split; [done |]. right. by exists e.
Qed.

(** What a result and the calls made for its task tell, given the results before it. *)
Definition outcome (task_id : str) (seen : gmap str SubtaskExecutionResult) (n : TaskNode)
    (r : SubtaskExecutionResult) (calls : list Call) : Prop :=
  match skip_reason seen n (depends_on n) with
  | Some reason => r = skipped_result n reason /\ calls = []
  | None => exists wd1 o wd2, delegate_with_retry W delegate task_id n wd1 = (o, wd2)
              /\ r = subtask_result n o (i64_sub (now_millis wd2) (now_millis wd1))
              /\ calls_for task_id n calls o
  end.

Definition sum_tokens (rs : list SubtaskExecutionResult) (tokens : Z) : Z :=
  foldl (fun acc r => i64_add acc (tokens_used r)) tokens rs.

Lemma i64_add_0 z : i64_add (i64_wrap z) 0 = i64_wrap z.
Proof. unfold i64_add, i64_wrap. rewrite Z.add_0_r. pose proof (Z.mod_pos_bound (z + 2 ^ 63) (2 ^ 64)). rewrite (Z.mod_small (_ - _ + _)); lia. Qed.

Lemma run_nodes_spec task_id nodes completed tokens wd log rs tk wd' log' :
  tokens = i64_wrap tokens ->
  run_nodes (W * list Call) (fun wl => now_millis wl.1) log_calls task_id nodes completed tokens (wd, log) = (rs, tk, (wd', log')) ->
  map sub_node_id rs = map node_id nodes
  /\ tk = sum_tokens rs tokens
  /\ exists calls, log' = log ++ concat calls /\ length calls = length nodes
       /\ forall i n r cs, nodes !! i = Some n -> rs !! i = Some r -> calls !! i = Some cs ->
            outcome task_id (foldl record_result completed (take i rs)) n r cs.
Proof.
  revert completed tokens wd log rs tk wd' log'.
  induction nodes as [|n nodes IH]; intros completed tokens wd log rs tk wd' log' Htok; cbn [run_nodes].
  { intros [= <- <- <- <-]. split; [done |]. split; [done |]. exists []. by rewrite app_nil_r. }
  destruct (skip_reason completed n (depends_on n)) as [reason|] eqn:Es.
  - destruct (run_nodes _ _ _ _ nodes _ _ _) as [[rs0 tk0] [wd0 log0]] eqn:Er. intros [= <- <- <- <-].
    apply IH in Er as (Hids & Htk & calls & Hlog & Hlen & Hall); [|done]. split; [simpl; by f_equal |].
    split. { unfold sum_tokens. simpl. rewrite Htok, i64_add_0, <-Htok. exact Htk. }
    exists ([] :: calls). split; [done |]. split; [simpl; by f_equal |].
    intros [|i] m r cs Hm Hr Hc; simpl in *.
    + simplify_eq. unfold outcome. by rewrite Es.
    + by apply (Hall i m r).
  - destruct (delegate_logged task_id n wd log) as (o & wd1 & cs & Hd & Hd' & Hcs). rewrite Hd. cbn [fst].
    destruct (run_nodes _ _ _ _ nodes _ _ _) as [[rs0 tk0] [wd0 log0]] eqn:Er. intros [= <- <- <- <-].
    set (sr := subtask_result n o (i64_sub (now_millis wd1) (now_millis wd))) in *.
    assert (sub_node_id sr = node_id n) as Hid by (by destruct o).
    assert (tokens_used sr = tokens_of o) as Hused by (by destruct o).
    rewrite <-Hid in Er.
    apply IH in Er as (Hids & Htk & calls & Hlog & Hlen & Hall);
      [|unfold i64_add; by rewrite <-(i64_add_0 (tokens + tokens_of o)) at 1; unfold i64_add; rewrite Z.add_0_r].
    split; [simpl; by f_equal |]. split; [unfold sum_tokens; simpl; by rewrite Hused |].
    exists (cs :: calls). split; [simpl; by rewrite app_assoc |]. split; [simpl; by f_equal |].
    intros [|i] m r c Hm Hr Hc; simpl in *.
    + simplify_eq. unfold outcome. rewrite Es. by exists wd, o, wd1.
    + by apply (Hall i m r).
Qed.

Lemma skip_reason_Some completed n deps reason :
  skip_reason completed n deps = Some reason ->
  exists d, d ∈ deps /\
    (completed !! d = None
     \/ exists r, completed !! d = Some r /\ sub_ok r = false
          /\ reason = lit "Skipped: dependency " ++ d ++ lit " failed").
Proof.
  induction deps as [|d deps IH]; simpl; [done |].
  destruct (completed !! d) as [r|] eqn:E.
  - destruct (sub_ok r) eqn:Eo.
    + intros (x & Hx & H1)%IH. exists x. split; [by right | done].
    + intros [= <-]. exists d. split; [by left |]. right. by exists r.
  - intros _. exists d. split; [by left | by left].
Qed.

Lemma foldl_record_last l m j r :
  NoDup (map sub_node_id l) -> l !! j = Some r -> foldl record_result m l !! sub_node_id r = Some r.
Proof.
  revert m j. induction l as [|x l IH]; intros m j Hnd Hj; [done |].
  simpl in *. apply NoDup_cons in Hnd as [Hn Hnd]. destruct j as [|j]; simpl in Hj; [|by eapply IH].
  injection Hj as ->. clear IH. revert m Hn. induction l as [|y l IH]; intros m Hn; simpl.
  - apply lookup_insert_eq.
  - apply not_elem_of_cons in Hn as [H1 H2]. apply NoDup_cons in Hnd as [_ Hnd].
    assert (record_result (record_result m r) y = record_result (record_result m y) r) as ->
      by (by apply insert_insert_ne).
    by apply IH.
Qed.

(** The results before a task in dependency order hold all its dependencies. *)
Lemma dependency_seen ordered rs i n d :
  dep_ordered ordered -> NoDup (map node_id ordered) ->
  map sub_node_id rs = map node_id ordered -> ordered !! i = Some n -> d ∈ depends_on n ->
  exists j y, j < i /\ rs !! j = Some y /\ sub_node_id y = d
    /\ foldl record_result ∅ (take i rs) !! d = Some y.
Proof.
  intros Ho Hnd Hids Hi Hd. destruct (Ho i n d Hi Hd) as (j & m & Hji & Hm & Hmd).
  assert (map sub_node_id rs !! j = Some d) as Hj
    by (rewrite Hids, list_lookup_fmap, Hm; simpl; by f_equal).
  rewrite list_lookup_fmap in Hj. apply fmap_Some in Hj as (y & Hy & ->).
  exists j, y. do 3 (split; [done |]). apply foldl_record_last with j.
  - change (map sub_node_id (take i rs)) with (sub_node_id <$> take i rs).
    rewrite fmap_take. change (sub_node_id <$> rs) with (map sub_node_id rs). rewrite Hids.
    eapply sublist_NoDup; [exact Hnd | apply sublist_take].
  - by rewrite lookup_take_lt.
Qed.

(** C25.  Executing a stored decomposition: there is one result per stored task, in
    dependency order, and the calls of the delegate are, in the same order, those made for
    the tasks: a task is delegated, with one retry after an error, exactly when all its
    dependencies succeeded before it, and its result is that of the last call; otherwise
    nothing is delegated for it and it is reported as skipped with the name of a
    dependency that failed.  The counts add up, and the token total is the sum over the
    tasks in 64 bits. *)
Theorem execute_decomposition_spec hash_order recall from_value task_id wd r wd' log :
  (forall l, Permutation (hash_order l) l) ->
  execute_decomposition hash_order (W * list Call) (fun wl => now_millis wl.1) log_calls recall from_value task_id (wd, [])
  = (Ok r, (wd', log)) ->
  exists stored ordered calls, recall task_id = Ok (Some (ex_root_task r, stored))
    /\ Permutation ordered (omap from_value stored) /\ dep_ordered ordered
    /\ map sub_node_id (results r) = map node_id ordered
    /\ log = concat calls /\ length calls = length ordered
    /\ total_subtasks r = Z.of_nat (length (results r))
    /\ (succeeded_count r + failed_count r)%Z = total_subtasks r
    /\ succeeded_count r = Z.of_nat (length (List.filter sub_ok (results r)))
    /\ ex_total_tokens r = sum_tokens (results r) 0
    /\ forall i n x cs, ordered !! i = Some n -> results r !! i = Some x -> calls !! i = Some cs ->
         let before d ok := exists j y, j < i /\ results r !! j = Some y /\ sub_node_id y = d
                                        /\ sub_ok y = ok in
         ((forall d, d ∈ depends_on n -> before d true)
          /\ exists wd1 o wd2, delegate_with_retry W delegate task_id n wd1 = (o, wd2)
               /\ x = subtask_result n o (i64_sub (now_millis wd2) (now_millis wd1))
               /\ calls_for task_id n cs o)
         \/ (exists d, d ∈ depends_on n /\ before d false
              /\ x = skipped_result n (lit "Skipped: dependency " ++ d ++ lit " failed") /\ cs = []).
Proof.
  intros Hperm. unfold execute_decomposition.
  destruct (recall task_id) as [[[desc stored]|]|e]; [|done|done].
  case_decide; [done |]. case_decide; [done |].
  destruct (topological_sort _ _) as [ordered|e] eqn:Et; [|done].
  destruct (run_nodes _ _ _ _ _ _ _ _) as [[rs tk] [wd0 log0]] eqn:Er. intros [= <- <- <-].
  cbn [results total_subtasks succeeded_count failed_count ex_total_tokens ex_root_task].
  apply topological_sort_sound in Et as (Hp & Ho & Hnd); [|done].
  assert (NoDup (map node_id ordered)) as Hnd' by (by rewrite Hp).
  apply run_nodes_spec in Er as (Hids & Htk & calls & Hlog & Hcalls & Hall); [|done].
  assert (length rs = length ordered) as Hlen.
  { by rewrite <-(length_map sub_node_id rs), Hids, length_map. }
  exists stored, ordered, calls. do 6 (split; [done |]). split; [by rewrite Hlen |].
  split; [lia |]. split; [done |]. split; [done |].
  intros i n x cs Hi Hx Hcs. specialize (Hall i n x cs Hi Hx Hcs). unfold outcome in Hall.
  destruct (skip_reason _ n _) as [reason|] eqn:Es.
  - right. destruct Hall as [-> ->]. apply skip_reason_Some in Es as (d & Hd & Hc).
    destruct (dependency_seen _ _ i n d Ho Hnd' Hids Hi Hd) as (j & y & Hj & Hy & Hyd & Hs).
    destruct Hc as [Hc|(y' & Hy' & Hf & ->)]; [congruence |].
    exists d. split; [done |]. split; [|done]. exists j, y. by simplify_eq.
  - left. split; [|done]. intros d Hd.
    destruct (dependency_seen _ _ i n d Ho Hnd' Hids Hi Hd) as (j & y & Hj & Hy & Hyd & Hs).
    rewrite skip_reason_None in Es. destruct (Es d Hd) as (y' & Hy' & Hok).
    exists j, y. by simplify_eq.
Qed.
End ExecuteProofs.

(** A concrete run of three tasks, the first of which fails. *)
Definition demo_nodes : list TaskNode :=
  [mkNode "c" [] [] [lit "b"] [] [] []; mkNode "a" [] [] [] [] [] [];
   mkNode "b" [] [] [lit "a"] [] [] []].

Definition demo_delegate (name desc : str) (wd : unit) : result DelegationResult str * unit :=
  if str_eqb name "t--a" then (Err (lit "busy"), wd)
  else (Ok (demo_result (if starts_with name "t--a" then Fail else Pass) []), wd).

Definition demo_from_value (v : json) : option TaskNode :=
  match v with JNum n => demo_nodes !! byte_len n | _ => None end.

Definition demo_recall : str -> result (option (str * list json)) str :=
  fun _ => Ok (Some (lit "job", [JNum []; JNum "1"; JNum "11"])).

Definition demo_execution : result DecompositionExecutionResult str * (unit * list Call) :=
  execute_decomposition (fun l => l) (unit * list Call) (fun _ => 0%Z) (log_calls demo_delegate)
    demo_recall demo_from_value "t" (tt, []).

Definition demo_summary : DecompositionExecutionResult :=
  match fst demo_execution with Ok r => r | Err _ => mkExecution [] [] 0 0 0 0 0 end.

(** The failing task is tried twice; the tasks that depend on it are never delegated. *)
Lemma demo_calls : map (fun c : Call => c.1.1) (snd (snd demo_execution)) = [lit "t--a"; lit "t--a-r"]
  /\ map sub_ok (results demo_summary) = [false; false; false].
Proof. split; vm_compute; reflexivity. Qed.

Lemma execute_decomposition_spec_witness :
  (succeeded_count demo_summary + failed_count demo_summary)%Z = total_subtasks demo_summary
  /\ exists calls, snd (snd demo_execution) = concat calls.
Proof.
  destruct (execute_decomposition_spec (fun _ => 0%Z) demo_delegate (fun l => l)
    demo_recall demo_from_value "t" tt demo_summary tt (snd (snd demo_execution)))
    as (st & o & calls & _ & _ & _ & _ & Hl & _ & _ & Hc & _).
  - reflexivity.
  - vm_compute. reflexivity.
  - split; [exact Hc |]. by exists calls.
Defined.

Definition demo_json (s : str) : result json str :=
  Ok (JArr [JObj [(lit "id", JStr "x"); (lit "dependsOn", JArr [JStr "y"])];
            JObj [(lit "id", JStr "y")]]).

Definition demo_parse : DecompositionResult :=
  match parse_decomposition (fun l => l) demo_json "[]" with
  | Ok r => r
  | Err _ => mkDecomposition [] [] 0 []
  end.

Lemma parse_decomposition_wf_witness :
  1 <= length (tasks demo_parse) <= MAX_SUBTASKS /\ dep_ordered (tasks demo_parse)
  /\ map node_id (tasks demo_parse) = [lit "y"; lit "x"].
Proof.
  destruct (parse_decomposition_wf (fun l => l) demo_json "[]" demo_parse) as (H1 & _ & H2 & _).
  - reflexivity.
  - vm_compute. reflexivity.
  - split; [exact H1 |]. split; [exact H2 |]. vm_compute. reflexivity.
Defined.

(** The order of independent tasks follows the iteration order of the hash map, not
    the input order. *)
Lemma independent_tasks_reordered :
  let ns := [mkNode "a" [] [] [] [] [] []; mkNode "b" [] [] [] [] [] []] in
  topological_sort (@rev str) ns = Ok (rev ns) /\ topological_sort (fun l => l) ns = Ok ns.
Proof. split; vm_compute; reflexivity. Qed.

Lemma topological_sort_spec_witness :
  Permutation [mkNode "a" [] [] [] [] [] []; mkNode "b" [] [] [lit "a"] [] [] [];
               mkNode "c" [] [] [lit "b"] [] [] []] demo_nodes.
Proof.
  apply (topological_sort_spec (fun l => l) (fun l => Permutation_refl l) demo_nodes).
Defined.
