(* ===== verification/Compress.v ===== *)
(** * The compression pipeline

    Models the crate [kf-compress-core]: [mode.rs], [content.rs] (detection, tags and
    private sections), [rules.rs], [config.rs], [store.rs] (the byte-capped store) and
    [pipeline.rs].

    The BLAKE3 key is a parameter, and so are the registered transforms.  The [RwLock]
    of the store is passed from step to step.  Reading TOML is not modelled. *)

From Stdlib Require Import ssreflect SpecFloat.
From S2P Require Import Prelude Machine.

(** ** [mode.rs] *)

Inductive Mode := Off | Lite | Full | Ultra.
#[export] Instance Mode_eq_dec : EqDecision Mode.
Proof. solve_decision. Defined.

Definition ALL_MODES : list Mode := [Off; Lite; Full; Ultra].

Definition mode_str (m : Mode) : str :=
  match m with Off => "off" | Lite => "lite" | Full => "full" | Ultra => "ultra" end.
Definition runs_transforms (m : Mode) : bool := match m with Off => false | _ => true end.
Definition offload_threshold (m : Mode) : option f64 :=
  match m with
  | Off => None
  | Lite => Some (decimal 8 1)
  | Full => Some (decimal 5 1)
  | Ultra => Some (decimal 2 1)
  end.
Definition offloads_bloat (m : Mode) : bool := match m with Full | Ultra => true | _ => false end.

(** The text of a parse error, which lists what is supported. *)
Definition unknown_text (what value : str) (names : list str) : str :=
  "unknown " ++ what ++ ": " ++ value ++ "; expected one of: " ++ join ", " names.

(** [FromStr], and the same for content types: trimmed and lower-cased. *)
Definition parse_name {A} (name : A -> str) (all : list A) (what s : str) : result A str :=
  let normalized := to_ascii_lowercase (trim s) in
  match find_first (fun x => str_eqb (name x) normalized) all with
  | Some x => Ok x
  | None => Err (unknown_text what normalized (map name all))
  end.
Definition mode_from_str (s : str) : result Mode str := parse_name mode_str ALL_MODES "mode" s.

(** ** [content.rs] *)

Inductive ContentType :=
  JsonArray | JsonObject | SourceCode | SearchResults | BuildOutput | GitDiff | Html | PlainText.
#[export] Instance ContentType_eq_dec : EqDecision ContentType.
Proof. solve_decision. Defined.

Definition ALL : list ContentType :=
  [JsonArray; JsonObject; SourceCode; SearchResults; BuildOutput; GitDiff; Html; PlainText].

Definition content_type_str (c : ContentType) : str :=
  match c with
  | JsonArray => "json_array" | JsonObject => "json_object" | SourceCode => "source_code"
  | SearchResults => "search_results" | BuildOutput => "build_output" | GitDiff => "git_diff"
  | Html => "html" | PlainText => "plain_text"
  end.
Definition content_label (c : ContentType) : str :=
  match c with
  | JsonArray => "json array" | JsonObject => "json object" | SourceCode => "source code"
  | SearchResults => "search results" | BuildOutput => "build output" | GitDiff => "git diff"
  | Html => "html" | PlainText => "plain text"
  end.
Definition content_type_from_str (s : str) : result ContentType str :=
  parse_name content_type_str ALL "content type" s.

(** [str::split_once] with one character. *)
Definition split_once (c : char) (s : str) : option (str * str) :=
  match find_sub [c] s with Some i => Some (take i s, drop (i + 1) s) | None => None end.

Definition some_prefix (prefixes : list string) (l : str) : bool :=
  existsb (fun p => starts_with l (lit p)) prefixes.

(** A line of the form [path:line:match]. *)
Definition search_line (l : str) : bool :=
  match split_once ":"%char l with
  | Some (path, rest) =>
      negb (str_eqb path []) && contains path "/"
      && match rest with c :: _ => is_ascii_digit c | [] => false end
  | None => false
  end.

Definition structural_line (l : str) : bool :=
  some_prefix ["fn "; "pub "; "struct "; "class "; "def "; "import "; "#include"; "function "]%string
    (trim_start l).

Definition detect_content_type (content : str) : ContentType :=
  let trimmed := trim content in
  let ls := lines trimmed in
  if str_eqb trimmed [] then PlainText
  else if starts_with trimmed "[" then JsonArray
  else if starts_with trimmed "{" then JsonObject
  else if existsb (fun l => starts_with l "@@ ") ls then GitDiff
  else if some_prefix ["<!DOCTYPE"; "<!doctype"]%string (unwrap_or trimmed (head ls))
          || starts_with trimmed "<" then Html
  else if existsb (some_prefix ["error["; "error:"; "warning:"; "test result:"]%string) ls
  then BuildOutput
  else if existsb search_line ls then SearchResults
  else if (2 <=? length (List.filter structural_line (take 20 ls))) then SourceCode
  else PlainText.

(** *** Tags *)

Definition hash : char := "#"%char.

Definition is_tag_active (tag host : str) : bool :=
  let body := unwrap_or tag (strip_prefix tag [hash]) in
  if str_eqb body [] then true
  else match split_once "/"%char body with
       | Some (_, tag_host) => str_eqb (to_ascii_lowercase tag_host) (to_ascii_lowercase host)
       | None => true
       end.

(** The places of [#], in order. *)
Definition hash_positions (content : str) : list nat :=
  List.filter (fun i => bool_decide (content !! i = Some hash)) (seq 0 (length content)).

(** The length of the text before the first white space. *)
Fixpoint word_length (s : str) : nat :=
  match s with
  | [] => 0
  | c :: s' => if is_whitespace c then 0 else S (word_length s')
  end.

(** The loop over the places; all of them are character boundaries, so a slice panics
    exactly when it ends before it starts ([None]). *)
Fixpoint filter_tags (content host : str) (starts : list nat) (out : str) (last_end : nat) : option str :=
  match starts with
  | [] => Some (out ++ drop last_end content)
  | start :: starts' =>
      if start <? last_end then None
      else
        let tag_end := start + 1 + word_length (drop (start + 1) content) in
        let tag := take (tag_end - start) (drop start content) in
        filter_tags content host starts'
          (out ++ take (start - last_end) (drop last_end content)
               ++ (if is_tag_active tag host then tag else [])) tag_end
  end.
Definition filter_deactivated_tags (content host : str) : option str :=
  filter_tags content host (hash_positions content) [] 0.

(** *** Delimited sections *)

(** One round removes a section, so the length of the text bounds the rounds. *)
Fixpoint remove_loop (fuel : nat) (start stop rest out : str) : str :=
  match fuel with
  | O => out ++ rest
  | S fuel' =>
      match find_sub start rest with
      | None => out ++ rest
      | Some i =>
          let out := out ++ take i rest in
          let after := drop (i + length start) rest in
          match find_sub stop after with
          | Some j => remove_loop fuel' start stop (drop (j + length stop) after) out
          | None => out
          end
      end
  end.
Definition remove_delimited_sections (content marker : str) : str :=
  remove_loop (length content) ("<!-- " ++ marker ++ " -->") ("<!-- /" ++ marker ++ " -->") content [].
Definition remove_private_sections (content : str) : str := remove_delimited_sections content "private".
Definition remove_public_sections (content : str) : str := remove_delimited_sections content "public".

(** ** [rules.rs] *)

(** The modes a directive line names; [None] is a line without a directive. *)
Definition directive_of (line : str) : option str :=
  option_map (fun rest => trim (unwrap_or rest (strip_suffix rest "-->")))
    (strip_prefix line "<!-- stratum:mode:").

Definition directive_keeps (m : Mode) (directive : str) : bool :=
  str_eqb directive "all"
  || existsb (fun x => str_eqb (trim x) (mode_str m)) (split_char ","%char directive).

Fixpoint filter_lines (m : Mode) (keep : bool) (ls : list str) : str :=
  match ls with
  | [] => []
  | l :: ls' =>
      match directive_of l with
      | Some d => filter_lines m (directive_keeps m d) ls'
      | None => (if keep then l ++ [10%N] else []) ++ filter_lines m keep ls'
      end
  end.
Definition filter_by_mode (source : str) (m : Mode) : str := filter_lines m true (lines source).

(** ** [config.rs] *)

Record DomainOverrides := mkOverrides {
  domain_bloat_threshold : option f64;
  domain_reformat_target_ratio : option f64
}.

Record PipelineConfig := mkConfig {
  reformat_target_ratio : f64;
  bloat_threshold : f64;
  offload_fallback_ratio : f64;
  per_domain : ContentType -> option DomainOverrides
}.

Definition bloat_threshold_for (cfg : PipelineConfig) (c : ContentType) : f64 :=
  match per_domain cfg c with
  | Some d => unwrap_or (bloat_threshold cfg) (domain_bloat_threshold d)
  | None => bloat_threshold cfg
  end.

Definition default_config : PipelineConfig :=
  mkConfig (decimal 5 2) (decimal 5 1) (decimal 85 2) (fun c =>
    match c with
    | JsonObject | JsonArray => Some (mkOverrides (Some (decimal 5 1)) None)
    | BuildOutput => Some (mkOverrides (Some (decimal 3 1)) (Some (decimal 1 1)))
    | GitDiff => Some (mkOverrides (Some (decimal 6 1)) None)
    | SearchResults => Some (mkOverrides (Some (decimal 4 1)) None)
    | _ => None
    end).

Record PartialPipelineConfig := mkPartial {
  partial_reformat : option f64;
  partial_bloat : option f64;
  partial_fallback : option f64;
  partial_domains : ContentType -> option DomainOverrides
}.

Definition merge_overrides (old : option DomainOverrides) (o : DomainOverrides) : DomainOverrides :=
  let old := unwrap_or (mkOverrides None None) old in
  mkOverrides (orelse (domain_bloat_threshold o) (domain_bloat_threshold old))
    (orelse (domain_reformat_target_ratio o) (domain_reformat_target_ratio old)).

Definition apply_partial (cfg : PipelineConfig) (p : PartialPipelineConfig) : PipelineConfig :=
  mkConfig (unwrap_or (reformat_target_ratio cfg) (partial_reformat p))
    (unwrap_or (bloat_threshold cfg) (partial_bloat p))
    (unwrap_or (offload_fallback_ratio cfg) (partial_fallback p))
    (fun c => match partial_domains p c with
              | Some o => Some (merge_overrides (per_domain cfg c) o)
              | None => per_domain cfg c
              end).

(** ** [store.rs] *)

Definition u64_mod : N := 2 ^ 64.
Definition wrapping_add (a b : N) : N := (a + b) mod u64_mod.
Definition wrapping_sub (a b : N) : N := (a + (u64_mod - b mod u64_mod)) mod u64_mod.

Record StoreData := mkData {
  map_ : gmap str str;
  order : list str;
  total_bytes : N
}.

Definition data_new : StoreData := mkData ∅ [] 0.

Definition data_insert (key value : str) (d : StoreData) : StoreData :=
  let len := str_len value in
  match map_ d !! key with
  | Some old => mkData (<[key := value]> (map_ d)) (order d)
                  (wrapping_add (wrapping_sub (total_bytes d) (str_len old)) len)
  | None => mkData (<[key := value]> (map_ d)) (order d ++ [key]) (wrapping_add (total_bytes d) len)
  end.

Definition data_remove (key : str) (d : StoreData) : StoreData :=
  match map_ d !! key with
  | None => d
  | Some value => mkData (delete key (map_ d)) (List.filter (fun k => negb (str_eqb k key)) (order d))
                    (wrapping_sub (total_bytes d) (str_len value))
  end.

Record InMemoryOffloadStore := mkStore {
  data : StoreData;
  max_entries : option nat;
  max_bytes : option N
}.

Definition store_new (max_entries : option nat) (max_bytes : option N) : InMemoryOffloadStore :=
  mkStore data_new max_entries max_bytes.
Definition new_with_cap (cap : nat) : InMemoryOffloadStore := store_new (Some cap) None.
Definition new_with_byte_cap (cap : nat) (bytes : N) : InMemoryOffloadStore :=
  store_new (Some cap) (Some bytes).

Definition over_cap {A} (lt : A -> A -> bool) (cap : option A) (x : A) : bool :=
  match cap with Some m => lt m x | None => false end.

(** The eviction loop.  A key of the queue without a payload would make it run forever:
    [None], when the fuel is used up. *)
Fixpoint evict_loop (fuel : nat) (max_entries : option nat) (max_bytes : option N) (d : StoreData)
    : option StoreData :=
  if (size (map_ d) =? 0)
     || negb (over_cap Nat.ltb max_entries (size (map_ d)) || over_cap N.ltb max_bytes (total_bytes d))
  then Some d
  else match order d with
       | [] => Some d
       | key :: _ =>
           match fuel with
           | O => None
           | S fuel' => evict_loop fuel' max_entries max_bytes (data_remove key d)
           end
       end.

Definition evict_if_over_cap (s : InMemoryOffloadStore) : option InMemoryOffloadStore :=
  match max_entries s, max_bytes s with
  | None, None => Some s
  | me, mb =>
      match evict_loop (length (order (data s))) me mb (data s) with
      | Some d => Some (mkStore d me mb)
      | None => None
      end
  end.

(** [derive_key]: the hexadecimal BLAKE3 digest. *)
Class DeriveKey := derive_key : str -> str.

Section Store.
Context `{DeriveKey}.

Definition put (payload : str) (s : InMemoryOffloadStore) : option (str * InMemoryOffloadStore) :=
  let key := derive_key payload in
  match evict_if_over_cap (mkStore (data_insert key payload (data s)) (max_entries s) (max_bytes s)) with
  | Some s' => Some (key, s')
  | None => None
  end.
Definition get (s : InMemoryOffloadStore) (key : str) : option str := map_ (data s) !! key.
Definition len (s : InMemoryOffloadStore) : nat := size (map_ (data s)).
Definition is_empty (s : InMemoryOffloadStore) : bool := len s =? 0.
Definition clear (s : InMemoryOffloadStore) : InMemoryOffloadStore :=
  mkStore data_new (max_entries s) (max_bytes s).
End Store.

(** ** [pipeline.rs] *)

Record CompressionContext := mkContext { query : option str; token_budget : option N }.

Definition with_token_budget (ctx : CompressionContext) (budget : N) : CompressionContext :=
  mkContext (query ctx) (Some (N.max 1 budget)).
Definition with_query (ctx : CompressionContext) (q : str) : CompressionContext :=
  mkContext (Some q) (token_budget ctx).

Definition bloat_ratio (ctx : CompressionContext) (content : str) : f64 :=
  f64_div (f64_of (str_len content)) (f64_of (N.max 1 (unwrap_or 4096%N (token_budget ctx)))).

Definition is_bloated (ctx : CompressionContext) (content : str) (c : ContentType)
    (cfg : PipelineConfig) : bool :=
  let threshold := bloat_threshold_for cfg c in
  if SFleb threshold (f64_of 0) then false else f64_gt (bloat_ratio ctx content) threshold.

Definition Transform : Type := str -> ContentType -> str.

Definition transformed (transforms : list Transform) (content : str) (c : ContentType) : str :=
  foldl (fun w t => t w c) content transforms.

Definition offload_marker (key : str) : str := "[offloaded: " ++ key ++ "]".

(** [CompressionPipeline::run]; [None] is an eviction that does not end. *)
Definition run `{DeriveKey} (transforms : list Transform) (content : str) (c : ContentType)
    (ctx : CompressionContext) (store : InMemoryOffloadStore) (cfg : PipelineConfig) (m : Mode)
    : option (str * InMemoryOffloadStore) :=
  if negb (runs_transforms m) then Some (content, store)
  else
    let working := transformed transforms content c in
    if offloads_bloat m && is_bloated ctx working c cfg then
      match put working store with
      | Some (key, store') => Some (offload_marker key, store')
      | None => None
      end
    else Some (working, store).

Example tags_kept :
  filter_deactivated_tags "#a #a/claude #a/codex b" "Claude" = Some (lit "#a #a/claude  b").
Proof. reflexivity. Qed.

(** A second [#] in a tag, as in a Markdown heading, makes the next slice end before it
    starts. *)
Lemma heading_panics : filter_deactivated_tags "## Heading" "claude" = None.
Proof. reflexivity. Qed.

Example private_removed :
  remove_private_sections "a<!-- private -->b<!-- /private -->c<!-- private -->d" = lit "ac".
Proof. reflexivity. Qed.

(** ** The abstract queue

    What the store promises: payloads in the order of their first arrival, a payload
    stored again taking the place of the old one, and the oldest ones dropped until both
    caps hold. *)

Definition Queue : Type := list (str * str).

Definition queue_bytes (q : Queue) : N := foldr (fun e n => (str_len e.2 + n)%N) 0%N q.

Definition fits (me : option nat) (mb : option N) (q : Queue) : bool :=
  negb (over_cap Nat.ltb me (length q) || over_cap N.ltb mb (queue_bytes q)).

Fixpoint q_trim (me : option nat) (mb : option N) (q : Queue) : Queue :=
  if fits me mb q then q else match q with [] => [] | _ :: q' => q_trim me mb q' end.

Fixpoint q_set (key value : str) (q : Queue) : Queue :=
  match q with
  | [] => [(key, value)]
  | (k, v) :: q' => if str_eqb k key then (k, value) :: q' else (k, v) :: q_set key value q'
  end.

Definition q_get (q : Queue) (key : str) : option str :=
  option_map snd (find_first (fun e => str_eqb e.1 key) q).

Inductive StoreOp := OpPut (payload : str) | OpGet (key : str) | OpLen | OpClear.
Inductive StoreOut := OutKey (key : str) | OutGet (payload : option str) | OutLen (n : nat) | OutClear.

Section Refinement.
Context `{DeriveKey}.

Definition store_step (op : StoreOp) (s : InMemoryOffloadStore) : option (StoreOut * InMemoryOffloadStore) :=
  match op with
  | OpPut p => option_map (fun r => (OutKey r.1, r.2)) (put p s)
  | OpGet k => Some (OutGet (get s k), s)
  | OpLen => Some (OutLen (len s), s)
  | OpClear => Some (OutClear, clear s)
  end.

Definition queue_step (me : option nat) (mb : option N) (op : StoreOp) (q : Queue) : StoreOut * Queue :=
  match op with
  | OpPut p => (OutKey (derive_key p), q_trim me mb (q_set (derive_key p) p q))
  | OpGet k => (OutGet (q_get q k), q)
  | OpLen => (OutLen (length q), q)
  | OpClear => (OutClear, [])
  end.

Fixpoint store_run (ops : list StoreOp) (s : InMemoryOffloadStore)
    : option (list StoreOut * InMemoryOffloadStore) :=
  match ops with
  | [] => Some ([], s)
  | op :: ops' =>
      match store_step op s with
      | None => None
      | Some (o, s') => option_map (fun r => (o :: r.1, r.2)) (store_run ops' s')
      end
  end.

Fixpoint queue_run (me : option nat) (mb : option N) (ops : list StoreOp) (q : Queue)
    : list StoreOut * Queue :=
  match ops with
  | [] => ([], q)
  | op :: ops' =>
      let '(o, q') := queue_step me mb op q in
      let '(os, q'') := queue_run me mb ops' q' in (o :: os, q'')
  end.

Definition op_bytes (op : StoreOp) : N := match op with OpPut p => str_len p | _ => 0 end.
Definition bytes_put (ops : list StoreOp) : N := foldr (fun op n => (op_bytes op + n)%N) 0%N ops.

(** The representation: the queue of a store, and the shape of its data. *)
Definition represents (d : StoreData) (q : Queue) : Prop :=
  NoDup (map fst q) /\ order d = map fst q /\ map_ d = list_to_map q
  /\ total_bytes d = (queue_bytes q mod u64_mod)%N.

Lemma wrapping_add_mod a b : wrapping_add (a mod u64_mod) b = ((a + b) mod u64_mod)%N.
Proof. unfold wrapping_add. by rw N.Div0.add_mod_idemp_l. Qed.

Lemma wrapping_sub_mod a b : wrapping_sub ((a + b) mod u64_mod) b = (a mod u64_mod)%N.
Proof.
  unfold wrapping_sub. rw N.Div0.add_mod_idemp_l.
  pose proof (N.mod_lt b u64_mod ltac:(done)) as Hb.
  pose proof (N.div_mod b u64_mod ltac:(done)) as Hd.
  assert (a + b + (u64_mod - b mod u64_mod) = a + (b / u64_mod + 1) * u64_mod)%N as -> by lia.
  by rw N.Div0.mod_add.
Qed.

Lemma q_set_fresh key value q : key ∉ map fst q -> q_set key value q = q ++ [(key, value)].
Proof.
  induction q as [|[k v] q IH]; [done|]. simpl. intros [Hk Hn]%not_elem_of_cons.
  rw (proj2 (str_eqb_neq k key)); [done|]. by rw IH.
Qed.

Lemma q_get_lookup q key : NoDup (map fst q) -> q_get q key = (list_to_map q : gmap str str) !! key.
Proof.
  unfold q_get. induction q as [|[k v] q IH]; [done|]. simpl. intros [Hn Hd]%NoDup_cons.
  destruct (str_eqb k key) eqn:E.
  - apply str_eqb_eq in E as ->. by rw lookup_insert_eq.
  - apply str_eqb_neq in E. rw lookup_insert_ne //. by apply IH.
Qed.

Lemma map_size q : NoDup (map fst q) -> size (list_to_map q : gmap str str) = length q.
Proof.
  induction q as [|[k v] q IH]; [by rw map_size_empty|]. simpl. intros [Hn Hd]%NoDup_cons.
  rw map_size_insert_None; [by apply not_elem_of_list_to_map_1|]. by rw IH.
Qed.

Lemma q_set_present key value q : key ∈ map fst q -> map fst (q_set key value q) = map fst q.
Proof.
  induction q as [|[k v] q IH]; [by intros ?%elem_of_nil|]. cbn [q_set map fst].
  destruct (str_eqb k key) eqn:E; [done|]. apply str_eqb_neq in E.
  intros [->|Hi]%elem_of_cons; [done|]. cbn [map fst]. by rw IH.
Qed.

Lemma q_set_nodup key value q : NoDup (map fst q) -> NoDup (map fst (q_set key value q)).
Proof.
  intros Hd. destruct (decide (key ∈ map fst q)) as [Hi|Hi]; [by rw q_set_present|].
  rw q_set_fresh // map_app /=. apply NoDup_app. split; [done|].
  split; [by intros x Hx ->%list_elem_of_singleton|apply NoDup_singleton].
Qed.

Lemma q_set_map key value q :
  (list_to_map (q_set key value q) : gmap str str) = <[key := value]> (list_to_map q).
Proof.
  induction q as [|[k v] q IH]; [done|]. cbn [q_set]. destruct (str_eqb k key) eqn:E.
  - apply str_eqb_eq in E as ->. simpl. by rw insert_insert_eq.
  - apply str_eqb_neq in E. simpl. rw IH. by apply insert_insert_ne.
Qed.

Lemma q_set_bytes key value q old :
  (list_to_map q : gmap str str) !! key = Some old ->
  exists r, queue_bytes q = (r + str_len old)%N
            /\ queue_bytes (q_set key value q) = (r + str_len value)%N.
Proof.
  induction q as [|[k v] q IH]; [done|]. cbn [q_set list_to_map foldr fst snd].
  destruct (str_eqb k key) eqn:E.
  - apply str_eqb_eq in E as ->. rw lookup_insert_eq. intros [= ->]. exists (queue_bytes q).
    simpl. lia.
  - apply str_eqb_neq in E. rw lookup_insert_ne //. intros (r & H1 & H2)%IH.
    exists (str_len v + r)%N. simpl. lia.
Qed.

Lemma queue_bytes_cons e q : queue_bytes (e :: q) = (str_len e.2 + queue_bytes q)%N.
Proof. done. Qed.

Lemma queue_bytes_app q q' : queue_bytes (q ++ q') = (queue_bytes q + queue_bytes q')%N.
Proof. induction q as [|e q IH]; [done|]. simpl. rw IH. lia. Qed.

Lemma insert_represents key value d q :
  represents d q -> represents (data_insert key value d) (q_set key value q).
Proof.
  intros (Hd & Ho & Hm & Ht). unfold data_insert. rw Hm.
  destruct ((list_to_map q : gmap str str) !! key) as [old|] eqn:E; simpl.
  - split; [by apply q_set_nodup|]. rw q_set_map Ho q_set_present.
    { apply elem_of_list_to_map_2, list_elem_of_In in E. apply list_elem_of_In.
      by apply (in_map fst) in E. }
    split; [done|]. split; [done|]. destruct (q_set_bytes key value q old E) as (r & H1 & ->).
    by rw Ht H1 wrapping_sub_mod wrapping_add_mod.
  - assert (key ∉ map fst q) as Hn by (by apply not_elem_of_list_to_map_2).
    split; [by apply q_set_nodup|]. rw q_set_map q_set_fresh // map_app Ho queue_bytes_app /=.
    split; [done|]. split; [done|]. rw Ht wrapping_add_mod. f_equal. lia.
Qed.

Lemma remove_represents k v d q :
  represents d ((k, v) :: q) -> represents (data_remove k d) q.
Proof.
  intros (Hd & Ho & Hm & Ht). simpl in *. apply NoDup_cons in Hd as [Hn Hd].
  unfold data_remove. rw Hm lookup_insert_eq. split; [done|]. simpl. rw Ho /=.
  rw str_eqb_refl /=. split; [|split].
  - clear -Hn. induction q as [|[k' v'] q IH]; [done|]. simpl in *.
    apply not_elem_of_cons in Hn as [Hk Hn]. rw (proj2 (str_eqb_neq k' k)); [done|]. simpl.
    by rw IH.
  - rw delete_insert_id //. by apply not_elem_of_list_to_map_1.
  - by rw Ht N.add_comm wrapping_sub_mod.
Qed.

Lemma evict_loop_represents me mb fuel d q :
  represents d q -> (queue_bytes q < u64_mod)%N -> length q <= fuel ->
  exists d', evict_loop fuel me mb d = Some d' /\ represents d' (q_trim me mb q).
Proof.
  revert d q. induction fuel as [|fuel IH]; intros d q Hr Hb Hl.
  { destruct q; [|simpl in Hl; lia]. exists d. destruct Hr as (Hd & Ho & Hm & Ht).
    assert (q_trim me mb [] = []) as -> by (simpl; by case_match). simpl.
    by rw Hm map_size_empty. }
  pose proof Hr as (Hd & Ho & Hm & Ht). simpl. rw Ht Hm map_size // N.mod_small //.
  destruct q as [|[k v] q].
  { exists d. assert (q_trim me mb [] = []) as -> by (simpl; by case_match). done. }
  change (_ || negb _) with (fits me mb ((k, v) :: q)). cbn [q_trim].
  destruct (fits me mb ((k, v) :: q)); [by exists d|]. rw Ho /=.
  apply IH; [by eapply remove_represents| |simpl in Hl; lia]. rw queue_bytes_cons in Hb. lia.
Qed.

Lemma evict_represents me mb d q :
  represents d q -> (queue_bytes q < u64_mod)%N ->
  exists d', evict_if_over_cap (mkStore d me mb) = Some (mkStore d' me mb)
             /\ represents d' (q_trim me mb q).
Proof.
  intros Hr Hb. pose proof Hr as (_ & Ho & _).
  destruct (evict_loop_represents me mb (length (order d)) d q Hr Hb) as (d' & He & Hd').
  { by rw Ho length_map. }
  unfold evict_if_over_cap. cbn [max_entries max_bytes data]. destruct me as [m|], mb as [b|].
  1-3: rw He; by exists d'.
  exists d. split; [done|]. by destruct q.
Qed.

Lemma q_trim_bytes me mb q : (queue_bytes (q_trim me mb q) <= queue_bytes q)%N.
Proof.
  induction q as [|e q IH]; cbn [q_trim]; case_match; try done. rw queue_bytes_cons.
  lia.
Qed.

Lemma q_set_bytes_le key value q :
  (queue_bytes (q_set key value q) <= queue_bytes q + str_len value)%N.
Proof.
  induction q as [|[k v] q IH]; cbn [q_set]; [simpl; lia|]. case_match;
    rw !queue_bytes_cons /=; lia.
Qed.

(** The store and its queue, with what they hold. *)
Definition implements (me : option nat) (mb : option N) (s : InMemoryOffloadStore) (q : Queue) : Prop :=
  max_entries s = me /\ max_bytes s = mb /\ represents (data s) q.

Lemma new_implements me mb : implements me mb (store_new me mb) [].
Proof. split; [done|]. split; [done|]. split; [by apply NoDup_nil|done]. Qed.

Lemma store_step_refines me mb op s q :
  implements me mb s q -> (queue_bytes q + op_bytes op < u64_mod)%N ->
  exists s', store_step op s = Some ((queue_step me mb op q).1, s')
    /\ implements me mb s' (queue_step me mb op q).2
    /\ (queue_bytes (queue_step me mb op q).2 <= queue_bytes q + op_bytes op)%N.
Proof.
  intros (Hme & Hmb & Hr) Hb. pose proof Hr as (Hd & Ho & Hm & Ht).
  destruct op as [p|k| |]; cbn [store_step queue_step fst snd op_bytes] in *.
  - pose proof (q_set_bytes_le (derive_key p) p q) as Hle.
    destruct (evict_represents me mb _ _ (insert_represents (derive_key p) p _ _ Hr)) as (d' & He & Hd').
    { lia. }
    exists (mkStore d' me mb). unfold put. rw Hme Hmb He /=. split; [done|]. split; [done|].
    pose proof (q_trim_bytes me mb (q_set (derive_key p) p q)). lia.
  - exists s. rw q_get_lookup // /get Hm. split; [done|]. split; [done|lia].
  - exists s. rw /len Hm map_size //. split; [done|]. split; [done|lia].
  - exists (clear s). split; [done|]. split; [|simpl; lia]. unfold clear. rw Hme Hmb.
    apply new_implements.
Qed.

Lemma store_run_refines me mb ops s q :
  implements me mb s q -> (queue_bytes q + bytes_put ops < u64_mod)%N ->
  exists s', store_run ops s = Some ((queue_run me mb ops q).1, s')
    /\ implements me mb s' (queue_run me mb ops q).2.
Proof.
  revert s q. induction ops as [|op ops IH]; intros s q Hi Hb; [by exists s|].
  cbn [bytes_put foldr] in Hb. fold (bytes_put ops) in Hb. cbn [store_run queue_run].
  destruct (store_step_refines me mb op s q Hi) as (s1 & -> & Hi1 & Hb1); [lia|].
  destruct (queue_step me mb op q) as [o q1]. cbn [fst snd] in *.
  destruct (IH s1 q1 Hi1) as (s2 & -> & Hi2); [lia|]. exists s2.
  by destruct (queue_run me mb ops q1).
Qed.
End Refinement.

(** ** Well-formed stores *)

(** The total of the payloads that the queue names. *)
Definition stored_bytes (m : gmap str str) (ks : list str) : N :=
  foldr (fun k n => (str_len (unwrap_or [] (m !! k)) + n)%N) 0%N ks.

(** The queue names every stored payload once, and the counter is their size. *)
Record data_ok (d : StoreData) : Prop := {
  ok_nodup : NoDup (order d);
  ok_keys : forall k, k ∈ order d <-> is_Some (map_ d !! k);
  ok_bytes : total_bytes d = (stored_bytes (map_ d) (order d) mod u64_mod)%N
}.

(** The caps hold, or nothing is left to drop. *)
Definition capped (s : InMemoryOffloadStore) : Prop :=
  len s = 0
  \/ over_cap Nat.ltb (max_entries s) (len s) = false
     /\ over_cap N.ltb (max_bytes s) (total_bytes (data s)) = false.

Record store_ok (s : InMemoryOffloadStore) : Prop := {
  ok_data : data_ok (data s);
  ok_capped : capped s
}.

Lemma stored_bytes_queue (m : gmap str str) q :
  (forall k v, (k, v) ∈ q -> m !! k = Some v) -> stored_bytes m (map fst q) = queue_bytes q.
Proof.
  induction q as [|[k v] q IH]; [done|]. intros Hq. rw queue_bytes_cons. simpl.
  rw (Hq k v) /=; [by left|]. rw IH //. intros k' v' Hi. apply Hq. by right.
Qed.

Lemma represents_ok d q : represents d q -> data_ok d.
Proof.
  intros (Hd & Ho & Hm & Ht). split.
  - by rw Ho.
  - intros k. rw Ho Hm. split.
    + intros Hi. destruct (list_to_map q !! k) eqn:E; [done|]. by apply not_elem_of_list_to_map_2 in E.
    + intros [v Hv]. apply elem_of_list_to_map_2, list_elem_of_In in Hv. apply list_elem_of_In.
      by apply (in_map fst) in Hv.
  - rw Ht Ho Hm stored_bytes_queue //. intros k v Hi. by apply elem_of_list_to_map_1.
Qed.

Definition queue_of (d : StoreData) : Queue :=
  map (fun k => (k, unwrap_or [] (map_ d !! k))) (order d).

Lemma queue_of_represents d : data_ok d -> represents d (queue_of d).
Proof.
  intros [Hd Hk Hb].
  assert (map fst (queue_of d) = order d) as Hf.
  { unfold queue_of. rw map_map. apply map_id. }
  pose proof (Hf : (queue_of d).*1 = order d) as Hf'.
  assert (map_ d = list_to_map (queue_of d)) as Hm.
  { apply map_eq. intros k. destruct (map_ d !! k) as [v|] eqn:E.
    - symmetry. apply elem_of_list_to_map_1; [by rw Hf'|]. apply list_elem_of_In, in_map_iff.
      exists k. rw E. split; [done|]. apply list_elem_of_In, Hk. by rw E.
    - symmetry. apply not_elem_of_list_to_map_1. rw Hf' Hk E. by intros []. }
  split; [by rw Hf|]. split; [done|]. split; [done|]. rw Hb. f_equal. unfold queue_of.
  generalize (map_ d). intros m. clear. induction (order d) as [|k ks IH]; [done|].
  simpl. by rw IH.
Qed.

Section Typing.
Context `{DeriveKey}.

(** Whatever the counter says, eviction ends in a well-formed store. *)
Lemma evict_loop_ok me mb fuel d q :
  represents d q -> length q <= fuel ->
  exists d' q', evict_loop fuel me mb d = Some d' /\ represents d' q' /\ capped (mkStore d' me mb).
Proof.
  revert d q. induction fuel as [|fuel IH]; intros d q Hr Hl.
  - destruct q; [|simpl in Hl; lia]. pose proof Hr as (_ & _ & Hm & _). exists d, [].
    simpl. rw {1}Hm map_size_empty. split; [done|]. split; [done|]. left.
    by rw /len /= Hm map_size_empty.
  - pose proof Hr as (Hd & Ho & Hm & Ht). cbn [evict_loop].
    destruct (Nat.eqb_spec (size (map_ d)) 0) as [Hz|Hz].
    { exists d, q. split; [done|]. split; [done|]. by left. }
    cbn [orb]. destruct (over_cap Nat.ltb me _ || _) eqn:E; cbn [negb].
    + rw Ho. destruct q as [|[k v] q]; [by rw Hm map_size_empty in Hz|]. cbn [map fst].
      apply (IH _ q); [by eapply remove_represents|simpl in Hl; lia].
    + exists d, q. split; [done|]. split; [done|]. right. by apply orb_false_iff in E.
Qed.

Lemma evict_ok me mb d q :
  represents d q ->
  exists s', evict_if_over_cap (mkStore d me mb) = Some s' /\ store_ok s'
             /\ max_entries s' = me /\ max_bytes s' = mb.
Proof.
  intros Hr. pose proof Hr as (_ & Ho & _).
  destruct (evict_loop_ok me mb (length (order d)) d q Hr) as (d' & q' & He & Hd' & Hc).
  { by rw Ho length_map. }
  unfold evict_if_over_cap. cbn [max_entries max_bytes data]. destruct me as [m|], mb as [b|].
  1-3: rw He; eexists; split; [done|]; split; [|done]; split; [by eapply represents_ok|done].
  eexists. split; [done|]. split; [|done]. split; [by eapply represents_ok|]. by right.
Qed.

Lemma store_new_ok me mb : store_ok (store_new me mb).
Proof. split; [|by left]. apply (represents_ok _ []). split; [by apply NoDup_nil|done]. Qed.

Lemma store_step_ok op s :
  store_ok s -> exists o s', store_step op s = Some (o, s') /\ store_ok s'
    /\ max_entries s' = max_entries s /\ max_bytes s' = max_bytes s.
Proof.
  intros Hs. destruct op as [p|k| |]; cbn [store_step].
  - pose proof (queue_of_represents _ (ok_data _ Hs)) as Hr.
    destruct (evict_ok (max_entries s) (max_bytes s) _ _ (insert_represents (derive_key p) p _ _ Hr))
      as (s' & He & Hk & Hm). unfold put. rw He /=. by eexists _, s'.
  - by eexists _, s.
  - by eexists _, s.
  - eexists _, (clear s). split; [done|]. split; [|done]. apply store_new_ok.
Qed.
End Typing.

(** ** What a put keeps *)

Section Keep.
Context `{DeriveKey}.

Lemma fits_app me mb p q : fits me mb (p ++ q) = true -> fits me mb q = true.
Proof.
  unfold fits, over_cap. rw !negb_true_iff !orb_false_iff length_app queue_bytes_app.
  intros [H1 H2]. split; [destruct me|destruct mb]; try done.
  - apply Nat.ltb_ge in H1. apply Nat.ltb_ge. lia.
  - apply N.ltb_ge in H2. apply N.ltb_ge. lia.
Qed.

(** The newest payload stays exactly when it fits on its own. *)
Lemma q_trim_last me mb q e :
  if fits me mb [e] then exists p, q_trim me mb (q ++ [e]) = p ++ [e] else q_trim me mb (q ++ [e]) = [].
Proof.
  induction q as [|x q IH].
  - cbn [app q_trim]. destruct (fits me mb [e]); [by exists []|]. by case_match.
  - cbn [app q_trim]. destruct (fits me mb (x :: q ++ [e])) eqn:E; [|exact IH].
    rw (fits_app me mb (x :: q) [e] E). by exists (x :: q).
Qed.

Lemma q_set_same key value q :
  NoDup (map fst q) -> q_get q key = Some value -> q_set key value q = q.
Proof.
  unfold q_get. induction q as [|[k v] q IH]; [done|]. simpl. intros [Hn Hd]%NoDup_cons.
  destruct (str_eqb k key) eqn:E; [by intros [= ->]|]. intros Hf. by rw IH.
Qed.

(** A store within its caps loses nothing to eviction. *)
Lemma capped_trim s q :
  capped s -> represents (data s) q -> (queue_bytes q < u64_mod)%N ->
  q_trim (max_entries s) (max_bytes s) q = q.
Proof.
  intros Hc (Hd & _ & Hm & Ht) Hb. destruct q as [|e q]; [by simpl; case_match|].
  cbn [q_trim]. unfold fits. rw -(map_size (e :: q)) // -Hm -(N.mod_small _ _ Hb) -Ht.
  destruct Hc as [Hz|[Hl Hy]]; [by rw /len Hm map_size // in Hz|]. unfold len in Hl. by rw Hl Hy.
Qed.

(** A payload that fits can be read back after it is stored, when no other payload has
    its key. *)
Lemma put_keeps s w :
  store_ok s -> (stored_bytes (map_ (data s)) (order (data s)) + str_len w < u64_mod)%N ->
  (forall old, get s (derive_key w) = Some old -> old = w) ->
  fits (max_entries s) (max_bytes s) [(derive_key w, w)] = true ->
  exists s', put w s = Some (derive_key w, s') /\ store_ok s' /\ get s' (derive_key w) = Some w.
Proof.
  intros Hs Hb Hold Hfit. pose proof (queue_of_represents _ (ok_data _ Hs)) as Hr.
  pose proof Hr as (Hd & Ho & Hm & Ht). set (q := queue_of (data s)) in *.
  assert (stored_bytes (map_ (data s)) (order (data s)) = queue_bytes q) as Hq.
  { rw Ho Hm. apply stored_bytes_queue. intros k v Hi. by apply elem_of_list_to_map_1. }
  rw Hq in Hb. pose proof (q_set_bytes_le (derive_key w) w q) as Hle.
  destruct (evict_represents (max_entries s) (max_bytes s) _ _ (insert_represents (derive_key w) w _ _ Hr))
    as (d' & He & Hd'); [lia|].
  pose proof (store_step_ok (OpPut w) s Hs) as (o & s2 & Hstep & Hs2 & _). cbn [store_step] in Hstep.
  unfold put in *. rw He /= in Hstep |- *. injection Hstep as <- <-.
  eexists. split; [done|]. split; [done|]. unfold get. cbn [data].
  destruct Hd' as (Hnd & _ & -> & _). rw -q_get_lookup //.
  unfold get in Hold. rw Hm -q_get_lookup // in Hold.
  destruct (q_get q (derive_key w)) as [old|] eqn:E.
  - rw (Hold old) // in E. rw q_set_same //.
    rw (capped_trim s) //; [by apply ok_capped|lia].
  - assert (derive_key w ∉ map fst q) as Hn.
    { rw q_get_lookup // in E. by apply not_elem_of_list_to_map_2 in E. }
    rw q_set_fresh // in Hnd |- *. pose proof (q_trim_last (max_entries s) (max_bytes s) q (derive_key w, w)) as Hl.
    rw Hfit in Hl. destruct Hl as [p Hp]. rw Hp in Hnd |- *. rw q_get_lookup //.
    apply elem_of_list_to_map_1; [done|]. apply list_elem_of_In, in_or_app. right. by left.
Qed.
End Keep.

(** A payload above the byte cap is dropped at once, with everything before it. *)
Lemma oversized_put_empties `{DeriveKey} s w cap :
  store_ok s -> (stored_bytes (map_ (data s)) (order (data s)) + str_len w < u64_mod)%N ->
  max_bytes s = Some cap -> (cap < str_len w)%N -> get s (derive_key w) = None ->
  exists s', put w s = Some (derive_key w, s') /\ len s' = 0 /\ get s' (derive_key w) = None.
Proof.
  intros Hs Hb Hcap Hw Hnone. pose proof (queue_of_represents _ (ok_data _ Hs)) as Hr.
  pose proof Hr as (Hd & Ho & Hm & Ht). set (q := queue_of (data s)) in *.
  assert (stored_bytes (map_ (data s)) (order (data s)) = queue_bytes q) as Hq.
  { rw Ho Hm. apply stored_bytes_queue. intros k v Hi. by apply elem_of_list_to_map_1. }
  rw Hq in Hb. pose proof (q_set_bytes_le (derive_key w) w q) as Hle.
  destruct (evict_represents (max_entries s) (max_bytes s) _ _ (insert_represents (derive_key w) w _ _ Hr))
    as (d' & He & Hd'); [lia|].
  unfold put. rw He. eexists. split; [done|]. unfold get in Hnone.
  rw Hm in Hnone. apply not_elem_of_list_to_map_2 in Hnone. rw q_set_fresh // in Hd'.
  pose proof (q_trim_last (max_entries s) (max_bytes s) q (derive_key w, w)) as Hl.
  assert (fits (max_entries s) (max_bytes s) [(derive_key w, w)] = false) as Hf.
  { unfold fits. rw Hcap /= N.add_0_r (proj2 (N.ltb_lt _ _) Hw). by rw orb_true_r. }
  rw Hf in Hl. rw Hl in Hd'. destruct Hd' as (_ & _ & Hm' & _).
  unfold len, get. cbn [data]. by rw Hm' map_size_empty.
Qed.

(** ** Properties *)

(** C28.  The store implements the abstract queue: for every sequence of operations on a
    fresh store, with any caps, it answers as the queue does, eviction ends, and the
    final store represents the final queue (while the payloads ever put fit in the
    64-bit counter). *)
Theorem store_refines_queue `{DeriveKey} me mb ops :
  (bytes_put ops < 2 ^ 64)%N ->
  exists s, store_run ops (store_new me mb) = Some ((queue_run me mb ops []).1, s)
            /\ implements me mb s (queue_run me mb ops []).2.
Proof. intros Hb. apply store_run_refines; [apply new_implements|done]. Qed.

(** Every operation ends and keeps the store well formed: the queue names each
    stored payload once, the counter is the size of what is stored, both caps hold, and
    the caps themselves do not change. *)
Lemma store_steps_typed `{DeriveKey} op s :
  store_ok s -> exists o s', store_step op s = Some (o, s') /\ store_ok s'
    /\ max_entries s' = max_entries s /\ max_bytes s' = max_bytes s.
Proof. apply store_step_ok. Qed.

(** The pipeline loses nothing: it returns the content untouched when it is off,
    the transformed content when that is not bloated or is not to be offloaded, and
    otherwise a marker with a key under which the store has the transformed content
    (when that fits the caps on its own, and its key is not another payload's). *)
Lemma pipeline_loses_nothing `{DeriveKey} transforms content c ctx s cfg m :
  let w := transformed transforms content c in
  store_ok s -> (stored_bytes (map_ (data s)) (order (data s)) + str_len w < 2 ^ 64)%N ->
  (forall old, get s (derive_key w) = Some old -> old = w) ->
  fits (max_entries s) (max_bytes s) [(derive_key w, w)] = true ->
  exists out s', run transforms content c ctx s cfg m = Some (out, s') /\ store_ok s'
    /\ (m = Off /\ out = content /\ s' = s
        \/ m <> Off /\ out = w /\ s' = s
        \/ offloads_bloat m = true /\ is_bloated ctx w c cfg = true
           /\ out = offload_marker (derive_key w) /\ get s' (derive_key w) = Some w).
Proof.
  intros w Hs Hb Hold Hfit. unfold run. fold w. destruct (runs_transforms m) eqn:Hr; cbn [negb].
  - destruct (offloads_bloat m && is_bloated ctx w c cfg) eqn:E.
    + apply andb_true_iff in E as [Ho Hbl]. destruct (put_keeps s w Hs Hb Hold Hfit) as (s' & -> & Hs' & Hg).
      eexists _, s'. split; [done|]. split; [done|]. by right; right.
    + exists w, s. split; [done|]. split; [done|]. right. left. by destruct m.
  - exists content, s. split; [done|]. split; [done|]. left. by destruct m.
Qed.

(** ** Concrete inputs *)

Definition demo_key : DeriveKey := fun p => "k" ++ p.

Definition demo_ops : list StoreOp :=
  [OpPut "ab"; OpPut "c"; OpPut "ab"; OpPut "de"; OpGet "kab"; OpGet "kc"; OpLen].

Lemma store_refines_queue_witness :
  exists s, store_run (H := demo_key) demo_ops (store_new (Some 3) (Some 4%N))
            = Some ([OutKey "kab"; OutKey "kc"; OutKey "kab"; OutKey "kde"; OutGet None;
                     OutGet (Some (lit "c")); OutLen 2], s)
    /\ implements (Some 3) (Some 4%N) s [(lit "kc", lit "c"); (lit "kde", lit "de")].
Proof. by apply (store_refines_queue (H := demo_key) (Some 3) (Some 4%N) demo_ops). Defined.

Lemma store_steps_typed_witness :
  exists o s', store_step (H := demo_key) (OpPut "abc") (new_with_byte_cap 2 3) = Some (o, s')
    /\ store_ok s' /\ max_entries s' = Some 2 /\ max_bytes s' = Some 3%N.
Proof. apply (store_steps_typed (H := demo_key)), store_new_ok. Defined.

Lemma pipeline_loses_nothing_witness :
  exists out s', run (H := demo_key) [fun s _ => s ++ s] "abab" PlainText (mkContext None (Some 8%N))
      (new_with_cap 1) default_config Full = Some (out, s')
    /\ out = lit "[offloaded: kabababab]" /\ store_ok s'.
Proof.
  destruct (pipeline_loses_nothing (H := demo_key) [fun s _ => s ++ s] "abab" PlainText
    (mkContext None (Some 8%N)) (new_with_cap 1) default_config Full) as (out & s' & Hr & Hs & _).
  - apply store_new_ok.
  - done.
  - done.
  - done.
  - exists out, s'. split; [exact Hr|]. split; [|exact Hs]. vm_compute in Hr. by injection Hr.
Defined.
