(* ===== verification/Offload.v ===== *)
(** * Slicing and offloading of tool outputs

    Models the crate [kf-budget-core]: [text.rs] (byte offsets in UTF-8 text),
    [store.rs] (the content-addressed stores behind the [OffloadStore] trait),
    [slicing.rs] (the head and tail slicer), [detector.rs] (the kind of an output and
    its threshold) and [orchestrator.rs] (the cache and the batch run).

    The trait is the class [OffloadStore]; what its clients rely on is the class
    [OffloadStoreLaws], proved for both backends, and the slicer and the orchestrator are
    verified against that class.  The hash function is a parameter.  An operation that can
    panic in Rust (a slice at a byte offset inside a character) returns [None]. *)

From S2P Require Import Prelude Machine.

(** ** Byte offsets ([text.rs]) *)

(** [str::is_char_boundary]. *)
Fixpoint is_char_boundary (s : str) (i : N) : bool :=
  (i =? 0)%N ||
  match s with
  | [] => false
  | c :: s' => (char_len c <=? i)%N && is_char_boundary s' (i - char_len c)
  end.

Fixpoint floor_loop (fuel : nat) (s : str) (i : N) : N :=
  match fuel with
  | O => i
  | S fuel' =>
      if (0 <? i)%N && negb (is_char_boundary s i) then floor_loop fuel' s (i - 1) else i
  end.
Definition floor_char_boundary (s : str) (at_ : N) : N :=
  let i := N.min at_ (str_len s) in floor_loop (N.to_nat i) s i.

Fixpoint ceil_loop (fuel : nat) (s : str) (i : N) : N :=
  match fuel with
  | O => i
  | S fuel' =>
      if (i <? str_len s)%N && negb (is_char_boundary s i) then ceil_loop fuel' s (i + 1) else i
  end.
Definition ceil_char_boundary (s : str) (at_ : N) : N :=
  let i := N.min at_ (str_len s) in ceil_loop (N.to_nat (str_len s - i)) s i.

(** [&s[i..j]]. *)
Definition slice_range (s : str) (i j : N) : option str :=
  match split_at_byte s j with
  | Some (a, _) => snd <$> split_at_byte a i
  | None => None
  end.

(** ** Stores ([store.rs]) *)

Definition bytes := list N.

Definition SLICE_MARKER_PREFIX : str := "<<kf-budget:slice:".
Definition SLICE_MARKER_SUFFIX : str := ">>".

Inductive StoreError := InvalidKey (k : str) | NotFound (k : str) | Backend (m : str).
Definition StoreError_display (e : StoreError) : str :=
  match e with
  | InvalidKey k => lit "invalid key: " ++ k
  | NotFound k => lit "key not found: " ++ k
  | Backend m => lit "backend error: " ++ m
  end.

Class OffloadStore (S : Type) := {
  put : bytes -> S -> result str StoreError * S;
  get : S -> str -> result bytes StoreError;
  store_len : S -> nat
}.
Definition store_is_empty {S} `{OffloadStore S} (s : S) : bool := store_len s =? 0.

Definition is_ascii_hexdigit (c : char) : bool :=
  in_range 48 57 c || in_range 97 102 c || in_range 65 70 c.

(** [blake3::hash(bytes).to_hex()]: 64 hexadecimal digits. *)
Class Blake3 := {
  blake3_hex : bytes -> str;
  blake3_hex_length : forall b, length (blake3_hex b) = 64;
  blake3_hex_digits : forall b, forallb is_ascii_hexdigit (blake3_hex b) = true
}.

Definition make_key `{Blake3} (b : bytes) : str := take 24 (blake3_hex b).

Definition validate_key (key : str) : result unit StoreError :=
  if negb (byte_len key =? 24) || negb (forallb is_ascii_hexdigit key)
  then Err (InvalidKey key) else Ok tt.

Definition format_slice_marker (key : str) : str :=
  SLICE_MARKER_PREFIX ++ key ++ SLICE_MARKER_SUFFIX.

Definition parse_slice_marker (s : str) : option str :=
  strip_prefix s SLICE_MARKER_PREFIX ≫= fun r => strip_suffix r SLICE_MARKER_SUFFIX.

(** *** In memory *)

Record StoreData := mkData {
  data_map : gmap str bytes;
  data_order : list str
}.
Definition StoreData_new : StoreData := mkData ∅ [].
Definition StoreData_insert (key : str) (b : bytes) (d : StoreData) : StoreData :=
  mkData (<[key := b]> (data_map d))
         (match data_map d !! key with None => data_order d ++ [key] | Some _ => data_order d end).

Record InMemoryOffloadStore := mkMem {
  mem_data : StoreData;
  max_entries : option nat
}.
Definition mem_new : InMemoryOffloadStore := mkMem StoreData_new None.
Definition mem_new_with_cap (cap : nat) : InMemoryOffloadStore := mkMem StoreData_new (Some cap).

(** The eviction loop ends because it shortens the queue. *)
Fixpoint evict_loop (max : nat) (order : list str) (m : gmap str bytes) : StoreData :=
  if max <? size m then
    match order with
    | [] => mkData m []
    | key :: order' => evict_loop max order' (delete key m)
    end
  else mkData m order.
Definition evict_if_over_cap (s : InMemoryOffloadStore) : InMemoryOffloadStore :=
  match max_entries s with
  | None => s
  | Some max => mkMem (evict_loop max (data_order (mem_data s)) (data_map (mem_data s))) (Some max)
  end.

Section Memory.
Context `{Blake3}.

Definition mem_put (b : bytes) (s : InMemoryOffloadStore)
  : result str StoreError * InMemoryOffloadStore :=
  let key := make_key b in
  (Ok key, evict_if_over_cap (mkMem (StoreData_insert key b (mem_data s)) (max_entries s))).

Definition mem_get (s : InMemoryOffloadStore) (key : str) : result bytes StoreError :=
  do? validate_key key ;; ok_or (data_map (mem_data s) !! key) (NotFound key).

Definition mem_len (s : InMemoryOffloadStore) : nat := size (data_map (mem_data s)).

#[export] Instance mem_store : OffloadStore InMemoryOffloadStore :=
  {| put := mem_put; get := mem_get; store_len := mem_len |}.
End Memory.

(** *** On disk

    [entries] is the directory, by file name; the variables say which writes and reads
    fail, with what text, and what a failed write leaves behind. *)
Record FileOffloadStore := mkFile {
  store_dir : str;
  entries : gmap str bytes
}.

Section File.
Context `{Blake3}.
Variable create_err : str -> option str.
Variable write_err : str -> option str.
Variable leftover : str -> option bytes.
Variable read_err : str -> option str.
Variable read_dir_ok : str -> bool.

Definition key_path (d key : str) : str := d ++ lit "/" ++ key.

(** The directory and what it already holds. *)
Definition file_open (d : str) (present : gmap str bytes) : result FileOffloadStore StoreError :=
  match create_err d with
  | Some e => Err (Backend (lit "create_dir_all " ++ d ++ lit ": " ++ e))
  | None => Ok (mkFile d present)
  end.

Definition file_put (b : bytes) (s : FileOffloadStore) : result str StoreError * FileOffloadStore :=
  let key := make_key b in
  let path := key_path (store_dir s) key in
  match write_err path with
  | None => (Ok key, mkFile (store_dir s) (<[key := b]> (entries s)))
  | Some e =>
      (Err (Backend (lit "write " ++ path ++ lit ": " ++ e)),
       match leftover path with
       | Some b' => mkFile (store_dir s) (<[key := b']> (entries s))
       | None => s
       end)
  end.

Definition file_get (s : FileOffloadStore) (key : str) : result bytes StoreError :=
  do? validate_key key ;;
  let path := key_path (store_dir s) key in
  match read_err path with
  | Some e => Err (Backend (lit "read " ++ path ++ lit ": " ++ e))
  | None => ok_or (entries s !! key) (NotFound key)
  end.

Definition file_len (s : FileOffloadStore) : nat :=
  if read_dir_ok (store_dir s)
  then length (List.filter (fun n => is_ok (validate_key n)) (map fst (map_to_list (entries s))))
  else 0.

Definition file_store : OffloadStore FileOffloadStore :=
  {| put := file_put; get := file_get; store_len := file_len |}.
End File.

(** ** The slicer ([slicing.rs], [error.rs]) *)

Inductive TransformError := InvalidInput (m : str) | Skipped (m : str) | Internal (m : str).

Record SlicedOutput := mkSliced {
  sl_head : str;
  sl_tail : str;
  offload_marker : option str;
  bytes_saved : N
}.

Record HeadTailSlicer := mkSlicer {
  head_bytes : N;
  tail_bytes : N
}.
Definition default_slicer : HeadTailSlicer := mkSlicer 4096 4096.

Section Slicer.
Context {S : Type} `{OffloadStore S}.

(** [None] is a panic. *)
Definition apply (sl : HeadTailSlicer) (input : str) (store : S)
  : option (result SlicedOutput TransformError * S) :=
  let len := str_len input in
  if (len <=? saturating_add (head_bytes sl) (tail_bytes sl))%N
  then Some (Ok (mkSliced input [] None 0), store)
  else
    let head_end := floor_char_boundary input (head_bytes sl) in
    let tail_start := ceil_char_boundary input (len - tail_bytes sl) in
    let middle_start := head_end in
    let middle_end := N.max tail_start middle_start in
    match (if (middle_start <? middle_end)%N
           then match split_at_byte input middle_start, split_at_byte input middle_end with
                | Some (h, _), Some (_, t) => Some (h, t)
                | _, _ => None
                end
           else Some (input, [])),
          slice_range input middle_start middle_end with
    | Some (h, t), Some middle =>
        match put (utf8_encode middle) store with
        | (Ok key, store') =>
            Some (Ok (mkSliced h t (Some (format_slice_marker key)) (str_len middle)), store')
        | (Err e, store') => Some (Err (Internal (lit "store: " ++ StoreError_display e)), store')
        end
    | _, _ => None
    end.

Definition slice_or_skip (input : str)
    (slicer : str -> S -> option (result SlicedOutput TransformError * S)) (store : S)
  : option (SlicedOutput * S) :=
  match slicer input store with
  | None => None
  | Some (Ok out, store') => Some (out, store')
  | Some (Err _, store') => Some (mkSliced input [] None 0, store')
  end.
End Slicer.

(** ** The detector ([detector.rs]) *)

Inductive ToolOutputKind :=
  | TestRunner | Compiler | BuildLog | GenericShell | SearchResults | FileContent | Json | Unknown.

Inductive Decision := Keep | Slice (keep_head keep_tail : N).

Definition one_of (name : str) (l : list str) : bool := existsb (str_eqb name) l.

Definition from_tool_name (name : str) : option ToolOutputKind :=
  if one_of name [lit "cargo test"; lit "jest"; lit "pytest"; lit "mocha"] then Some TestRunner
  else if one_of name [lit "rustc"; lit "cargo build"; lit "tsc"; lit "gcc"] then Some Compiler
  else if one_of name [lit "cmake"; lit "make"; lit "gradle"] then Some BuildLog
  else if one_of name [lit "rg"; lit "grep"; lit "ag"; lit "Grep"] then Some SearchResults
  else if one_of name [lit "cat"; lit "Read"; lit "Write"; lit "Edit"; lit "Glob"] then Some FileContent
  else if one_of name [lit "Bash"] then Some GenericShell
  else None.

(** The first 1024 bytes, cut at a character; [&input[..head_end]]. *)
Definition head_of (input : str) : option str :=
  fst <$> split_at_byte input (floor_char_boundary input (N.min 1024 (str_len input))).

(** The loop that counts lines and stops at the first long one. *)
Fixpoint scan_lines (l : list str) (line_count : nat) : nat * bool :=
  match l with
  | [] => (line_count, true)
  | x :: l' => if (200 <=? str_len x)%N then (Datatypes.S line_count, false)
               else scan_lines l' (Datatypes.S line_count)
  end.

Definition shape_of (head : str) : option ToolOutputKind :=
  if existsb (fun l => starts_with l "running " || starts_with l "test result:") (lines head)
  then Some TestRunner
  else if contains head "error[" || contains head "warning:" then Some Compiler
  else
    let trimmed := trim_start head in
    if starts_with trimmed "{" || starts_with trimmed "[" then Some Json
    else
      let '(line_count, all_short) := scan_lines (lines head) 0 in
      if (0 <? line_count) && all_short
         && (line_count / 2 <? length (List.filter (N.eqb 58) head))
      then Some SearchResults else None.

Definition from_shape (input : str) : option (option ToolOutputKind) := shape_of <$> head_of input.

Definition detect (input : str) (tool_name : option str) : option ToolOutputKind :=
  match tool_name ≫= from_tool_name with
  | Some kind => Some kind
  | None => unwrap_or Unknown <$> from_shape input
  end.

Definition THRESHOLD_VERBOSE : N := 8 * 1024.
Definition THRESHOLD_MEDIUM : N := 4 * 1024.
Definition THRESHOLD_TIGHT : N := 2 * 1024.
Definition THRESHOLD_LOOSE : N := 16 * 1024.
Definition THRESHOLD_NEVER : N := usize_max.
Definition SLICE_HEAD_BYTES : N := 4096.
Definition SLICE_TAIL_BYTES : N := 4096.

Definition threshold (kind : ToolOutputKind) : N :=
  match kind with
  | TestRunner | Compiler | Unknown => THRESHOLD_VERBOSE
  | BuildLog | Json => THRESHOLD_MEDIUM
  | GenericShell => THRESHOLD_TIGHT
  | SearchResults => THRESHOLD_LOOSE
  | FileContent => THRESHOLD_NEVER
  end.
Definition should_slice (kind : ToolOutputKind) (size_ : N) : Decision :=
  if (threshold kind <=? size_)%N then Slice SLICE_HEAD_BYTES SLICE_TAIL_BYTES else Keep.

(** ** The orchestrator ([orchestrator.rs]) *)

Inductive SliceDecision :=
  | DKeep (kind : ToolOutputKind) (size_ : N)
  | DSliced (kind : ToolOutputKind) (marker head tail : str) (bytes_kept bytes_offloaded : N).

Record OrchestratorResult := mkOrch {
  decisions : list (str * SliceDecision);
  total_bytes_saved : N
}.

Definition DETECTOR_CACHE_CAP : nat := 64.

Abbreviation DetectorCache := (gmap (option str * str) ToolOutputKind).

Section Orchestrator.
Context `{Blake3} {S : Type} `{OffloadStore S}.

Definition get_or_detect (cache : DetectorCache) (tool_name : option str) (content : str)
  : option (ToolOutputKind * DetectorCache) :=
  let cache := if DETECTOR_CACHE_CAP <=? size cache then ∅ else cache in
  match head_of content with
  | None => None
  | Some head =>
      let key := (tool_name, blake3_hex (utf8_encode head)) in
      match cache !! key with
      | Some kind => Some (kind, cache)
      | None => match detect content tool_name with
                | Some kind => Some (kind, <[key := kind]> cache)
                | None => None
                end
      end
  end.

Definition decide_output (kind : ToolOutputKind) (content : str) (store : S)
  : option (SliceDecision * S) :=
  let size_ := str_len content in
  match should_slice kind size_ with
  | Keep => Some (DKeep kind size_, store)
  | Slice keep_head keep_tail =>
      match slice_or_skip content (apply (mkSlicer keep_head keep_tail)) store with
      | None => None
      | Some (out, store') =>
          let kept := (str_len (sl_head out) + str_len (sl_tail out))%N in
          Some (match offload_marker out with
                | Some marker => DSliced kind marker (sl_head out) (sl_tail out) kept (size_ - kept)
                | None => DKeep kind size_
                end, store')
      end
  end.

Fixpoint run_outputs (outputs : list (str * str * option str)) (cache : DetectorCache) (store : S)
  : option (list (str * SliceDecision) * DetectorCache * S) :=
  match outputs with
  | [] => Some ([], cache, store)
  | (key, content, tool_name) :: outputs' =>
      match get_or_detect cache tool_name content with
      | None => None
      | Some (kind, cache') =>
          match decide_output kind content store with
          | None => None
          | Some (d, store') =>
              match run_outputs outputs' cache' store' with
              | None => None
              | Some (ds, cache'', store'') => Some ((key, d) :: ds, cache'', store'')
              end
          end
      end
  end.

Definition saved_by (d : SliceDecision) : N :=
  match d with DKeep _ _ => 0 | DSliced _ _ _ _ _ off => off end.

Definition run (outputs : list (str * str * option str)) (cache : DetectorCache) (store : S)
  : option (OrchestratorResult * DetectorCache * S) :=
  match run_outputs outputs cache store with
  | None => None
  | Some (ds, cache', store') =>
      Some (mkOrch ds (foldl saturating_add 0%N (map (fun d => saved_by (snd d)) ds)), cache', store')
  end.
End Orchestrator.

(** ** Byte offsets: lemmas *)

Lemma is_char_boundary_split s i : is_char_boundary s i = is_some_b (split_at_byte s i).
Proof.
  revert i. induction s as [|c s IH]; intros i; simpl; destruct (i =? 0)%N; try done.
  simpl. destruct (_ <=? _)%N; [|done]. simpl. rewrite IH.
  by destruct (split_at_byte s _) as [[??]|].
Qed.

Lemma boundary_spec s i :
  is_char_boundary s i = true <-> exists a b, s = a ++ b /\ str_len a = i.
Proof.
  rewrite is_char_boundary_split. split.
  - destruct (split_at_byte s i) as [[a b]|] eqn:E; [|done]. intros _.
    apply split_at_byte_spec in E. eauto.
  - intros (a & b & Hs). apply split_at_byte_spec in Hs. by rewrite Hs.
Qed.

Lemma boundary_0 s : is_char_boundary s 0 = true.
Proof. by destruct s. Qed.
Lemma boundary_len s : is_char_boundary s (str_len s) = true.
Proof. apply boundary_spec. exists s, []. by rewrite app_nil_r. Qed.
Lemma boundary_le s i : is_char_boundary s i = true -> (i <= str_len s)%N.
Proof. intros (a & b & -> & <-)%boundary_spec. rewrite str_len_app. lia. Qed.

Lemma floor_loop_spec fuel s i :
  (N.to_nat i <= fuel)%nat ->
  let r := floor_loop fuel s i in
  is_char_boundary s r = true /\ (r <= i)%N
  /\ forall j, is_char_boundary s j = true -> (j <= i)%N -> (j <= r)%N.
Proof.
  revert i. induction fuel as [|fuel IH]; intros i Hi; simpl.
  - assert (i = 0%N) as -> by lia. split; [apply boundary_0 |]. split; [lia | done].
  - destruct (N.ltb_spec 0 i) as [Hp|Hp]; simpl.
    + destruct (is_char_boundary s i) eqn:E; simpl.
      * split; [done |]. split; [lia | done].
      * destruct (IH (i - 1)%N ltac:(lia)) as (H1 & H2 & H3). split; [done |]. split; [lia |].
        intros j Hj Hle. apply H3; [done |]. assert (j <> i) by congruence. lia.
    + assert (i = 0%N) as -> by lia. split; [apply boundary_0 |]. split; [lia | done].
Qed.

Lemma ceil_loop_spec fuel s i :
  (i <= str_len s)%N -> (N.to_nat (str_len s - i) <= fuel)%nat ->
  let r := ceil_loop fuel s i in
  is_char_boundary s r = true /\ (i <= r)%N
  /\ forall j, is_char_boundary s j = true -> (i <= j)%N -> (r <= j)%N.
Proof.
  revert i. induction fuel as [|fuel IH]; intros i Hl Hi; simpl.
  - assert (i = str_len s) as -> by lia. split; [apply boundary_len |]. split; [lia | done].
  - destruct (N.ltb_spec i (str_len s)) as [Hp|Hp]; simpl.
    + destruct (is_char_boundary s i) eqn:E; simpl.
      * split; [done |]. split; [lia | done].
      * destruct (IH (i + 1)%N ltac:(lia) ltac:(lia)) as (H1 & H2 & H3).
        split; [done |]. split; [lia |].
        intros j Hj Hle. apply H3; [done |]. assert (j <> i) by congruence. lia.
    + assert (i = str_len s) as -> by lia. split; [apply boundary_len |]. split; [lia | done].
Qed.

Lemma floor_char_boundary_spec s at_ :
  let r := floor_char_boundary s at_ in
  is_char_boundary s r = true /\ (r <= at_)%N
  /\ forall j, is_char_boundary s j = true -> (j <= at_)%N -> (j <= r)%N.
Proof.
  unfold floor_char_boundary.
  destruct (floor_loop_spec (N.to_nat (N.min at_ (str_len s))) s (N.min at_ (str_len s)) (le_n _))
    as (H1 & H2 & H3).
  split; [done |]. split; [lia |]. intros j Hj Hle. apply H3; [done |].
  apply boundary_le in Hj. lia.
Qed.

Lemma ceil_char_boundary_spec s at_ :
  (at_ <= str_len s)%N ->
  let r := ceil_char_boundary s at_ in
  is_char_boundary s r = true /\ (at_ <= r)%N
  /\ forall j, is_char_boundary s j = true -> (at_ <= j)%N -> (r <= j)%N.
Proof.
  intros Hat. unfold ceil_char_boundary. rewrite (N.min_l at_ (str_len s)) by done.
  by apply ceil_loop_spec.
Qed.

(** Two boundaries cut the text into three parts. *)
Lemma cut_middle s i j :
  is_char_boundary s i = true -> is_char_boundary s j = true -> (i <= j)%N ->
  exists h m t, s = h ++ m ++ t /\ str_len h = i /\ str_len (h ++ m) = j
    /\ split_at_byte s i = Some (h, m ++ t) /\ split_at_byte s j = Some (h ++ m, t)
    /\ slice_range s i j = Some m.
Proof.
  intros (a & b & Hs & Ha)%boundary_spec (c & d & Hs' & Hc)%boundary_spec Hij.
  assert (exists m, c = a ++ m) as [m ->].
  { assert (a ++ b = c ++ d) as E by congruence. apply app_eq_inv in E as [(k & -> & ->)|(k & -> & ->)].
    - rewrite str_len_app in Ha. assert (str_len k = 0%N) as ->%str_len_zero by lia.
      exists []. by rewrite !app_nil_r.
    - by exists k. }
  assert (b = m ++ d) as ->.
  { rewrite Hs, <-app_assoc in Hs'. by apply app_inv_head in Hs'. }
  exists a, m, d.
  assert (split_at_byte s j = Some (a ++ m, d)) as Ej by (by apply split_at_byte_spec).
  split; [done |]. split; [done |]. split; [done |]. split; [by apply split_at_byte_spec |].
  split; [done |]. unfold slice_range. rewrite Ej.
  by rewrite (proj2 (split_at_byte_spec (a ++ m) i a m)).
Qed.

(** ** Keys and markers *)

Lemma byte_len_hex s : forallb is_ascii_hexdigit s = true -> byte_len s = length s.
Proof.
  unfold byte_len, utf8_encode. induction s as [|c s IH]; [done |].
  cbn [forallb]. intros [Hc Hs]%andb_true_iff. rewrite bind_cons, length_app, IH by done.
  assert (c < 128)%N as Hlt.
  { unfold is_ascii_hexdigit, in_range in Hc. rewrite !orb_true_iff, !andb_true_iff, !N.leb_le in Hc.
    lia. }
  unfold utf8_encode_char. by rewrite (proj2 (N.ltb_lt _ _) Hlt).
Qed.

Lemma forallb_take {A} (p : A -> bool) n l : forallb p l = true -> forallb p (take n l) = true.
Proof.
  rewrite !forallb_elem. intros Hl x Hx. apply Hl. by eapply subseteq_take.
Qed.

Lemma make_key_valid `{Blake3} b : validate_key (make_key b) = Ok tt.
Proof.
  unfold validate_key, make_key.
  assert (forallb is_ascii_hexdigit (take 24 (blake3_hex b)) = true) as Hd
    by apply forallb_take, blake3_hex_digits.
  rewrite (byte_len_hex _ Hd), Hd, length_take, blake3_hex_length. done.
Qed.

(** Markers and keys determine each other. *)
Lemma parse_format_slice_marker s key :
  parse_slice_marker s = Some key <-> s = format_slice_marker key.
Proof.
  unfold parse_slice_marker, format_slice_marker. rewrite bind_Some. split.
  - intros (r & ->%strip_prefix_Some & ->%strip_suffix_Some). done.
  - intros ->. exists (key ++ SLICE_MARKER_SUFFIX).
    by rewrite strip_prefix_Some, strip_suffix_Some.
Qed.

(** ** What a store promises *)

Class OffloadStoreLaws `{Blake3} (S : Type) `{OffloadStore S} := {
  store_ok : S -> Prop;
  put_preserves : forall b s, store_ok s -> store_ok (snd (put b s));
  put_key : forall b s k s', put b s = (Ok k, s') -> k = make_key b;
  put_get : forall b s k s', store_ok s -> put b s = (Ok k, s') -> get s' k = Ok b
}.

(** A store that never fails and never forgets. *)
Class PersistentStore `{Blake3} (S : Type) `{OffloadStoreLaws S} := {
  durable : S -> Prop;
  durable_ok : forall s, durable s -> store_ok s;
  durable_put : forall b s, durable s ->
    exists s', put b s = (Ok (make_key b), s') /\ durable s'
      /\ forall k v, get s k = Ok v -> k <> make_key b \/ v = b -> get s' k = Ok v
}.

(** *** The memory store *)

(** The queue lists the keys of the map once each, and a capped store is within a cap of
    at least one entry. *)
Record mem_wf (s : InMemoryOffloadStore) : Prop := {
  wf_nodup : NoDup (data_order (mem_data s));
  wf_keys : forall k, k ∈ data_order (mem_data s) <-> is_Some (data_map (mem_data s) !! k);
  wf_cap : forall cap, max_entries s = Some cap ->
             1 <= cap /\ length (data_order (mem_data s)) <= cap
}.

Lemma size_order (order : list str) (m : gmap str bytes) :
  NoDup order -> (forall k, k ∈ order <-> is_Some (m !! k)) -> size m = length order.
Proof.
  intros Hnd Hk. rewrite <-size_dom, <-(size_list_to_set (C := gset str) order) by done.
  f_equal. apply set_eq. intros k. rewrite elem_of_list_to_set, elem_of_dom. by rewrite Hk.
Qed.

(** Eviction drops the oldest keys until the cap is met. *)
Lemma evict_loop_spec (max : nat) (order : list str) (m : gmap str bytes) :
  NoDup order -> (forall k, k ∈ order <-> is_Some (m !! k)) ->
  let kept := drop (length order - max) order in
  data_order (evict_loop max order m) = kept
  /\ forall k, data_map (evict_loop max order m) !! k = if decide (k ∈ kept) then m !! k else None.
Proof.
  revert m. induction order as [|x order IH]; intros m Hnd Hk; simpl.
  - rewrite (size_order _ _ Hnd Hk). simpl. destruct (max <? 0) eqn:E; [apply Nat.ltb_lt in E; lia |].
    split; [done |]. intros k. simpl. destruct (m !! k) eqn:Em; [|done].
    assert (k ∈ @nil str) as Hn by (apply Hk; eauto). by apply elem_of_nil in Hn.
  - rewrite (size_order _ _ Hnd Hk). cbn [length]. apply NoDup_cons in Hnd as [Hx Hnd].
    destruct (Nat.ltb_spec max (S (length order))) as [Hlt|Hge].
    + assert (forall k, k ∈ order <-> is_Some (delete x m !! k)) as Hk'.
      { intros k. rewrite lookup_delete_is_Some, <-Hk, elem_of_cons. split; [|by intros [? [->|?]]].
        intros Hin. split; [by intros -> | by right]. }
      destruct (IH (delete x m) Hnd Hk') as [H1 H2].
      replace (S (length order) - max) with (S (length order - max)) by lia.
      cbn [drop]. split; [done |]. intros k. rewrite H2. case_decide as Hd; [|done].
      apply lookup_delete_ne. intros ->. apply Hx. by eapply subseteq_drop.
    + replace (S (length order) - max) with 0 by lia. split; [done |]. intros k. cbn [data_map drop].
      case_decide as Hd; [done |]. destruct (m !! k) eqn:Em; [|done]. destruct Hd. apply Hk. eauto.
Qed.

Section MemoryLaws.
Context `{Blake3}.

Definition queue_after (b : bytes) (s : InMemoryOffloadStore) : list str :=
  let q := data_order (mem_data s) ++
           (if decide (make_key b ∈ data_order (mem_data s)) then [] else [make_key b]) in
  match max_entries s with None => q | Some cap => drop (length q - cap) q end.

(** The queue and the contents after a [put]. *)
Lemma mem_put_spec b s :
  mem_wf s ->
  let s' := snd (mem_put b s) in
  fst (mem_put b s) = Ok (make_key b) /\ max_entries s' = max_entries s
  /\ data_order (mem_data s') = queue_after b s
  /\ forall k, data_map (mem_data s') !! k =
       if decide (k ∈ queue_after b s)
       then (if decide (k = make_key b) then Some b else data_map (mem_data s) !! k) else None.
Proof.
  intros [Hnd Hk Hcap]. unfold mem_put, evict_if_over_cap, queue_after.
  set (key := make_key b). cbn [fst snd max_entries mem_data StoreData_insert data_order data_map].
  assert ((match data_map (mem_data s) !! key with
           | None => data_order (mem_data s) ++ [key]
           | Some _ => data_order (mem_data s) end)
          = data_order (mem_data s) ++ (if decide (key ∈ data_order (mem_data s)) then [] else [key])) as Eq.
  { case_decide as Hd; rewrite Hk in Hd.
    - destruct Hd as [v Hv]. by rewrite Hv, app_nil_r.
    - destruct (_ !! key) eqn:E; [|done]. destruct Hd. eauto. }
  set (q := data_order (mem_data s) ++ (if decide _ then [] else [key])) in *.
  assert (NoDup q) as Hq.
  { subst q. case_decide; [by rewrite app_nil_r |]. apply NoDup_app. split; [done |].
    split; [|apply NoDup_singleton]. by intros x Hx ->%list_elem_of_singleton. }
  set (m := <[key := b]> (data_map (mem_data s))) in *.
  assert (forall k, k ∈ q <-> is_Some (m !! k)) as Hqk.
  { intros k. subst q m. rewrite elem_of_app, lookup_insert_is_Some, <-Hk.
    case_decide; rewrite ?elem_of_nil, ?list_elem_of_singleton.
    - destruct (decide (key = k)) as [->|]; tauto.
    - destruct (decide (key = k)) as [->|]; naive_solver. }
  assert (forall k, m !! k = if decide (k = key) then Some b else data_map (mem_data s) !! k) as Hm.
  { intros k. subst m. case_decide as E; [subst k; apply lookup_insert_eq | by apply lookup_insert_ne]. }
  split; [done |].
  destruct (max_entries s) as [cap|] eqn:Ec; cbn [mem_data max_entries StoreData_insert data_order data_map].
  - unfold StoreData_insert. cbn [data_order data_map]. fold m. rewrite Eq. fold q.
    destruct (evict_loop_spec cap q m Hq Hqk) as [H1 H2]. split; [done |]. split; [done |].
    intros k. rewrite H2. case_decide; [apply Hm | done].
  - unfold StoreData_insert. cbn [data_order data_map]. fold m. rewrite Eq. fold q.
    split; [done |]. split; [done |]. intros k. case_decide as Hd; [apply Hm |].
    rewrite Hqk in Hd. by apply eq_None_not_Some in Hd.
Qed.

Lemma queue_after_nodup b s : mem_wf s -> NoDup (queue_after b s).
Proof.
  intros [Hnd _ _]. unfold queue_after.
  assert (NoDup (data_order (mem_data s) ++
    (if decide (make_key b ∈ data_order (mem_data s)) then [] else [make_key b]))) as Hq.
  { case_decide as Hd; [by rewrite app_nil_r |]. apply NoDup_app. split; [done |].
    split; [|apply NoDup_singleton]. by intros x Hx ->%list_elem_of_singleton. }
  destruct (max_entries s); [|done]. eapply sublist_NoDup; [exact Hq | apply sublist_drop].
Qed.

(** The key just stored is in the queue: at its end when it is new. *)
Lemma queue_after_key b s :
  mem_wf s -> make_key b ∈ queue_after b s
  /\ ((make_key b ∉ data_order (mem_data s)) -> exists pre, queue_after b s = pre ++ [make_key b]).
Proof.
  intros [Hnd Hk Hcap]. unfold queue_after. case_decide as Hd.
  - split; [|done]. rewrite app_nil_r. destruct (max_entries s) as [cap|] eqn:Ec; [|done].
    destruct (Hcap cap eq_refl) as [_ Hle].
    by replace (length (data_order (mem_data s)) - cap) with 0 by lia.
  - assert (exists pre, (match max_entries s with
      | Some cap => drop (length (data_order (mem_data s) ++ [make_key b]) - cap)
                      (data_order (mem_data s) ++ [make_key b])
      | None => data_order (mem_data s) ++ [make_key b] end) = pre ++ [make_key b]) as [pre Hp].
    { destruct (max_entries s) as [cap|] eqn:Ec; [|by eexists].
      destruct (Hcap cap eq_refl) as [H1 _]. rewrite length_app. cbn [length].
      rewrite drop_app_le by lia. by eexists. }
    rewrite Hp. split; [|by exists pre]. apply elem_of_app. right. by left.
Qed.

Lemma mem_put_wf b s : mem_wf s -> mem_wf (snd (mem_put b s)).
Proof.
  intros Hwf. destruct (mem_put_spec b s Hwf) as (_ & Hm & Ho & Hl). constructor.
  - rewrite Ho. by apply queue_after_nodup.
  - intros k. rewrite Ho, Hl. case_decide as Hd.
    + split; [intros _ | done]. case_decide as He; [eauto |]. apply (wf_keys s Hwf).
      unfold queue_after in Hd.
      assert (k ∈ data_order (mem_data s) ++
        (if decide (make_key b ∈ data_order (mem_data s)) then [] else [make_key b])) as Hin.
      { destruct (max_entries s); [|done]. by eapply subseteq_drop. }
      apply elem_of_app in Hin as [Hin|Hin]; [done |].
      case_decide; [by apply elem_of_nil in Hin | by apply list_elem_of_singleton in Hin].
    + split; [done | by intros [? ?]].
  - intros cap. rewrite Hm, Ho. intros Hc. destruct (wf_cap s Hwf cap Hc) as [H1 _].
    split; [done |]. unfold queue_after. rewrite Hc, length_drop. lia.
Qed.

Lemma mem_get_valid s b :
  mem_get s (make_key b) = ok_or (data_map (mem_data s) !! make_key b) (NotFound (make_key b)).
Proof. unfold mem_get. by rewrite make_key_valid. Qed.

#[export] Instance mem_laws : OffloadStoreLaws InMemoryOffloadStore.
Proof.
  refine {| store_ok := mem_wf |}.
  - intros b s. apply mem_put_wf.
  - intros b s k s'. by intros [= <- _].
  - intros b s k s' Hwf Hp. destruct (mem_put_spec b s Hwf) as (Hk & _ & _ & Hl).
    cbn [put get mem_store] in *. rewrite Hp in Hk, Hl. cbn [fst snd] in *. injection Hk as ->.
    rewrite mem_get_valid, Hl, decide_True by (by apply queue_after_key).
    by rewrite decide_True.
Defined.

Lemma mem_get_Ok s k v : mem_get s k = Ok v -> data_map (mem_data s) !! k = Some v.
Proof.
  unfold mem_get. intros (u & _ & Hk)%result_bind_Ok.
  by destruct (data_map (mem_data s) !! k); simplify_eq/=.
Qed.

#[export] Instance mem_persistent : PersistentStore InMemoryOffloadStore.
Proof.
  refine {| durable := fun s => mem_wf s /\ max_entries s = None |}.
  - by intros s [? _].
  - intros b s [Hwf Hm]. exists (snd (mem_put b s)).
    destruct (mem_put_spec b s Hwf) as (Hk & Hm' & Ho & Hl).
    split; [cbn [put mem_store]; rewrite <-Hk; by destruct (mem_put b s) |].
    split; [split; [by apply mem_put_wf | congruence] |].
    intros k v Hg Hor. cbn [get mem_store] in *. revert Hg. unfold mem_get.
    intros (u & Hv & Hg)%result_bind_Ok. rewrite Hv. simpl.
    destruct (data_map (mem_data s) !! k) as [w|] eqn:E; [|done]. injection Hg as ->.
    rewrite Hl, decide_True.
    + case_decide as He; [|by rewrite E]. destruct Hor as [?|[= ->]]; [done |]. done.
    + unfold queue_after. rewrite Hm. apply elem_of_app. left. apply (wf_keys s Hwf). eauto.
Defined.

Fixpoint mem_puts (bs : list bytes) (s : InMemoryOffloadStore) : InMemoryOffloadStore :=
  match bs with [] => s | b :: bs' => mem_puts bs' (snd (mem_put b s)) end.

(** A key at distance [d] from the end of the queue survives [cap - d] further puts. *)
Lemma mem_puts_keep cap key v bs s pre post :
  mem_wf s -> max_entries s = Some cap -> data_order (mem_data s) = pre ++ key :: post ->
  data_map (mem_data s) !! key = Some v -> length post + length bs < cap ->
  Forall (fun b' => make_key b' = key -> b' = v) bs ->
  data_map (mem_data (mem_puts bs s)) !! key = Some v.
Proof.
  revert s pre post. induction bs as [|b bs IH]; intros s pre post Hwf Hc Ho Hv Hd Hall; [done |].
  apply Forall_cons in Hall as [Hb Hall]. cbn [length] in Hd. cbn [mem_puts].
  destruct (mem_put_spec b s Hwf) as (_ & Hm & Ho' & Hl).
  assert (exists pre' post', queue_after b s = pre' ++ key :: post' /\ length post' <= S (length post))
    as (pre' & post' & Hq & Hlen).
  { unfold queue_after. rewrite Hc, Ho. set (x := if decide _ then _ else _).
    assert (length x <= 1) as Hx by (subst x; case_decide; simpl; lia).
    rewrite <-app_assoc. cbn [app].
    rewrite drop_app_le by (rewrite !length_app; cbn [length]; rewrite length_app; lia).
    eexists _, (post ++ x). split; [done |]. rewrite length_app. lia. }
  apply (IH _ pre' post'); [by apply mem_put_wf | congruence | congruence | | lia | done].
  rewrite Hl, decide_True by (rewrite Hq; apply elem_of_app; right; by left).
  case_decide as He; [|done]. by rewrite Hb.
Qed.

(** The capped memory store is a first-in first-out window: a payload whose key is
    new stays retrievable under the key that [put] returned while fewer than [cap]
    further payloads are stored, unless one of them has the same key. *)
Lemma mem_fifo_window cap b bs s :
  mem_wf s -> max_entries s = Some cap -> (make_key b ∉ data_order (mem_data s)) ->
  length bs < cap -> Forall (fun b' => make_key b' = make_key b -> b' = b) bs ->
  fst (mem_put b s) = Ok (make_key b)
  /\ mem_get (mem_puts bs (snd (mem_put b s))) (make_key b) = Ok b
  /\ mem_len (snd (mem_put b s)) <= cap.
Proof.
  intros Hwf Hc Hnew Hlen Hall. destruct (mem_put_spec b s Hwf) as (Hk & Hm & Ho & Hl).
  pose proof (mem_put_wf b s Hwf) as Hwf'.
  destruct (queue_after_key b s Hwf) as [Hin Hlast]. destruct (Hlast Hnew) as [pre Hq].
  split; [done |]. split.
  - rewrite mem_get_valid, (mem_puts_keep cap (make_key b) b bs _ pre []); [done | done | congruence |
      congruence | | by simpl | done].
    by rewrite Hl, decide_True, decide_True.
  - unfold mem_len. rewrite (size_order _ _ (wf_nodup _ Hwf') (wf_keys _ Hwf')).
    apply (wf_cap _ Hwf'). congruence.
Qed.
End MemoryLaws.

(** *** The file store

    Its laws hold while reads do not fail; it is durable while writes do not fail
    either.  A failed write may damage the entry of the same content. *)
Section FileLaws.
Context `{Blake3}.
Variable write_err : str -> option str.
Variable leftover : str -> option bytes.
Variable read_err : str -> option str.
Variable read_dir_ok : str -> bool.
Hypothesis reads : forall p, read_err p = None.

Let fs_store : OffloadStore FileOffloadStore := file_store write_err leftover read_err read_dir_ok.
#[local] Existing Instance fs_store.

Lemma file_get_valid s b :
  file_get read_err s (make_key b) = ok_or (entries s !! make_key b) (NotFound (make_key b)).
Proof. unfold file_get. rewrite make_key_valid. simpl. by rewrite reads. Qed.

Definition file_laws : OffloadStoreLaws FileOffloadStore.
Proof.
  refine {| store_ok := fun _ => True |}.
  - done.
  - intros b s k s'. cbn [put fs_store file_store]. unfold file_put.
    destruct (write_err _); by intros [= <- _].
  - intros b s k s' _. cbn [put get fs_store file_store]. unfold file_put.
    destruct (write_err _); [done |]. intros [= <- <-].
    rewrite file_get_valid. cbn [entries]. by rewrite lookup_insert_eq.
Defined.
#[local] Existing Instance file_laws.

Hypothesis writes : forall p, write_err p = None.

Definition file_persistent : PersistentStore FileOffloadStore.
Proof.
  refine {| durable := fun _ => True |}.
  - done.
  - intros b s _. cbn [put get fs_store file_store]. unfold file_put. rewrite writes.
    eexists. split; [done |]. split; [done |]. intros k v Hg Hor. revert Hg. unfold file_get.
    intros (u & Hv & Hg)%result_bind_Ok. rewrite Hv. simpl. rewrite reads in *. cbn [entries].
    destruct (decide (k = make_key b)) as [->|Hne].
    + rewrite lookup_insert_eq. by destruct Hor as [?| ->].
    + by rewrite lookup_insert_ne.
Defined.
End FileLaws.

(** ** The slicer *)

Section SlicerProofs.
Context `{Blake3} {St : Type} `{OffloadStoreLaws St}.

(** The cut that the slicer makes in an input that does not fit. *)
Lemma slicer_cut sl input :
  (str_len input <= usize_max)%N ->
  (saturating_add (head_bytes sl) (tail_bytes sl) < str_len input)%N ->
  exists h m t, input = h ++ m ++ t /\ m <> []
    /\ (str_len h <= head_bytes sl)%N /\ (str_len t <= tail_bytes sl)%N
    /\ forall store, apply sl input store =
         match put (utf8_encode m) store with
         | (Ok key, store') =>
             Some (Ok (mkSliced h t (Some (format_slice_marker key)) (str_len m)), store')
         | (Err e, store') => Some (Err (Internal (lit "store: " ++ StoreError_display e)), store')
         end.
Proof.
  intros Hmax Hlt. unfold saturating_add in Hlt.
  destruct (floor_char_boundary_spec input (head_bytes sl)) as (Hb1 & Hle1 & _).
  destruct (ceil_char_boundary_spec input (str_len input - tail_bytes sl)) as (Hb2 & Hle2 & _); [lia |].
  set (i := floor_char_boundary input (head_bytes sl)) in *.
  set (j := ceil_char_boundary input (str_len input - tail_bytes sl)) in *.
  assert (i < j)%N as Hij by lia.
  destruct (cut_middle input i j Hb1 Hb2 ltac:(lia)) as (h & m & t & Hs & Hh & Hhm & S1 & S2 & S3).
  exists h, m, t. split; [done |].
  split; [intros ->; rewrite app_nil_r in Hhm; lia |]. split; [lia |].
  split; [rewrite Hs, app_assoc, str_len_app in Hle2; lia |].
  intros store. unfold apply. rewrite (proj2 (N.leb_gt _ _)) by (unfold saturating_add; lia).
  fold i j. rewrite (N.max_l j i) by lia. rewrite (proj2 (N.ltb_lt _ _) Hij), S1, S2, S3. done.
Qed.

(** C22.  For every store that keeps its promise, slicing never panics and loses
    nothing: the input is kept whole, or it is the kept head, the stored middle and the
    kept tail in this order, the head and the tail within their limits, the marker
    parses to a key under which the store returns the middle; a store error is the only
    error. *)
Theorem apply_spec sl input store :
  (str_len input <= usize_max)%N -> store_ok store ->
  exists r store', apply sl input store = Some (r, store') /\ store_ok store' /\
    match r with
    | Err e => exists err m, put (utf8_encode m) store = (Err err, store')
                 /\ e = Internal (lit "store: " ++ StoreError_display err)
    | Ok out =>
        match offload_marker out with
        | None => out = mkSliced input [] None 0 /\ store' = store
                  /\ (str_len input <= head_bytes sl + tail_bytes sl)%N
        | Some marker =>
            (head_bytes sl + tail_bytes sl < str_len input)%N
            /\ (str_len (sl_head out) <= head_bytes sl)%N
            /\ (str_len (sl_tail out) <= tail_bytes sl)%N
            /\ exists middle key, input = sl_head out ++ middle ++ sl_tail out
                 /\ bytes_saved out = str_len middle
                 /\ parse_slice_marker marker = Some key
                 /\ get store' key = Ok (utf8_encode middle)
        end
    end.
Proof.
  intros Hmax Hok.
  destruct (N.le_gt_cases (str_len input) (saturating_add (head_bytes sl) (tail_bytes sl))) as [Hle|Hgt].
  - exists (Ok (mkSliced input [] None 0)), store. unfold apply.
    rewrite (proj2 (N.leb_le _ _) Hle). split; [done |]. split; [done |]. cbn [offload_marker].
    unfold saturating_add in Hle. split; [done |]. split; [done | lia].
  - destruct (slicer_cut sl input Hmax Hgt) as (h & m & t & Hs & _ & Hh & Ht & Happ).
    unfold saturating_add in Hgt. rewrite Happ.
    pose proof (put_preserves (utf8_encode m) store Hok) as Hok'.
    destruct (put (utf8_encode m) store) as [[key|e] store'] eqn:Ep; eexists _, store';
      (split; [done |]); (split; [done |]).
    + cbn [offload_marker sl_head sl_tail bytes_saved]. do 3 (split; [lia |]).
      exists m, key. split; [done |]. split; [done |].
      split; [by apply parse_format_slice_marker | exact (put_get _ _ _ _ Hok Ep)].
    + eauto.
Qed.
End SlicerProofs.

(** ** The orchestrator *)

Lemma head_of_total input :
  exists a b, head_of input = Some a /\ input = a ++ b.
Proof.
  unfold head_of.
  destruct (floor_char_boundary_spec input (N.min 1024 (str_len input))) as (Hb & _ & _).
  rewrite is_char_boundary_split in Hb.
  destruct (split_at_byte input _) as [[a b]|] eqn:E; [|done].
  apply split_at_byte_spec in E as [Hs _]. by exists a, b.
Qed.

(** The kind of an output depends on the tool name and the head only. *)
Lemma detect_head input input' tool :
  head_of input = head_of input' -> detect input tool = detect input' tool.
Proof. intros Hh. unfold detect, from_shape. by rewrite Hh. Qed.

Lemma detect_total input tool : exists kind, detect input tool = Some kind.
Proof.
  unfold detect, from_shape. destruct (tool ≫= from_tool_name) as [k|]; [by exists k |].
  destruct (head_of_total input) as (a & b & -> & _). by eexists.
Qed.

(** The payloads that a batch can store or hash: parts of its outputs. *)
Definition fragment (outputs : list (str * str * option str)) (x : str) : Prop :=
  exists o a b, o ∈ outputs /\ snd (fst o) = a ++ x ++ b.

Section OrchestratorProofs.
Context `{Blake3} {St : Type} `{PersistentStore St}.

(** No two parts of the outputs have the same key. *)
Definition collision_free (outputs : list (str * str * option str)) : Prop :=
  forall x y, fragment outputs x -> fragment outputs y ->
    make_key (utf8_encode x) = make_key (utf8_encode y) -> x = y.

(** A decision is faithful to the output and the store. *)
Definition decision_ok (content : str) (tool : option str) (d : SliceDecision) (store : St) : Prop :=
  exists kind, detect content tool = Some kind /\
    if ((threshold kind <=? str_len content) && (8192 <? str_len content))%N
    then exists h m t, content = h ++ m ++ t
           /\ (str_len h <= 4096)%N /\ (str_len t <= 4096)%N
           /\ d = DSliced kind (format_slice_marker (make_key (utf8_encode m))) h t
                    (str_len h + str_len t) (str_len m)
           /\ get store (make_key (utf8_encode m)) = Ok (utf8_encode m)
    else d = DKeep kind (str_len content).

(** What a store keeps while parts of the outputs are stored. *)
Definition keeps (outputs : list (str * str * option str)) (s s' : St) : Prop :=
  forall x, fragment outputs x -> get s (make_key (utf8_encode x)) = Ok (utf8_encode x) ->
    get s' (make_key (utf8_encode x)) = Ok (utf8_encode x).

Lemma keeps_refl outputs s : keeps outputs s s.
Proof. by intros x _. Qed.

Lemma decision_ok_keeps outputs content tool d s s' :
  (forall x a b, content = a ++ x ++ b -> fragment outputs x) ->
  keeps outputs s s' -> decision_ok content tool d s -> decision_ok content tool d s'.
Proof.
  intros Hf Hk (kind & Hd & Hc). exists kind. split; [done |].
  destruct (_ && _); [|done]. destruct Hc as (h & m & t & Hs & Hh & Ht & -> & Hg).
  exists h, m, t. do 4 (split; [done |]). apply Hk; [by eapply Hf | done].
Qed.

Lemma decide_output_spec outputs content tool kind s :
  (forall x a b, content = a ++ x ++ b -> fragment outputs x) -> collision_free outputs ->
  (str_len content <= usize_max)%N -> detect content tool = Some kind -> durable s ->
  exists d s', decide_output kind content s = Some (d, s') /\ durable s'
    /\ decision_ok content tool d s' /\ keeps outputs s s'.
Proof.
  intros Hf Hcf Hmax Hd Hs. unfold decide_output, decision_ok, should_slice.
  destruct (threshold kind <=? str_len content)%N eqn:Et; cbn [andb].
  2: { exists (DKeep kind (str_len content)), s. split; [done |]. split; [done |]. split; [|apply keeps_refl].
       exists kind. by rewrite Et. }
  unfold slice_or_skip.
  destruct (8192 <? str_len content)%N eqn:El; [apply N.ltb_lt in El | apply N.ltb_ge in El].
  - destruct (slicer_cut (mkSlicer SLICE_HEAD_BYTES SLICE_TAIL_BYTES) content Hmax)
      as (h & m & t & Hc & _ & Hh & Ht & Happ).
    { unfold saturating_add, SLICE_HEAD_BYTES, SLICE_TAIL_BYTES, usize_max. cbn [head_bytes tail_bytes]. lia. }
    rewrite Happ. destruct (durable_put (utf8_encode m) s Hs) as (s' & Hp & Hs' & Hkeep).
    rewrite Hp. cbn [offload_marker sl_head sl_tail]. eexists _, s'. split; [done |]. split; [done |].
    split.
    + exists kind. split; [done |]. rewrite Et. exists h, m, t. split; [done |].
      do 2 (split; [done |]). split; [f_equal; rewrite Hc, !str_len_app; lia |].
      refine (put_get _ _ _ _ _ Hp). by apply durable_ok.
    + intros x Hx Hg. apply Hkeep; [done |].
      destruct (decide (make_key (utf8_encode x) = make_key (utf8_encode m))) as [He|]; [|by left].
      right. f_equal. apply (Hcf x m Hx); [by apply (Hf m h t) | done].
  - unfold apply. rewrite (proj2 (N.leb_le _ _)).
    + exists (DKeep kind (str_len content)), s. split; [done |]. split; [done |]. split; [|apply keeps_refl].
      exists kind. split; [done |]. by rewrite andb_false_r.
    + unfold saturating_add, SLICE_HEAD_BYTES, SLICE_TAIL_BYTES, usize_max. cbn [head_bytes tail_bytes]. lia.
Qed.

(** The cache holds only kinds that detection gives. *)
Definition cache_ok (outputs : list (str * str * option str)) (cache : DetectorCache) : Prop :=
  size cache <= DETECTOR_CACHE_CAP /\
  forall tool h kind, cache !! (tool, h) = Some kind ->
    exists content head, (fragment outputs head) /\ head_of content = Some head
      /\ h = blake3_hex (utf8_encode head) /\ detect content tool = Some kind.

Lemma get_or_detect_spec outputs cache tool content :
  (forall x a b, content = a ++ x ++ b -> fragment outputs x) -> collision_free outputs ->
  cache_ok outputs cache ->
  exists kind cache', get_or_detect cache tool content = Some (kind, cache')
    /\ detect content tool = Some kind /\ cache_ok outputs cache'.
Proof.
  intros Hf Hcf [Hsz Hc]. unfold get_or_detect.
  set (cache1 := if DETECTOR_CACHE_CAP <=? size cache then _ else _).
  assert (size cache1 < DETECTOR_CACHE_CAP /\ cache_ok outputs cache1) as [Hlt [_ Hc1]].
  { subst cache1. destruct (Nat.leb_spec DETECTOR_CACHE_CAP (size cache)) as [Hge|Hlt].
    - rewrite map_size_empty. unfold DETECTOR_CACHE_CAP. split; [lia |].
      split; [rewrite map_size_empty; lia |]. intros tool' h k. by rewrite lookup_empty.
    - split; [done |]. by split. }
  destruct (head_of_total content) as (head & rest & Hh & Hcont). rewrite Hh.
  assert (fragment outputs head) as Hfr by (by apply (Hf head [] rest)).
  destruct (cache1 !! _) as [kind|] eqn:El.
  - exists kind, cache1. split; [done |]. split; [|split; [lia | done]].
    destruct (Hc1 _ _ _ El) as (content' & head' & Hfr' & Hh' & He & Hd).
    assert (head = head') as <-.
    { apply Hcf; [done | done |]. unfold make_key. by rewrite He. }
    rewrite <-Hd. apply detect_head. congruence.
  - destruct (detect_total content tool) as [kind Hd]. rewrite Hd. eexists _, _.
    split; [done |]. split; [done |]. split.
    + rewrite map_size_insert_None by done. lia.
    + intros tool' h k. rewrite lookup_insert_Some. intros [[[= <- <-] <-]|[_ Hl]]; [|by eapply Hc1].
      by exists content, head.
Qed.

Lemma run_outputs_spec all outputs cache s :
  collision_free all -> (forall o, o ∈ outputs -> o ∈ all) ->
  Forall (fun o => (str_len (snd (fst o)) <= usize_max)%N) outputs ->
  cache_ok all cache -> durable s ->
  exists ds cache' s', run_outputs outputs cache s = Some (ds, cache', s') /\ durable s'
    /\ cache_ok all cache' /\ keeps all s s'
    /\ Forall2 (fun o d => fst d = fst (fst o) /\ decision_ok (snd (fst o)) (snd o) (snd d) s') outputs ds.
Proof.
  intros Hcf. revert cache s. induction outputs as [|[[key content] tool] outputs IH];
    intros cache s Hin Hmax Hc Hs; cbn [run_outputs].
  { exists [], cache, s. do 3 (split; [done |]). split; [apply keeps_refl | constructor]. }
  apply Forall_cons in Hmax as [Hm Hmax]. cbn [fst snd] in Hm.
  assert (forall x a b, content = a ++ x ++ b -> fragment all x) as Hf.
  { intros x a b Hx. exists (key, content, tool), a, b. split; [apply Hin; by left | done]. }
  destruct (get_or_detect_spec all cache tool content Hf Hcf Hc) as (kind & cache' & -> & Hd & Hc').
  destruct (decide_output_spec all content tool kind s Hf Hcf Hm Hd Hs) as (d & s1 & -> & Hs1 & Hok & Hk1).
  destruct (IH cache' s1 ltac:(intros o Ho; apply Hin; by right) Hmax Hc' Hs1)
    as (ds & cache2 & s2 & -> & Hs2 & Hc2 & Hk2 & Hall).
  exists ((key, d) :: ds), cache2, s2. do 3 (split; [done |]).
  split; [intros x Hx Hg; by apply Hk2, Hk1 |]. constructor; [|done]. split; [done |].
  by eapply decision_ok_keeps.
Qed.

Lemma foldl_saturating l acc :
  (acc <= usize_max)%N ->
  foldl saturating_add acc l = N.min usize_max (acc + foldr N.add 0%N l).
Proof.
  revert acc. induction l as [|x l IH]; intros acc Ha; simpl; [lia |].
  rewrite IH by (unfold saturating_add; lia). unfold saturating_add. lia.
Qed.

(** A batch over a store that neither fails nor forgets: the run ends with one
    decision per output, in order, without a panic; each output has the kind that
    detection gives it (the cache never changes a kind, and keeps its cap); it is sliced
    exactly when it reaches the threshold of its kind and exceeds 8192 bytes, and then
    head, stored middle and tail make up the output and the middle is still retrievable
    at the end of the batch; the saved bytes add up, saturating. *)
Lemma run_spec outputs s :
  collision_free outputs ->
  Forall (fun o => (str_len (snd (fst o)) <= usize_max)%N) outputs -> durable s ->
  exists r cache s', run outputs ∅ s = Some (r, cache, s') /\ size cache <= DETECTOR_CACHE_CAP
    /\ Forall2 (fun o d => fst d = fst (fst o) /\ decision_ok (snd (fst o)) (snd o) (snd d) s')
         outputs (decisions r)
    /\ total_bytes_saved r
       = N.min usize_max (foldr N.add 0%N (map (fun d => saved_by (snd d)) (decisions r))).
Proof.
  intros Hcf Hmax Hs. unfold run.
  destruct (run_outputs_spec outputs outputs ∅ s Hcf (fun _ Ho => Ho) Hmax) as
    (ds & cache & s' & -> & _ & [Hc _] & _ & Hall); [|done|].
  { split; [rewrite map_size_empty; unfold DETECTOR_CACHE_CAP; lia |].
    intros tool h k. by rewrite lookup_empty. }
  eexists _, cache, s'. split; [done |]. split; [done |]. split; [done |].
  cbn [total_bytes_saved decisions]. rewrite foldl_saturating by (unfold usize_max; lia). done.
Qed.
End OrchestratorProofs.

(** ** Concrete inputs

    A hash that is good enough for them: the length, in hexadecimal. *)

Fixpoint fixed_hex (k : nat) (n : N) : str :=
  match k with O => [] | S k' => hex_digit (n mod 16) :: fixed_hex k' (n / 16) end.

Lemma fixed_hex_length k n : length (fixed_hex k n) = k.
Proof. revert n. induction k as [|k IH]; intros n; simpl; [done | by rewrite IH]. Qed.

Lemma hex_digit_is_hex n : (n < 16)%N -> is_ascii_hexdigit (hex_digit n) = true.
Proof.
  intros Hn. unfold hex_digit, is_ascii_hexdigit, in_range.
  rewrite !orb_true_iff, !andb_true_iff, !N.leb_le.
  destruct (N.ltb_spec n 10); [left; left | left; right]; lia.
Qed.

Lemma fixed_hex_digits k n : forallb is_ascii_hexdigit (fixed_hex k n) = true.
Proof.
  revert n. induction k as [|k IH]; intros n; [done |]. cbn [fixed_hex forallb].
  rewrite hex_digit_is_hex, IH; [done |]. by apply N.mod_lt.
Qed.

Lemma fixed_hex_inj k n m :
  (n < 16 ^ N.of_nat k)%N -> (m < 16 ^ N.of_nat k)%N -> fixed_hex k n = fixed_hex k m -> n = m.
Proof.
  revert n m. induction k as [|k IH]; intros n m Hn Hm He.
  { simpl in *. lia. }
  replace (N.of_nat (S k)) with (N.succ (N.of_nat k)) in * by lia. rewrite N.pow_succ_r' in Hn, Hm.
  simpl in He. injection He as Hd Hr.
  apply IH in Hr; [| apply N.Div0.div_lt_upper_bound; lia ..].
  assert (n mod 16 = m mod 16)%N as Hmod.
  { pose proof (N.mod_lt n 16 ltac:(done)). pose proof (N.mod_lt m 16 ltac:(done)).
    unfold hex_digit in Hd. destruct (N.ltb_spec (n mod 16) 10), (N.ltb_spec (m mod 16) 10); lia. }
  rewrite (N.div_mod n 16), (N.div_mod m 16), Hr, Hmod by done. done.
Qed.

Lemma take_fixed_hex j k n : take j (fixed_hex (j + k) n) = fixed_hex j n.
Proof. revert n. induction j as [|j IH]; intros n; simpl; [by rewrite take_0 | by rewrite IH]. Qed.

#[local] Instance demo_blake3 : Blake3 := {|
  blake3_hex b := fixed_hex 64 (N.of_nat (length b));
  blake3_hex_length b := fixed_hex_length 64 _;
  blake3_hex_digits b := fixed_hex_digits 64 _
|}.

Lemma demo_key b : make_key b = fixed_hex 24 (N.of_nat (length b)).
Proof. apply (take_fixed_hex 24 40). Qed.

Definition demo_store : InMemoryOffloadStore :=
  snd (mem_put [1%N; 2%N] (snd (mem_put [1%N] (mem_new_with_cap 2)))).

Lemma mem_new_wf cap : 1 <= cap -> mem_wf (mem_new_with_cap cap).
Proof.
  intros Hc. constructor; simpl.
  - constructor.
  - intros k. rewrite lookup_empty. split; [by intros ?%elem_of_nil | by intros [? ?]].
  - intros c [= <-]. lia.
Qed.

Lemma demo_store_wf : mem_wf demo_store.
Proof. do 2 apply mem_put_wf. apply mem_new_wf; lia. Qed.

Lemma mem_fifo_window_witness :
  mem_get (mem_puts [[7%N]] (snd (mem_put [1%N; 2%N; 3%N] demo_store)))
    (make_key [1%N; 2%N; 3%N]) = Ok [1%N; 2%N; 3%N].
Proof.
  apply (mem_fifo_window 2 [1%N; 2%N; 3%N] [[7%N]] demo_store).
  - exact demo_store_wf.
  - reflexivity.
  - apply (bool_decide_unpack _). vm_compute. exact I.
  - simpl. lia.
  - constructor; [|constructor]. intros Hk. rewrite !demo_key in Hk.
    apply fixed_hex_inj in Hk; done.
Defined.

(** A payload that is stored again does not move to the end of the queue: its key is
    dropped by the next put of another payload. *)
Lemma mem_reput_not_refreshed :
  let s := snd (mem_put [1%N] demo_store) in
  mem_get s (make_key [1%N]) = Ok [1%N]
  /\ mem_get (snd (mem_put [1%N; 2%N; 3%N] s)) (make_key [1%N]) = Err (NotFound (make_key [1%N])).
Proof. split; vm_compute; reflexivity. Qed.

(** A cut falls between the characters: the middle of three two-byte characters. *)
Definition demo_text : str := [233%N; 233%N; 233%N].

Lemma apply_spec_witness :
  exists r s', apply (mkSlicer 3 1) demo_text demo_store = Some (r, s') /\ store_ok s'.
Proof.
  destruct (apply_spec (mkSlicer 3 1) demo_text demo_store) as (r & s' & Ha & Hok & _).
  - by apply N.leb_le.
  - exact demo_store_wf.
  - exists r, s'. split; [exact Ha | exact Hok].
Defined.

Lemma demo_slice :
  (fun x => result_bind (fst x) (fun o => Ok (sl_head o, sl_tail o, bytes_saved o)))
    <$> apply (mkSlicer 3 1) demo_text demo_store
  = Some (Ok ([233%N], [], 4%N)).
Proof. vm_compute. reflexivity. Qed.

(** A batch of one long shell output. *)
Definition demo_outputs : list (str * str * option str) :=
  [(lit "k", replicate (N.to_nat 9000) 97%N, Some (lit "Bash"))].

Lemma str_len_replicate n : str_len (replicate n 97%N) = N.of_nat n.
Proof.
  induction n as [|n IH]; [done |]. change (replicate (S n) 97%N) with (97%N :: replicate n 97%N).
  rewrite str_len_cons, IH. change (char_len 97) with 1%N. lia.
Qed.

Lemma demo_fragment x :
  fragment demo_outputs x -> x = replicate (length x) 97%N /\ (str_len x <= 9000)%N.
Proof.
  intros (o & a & b & Ho & Hs). apply list_elem_of_singleton in Ho as ->. cbn [fst snd] in Hs.
  assert (str_len x <= 9000)%N as Hl.
  { assert (str_len (a ++ x ++ b) = 9000)%N as Hl by (rewrite <-Hs, str_len_replicate, N2Nat.id; done).
    rewrite !str_len_app in Hl. lia. }
  split; [|done]. symmetry. apply replicate_as_elem_of. split; [done |]. intros y Hy.
  assert (y ∈ replicate (N.to_nat 9000) 97%N) as Hin
    by (rewrite Hs; apply elem_of_app; right; apply elem_of_app; by left).
  by apply elem_of_replicate in Hin as [-> _].
Qed.

Lemma demo_collision_free : collision_free demo_outputs.
Proof.
  intros x y [Hx Hxl]%demo_fragment [Hy Hyl]%demo_fragment. rewrite !demo_key.
  change (N.of_nat (length (utf8_encode x))) with (str_len x).
  change (N.of_nat (length (utf8_encode y))) with (str_len y).
  intros He%fixed_hex_inj.
  - rewrite Hx, Hy in He. rewrite !str_len_replicate in He.
    rewrite Hx, Hy. f_equal. lia.
  - eapply N.le_lt_trans; [exact Hxl | by apply N.ltb_lt].
  - eapply N.le_lt_trans; [exact Hyl | by apply N.ltb_lt].
Qed.

Lemma run_spec_witness :
  exists r cache s' key d, run demo_outputs ∅ mem_new = Some (r, cache, s')
    /\ decisions r = [(key, d)] /\ (192 <= saved_by d)%N.
Proof.
  destruct (run_spec demo_outputs mem_new) as (r & cache & s' & Hr & _ & Hall & _).
  - exact demo_collision_free.
  - constructor; [|constructor]. cbn [fst snd]. rewrite str_len_replicate, N2Nat.id. by apply N.leb_le.
  - split; [|done]. constructor; simpl; [constructor | | done].
    intros k. rewrite lookup_empty. split; [by intros ?%elem_of_nil | by intros [? ?]].
  - exists r, cache, s'. unfold demo_outputs in Hall.
    apply Forall2_cons_inv_l in Hall as ([key d] & ds & [_ Hd] & Hnil & Hds).
    apply Forall2_nil_inv_l in Hnil as ->. exists key, d. split; [exact Hr |]. split; [exact Hds |].
    destruct Hd as (kind & Hk & Hd). cbn [fst snd] in Hk, Hd.
    assert (kind = GenericShell) as -> by (symmetry; injection Hk; done).
    rewrite str_len_replicate, N2Nat.id in Hd.
    destruct Hd as (h & m & t & Hc & Hh & Ht & -> & _). cbn [saved_by].
    assert (str_len (h ++ m ++ t) = 9000)%N as Hl by (rewrite <-Hc, str_len_replicate, N2Nat.id; done).
    rewrite !str_len_app in Hl. lia.
Defined.
