(* ===== verification/BudgetGuard.v ===== *)
(** * The token budget

    Models [kf-budget-core/src/budget.rs] (the three-state guard and its
    intervention), the classification of [cost.rs], the roll-up of [report.rs] and the summaries of [compaction.rs], and
    the live path of [src/session/budget.rs]: slicing an oversized tool result, the
    listeners, the tools on the shared budget and the offload store, and the hooks.

    The budget, the store and the session mode are behind mutexes in the source; here
    they are passed from step to step.  The token counter is a parameter.  Ratios are
    binary64 numbers, with the rounding of the hardware ([SpecFloat]). *)

From Stdlib Require Import SpecFloat.
From S2P Require Import Prelude Machine Compress Offload.

(** ** The budget *)

Inductive BudgetState := Under | Approaching | Over.

Record TokenBudget := mkBudget {
  ceiling : N;
  approaching_ratio : spec_float;
  used : N
}.
Definition default_budget : TokenBudget := mkBudget 200000 f64_0_8 0.

Definition saturating_sub (a b : N) : N := a - b.

Definition state (b : TokenBudget) : BudgetState :=
  if (ceiling b =? 0)%N then Over
  else
    let ratio := f64_div (f64_of (used b)) (f64_of (ceiling b)) in
    if f64_ge ratio (f64_of 1) then Over
    else if f64_ge ratio (approaching_ratio b) then Approaching
    else Under.

Definition can_send (b : TokenBudget) (incoming : N) : bool :=
  (saturating_add (used b) incoming <=? ceiling b)%N.
Definition record (b : TokenBudget) (n : N) : TokenBudget :=
  mkBudget (ceiling b) (approaching_ratio b) (saturating_add (used b) n).
Definition remaining (b : TokenBudget) : N := saturating_sub (ceiling b) (used b).

Definition SLICE_OVERHEAD : N := 256.

Inductive Intervention :=
  | Allow
  | Warn (left_ : N)
  | SliceTo (target_key : str) (slice_to : N)
  | Compact (reason : str).

(** [Iterator::max_by_key]: the last of the largest. *)
Fixpoint max_by_size (best : option (str * N)) (l : list (str * N)) : option (str * N) :=
  match l with
  | [] => best
  | x :: l' =>
      max_by_size (match best with
                   | Some y => if (snd y <=? snd x)%N then Some x else Some y
                   | None => Some x
                   end) l'
  end.

Definition compact_reason (b : TokenBudget) (incoming : N) : str :=
  lit "session at " ++ show_N (used b) ++ lit "/" ++ show_N (ceiling b)
  ++ lit " tokens; cannot fit " ++ show_N incoming ++ lit " more".

Definition decide_ (b : TokenBudget) (incoming : N) (recent : list (str * N)) : Intervention :=
  if can_send b incoming then
    match state b with
    | Under => Allow
    | Approaching => Warn (remaining b)
    | Over => Warn 0
    end
  else
    let needed := saturating_sub incoming (remaining b) in
    match max_by_size None recent with
    | Some (key, size_) =>
        if (saturating_add needed SLICE_OVERHEAD <? size_)%N
        then SliceTo key (saturating_sub size_ needed)
        else Compact (compact_reason b incoming)
    | None => Compact (compact_reason b incoming)
    end.

(** ** Usage records ([cost.rs], [report.rs]) *)

Inductive UsageKind := KSlice | KBudgetWarn | KBudgetOver | KCompactHint | KPrompt | KResponse.

Definition classify_kind (i : Intervention) : option UsageKind :=
  match i with
  | Allow => None
  | Warn _ => Some KBudgetWarn
  | SliceTo _ _ => Some KSlice
  | Compact _ => Some KBudgetOver
  end.

Record UsageRecord := mkUsage {
  usage_kind : UsageKind;
  usage_session_id : str;
  bytes_in : option N;
  bytes_out : option N;
  tokens_used : option N;
  tokens_ceiling : option N;
  usage_tool : option str
}.

Record SessionTotals := mkTotals {
  tot_bytes_saved : N;
  tot_warnings : N;
  tot_compactions : N;
  tot_records : N
}.
Definition no_totals : SessionTotals := mkTotals 0 0 0 0.

Definition add_record (t : SessionTotals) (r : UsageRecord) : SessionTotals :=
  match usage_kind r with
  | KSlice =>
      mkTotals (tot_bytes_saved t
                + saturating_sub (unwrap_or 0 (bytes_in r)) (unwrap_or 0 (bytes_out r)))%N
        (tot_warnings t) (tot_compactions t) (tot_records t + 1)
  | KBudgetWarn | KBudgetOver =>
      mkTotals (tot_bytes_saved t) (tot_warnings t + 1) (tot_compactions t) (tot_records t + 1)
  | KCompactHint =>
      mkTotals (tot_bytes_saved t) (tot_warnings t) (tot_compactions t + 1) (tot_records t + 1)
  | KPrompt | KResponse =>
      mkTotals (tot_bytes_saved t) (tot_warnings t) (tot_compactions t) (tot_records t + 1)
  end.

Section Report.
(** serde_json on a line of the log; a line that does not parse is skipped. *)
Variable parse_record : str -> option UsageRecord.

Definition aggregate_line (out : gmap str SessionTotals) (line : str) : gmap str SessionTotals :=
  match parse_record line with
  | None => out
  | Some r =>
      <[usage_session_id r := add_record (unwrap_or no_totals (out !! usage_session_id r)) r]> out
  end.
Definition aggregate_sessions (ls : list str) : gmap str SessionTotals := foldl aggregate_line ∅ ls.

Definition kind_eqb (a b : UsageKind) : bool :=
  match a, b with
  | KSlice, KSlice | KBudgetWarn, KBudgetWarn | KBudgetOver, KBudgetOver
  | KCompactHint, KCompactHint | KPrompt, KPrompt | KResponse, KResponse => true
  | _, _ => false
  end.

Definition filter_lines (ls : list str) (session : option str) (kind : option UsageKind) : list str :=
  List.filter (fun line =>
    match parse_record line with
    | None => false
    | Some r =>
        match session with Some sid => str_eqb (usage_session_id r) sid | None => true end
        && match kind with Some k => kind_eqb (usage_kind r) k | None => true end
    end) ls.
End Report.

Definition tail_lines (ls : list str) (n : nat) : list str :=
  if n <? length ls then drop (length ls - n) ls else ls.

Definition format_summary_line (sid : str) (t : SessionTotals) : str :=
  lit "session " ++ sid ++ lit "  bytes_saved=" ++ show_N (tot_bytes_saved t)
  ++ lit "  warnings=" ++ show_N (tot_warnings t)
  ++ lit "  compactions=" ++ show_N (tot_compactions t)
  ++ lit "  records=" ++ show_N (tot_records t).

(** ** Compaction ([compaction.rs]) *)

Record Turn := mkTurn {
  turn_index : N;
  turn_role : str;
  content_preview : str
}.

Record CompactHint := mkHint {
  hint_reason : str;
  hint_tokens_used : N;
  hint_tokens_ceiling : N;
  oldest_turn : option N;
  newest_turn : option N
}.

Definition build_hint (b : TokenBudget) (history : list Turn) : CompactHint :=
  mkHint (lit "session at " ++ show_N (used b) ++ lit "/" ++ show_N (ceiling b)
          ++ lit " tokens; compaction suggested")
    (used b) (ceiling b) (turn_index <$> head history) (turn_index <$> last history).

Fixpoint summarise_lines (ls : list str) (max_bytes : N) (out : str) : str :=
  match ls with
  | [] => out
  | line :: ls' =>
      if bool_decide (trim line = []) then summarise_lines ls' max_bytes out
      else if (500 <? str_len line)%N then summarise_lines ls' max_bytes out
      else if (max_bytes <? str_len out + str_len line + 1)%N then out
      else summarise_lines ls' max_bytes (out ++ line ++ [10%N])
  end.
Definition local_summarise (input : str) (max_bytes : N) : str :=
  summarise_lines (lines input) max_bytes [].

Record CompactedOutput := mkCompacted {
  summary : str;
  compacted_bytes_saved : N;
  lossy : bool
}.

(** [LocalSummaryCompactor::apply], which never fails. *)
Definition compactor_apply (max_output_bytes : N) (input : str) : result CompactedOutput TransformError :=
  let s := local_summarise input max_output_bytes in
  Ok (mkCompacted s (saturating_sub (str_len input) (str_len s)) (str_len s <? str_len input)%N).

(** ** The live path ([src/session/budget.rs]) *)

Definition BYTES_PER_TOKEN : N := 4.
Definition saturating_mul (a b : N) : N := N.min usize_max (a * b).


Inductive BudgetAction := AKeep (text : str) | ASliced (display key : str).

Record BudgetSlicedEvent := mkEvent {
  original_size : N;
  sliced_size : N;
  event_key : str;
  sliced_display : str
}.

Definition new_session_budget (budget_ceiling : N) (budget_approaching_ratio : spec_float)
  : TokenBudget := mkBudget budget_ceiling budget_approaching_ratio 0.
Definition new_session_store : InMemoryOffloadStore := mem_new_with_cap 1000.
Definition init_from_config (budget_ceiling : N) (budget_approaching_ratio : spec_float)
  (b : TokenBudget) : TokenBudget := mkBudget budget_ceiling budget_approaching_ratio (used b).

Section Session.
(** The structured tool error and the grep matches, which are passed on untouched. *)
Context {ToolError Matches : Type}.

Inductive ToolOutcome :=
  | Success (content : str)
  | Error (message : str)
  | Failure (e : ToolError)
  | FileContent (path content : str) (truncated : bool)
  | FileEdit (path diff : str)
  | GrepMatches (path : str) (matches : Matches) (total : N)
  | Image (path mime data_base64 : str).

Context {S : Type} `{OffloadStore S}.
(** [count_tokens], the cl100k tokenizer. *)
Variable count_tokens : str -> N.
(** The text of the error of [String::from_utf8]. *)
Variable utf8_error : bytes -> str.

Definition check_and_slice (result_ : str) (b : TokenBudget) (store : S)
  : option (BudgetAction * S) :=
  match state b with
  | Under => Some (AKeep result_, store)
  | Approaching | Over =>
      let left_ := remaining b in
      if (count_tokens result_ <=? left_)%N then Some (AKeep result_, store)
      else
        let bytes_budget := saturating_mul left_ BYTES_PER_TOKEN in
        let head := (bytes_budget / 2)%N in
        let tail := saturating_sub bytes_budget head in
        match apply (mkSlicer head tail) result_ store with
        | None => None
        | Some (Err _, store') => Some (AKeep result_, store')
        | Some (Ok output, store') =>
            match offload_marker output with
            | None => Some (AKeep result_, store')
            | Some marker =>
                let display :=
                  if decide (sl_tail output = []) then sl_head output ++ [10%N] ++ marker
                  else sl_head output ++ [10%N] ++ marker ++ [10%N] ++ sl_tail output in
                let key := unwrap_or marker (parse_slice_marker marker) in
                if (str_len result_ <=? str_len display)%N then Some (AKeep result_, store')
                else Some (ASliced display key, store')
            end
        end
  end.

(** *** Listeners *)

Definition BudgetSlicedListener := BudgetSlicedEvent -> option str.
Definition Listeners := gmap str (list BudgetSlicedListener).

Definition register_sliced_listener (session_id : str) (l : BudgetSlicedListener) (ls : Listeners)
  : Listeners := <[session_id := unwrap_or [] (ls !! session_id) ++ [l]]> ls.
Definition clear_session_sliced_listeners (session_id : str) (ls : Listeners) : Listeners :=
  delete session_id ls.
Definition sliced_listener_count (session_id : str) (ls : Listeners) : nat :=
  match ls !! session_id with Some v => length v | None => 0 end.

Definition dispatch_sliced (ls : Listeners) (session_id : str) (ev : BudgetSlicedEvent) : option str :=
  match ls !! session_id with
  | None => None
  | Some queue => find_map (fun l => l ev) queue
  end.

Definition maybe_escalate_stratum (mode : Mode) : Mode :=
  match mode with Lite => Full | m => m end.

(** The text that enters the conversation, and whether it was cut. *)
Definition slice_text (content : str) (b : TokenBudget) (store : S) (ls : Listeners)
    (session_id : str) : option (str * bool * S) :=
  match check_and_slice content b store with
  | None => None
  | Some (AKeep kept, store') => Some (kept, false, store')
  | Some (ASliced display key, store') =>
      let replacement := dispatch_sliced ls session_id
        (mkEvent (str_len content) (str_len display) key display) in
      Some (unwrap_or display replacement, true, store')
  end.

Definition apply_budget_slice (outcome : ToolOutcome) (b : TokenBudget) (store : S) (mode : Mode)
    (ls : Listeners) (session_id : str) : option (ToolOutcome * S * Mode) :=
  match state b with
  | Under => Some (outcome, store, mode)
  | Approaching | Over =>
      let mode' := match state b with Approaching => maybe_escalate_stratum mode | _ => mode end in
      match outcome with
      | Success content =>
          match slice_text content b store ls session_id with
          | None => None
          | Some (text, _, store') => Some (Success text, store', mode')
          end
      | FileContent path content truncated =>
          match slice_text content b store ls session_id with
          | None => None
          | Some (text, cut, store') => Some (FileContent path text (truncated || cut), store', mode')
          end
      | other => Some (other, store, mode')
      end
  end.

(** *** Tools and hooks *)

Definition BudgetState_debug (s : BudgetState) : str :=
  match s with Under => "Under" | Approaching => "Approaching" | Over => "Over" end.

Definition budget_status (b : TokenBudget) : ToolOutcome :=
  Success (lit "Budget status: " ++ BudgetState_debug (state b) ++ lit " — used " ++ show_N (used b)
           ++ lit "/" ++ show_N (ceiling b) ++ lit " tokens, " ++ show_N (remaining b)
           ++ lit " remaining").

Definition budget_set (args : json) (b : TokenBudget) : ToolOutcome * TokenBudget :=
  match json_get args "ceiling" ≫= as_u64 with
  | Some c => (Success (lit "Budget ceiling set to " ++ show_N c),
               mkBudget c (approaching_ratio b) (used b))
  | None => (Error "missing required argument: ceiling", b)
  end.

Definition budget_compact (b : TokenBudget) : ToolOutcome * TokenBudget :=
  (Success (lit "Budget compacted: reset used from " ++ show_N (used b) ++ lit " to 0"),
   mkBudget (ceiling b) (approaching_ratio b) 0).

(** The budget's store first, then the store of the compression pipeline. *)
Definition store_get (args : json) (store : S) (stratum_store : gmap str str) : ToolOutcome :=
  match json_get args "marker" ≫= as_str with
  | None => Error "missing required argument: marker"
  | Some marker =>
      match get store marker with
      | Ok b => Success (match from_utf8 b with
                         | Some s => s
                         | None => lit "<binary data, utf8 error: " ++ utf8_error b ++ lit ">"
                         end)
      | Err _ =>
          match stratum_store !! marker with
          | Some content => Success content
          | None => Error (lit "store_get failed: marker '" ++ marker
                           ++ lit "' not in any offload store")
          end
      end
  end.

Definition record_tool_usage (tool_result : option str) (b : TokenBudget) : TokenBudget :=
  match tool_result with
  | None => b
  | Some r => record b (count_tokens r)
  end.

(** The hook that runs before a compaction. *)
Definition pre_compact (b : TokenBudget) (mode : Mode) : TokenBudget * Mode :=
  match state b with
  | Under => (b, mode)
  | Approaching | Over =>
      (mkBudget (ceiling b) (approaching_ratio b) 0, maybe_escalate_stratum mode)
  end.
End Session.
Arguments ToolOutcome : clear implicits.

(** ** The intervention *)

Lemma max_by_size_spec l best k s :
  max_by_size best l = Some (k, s) ->
  (forall y, y ∈ l -> (snd y <= s)%N) /\ (forall y, best = Some y -> (snd y <= s)%N)
  /\ ((exists pre post, l = pre ++ (k, s) :: post /\ forall y, y ∈ post -> (snd y < s)%N)
      \/ (best = Some (k, s) /\ forall y, y ∈ l -> (snd y < s)%N)).
Proof.
  revert best. induction l as [|x l IH]; intros best; simpl.
  { intros ->. split; [by intros y ?%elem_of_nil |]. split; [by intros y [= <-] |].
    right. split; [done |]. by intros y ?%elem_of_nil. }
  set (best' := match best with Some y => _ | None => _ end).
  intros (Ha & Hb & Hc)%IH.
  assert (snd x <= s)%N as Hx.
  { destruct best as [y|]; [|by apply Hb]. subst best'. destruct (N.leb_spec (snd y) (snd x)).
    - by apply Hb.
    - specialize (Hb y eq_refl). lia. }
  assert (forall y, best = Some y -> (snd y <= s)%N) as Hy.
  { intros y ->. subst best'. destruct (N.leb_spec (snd y) (snd x)).
    - specialize (Hb x eq_refl). lia.
    - by apply Hb. }
  split; [intros y [->|Hin]%elem_of_cons; auto |]. split; [done |].
  destruct Hc as [(pre & post & -> & Hp)|[Hbest Hp]].
  { left. by exists (x :: pre), post. }
  destruct best as [y|]; subst best'.
  - destruct (N.leb_spec (snd y) (snd x)) as [Hle|Hlt]; injection Hbest as ->.
    + left. by exists [], l.
    + right. split; [done |]. intros z [->|Hz]%elem_of_cons; [done | auto].
  - injection Hbest as ->. left. by exists [], l.
Qed.

Lemma max_by_size_None l best : max_by_size best l = None -> best = None /\ l = [].
Proof.
  revert best. induction l as [|x l IH]; intros best; simpl; [done |].
  intros [Hb ->]%IH. destruct best as [y|]; [destruct (_ <=? _)%N; done | done].
Qed.

(** [decide]: a turn that fits is never blocked, and warned about exactly when
    the budget is not under; a turn that does not fit slices the last of the largest
    recent outputs, which keeps more than the overhead and, when the budget is not
    overdrawn and the turn alone could fit, frees exactly the missing amount; a
    compaction is asked for only when no recent output is large enough. *)
Lemma decide_spec b incoming recent :
  (ceiling b < usize_max)%N -> (incoming <= usize_max)%N ->
  Forall (fun x => (snd x <= usize_max)%N) recent ->
  match decide_ b incoming recent with
  | Allow => (used b + incoming <= ceiling b)%N /\ state b = Under
  | Warn left_ => (used b + incoming <= ceiling b)%N /\
      ((state b = Approaching /\ left_ = (ceiling b - used b)%N) \/ (state b = Over /\ left_ = 0%N))
  | SliceTo key to => (ceiling b < used b + incoming)%N /\
      exists size_ pre post, recent = pre ++ (key, size_) :: post
        /\ (forall y, y ∈ recent -> (snd y <= size_)%N) /\ (forall y, y ∈ post -> (snd y < size_)%N)
        /\ (SLICE_OVERHEAD < to <= size_)%N
        /\ ((used b <= ceiling b)%N -> (incoming <= ceiling b)%N ->
            (used b - (size_ - to) + incoming = ceiling b)%N)
  | Compact reason => (ceiling b < used b + incoming)%N /\ reason = compact_reason b incoming
      /\ forall y, y ∈ recent -> (snd y <= incoming - (ceiling b - used b) + SLICE_OVERHEAD)%N
  end.
Proof.
  intros Hc Hi Hsz. unfold decide_, can_send, remaining, saturating_sub.
  destruct (N.leb_spec (saturating_add (used b) incoming) (ceiling b)) as [Hf|Hf];
    unfold saturating_add in *.
  { destruct (state b) eqn:Es; (split; [lia |]); auto. }
  rewrite Forall_forall in Hsz.
  destruct (max_by_size None recent) as [[key size_]|] eqn:Em.
  - apply max_by_size_spec in Em as (Hmax & _ & Hpos).
    destruct Hpos as [(pre & post & Hrec & Hp)|[? _]]; [|done].
    assert ((key, size_) ∈ recent) as Hin by (rewrite Hrec; apply elem_of_app; right; by left).
    specialize (Hsz _ Hin). cbn [snd] in Hsz.
    destruct (N.ltb_spec (N.min usize_max (incoming - (ceiling b - used b) + SLICE_OVERHEAD)) size_)
      as [Hlt|Hge].
    + split; [lia |]. exists size_, pre, post. split; [done |]. split; [done |]. split; [done |].
      unfold SLICE_OVERHEAD in *. split; [lia |]. lia.
    + split; [lia |]. split; [done |]. intros y Hy. specialize (Hmax y Hy). lia.
  - apply max_by_size_None in Em as [_ ->]. split; [lia |]. split; [done |].
    by intros y ?%elem_of_nil.
Qed.

Lemma decide_spec_witness :
  decide_ (mkBudget 100 f64_0_8 90) 30 [(lit "a", 5000%N); (lit "b", 50000%N)]
    = SliceTo "b" 49980
  /\ (90 - (50000 - 49980) + 30 = 100)%N.
Proof.
  split; [vm_compute; reflexivity |].
  pose proof (decide_spec (mkBudget 100 f64_0_8 90) 30 [(lit "a", 5000%N); (lit "b", 50000%N)]) as Hd.
  destruct Hd as (_ & _).
  - by apply N.ltb_lt.
  - by apply N.leb_le.
  - repeat constructor; by apply N.leb_le.
  - reflexivity.
Defined.

(** A budget with a zero ceiling is over, whatever was used. *)
Lemma state_zero_ceiling r u : state (mkBudget 0 r u) = Over.
Proof. done. Qed.

(** When more is already used than the ceiling, the amount that is freed does not make
    the turn fit. *)
Lemma decide_overdrawn :
  decide_ (mkBudget 100 f64_0_8 200) 10 [(lit "a", 5000%N)] = SliceTo "a" 4990
  /\ (100 < 200 - (5000 - 4990) + 10)%N.
Proof. split; vm_compute; reflexivity. Qed.

(** ** The usage report *)

Section ReportProofs.
Variable parse_record : str -> option UsageRecord.

(** The totals of a session are those of the log filtered to it. *)
Lemma aggregate_filter_from sid ls out out' :
  out !! sid = out' !! sid ->
  foldl (aggregate_line parse_record) out (filter_lines parse_record ls (Some sid) None) !! sid
  = foldl (aggregate_line parse_record) out' ls !! sid.
Proof.
  revert out out'. induction ls as [|line ls IH]; intros out out' He; simpl; [done |].
  destruct (parse_record line) as [r|] eqn:Ep.
  - destruct (str_eqb (usage_session_id r) sid) eqn:E; simpl; apply IH.
    + apply str_eqb_eq in E as <-. unfold aggregate_line. rewrite Ep, !lookup_insert_eq. by rewrite He.
    + unfold aggregate_line. rewrite Ep, lookup_insert_ne; [done |]. by apply str_eqb_neq.
  - apply IH. unfold aggregate_line. by rewrite Ep.
Qed.

Lemma aggregate_sessions_filter sid ls :
  aggregate_sessions parse_record (filter_lines parse_record ls (Some sid) None) !! sid
  = aggregate_sessions parse_record ls !! sid.
Proof. by apply aggregate_filter_from. Qed.
End ReportProofs.

(** ** Compaction *)

Lemma summarise_lines_spec ls max out :
  (str_len out <= max)%N ->
  (str_len (summarise_lines ls max out) <= max)%N
  /\ exists kept, sublist kept ls /\ summarise_lines ls max out = out ++ kept ≫= (fun l => l ++ [10%N]).
Proof.
  revert out. induction ls as [|line ls IH]; intros out Hout; simpl.
  { split; [done |]. exists []. split; [constructor |]. by rewrite app_nil_r. }
  assert (forall p, p = out -> (str_len p <= max)%N /\ exists kept, sublist kept (line :: ls)
            /\ p = out ++ kept ≫= (fun l => l ++ [10%N])) as Hstop.
  { intros p ->. split; [done |]. exists []. split; [apply sublist_nil_l |]. by rewrite app_nil_r. }
  assert ((str_len (summarise_lines ls max out) <= max)%N /\ exists kept, sublist kept (line :: ls)
            /\ summarise_lines ls max out = out ++ kept ≫= (fun l => l ++ [10%N])) as Hskip.
  { destruct (IH out Hout) as (H1 & kept & Hk & He). split; [done |]. exists kept.
    split; [by apply sublist_cons | done]. }
  case_bool_decide; [done |]. destruct (_ <? _)%N; [done |].
  destruct (N.ltb_spec max (str_len out + str_len line + 1)); [by apply Hstop |].
  destruct (IH (out ++ line ++ [10%N])) as (H1 & kept & Hk & He).
  { rewrite !str_len_app. change (str_len [10%N]) with 1%N. lia. }
  split; [done |]. exists (line :: kept). split; [by apply sublist_skip |].
  rewrite He, bind_cons, <-!app_assoc. done.
Qed.

(** The summary keeps whole lines of the input, in order, and respects its cap. *)
Lemma local_summarise_spec input max :
  (str_len (local_summarise input max) <= max)%N
  /\ exists kept, sublist kept (lines input)
       /\ local_summarise input max = kept ≫= (fun l => l ++ [10%N]).
Proof. apply (summarise_lines_spec _ _ []). rewrite str_len_nil. lia. Qed.

(** ** Slicing a tool result *)

Definition marker_args (key : str) : json := JObj [(lit "marker", JStr key)].

Section SessionProofs.
Context {ToolError Matches S : Type} `{OffloadStoreLaws S}.
Variable count_tokens : str -> N.
Variable utf8_error : bytes -> str.

Lemma store_get_marker key store strat m :
  forallb is_scalar m = true -> get store key = Ok (utf8_encode m) ->
  store_get (ToolError := ToolError) (Matches := Matches) utf8_error (marker_args key) store strat
  = Success m.
Proof.
  intros Hm Hg. unfold store_get.
  change (json_get (marker_args key) "marker" ≫= as_str) with (Some key). cbv iota beta.
  by rewrite Hg, from_utf8_encode.
Qed.

(** The shape of a sliced display. *)
Definition display_of (h key t : str) : str :=
  h ++ [10%N] ++ format_slice_marker key ++ (if decide (t = []) then [] else [10%N] ++ t).

Lemma check_and_slice_cut text b store :
  (str_len text <= usize_max)%N -> state b <> Under -> (remaining b < count_tokens text)%N ->
  (N.min usize_max (remaining b * 4) < str_len text)%N ->
  exists h m t, text = h ++ m ++ t /\ m <> [] /\ (str_len h + str_len t <= remaining b * 4)%N
    /\ check_and_slice count_tokens text b store =
       match put (utf8_encode m) store with
       | (Ok key, store') =>
           if (str_len text <=? str_len (display_of h key t))%N then Some (AKeep text, store')
           else Some (ASliced (display_of h key t) key, store')
       | (Err _, store') => Some (AKeep text, store')
       end.
Proof.
  intros Hmax Hst Htok Hlen. set (bb := N.min usize_max (remaining b * 4)) in *.
  assert (bb / 2 * 2 <= bb)%N as Hdiv by (pose proof (N.Div0.mul_div_le bb 2); lia).
  destruct (slicer_cut (mkSlicer (bb / 2) (bb - bb / 2)) text Hmax) as (h & m & t & Hs & Hm & Hh & Ht & Happ).
  { unfold saturating_add. cbn [head_bytes tail_bytes]. lia. }
  cbn [head_bytes tail_bytes] in Hh, Ht.
  exists h, m, t. split; [done |]. split; [done |]. split; [lia |].
  unfold check_and_slice. rewrite (proj2 (N.leb_gt _ _) Htok).
  unfold saturating_mul, BYTES_PER_TOKEN, saturating_sub. fold bb. rewrite Happ.
  destruct (put (utf8_encode m) store) as [[key|e] store']; cbn [offload_marker sl_head sl_tail].
  - rewrite (proj2 (parse_format_slice_marker _ key) eq_refl). cbn [unwrap_or].
    assert ((if decide (t = []) then h ++ [10%N] ++ format_slice_marker key
             else h ++ [10%N] ++ format_slice_marker key ++ [10%N] ++ t) = display_of h key t) as ->.
    { unfold display_of. case_decide; [by rewrite app_nil_r | done]. }
    by destruct (state b).
  - by destruct (state b).
Qed.

(** Slicing a tool result never panics and never loses text.  It is kept
    unchanged, or it is replaced by a strictly shorter display: the head, the marker
    and the tail of the result, within four bytes per remaining token; then the budget
    was not under and the result did not fit, and the [store_get] tool answers the key
    with exactly the missing middle. *)
Lemma check_and_slice_spec text b store :
  (str_len text <= usize_max)%N -> forallb is_scalar text = true -> store_ok store ->
  exists a store', check_and_slice count_tokens text b store = Some (a, store') /\ store_ok store' /\
    match a with
    | AKeep kept => kept = text
    | ASliced display key =>
        state b <> Under /\ (remaining b < count_tokens text)%N
        /\ (str_len display < str_len text)%N
        /\ exists h m t, text = h ++ m ++ t /\ display = display_of h key t
             /\ (str_len h + str_len t <= remaining b * 4)%N
             /\ forall strat, store_get (ToolError := ToolError) (Matches := Matches) utf8_error
                                (marker_args key) store' strat = Success m
    end.
Proof.
  intros Hmax Hsc Hok.
  assert (state b = Under \/ state b <> Under) as [Hu|Hst] by (destruct (state b); auto).
  { exists (AKeep text), store. unfold check_and_slice. by rewrite Hu. }
  destruct (N.le_gt_cases (count_tokens text) (remaining b)) as [Hle|Hgt].
  { exists (AKeep text), store. unfold check_and_slice. rewrite (proj2 (N.leb_le _ _) Hle).
    by destruct (state b). }
  destruct (N.le_gt_cases (str_len text) (N.min usize_max (remaining b * 4))) as [Hl|Hl].
  { exists (AKeep text), store. unfold check_and_slice. rewrite (proj2 (N.leb_gt _ _) Hgt).
    unfold apply, saturating_mul, BYTES_PER_TOKEN, saturating_sub.
    set (bb := N.min usize_max (remaining b * 4)) in *.
    pose proof (N.Div0.mul_div_le bb 2).
    rewrite (proj2 (N.leb_le _ _)) by (unfold saturating_add; cbn [head_bytes tail_bytes]; lia).
    by destruct (state b). }
  destruct (check_and_slice_cut text b store Hmax Hst Hgt Hl) as (h & m & t & Hs & _ & Hb & ->).
  pose proof (put_preserves (utf8_encode m) store Hok) as Hok'.
  destruct (put (utf8_encode m) store) as [[key|e] store'] eqn:Ep; cbn [snd] in Hok'; [|by eexists _, _].
  destruct (N.leb_spec (str_len text) (str_len (display_of h key t))) as [Hd|Hd]; [by eexists _, _ |].
  eexists _, _. split; [done |]. split; [done |]. do 3 (split; [done |]).
  exists h, m, t. split; [done |]. split; [done |]. split; [done |]. intros strat.
  apply store_get_marker; [|exact (put_get _ _ _ _ Hok Ep)].
  rewrite Hs, !forallb_app, !andb_true_iff in Hsc. tauto.
Qed.

(** While the budget is overdrawn, a sliced middle cannot be read back: the
    answer of [store_get] is itself a tool result without headroom, and unless it is
    shorter than a marker it is replaced by the same marker again. *)
Lemma store_get_resliced ls session_id mode strat b store key m :
  state b = Over -> remaining b = 0%N -> (0 < count_tokens m)%N ->
  (str_len m <= usize_max)%N -> (str_len (display_of [] key []) < str_len m)%N ->
  forallb is_scalar m = true -> key = make_key (utf8_encode m) ->
  get store key = Ok (utf8_encode m) -> (forall ev, dispatch_sliced ls session_id ev = None) ->
  is_ok (fst (put (utf8_encode m) store)) = true ->
  exists store',
    apply_budget_slice (ToolError := ToolError) (Matches := Matches) count_tokens
      (store_get utf8_error (marker_args key) store strat) b store mode ls session_id
    = Some (Success (display_of [] key []), store', mode).
Proof.
  intros Hst Hrem Htok Hmax Hshort Hsc Hkey Hget Hls Hput.
  rewrite (store_get_marker key store strat m Hsc Hget).
  destruct (check_and_slice_cut m b store Hmax ltac:(congruence) ltac:(lia)) as (h & x & t & Hs & Hx & Hb & Hc).
  { rewrite Hrem. change (N.min usize_max (0 * 4)) with 0%N. lia. }
  assert (h = [] /\ t = []) as [-> ->].
  { rewrite Hrem in Hb. split; apply str_len_zero; lia. }
  rewrite app_nil_r in Hs. cbn [app] in Hs. subst x.
  unfold apply_budget_slice, slice_text. rewrite Hst, Hc.
  destruct (put (utf8_encode m) store) as [[k|e] store'] eqn:Ep; [|done].
  rewrite (put_key _ _ _ _ Ep), <-Hkey, (proj2 (N.leb_gt _ _) Hshort).
  exists store'. by rewrite Hls.
Qed.
End SessionProofs.

(** ** Concrete inputs *)

#[local] Instance length_hash : Blake3 := {|
  blake3_hex b := fixed_hex 64 (N.of_nat (length b));
  blake3_hex_length b := fixed_hex_length 64 _;
  blake3_hex_digits b := fixed_hex_digits 64 _
|}.

Definition demo_result : str := replicate 120 (98%N).
Definition demo_budget : TokenBudget := mkBudget 100 f64_0_8 98.
Definition spent_budget : TokenBudget := mkBudget 100 f64_0_8 130.

Lemma check_and_slice_spec_witness :
  exists a store', check_and_slice str_len demo_result demo_budget new_session_store = Some (a, store')
    /\ exists key, a = ASliced (display_of (replicate 4 98%N) key (replicate 4 98%N)) key.
Proof.
  destruct (check_and_slice_spec (ToolError := unit) (Matches := unit) str_len (fun _ => [])
              demo_result demo_budget new_session_store) as (a & store' & Ha & _).
  - by apply N.leb_le.
  - reflexivity.
  - apply mem_new_wf. by apply Nat.leb_le.
  - exists a, store'. split; [exact Ha |].
    assert (fst <$> check_and_slice str_len demo_result demo_budget new_session_store = Some a) as Hf
      by (by rewrite Ha).
    exists (make_key (utf8_encode (replicate 112 98%N))). vm_compute in Hf. injection Hf as <-.
    vm_compute. reflexivity.
Defined.

Definition spent_store : InMemoryOffloadStore :=
  snd (mem_put (utf8_encode demo_result) new_session_store).

Lemma store_get_resliced_witness :
  exists store', apply_budget_slice (ToolError := unit) (Matches := unit) str_len
    (store_get (fun _ => []) (marker_args (make_key (utf8_encode demo_result))) spent_store ∅)
    spent_budget spent_store Full ∅ (lit "s")
  = Some (Success (display_of [] (make_key (utf8_encode demo_result)) []), store', Full).
Proof.
  apply (store_get_resliced str_len (fun _ => []) ∅ (lit "s") Full ∅ spent_budget spent_store _ demo_result).
  - vm_compute. reflexivity.
  - reflexivity.
  - by apply N.ltb_lt.
  - by apply N.leb_le.
  - by apply N.ltb_lt.
  - reflexivity.
  - reflexivity.
  - vm_compute. reflexivity.
  - intros ev. reflexivity.
  - reflexivity.
Defined.
