(* ===== verification/Minify.v ===== *)
(** * Minified envelopes and their expansion (src/shared/minify/expand.rs)

    The envelope in which a minified file travels to the model and back, and the
    expansion of its code: an external formatter, or the fallback printers for C-like
    languages and Python.

    Parameters: running an external formatter ([formatter]) and the Unicode class of letters
    and digits ([UnicodeAlnum]).  A slice that would cut a character is [None]: the code
    panics there. *)

From Stdlib Require Import ssreflect.
From S2P Require Import Prelude Machine.

(** [char::is_alphanumeric] outside ASCII. *)
Class UnicodeAlnum := alnum_nonascii : char -> bool.

Definition is_ascii_alnum (c : char) : bool :=
  is_ascii_digit c || in_range 65 90 c || in_range 97 122 c.
Definition is_alphanumeric `{UnicodeAlnum} (c : char) : bool :=
  if (c <? 128)%N then is_ascii_alnum c else alnum_nonascii c.

(** ** Envelopes *)

Definition close_tag : str := "</minified>".
Definition lang_attr : str := "lang=" ++ dquote.

Definition extract_minified_envelope (content : str) : option (str * str) :=
  let trimmed := trim content in
  if negb (starts_with trimmed "<minified") then None else
  match find_sub ">" trimmed with
  | None => None
  | Some tag_end =>
      let open_tag := take (tag_end + 1) trimmed in
      if negb (starts_with open_tag "<minified ") && negb (str_eqb open_tag "<minified>")
      then None else
      match find_sub lang_attr open_tag with
      | None => None
      | Some i =>
          let from := drop (i + 6) open_tag in
          match find_sub dquote from with
          | None => None
          | Some lang_end =>
              let lang := take lang_end from in
              if str_eqb lang [] then None else
              match rfind_sub close_tag trimmed with
              | None => None
              | Some close =>
                  if negb (close + length close_tag =? length trimmed) then None
                  else if close <=? tag_end + 1 then None
                  else Some (lang, take (close - (tag_end + 1)) (drop (tag_end + 1) trimmed))
              end
          end
      end
  end.

Definition has_minified_envelope (content : str) : bool :=
  is_some_b (extract_minified_envelope content).

Definition wrap_minified_envelope (lang code : str) : str :=
  "<minified lang=" ++ dquote ++ lang ++ dquote ++ ">" ++ [10%N] ++ code
  ++ (if ends_with code [10%N] then [] else [10%N]) ++ close_tag.

Definition lang_name_for_ext `{UnicodeCase} (ext : str) : str :=
  let ext := to_lowercase ext in
  unwrap_or ext (assoc ext
    (map (fun p => (lit p.1, lit p.2))
      [("rs", "rust"); ("py", "python"); ("js", "javascript"); ("ts", "typescript");
       ("jsx", "jsx"); ("tsx", "tsx"); ("go", "go"); ("c", "c"); ("cpp", "cpp");
       ("hpp", "cpp"); ("cc", "cpp"); ("java", "java"); ("rb", "ruby"); ("sh", "shell");
       ("bash", "shell"); ("zsh", "shell"); ("md", "markdown"); ("json", "json");
       ("yaml", "yaml"); ("yml", "yaml"); ("toml", "toml")])%string).

Definition ext_for_lang `{UnicodeCase} (lang : str) : str :=
  let lang := to_lowercase lang in
  unwrap_or lang (assoc lang
    (map (fun p => (lit p.1, lit p.2))
      [("rust", "rs"); ("rs", "rs"); ("python", "py"); ("py", "py"); ("javascript", "js");
       ("js", "js"); ("typescript", "ts"); ("ts", "ts"); ("jsx", "jsx"); ("tsx", "tsx");
       ("go", "go"); ("c", "c"); ("cpp", "cpp"); ("c++", "cpp"); ("java", "java");
       ("ruby", "rb"); ("rb", "rb"); ("shell", "sh"); ("sh", "sh"); ("bash", "sh");
       ("zsh", "sh")])%string).

(** ** The fallback printers *)

Definition newline : char := 10%N.
Definition blank : char := 32%N.
Definition backslash : char := 92%N.

Definition normalize_trailing_newline (code : str) : str :=
  let trimmed := trim_end code in
  if str_eqb trimmed [] then [] else trimmed ++ [newline].

Section Printers.
Context `{UnicodeAlnum}.

Definition word_char (c : char) : bool :=
  is_alphanumeric c || (c =? "_"%char)%N || (c =? "$"%char)%N.

(** The word characters that end a text, and the character before them. *)
Fixpoint split_word (r : str) (acc : str) : str * option char :=
  match r with
  | [] => (acc, None)
  | c :: r' => if word_char c then split_word r' (c :: acc) else (acc, Some c)
  end.

(** [trailing_word]: the slice starts one byte after the first byte of the character
    before the word, which is inside that character when it has more than one byte. *)
Definition trailing_word (s : str) : option str :=
  match split_word (rev (trim_end s)) [] with
  | (w, None) => Some w
  | (w, Some c) => if (c <? 128)%N then Some w else None
  end.

Definition regex_keywords : list str :=
  map lit ["return"; "typeof"; "instanceof"; "in"; "of"; "new"; "delete"; "void"; "case";
           "do"; "else"; "yield"; "await"; "throw"].

Definition prev_opens_regex (out : str) : option bool :=
  match last (trim_end out) with
  | None => Some true
  | Some c =>
      if bool_decide (c ∈ bytes_of_string "(,;:=!+-*%<>&|^~?{[") then Some true
      else if word_char c then
        match trailing_word out with
        | None => None
        | Some w => Some (existsb (str_eqb w) regex_keywords)
        end
      else Some false
  end.

(** Where the C-like printer is. *)
Inductive mode := Code | InString (q : char) | InRegex (cls : bool) | InBlock | InLine.

Definition next_is (s : str) (c : char) : bool :=
  match s with d :: _ => (d =? c)%N | [] => false end.

(** The punctuation and white space of code outside literals and comments: what is
    added to the output and the new value of [prev_was_newline]; [rest] is what
    follows.  The colon is handled in the loop, since it looks further. *)
Definition punct (ch : char) (rest out : str) (nl : bool) : str * bool :=
  if (ch =? ";"%char)%N then
    if negb (next_is rest "}"%char) && negb (next_is rest newline)
    then ([ch; newline], true) else ([ch], nl)
  else if (ch =? "{"%char)%N then
    if negb (next_is rest newline) && negb (next_is rest "}"%char)
    then ([ch; newline], true) else ([ch], nl)
  else if (ch =? "}"%char)%N then
    let pre := if nl then [] else [newline] in
    if negb (next_is rest ";"%char) && negb (next_is rest ","%char)
       && negb (next_is rest newline) && negb (next_is rest "}"%char)
    then (pre ++ [ch; newline], true) else (pre ++ [ch], false)
  else if (ch =? ","%char)%N then
    if negb (next_is rest blank) && negb (next_is rest newline)
    then ([ch; blank], nl) else ([ch], nl)
  else if (ch =? newline)%N then
    if nl then ([], nl) else ([newline], true)
  else if is_whitespace ch then
    if negb nl && negb (ends_with out [blank]) then ([blank], nl) else ([], nl)
  else ([ch], false).

(** A colon that ends what a blank may follow. *)
Definition colon_blank (rest : str) : bool :=
  match rest with
  | [] => true
  | c :: _ => negb ((c =? newline)%N || (c =? ";"%char)%N || (c =? ","%char)%N
                    || (c =? ")"%char)%N || (c =? "}"%char)%N || is_alphanumeric c
                    || (c =? "_"%char)%N)
  end.

(** The loop of [fallback_c_like]. *)
Fixpoint c_like (m : mode) (nl : bool) (out s : str) {struct s} : option str :=
  match s with
  | [] => Some out
  | ch :: rest =>
      let code tt :=
        if (ch =? 34)%N || (ch =? 39)%N || (ch =? 96)%N then c_like (InString ch) nl (out ++ [ch]) rest
        else if (ch =? "/"%char)%N && next_is rest "*"%char then
          match rest with
          | d :: rest' => c_like InBlock nl (out ++ [ch; d]) rest'
          | [] => Some out
          end
        else if (ch =? "/"%char)%N && next_is rest "/"%char then
          match rest with
          | d :: rest' => c_like InLine nl (out ++ [ch; d]) rest'
          | [] => Some out
          end
        else
          match (if (ch =? "/"%char)%N then prev_opens_regex out else Some false) with
          | None => None
          | Some true => c_like (InRegex false) nl (out ++ [ch]) rest
          | Some false =>
              if (ch =? ":"%char)%N then
                match rest with
                | d :: rest' =>
                    if (d =? ":"%char)%N then c_like Code nl (out ++ [ch; d]) rest'
                    else if (d =? blank)%N then c_like Code nl (out ++ [ch; blank]) rest'
                    else c_like Code nl (out ++ ch :: (if colon_blank rest then [blank] else [])) rest
                | [] => Some (out ++ [ch; blank])
                end
              else
                let '(add, nl') := punct ch rest out nl in c_like Code nl' (out ++ add) rest
          end in
      match m with
      | InRegex cls =>
          if (ch =? backslash)%N then
            match rest with
            | d :: rest' => c_like m nl (out ++ [ch; d]) rest'
            | [] => Some (out ++ [ch])
            end
          else if (ch =? newline)%N then code tt
          else
            let m' := if (ch =? "["%char)%N then InRegex true
                      else if (ch =? "]"%char)%N then InRegex false
                      else if (ch =? "/"%char)%N && negb cls then Code else m in
            c_like m' nl (out ++ [ch]) rest
      | InString q =>
          if (ch =? backslash)%N then
            match rest with
            | d :: rest' => c_like m nl (out ++ [ch; d]) rest'
            | [] => Some (out ++ [ch])
            end
          else c_like (if (ch =? q)%N then Code else m) nl (out ++ [ch]) rest
      | InBlock =>
          if (ch =? "*"%char)%N && next_is rest "/"%char then
            match rest with
            | d :: rest' => c_like Code nl (out ++ [ch; d]) rest'
            | [] => Some out
            end
          else c_like m nl (out ++ [ch]) rest
      | InLine =>
          if (ch =? newline)%N then c_like Code true (out ++ [ch]) rest
          else c_like m true (out ++ [ch]) rest
      | Code => code tt
      end
  end.

Definition fallback_c_like (code : str) : option str :=
  normalize_trailing_newline <$> c_like Code false [] code.

(** *** Python *)

Fixpoint indent_from (cols : nat) (line : str) : nat :=
  match line with
  | [] => cols
  | c :: rest =>
      if (c =? 9)%N then indent_from (cols + (8 - cols mod 8)) rest
      else if is_whitespace c then indent_from (cols + 1) rest
      else cols
  end.
Definition indent_cols (line : str) : nat := indent_from 0 line.

Fixpoint py_first_word (line : str) : str :=
  match line with
  | [] => []
  | c :: rest =>
      if is_alphanumeric c || (c =? "_"%char)%N then c :: py_first_word rest else []
  end.

Inductive py_quote := Bare | Single (q : char) | Triple (q : char).

Definition two_are (s : str) (q : char) : bool :=
  match s with a :: b :: _ => ((a =? q) && (b =? q))%N | _ => false end.

(** The loop of [py_triple_state]; only a triple literal reaches the next line. *)
Fixpoint py_scan (st : py_quote) (line : str) : py_quote :=
  match line with
  | [] => st
  | c :: rest =>
      match st with
      | Triple q =>
          if (c =? backslash)%N then match rest with _ :: r => py_scan st r | [] => st end
          else if (c =? q)%N && two_are rest q then
            match rest with _ :: _ :: r => py_scan Bare r | _ => st end
          else py_scan st rest
      | Single q =>
          if (c =? backslash)%N then match rest with _ :: r => py_scan st r | [] => st end
          else py_scan (if (c =? q)%N then Bare else st) rest
      | Bare =>
          if (c =? "#"%char)%N then st
          else if (c =? 34)%N || (c =? 39)%N then
            if two_are rest c then match rest with _ :: _ :: r => py_scan (Triple c) r | _ => st end
            else py_scan (Single c) rest
          else py_scan st rest
      end
  end.

Definition py_triple_state (line : str) (triple : option char) : option char :=
  match py_scan (match triple with Some q => Triple q | None => Bare end) line with
  | Triple q => Some q
  | _ => None
  end.

Definition py_headers : list str := map lit ["else"; "elif"; "except"; "finally"].
Definition py_openers : list str :=
  map lit ["def"; "if"; "elif"; "else"; "for"; "while"; "try"; "except"; "finally"; "with";
           "class"; "async"].

(** The innermost level comes first; the outermost one is never popped. *)
Fixpoint pop_levels (width : nat) (stack : list nat) : list nat :=
  match stack with
  | top :: ((_ :: _) as stack') =>
      if width <? top then pop_levels width stack' else stack
  | _ => stack
  end.

Record py_state := mkPy {
  stack : list nat;
  pending_open : bool;
  triple : option char;
  py_out : str
}.

Definition indent_unit : str := "    ".

(** One line of [fallback_python]. *)
Definition py_line (st : py_state) (raw_line : str) : py_state :=
  match triple st with
  | Some q =>
      mkPy (stack st) (pending_open st) (py_triple_state raw_line (Some q))
        (py_out st ++ raw_line ++ [newline])
  | None =>
      let stripped := trim_start raw_line in
      if str_eqb stripped [] then
        mkPy (stack st) (pending_open st) None (py_out st ++ [newline])
      else
        let width := indent_cols raw_line in
        let next_triple := py_triple_state stripped None in
        let line := if is_some_b next_triple then stripped else trim_end stripped in
        let word := py_first_word line in
        let is_header := existsb (str_eqb word) py_headers in
        let width_dedented := width <? hd 0 (stack st) in
        let levels := pop_levels width (stack st) in
        let levels :=
          if hd 0 levels <? width then width :: levels
          else if pending_open st then width :: levels
          else if is_header && negb width_dedented && (1 <? length levels) then tl levels
          else levels in
        mkPy levels
          (existsb (str_eqb word) py_openers && ends_with line ":" && negb (is_some_b next_triple))
          next_triple
          (py_out st ++ mjoin (replicate (length levels - 1) indent_unit) ++ line ++ [newline])
  end.

Definition fallback_python (code : str) : str :=
  normalize_trailing_newline (py_out (foldl py_line (mkPy [0] false None []) (lines code))).

Definition fallback_expand (code ext : str) : option str :=
  if existsb (str_eqb ext) (map lit ["rs"; "c"; "cpp"; "java"; "go"; "js"; "ts"; "jsx"; "tsx"])
  then fallback_c_like code
  else if str_eqb ext "py" then Some (fallback_python code)
  else Some (normalize_trailing_newline code).

Section Formatters.
(** [run_formatter_stdin]: a command with its arguments on the code; [None] when it is
    not installed, fails or answers bytes that are not UTF-8. *)
Variable formatter : str -> list str -> str -> option str.

Definition format_with_rustfmt (code : str) : option str :=
  formatter "rustfmt" (map lit ["--edition"; "2021"; "--emit"; "stdout"]) code.
Definition format_with_black (code : str) : option str :=
  formatter "black" (map lit ["-q"; "-"]) code.
Definition format_with_autopep8 (code : str) : option str :=
  formatter "python3" (map lit ["-m"; "autopep8"; "-"]) code
  <|> formatter "autopep8" [lit "-"] code.
Definition format_with_prettier (code ext : str) : option str :=
  let parser : str := if str_eqb ext "ts" || str_eqb ext "tsx" then lit "typescript" else lit "babel" in
  formatter "prettier" [lit "--stdin-filepath"; "fragment." ++ ext; lit "--parser"; parser] code.
Definition format_with_deno_fmt (code ext : str) : option str :=
  formatter "deno" [lit "fmt"; lit "--ext"; ext; lit "-"] code.
Definition format_with_gofmt (code : str) : option str := formatter "gofmt" [] code.

Definition try_external_formatter (code ext : str) : option str :=
  if str_eqb ext "rs" then format_with_rustfmt code
  else if str_eqb ext "py" then format_with_black code <|> format_with_autopep8 code
  else if existsb (str_eqb ext) (map lit ["js"; "jsx"; "ts"; "tsx"])
  then format_with_prettier code ext <|> format_with_deno_fmt code ext
  else if str_eqb ext "go" then format_with_gofmt code
  else None.
End Formatters.

Definition expand_minified `{UnicodeCase} (formatter : str -> list str -> str -> option str)
    (minified_code : str) : option str :=
  match extract_minified_envelope minified_code with
  | Some (lang, code) =>
      let ext := ext_for_lang lang in
      match try_external_formatter formatter code ext with
      | Some formatted => Some formatted
      | None => fallback_expand code ext
      end
  | None => Some minified_code
  end.

(** ** Only white space changes *)

Definition ink (s : str) : str := List.filter (fun c => negb (is_whitespace c)) s.

Lemma ink_app s t : ink (s ++ t) = ink s ++ ink t.
Proof. apply List.filter_app. Qed.

Lemma ink_blank s : Forall (fun c => is_whitespace c = true) s -> ink s = [].
Proof. unfold ink. induction 1 as [|c s Hc Hs IH]; [done|]. simpl. by rw Hc. Qed.

Lemma ink_cons_ws c s : is_whitespace c = true -> ink (c :: s) = ink s.
Proof. intros Hc. unfold ink. simpl. by rw Hc. Qed.

Lemma ink_trim_start s : ink (trim_start s) = ink s.
Proof.
  induction s as [|c s IH]; [done|]. cbn [trim_start].
  destruct (is_whitespace c) eqn:E; [|done]. by rw ink_cons_ws.
Qed.

Lemma ink_rev s : ink (rev s) = rev (ink s).
Proof. apply List.filter_rev. Qed.

Lemma ink_trim_end s : ink (trim_end s) = ink s.
Proof. unfold trim_end. by rw ink_rev ink_trim_start ink_rev rev_involutive. Qed.

Lemma ink_normalize s : ink (normalize_trailing_newline s) = ink s.
Proof.
  unfold normalize_trailing_newline. destruct (str_eqb (trim_end s) []) eqn:E.
  - apply str_eqb_eq in E. trans (ink (trim_end s)); [by rw E|apply ink_trim_end].
  - by rw ink_app ink_trim_end app_nil_r.
Qed.

Lemma ink_punct ch rest out nl : ink (punct ch rest out nl).1 = ink [ch].
Proof.
  unfold punct, ink.
  destruct (ch =? ";"%char)%N eqn:E1; [apply N.eqb_eq in E1 as ->; by case_match|].
  destruct (ch =? "{"%char)%N eqn:E2; [apply N.eqb_eq in E2 as ->; by case_match|].
  destruct (ch =? "}"%char)%N eqn:E3; [apply N.eqb_eq in E3 as ->; by case_match; destruct nl|].
  destruct (ch =? ","%char)%N eqn:E4; [apply N.eqb_eq in E4 as ->; by case_match|].
  destruct (ch =? newline)%N eqn:E5; [apply N.eqb_eq in E5 as ->; by destruct nl|].
  destruct (is_whitespace ch) eqn:E6; [|done]. simpl. rw E6. by case_match.
Qed.

(** One step of the loop: [add] went to the output for the characters before [rest]. *)
Lemma ink_step out add ch used rest r :
  ink add = ink (ch :: used) -> ink r = ink ((out ++ add) ++ rest) ->
  ink r = ink (out ++ ch :: used ++ rest).
Proof.
  intros Ha ->. rw app_comm_cons !ink_app Ha. by rw app_assoc.
Qed.

(** The steps that read one character, or two. *)
Definition step1 (r out : str) (ch : char) (rest : str) : Prop :=
  forall m nl add, ink add = ink [ch] -> c_like m nl (out ++ add) rest = Some r ->
    ink r = ink (out ++ ch :: rest).
Definition step2 (r out : str) (ch : char) (rest : str) : Prop :=
  forall m nl d rest' add, rest = d :: rest' -> ink add = ink [ch; d] ->
    c_like m nl (out ++ add) rest' = Some r -> ink r = ink (out ++ ch :: rest).

Lemma c_like_code_ink nl out ch rest r :
  step1 r out ch rest -> step2 r out ch rest ->
  c_like Code nl out (ch :: rest) = Some r -> ink r = ink (out ++ ch :: rest).
Proof.
  intros H1 H2. cbn [c_like].
  destruct (_ || _ || _); [by apply H1|].
  destruct (_ && next_is rest "*"%char) eqn:Eb; [destruct rest; [by rw andb_false_r in Eb|by eapply H2]|].
  destruct (_ && next_is rest "/"%char) eqn:El; [destruct rest; [by rw andb_false_r in El|by eapply H2]|].
  destruct (if (ch =? "/"%char)%N then _ else _) as [[]|]; [by apply H1| |done].
  destruct (ch =? ":"%char)%N eqn:Ec.
  - apply N.eqb_eq in Ec as ->. destruct rest as [|d rest'].
    { intros [= <-]. by rw !ink_app. }
    destruct (d =? ":"%char)%N; [by eapply H2|].
    destruct (d =? blank)%N eqn:Ed; [apply N.eqb_eq in Ed as ->; by eapply H2|].
    apply H1. by destruct (colon_blank (d :: rest')).
  - pose proof (ink_punct ch rest out nl). destruct (punct ch rest out nl). by apply H1.
Qed.

Lemma c_like_ink n m nl out s r :
  length s <= n -> c_like m nl out s = Some r -> ink r = ink (out ++ s).
Proof.
  revert m nl out s. induction n as [|n IH]; intros m nl out s Hn.
  { destruct s; [|simpl in Hn; lia]. simpl. intros [= ->]. by rw app_nil_r. }
  destruct s as [|ch rest]; [simpl; intros [= ->]; by rw app_nil_r|]. simpl in Hn.
  assert (step1 r out ch rest) as H1.
  { intros m' nl' add Ha Hr. apply (ink_step out add ch [] rest); [done|].
    apply (IH m' nl'); [lia|done]. }
  assert (step2 r out ch rest) as H2.
  { intros m' nl' d rest' add -> Ha Hr. apply (ink_step out add ch [d] rest'); [done|].
    simpl in Hn. apply (IH m' nl'); [lia|done]. }
  clear IH Hn. destruct m as [|q|cls| |]; [by apply c_like_code_ink|..]; cbn [c_like].
  - destruct (ch =? backslash)%N; [|by apply H1].
    destruct rest; [by intros [= <-]; rw !ink_app|by eapply H2].
  - destruct (ch =? backslash)%N.
    { destruct rest; [by intros [= <-]; rw !ink_app|by eapply H2]. }
    destruct (ch =? newline)%N; [|by apply H1]. by apply (c_like_code_ink nl out ch rest r H1 H2).
  - destruct (_ && _) eqn:E; [|by apply H1].
    destruct rest; [by rw andb_false_r in E|by eapply H2].
  - destruct (ch =? newline)%N; by apply H1.
Qed.

Lemma fallback_c_like_ink code r : fallback_c_like code = Some r -> ink r = ink code.
Proof.
  unfold fallback_c_like. destruct (c_like Code false [] code) as [out|] eqn:E; [|done].
  intros [= <-]. rw ink_normalize. by eapply c_like_ink in E.
Qed.

Lemma ink_newline l : ink (newline :: l) = ink l.
Proof. done. Qed.

Lemma ink_strip_cr l : ink (strip_cr l) = ink l.
Proof.
  unfold strip_cr. destruct (ends_with l [13%N]) eqn:E; [|done].
  apply ends_with_spec in E as [k ->]. by rw removelast_last ink_app app_nil_r.
Qed.

Lemma ink_lines s : mjoin (map ink (lines s)) = ink s.
Proof.
  trans (mjoin (map ink (split_char newline s))).
  - unfold lines. change 10%N with newline. generalize (split_char newline s) as ps. intros ps.
    induction ps as [|p [|q ps] IH]; [done| |].
    + simpl. case_decide as E; [subst p|]; done.
    + change (ink (strip_cr p) ++ mjoin (map ink (lines_of (q :: ps)))
        = ink p ++ mjoin (map ink (q :: ps))). by rw ink_strip_cr IH.
  - trans (ink (join [newline] (split_char newline s))); [|by rw split_char_join].
    generalize (split_char newline s) as ps. intros ps.
    induction ps as [|p [|q ps] IH]; [done|by simpl; rw app_nil_r|].
    change (ink p ++ mjoin (map ink (q :: ps)) = ink (p ++ newline :: join [newline] (q :: ps))).
    by rw ink_app ink_newline IH.
Qed.

Lemma ink_indent n : ink (mjoin (replicate n indent_unit)) = [].
Proof. induction n as [|n IH]; [done|]. simpl. by rw IH. Qed.

Lemma py_line_ink st l : ink (py_out (py_line st l)) = ink (py_out st) ++ ink l.
Proof.
  unfold py_line. destruct (triple st) as [q|]; simpl.
  { by rw !ink_app app_nil_r. }
  rw -(ink_trim_start l). destruct (str_eqb (trim_start l) []) eqn:E; simpl.
  { apply str_eqb_eq in E. by rw E ink_app. }
  rw !ink_app ink_indent app_nil_r. f_equal. simpl.
  by destruct (is_some_b _); [|apply ink_trim_end].
Qed.

Lemma fallback_python_ink code : ink (fallback_python code) = ink code.
Proof.
  unfold fallback_python. rw ink_normalize -(ink_lines code).
  set (st := mkPy [0] false None []). assert (ink (py_out st) = []) as E by done.
  trans (ink (py_out st) ++ mjoin (map ink (lines code))); [|by rw E].
  clear E. clearbody st. revert st.
  induction (lines code) as [|l ls IH]; intros st; [by rw app_nil_r|].
  cbn [foldl]. rw IH py_line_ink. by rw -app_assoc.
Qed.

Lemma fallback_expand_ink code ext r : fallback_expand code ext = Some r -> ink r = ink code.
Proof.
  unfold fallback_expand. destruct (existsb _ _); [apply fallback_c_like_ink|].
  destruct (str_eqb ext "py"); intros [= <-]; [apply fallback_python_ink|apply ink_normalize].
Qed.

(** *** When the printer panics *)

Definition is_wide (c : char) : Prop := (128 <= c)%N.

Lemma trim_end_elem (s : str) x : x ∈ trim_end s -> x ∈ s.
Proof. unfold trim_end. rw elem_of_rev. intros Hx%trim_start_sublist. by rw elem_of_rev in Hx. Qed.

Lemma split_word_elem r acc w c : split_word r acc = (w, Some c) -> c ∈ r.
Proof.
  revert acc. induction r as [|x r IH]; intros acc; simpl; [done|].
  destruct (word_char x); [|intros [= _ <-]; by left]. intros Hx%IH. by right.
Qed.

Lemma prev_opens_regex_None out : prev_opens_regex out = None -> Exists is_wide out.
Proof.
  unfold prev_opens_regex. destruct (last (trim_end out)) as [c|]; [|done].
  destruct (bool_decide _); [done|]. destruct (word_char c); [|done].
  unfold trailing_word. destruct (split_word (rev (trim_end out)) []) as [w [x|]] eqn:E; [|done].
  destruct (x <? 128)%N eqn:Ex; [done|]. intros _. apply N.ltb_ge in Ex.
  apply split_word_elem in E. rw elem_of_rev in E. apply trim_end_elem in E.
  apply List.Exists_exists. exists x. split; [by apply list_elem_of_In|done].
Qed.

Lemma punct_narrow ch rest out nl : Exists is_wide (punct ch rest out nl).1 -> is_wide ch.
Proof.
  assert (~ is_wide newline) as Hn by by vm_compute.
  assert (~ is_wide blank) as Hb by by vm_compute.
  unfold punct. repeat case_match; simpl; rw ?Exists_app ?Exists_cons ?Exists_nil; tauto.
Qed.

Definition panic1 (out : str) (ch : char) (rest : str) : Prop :=
  forall m nl add, (Exists is_wide add -> is_wide ch) -> c_like m nl (out ++ add) rest = None ->
    Exists is_wide (out ++ ch :: rest).
Definition panic2 (out : str) (ch : char) (rest : str) : Prop :=
  forall m nl d rest' add, rest = d :: rest' ->
    (Exists is_wide add -> is_wide ch \/ is_wide d) ->
    c_like m nl (out ++ add) rest' = None -> Exists is_wide (out ++ ch :: rest).

Ltac wide := rw ?Exists_app ?Exists_cons ?Exists_nil; tauto.

Lemma c_like_code_panics nl out ch rest :
  panic1 out ch rest -> panic2 out ch rest ->
  c_like Code nl out (ch :: rest) = None -> Exists is_wide (out ++ ch :: rest).
Proof.
  intros H1 H2. cbn [c_like].
  destruct (_ || _ || _); [apply H1; wide|].
  destruct (_ && next_is rest "*"%char); [destruct rest; [done|eapply H2; [done|wide]]|].
  destruct (_ && next_is rest "/"%char); [destruct rest; [done|eapply H2; [done|wide]]|].
  destruct (if (ch =? "/"%char)%N then _ else _) as [[]|] eqn:Ep; [apply H1; wide| |].
  - destruct (ch =? ":"%char)%N.
    + destruct rest as [|d rest']; [done|].
      destruct (d =? ":"%char)%N; [eapply H2; [done|wide]|].
      assert (~ is_wide blank) as Hb by by vm_compute.
      destruct (d =? blank)%N; [eapply H2; [done|wide]|].
      apply H1. destruct (colon_blank (d :: rest')); wide.
    + pose proof (punct_narrow ch rest out nl). destruct (punct ch rest out nl). by apply H1.
  - intros _. destruct (ch =? "/"%char)%N; [|done]. apply prev_opens_regex_None in Ep.
    apply Exists_app. by left.
Qed.

Lemma c_like_panics n m nl out s :
  length s <= n -> c_like m nl out s = None -> Exists is_wide (out ++ s).
Proof.
  revert m nl out s. induction n as [|n IH]; intros m nl out s Hn; [by destruct s; [|simpl in Hn; lia]|].
  destruct s as [|ch rest]; [done|]. simpl in Hn.
  assert (panic1 out ch rest) as H1.
  { intros m' nl' add Ha Hr%IH; [|lia]. revert Hr Ha. wide. }
  assert (panic2 out ch rest) as H2.
  { intros m' nl' d rest' add -> Ha Hr%IH; [|simpl in Hn; lia]. revert Hr Ha. wide. }
  clear IH Hn. destruct m as [|q|cls| |]; [by apply c_like_code_panics|..]; cbn [c_like].
  - destruct (ch =? backslash)%N; [|apply H1; wide].
    destruct rest; [done|eapply H2; [done|wide]].
  - destruct (ch =? backslash)%N; [destruct rest; [done|eapply H2; [done|wide]]|].
    destruct (ch =? newline)%N; [|apply H1; wide]. by apply (c_like_code_panics nl out ch rest H1 H2).
  - destruct (_ && _); [|apply H1; wide]. destruct rest; [done|eapply H2; [done|wide]].
  - destruct (ch =? newline)%N; apply H1; wide.
Qed.

Lemma fallback_expand_total code ext :
  Forall (fun c => (c < 128)%N) code -> exists r, fallback_expand code ext = Some r.
Proof.
  intros Hc. unfold fallback_expand. destruct (existsb _ _); [|case_match; by eexists].
  unfold fallback_c_like. destruct (c_like Code false [] code) as [out|] eqn:E; [by eexists|].
  apply (c_like_panics (length code)) in E; [|done]. simpl in E.
  apply List.Exists_exists in E as (x & Hx & Hw). rw List.Forall_forall in Hc.
  specialize (Hc x Hx). unfold is_wide in Hw. simpl in Hc. lia.
Qed.
End Printers.

(** ** The envelope's round trip *)

Lemma find_sub_char (x : char) (a b : str) : (x ∉ a) -> find_sub [x] (a ++ x :: b) = Some (length a).
Proof.
  induction a as [|c a IH]; intros Hn; simpl; [by rw N.eqb_refl|].
  apply not_elem_of_cons in Hn as [Hc Hn]. by rw (proj2 (N.eqb_neq x c) Hc) IH.
Qed.

Lemma rfind_sub_suffix (a p : str) : rfind_sub p (a ++ p) = Some (length a).
Proof.
  unfold rfind_sub. rw rev_app_distr.
  assert (find_sub (rev p) (rev p ++ rev a) = Some 0) as ->.
  { assert (starts_with (rev p ++ rev a) (rev p) = true) as E by (apply starts_with_spec; by eexists).
    destruct (rev p ++ rev a); simpl; by rw E. }
  simpl. rw length_app. f_equal. lia.
Qed.

Lemma trim_id (s : str) c d t :
  s = c :: t -> last s = Some d -> is_whitespace c = false -> is_whitespace d = false -> trim s = s.
Proof.
  intros -> Hl Hc Hd. unfold trim. cbn [trim_start]. rw Hc. unfold trim_end.
  apply last_Some in Hl as [l' E]. rw E rev_unit. cbn [trim_start]. rw Hd.
  by rw -rev_unit rev_involutive.
Qed.

Definition open_tag_of (lang : str) : str := "<minified lang=" ++ dquote ++ lang ++ dquote.

Lemma extract_envelope lang body :
  lang <> [] -> (34%N ∉ lang) -> (chr ">"%char ∉ lang) -> body <> [] ->
  extract_minified_envelope (open_tag_of lang ++ ">" ++ body ++ close_tag) = Some (lang, body).
Proof.
  intros Hne Hq Hgt Hb. unfold extract_minified_envelope.
  set (w := open_tag_of lang ++ ">" ++ body ++ close_tag).
  assert (trim w = w) as ->.
  { eapply (trim_id w (chr "<"%char) (chr ">"%char)); [reflexivity| |done|done].
    apply last_Some. exists (open_tag_of lang ++ ">" ++ body ++ "</minified"). unfold w.
    change close_tag with (lit "</minified" ++ [chr ">"%char]). by rw !app_assoc. }
  assert (starts_with w "<minified" = true) as -> by done. cbn [negb].
  assert (find_sub ">" w = Some (length (open_tag_of lang))) as ->.
  { apply find_sub_char. unfold open_tag_of. rw !not_elem_of_app. split_and!; try done;
      by apply (bool_decide_unpack (_ ∉ _)). }
  cbv zeta.
  assert (take (length (open_tag_of lang) + 1) w = open_tag_of lang ++ ">") as Ht.
  { unfold w. rw app_assoc. rw take_app_length' //. by rw length_app. }
  assert (drop (length (open_tag_of lang) + 1) w = body ++ close_tag) as Hd.
  { unfold w. rw app_assoc. rw drop_app_length' //. by rw length_app. }
  rw Ht Hd. assert (starts_with (open_tag_of lang ++ ">") "<minified " = true) as -> by done.
  cbn [negb andb].
  assert (find_sub lang_attr (open_tag_of lang ++ ">") = Some 10) as -> by done.
  assert (drop (10 + 6) (open_tag_of lang ++ ">") = lang ++ 34%N :: ">") as ->.
  { unfold open_tag_of. by rw -!app_assoc. }
  rw (find_sub_char 34 lang ">" Hq) take_app_length (proj2 (str_eqb_neq lang _) Hne).
  assert (w = (open_tag_of lang ++ ">" ++ body) ++ close_tag) as Hw by (unfold w; by rw -!app_assoc).
  rw Hw rfind_sub_suffix (length_app _ close_tag) Nat.eqb_refl. cbn [negb].
  assert (length (open_tag_of lang ++ ">" ++ body) = length (open_tag_of lang) + 1 + length body) as ->
    by (rw !length_app; simpl; lia).
  destruct body as [|c body]; [done|].
  rw (proj2 (Nat.leb_gt _ _)); [simpl; lia|].
  by rw Nat.add_comm Nat.add_sub take_app_length.
Qed.

(** ** Properties *)

(** An envelope gives back what was put in it: the language, and the code between
    the line feeds of the wrapper, whatever the code contains. *)
Lemma envelope_roundtrip lang code :
  lang <> [] -> (34%N ∉ lang) -> (chr ">"%char ∉ lang) ->
  extract_minified_envelope (wrap_minified_envelope lang code)
  = Some (lang, newline :: code ++ (if ends_with code [newline] then [] else [newline])).
Proof.
  intros Hne Hq Hgt.
  rw -(extract_envelope lang (newline :: code ++ _) Hne Hq Hgt) //.
  f_equal. unfold wrap_minified_envelope, open_tag_of.
  change (newline :: code ++ ?t) with ([newline] ++ code ++ t). by rw -!app_assoc.
Qed.

Definition ascii_alnum : UnicodeAlnum := fun _ => false.

Lemma envelope_roundtrip_witness :
  extract_minified_envelope (wrap_minified_envelope "rust" "a</minified>")
  = Some (lit "rust", newline :: lit "a</minified>" ++ [newline]).
Proof.
  apply (envelope_roundtrip "rust" "a</minified>"); [done|..];
    by apply (bool_decide_unpack (_ ∉ _)).
Defined.

(** Expanding minified code without a formatter changes white space only, in every
    language; and for ASCII code the printers do not panic. *)
Lemma expansion_faithful `{UnicodeAlnum} code ext :
  (forall r, fallback_expand code ext = Some r -> ink r = ink code)
  /\ (Forall (fun c => (c < 128)%N) code -> exists r, fallback_expand code ext = Some r).
Proof. split; [apply fallback_expand_ink|apply fallback_expand_total]. Qed.

(** A slash after a word that follows a character of several bytes: the slice of
    [trailing_word] starts inside that character. *)
Lemma printer_panics :
  fallback_c_like (H := ascii_alnum) [8226%N; chr "a"%char; chr "/"%char; chr "b"%char] = None.
Proof. reflexivity. Qed.

Lemma expansion_faithful_witness :
  (forall r, fallback_expand (H := ascii_alnum) "if(x){y;}" "js" = Some r -> ink r = lit "if(x){y;}")
  /\ exists r, fallback_expand (H := ascii_alnum) "if(x){y;}" "js" = Some r.
Proof.
  destruct (expansion_faithful (H := ascii_alnum) "if(x){y;}" "js") as [Hi Ht]. split.
  - exact Hi.
  - apply Ht. apply (bool_decide_unpack (Forall _ _)). exact I.
Defined.
