(* ===== verification/FileTools.v ===== *)
(** * Writing and editing files (src/tools/atomic_write.rs, write_file.rs, edit_file.rs)

    The tools [write_file] and [edit_file] on the file tree of [Paths], behind the guard
    of [PathGuard], with the snapshots they push for [/undo] and the atomic write.

    Parameters: [shellexpand::tilde], the git probe and the case table of the guard,
    the formatter behind [minify::expand_minified], the line diff of the crate
    [similar], and the undo log ([UndoLog], of which the undo stack is an instance). *)

From Stdlib Require Import ssreflect.
From S2P Require Import Prelude Machine BashSafety Undo Offload BudgetGuard Minify Paths PathGuard.

(** ** [atomic_write] *)

(** [tag] is the process id, the time and the counter; [fault] is how far the bytes get
    and the error when writing or syncing the temporary file fails; [cleanup_fails] tells
    whether removing it afterwards fails too. *)
Record WriteIo := mkWriteIo { tag : str; fault : option (nat * errno); cleanup_fails : bool }.

Definition tmp_path (path : str) (io : WriteIo) : str :=
  let par := unwrap_or (lit ".") (parent path) in
  let name := unwrap_or (lit "write") (file_name path) in
  path_join par (".kf-code-" ++ name ++ "." ++ tag io ++ ".tmp").

Definition write_fsync_rename (fs : Fs) (io : WriteIo) (tmp target : str) (contents : list N)
    : result unit errno * Fs :=
  let written := match fault io with Some (n, _) => take n contents | None => contents end in
  match create_new fs tmp written with
  | Err e => (Err e, fs)
  | Ok fs1 =>
      match fault io with
      | Some (_, e) => (Err e, fs1)
      | None => match rename fs1 tmp target with
                | Err e => (Err e, fs1)
                | Ok fs2 => (Ok tt, fs2)
                end
      end
  end.

(** The temporary file is removed after any error; the outcome of that is ignored. *)
Definition atomic_write (fs : Fs) (io : WriteIo) (path : str) (contents : list N)
    : result unit errno * Fs :=
  let tmp := tmp_path path io in
  let '(r, fs1) := write_fsync_rename fs io tmp path contents in
  match r with
  | Ok _ => (r, fs1)
  | Err _ =>
      (r, if cleanup_fails io then fs1
          else match remove_file fs1 tmp with Ok fs2 => fs2 | Err _ => fs1 end)
  end.

(** No file has the name of the temporary file. *)
Definition unused_tmp (fs : Fs) (path : str) (io : WriteIo) : Prop :=
  forall d c, entry_of fs (tmp_path path io) = Ok (d, c) -> node_at fs (d ++ [c]) = None.

(** The tag is of no file of the tree. *)
Record unused_tag (fs : Fs) (io : WriteIo) : Prop := {
  ft_name : chr "/"%char ∉ tag io;
  ft_unused : forall loc c, node_at fs (loc ++ [c]) <> None ->
    ends_with c ("." ++ tag io ++ ".tmp") = false
}.

(** The same, when a temporary file that is left can be removed. *)
Definition fresh_tmp (fs : Fs) (path : str) (io : WriteIo) : Prop :=
  unused_tmp fs path io /\ cleanup_fails io = false.
Definition fresh_tag (fs : Fs) (io : WriteIo) : Prop := unused_tag fs io /\ cleanup_fails io = false.

Lemma unused_tag_tmp fs io path : unused_tag fs io -> unused_tmp fs path io.
Proof.
  intros [Hn Hu] d c He. unfold tmp_path, path_join in He.
  set (t := "." ++ tag io ++ ".tmp") in *.
  set (name := ".kf-code-" ++ unwrap_or (lit "write") (file_name path) ++ t) in *.
  assert (exists s, entry_of fs (s ++ t) = Ok (d, c)) as [s Hs].
  { assert (forall k m, exists s, k ++ m ++ name = s ++ t) as Hname.
    { intros k m. exists (k ++ m ++ ".kf-code-" ++ unwrap_or (lit "write") (file_name path)).
      unfold name. by rw -!app_assoc. }
    set (par := unwrap_or (lit ".") (parent path)) in He.
    destruct (starts_with name "/"); [destruct (Hname [] []) as [s E]; exists s; by rw -E|].
    destruct (_ || _); [destruct (Hname par []) as [s E]|destruct (Hname par "/") as [s E]];
      exists s; by rw -E. }
  assert (chr "/"%char ∉ t) as Ht.
  { unfold t. rw !not_elem_of_app. split_and!; [|done|]; by apply (bool_decide_unpack (_ ∉ _)). }
  assert (t <> []) as Hne by discriminate.
  destruct (entry_name_suffix fs s t d c Hne Ht Hs) as [q ->].
  destruct (node_at fs (d ++ [q ++ t])) as [n|] eqn:E; [|done].
  assert (node_at fs (d ++ [q ++ t]) <> None) as Hex by by rw E.
  apply Hu in Hex. apply not_true_iff_false in Hex. destruct Hex.
  apply ends_with_spec. by exists q.
Qed.

Lemma fresh_tag_tmp fs io path : fresh_tag fs io -> fresh_tmp fs path io.
Proof. intros [Hu Hc]. split; [by apply unused_tag_tmp|done]. Qed.

Lemma with_nodes_id fs : with_nodes fs (nodes fs) = fs.
Proof. by destruct fs. Qed.

Section NewFile.
Variables (fs : Fs) (d0 : list str) (c0 : str) (b0 : list N).
Let fs1 := with_nodes fs (<[d0 ++ [c0] := File b0]> (nodes fs)).

Lemma node_at_new loc :
  node_at fs1 loc = if bool_decide (loc = d0 ++ [c0]) then Some (File b0) else node_at fs loc.
Proof.
  unfold node_at, fs1. simpl. case_bool_decide as E.
  - subst loc. rw lookup_insert_eq. by destruct d0.
  - destruct loc; [done|]. by rw lookup_insert_ne.
Qed.

Lemma node_at_new_eq : node_at fs1 (d0 ++ [c0]) = Some (File b0).
Proof. rw node_at_new. by rw bool_decide_eq_true_2. Qed.

Hypothesis absent : node_at fs (d0 ++ [c0]) = None.

(** A new file is on no path to a directory. *)
Lemma walk_new l cur xs d :
  walk l fs1 Follow cur (xs ++ [lit "."]) = Ok d <-> walk l fs Follow cur (xs ++ [lit "."]) = Ok d.
Proof.
  revert l cur xs. apply (walk_ind (fun l cur xs =>
    walk l fs1 Follow cur (xs ++ [lit "."]) = Ok d <-> walk l fs Follow cur (xs ++ [lit "."]) = Ok d)).
  - intros l cur. simpl app. by rw !walk_cons !walk_nil.
  - intros l cur c rest IH IHl. cbn [app]. rw !walk_cons node_at_new.
    change (may_search fs1 cur) with (may_search fs cur).
    destruct (str_eqb c "."); [apply IH|]. destruct (negb (may_search fs cur)); [done|].
    destruct (str_eqb c ".."); [apply IH|]. case_bool_decide as E.
    { rw E absent. by destruct rest. }
    destruct (node_at fs (cur ++ [c])) as [[| |t]|]; [done|apply IH| |by destruct rest].
    assert (follow_link l fs1 Follow cur t (rest ++ [lit "."]) = Ok d
            <-> follow_link l fs Follow cur t (rest ++ [lit "."]) = Ok d) as E';
      [|by destruct rest].
    destruct l as [|l']; [done|]. simpl. destruct (str_eqb t []); [done|].
    rw !app_assoc. apply (IHl l' _ (kernel_comps t ++ rest)). lia.
Qed.

Lemma entry_of_new p e : entry_of fs1 p = Ok e <-> entry_of fs p = Ok e.
Proof.
  unfold entry_of. destruct (str_eqb p []); [done|].
  destruct (rev (kernel_comps p)) as [|c r]; [done|].
  change (start_of fs1 (cwd fs1) p) with (start_of fs (cwd fs) p).
  split; intros (d & Hw & H)%result_bind_Ok; apply result_bind_Ok; exists d; (split; [|exact H]);
    by apply walk_new.
Qed.
End NewFile.

(** The tree with the temporary file, which holds a prefix of the contents. *)
Definition left_over (fs : Fs) (path : str) (io : WriteIo) (contents : list N) (fs' : Fs) : Prop :=
  exists d c n, entry_of fs (tmp_path path io) = Ok (d, c) /\ node_at fs (d ++ [c]) = None
    /\ fs' = with_nodes fs (<[d ++ [c] := File (take n contents)]> (nodes fs)).

(** All or nothing: the entry that the path names has the new contents, or nothing has
    changed, except that the temporary file stays when it cannot be removed. *)
Lemma atomic_write_outcomes fs io path contents :
  unused_tmp fs path io ->
  match atomic_write fs io path contents with
  | (Ok _, fs') => exists d c, entry_of fs path = Ok (d, c)
      /\ node_at fs (d ++ [c]) <> Some Dir
      /\ fs' = with_nodes fs (<[d ++ [c] := File contents]> (nodes fs))
  | (Err _, fs') => fs' = fs \/ cleanup_fails io = true /\ left_over fs path io contents fs'
  end.
Proof.
  intros Hf. unfold atomic_write, write_fsync_rename. set (tmp := tmp_path path io).
  set (w := match fault io with Some (n, _) => take n contents | None => contents end).
  unfold create_new. destruct (entry_of fs tmp) as [[d c]|e] eqn:Et; simpl;
    [|unfold remove_file; rw Et; left; by destruct (cleanup_fails io)].
  pose proof (Hf d c Et) as Ha. rw Ha.
  destruct (may_write fs d) eqn:Hw; simpl;
    [|unfold remove_file; rw Et /= Ha; left; by destruct (cleanup_fails io)].
  set (fs1 := with_nodes fs _).
  assert (entry_of fs1 tmp = Ok (d, c)) as Et1 by (by apply entry_of_new).
  assert (remove_file fs1 tmp = Ok fs) as Hrm.
  { unfold remove_file. rw Et1 /= (node_at_new_eq fs d c w) /=.
    change (may_write fs1 d) with (may_write fs d). rw Hw /=.
    unfold fs1, with_nodes. simpl. rw delete_insert_id; [by rw -node_at_snoc|].
    by destruct fs. }
  set (after := if cleanup_fails io then fs1 else match remove_file fs1 tmp with Ok fs2 => fs2 | Err _ => fs1 end).
  assert (after = fs \/ cleanup_fails io = true /\ left_over fs path io contents after) as Hafter.
  { unfold after. destruct (cleanup_fails io); [right|left; by rw Hrm]. split; [done|].
    exists d, c, (match fault io with Some (n, _) => n | None => length contents end).
    split; [exact Et|]. split; [exact Ha|].
    unfold fs1, w. destruct (fault io) as [[n e]|]; [reflexivity|]. rw firstn_all. reflexivity. }
  destruct (fault io) as [[n e]|] eqn:Eio; [exact Hafter|].
  destruct (rename fs1 tmp path) as [fs2|e] eqn:Er; [|exact Hafter].
  unfold rename in Er. rw Et1 /= in Er.
  destruct (entry_of fs1 path) as [[d' c']|] eqn:Ep; [|done]. simpl in Er.
  pose proof (proj1 (entry_of_new fs d c w Ha path (d', c')) Ep) as Ep'. exists d', c'.
  rw (node_at_new_eq fs d c w) in Er.
  assert (node_at fs (d' ++ [c']) <> Some Dir) as Hnd.
  { intros Hd. rw (node_at_new fs d c w) in Er. case_bool_decide as E; [by rw E Ha in Hd|].
    by rw Hd in Er. }
  split_and!; [done|done|].
  assert (fs2 = with_nodes fs1 (<[d' ++ [c'] := File w]> (delete (d ++ [c]) (nodes fs1)))) as ->.
  { destruct (node_at fs1 (d' ++ [c'])) as [[]|]; try done;
      by destruct (negb _); [|injection Er as [= <-]]. }
  unfold fs1, with_nodes. simpl. rw delete_insert_id; [by rw -node_at_snoc|done].
Qed.

Lemma atomic_write_cases fs io path contents :
  fresh_tmp fs path io ->
  match atomic_write fs io path contents with
  | (Ok _, fs') => exists d c, entry_of fs path = Ok (d, c)
      /\ node_at fs (d ++ [c]) <> Some Dir
      /\ fs' = with_nodes fs (<[d ++ [c] := File contents]> (nodes fs))
  | (Err _, fs') => fs' = fs
  end.
Proof.
  intros [Hf Hc]. pose proof (atomic_write_outcomes fs io path contents Hf) as H.
  destruct (atomic_write fs io path contents) as [[u|e] fs']; [done|].
  destruct H as [H|[H _]]; [done|]. by rw Hc in H.
Qed.

(** ** The guard and the write *)

(** The entry a guarded write replaces lies in every directory the guard found the
    write's anchor inside. *)
Lemma entry_inside fs p d c a dir :
  fs_wf fs -> entry_of fs p = Ok (d, c) -> anchored fs p a -> inside fs dir a ->
  (path_exists fs p = true -> not_a_link fs p) ->
  exists s, canonicalize fs dir = Ok (show_loc s) /\ s `prefix_of` (d ++ [c]).
Proof.
  intros Hw He Ha (cs & Hdir & Hin) Hl.
  assert (exists loc n, a = show_loc loc /\ loc `prefix_of` (d ++ [c]) /\ node_at fs loc = Some n)
    as (loc & n & -> & Hpre & Hn).
  { unfold anchored in Ha. destruct (path_exists fs p) eqn:Ex.
    - destruct (Hl eq_refl) as (n & Hm & Hnl).
      destruct (entry_existing fs p d c n He Hm Hnl) as [Hr Hn].
      apply canonicalize_Ok in Ha as (loc & Hr' & ->). exists loc, n.
      assert (loc = d ++ [c]) as -> by congruence. done.
    - destruct (entry_parent_some fs p _ He) as [q Hq]. rw Hq /= in Ha.
      rw (entry_parent fs p d c q a He Hq Ha). exists d, Dir. split_and!; [done|by exists [c]|].
      by eapply entry_dir. }
  apply canonicalize_Ok in Hdir as (s & Hs & ->).
  destruct (follow_sound _ _ _ Hw Hs) as (m & Hm & _).
  apply starts_with_show_loc in Hin; [|by eapply node_at_valid..].
  exists s. split; [apply canonicalize_Ok; by exists s|]. by etrans.
Qed.

(** [fs'] differs from [fs] below the location [s] only. *)
Definition changed_below (s : list str) (fs fs' : Fs) : Prop :=
  cwd fs' = cwd fs
  /\ forall loc, ~ s `prefix_of` loc -> node_at fs' loc = node_at fs loc.

Lemma changed_below_refl s fs : changed_below s fs fs.
Proof. by split. Qed.

Lemma changed_below_insert fs s d c n :
  s `prefix_of` (d ++ [c]) ->
  changed_below s fs (with_nodes fs (<[d ++ [c] := n]> (nodes fs))).
Proof.
  intros Hs. split; [done|]. intros [|x r] Hl; [done|]. simpl.
  rw lookup_insert_ne //. intros E. by rw E in Hs.
Qed.

Lemma guarded_write_lemma `{UnicodeCase} gitignored fs g io p q a dir contents :
  fs_wf fs -> fresh_tmp fs p io -> check_write gitignored fs g p = Allowed q ->
  anchored fs p a -> inside fs dir a ->
  exists s, canonicalize fs dir = Ok (show_loc s)
    /\ changed_below s fs (atomic_write fs io q contents).2.
Proof.
  intros Hw Hf (-> & Hwr)%check_write_Allowed Ha Hin.
  pose proof (atomic_write_cases fs io p contents Hf) as Hc.
  destruct (atomic_write fs io p contents) as [[u|e] fs'].
  - destruct Hc as (d & c & He & _ & ->).
    destruct (entry_inside fs p d c a dir Hw He Ha Hin (wr_link _ _ _ _ Hwr)) as (s & Hs & Hpre).
    exists s. split; [done|by apply changed_below_insert].
  - subst fs'. destruct Hin as (cs & (s & Hs & ->)%canonicalize_Ok & _). exists s.
    split; [apply canonicalize_Ok; by exists s|apply changed_below_refl].
Qed.

(** ** Outcomes *)

(** [ToolError]. *)
Inductive ToolError :=
| InvalidArgs (message : str)
| AccessDenied (message : str)
| Execution (message : str) (exit_code : option Z) (stderr : str)
| Timeout (after_secs : N)
| Cancelled
| Internal (message : str).

Definition Outcome : Type := @ToolOutcome ToolError unit.

Definition to_user_message (e : ToolError) : str :=
  match e with
  | InvalidArgs m => "Invalid tool arguments: " ++ m
  | AccessDenied m => "Access denied: " ++ m
  | Execution m code stderr =>
      let code := match code with Some c => "exit code " ++ show_Z c | None => "no exit code" end in
      if str_eqb stderr [] then m ++ " (" ++ code ++ ")"
      else m ++ " (" ++ code ++ ")" ++ [10%N] ++ "stderr:" ++ [10%N] ++ stderr
  | Timeout s => "Tool timed out after " ++ show_N s ++ "s"
  | Cancelled => "Tool cancelled by user"
  | Internal m => "Internal tool error: " ++ m
  end.

Definition execution (m : str) : Outcome := Failure (Execution m None []).

(** The undo log a tool pushes its snapshots onto: the kind, the path, whether the file
    existed and its bytes; the text of the error when that fails. *)
Class UndoLog (U : Type) := log_push : UndoKind -> str -> bool -> list N -> U -> result unit str * U.

(** The undo stack with its files. *)
Definition stack_log `{MetaJson} (io : Io) (now : Z) (error : str) : UndoLog (UndoStack * files) :=
  fun k p existed prev st =>
    let '(n, st', fs') := push io now k p existed prev st.1 st.2 in
    (match n with Some _ => Ok tt | None => Err error end, (st', fs')).

(** The tree, the undo log when there is one, and the outcome of the next write. *)
Record World (U : Type) := mkWorld { tree_of : Fs; undo : option U }.
Arguments mkWorld {U}.
Arguments tree_of {U}.
Arguments undo {U}.

Definition with_tree {U} (w : World U) (fs : Fs) : World U := mkWorld fs (undo w).

(** [snapshot_for_undo]. *)
Definition snapshot_for_undo {U} `{UndoLog U} (k : UndoKind) (path : str) (existed : bool)
    (prev : list N) (w : World U) : result unit str * World U :=
  match undo w with
  | None => (Ok tt, w)
  | Some u => let '(r, u') := log_push k path existed prev u in (r, mkWorld (tree_of w) (Some u'))
  end.

(** ** [write_file] *)

Section Tools.
Context `{UnicodeCase} `{UnicodeAlnum} {U : Type} `{UndoLog U}.
Variable tilde : str -> str.
Variable gitignored : str -> bool.
Variable formatter : str -> list str -> str -> option str.
(** The line diff: the lines of both texts with their tags. *)
Inductive ChangeTag := Delete | Insert | Equal.
Variable text_diff : str -> str -> list (ChangeTag * str).

(** The settings of a tool and of its call. *)
Record ToolConf := mkConf {
  path_guard : PathGuard;
  minify_write_side : bool;
  block_edits : bool;
  dry_run : bool;
  diff_review : bool
}.

Definition string_arg (args : json) (key : string) : option str := json_get args key ≫= as_str.

Definition internal (m : str) : Outcome := Failure (Internal m).
Definition access_denied (m : str) : Outcome := Failure (AccessDenied m).
Definition invalid_args (m : str) : Outcome := Failure (InvalidArgs m).

(** Text written with the write-side minification on: an envelope is expanded.  The
    flag tells whether it was one; [None] is a panic of the printer. *)
Definition expand_if (conf : ToolConf) (content : str) : option (str * bool) :=
  if minify_write_side conf && has_minified_envelope content
  then (fun c => (c, true)) <$> expand_minified formatter content
  else Some (content, false).

(** The bytes the file had: none when it does not exist. *)
Definition previous (fs : Fs) (path doing : str) : result (bool * list N) Outcome :=
  if is_ok (metadata fs path) then
    match read_bytes fs path with
    | Ok b => Ok (true, b)
    | Err e => Err (internal ("Cannot read existing file " ++ path ++ " for undo snapshot: "
                              ++ errno_text e ++ ". Refusing to " ++ doing ++ " without a snapshot."))
    end
  else Ok (false, []).

(** [anchored_write_target]. *)
Definition anchored_write_target (fs : Fs) (path : str) : option str :=
  match file_name path with
  | None => None
  | Some name =>
      match canonicalize fs (unwrap_or [] (parent path)) with
      | Ok p => Some (path_join p name)
      | Err _ => None
      end
  end.

(** Creating the parent directory when it is missing. *)
Definition ensure_parent (fs : Fs) (path : str) : result unit Outcome * Fs :=
  match parent path with
  | Some par =>
      if path_exists fs par then (Ok tt, fs)
      else let '(r, fs') := create_dir_all (length (components par)) fs par in
           (match r with
            | Ok _ => Ok tt
            | Err e => Err (internal ("Cannot create directory " ++ par ++ ": " ++ errno_text e))
            end, fs')
  | None => (Ok tt, fs)
  end.

Definition expanded_note (b : bool) : str := if b then lit " (expanded from minified envelope)" else [].

(** The end of [write_file]: the guarded, anchored write and the snapshot. *)
Definition write_and_record (conf : ToolConf) (io : WriteIo) (w : World U) (path content : str)
    (expanded existed : bool) (prev : list N) : Outcome * World U :=
  let fs := tree_of w in
  let target := unwrap_or path (anchored_write_target fs path) in
  match check_write gitignored fs (path_guard conf) target with
  | Denied m => (access_denied m, w)
  | Allowed _ =>
      let '(r, fs') := atomic_write fs io target (utf8_encode content) in
      match r with
      | Err e => (internal ("Cannot write " ++ path ++ ": " ++ errno_text e), with_tree w fs')
      | Ok _ =>
          let '(s, w') := snapshot_for_undo Write path existed prev (with_tree w fs') in
          (match s with
           | Ok _ => Success ("Wrote " ++ show_nat (byte_len content) ++ " bytes to " ++ path
                              ++ expanded_note expanded)
           | Err e => internal ("Wrote " ++ path ++ ", but undo snapshot failed: " ++ e
                        ++ ". The file was written; use git to revert if needed.")
           end, w')
      end
  end.

(** [WriteFile::run]; [None] is a panic. *)
Definition write_file (conf : ToolConf) (io : WriteIo) (args : json) (w : World U)
    : option (Outcome * World U) :=
  match string_arg args "path" with
  | None => Some (invalid_args "Missing 'path' argument", w)
  | Some p =>
      let path := tilde p in
      match check_write gitignored (tree_of w) (path_guard conf) path with
      | Denied m => Some (access_denied m, w)
      | Allowed _ =>
          match string_arg args "content" with
          | None => Some (invalid_args "Missing 'content' argument", w)
          | Some content =>
              match expand_if conf content with
              | None => None
              | Some (content, expanded) =>
                  if dry_run conf then
                    Some (Success ("Dry run: would write " ++ show_nat (byte_len content)
                                   ++ " bytes to " ++ path ++ expanded_note expanded), w)
                  else match ensure_parent (tree_of w) path with
                  | (Err o, fs) => Some (o, with_tree w fs)
                  | (Ok _, fs) =>
                      match previous fs path "overwrite" with
                      | Err o => Some (o, with_tree w fs)
                      | Ok (existed, prev) =>
                          if block_edits conf then
                            Some (execution ("BLOCK_EDITS: write to " ++ path
                                    ++ " is blocked (--harden mode). "
                                    ++ (if existed then "Edit not applied." else "New file not created.")),
                                  with_tree w fs)
                          else Some (write_and_record conf io (with_tree w fs) path content
                                       expanded existed prev)
                      end
                  end
              end
          end
      end
  end.

(** ** What [write_file] does to the tree *)

Lemma ensure_parent_sandboxed fs g path dir :
  fs_wf fs -> sandbox_dir g = Some dir -> writable gitignored fs g path ->
  ensure_parent fs path = (Ok tt, fs).
Proof.
  intros Hw Hd Hwr. destruct (wr_sandbox _ _ _ _ Hwr dir Hd) as (a & Ha & _).
  unfold ensure_parent. destruct (parent path) as [q|] eqn:Hq; [|done].
  destruct (path_exists fs q) eqn:Ex; [done|]. unfold anchored in Ha. rw Hq /= in Ha.
  destruct (path_exists fs path) eqn:Ep.
  - destruct q as [|x q]; [by destruct (components [])|].
    by rw (parent_exists fs path (x :: q) a Hw Ha Hq) in Ex.
  - apply not_true_iff_false in Ex. destruct Ex. apply path_exists_Ok; [done|by exists a].
Qed.

(** The entry that [p] names lies below the directory [dir] and has the new content;
    nothing else has changed. *)
Definition wrote_below (dir p : str) (content : list N) (fs fs' : Fs) : Prop :=
  exists s d c, canonicalize fs dir = Ok (show_loc s) /\ s `prefix_of` (d ++ [c])
    /\ entry_of fs p = Ok (d, c)
    /\ node_at fs (d ++ [c]) <> Some Dir
    /\ fs' = with_nodes fs (<[d ++ [c] := File content]> (nodes fs)).

(** The entry that [path] stands for: the one the kernel finds for it, or the one of its
    file name in the directory its parent resolves to. *)
Definition names_entry (fs : Fs) (path : str) (d : list str) (c : str) : Prop :=
  entry_of fs path = Ok (d, c)
  \/ file_name path = Some c /\ exists q, parent path = Some q /\ canonicalize fs q = Ok (show_loc d).

(** The entry that [path] stands for lies below [dir] and has the new content; nothing else
    has changed. *)
Definition wrote_named (dir path : str) (content : list N) (fs fs' : Fs) : Prop :=
  exists s d c, canonicalize fs dir = Ok (show_loc s) /\ s `prefix_of` (d ++ [c])
    /\ names_entry fs path d c
    /\ node_at fs (d ++ [c]) <> Some Dir
    /\ fs' = with_nodes fs (<[d ++ [c] := File content]> (nodes fs)).

Lemma anchored_names fs path d c :
  fs_wf fs -> entry_of fs (unwrap_or path (anchored_write_target fs path)) = Ok (d, c) -> names_entry fs path d c.
Proof.
  intros Hw. unfold anchored_write_target. destruct (file_name path) as [n|] eqn:Hn; [|by left].
  destruct (canonicalize fs (unwrap_or [] (parent path))) as [p|] eqn:Hp; [|by left]. cbn [unwrap_or].
  destruct (parent path) as [q|] eqn:Hq; [|done]. cbn [unwrap_or] in Hp.
  intros He. right. pose proof Hp as (loc & Hr & ->)%canonicalize_Ok.
  destruct (follow_sound _ _ _ Hw Hr) as (m & Hm & Hl).
  destruct (entry_of_joined _ _ _ _ _ _ Hw Hm Hl (file_name_valid _ _ Hn) He) as [-> ->]. rw Hn. split; [done|]. by exists q.
Qed.

Lemma snapshot_tree k path existed prev (w : World U) :
  tree_of (snapshot_for_undo k path existed prev w).2 = tree_of w.
Proof.
  unfold snapshot_for_undo. destruct (undo w) as [u|]; [|done].
  by destruct (log_push k path existed prev u).
Qed.

(** A guarded atomic write under a sandbox. *)
Lemma sandboxed_write fs io g dir p q content :
  fs_wf fs -> fresh_tmp fs p io -> sandbox_dir g = Some dir ->
  check_write gitignored fs g p = Allowed q ->
  match atomic_write fs io p content with
  | (Ok _, fs') => wrote_below dir p content fs fs'
  | (Err _, fs') => fs' = fs
  end.
Proof.
  intros Hw Hf Hd (-> & Hwr)%check_write_Allowed.
  destruct (wr_sandbox _ _ _ _ Hwr dir Hd) as (a & Ha & Hin & _).
  pose proof (atomic_write_cases fs io p content Hf) as Hc.
  destruct (atomic_write fs io p content) as [[u|e] fs']; [|done].
  destruct Hc as (d & c & He & Hnd & ->).
  destruct (entry_inside fs p d c a dir Hw He Ha Hin (wr_link _ _ _ _ Hwr)) as (s & Hs & Hpre).
  by exists s, d, c.
Qed.

Lemma write_and_record_cases conf io (w : World U) path content expanded existed prev dir o w' :
  fs_wf (tree_of w) -> (forall p, fresh_tmp (tree_of w) p io) ->
  sandbox_dir (path_guard conf) = Some dir ->
  write_and_record conf io w path content expanded existed prev = (o, w') ->
  tree_of w' = tree_of w /\ (forall m, o <> Success m)
  \/ wrote_named dir path (utf8_encode content) (tree_of w) (tree_of w').
Proof.
  intros Hw Hf Hd. unfold write_and_record.
  set (target := unwrap_or path (anchored_write_target (tree_of w) path)).
  destruct (check_write gitignored (tree_of w) (path_guard conf) target) as [q|m] eqn:Hc;
    [|intros [= <- <-]; by left].
  pose proof (sandboxed_write (tree_of w) io _ dir target q (utf8_encode content) Hw (Hf target) Hd Hc) as Hs.
  destruct (atomic_write (tree_of w) io target (utf8_encode content)) as [[u|e] fs'].
  - pose proof (snapshot_tree Write path existed prev (with_tree w fs')) as Ht.
    destruct (snapshot_for_undo Write path existed prev (with_tree w fs')) as [r w1].
    intros [= _ <-]. right. rw Ht. destruct Hs as (s & d & c & Hs & Hp & He & Hnd & Hfs).
    exists s, d, c. split_and!; [done|done|by apply anchored_names|done|done].
  - subst fs'. intros [= <- <-]. by left.
Qed.

Lemma write_file_cases conf io args (w w' : World U) dir o :
  fs_wf (tree_of w) -> (forall p, fresh_tmp (tree_of w) p io) ->
  sandbox_dir (path_guard conf) = Some dir ->
  write_file conf io args w = Some (o, w') ->
  tree_of w' = tree_of w /\ ((exists m, o = Success m) -> dry_run conf = true)
  \/ exists path content expanded given, string_arg args "path" = Some path
     /\ string_arg args "content" = Some given
     /\ expand_if conf given = Some (content, expanded)
     /\ block_edits conf = false /\ dry_run conf = false
     /\ wrote_named dir (tilde path) (utf8_encode content) (tree_of w) (tree_of w').
Proof.
  intros Hw Hf Hd. unfold write_file.
  destruct (string_arg args "path") as [p|]; [|intros [= <- <-]; left; by split; [|intros []]].
  destruct (check_write gitignored (tree_of w) (path_guard conf) (tilde p)) as [q|m] eqn:Hc;
    [|intros [= <- <-]; left; by split; [|intros []]].
  destruct (string_arg args "content") as [given|]; [|intros [= <- <-]; left; by split; [|intros []]].
  destruct (expand_if conf given) as [[content expanded]|] eqn:Hexp; [|done].
  destruct (dry_run conf) eqn:Hdry; [intros [= <- <-]; by left|].
  apply check_write_Allowed in Hc as [_ Hwr].
  rw (ensure_parent_sandboxed (tree_of w) _ (tilde p) dir Hw Hd Hwr).
  assert (with_tree w (tree_of w) = w) as -> by by destruct w.
  destruct (previous (tree_of w) (tilde p) "overwrite") as [[existed prev]|o'] eqn:Hprev.
  2: { intros [= <- <-]. left. split; [done|]. intros [m ->]. unfold previous in Hprev.
       destruct (is_ok _); [|done]. by destruct (read_bytes _ _). }
  destruct (block_edits conf) eqn:Hb; [intros [= <- <-]; left; by split; [|intros []]|].
  intros [= Hr]. destruct (write_and_record_cases _ _ _ _ _ _ _ _ _ _ _ Hw Hf Hd Hr) as [[Ht Ho]|Hwb].
  - left. split; [done|]. intros [m ->]. by destruct (Ho m).
  - right. by exists p, content, expanded, given.
Qed.

(** The bytes a tool read before it writes are those of the entry it replaces. *)
Lemma previous_entry fs g p doing prev d c :
  writable gitignored fs g p -> previous fs p doing = Ok (true, prev) ->
  entry_of fs p = Ok (d, c) -> node_at fs (d ++ [c]) = Some (File prev).
Proof.
  intros Hwr Hprev He. unfold previous in Hprev.
  destruct (is_ok (metadata fs p)) eqn:Hex; [|done].
  destruct (read_bytes fs p) as [b|] eqn:Hr; [|done]. injection Hprev as [= ->].
  destruct (wr_link _ _ _ _ Hwr Hex) as (n & Hm & Hnl).
  unfold read_bytes, metadata in Hr.
  destruct (entry_existing fs p d c n He Hm Hnl) as [Hres Hn]. rw Hres /= in Hr.
  unfold stat_at in Hr. rw Hn /= in Hr. destruct (negb (may_read fs (d ++ [c]))); [done|].
  destruct n; [|done..]. by injection Hr as [= ->].
Qed.
End Tools.

(** ** Properties *)

(** C27.  An atomic write is all or nothing: when it succeeds the entry that the path
    names (a link there is replaced, not followed) is a file with the new contents and
    nothing else has changed; after any error, at whatever point, the tree is as it was
    and no temporary file is left, unless removing it fails too: then the tree has that
    file with a prefix of the contents and nothing else has changed. *)
Theorem atomic_write_all_or_nothing fs io path contents :
  unused_tag fs io ->
  match atomic_write fs io path contents with
  | (Ok _, fs') => exists d c, entry_of fs path = Ok (d, c)
      /\ node_at fs (d ++ [c]) <> Some Dir
      /\ fs' = with_nodes fs (<[d ++ [c] := File contents]> (nodes fs))
  | (Err _, fs') => fs' = fs \/ cleanup_fails io = true /\ left_over fs path io contents fs'
  end.
Proof. intros Hf. by apply atomic_write_outcomes, unused_tag_tmp. Qed.

Definition small_io : WriteIo := mkWriteIo "1-2-3" None false.

Lemma tree_fresh l cwd io :
  (chr "/"%char ∉ tag io) ->
  forallb (fun e => match last e.1 with
                    | Some c => negb (ends_with c ("." ++ tag io ++ ".tmp"))
                    | None => true
                    end) l = true ->
  unused_tag (tree l cwd) io.
Proof.
  intros Hn Hl. constructor; [done|]. intros loc c Hne. rw node_at_snoc in Hne.
  destruct (nodes (tree l cwd) !! (loc ++ [c])) as [n|] eqn:E; [|done].
  apply elem_of_list_to_map_2, list_elem_of_In in E.
  pose proof (proj1 (List.forallb_forall _ _) Hl _ E) as He. simpl in He.
  rw last_snoc in He. by apply negb_true_iff in He.
Qed.

Lemma small_tree_unused : unused_tag small_tree small_io.
Proof. apply tree_fresh; [by apply (bool_decide_unpack (_ ∉ _))|done]. Qed.
Lemma small_tree_fresh : fresh_tag small_tree small_io.
Proof. split; [exact small_tree_unused|done]. Qed.

Lemma atomic_write_all_or_nothing_witness :
  match atomic_write small_tree small_io "d/l" [9%N] with
  | (Ok _, fs') => exists d c, entry_of small_tree "d/l" = Ok (d, c)
      /\ node_at small_tree (d ++ [c]) <> Some Dir
      /\ fs' = with_nodes small_tree (<[d ++ [c] := File [9%N]]> (nodes small_tree))
  | (Err _, fs') =>
      fs' = small_tree \/ cleanup_fails small_io = true /\ left_over small_tree "d/l" small_io [9%N] fs'
  end.
Proof. apply atomic_write_all_or_nothing. exact small_tree_unused. Defined.

(** A write that fails and whose temporary file cannot be removed leaves it behind. *)
Lemma temporary_file_stays :
  match atomic_write small_tree (mkWriteIo "1-2-3" (Some (1, EACCES)) true) "d/g" [9%N; 8%N] with
  | (Err _, fs') => node_at fs' [lit "w"; lit "d"; lit ".kf-code-g.1-2-3.tmp"] = Some (File [9%N])
  | _ => False
  end.
Proof. vm_compute. reflexivity. Qed.

(** C8.  Under a sandbox [write_file] touches nothing outside: either the tree is as
    before, and a success was a dry run, or exactly one entry, the one that the path of
    the call stands for, which lies below the directory the sandbox resolves to, has the
    given content (expanded when it was minified), and edits were not blocked and the call
    was no dry run.  In particular no directory is ever created. *)
Theorem write_file_contained `{UnicodeCase} `{UnicodeAlnum} {U} `{UndoLog U} tilde gitignored
    formatter conf io args (w w' : World U) dir o :
  fs_wf (tree_of w) -> fresh_tag (tree_of w) io ->
  sandbox_dir (path_guard conf) = Some dir ->
  write_file tilde gitignored formatter conf io args w = Some (o, w') ->
  tree_of w' = tree_of w /\ ((exists m, o = Success m) -> dry_run conf = true)
  \/ exists path content expanded given, string_arg args "path" = Some path
     /\ string_arg args "content" = Some given
     /\ expand_if formatter conf given = Some (content, expanded)
     /\ block_edits conf = false /\ dry_run conf = false
     /\ wrote_named dir (tilde path) (utf8_encode content) (tree_of w) (tree_of w').
Proof.
  intros Hw Hf. apply write_file_cases; [done|]. intros p. by apply fresh_tag_tmp.
Qed.

#[export] Instance no_log : UndoLog unit := fun _ _ _ _ u => (Ok tt, u).

Definition small_conf : ToolConf :=
  {| path_guard := sandboxed "/w"; minify_write_side := false; block_edits := false;
     dry_run := false; diff_review := false |}.

Definition small_world : World unit := mkWorld small_tree (Some tt).

Definition write_args (p c : str) : json := JObj [(lit "path", JStr p); (lit "content", JStr c)].

(** A write of a new file through the sandbox. *)
Lemma small_write : exists m w',
  write_file (H := ascii_case) (H0 := ascii_alnum) id (fun _ => false) (fun _ _ _ => None)
    small_conf small_io (write_args "d/g" "x") small_world = Some (Success m, w').
Proof. eexists _, _. vm_compute. reflexivity. Qed.

Lemma write_file_contained_witness :
  exists (w' : World unit) path content, string_arg (write_args "d/g" "x") "path" = Some path
    /\ wrote_named "/w" path (utf8_encode content) small_tree (tree_of w').
Proof.
  destruct small_write as (m & w' & E). exists w'.
  destruct (write_file_contained (H := ascii_case) (H0 := ascii_alnum) id (fun _ => false)
    (fun _ _ _ => None) small_conf small_io (write_args "d/g" "x") small_world w' "/w" (Success m)
    small_tree_wf small_tree_fresh eq_refl E) as [[_ Hd]|(p & c & _ & _ & Hp & _ & _ & _ & _ & Hn)].
  - discriminate (Hd (ex_intro _ m eq_refl)).
  - by exists p, c.
Defined.
