(* ===== verification/Trees.v ===== *)
(** * How calls change a file tree

    The relation between a tree and one that has more directories, the soundness of
    trees after a call, the entry of a file that is created, and the walk of a path in
    which no link is met. *)

From Stdlib Require Import ssreflect.
From S2P Require Import Prelude Paths FileTools.

(** ** More directories *)

Record grown (fs fs' : Fs) : Prop := {
  gr_cwd : cwd fs' = cwd fs;
  gr_search : may_search fs' = may_search fs;
  gr_nodes : forall loc, node_at fs' loc = node_at fs loc
                         \/ (node_at fs loc = None /\ node_at fs' loc = Some Dir)
}.

#[global] Instance grown_refl : Reflexive grown.
Proof. intros fs. constructor; [done|done|]. by left. Qed.

#[global] Instance grown_trans : Transitive grown.
Proof.
  intros f1 f2 f3 [C1 S1 N1] [C2 S2 N2]. constructor; [congruence|congruence|]. intros loc.
  destruct (N1 loc) as [H1|[H1 H2]], (N2 loc) as [H3|[H3 H4]];
    first [left; congruence|right; split; congruence].
Qed.

Lemma grown_link fs fs' loc t : grown fs fs' -> node_at fs' loc = Some (Link t) -> node_at fs loc = Some (Link t).
Proof. intros [_ _ Hn] H. destruct (Hn loc) as [E|[_ E]]; congruence. Qed.

Lemma node_at_insert fs d c n loc :
  node_at (with_nodes fs (<[d ++ [c] := n]> (nodes fs))) loc
  = if bool_decide (loc = d ++ [c]) then Some n else node_at fs loc.
Proof.
  unfold node_at. cbn [nodes with_nodes]. case_bool_decide as E.
  - subst loc. rw lookup_insert_eq. by destruct d.
  - destruct loc; [done|]. by rw lookup_insert_ne.
Qed.

Lemma grown_insert fs d c :
  node_at fs (d ++ [c]) = None -> grown fs (with_nodes fs (<[d ++ [c] := Dir]> (nodes fs))).
Proof.
  intros Ha. constructor; [done|done|]. intros loc. rw node_at_insert. case_bool_decide as E; [|by left].
  subst loc. by right.
Qed.

Lemma mkdir_grown fs p fs' : mkdir fs p = Ok fs' -> grown fs fs'.
Proof.
  unfold mkdir. destruct (_ && _); [done|]. rw result_bind_Ok. intros ([d c] & He & H). cbn [fst snd] in H.
  destruct (node_at fs (d ++ [c])) eqn:En; [done|]. destruct (negb _); [done|]. injection H as <-.
  by apply grown_insert.
Qed.

Lemma create_dir_all_grown fuel fs p r fs' : create_dir_all fuel fs p = (r, fs') -> grown fs fs'.
Proof.
  revert fs p r fs'. induction fuel as [|fuel IH]; intros fs p r fs'; cbn [create_dir_all];
    destruct (str_eqb p []); try (by intros [= <- <-]); destruct (mkdir fs p) as [fs1|e] eqn:Em;
    try (by intros [= <- <-]; apply (mkdir_grown _ _ _ Em)).
  - destruct e; by intros [= <- <-].
  - destruct e; try (by intros [= <- <-]). destruct (parent p) as [q|]; [|by intros [= <- <-]].
    destruct (create_dir_all fuel fs q) as [r1 fs2] eqn:Eq. apply IH in Eq.
    destruct r1; [|by intros [= <- <-]]. unfold mkdir_or_there. destruct (mkdir fs2 p) as [fs3|e] eqn:Em2.
    + intros [= <- <-]. etrans; [done|by eapply mkdir_grown].
    + destruct (is_dir fs2 p); by intros [= <- <-].
Qed.

(** ** Sound trees stay sound *)

Lemma kernel_comps_elem p c : c ∈ kernel_comps p -> c <> [] /\ chr "/"%char ∉ c.
Proof.
  unfold kernel_comps. intros [H|H]%elem_of_app.
  - apply list_elem_of_In, filter_In in H as [Hi Hn]. split.
    + intros ->. done.
    + pose proof (piece_notin "/"%char p) as Hp. rw Forall_forall in Hp. apply Hp. by apply list_elem_of_In.
  - destruct (ends_with p "/"); [|by apply not_elem_of_nil in H]. apply list_elem_of_singleton in H as ->.
    split; [done|]. by apply (bool_decide_unpack (_ ∉ _)).
Qed.

Lemma entry_valid fs p d c : entry_of fs p = Ok (d, c) -> valid_name c.
Proof.
  intros (_ & Hd & Hdd & xs & Hk & _)%entry_of_Ok.
  destruct (kernel_comps_elem p c) as [H1 H2]; [rw Hk; apply elem_of_app; right; by left|]. by split_and!.
Qed.

Lemma fs_wf_insert fs p d c n :
  fs_wf fs -> entry_of fs p = Ok (d, c) -> (node_at fs (d ++ [c]) = Some Dir -> n = Dir) ->
  fs_wf (with_nodes fs (<[d ++ [c] := n]> (nodes fs))).
Proof.
  intros Hw He Hn. pose proof (entry_dir fs p d c Hw He) as Hd. pose proof (entry_valid _ _ _ _ He) as Hc.
  constructor.
  - intros loc m. cbn [nodes with_nodes]. destruct (decide (loc = d ++ [c])) as [->|Hl].
    + intros _. apply Forall_app. split; [by eapply node_at_valid|by apply Forall_singleton].
    + rw lookup_insert_ne //. by apply wf_names.
  - intros loc x m. cbn [nodes with_nodes]. rw node_at_insert.
    destruct (decide (loc ++ [x] = d ++ [c])) as [E|Hl].
    + intros _. apply app_inj_tail in E as [-> ->]. case_bool_decide as E; [|done].
      by apply (f_equal length) in E; rw length_app /= in E; lia.
    + rw lookup_insert_ne //. intros H. apply (wf_parent _ Hw) in H. case_bool_decide as E; [|done].
      subst loc. by rw (Hn H).
  - rw node_at_insert. case_bool_decide as E; [|by apply (wf_cwd fs)]. cbn [cwd with_nodes] in E.
    pose proof (wf_cwd _ Hw) as H. rw E in H. by rw (Hn H).
Qed.

Lemma mkdir_wf fs p fs' : fs_wf fs -> mkdir fs p = Ok fs' -> fs_wf fs'.
Proof.
  intros Hw. unfold mkdir. destruct (_ && _); [done|]. rw result_bind_Ok. intros ([d c] & He & H). cbn [fst snd] in H.
  destruct (node_at fs (d ++ [c])) eqn:En; [done|]. destruct (negb _); [done|]. injection H as <-.
  by eapply fs_wf_insert.
Qed.

Lemma create_dir_all_wf fuel fs p r fs' : fs_wf fs -> create_dir_all fuel fs p = (r, fs') -> fs_wf fs'.
Proof.
  revert fs p r fs'. induction fuel as [|fuel IH]; intros fs p r fs' Hw; cbn [create_dir_all];
    destruct (str_eqb p []); try (by intros [= <- <-]); destruct (mkdir fs p) as [fs1|e] eqn:Em;
    try (by intros [= <- <-]; apply (mkdir_wf _ _ _ Hw Em)).
  - destruct e; by intros [= <- <-].
  - destruct e; try (by intros [= <- <-]). destruct (parent p) as [q|]; [|by intros [= <- <-]].
    destruct (create_dir_all fuel fs q) as [r1 fs2] eqn:Eq. apply IH in Eq; [|done].
    destruct r1; [|by intros [= <- <-]]. unfold mkdir_or_there. destruct (mkdir fs2 p) as [fs3|e] eqn:Em2.
    + intros [= <- <-]. by eapply mkdir_wf.
    + destruct (is_dir fs2 p); by intros [= <- <-].
Qed.

(** ** Creating a file under an unused name *)

Lemma walk_snoc_create l fs cur xs c d :
  walk l fs Follow cur (xs ++ [lit "."]) = Ok d -> str_eqb c "." = false -> str_eqb c ".." = false ->
  node_at fs (d ++ [c]) = None \/ node_at fs (d ++ [c]) = Some Dir ->
  walk l fs Create cur (xs ++ [c]) = if negb (may_search fs d) then Err EACCES else Ok (d ++ [c]).
Proof.
  intros H Hc Hcc Hn. revert l cur xs H.
  apply (walk_ind (fun l cur xs => walk l fs Follow cur (xs ++ [lit "."]) = Ok d ->
    walk l fs Create cur (xs ++ [c]) = _)).
  - intros l cur. simpl app. rw !walk_cons !walk_nil Hc Hcc. cbn. intros [= ->]. by destruct Hn as [-> | ->].
  - intros l cur x rest IH IHl. cbn [app]. rw !walk_cons.
    destruct (str_eqb x "."); [apply IH|]. destruct (negb (may_search fs cur)); [done|].
    destruct (str_eqb x ".."); [apply IH|].
    destruct (node_at fs (cur ++ [x])) as [[| |t]|]; [by destruct rest|apply IH| |by destruct rest].
    intros H. assert (follow_link l fs Follow cur t (rest ++ [lit "."]) = Ok d) as E by by destruct rest.
    destruct l as [|l']; [done|]. simpl in *. destruct (str_eqb t []); [done|].
    rw app_assoc in E. rw -(IHl l' _ (kernel_comps t ++ rest) ltac:(lia) E) -app_assoc. by destruct rest.
Qed.

(** A name that ends in [t], which has no separator. *)
Lemma last_piece s t :
  t <> [] -> chr "/"%char ∉ t -> exists xs q, kernel_comps (s ++ t) = xs ++ [q ++ t].
Proof.
  intros Hne Ht. destruct (split_char_tail "/"%char s t Ht) as (ys & q & Hs). unfold kernel_comps.
  destruct (ends_with (s ++ t) "/") eqn:Ee.
  - apply ends_with_spec in Ee as [r Hr]. exfalso. apply Ht.
    destruct t as [|x t' _] using rev_ind; [done|]. rw app_assoc in Hr. apply app_inj_tail in Hr as [_ ->].
    apply elem_of_app. right. by left.
  - rw app_nil_r Hs List.filter_app. exists (List.filter nonempty_piece ys), q. f_equal. simpl.
    unfold nonempty_piece. rw (proj2 (str_eqb_neq (q ++ t) [])) //. by destruct q.
Qed.

Lemma plain_write_new fs s t b fs' :
  t <> [] -> chr "/"%char ∉ t -> (forall q, q ++ t <> "." /\ q ++ t <> "..") ->
  (forall loc q, node_at fs (loc ++ [q ++ t]) = None \/ node_at fs (loc ++ [q ++ t]) = Some Dir) ->
  plain_write fs (s ++ t) b = Ok fs' ->
  exists d c, entry_of fs (s ++ t) = Ok (d, c) /\ node_at fs (d ++ [c]) = None /\ may_write fs d = true
    /\ fs' = with_nodes fs (<[d ++ [c] := File b]> (nodes fs)).
Proof.
  intros Hne Ht Hdot Hu. unfold plain_write. rw result_bind_Ok. intros (loc & Hr & H).
  destruct (last_piece s t Hne Ht) as (xs & q & Hk). destruct (Hdot q) as [H1 H2].
  apply str_eqb_neq in H1, H2. unfold resolve in Hr. unfold entry_of.
  assert (str_eqb (s ++ t) [] = false) as He by (apply str_eqb_neq; by destruct s, t).
  rw He Hk in Hr. pose proof Hr as Hd. apply walk_prefix_dir in Hd as [d Hd]; [|done].
  pose proof (walk_snoc_create _ _ _ _ _ _ Hd H1 H2 (Hu d q)) as E. rw E in Hr.
  destruct (may_search fs d) eqn:Hs; [|done]. injection Hr as <-. rw He Hk rev_unit rev_involutive Hd /= H1 H2 Hs /=.
  destruct (Hu d q) as [Hn|Hn]; rw Hn in H; [|done]. unfold up in H. rw removelast_last in H. destruct (may_write fs d) eqn:Hm; [|done].
  injection H as <-. by exists d, (q ++ t).
Qed.

(** ** Paths without links *)

(** Where a component leads when no link is met. *)
Definition lex_step (loc : list str) (c : component) : list str :=
  match c with ParentDir => up loc | Normal n => loc ++ [n] | RootDir | CurDir => loc end.
Definition lex (loc : list str) (cs : list component) : list str := foldl lex_step loc cs.

(** No link is met at a location that can be reached. *)
Fixpoint linkless (fs : Fs) (loc : list str) (cs : list component) : Prop :=
  match cs with
  | [] => True
  | c :: cs' =>
      (forall n t, c = Normal n -> open_path fs (loc ++ [n]) -> node_at fs (loc ++ [n]) <> Some (Link t))
      /\ linkless fs (lex_step loc c) cs'
  end.

Lemma linkless_app fs loc a b : linkless fs loc (a ++ b) -> linkless fs loc a.
Proof. revert loc. induction a as [|c a IH]; intros loc; [done|]. cbn. intros [H1 H2]. split; [done|by apply IH]. Qed.

Lemma walk_lex l fs f loc ks loc' :
  open_path fs loc -> Forall (fun k => k <> []) ks -> linkless fs loc (omap component_of ks) ->
  walk l fs f loc ks = Ok loc' -> loc' = lex loc (omap component_of ks).
Proof.
  intros Ho Hk. revert loc Ho. induction Hk as [|k ks Hne _ IH]; intros loc Ho Hl.
  { rw walk_nil. by intros [= <-]. }
  rw walk_cons. revert Hl. cbn [omap list_omap]. unfold component_of, trivial_piece.
  rw (proj2 (str_eqb_neq k []) Hne). cbn [orb].
  destruct (str_eqb k "."); [by apply IH|]. destruct (may_search fs loc) eqn:Hs; [|done]. cbn [negb].
  destruct (str_eqb k ".."); cbn [linkless]; intros [Hn Hl].
  { apply IH; [by apply open_path_up|done]. }
  pose proof (open_path_snoc fs loc k Ho Hs) as Ho'.
  destruct (node_at fs (loc ++ [k])) as [[b| |t]|] eqn:E.
  - destruct ks; [|done]. by intros [= <-].
  - by apply IH.
  - by destruct (Hn k t eq_refl Ho').
  - destruct ks, f; try done. by intros [= <-].
Qed.

Definition comps_valid (cs : list component) : Prop := Forall (fun c => forall n, c = Normal n -> valid_name n) cs.

Lemma component_valid x c : component_of x = Some c -> (chr "/"%char ∉ x) -> forall n, c = Normal n -> valid_name n.
Proof.
  unfold component_of, trivial_piece. destruct (str_eqb x []) eqn:E1; [done|]. destruct (str_eqb x ".") eqn:E2; [done|].
  cbn [orb]. destruct (str_eqb x "..") eqn:E3; intros [= <-] Hx n; [done|]. intros [= <-].
  by apply str_eqb_neq in E1, E2, E3.
Qed.

Lemma omap_comps_valid l : Forall (fun x => chr "/"%char ∉ x) l -> comps_valid (omap component_of l).
Proof.
  unfold comps_valid. induction 1 as [|x l Hx _ IH]; [by apply Forall_nil_2|]. cbn [omap list_omap].
  destruct (component_of x) as [c|] eqn:E; [|done]. apply Forall_cons. split; [|done]. by eapply component_valid.
Qed.

Lemma kernel_comps_valid p : comps_valid (omap component_of (kernel_comps p)).
Proof.
  apply omap_comps_valid. apply Forall_forall. intros x Hx. by apply kernel_comps_elem in Hx as [_ Hx].
Qed.

(** The components of an absolute path are the root and what the kernel looks up. *)
Lemma components_kernel p :
  starts_with p "/" = true -> components p = RootDir :: omap component_of (kernel_comps p).
Proof.
  intros Hp. destruct (rooted_split p Hp) as [r Hr].
  assert (components p = RootDir :: omap component_of r) as ->.
  { unfold components, path_body. rw Hr. destruct r as [|x r]; [|done].
    apply starts_with_spec in Hp as [q ->]. change (lit "/" ++ q) with ([] ++ chr "/"%char :: q) in Hr.
    rw split_char_app in Hr. injection Hr as Hr. by destruct (split_char_nonempty (chr "/"%char) q). }
  f_equal. assert (forall a, omap component_of (nodots a) = omap component_of a) as Hd.
  { unfold nodots. induction a as [|x a IH]; [done|]. cbn [List.filter]. destruct (str_eqb x ".") eqn:E.
    - apply str_eqb_eq in E as ->. exact IH.
    - cbn [negb omap list_omap]. by rw IH. }
  rw -(Hd (kernel_comps p)) nodots_kernel_comps Hr. change (List.filter solid ([] :: r)) with (List.filter solid r).
  clear. induction r as [|x r IH]; [done|]. cbn [omap list_omap List.filter]. unfold solid.
  destruct (trivial_piece x) eqn:E; cbn [negb omap list_omap]; rw -IH /component_of E //.
Qed.

(** *** The text of a location *)

Lemma parent_loc loc n :
  Forall valid_name (loc ++ [n]) -> parent (show_loc (loc ++ [n])) = Some (show_loc loc).
Proof.
  intros Hv. unfold parent.
  assert (path_body (show_loc (loc ++ [n])) = (Rooted, loc ++ [n])) as ->.
  { unfold path_body. rw pieces_show_loc //; [by destruct loc|]. by destruct loc. }
  assert (forall l, Forall valid_name l -> trim_pieces l = l) as Ht.
  { induction 1 as [|x l Hx _ IH]; [done|]. cbn [trim_pieces]. rw IH. destruct l; [|done].
    destruct Hx as (H1 & _ & H2 & _). unfold trivial_piece.
    by rw (proj2 (str_eqb_neq x _) H1) (proj2 (str_eqb_neq x _) H2). }
  rw Ht // rev_unit rev_involutive Ht //. by apply Forall_app in Hv as [Hv _].
Qed.

Lemma up_valid loc : Forall valid_name loc -> Forall valid_name (up loc).
Proof.
  unfold up. intros Hv. destruct loc as [|x loc _] using rev_ind; [done|]. rw removelast_last.
  by apply Forall_app in Hv as [Hv _].
Qed.

Lemma parent_up loc : Forall valid_name loc -> unwrap_or (show_loc loc) (parent (show_loc loc)) = show_loc (up loc).
Proof.
  intros Hv. destruct loc as [|x loc _] using rev_ind; [done|]. rw parent_loc //. unfold up. by rw removelast_last.
Qed.

Lemma lex_valid loc cs : Forall valid_name loc -> comps_valid cs -> Forall valid_name (lex loc cs).
Proof.
  intros Hv Hc. revert loc Hv. induction Hc as [|c cs Hc _ IH]; intros loc Hv; [done|]. apply IH.
  destruct c as [| | |n]; [done|done|by apply up_valid|]. cbn.
  apply Forall_app. split; [done|]. apply Forall_singleton. by apply Hc.
Qed.
