(* ===== verification/Artifacts.v ===== *)
(** * Artifacts of a delegation (crates/kf-orchestrator/src/routing/path_safety.rs)

    The guards on the files an orchestrated task emits, lexical and on the file tree, and
    the batch write behind them.

    Parameters: SHA-256, and how far a write gets before it fails. *)

From Stdlib Require Import ssreflect.
From S2P Require Import Prelude Machine BashSafety Paths PathGuard FileTools Trees.

Definition MAX_ARTIFACT_BYTES : N := 1024 * 1024.
Definition ALLOWED_HIDDEN_SEGMENTS : list str := [lit ".vscode"; lit ".idea"].

(** ** Lexical guards *)

Definition hex (bytes : list N) : str :=
  mjoin (map (fun b => [hex_digit (N.shiftr b 4); hex_digit (N.land b 15)]) bytes).

Definition is_ascii_alphabetic (b : N) : bool := in_range 65 90 b || in_range 97 122 b.

Definition is_absolute_path (p : str) : bool :=
  starts_with p "/"
  || match utf8_encode p with
     | b0 :: b1 :: b2 :: _ => is_ascii_alphabetic b0 && (b1 =? 58)%N && ((b2 =? 92)%N || (b2 =? 47)%N)
     | _ => false
     end.

Definition component_text (c : component) : str :=
  match c with RootDir => "/" | CurDir => "." | ParentDir => ".." | Normal n => n end.

(** [PathBuf::push] of components, one after the other. *)
Definition push_all (cs : list component) : str := foldl (fun pb c => path_join pb (component_text c)) [] cs.

(** A component after those kept so far. *)
Definition normal_step (out : list component) (c : component) : list component :=
  match c with
  | CurDir => out
  | ParentDir =>
      match last out with
      | Some (Normal _) => removelast out
      | Some RootDir => out
      | _ => out ++ [c]
      end
  | other => out ++ [other]
  end.
Definition normalize_lexical (path : str) : str := push_all (foldl normal_step [] (components path)).

(** The components of [diff_paths]. *)
Fixpoint diff_components (ta tb : list component) : option (list component) :=
  match ta, tb with
  | [], [] => Some []
  | a :: ta', [] => Some (a :: ta')
  | [], _ :: tb' => Some (ParentDir :: map (fun _ => ParentDir) tb')
  | a :: ta', b :: tb' =>
      if bool_decide (a = b) then diff_components ta' tb'
      else if Bool.eqb (bool_decide (a = RootDir)) (bool_decide (b = RootDir))
      then Some (ParentDir :: map (fun _ => ParentDir) tb' ++ a :: ta')
      else None
  end.
Definition diff_paths (target base : str) : option str :=
  push_all <$> diff_components (components target) (components base).

Definition outside_text (s : str) : bool :=
  bool_decide (s = []) || str_eqb s ".." || starts_with s ".." || starts_with s "/".

Definition is_inside_cwd (full_path cwd : str) : bool :=
  match diff_paths (normalize_lexical full_path) cwd with
  | None => false
  | Some s => negb (outside_text s)
  end.

Definition hidden_part (part : str) : bool :=
  starts_with part "." && negb (str_eqb part ".") && negb (str_eqb part "..").

Definition safe_relative_path (cwd user_path : str) (allow_hidden : bool) : option str :=
  if bool_decide (trim user_path = []) then None
  else match diff_paths (normalize_lexical (path_join cwd user_path)) cwd with
       | None => None
       | Some s =>
           if outside_text s then None
           else if negb allow_hidden
                   && existsb (fun c => match c with Normal n => hidden_part n | _ => false end) (components s)
           then None else Some s
       end.

Definition control_char (c : char) : bool :=
  (c <? 32)%N && negb (c =? 9)%N && negb (c =? 10)%N && negb (c =? 13)%N.

(** More than 30% control characters at the start. *)
Definition is_binary_like_content (content : str) : bool :=
  let first := take (N.to_nat 8192) content in
  let total := N.of_nat (length first) in
  let non_printable := N.of_nat (length (List.filter control_char first)) in
  if (total =? 0)%N then false
  else f64_gt (f64_div (f64_of non_printable) (f64_of total)) (decimal 3 1).

Section Artifacts.
Context `{UnicodeCase}.

Definition extract_extension (file_path : str) : str :=
  let base := unwrap_or [] (file_name file_path) in
  match rfind_sub "." base with
  | None | Some 0 => []
  | Some i => to_lowercase (drop i base)
  end.

Definition has_hidden_segment (file_path : str) : bool :=
  existsb (fun part => hidden_part part && negb (bool_decide (part ∈ ALLOWED_HIDDEN_SEGMENTS)))
    (split_char "/"%char file_path ≫= split_char "\"%char).

Record ArtifactRecord := mkArtifact { art_path : str; art_content : str }.
Record WritePolicyLike := mkWritePolicy { allow_overwrite : bool; deny_paths : list str }.
Record TaskProfileLike := mkProfileLike {
  pl_language : option str;
  allowed_extensions : option (list str);
  forbidden_extensions : option (list str);
  write_policy : option WritePolicyLike
}.

(** The policy of a profile on an extension. *)
Definition extension_refused (p : TaskProfileLike) (file_path ext : str) : option str :=
  let lang := unwrap_or (lit "task") (pl_language p) in
  (when (negb (bool_decide (ext = [])) && bool_decide (ext ∈ unwrap_or [] (forbidden_extensions p)))
     (lang ++ " task cannot emit " ++ dquote ++ file_path ++ dquote ++ " (forbidden extension " ++ ext ++ ")")
   <|> match allowed_extensions p with
       | Some ((_ :: _) as allowed) =>
           if bool_decide (ext = [])
           then Some (lang ++ " task emitted " ++ dquote ++ file_path ++ dquote ++ " — no-extension files not allowed")
           else when (negb (bool_decide (ext ∈ allowed)))
                  (lang ++ " task emitted " ++ dquote ++ file_path ++ dquote ++ " with unexpected extension " ++ ext)
       | _ => None
       end)%rust.

Definition disallowed_artifact (art : ArtifactRecord) (profile : option TaskProfileLike) : option str :=
  let base := unwrap_or [] (file_name (art_path art)) in
  (when (is_absolute_path (art_path art)) ("absolute path " ++ dquote ++ art_path art ++ dquote ++ " is not allowed")
   <|> when (starts_with base ".")
         ("hidden dotfile " ++ dquote ++ base ++ dquote ++ " is not allowed (dotfiles are default-deny)")
   <|> when (has_hidden_segment (art_path art))
         ("hidden directory segment in path " ++ dquote ++ art_path art ++ dquote ++ " is not allowed")
   <|> match profile with
       | Some p => extension_refused p (art_path art) (extract_extension (art_path art))
       | None => None
       end)%rust.

(** ** Guards on the tree *)

(** [std::fs::read_link]. *)
Definition read_link (fs : Fs) (p : str) : result str errno :=
  let? n := symlink_metadata fs p in
  match n with Link t => Ok t | _ => Err EIO end.

(** What a link at [acc] points to, joined to its directory. *)
Definition link_target (acc target : str) : str :=
  if starts_with target "/" then target
  else match parent acc with Some p => path_join p target | None => target end.

Fixpoint escaping_from (fs : Fs) (cwd acc : str) (cs : list component) : bool :=
  match cs with
  | [] => false
  | (RootDir | CurDir) :: cs' => escaping_from fs cwd acc cs'
  | ParentDir :: cs' => escaping_from fs cwd (unwrap_or acc (parent acc)) cs'
  | Normal seg :: cs' =>
      let acc' := path_join acc seg in
      match read_link fs acc' with
      | Ok target => negb (is_inside_cwd (link_target acc' target) cwd) || escaping_from fs cwd acc' cs'
      | Err _ => escaping_from fs cwd acc' cs'
      end
  end.
Definition segments_have_escaping_symlink (fs : Fs) (file_path cwd : str) : bool :=
  let cs := components file_path in
  escaping_from fs cwd (match cs with RootDir :: _ => lit "/" | _ => [] end) cs.

Definition final_file_is_symlink (fs : Fs) (file_path : str) : bool :=
  match symlink_metadata fs file_path with Ok n => is_symlink n | Err _ => false end.

(** ** The batch *)

Record WriteResult := mkWriteResult {
  wr_file_path : str;
  wr_bytes : N;
  wr_ok : bool;
  wr_blocked : option str;
  wr_sha256 : option str;
  before_hash : option (option str);
  wr_existed : option bool
}.

Definition blocked (file_path reason : str) : WriteResult :=
  mkWriteResult file_path 0 false (Some reason) None None None.

Variable sha256 : list N -> list N.
Definition sha256_of (content : str) : str := hex (sha256 (utf8_encode content)).
Definition sha256_of_raw (buf : list N) : str := hex (sha256 buf).

(** [Path::with_file_name]. *)
Definition with_file_name (p name : str) : str :=
  match file_name p with
  | Some _ => path_join (unwrap_or [] (parent p)) name
  | None => path_join p name
  end.
Definition unique_tmp_path (full : str) (tag : str) : str :=
  with_file_name full (unwrap_or [] (file_name full) ++ ".tmp." ++ tag).

Definition write_error (art : ArtifactRecord) (e : errno) : WriteResult :=
  blocked (art_path art) ("write error: " ++ errno_text e).

(** A path below a denied one. *)
Definition denied_by (rel d : str) : bool :=
  let d := replace d "\" "/" in str_eqb rel d || starts_with rel (d ++ "/").

(** The guards before anything is written: why the artifact is blocked. *)
Definition lexically_blocked (art : ArtifactRecord) (cwd full : str) (profile : option TaskProfileLike)
    : option str :=
  (when (negb (is_inside_cwd full cwd)) ("resolved path escapes sandbox: " ++ art_path art)
   <|> disallowed_artifact art profile)%rust.

Definition tree_blocked (fs : Fs) (art : ArtifactRecord) (cwd full : str) : option str :=
  (when (segments_have_escaping_symlink fs full cwd) ("symlink escape detected in path: " ++ art_path art)
   <|> when (final_file_is_symlink fs full)
         ("final path is symlink — writes would follow link outside sandbox: " ++ art_path art))%rust.

Definition content_blocked (art : ArtifactRecord) : option str :=
  let n := str_len (art_content art) in
  (when (MAX_ARTIFACT_BYTES <? n)%N
     ("artifact exceeds maximum size (" ++ show_N n ++ " bytes > " ++ show_N MAX_ARTIFACT_BYTES ++ " bytes)")
   <|> when (is_binary_like_content (art_content art))
         (lit "artifact rejected: content appears binary-like (>30% non-printable characters in first 8 KB)"))%rust.

Definition policy_blocked (art : ArtifactRecord) (cwd full : str) (profile : option TaskProfileLike) (existed : bool)
    : option str :=
  let policy := profile ≫= write_policy in
  (when (existed && negb (unwrap_or false (allow_overwrite <$> policy)))
     ("overwrite denied (allowOverwrite not enabled in writePolicy): " ++ art_path art)
   <|> match policy with
       | Some w =>
           when (existsb (denied_by (unwrap_or [] (diff_paths full cwd))) (deny_paths w))
             ("path denied by writePolicy: " ++ art_path art)
       | None => None
       end)%rust.

Definition guards (fs : Fs) (art : ArtifactRecord) (cwd full : str) (profile : option TaskProfileLike) : option str :=
  (lexically_blocked art cwd full profile <|> tree_blocked fs art cwd full <|> content_blocked art
   <|> policy_blocked art cwd full profile (path_exists fs full))%rust.

(** [fs::write] that fails after some bytes, or does not. *)
Definition write_tmp (fs : Fs) (io : WriteIo) (tmp : str) (b : list N) : result unit errno * Fs :=
  match fault io with
  | Some (n, e) => (Err e, match plain_write fs tmp (take n b) with Ok fs1 => fs1 | Err _ => fs end)
  | None => match plain_write fs tmp b with Ok fs1 => (Ok tt, fs1) | Err e => (Err e, fs) end
  end.

Definition drop_tmp (fs : Fs) (tmp : str) : Fs := match remove_file fs tmp with Ok fs' => fs' | Err _ => fs end.

(** Steps 10 and 11 of the loop. *)
Definition commit (fs : Fs) (io : WriteIo) (art : ArtifactRecord) (cwd full : str) : WriteResult * Fs :=
  let existed := path_exists fs full in
  match (if existed then sha256_of_raw <$> (match read_bytes fs full with Ok b => Some b | Err _ => None end)
         else Some []) with
  | None => (blocked (art_path art) ("cannot read existing file for beforeHash: " ++ art_path art), fs)
  | Some h =>
      let '(made, fs1) := match parent full with
                          | Some par => create_dir_all (length (components par)) fs par
                          | None => (Ok tt, fs)
                          end in
      match made with
      | Err e => (write_error art e, fs1)
      | Ok _ =>
          let tmp := unique_tmp_path full (tag io) in
          let '(written, fs2) := write_tmp fs1 io tmp (utf8_encode (art_content art)) in
          match written with
          | Err e => (write_error art e, drop_tmp fs2 tmp)
          | Ok _ =>
              match rename fs2 tmp full with
              | Ok fs3 =>
                  (mkWriteResult (unwrap_or (art_path art) (diff_paths full cwd)) (str_len (art_content art)) true
                     None (Some (sha256_of (art_content art))) (if existed then Some (Some h) else None)
                     (Some existed), fs3)
              | Err e => (write_error art e, drop_tmp fs2 tmp)
              end
          end
      end
  end.

Definition write_artifact (fs : Fs) (io : WriteIo) (cwd : str) (profile : option TaskProfileLike)
    (art : ArtifactRecord) : WriteResult * Fs :=
  let full := path_join cwd (art_path art) in
  match guards fs art cwd full profile with
  | Some reason => (blocked (art_path art) reason, fs)
  | None => commit fs io art cwd full
  end.

(** [write_artifacts]: each artifact meets the tree the ones before it left. *)
Fixpoint write_artifacts (fs : Fs) (ios : nat -> WriteIo) (cwd : str) (profile : option TaskProfileLike)
    (artifacts : list ArtifactRecord) : list WriteResult * Fs :=
  match artifacts with
  | [] => ([], fs)
  | art :: rest =>
      let '(r, fs1) := write_artifact fs (ios 0) cwd profile art in
      let '(rs, fs2) := write_artifacts fs1 (fun i => ios (S i)) cwd profile rest in
      (r :: rs, fs2)
  end.
End Artifacts.

(** ** Behaviour on concrete trees *)

Definition plain_io : nat -> WriteIo := fun _ => mkWriteIo "1.0" None false.
Definition art (p c : str) : ArtifactRecord := mkArtifact p c.
Definition zero_hash : list N -> list N := fun _ => replicate 32 0%N.
Definition emitted (fs : Fs) (cwd : str) (profile : option TaskProfileLike) (a : ArtifactRecord) : bool * Fs :=
  let '(r, fs') := write_artifact (H := ascii_case) zero_hash fs (plain_io 0) cwd profile a in (wr_ok r, fs').

(** Two links in a row lead out: the target of the first is inside, and the second is not a
    component of the path. *)
Definition chain_tree : Fs :=
  tree [([lit "w"], Dir); ([lit "w"; lit "l"], Link "m"); ([lit "w"; lit "m"], Link "/o"); ([lit "o"], Dir)] [].

Lemma link_chain_escapes :
  (emitted chain_tree "/w" None (art "l/x" "hi")).1 = true
  /\ node_at (emitted chain_tree "/w" None (art "l/x" "hi")).2 [lit "o"; lit "x"] = Some (File (utf8_encode (lit "hi"))).
Proof. vm_compute. done. Qed.

Definition plain_tree : Fs := tree [([lit "w"], Dir); ([lit "w"; lit "s"], Dir); ([lit "w"; lit "a"], Dir)] [].

(** Directories on the way are made outside when the path leaves and comes back. *)
Lemma directory_made_outside :
  (emitted plain_tree "/w" None (art "../new/../w/x" "hi")).1 = true
  /\ node_at (emitted plain_tree "/w" None (art "../new/../w/x" "hi")).2 [lit "new"] = Some Dir.
Proof. vm_compute. done. Qed.

(** The denied paths are compared with the path before [..] is resolved. *)
Definition deny_s : TaskProfileLike := mkProfileLike None None None (Some (mkWritePolicy false [lit "s"])).
Lemma deny_paths_bypassed :
  (emitted plain_tree "/w" (Some deny_s) (art "s/x" "hi")).1 = false
  /\ (emitted plain_tree "/w" (Some deny_s) (art "a/../s/x" "hi")).1 = true
  /\ node_at (emitted plain_tree "/w" (Some deny_s) (art "a/../s/x" "hi")).2 [lit "w"; lit "s"; lit "x"]
     = Some (File (utf8_encode (lit "hi"))).
Proof. vm_compute. done. Qed.

(** Under the working directory [.] every artifact is refused, and so is a name that
    starts with two dots. *)
Lemma dot_cwd_refuses : is_inside_cwd "./x" "." = false /\ is_inside_cwd "/w/..x" "/w" = false.
Proof. vm_compute. done. Qed.

(** ** The lexical guard *)

Lemma push_all_snoc cs c : push_all (cs ++ [c]) = path_join (push_all cs) (component_text c).
Proof. unfold push_all. by rw foldl_app. Qed.

Lemma root_snoc loc x : RootDir :: map Normal (loc ++ [x]) = (RootDir :: map Normal loc) ++ [Normal x].
Proof. by rw map_app. Qed.

Lemma push_all_loc loc : Forall valid_name loc -> push_all (RootDir :: map Normal loc) = show_loc loc.
Proof.
  induction loc as [|x loc IH] using rev_ind; [done|]. intros [Hv Hx%Forall_inv]%Forall_app.
  rw root_snoc push_all_snoc IH; [done|]. by rw path_join_loc.
Qed.

Lemma normal_fold loc cs :
  Forall (fun c => c <> RootDir) cs ->
  foldl normal_step (RootDir :: map Normal loc) cs = RootDir :: map Normal (lex loc cs).
Proof.
  intros Hc. revert loc. induction Hc as [|c cs Hc _ IH]; intros loc; [done|].
  cbn [foldl lex]. rw -/(lex (lex_step loc c) cs) -IH. f_equal. destruct c as [| | |n]; [done|done| |].
  - destruct loc as [|x loc _] using rev_ind; [done|]. cbn [normal_step lex_step].
    rw root_snoc last_snoc removelast_last /up. by rw removelast_last.
  - cbn [normal_step lex_step]. by rw root_snoc.
Qed.

(** The components after the root of an absolute path. *)
Definition tail_comps (p : str) : list component := omap component_of (kernel_comps p).

Lemma tail_no_root p : Forall (fun c => c <> RootDir) (tail_comps p).
Proof.
  unfold tail_comps. induction (kernel_comps p) as [|x l IH]; [by apply Forall_nil_2|]. cbn [omap list_omap].
  unfold component_of at 1. destruct (trivial_piece x); [done|].
  destruct (str_eqb x ".."); by apply Forall_cons.
Qed.

Lemma normalize_loc p : starts_with p "/" = true -> normalize_lexical p = show_loc (lex [] (tail_comps p)).
Proof.
  intros Hp. unfold normalize_lexical. rw (components_kernel p Hp). cbn [foldl].
  change (normal_step [] RootDir) with (RootDir :: map Normal []).
  rw normal_fold; [apply tail_no_root|]. apply push_all_loc, lex_valid; [by apply Forall_nil_2|].
  apply kernel_comps_valid.
Qed.

Lemma push_parent cs : Forall (fun c => c <> RootDir) cs -> comps_valid cs ->
  starts_with (push_all (ParentDir :: cs)) ".." = true.
Proof.
  intros Hr Hv. induction cs as [|c cs IH] using rev_ind; [done|].
  apply Forall_app in Hr as [Hr Hc%Forall_inv]. apply Forall_app in Hv as [Hv Hn%Forall_inv].
  rw app_comm_cons push_all_snoc. specialize (IH Hr Hv). apply starts_with_spec in IH as [r ->].
  apply starts_with_spec. unfold path_join.
  assert (starts_with (component_text c) "/" = false) as ->.
  { destruct c as [| | |n]; [done..|]. destruct (Hn n eq_refl) as (_ & Hs & _).
    apply not_true_iff_false. cbn [component_text]. intros [q ->]%starts_with_spec. apply Hs. by left. }
  destruct (_ || _); rw -!app_assoc; eauto.
Qed.

Lemma map_normal_valid l : Forall valid_name l -> comps_valid (map Normal l).
Proof. intros H. apply Forall_map. eapply Forall_impl; [exact H|]. by intros n Hn m [= <-]. Qed.
Lemma map_normal_root l : Forall (fun c => c <> RootDir) (map Normal l).
Proof. apply Forall_map, Forall_forall. done. Qed.

Lemma diff_inside l cl :
  Forall valid_name l ->
  forall r, diff_components (map Normal l) (map Normal cl) = Some r ->
  outside_text (push_all r) = false -> exists rest, rest <> [] /\ l = cl ++ rest.
Proof.
  intros Hv r. revert cl r. induction Hv as [|n l Hn Hv IH]; intros [|b cl] r; cbn [map diff_components].
  - by intros [= <-].
  - intros [= <-] Ho. exfalso. unfold outside_text in Ho.
    rw (push_parent (map (fun _ => ParentDir) (map Normal cl))) in Ho; [..|by rw !orb_true_r in Ho];
      apply Forall_map, Forall_forall; done.
  - intros _ _. by exists (n :: l).
  - case_bool_decide as E; cycle 1.
    + intros [= <-] Ho. exfalso. unfold outside_text in Ho. rw push_parent in Ho; [..|by rw !orb_true_r in Ho].
      * apply Forall_app. split; [apply Forall_map, Forall_forall; done|]. apply Forall_cons.
        split; [done|apply map_normal_root].
      * apply Forall_app. split; [apply Forall_map, Forall_forall; done|]. apply Forall_cons.
        split; [by intros m [= <-]|by apply map_normal_valid].
    + injection E as <-. intros H Ho. destruct (IH cl r H Ho) as (rest & Hr & ->). by exists rest.
Qed.

(** What the lexical guard lets pass lies strictly below the directory. *)
Lemma is_inside_loc p cl :
  starts_with p "/" = true -> Forall valid_name cl -> is_inside_cwd p (show_loc cl) = true ->
  exists rest, rest <> [] /\ lex [] (tail_comps p) = cl ++ rest.
Proof.
  intros Hp Hcl. unfold is_inside_cwd, diff_paths. rw (normalize_loc p Hp).
  assert (Forall valid_name (lex [] (tail_comps p))) as Hv.
  { apply lex_valid; [by apply Forall_nil_2|apply kernel_comps_valid]. }
  rw !components_show_loc //. cbn [diff_components]. rw bool_decide_eq_true_2 //.
  destruct (diff_components _ _) as [r|] eqn:E; [|done]. cbn [fmap option_fmap option_map].
  intros Ho%negb_true_iff. by eapply diff_inside.
Qed.

(** ** The guards on the tree *)

(** No link points, as its text says, below the directory. *)
Definition no_link_inside (fs : Fs) (cwd : str) : Prop :=
  forall loc t, node_at fs loc = Some (Link t) -> is_inside_cwd (link_target (show_loc loc) t) cwd = false.

Lemma escaping_linkless fs cwd loc cs :
  fs_wf fs -> no_link_inside fs cwd -> Forall valid_name loc -> comps_valid cs ->
  escaping_from fs cwd (show_loc loc) cs = false -> linkless fs loc cs.
Proof.
  intros Hw Hi Hv Hc. revert loc Hv. induction Hc as [|c cs Hc Hcs IH]; intros loc Hv; [done|].
  destruct c as [| | |n]; cbn [escaping_from linkless lex_step].
  - intros H. split; [done|]. by apply IH.
  - intros H. split; [done|]. by apply IH.
  - rw parent_up //. intros H. split; [done|]. by apply IH; [apply up_valid|].
  - pose proof (Hc n eq_refl) as Hn. rw path_join_loc //. intros H.
    assert (Forall valid_name (loc ++ [n])) as Hv' by (apply Forall_app; split; [done|by apply Forall_singleton]).
    split; [|apply IH; [done|]; destruct (read_link fs _); [by apply orb_false_iff in H as [_ H]|done]].
    intros m t [= <-] Ho Hl. unfold read_link, symlink_metadata in H.
    rw (resolve_show_loc fs NoFollow (loc ++ [n]) (Link t) Hw Ho Hl) // in H. cbn [result_bind] in H.
    unfold stat_at in H. rw Hl in H. cbn [ok_or result_bind] in H. by rw (Hi _ _ Hl) in H.
Qed.

Lemma linkless_grown fs fs' loc cs :
  (forall l t, node_at fs' l = Some (Link t) -> node_at fs l = Some (Link t)) -> may_search fs' = may_search fs ->
  linkless fs loc cs -> linkless fs' loc cs.
Proof.
  intros Hl Hs. revert loc. induction cs as [|c cs IH]; intros loc; [done|]. cbn. intros [H1 H2].
  split; [|by apply IH]. intros n t Hn Ho Ht. apply (H1 n t Hn); [|by apply Hl]. intros a x b E. rw -Hs. by eapply Ho.
Qed.

Lemma entry_lex fs p d c :
  starts_with p "/" = true -> linkless fs [] (tail_comps p) -> entry_of fs p = Ok (d, c) ->
  d ++ [c] = lex [] (tail_comps p).
Proof.
  intros Hp Hl He. pose proof (entry_valid _ _ _ _ He) as Hc. apply entry_of_Ok in He as (_ & _ & _ & xs & Hk & Hw & _).
  unfold tail_comps in *. rw Hk omap_app in Hl |- *. unfold start_of in Hw. rw Hp in Hw.
  assert (omap component_of [c] = [Normal c]) as E by (cbn; by rw (component_of_valid c Hc)).
  rw E in Hl |- *. unfold lex. rw foldl_app. cbn [foldl lex_step]. f_equal.
  apply (walk_lex _ _ _ _ (xs ++ [lit "."])) in Hw.
  - by rw omap_app app_nil_r in Hw.
  - intros a x b H. by destruct a.
  - apply Forall_app. split; [|by apply Forall_singleton]. apply Forall_forall. intros x Hx.
    apply (kernel_comps_elem p). rw Hk. apply elem_of_app. by left.
  - rw omap_app app_nil_r. by eapply linkless_app.
Qed.

(** No node but a directory has the name of the temporary file. *)
Definition fresh_suffix (fs : Fs) (io : WriteIo) : Prop :=
  (chr "/"%char ∉ tag io) /\ forall loc q, node_at fs (loc ++ [q ++ ".tmp." ++ tag io]) = None.

Lemma tmp_suffix full t : exists s, unique_tmp_path full t = s ++ ".tmp." ++ t.
Proof.
  unfold unique_tmp_path, with_file_name, path_join. set (name := unwrap_or [] (file_name full)).
  set (p := name ++ ".tmp." ++ t).
  assert (forall base, exists s, (if starts_with p "/" then p
    else if str_eqb base [] || ends_with base "/" then base ++ p else base ++ "/" ++ p) = s ++ ".tmp." ++ t) as H.
  { intros base. unfold p. destruct (starts_with _ "/"); [by exists name|].
    destruct (_ || _); [exists (base ++ name)|exists (base ++ "/" ++ name)]; by rw -!app_assoc. }
  destruct (file_name full); apply H.
Qed.

(** ** The write *)

Section Commit.
Context `{UnicodeCase}.
Variable sha256 : list N -> list N.

(** A temporary file that is made and removed leaves nothing. *)
Lemma tmp_written fs1 s t b fs2 :
  t <> [] -> chr "/"%char ∉ t -> (forall q, q ++ t <> "." /\ q ++ t <> "..") ->
  (forall loc q, node_at fs1 (loc ++ [q ++ t]) = None \/ node_at fs1 (loc ++ [q ++ t]) = Some Dir) ->
  plain_write fs1 (s ++ t) b = Ok fs2 ->
  drop_tmp fs2 (s ++ t) = fs1
  /\ forall full fs3, rename fs2 (s ++ t) full = Ok fs3 ->
     exists d c, entry_of fs1 full = Ok (d, c) /\ node_at fs1 (d ++ [c]) <> Some Dir
       /\ fs3 = with_nodes fs1 (<[d ++ [c] := File b]> (nodes fs1)).
Proof.
  intros Hne Ht Hdot Hu Hw. apply plain_write_new in Hw as (d & c & He & Ha & Hm & ->); [|done..].
  set (fs2 := with_nodes fs1 _).
  assert (entry_of fs2 (s ++ t) = Ok (d, c)) as He2 by (by apply entry_of_new). split.
  - unfold drop_tmp, remove_file. rw He2. cbn [result_bind fst snd]. rw (node_at_new_eq fs1 d c b).
    change (may_write fs2 d) with (may_write fs1 d). rw Hm. unfold fs2, with_nodes. cbn.
    rw delete_insert_id; [by rw -node_at_snoc|by destruct fs1].
  - intros full fs3. unfold rename. rw He2. cbn [result_bind fst snd].
    destruct (entry_of fs2 full) as [[d' c']|] eqn:Ef; [|done]. cbn [result_bind fst snd].
    pose proof (proj1 (entry_of_new fs1 d c b Ha full (d', c')) Ef) as Ef'. rw (node_at_new_eq fs1 d c b). intros Hr. exists d', c'.
    assert (node_at fs1 (d' ++ [c']) <> Some Dir) as Hnd.
    { intros Hd. rw (node_at_new fs1 d c b) in Hr. case_bool_decide as E; [by rw E Ha in Hd|]. by rw Hd in Hr. }
    split_and!; [done|done|].
    assert (fs3 = with_nodes fs2 (<[d' ++ [c'] := File b]> (delete (d ++ [c]) (nodes fs2)))) as ->.
    { destruct (node_at fs2 (d' ++ [c'])) as [[]|]; try done; by destruct (negb _); [|injection Hr as <-]. }
    unfold fs2, with_nodes. cbn. rw delete_insert_id; [by rw -node_at_snoc|done].
Qed.

Lemma drop_tmp_nothing fs1 s t :
  t <> [] -> chr "/"%char ∉ t ->
  (forall loc q, node_at fs1 (loc ++ [q ++ t]) = None \/ node_at fs1 (loc ++ [q ++ t]) = Some Dir) ->
  drop_tmp fs1 (s ++ t) = fs1.
Proof.
  intros Hne Ht Hu. unfold drop_tmp, remove_file.
  destruct (entry_of fs1 (s ++ t)) as [[d c]|] eqn:He; [|done]. cbn [result_bind fst snd].
  apply entry_name_suffix in He as [q ->]; [|done|done]. by destruct (Hu d q) as [-> | ->].
Qed.

Lemma suffix_not_dots (t q : str) : q ++ ".tmp." ++ t <> lit "." /\ q ++ ".tmp." ++ t <> lit "..".
Proof.
  split; intros E; apply (f_equal length) in E; rw !length_app in E; change (length (lit ".tmp.")) with 5 in E;
    [change (length (lit ".")) with 1 in E|change (length (lit "..")) with 2 in E]; lia.
Qed.

(** What a guarded write does: it grows directories, and, if it succeeds, puts one file at
    the entry of the path. *)
Lemma commit_cases fs io a cwd full r fs' :
  fs_wf fs -> fresh_suffix fs io -> commit sha256 fs io a cwd full = (r, fs') ->
  (wr_ok r = false /\ grown fs fs' /\ fs_wf fs')
  \/ (wr_ok r = true /\ exists fs1 d c, grown fs fs1 /\ fs_wf fs1 /\ entry_of fs1 full = Ok (d, c)
      /\ node_at fs1 (d ++ [c]) <> Some Dir
      /\ fs' = with_nodes fs1 (<[d ++ [c] := File (utf8_encode (art_content a))]> (nodes fs1))).
Proof.
  intros Hw [Ht Hu]. unfold commit. set (h := if path_exists fs full then _ else _).
  destruct h as [h'|]; [|intros [= <- <-]; left; split_and!; [done|reflexivity|exact Hw]].
  destruct (match parent full with Some par => _ | None => _ end) as [made fs1] eqn:Em.
  assert (grown fs fs1 /\ fs_wf fs1) as [Hg Hw1].
  { destruct (parent full) as [par|]; [|injection Em as <- <-; split; [reflexivity|exact Hw]].
    split; [by eapply create_dir_all_grown|by eapply create_dir_all_wf]. }
  destruct made as [[]|e]; [|intros [= <- <-]; left; split_and!; [done|exact Hg|exact Hw1]].
  destruct (tmp_suffix full (tag io)) as [s ->]. set (t := lit ".tmp." ++ tag io) in *.
  assert (t <> []) as Hne by done.
  assert (chr "/"%char ∉ t) as Hst.
  { apply not_elem_of_app. split; [by apply (bool_decide_unpack (_ ∉ _))|done]. }
  assert (forall q, q ++ t <> "." /\ q ++ t <> "..") as Hdot by (intros q; apply suffix_not_dots).
  assert (forall loc q, node_at fs1 (loc ++ [q ++ t]) = None \/ node_at fs1 (loc ++ [q ++ t]) = Some Dir) as Hu1.
  { intros loc q. destruct (gr_nodes _ _ Hg (loc ++ [q ++ t])) as [E|[_ E]]; [left; by rw E Hu|by right]. }
  unfold write_tmp. destruct (fault io) as [[n e]|].
  { intros [= <- <-]. left. split; [done|]. destruct (plain_write fs1 (s ++ t) _) as [fs2|] eqn:Ew.
    - destruct (tmp_written fs1 s t _ fs2 Hne Hst Hdot Hu1 Ew) as [-> _]. by split.
    - rw (drop_tmp_nothing fs1 s t Hne Hst Hu1). by split. }
  destruct (plain_write fs1 (s ++ t) _) as [fs2|e] eqn:Ew; cycle 1.
  { intros [= <- <-]. left. rw (drop_tmp_nothing fs1 s t Hne Hst Hu1). by split. }
  destruct (tmp_written fs1 s t _ fs2 Hne Hst Hdot Hu1 Ew) as [Hd Hr].
  destruct (rename fs2 (s ++ t) full) as [fs3|e] eqn:Er.
  - intros [= <- <-]. right. split; [done|]. destruct (Hr full fs3 Er) as (d & c & He & Hn & ->).
    exists fs1, d, c. split_and!; done.
  - intros [= <- <-]. left. rw Hd. by split.
Qed.

Lemma orelse_none {A} (a b : option A) : orelse a b = None -> a = None /\ b = None.
Proof. by destruct a. Qed.

(** What passes the guards. *)
Lemma guards_None fs a cwd full profile :
  guards fs a cwd full profile = None ->
  is_inside_cwd full cwd = true /\ disallowed_artifact a profile = None
  /\ segments_have_escaping_symlink fs full cwd = false /\ content_blocked a = None.
Proof.
  unfold guards. intros [Hl [Ht [Hc _]%orelse_none]%orelse_none]%orelse_none. unfold lexically_blocked in Hl.
  apply orelse_none in Hl as [Hi%when_None Hd]. apply orelse_none in Ht as [Hs%when_None _].
  by apply negb_false_iff in Hi.
Qed.

(** An artifact that was written. *)
Definition emitted_at (cl : list str) (profile : option TaskProfileLike) (artifacts : list ArtifactRecord)
    (fs' : Fs) (loc : list str) : Prop :=
  exists rest a, rest <> [] /\ loc = cl ++ rest /\ a ∈ artifacts
    /\ node_at fs' loc = Some (File (utf8_encode (art_content a)))
    /\ disallowed_artifact a profile = None /\ content_blocked a = None.

Record contained (cl : list str) (profile : option TaskProfileLike) (artifacts : list ArtifactRecord)
    (fs fs' : Fs) : Prop := {
  ct_search : may_search fs' = may_search fs;
  ct_nodes : forall loc, node_at fs' loc = node_at fs loc
    \/ (node_at fs loc = None /\ node_at fs' loc = Some Dir)
    \/ emitted_at cl profile artifacts fs' loc
}.

Lemma grown_contained cl profile l fs fs' : grown fs fs' -> contained cl profile l fs fs'.
Proof. intros [_ Hs Hn]. constructor; [done|]. intros loc. destruct (Hn loc); auto. Qed.

Lemma write_artifact_contained fs io cl profile a r fs' :
  fs_wf fs -> Forall valid_name cl -> cl <> [] -> no_link_inside fs (show_loc cl) -> fresh_suffix fs io ->
  write_artifact sha256 fs io (show_loc cl) profile a = (r, fs') ->
  fs_wf fs' /\ contained cl profile [a] fs fs'
  /\ (wr_ok r = true -> exists loc, emitted_at cl profile [a] fs' loc).
Proof.
  intros Hw Hcl Hne Hi Hf. unfold write_artifact. set (full := path_join (show_loc cl) (art_path a)).
  destruct (guards fs a (show_loc cl) full profile) as [m|] eqn:Hg.
  { intros [= <- <-]. split; [done|]. split; [|done]. apply grown_contained. reflexivity. }
  apply guards_None in Hg as (Hin & Hd & Hs & Hc).
  assert (starts_with full "/" = true) as Hroot.
  { unfold full, path_join. destruct (starts_with (art_path a) "/") eqn:E; [done|]. by destruct (_ || _). }
  destruct (is_inside_loc full cl Hroot Hcl Hin) as (rest & Hr & Hlex).
  unfold segments_have_escaping_symlink in Hs. rw (components_kernel full Hroot) in Hs. cbn [escaping_from] in Hs.
  change (lit "/") with (show_loc []) in Hs.
  apply escaping_linkless in Hs; [|done|done|by apply Forall_nil_2|apply kernel_comps_valid].
  intros [(Hok & Hg & Hw')|(Hok & fs1 & d & c & Hg & Hw1 & He & Hnd & ->)]%commit_cases; [| |done|done].
  { split; [done|]. split; [by apply grown_contained|]. by rw Hok. }
  assert (d ++ [c] = cl ++ rest) as Hloc.
  { rw -Hlex. apply (entry_lex fs1); [done| |done].
    apply (linkless_grown fs); [intros l t; by apply grown_link|apply Hg|done]. }
  assert (emitted_at cl profile [a]
    (with_nodes fs1 (<[d ++ [c] := File (utf8_encode (art_content a))]> (nodes fs1))) (d ++ [c])) as Hem.
  { exists rest, a. split; [done|]. split; [done|]. split; [by apply list_elem_of_singleton|].
    rw node_at_insert bool_decide_eq_true_2 //. }
  split; [by eapply fs_wf_insert|]. split; [|by intros _; exists (d ++ [c])]. constructor; [apply Hg|].
  intros loc. destruct (decide (loc = d ++ [c])) as [->|Hl]; [by right; right|].
  rw node_at_insert bool_decide_eq_false_2 //. destruct (gr_nodes _ _ Hg loc); auto.
Qed.

Lemma contained_link cl profile l fs fs' loc t :
  contained cl profile l fs fs' -> node_at fs' loc = Some (Link t) -> node_at fs loc = Some (Link t).
Proof. intros [_ Hn] Ht. destruct (Hn loc) as [E|[[_ E]|(rest & a & _ & _ & _ & E & _)]]; congruence. Qed.

Lemma contained_trans cl profile a l f1 f2 f3 :
  contained cl profile [a] f1 f2 -> contained cl profile l f2 f3 -> contained cl profile (a :: l) f1 f3.
Proof.
  intros [S1 N1] [S2 N2]. constructor; [congruence|]. intros loc.
  destruct (N2 loc) as [E2|[[E2 D2]|(rest & b & Hr & Hl & Hb & Hn & Hp1 & Hp2)]]; cycle 2.
  { right. right. exists rest, b. split_and!; try done. by right. }
  - destruct (N1 loc) as [E1|[[E1 D1]|(rest & b & Hr & Hl & Hb & Hn & Hp1 & Hp2)]].
    + left. congruence.
    + right. left. split; congruence.
    + right. right. exists rest, b. split_and!; try done; [|congruence].
      apply list_elem_of_singleton in Hb as ->. by left.
  - destruct (N1 loc) as [E1|[[E1 D1]|(rest & b & _ & _ & _ & Hn & _)]]; [right; left; split; congruence| |];
      congruence.
Qed.

(** Each temporary name is free when its turn comes. *)
Fixpoint fresh_names (fs : Fs) (ios : nat -> WriteIo) (cwd : str) (profile : option TaskProfileLike)
    (artifacts : list ArtifactRecord) : Prop :=
  match artifacts with
  | [] => True
  | a :: rest => fresh_suffix fs (ios 0)
      /\ fresh_names (write_artifact sha256 fs (ios 0) cwd profile a).2 (fun i => ios (S i)) cwd profile rest
  end.

Lemma write_artifacts_lemma fs ios cl profile artifacts rs fs' :
  fs_wf fs -> Forall valid_name cl -> cl <> [] -> no_link_inside fs (show_loc cl) ->
  fresh_names fs ios (show_loc cl) profile artifacts ->
  write_artifacts sha256 fs ios (show_loc cl) profile artifacts = (rs, fs') ->
  length rs = length artifacts /\ fs_wf fs' /\ contained cl profile artifacts fs fs'.
Proof.
  intros Hw Hcl Hne. revert fs ios rs fs' Hw. induction artifacts as [|a l IH]; intros fs ios rs fs' Hw Hi Hf.
  { intros [= <- <-]. split; [done|]. split; [done|]. apply grown_contained. reflexivity. }
  destruct Hf as [Hf Hfs]. cbn [write_artifacts].
  destruct (write_artifact sha256 fs (ios 0) (show_loc cl) profile a) as [r fs1] eqn:E.
  apply write_artifact_contained in E as (Hw1 & Hc1 & _); [|done..]. cbn [snd] in Hfs.
  destruct (write_artifacts sha256 fs1 _ (show_loc cl) profile l) as [rs' fs2] eqn:E2. intros [= <- <-].
  apply IH in E2 as (Hl & Hw2 & Hc2); [|done| |done].
  - split; [by rw /= Hl|]. split; [done|]. by eapply contained_trans.
  - intros loc t Ht. apply Hi. by eapply contained_link.
Qed.
End Commit.

(** ** Properties *)

(** C10.  Unless a symbolic link points below the working directory, a batch of artifacts stays
    in it: apart from directories that are created, the tree differs only at places strictly
    below the working directory, and what is there is the content of an artifact that its
    profile allows and that is neither too large nor binary; the temporary files are gone. *)
Theorem write_artifacts_contained `{UnicodeCase} sha256 fs ios cl profile artifacts rs fs' :
  fs_wf fs -> Forall valid_name cl -> cl <> [] -> no_link_inside fs (show_loc cl) ->
  fresh_names sha256 fs ios (show_loc cl) profile artifacts ->
  write_artifacts sha256 fs ios (show_loc cl) profile artifacts = (rs, fs') ->
  length rs = length artifacts /\ fs_wf fs' /\ contained cl profile artifacts fs fs'.
Proof. apply write_artifacts_lemma. Qed.

Definition linked_tree : Fs :=
  tree [([lit "w"], Dir); ([lit "w"; lit "s"], Dir); ([lit "w"; lit "l"], Link "/o"); ([lit "o"], Dir)] [].

Lemma linked_tree_wf : fs_wf linked_tree.
Proof. apply tree_wf; [|done]. repeat constructor; try done. all: by apply (bool_decide_unpack (valid_name _)). Qed.

Lemma tree_links l c cwd :
  forallb (fun e => match e.2 with
                    | Link t => negb (is_inside_cwd (link_target (show_loc e.1) t) cwd)
                    | _ => true
                    end) l = true ->
  no_link_inside (tree l c) cwd.
Proof.
  intros Hl loc t Ht. destruct loc as [|x loc]; [done|]. unfold node_at in Ht.
  apply elem_of_list_to_map_2, list_elem_of_In in Ht.
  by apply (proj1 (List.forallb_forall _ _) Hl), negb_true_iff in Ht.
Qed.

Lemma linked_tree_links : no_link_inside linked_tree (show_loc [lit "w"]).
Proof. apply tree_links. vm_compute. reflexivity. Qed.

Lemma tree_fresh_suffix l c io :
  (chr "/"%char ∉ tag io) ->
  forallb (fun e => match last e.1 with
                    | Some n => negb (ends_with n (".tmp." ++ tag io))
                    | None => true
                    end) l = true ->
  fresh_suffix (tree l c) io.
Proof.
  intros Hn Hl. split; [done|]. intros loc q. rw node_at_snoc.
  destruct (nodes (tree l c) !! (loc ++ [q ++ ".tmp." ++ tag io])) as [n|] eqn:E; [|done].
  apply elem_of_list_to_map_2, list_elem_of_In in E.
  pose proof (proj1 (List.forallb_forall _ _) Hl _ E) as He. simpl in He. rw last_snoc in He.
  apply negb_true_iff, not_true_iff_false in He. destruct He. apply ends_with_spec. by exists q.
Qed.

Definition batch : list ArtifactRecord := [art "../x" "out"; art "l/x" "link"; art "s/x" "hi"].

Lemma write_artifacts_contained_witness :
  contained (H := ascii_case) [lit "w"] None batch linked_tree
    (write_artifacts (H := ascii_case) zero_hash linked_tree plain_io (show_loc [lit "w"]) None batch).2.
Proof.
  apply (write_artifacts_contained (H := ascii_case) zero_hash linked_tree plain_io [lit "w"] None batch
           (write_artifacts (H := ascii_case) zero_hash linked_tree plain_io (show_loc [lit "w"]) None batch).1).
  - exact linked_tree_wf.
  - apply Forall_singleton. by apply (bool_decide_unpack (valid_name _)).
  - done.
  - exact linked_tree_links.
  - assert (fresh_suffix linked_tree (plain_io 0)) as Hf.
    { apply tree_fresh_suffix; [by apply (bool_decide_unpack (_ ∉ _))|done]. }
    split; [exact Hf|]. split; [exact Hf|]. split; [exact Hf|done].
  - by destruct (write_artifacts (H := ascii_case) zero_hash linked_tree plain_io _ None batch).
Defined.

(** Of the batch the last artifact is written. *)
Lemma batch_written :
  map wr_ok (write_artifacts (H := ascii_case) zero_hash linked_tree plain_io (show_loc [lit "w"]) None batch).1
  = [false; false; true].
Proof. vm_compute. reflexivity. Qed.
