(* ===== verification/ReadFile.v ===== *)
(** * Reading files (src/tools/read_file.rs)

    The tool [read_file]: the guard, the streamed window of lines, the whole-file display
    and the delimiters around untrusted content ([wrap_untrusted] of
    [src/tools/web_fetch.rs]).

    Parameters: [shellexpand::tilde] and [minify::minify_source]. *)

From Stdlib Require Import ssreflect.
From S2P Require Import Prelude Machine BashSafety Undo Offload BudgetGuard Minify Paths PathGuard FileTools.

(** ** Untrusted content *)

Definition open_untrusted : str := lit "<untrusted_content>" ++ [10%N].
Definition closing_tag : str := lit "</untrusted_content>".
Definition neutral_tag : str := lit "<\/untrusted_content>".
Definition close_untrusted : str := [10%N] ++ closing_tag.

Definition wrap_untrusted (content : str) : str :=
  open_untrusted ++ replace content closing_tag neutral_tag ++ close_untrusted.

Definition unwrap_untrusted (content : str) : option str :=
  strip_prefix content open_untrusted ≫= fun r => strip_suffix r close_untrusted.

(** ** The window *)

(** [read_until] to the end: the pieces of the file that end with a line feed, and the
    rest when it is not empty. *)
Fixpoint chunks_from (cur : list N) (b : list N) : list (list N) :=
  match b with
  | [] => if bool_decide (cur = []) then [] else [rev cur]
  | x :: b' => if (x =? 10)%N then rev (x :: cur) :: chunks_from [] b' else chunks_from (x :: cur) b'
  end.
Definition chunks (b : list N) : list (list N) := chunks_from [] b.

(** A line without its terminator. *)
Definition line_body (line : str) : str :=
  match strip_suffix line [10%N] with
  | Some l => unwrap_or l (strip_suffix l [13%N])
  | None => line
  end.

Record ReadState := mkRead {
  raw_total : N;
  total_bytes : N;
  selected_lines : list str;
  whole : str;
  early_stop : bool
}.
Definition read_start : ReadState := mkRead 0 0 [] [] false.

(** One piece of [n] bytes with its text. *)
Definition read_line (offset limit : N) (s : ReadState) (n : N) (line : str) : ReadState :=
  let whole' := if (offset =? 0)%N
                then if (limit <=? raw_total s)%N then [] else whole s ++ line
                else whole s in
  let selected' := if (offset <=? raw_total s)%N && (N.of_nat (length (selected_lines s)) <? limit)%N
                   then selected_lines s ++ [line_body line] else selected_lines s in
  let stop := (0 <? offset)%N && negb (bool_decide (selected' = []))
              && (limit <=? N.of_nat (length selected'))%N in
  mkRead (raw_total s + 1) (total_bytes s + n) selected' whole' stop.

Section Read.
Context `{UnicodeCase}.
Variable tilde : str -> str.
Variable minify_source : str -> str -> str.
(** The text of an error of [std::str::from_utf8]. *)
Variable utf8_error : list N -> str.

(** The loop stops at the end, when the window of an offset read is full, or at a piece
    that is not UTF-8. *)
Fixpoint read_lines (offset limit : N) (s : ReadState) (pieces : list (list N)) : result ReadState str :=
  match pieces with
  | [] => Ok s
  | b :: pieces' =>
      match from_utf8 b with
      | None => Err (utf8_error b)
      | Some line =>
          let s' := read_line offset limit s (N.of_nat (length b)) line in
          if early_stop s' then Ok s' else read_lines offset limit s' pieces'
      end
  end.

Record ReadConf := mkReadConf {
  read_guard : PathGuard;
  read_write_side : bool;
  minify_above_bytes : N
}.

Definition lang_of (path : str) : str := lang_name_for_ext (unwrap_or (lit "txt") (extension path)).

(** The body of a display: in an envelope when the write side expands it. *)
Definition enveloped (conf : ReadConf) (path selected : str) (minify : bool) : str :=
  if minify && read_write_side conf then wrap_minified_envelope (lang_of path) selected else selected.

Definition minified_display (conf : ReadConf) (path selected : str) (s : ReadState) (auto : bool) : str :=
  let header := path ++ " (minified, was " ++ show_N (total_bytes s) ++ " bytes → now "
                ++ show_nat (byte_len selected) ++ " bytes)" ++ [10%N] ++ enveloped conf path selected true in
  if auto
  then header ++ [10%N] ++ "[minified: " ++ show_N (raw_total s) ++ " lines → "
       ++ show_nat (length (lines selected))
       ++ " lines, use read_file with minify=false to see full content]"
  else header.

(** [total] lines, or more ([+]). *)
Definition window_display (conf : ReadConf) (path selected : str) (total : N) (more : bool)
    (offset end_ : N) (minify : bool) : str :=
  let header := path ++ " (showing lines " ++ show_N (offset + 1) ++ "-" ++ show_N end_ ++ " of "
                ++ show_N total ++ (if more then lit "+" else []) ++ ")" in
  header ++ [10%N] ++ replicate (byte_len header) (chr "-"%char) ++ [10%N]
  ++ enveloped conf path selected minify.

Definition bool_opt (args : json) (key : string) : option bool :=
  match json_get args key with Some (JBool b) => Some b | _ => None end.
Definition u64_arg (args : json) (key : string) (d : N) : N :=
  unwrap_or d (json_get args key ≫= as_u64).

(** After the loop. *)
Definition show_read (conf : ReadConf) (args : json) (path : str) (offset limit : N) (s : ReadState)
    : Outcome :=
  if (raw_total s <=? offset)%N && (0 <? raw_total s)%N then
    internal ("Offset " ++ show_N offset ++ " is beyond file length " ++ show_N (raw_total s))
  else if (raw_total s =? 0)%N then Success (path ++ " — empty file")
  else
    let end_ := N.min (saturating_add offset limit) (raw_total s) in
    let selected_raw := join [10%N] (selected_lines s) in
    let truncated := early_stop s || (end_ <? raw_total s)%N in
    let auto := read_write_side conf && bool_decide (bool_opt args "minify" = None)
                && (minify_above_bytes conf <? total_bytes s)%N in
    let minify := unwrap_or auto (bool_opt args "minify") in
    let selected := if minify then minify_source path selected_raw else selected_raw in
    let display :=
      if (offset =? 0)%N && (raw_total s <=? end_)%N
      then if minify then minified_display conf path selected s auto else whole s
      else window_display conf path selected (raw_total s) (early_stop s) offset end_ minify in
    FileContent path (wrap_untrusted display) truncated.

Definition cannot_read (path e : str) : Outcome := internal ("Cannot read " ++ path ++ ": " ++ e).

(** [ReadFile::run]. *)
Definition read_file (conf : ReadConf) (fs : Fs) (args : json) : Outcome :=
  match string_arg args "path" with
  | None => invalid_args "Missing 'path' argument"
  | Some p =>
      let path := tilde p in
      match check_read fs (read_guard conf) path with
      | Denied reason => access_denied reason
      | Allowed _ =>
          let offset := u64_arg args "offset" 0 in
          let limit := u64_arg args "limit" 200 in
          match read_bytes fs path with
          | Err e => cannot_read path (errno_text e)
          | Ok b =>
              match read_lines offset limit read_start (chunks b) with
              | Err e => cannot_read path e
              | Ok s => show_read conf args path offset limit s
              end
          end
      end
  end.
End Read.

(** ** The pieces of a text *)

Fixpoint pieces_from (cur s : str) : list str :=
  match s with
  | [] => if bool_decide (cur = []) then [] else [cur]
  | c :: s' => if (c =? 10)%N then (cur ++ [c]) :: pieces_from [] s' else pieces_from (cur ++ [c]) s'
  end.
Definition pieces (s : str) : list str := pieces_from [] s.

Lemma chunks_from_text cur xs b :
  Forall (fun x => x <> 10%N) xs -> chunks_from cur (xs ++ b) = chunks_from (rev xs ++ cur) b.
Proof.
  revert cur. induction xs as [|x xs IH]; intros cur Hx; [done|]. apply Forall_cons in Hx as [Hx Hxs].
  simpl. rw (proj2 (N.eqb_neq x 10)) //. rw IH //. by rw -app_assoc.
Qed.

Lemma big_byte (k x : N) : (10 < k -> k + x <> 10)%N.
Proof. lia. Qed.

Lemma encode_char_no_feed c : c <> 10%N -> Forall (fun x => x <> 10%N) (utf8_encode_char c).
Proof.
  intros Hc. unfold utf8_encode_char. repeat case_match; repeat (apply Forall_cons; split); try done;
    apply big_byte; lia.
Qed.

Lemma encode_feedless s : 10%N ∉ s -> Forall (fun x => x <> 10%N) (utf8_encode s).
Proof.
  induction s as [|c s IH]; [constructor|]. intros [Hc Hs]%not_elem_of_cons.
  change (utf8_encode (c :: s)) with (utf8_encode_char c ++ utf8_encode s).
  apply Forall_app. split; [apply encode_char_no_feed; congruence|by apply IH].
Qed.

Lemma utf8_encode_nil a : utf8_encode a = [] -> a = [].
Proof. intros H. apply str_len_zero. by rw /str_len /byte_len H. Qed.

Lemma chunks_pieces cur s :
  chunks_from (rev (utf8_encode cur)) (utf8_encode s) = map utf8_encode (pieces_from cur s).
Proof.
  revert cur. induction s as [|c s IH]; intros cur.
  - simpl. case_bool_decide as H1.
    + apply (f_equal (@rev N)) in H1. rw rev_involutive in H1.
      apply utf8_encode_nil in H1 as ->. done.
    + rw bool_decide_eq_false_2; [by intros ->|]. by rw /= rev_involutive.
  - change (utf8_encode (c :: s)) with (utf8_encode_char c ++ utf8_encode s). simpl pieces_from.
    destruct (N.eqb_spec c 10) as [->|Hc].
    + simpl. rw utf8_encode_app rev_involutive. f_equal. apply (IH []).
    + rw chunks_from_text; [by apply encode_char_no_feed|].
      rw -rev_app_distr -(IH (cur ++ [c])) utf8_encode_app. simpl. by rw app_nil_r.
Qed.

Lemma pieces_concat cur s : concat (pieces_from cur s) = cur ++ s.
Proof.
  revert cur. induction s as [|c s IH]; intros cur; simpl.
  - case_bool_decide as H1; [by subst cur|done].
  - destruct (c =? 10)%N; simpl; rw IH; by rw -app_assoc.
Qed.

Lemma strip_cr_strip l : unwrap_or l (strip_suffix l [13%N]) = strip_cr l.
Proof.
  unfold strip_cr, strip_suffix. destruct (ends_with l [13%N]) eqn:E; [|done].
  apply ends_with_spec in E as [r ->]. simpl. rw length_app Nat.add_sub take_app_length.
  by rw removelast_last.
Qed.

Lemma line_body_feed l : line_body (l ++ [10%N]) = strip_cr l.
Proof. unfold line_body. by rw strip_suffix_app strip_cr_strip. Qed.

Lemma line_body_rest l : 10%N ∉ l -> line_body l = l.
Proof.
  intros Hn. unfold line_body. destruct (strip_suffix l [10%N]) as [r|] eqn:E; [|done].
  apply strip_suffix_Some in E. subst l. exfalso. apply Hn, elem_of_app. right. by left.
Qed.

Lemma split_head_app cur s p ps :
  split_char 10 s = p :: ps -> 10%N ∉ cur -> split_char 10 (cur ++ s) = (cur ++ p) :: ps.
Proof.
  intros Hs. induction cur as [|c cur IH]; [done|]. intros [Hc Hn]%not_elem_of_cons. simpl.
  rw (proj2 (N.eqb_neq c 10)); [congruence|]. by rw IH.
Qed.

(** The pieces are the lines with their terminators. *)
Lemma pieces_lines cur s : 10%N ∉ cur -> map line_body (pieces_from cur s) = lines (cur ++ s).
Proof.
  revert cur. induction s as [|c s IH]; intros cur Hn; simpl.
  - unfold lines. rw (split_head_app cur [] [] []) // app_nil_r. simpl.
    case_bool_decide as H1; case_decide; try done. simpl. by rw line_body_rest.
  - destruct (N.eqb_spec c 10) as [->|Hc].
    + simpl. rw line_body_feed IH; [by apply not_elem_of_nil|]. unfold lines.
      rw (split_head_app cur (10%N :: s) [] (split_char 10 s)) // app_nil_r. simpl.
      destruct (split_char 10 s) as [|q qs] eqn:E; [by destruct (split_char_nonempty 10 s)|done].
    + rw IH; [|by rw -app_assoc].
      intros [Hi|Hi]%elem_of_app; [by apply Hn|]. apply list_elem_of_singleton in Hi. congruence.
Qed.

Lemma pieces_scalar cur s :
  forallb is_scalar (cur ++ s) = true -> Forall (fun p => forallb is_scalar p = true) (pieces_from cur s).
Proof.
  revert cur. induction s as [|c s IH]; intros cur Hs; simpl.
  - rw app_nil_r in Hs. case_bool_decide; [apply Forall_nil_2|]. by apply Forall_singleton.
  - replace (cur ++ c :: s) with ((cur ++ [c]) ++ s) in Hs by by rw -app_assoc.
    destruct (c =? 10)%N; [|by apply IH]. rw forallb_app in Hs. apply andb_true_iff in Hs as [H1 H2].
    apply Forall_cons. split; [done|]. by apply IH.
Qed.

Lemma take_drop_nil {A} (k o : nat) : take k (drop o (@nil A)) = [].
Proof. by rw drop_nil take_nil. Qed.

(** ** The loop *)

Lemma take_drop_snoc {A} (o k : nat) (l : list A) x :
  take k (drop o (l ++ [x]))
  = if bool_decide (o <= length l) && bool_decide (length (take k (drop o l)) < k)
    then take k (drop o l) ++ [x] else take k (drop o l).
Proof.
  rw length_take length_drop. destruct (bool_decide_reflect (o <= length l)) as [Ho|Ho]; simpl.
  - rw drop_app_le //. case_bool_decide as Hk.
    + rw !take_ge // ?length_app ?length_drop /=; lia.
    + rw take_app_le // length_drop. lia.
  - by rw !drop_ge ?length_app /=; [lia|lia|].
Qed.

Section Window.
Variables offset limit : N.
Let O := N.to_nat offset.
Let L := N.to_nat limit.

(** The state after some pieces, if the loop has not stopped before. *)
Definition state_after (done : list str) : ReadState :=
  let sel := take L (drop O (map line_body done)) in
  mkRead (N.of_nat (length done)) (N.of_nat (length (mjoin (map utf8_encode done)))) sel
    (if (offset =? 0)%N && (N.of_nat (length done) <=? limit)%N then concat done else [])
    ((0 <? offset)%N && negb (bool_decide (sel = [])) && (limit <=? N.of_nat (length sel))%N).

Lemma state_after_snoc done line :
  read_line offset limit (state_after done) (N.of_nat (length (utf8_encode line))) line
  = state_after (done ++ [line]).
Proof.
  unfold read_line. cbn [state_after raw_total total_bytes selected_lines whole].
  assert (forall a b, (N.of_nat a <? b)%N = bool_decide (a < N.to_nat b)) as Hlt.
  { intros a b. destruct (N.ltb_spec (N.of_nat a) b); symmetry;
      [apply bool_decide_eq_true_2|apply bool_decide_eq_false_2]; lia. }
  assert ((offset <=? N.of_nat (length done))%N = bool_decide (O <= length (map line_body done))) as Hle.
  { rw length_map. destruct (N.leb_spec offset (N.of_nat (length done))); symmetry;
      [apply bool_decide_eq_true_2|apply bool_decide_eq_false_2]; unfold O; lia. }
  rw Hle Hlt -take_drop_snoc. unfold state_after. rw !map_app length_app concat_app /=.
  f_equal.
  - lia.
  - rw join_app length_app /= app_nil_r. lia.
  - destruct (N.eqb_spec offset 0) as [->|Hz]; [|done]. cbn [andb].
    destruct (N.leb_spec limit (N.of_nat (length done))).
    + by rw (proj2 (N.leb_gt _ _)); [lia|].
    + rw (proj2 (N.leb_le _ _)) ?(proj2 (N.leb_le _ _)); [lia..|]. by rw app_nil_r.
Qed.

Lemma stop_iff done :
  early_stop (state_after done) = true
  <-> (0 < offset)%N /\ (0 < limit)%N /\ (offset + limit <= N.of_nat (length done))%N.
Proof.
  cbn [state_after early_stop]. rw !andb_true_iff negb_true_iff bool_decide_eq_false N.ltb_lt N.leb_le.
  rw length_take length_drop length_map. set (sel := take _ _).
  assert (sel <> [] <-> 0 < length sel) as ->.
  { split; [by destruct sel; [|simpl; lia]|by destruct sel; simpl; [lia|]]. }
  unfold sel. rw length_take length_drop length_map. unfold O, L. lia.
Qed.

Lemma read_lines_spec utf8_error done ps :
  early_stop (state_after done) = false -> Forall (fun p => forallb is_scalar p = true) ps ->
  exists ps1 ps2, ps = ps1 ++ ps2
    /\ read_lines utf8_error offset limit (state_after done) (map utf8_encode ps)
       = Ok (state_after (done ++ ps1))
    /\ (if early_stop (state_after (done ++ ps1))
        then N.of_nat (length (done ++ ps1)) = (offset + limit)%N else ps2 = []).
Proof.
  revert done. induction ps as [|p ps IH]; intros done Hs Hp.
  { exists [], []. rw !app_nil_r Hs. done. }
  apply Forall_cons in Hp as [Hp Hps]. cbn [map read_lines]. rw from_utf8_encode // state_after_snoc.
  destruct (early_stop (state_after (done ++ [p]))) eqn:E.
  - exists [p], ps. split; [done|]. split; [done|]. rw E. apply stop_iff in E as (H1 & H2 & H3).
    assert (~ (offset + limit <= N.of_nat (length done))%N) as Hn.
    { intros Hn. apply not_true_iff_false in Hs. by apply Hs, stop_iff. }
    rw length_app /= in H3 |- *. lia.
  - destruct (IH (done ++ [p]) E Hps) as (ps1 & ps2 & -> & Hr & Hk). exists (p :: ps1), ps2.
    split; [done|]. replace (done ++ p :: ps1) with ((done ++ [p]) ++ ps1) by by rw -app_assoc.
    done.
Qed.

(** The whole loop on a text. *)
Lemma read_text utf8_error content :
  forallb is_scalar content = true ->
  exists ps1 ps2, pieces content = ps1 ++ ps2
    /\ read_lines utf8_error offset limit read_start (chunks (utf8_encode content))
       = Ok (state_after ps1)
    /\ (if early_stop (state_after ps1)
        then N.of_nat (length ps1) = (offset + limit)%N else ps2 = []).
Proof.
  intros Hc. unfold chunks. rw (chunks_pieces [] content).
  assert (read_start = state_after []) as ->.
  { unfold state_after. rw take_drop_nil. by destruct offset, limit. }
  apply (read_lines_spec utf8_error [] (pieces content)).
  - cbn [state_after early_stop]. rw take_drop_nil. by rw andb_false_r.
  - by apply (pieces_scalar [] content).
Qed.
End Window.

(** ** The reference *)

(** What the tool shows of a text: read everything, split it into lines, cut the window
    out.  A window that is full may be at the end; the scan does not look further. *)
Definition reference `{UnicodeCase} (conf : ReadConf) (path content : str) (offset limit : N) : Outcome :=
  let n := N.of_nat (length (lines content)) in
  if (n =? 0)%N then Success (path ++ " — empty file")
  else if (n <=? offset)%N then
    internal ("Offset " ++ show_N offset ++ " is beyond file length " ++ show_N n)
  else if (offset =? 0)%N && (n <=? limit)%N then FileContent path (wrap_untrusted content) false
  else
    let full := (0 <? offset)%N && (0 <? limit)%N && (offset + limit <=? n)%N in
    let end_ := N.min (offset + limit) n in
    let body := join [10%N] (take (N.to_nat limit) (drop (N.to_nat offset) (lines content))) in
    FileContent path
      (wrap_untrusted (window_display conf path body (if full then end_ else n) full offset end_ false))
      (full || (end_ <? n)%N).

Lemma pieces_length content : length (pieces content) = length (lines content).
Proof. rw -(pieces_lines [] content) ?length_map //. by apply not_elem_of_nil. Qed.

Lemma pieces_window content ps1 ps2 offset limit :
  pieces content = ps1 ++ ps2 ->
  (ps2 = [] \/ N.of_nat (length ps1) = (offset + limit)%N) ->
  take (N.to_nat limit) (drop (N.to_nat offset) (map line_body ps1))
  = take (N.to_nat limit) (drop (N.to_nat offset) (lines content)).
Proof.
  intros Hp Hk. rw -(pieces_lines [] content); [by apply not_elem_of_nil|].
  change (pieces_from [] content) with (pieces content). rw Hp map_app.
  destruct Hk as [->|Hl]; [by rw app_nil_r|].
  rw drop_app_le ?length_map; [lia|]. rw take_app_le // length_drop length_map. lia.
Qed.

Section Reference.
Context `{UnicodeCase}.
Variable minify_source : str -> str -> str.
Variable utf8_error : list N -> str.

(** The streamed window shows what the reference shows. *)
Lemma show_read_reference conf args path content offset limit s :
  (N.of_nat (length (lines content)) <= usize_max)%N ->
  bool_opt args "minify" = Some false -> forallb is_scalar content = true ->
  read_lines utf8_error offset limit read_start (chunks (utf8_encode content)) = Ok s ->
  show_read minify_source conf args path offset limit s = reference conf path content offset limit.
Proof.
  intros Hmax Hm Hc Hr. destruct (read_text offset limit utf8_error content Hc) as (ps1 & ps2 & Hp & Hr' & Hk).
  rw Hr' in Hr. injection Hr as <-. pose proof (pieces_length content) as Hn.
  pose proof (pieces_window content ps1 ps2 offset limit Hp) as Hw.
  rw Hp length_app in Hn. unfold show_read, reference. rw Hm andb_false_r.
  destruct (early_stop (state_after offset limit ps1)) eqn:E.
  - pose proof (proj1 (stop_iff offset limit ps1) E) as (H1 & H2 & H3).
    cbn [state_after raw_total selected_lines]. rw Hw; [by right|]. rw Hk.
    rw (proj2 (N.leb_gt (offset + limit) offset)) /=; [lia|].
    rw (proj2 (N.eqb_neq (offset + limit) 0)); [lia|].
    rw (proj2 (N.eqb_neq (N.of_nat (length (lines content))) 0)); [lia|]. rw (proj2 (N.leb_gt _ offset)); [lia|].
    rw (proj2 (N.eqb_neq offset 0)) /=; [lia|]. rw (proj2 (N.ltb_lt 0 offset)) // (proj2 (N.ltb_lt 0 limit)) //.
    rw (proj2 (N.leb_le (offset + limit) _)) /=; [lia|]. unfold saturating_add. f_equal. f_equal.
    f_equal; lia.
  - subst ps2. rw app_nil_r in Hp. cbn [length] in Hn. rw Nat.add_0_r in Hn.
    cbn [state_after raw_total selected_lines whole]. rw Hw; [by left|]. rw Hn. cbn [orb].
    set (n := N.of_nat (length (lines content))) in *.
    assert ((0 <? offset)%N && (0 <? limit)%N && (offset + limit <=? n)%N = false) as Hf.
    { apply not_true_iff_false. rw !andb_true_iff !N.ltb_lt N.leb_le. intros [[H1 H2] H3].
      apply not_true_iff_false in E. apply E, stop_iff. by rw Hn. }
    rw Hf. assert (N.min (saturating_add offset limit) n = N.min (offset + limit) n) as ->.
    { unfold saturating_add. lia. }
    cbn [andb orb unwrap_or]. destruct (N.eqb_spec n 0) as [Hz|Hz].
    { by rw Hz (andb_false_r (_ <=? _)%N). }
    rw (proj2 (N.ltb_lt 0 n)); [lia|]. rw andb_true_r.
    destruct (N.leb_spec n offset) as [Ho|Ho]; [done|].
    destruct (N.eqb_spec offset 0) as [->|H0]; cbn [andb]; [|done].
    destruct (N.leb_spec n limit) as [Hl|Hl].
    + rw (proj2 (N.leb_le n _)); [lia|].
      cbn [andb]. rw (proj2 (N.ltb_ge _ n)); [lia|]. by rw -Hp /pieces pieces_concat.
    + rw (proj2 (N.leb_gt n _)); [lia|]. done.
Qed.
End Reference.

(** ** The delimiters *)

(** Text after a replacement starts with a pattern that has no first character of the
    replaced one only if the text before does. *)
Lemma replace_starts x from to f s :
  x ∉ f -> starts_with (replace_from 0 s (x :: from) (x :: to)) f = true -> starts_with s f = true.
Proof.
  revert s. induction f as [|y f IH]; intros s Hx; [done|]. apply not_elem_of_cons in Hx as [Hxy Hx].
  destruct s as [|c s]; [done|]. cbn [replace_from].
  destruct (starts_with (c :: s) (x :: from)) eqn:E.
  - cbn [app starts_with]. rw (proj2 (N.eqb_neq y x)); [congruence|done].
  - cbn [starts_with]. intros [H1 H2]%andb_true_iff. rw H1 /=. by apply IH.
Qed.

(** A replacement that keeps the first character, found nowhere else in the two, and
    differs after it, leaves no match, not even with what follows a character outside
    the pattern. *)
Lemma replace_clean x from to k s :
  x ∉ from -> x ∉ to -> (forall r, starts_with (to ++ r) from = false) ->
  contains (replace_from k s (x :: from) (x :: to)) (x :: from) = false.
Proof.
  intros Hf Ht Hr. revert k. induction s as [|c s IH]; intros k; [done|]. cbn [replace_from].
  destruct k as [|k]; [|done].
  destruct (starts_with (c :: s) (x :: from)) eqn:E.
  - cbn [app contains starts_with]. rw N.eqb_refl Hr /=.
    set (r := replace_from _ _ _ _). assert (contains r (x :: from) = false) as Hc by apply IH.
    clearbody r. clear -Ht Hc. induction to as [|y to IH]; [done|]. apply not_elem_of_cons in Ht as [Hy Ht].
    cbn [app contains starts_with]. rw (proj2 (N.eqb_neq x y)) //=. by apply IH.
  - cbn [contains]. rw IH orb_false_r. cbn [starts_with] in E |- *.
    destruct (x =? c)%N; [|done]. cbn [andb] in E |- *. apply not_true_iff_false. intros H.
    apply replace_starts in H; [congruence|done].
Qed.

Lemma contains_feed_cut (a b p : str) :
  10%N ∉ p -> p <> [] -> contains (a ++ 10%N :: b) p = contains a p || contains b p.
Proof.
  intros Hp Hn. induction a as [|c a IH].
  - cbn [app contains]. destruct p as [|y p]; [done|]. apply not_elem_of_cons in Hp as [Hy _].
    cbn [starts_with]. by rw (proj2 (N.eqb_neq y 10)).
  - cbn [app contains]. rw -orb_assoc -IH. f_equal.
    change (c :: a ++ 10%N :: b) with ((c :: a) ++ 10%N :: b). by apply starts_with_app_notin.
Qed.

Lemma replace_from_absent s from to : contains s from = false -> replace_from 0 s from to = s.
Proof.
  induction s as [|c s IH]; [done|]. cbn [contains replace_from]. intros [H1 H2]%orb_false_iff.
  rw H1. by rw IH.
Qed.

Lemma replaced_clean c : contains (replace c closing_tag neutral_tag) closing_tag = false.
Proof.
  apply (replace_clean 60 (tail closing_tag) (tail neutral_tag) 0 c);
    try (by apply (bool_decide_unpack (_ ∉ _)); vm_compute). done.
Qed.

(** ** Properties *)

(** C31.  The streamed read shows what reading the whole file would: for a text file
    behind the guard, and no minification, the window of lines with its header, the
    file byte for byte when all of it is asked for, the error beyond its end. *)
Theorem read_file_window `{UnicodeCase} tilde minify_source utf8_error conf fs args p c content :
  string_arg args "path" = Some p -> check_read fs (read_guard conf) (tilde p) = Allowed c ->
  read_bytes fs (tilde p) = Ok (utf8_encode content) -> forallb is_scalar content = true ->
  (N.of_nat (length (lines content)) <= usize_max)%N -> bool_opt args "minify" = Some false ->
  read_file tilde minify_source utf8_error conf fs args
  = reference conf (tilde p) content (u64_arg args "offset" 0) (u64_arg args "limit" 200).
Proof.
  intros Hp Hc Hb Hs Hm Hf. unfold read_file. rw Hp Hc Hb.
  destruct (read_text (u64_arg args "offset" 0) (u64_arg args "limit" 200) utf8_error content Hs)
    as (ps1 & ps2 & _ & Hr & _).
  rw Hr. by eapply show_read_reference.
Qed.

Definition notes_tree : Fs :=
  tree [([lit "w"], Dir); ([lit "w"; lit "n"], File (utf8_encode (lit "one" ++ [13; 10]%N ++ lit "two" ++ [10%N] ++ lit "three")))]
    [lit "w"].

Lemma read_file_window_witness :
  read_file (H := ascii_case) (fun p => p) (fun _ s => s) (fun _ => [])
    (mkReadConf (sandboxed "/w") false 4096) notes_tree
    (JObj [(lit "path", JStr "n"); (lit "offset", JNum "1"); (lit "limit", JNum "1"); (lit "minify", JBool false)])
  = FileContent "n"
      (wrap_untrusted ("n (showing lines 2-2 of 2+)" ++ [10%N] ++ replicate 27 (chr "-"%char) ++ [10%N] ++ lit "two"))
      true.
Proof.
  rw (read_file_window (H := ascii_case) (fun p => p) (fun _ s => s) (fun _ => [])
        (mkReadConf (sandboxed "/w") false 4096) notes_tree _ "n" "/w/n"
        (lit "one" ++ [13; 10]%N ++ lit "two" ++ [10%N] ++ lit "three"));
    [reflexivity|reflexivity|reflexivity|reflexivity|vm_compute; done|reflexivity|]. vm_compute. done.
Defined.

(** Fetched text cannot close its own region: before the delimiter that
    [wrap_untrusted] puts at the end there is no other, and [unwrap_untrusted] gives the
    text back, with its closing delimiters neutralized. *)
Lemma wrap_untrusted_closes_once c :
  exists body, wrap_untrusted c = body ++ closing_tag
    /\ contains body closing_tag = false
    /\ unwrap_untrusted (wrap_untrusted c) = Some (replace c closing_tag neutral_tag)
    /\ (contains c closing_tag = false -> unwrap_untrusted (wrap_untrusted c) = Some c).
Proof.
  assert (unwrap_untrusted (wrap_untrusted c) = Some (replace c closing_tag neutral_tag)) as Hu.
  { unfold unwrap_untrusted, wrap_untrusted. rw (proj2 (strip_prefix_Some _ _ _) eq_refl). apply strip_suffix_app. }
  exists (open_untrusted ++ replace c closing_tag neutral_tag ++ [10%N]).
  split; [by rw /wrap_untrusted /close_untrusted -!app_assoc|].
  split; [|split; [done|by intros Hc; rw Hu /replace replace_from_absent]].
  change (contains (lit "<untrusted_content>" ++ 10%N :: (replace c closing_tag neutral_tag ++ [10%N])) closing_tag
          = false).
  rw contains_feed_cut; [by apply (bool_decide_unpack (_ ∉ _))|done|].
  rw contains_feed_cut; [by apply (bool_decide_unpack (_ ∉ _))|done|]. by rw replaced_clean.
Qed.

(** A byte that is no UTF-8 fails the read only where the scan comes to it: behind the
    window of an offset read it does not. *)
Lemma invalid_tail_unread utf8_error :
  (exists s, read_lines utf8_error 1 1 read_start (chunks [97; 10; 98; 10; 255]%N) = Ok s)
  /\ exists e, read_lines utf8_error 0 1 read_start (chunks [97; 10; 98; 10; 255]%N) = Err e.
Proof. split; eexists; vm_compute; reflexivity. Qed.
