(* ===== verification/Net.v ===== *)
(** * Addresses and hosts (src/tools/web_fetch.rs)

    The addresses of [std::net] with their parser, the test for internal addresses and the
    host of a URL.

    Parameter: [percent_decode_str(..).decode_utf8_lossy()]. *)

From Stdlib Require Import ssreflect.
From S2P Require Import Prelude Machine.

(** ** [std::net::IpAddr] *)

Inductive IpAddr :=
| V4 (a b c d : N)
| V6 (segments : list N).

#[global] Instance IpAddr_eq_dec : EqDecision IpAddr.
Proof. solve_decision. Defined.

(** A reader takes a value off the front of a text, or fails and takes nothing. *)
Definition reader (A : Type) : Type := str -> option (A * str).

Definition to_digit (radix : N) (c : char) : option N :=
  let d := if in_range 48 57 c then (c - 48)%N
           else if in_range 97 122 c then (c - 87)%N
           else if in_range 65 90 c then (c - 55)%N else 36%N in
  if (d <? radix)%N then Some d else None.

(** The digits that follow: their value, their number and the rest. *)
Fixpoint read_digits (radix max_digits acc : N) (count : N) (s : str) : option (N * N * str) :=
  match s with
  | c :: s' =>
      match to_digit radix c with
      | Some d =>
          if (max_digits <? count + 1)%N then None
          else read_digits radix max_digits (acc * radix + d) (count + 1) s'
      | None => Some (acc, count, s)
      end
  | [] => Some (acc, count, s)
  end.

(** [read_number]: at most [max_digits] digits, within [max]. *)
Definition read_number (radix max_digits : N) (allow_zero_prefix : bool) (max : N) : reader N := fun s =>
  match read_digits radix max_digits 0 0 s with
  | None => None
  | Some (v, count, rest) =>
      if (count =? 0)%N then None
      else if negb allow_zero_prefix && bool_decide (head s = Some 48%N) && (1 <? count)%N then None
      else if (max <? v)%N then None
      else Some (v, rest)
  end.

Definition read_given_char (c : char) : reader unit := fun s =>
  match s with
  | x :: s' => if (x =? c)%N then Some (tt, s') else None
  | [] => None
  end.

Definition read_separator {A} (sep : char) (index : nat) (inner : reader A) : reader A := fun s =>
  match index with
  | O => inner s
  | S _ => match read_given_char sep s with Some (_, s') => inner s' | None => None end
  end.

Definition read_octet (index : nat) : reader N :=
  read_separator (chr "."%char) index (read_number 10 3 false 255).

Definition read_ipv4_addr : reader (N * N * N * N) := fun s =>
  match read_octet 0 s with
  | None => None
  | Some (a, s1) =>
      match read_octet 1 s1 with
      | None => None
      | Some (b, s2) =>
          match read_octet 2 s2 with
          | None => None
          | Some (c, s3) =>
              match read_octet 3 s3 with
              | None => None
              | Some (d, s4) => Some ((a, b, c, d), s4)
              end
          end
      end
  end.

(** [read_groups] with [left] groups to go: the groups read, whether they end in an
    embedded IPv4 address, and the rest. *)
Fixpoint read_groups (i left : nat) (s : str) : list N * bool * str :=
  match left with
  | O => ([], false, s)
  | S left' =>
      let embedded := match left' with
                      | O => None
                      | S _ => read_separator (chr ":"%char) i read_ipv4_addr s
                      end in
      match embedded with
      | Some ((a, b, c, d), s') => ([(a * 256 + b)%N; (c * 256 + d)%N], true, s')
      | None =>
          match read_separator (chr ":"%char) i (read_number 16 4 true 65535) s with
          | None => ([], false, s)
          | Some (g, s') =>
              let '(gs, v4, rest) := read_groups (S i) left' s' in (g :: gs, v4, rest)
          end
      end
  end.

Definition read_ipv6_addr : reader (list N) := fun s =>
  let '(head, head_v4, s1) := read_groups 0 8 s in
  if bool_decide (length head = 8) then Some (head, s1)
  else if head_v4 then None
  else match read_given_char (chr ":"%char) s1 with
       | None => None
       | Some (_, s2) =>
           match read_given_char (chr ":"%char) s2 with
           | None => None
           | Some (_, s3) =>
               let '(tail, _, s4) := read_groups 0 (8 - (length head + 1)) s3 in
               Some (head ++ replicate (8 - length head - length tail) 0%N ++ tail, s4)
           end
       end.

(** [str::parse::<IpAddr>]: all of the text is read. *)
Definition parse_ip (s : str) : option IpAddr :=
  match read_ipv4_addr s with
  | Some ((a, b, c, d), []) => Some (V4 a b c d)
  | Some _ => None
  | None =>
      match read_ipv6_addr s with
      | Some (gs, []) => Some (V6 gs)
      | _ => None
      end
  end.

(** ** Internal addresses *)

Definition is_loopback (a b c d : N) : bool := (a =? 127)%N.
Definition is_unspecified (a b c d : N) : bool :=
  (a =? 0)%N && (b =? 0)%N && (c =? 0)%N && (d =? 0)%N.
Definition is_private (a b c d : N) : bool :=
  (a =? 10)%N || ((a =? 172)%N && in_range 16 31 b) || ((a =? 192)%N && (b =? 168)%N).

Definition is_link_local_v4 (a b c d : N) : bool := (a =? 169)%N && (b =? 254)%N.

Definition is_internal_v4 (a b c d : N) : bool :=
  is_loopback a b c d || is_unspecified a b c d || is_private a b c d || is_link_local_v4 a b c d.

(** [Ipv6Addr::to_ipv4_mapped]. *)
Definition to_ipv4_mapped (segments : list N) : option (N * N * N * N) :=
  match segments with
  | [s0; s1; s2; s3; s4; s5; ab; cd] =>
      if bool_decide ([s0; s1; s2; s3; s4; s5] = [0; 0; 0; 0; 0; 65535]%N)
      then Some (ab / 256, ab mod 256, cd / 256, cd mod 256)%N else None
  | _ => None
  end.

Definition is_internal_addr (addr : IpAddr) : bool :=
  match addr with
  | V4 a b c d => is_internal_v4 a b c d
  | V6 segments =>
      match to_ipv4_mapped segments with
      | Some (a, b, c, d) => is_internal_v4 a b c d
      | None =>
          let s0 := unwrap_or 0%N (head segments) in
          bool_decide (segments = [0; 0; 0; 0; 0; 0; 0; 1]%N)
          || bool_decide (segments = replicate 8 0%N)
          || (N.land s0 65024 =? 64512)%N
          || (N.land s0 65472 =? 65152)%N
      end
  end.

(** ** The host of a URL *)

(** [str::rsplit(c).next()]: the text after the last separator. *)
Definition after_last (c : char) (s : str) : str := unwrap_or [] (last (split_char c s)).

Section Host.
Variable percent_decode : str -> str.

(** The authority: up to the path, else the query, else the fragment. *)
Definition authority (url : str) : str :=
  let rest := match find_sub "://" url with Some pos => drop (pos + 3) url | None => url end in
  let end_ := unwrap_or (length rest)
    (find_sub "/" rest <|> find_sub "?" rest <|> find_sub "#" rest)%rust in
  take end_ rest.

(** Without the port.  A second colon outside brackets fails. *)
Definition without_port (s : str) : option str :=
  if ends_with s "]" then Some s
  else match rfind_sub ":" s with
       | Some colon => if contains (take colon s) ":" then None else Some (take colon s)
       | None => Some s
       end.

Definition extract_host (url : str) : option str :=
  match without_port (after_last (chr "@"%char) (authority url)) with
  | None => None
  | Some host =>
      let host := trim_end_matches (chr "]"%char) (drop_leading (chr "["%char) host) in
      if bool_decide (host = []) then None else Some (percent_decode host)
  end.

Definition host_is_literal_internal_ip (url : str) : bool :=
  match extract_host url with
  | None => true
  | Some host => match parse_ip host with Some addr => is_internal_addr addr | None => false end
  end.
End Host.

(** ** Blocks of addresses *)

Definition octet (n : N) : Prop := (n < 256)%N.
Definition v4_num (a b c d : N) : N := ((a * 256 + b) * 256 + c) * 256 + d.
Definition v6_num (segments : list N) : N := foldl (fun acc s => acc * 65536 + s)%N 0%N segments.

(** [n] of [width] bits is in the block [base/len]. *)
Definition in_block (width base len n : N) : Prop := (n / 2 ^ (width - len) = base / 2 ^ (width - len))%N.

(** Loopback, the unspecified address, RFC 1918 and link-local. *)
Definition internal_blocks4 : list (N * N) :=
  [(v4_num 127 0 0 0, 8); (v4_num 0 0 0 0, 32); (v4_num 10 0 0 0, 8); (v4_num 172 16 0 0, 12);
   (v4_num 192 168 0 0, 16); (v4_num 169 254 0 0, 16)]%N.
(** ::1, ::, fc00::/7 and fe80::/10. *)
Definition internal_blocks6 : list (N * N) :=
  [(1, 128); (0, 128); (64512 * 2 ^ 112, 7); (65152 * 2 ^ 112, 10)]%N.

Definition internal4 (n : N) : Prop := Exists (fun b => in_block 32 b.1 b.2 n) internal_blocks4.
(** An address below ::ffff:0:0/96 is the IPv4 address it maps. *)
Definition internal6 (n : N) : Prop :=
  if bool_decide (n / 2 ^ 32 = 65535)%N then internal4 (n mod 2 ^ 32)
  else Exists (fun b => in_block 128 b.1 b.2 n) internal_blocks6.

Definition wf_addr (addr : IpAddr) : Prop :=
  match addr with
  | V4 a b c d => octet a /\ octet b /\ octet c /\ octet d
  | V6 segments => length segments = 8 /\ Forall (fun s => s < 65536)%N segments
  end.
Definition internal_address (addr : IpAddr) : Prop :=
  match addr with V4 a b c d => internal4 (v4_num a b c d) | V6 segments => internal6 (v6_num segments) end.

Lemma is_internal_v4_blocks a b c d :
  octet a -> octet b -> octet c -> octet d ->
  is_internal_v4 a b c d = true <-> internal4 (v4_num a b c d).
Proof.
  unfold octet, internal4, internal_blocks4, in_block, is_internal_v4, is_loopback, is_unspecified,
    is_private, is_link_local_v4, in_range, v4_num. intros Ha Hb Hc Hd.
  rw !Exists_cons Exists_nil !orb_true_iff !andb_true_iff !N.eqb_eq !N.leb_le. cbn [fst snd].
  change (2 ^ (32 - 8))%N with 16777216%N. change (2 ^ (32 - 32))%N with 1%N.
  change (2 ^ (32 - 12))%N with 1048576%N. change (2 ^ (32 - 16))%N with 65536%N.
  set (n := (((a * 256 + b) * 256 + c) * 256 + d)%N).
  change (((((127 * 256 + 0) * 256 + 0) * 256 + 0) / 16777216))%N with 127%N.
  change (((((10 * 256 + 0) * 256 + 0) * 256 + 0) / 16777216))%N with 10%N.
  change (((((0 * 256 + 0) * 256 + 0) * 256 + 0) / 1))%N with 0%N.
  change (((((172 * 256 + 16) * 256 + 0) * 256 + 0) / 1048576))%N with 2753%N.
  change (((((192 * 256 + 168) * 256 + 0) * 256 + 0) / 65536))%N with 49320%N.
  change (((((169 * 256 + 254) * 256 + 0) * 256 + 0) / 65536))%N with 43518%N.
  assert (n / 16777216 = a)%N as -> by (symmetry; apply (N.div_unique _ _ _ (b * 65536 + c * 256 + d)); lia).
  assert (n / 65536 = a * 256 + b)%N as -> by (symmetry; apply (N.div_unique _ _ _ (c * 256 + d)); lia).
  assert (n / 1 = n)%N as -> by (by rw N.div_1_r).
  assert (n / 1048576 = a * 16 + b / 16)%N as ->.
  { pose proof (N.div_mod b 16 ltac:(done)). pose proof (N.mod_lt b 16 ltac:(done)).
    symmetry. apply (N.div_unique _ _ _ ((b mod 16) * 65536 + c * 256 + d)); lia. }
  pose proof (N.div_mod b 16 ltac:(done)). pose proof (N.mod_lt b 16 ltac:(done)).
  set (q := (b / 16)%N) in *. set (r := (b mod 16)%N) in *. clearbody q r. subst n.
  assert (a * 16 + q = 2753 <-> a = 172 /\ 16 <= b <= 31)%N as -> by (split; lia).
  assert (a * 256 + b = 49320 <-> a = 192 /\ b = 168)%N as -> by (split; lia).
  assert (a * 256 + b = 43518 <-> a = 169 /\ b = 254)%N as -> by (split; lia).
  assert (((a * 256 + b) * 256 + c) * 256 + d = 0 <-> ((a = 0 /\ b = 0) /\ c = 0) /\ d = 0)%N as -> by (split; lia).
  tauto.
Qed.

Lemma land_shiftl s m k : N.land s (N.shiftl m k) = N.shiftl (N.land (N.shiftr s k) m) k.
Proof.
  apply N.bits_inj. intros i. rw N.land_spec. destruct (N.lt_ge_cases i k).
  - by rw !N.shiftl_spec_low // andb_false_r.
  - rw !N.shiftl_spec_high' // N.land_spec N.shiftr_spec'. f_equal. f_equal. lia.
Qed.

(** The masks on the upper ten bits of a segment. *)
Lemma mask_upper :
  forallb (fun k => let h := N.of_nat k in
    Bool.eqb (N.land h 1016 =? 1008)%N (h / 8 =? 126)%N && Bool.eqb (N.land h 1023 =? 1018)%N (h =? 1018)%N)
    (seq 0 1024) = true.
Proof. vm_compute. reflexivity. Qed.

Lemma mask_block s :
  (s < 65536)%N ->
  ((N.land s 65024 =? 64512) = (s / 512 =? 126))%N /\ ((N.land s 65472 =? 65152) = (s / 64 =? 1018))%N.
Proof.
  intros Hs. pose proof mask_upper as H. rw forallb_forall in H.
  change 65024%N with (N.shiftl 1016 6). change 65472%N with (N.shiftl 1023 6).
  rw !land_shiftl !N.shiftl_mul_pow2 N.shiftr_div_pow2. change (2 ^ 6)%N with 64%N.
  assert (s / 512 = s / 64 / 8)%N as -> by by rw N.Div0.div_div.
  assert (s / 64 < 1024)%N as Hh by (apply N.Div0.div_lt_upper_bound; lia).
  set (h := (s / 64)%N) in *. clearbody h. specialize (H (N.to_nat h)).
  assert (In (N.to_nat h) (seq 0 1024)) as Hi by (apply in_seq; lia).
  apply H, andb_true_iff in Hi as [H1 H2]. rw N2Nat.id in H1 H2. apply eqb_prop in H1, H2. rw -H1 -H2.
  assert (forall x c, (x * 64 =? c * 64)%N = (x =? c)%N) as E.
  { intros x c. destruct (N.eqb_spec x c); [subst; by rw N.eqb_refl|]. apply N.eqb_neq. lia. }
  by rw -(E _ 1008%N) -(E _ 1018%N).
Qed.

(** A number with a low part of [k] bits. *)
Lemma high_low h l k : (l < 2 ^ k -> (h * 2 ^ k + l) / 2 ^ k = h /\ (h * 2 ^ k + l) mod 2 ^ k = l)%N.
Proof.
  intros Hl. split; symmetry; [apply (N.div_unique _ _ _ l)|apply (N.mod_unique _ _ h)]; lia.
Qed.

Lemma quot_pow n j k : (n / 2 ^ (j + k) = n / 2 ^ j / 2 ^ k)%N.
Proof. rw N.pow_add_r. by rw N.Div0.div_div. Qed.

(** Two digits in base 65536. *)
Lemma digit_eq h l c : (l < 65536 -> h * 65536 + l = c <-> h = c / 65536 /\ l = c mod 65536)%N.
Proof.
  intros Hl. pose proof (N.div_mod c 65536 ltac:(done)). pose proof (N.mod_lt c 65536 ltac:(done)).
  set (q := (c / 65536)%N) in *. set (r := (c mod 65536)%N) in *. clearbody q r. split; lia.
Qed.

Lemma segments_eq (s0 s1 s2 s3 s4 s5 s6 s7 t : N) :
  Forall (fun s => s < 65536)%N [s0; s1; s2; s3; s4; s5; s6; s7] -> (t < 65536)%N ->
  v6_num [s0; s1; s2; s3; s4; s5; s6; s7] = t <-> [s0; s1; s2; s3; s4; s5; s6; s7] = [0; 0; 0; 0; 0; 0; 0; t]%N.
Proof.
  rw !Forall_cons. intros (H0 & H1 & H2 & H3 & H4 & H5 & H6 & H7 & _) Ht. cbn [v6_num foldl].
  split; [|by intros [= -> -> -> -> -> -> -> ->]; lia].
  intros H. repeat (apply digit_eq in H as [H ?]; [|done]; rw ?(N.div_small t) // in H; change (0 / 65536)%N with 0%N in H).
  rw (N.mod_small t) in H8 => //. simplify_eq/=. repeat f_equal; lia.
Qed.

Lemma mapped_num (s0 s1 s2 s3 s4 s5 s6 s7 : N) :
  Forall (fun s => s < 65536)%N [s0; s1; s2; s3; s4; s5; s6; s7] ->
  (v6_num [s0; s1; s2; s3; s4; s5; s6; s7] / 2 ^ 32)%N = v6_num [0; 0; s0; s1; s2; s3; s4; s5]%N
  /\ (v6_num [s0; s1; s2; s3; s4; s5; s6; s7] mod 2 ^ 32)%N
     = v4_num (s6 / 256) (s6 mod 256) (s7 / 256) (s7 mod 256).
Proof.
  rw !Forall_cons. intros (_ & _ & _ & _ & _ & _ & H6 & H7 & _).
  assert (v4_num (s6 / 256) (s6 mod 256) (s7 / 256) (s7 mod 256) = s6 * 65536 + s7)%N as ->.
  { unfold v4_num. pose proof (N.div_mod s6 256 ltac:(done)). pose proof (N.div_mod s7 256 ltac:(done)). lia. }
  assert (v6_num [s0; s1; s2; s3; s4; s5; s6; s7]
          = v6_num [0; 0; s0; s1; s2; s3; s4; s5] * 2 ^ 32 + (s6 * 65536 + s7))%N as ->.
  { cbn [v6_num foldl]. change (2 ^ 32)%N with 4294967296%N. lia. }
  apply high_low. change (2 ^ 32)%N with 4294967296%N. lia.
Qed.

Lemma head_num (s0 s1 s2 s3 s4 s5 s6 s7 : N) :
  Forall (fun s => s < 65536)%N [s0; s1; s2; s3; s4; s5; s6; s7] ->
  (v6_num [s0; s1; s2; s3; s4; s5; s6; s7] / 2 ^ 112)%N = s0.
Proof.
  rw !Forall_cons. intros (H0 & H1 & H2 & H3 & H4 & H5 & H6 & H7 & _).
  assert (v6_num [s0; s1; s2; s3; s4; s5; s6; s7]
          = s0 * 2 ^ 112 + v6_num [0; s1; s2; s3; s4; s5; s6; s7])%N as ->.
  { cbn [v6_num foldl]. change (2 ^ 112)%N with 5192296858534827628530496329220096%N. lia. }
  apply high_low. cbn [v6_num foldl]. change (2 ^ 112)%N with 5192296858534827628530496329220096%N. lia.
Qed.

Lemma is_internal_blocks_lemma addr : wf_addr addr -> is_internal_addr addr = true <-> internal_address addr.
Proof.
  destruct addr as [a b c d|segments].
  { intros (Ha & Hb & Hc & Hd). by apply is_internal_v4_blocks. }
  intros [Hl Hs].
  destruct segments as [|s0 [|s1 [|s2 [|s3 [|s4 [|s5 [|s6 [|s7 [|]]]]]]]]]; try discriminate Hl.
  cbn [is_internal_addr internal_address to_ipv4_mapped head unwrap_or]. unfold internal6.
  destruct (mapped_num _ _ _ _ _ _ _ _ Hs) as [-> ->]. pose proof (head_num _ _ _ _ _ _ _ _ Hs) as Hh.
  pose proof (fun t => segments_eq _ _ _ _ _ _ _ _ t Hs) as He.
  rw !Forall_cons in Hs. destruct Hs as (H0 & H1 & H2 & H3 & H4 & H5 & H6 & H7 & _).
  assert (v6_num [0; 0; s0; s1; s2; s3; s4; s5] = 65535
          <-> [s0; s1; s2; s3; s4; s5] = [0; 0; 0; 0; 0; 65535])%N as Hm.
  { rw segments_eq; [repeat (apply Forall_cons; split; [done|]); done|done|].
    split; [by intros [= -> -> -> -> -> ->]|by intros [= -> -> -> -> -> ->]]. }
  rw (bool_decide_ext _ _ Hm). case_bool_decide as Hp.
  - apply is_internal_v4_blocks; by apply N.mod_lt || (apply N.Div0.div_lt_upper_bound; lia).
  - destruct (mask_block s0 H0) as [-> ->]. rw !orb_true_iff !bool_decide_eq_true !N.eqb_eq.
    unfold internal_blocks6. rw !Exists_cons Exists_nil. cbn [fst snd]. unfold in_block.
    change (128 - 128)%N with 0%N. rw !N.div_1_r (quot_pow _ 112 9) (quot_pow _ 112 6) Hh.
    rw -!He //. change (2 ^ 9)%N with 512%N. change (2 ^ 6)%N with 64%N.
    change (64512 * 2 ^ 112 / 2 ^ (128 - 7))%N with 126%N.
    change (65152 * 2 ^ 112 / 2 ^ (128 - 10))%N with 1018%N. tauto.
Qed.

(** C30.  [is_internal_addr] is membership in the blocks: loopback, unspecified, RFC 1918 and
    link-local for IPv4, ::1, ::, fc00::/7 and fe80::/10 for IPv6, and an IPv6 address that
    maps an IPv4 address is judged by that address. *)
Theorem is_internal_addr_blocks addr : wf_addr addr -> is_internal_addr addr = true <-> internal_address addr.
Proof. apply is_internal_blocks_lemma. Qed.

Lemma is_internal_addr_blocks_witness :
  is_internal_addr (V6 [0; 0; 0; 0; 0; 65535; 43518; 43518]%N) = true
  <-> internal_address (V6 [0; 0; 0; 0; 0; 65535; 43518; 43518]%N).
Proof.
  apply (is_internal_addr_blocks (V6 [0; 0; 0; 0; 0; 65535; 43518; 43518]%N)).
  split; [reflexivity|]. repeat constructor.
Defined.

(** ** What is parsed is an address *)

Lemma read_number_bound radix m z max s v rest : read_number radix m z max s = Some (v, rest) -> (v <= max)%N.
Proof.
  unfold read_number. destruct (read_digits _ _ _ _ s) as [[[w k] r]|]; [|done].
  destruct (k =? 0)%N; [done|]. destruct (_ && _); [done|]. destruct (N.ltb_spec max w); [done|].
  by intros [= <- <-].
Qed.

Lemma read_octet_bound i s v rest : read_octet i s = Some (v, rest) -> octet v.
Proof.
  unfold read_octet, read_separator, octet. destruct i; [|destruct (read_given_char _ s) as [[]|]; [|done]];
    intros H%read_number_bound; lia.
Qed.

Lemma read_ipv4_bound s a b c d rest :
  read_ipv4_addr s = Some ((a, b, c, d), rest) -> octet a /\ octet b /\ octet c /\ octet d.
Proof.
  unfold read_ipv4_addr.
  destruct (read_octet 0 s) as [[a' s1]|] eqn:E1; [|done].
  destruct (read_octet 1 s1) as [[b' s2]|] eqn:E2; [|done].
  destruct (read_octet 2 s2) as [[c' s3]|] eqn:E3; [|done].
  destruct (read_octet 3 s3) as [[d' s4]|] eqn:E4; [|done].
  intros [= <- <- <- <- <-]. repeat split; by eapply read_octet_bound.
Qed.

Lemma read_separator_inv {A} sep i (inner : reader A) s r :
  read_separator sep i inner s = Some r -> exists s', inner s' = Some r.
Proof. destruct i; cbn; [eauto|]. destruct (read_given_char sep s) as [[? s']|]; [eauto|done]. Qed.

Lemma read_groups_wf left i s gs v4 rest :
  read_groups i left s = (gs, v4, rest) -> length gs <= left /\ Forall (fun g => g < 65536)%N gs.
Proof.
  revert i s gs v4 rest. induction left as [|left IH]; intros i s gs v4 rest; cbn [read_groups].
  { intros [= <- <- <-]. split; [done|apply Forall_nil_2]. }
  set (embedded := match left with O => None | S _ => _ end).
  destruct embedded as [[[[[a b] c] d] s']|] eqn:E.
  - intros [= <- <- <-]. destruct left as [|left]; [done|]. subst embedded.
    apply read_separator_inv in E as [s2 E]. apply read_ipv4_bound in E as (Ha & Hb & Hc & Hd).
    unfold octet in *. split; [cbn; lia|]. repeat (apply Forall_cons; split; [lia|]). apply Forall_nil_2.
  - destruct (read_separator _ i (read_number 16 4 true 65535) s) as [[g s']|] eqn:E2.
    + destruct (read_groups (S i) left s') as [[gs' v4'] rest'] eqn:E3. intros [= <- <- <-].
      apply IH in E3 as [Hl Hf]. apply read_separator_inv in E2 as [s2 E2]. apply read_number_bound in E2.
      split; [cbn; lia|]. apply Forall_cons. split; [lia|done].
    + intros [= <- <- <-]. split; [cbn; lia|apply Forall_nil_2].
Qed.

Lemma parse_ip_wf s addr : parse_ip s = Some addr -> wf_addr addr.
Proof.
  unfold parse_ip. destruct (read_ipv4_addr s) as [[[[[a b] c] d] [|]]|] eqn:E; [|done|].
  { intros [= <-]. by apply read_ipv4_bound in E. }
  destruct (read_ipv6_addr s) as [[gs [|]]|] eqn:E6; [|done..]. intros [= <-]. revert E6. unfold read_ipv6_addr.
  destruct (read_groups 0 8 s) as [[hd v4] s1] eqn:E1. apply read_groups_wf in E1 as [Hl1 Hf1].
  case_bool_decide as H8; [intros E6; injection E6 as -> _; done|]. destruct v4; [done|].
  destruct (read_given_char _ s1) as [[? s2]|]; [|done]. destruct (read_given_char _ s2) as [[? s3]|]; [|done].
  destruct (read_groups 0 _ s3) as [[tl v4'] s4] eqn:E2. apply read_groups_wf in E2 as [Hl2 Hf2].
  intros E6. injection E6 as <- _. split; [rw !length_app length_replicate; lia|].
  apply Forall_app. split; [done|]. apply Forall_app. split; [by apply Forall_replicate|done].
Qed.

(** ** Searching for one character *)

Lemma find_sub_absent x p s : x ∉ s -> find_sub (x :: p) s = None.
Proof.
  intros Hx. apply find_sub_None. apply not_true_iff_false. rw contains_spec.
  intros (a & b & ->). apply Hx, elem_of_app. right. by left.
Qed.

Lemma find_sub_here x p a b : x ∉ a -> find_sub (x :: p) (a ++ x :: p ++ b) = Some (length a).
Proof.
  induction a as [|c a IH].
  - intros _. cbn [app find_sub starts_with]. rw N.eqb_refl. cbn [andb].
    by rw (proj2 (starts_with_spec _ _)); [exists b|].
  - intros [Hc Ha]%not_elem_of_cons. cbn [app find_sub starts_with].
    rw (proj2 (N.eqb_neq x c)) //. cbn [andb]. by rw IH.
Qed.

Lemma rfind_here x a b : x ∉ b -> rfind_sub [x] (a ++ x :: b) = Some (length a).
Proof.
  intros Hb. unfold rfind_sub. rw rev_app_distr. cbn [rev app]. rw -!app_assoc. cbn [app].
  rw (find_sub_here x [] (rev b) (rev a)); [by rw elem_of_rev|]. rw length_rev length_app. cbn.
  f_equal. lia.
Qed.

Lemma rfind_absent x s : x ∉ s -> rfind_sub [x] s = None.
Proof. intros Hx. unfold rfind_sub. cbn [rev app]. rw find_sub_absent; [by rw elem_of_rev|done]. Qed.

Lemma after_last_here x a b : x ∉ b -> after_last x (a ++ x :: b) = b.
Proof.
  intros Hb. unfold after_last. rw split_char_app last_app.
  by rw split_char_notin.
Qed.

(** ** Well-formed URLs *)

(** What delimits the parts of a URL. *)
Definition delimiters : str := "/?#@:[]%".
Definition plain (s : str) : Prop := forall x, x ∈ s -> x ∉ delimiters.

(** What ends an authority. *)
Definition cut_free (s : str) : Prop := forall x, x ∈ lit "/?#" -> x ∉ s.

(** [scheme://user@host:port] and a path. *)
Record Url := mkUrl { url_scheme : str; url_user : option str; url_host : str; url_port : option str; url_path : str }.
Definition show_url (u : Url) : str :=
  url_scheme u ++ "://" ++ (match url_user u with Some x => x ++ "@" | None => [] end) ++ url_host u
  ++ (match url_port u with Some p => ":" ++ p | None => [] end) ++ url_path u.

Record wf_url (u : Url) : Prop := {
  wu_scheme : plain (url_scheme u);
  wu_user : forall x, url_user u = Some x -> cut_free x;
  wu_host : plain (url_host u) /\ url_host u <> [];
  wu_port : forall p, url_port u = Some p -> plain p;
  wu_path : url_path u = [] \/ exists r, url_path u = chr "/"%char :: r
             \/ (url_path u = chr "?"%char :: r /\ chr "/"%char ∉ r)
             \/ (url_path u = chr "#"%char :: r /\ chr "/"%char ∉ r /\ chr "?"%char ∉ r)
}.

Lemma plain_notin s x : plain s -> x ∈ delimiters -> x ∉ s.
Proof. intros Hs Hx Hi. by apply (Hs x Hi). Qed.

Ltac delimiter := by apply (bool_decide_unpack (_ ∈ delimiters)).

Lemma url_rest u : wf_url u ->
  match find_sub "://" (show_url u) with Some pos => drop (pos + 3) (show_url u) | None => show_url u end
  = (match url_user u with Some x => x ++ "@" | None => [] end) ++ url_host u
    ++ (match url_port u with Some p => ":" ++ p | None => [] end) ++ url_path u.
Proof.
  intros Hu. unfold show_url. set (r := _ ++ url_host u ++ _).
  change (url_scheme u ++ "://" ++ r) with (url_scheme u ++ 58%N :: lit "//" ++ r).
  change (lit "://") with (58%N :: lit "//"). rw find_sub_here.
  { apply plain_notin; [apply Hu|delimiter]. }
  by rw drop_app_add.
Qed.

Definition host_port (u : Url) : str :=
  url_host u ++ (match url_port u with Some p => ":" ++ p | None => [] end).

Lemma host_port_notin u x : wf_url u -> x ∈ delimiters -> x <> 58%N -> x ∉ host_port u.
Proof.
  intros Hu Hx Hn. unfold host_port. rw not_elem_of_app. split.
  - apply plain_notin; [apply Hu|done].
  - destruct (url_port u) as [p|] eqn:E; [|apply not_elem_of_nil].
    apply not_elem_of_cons. split; [done|]. apply plain_notin; [by eapply wu_port|done].
Qed.

Lemma cut_free_app a b : cut_free a -> cut_free b -> cut_free (a ++ b).
Proof. intros Ha Hb x Hx. apply not_elem_of_app. split; [by apply Ha|by apply Hb]. Qed.

Lemma plain_cut s : plain s -> cut_free s.
Proof.
  intros Hs x Hx. apply plain_notin; [done|]. revert x Hx. unfold delimiters.
  change (lit "/?#@:[]%") with (lit "/?#" ++ lit "@:[]%"). intros x Hx. apply elem_of_app. by left.
Qed.

Lemma host_port_cut u : wf_url u -> cut_free (host_port u).
Proof.
  intros Hu. apply cut_free_app; [apply plain_cut, Hu|].
  destruct (url_port u) as [p|] eqn:E; [|by intros x _; apply not_elem_of_nil].
  apply cut_free_app; [|by eapply plain_cut, wu_port].
  intros x Hx Hi. apply list_elem_of_singleton in Hi as ->. by apply (bool_decide_unpack (_ ∉ lit "/?#")) in Hx.
Qed.

(** The first of the characters that end an authority. *)
Lemma find_cut front path :
  cut_free front ->
  path = [] \/ (exists r, path = chr "/"%char :: r
             \/ (path = chr "?"%char :: r /\ chr "/"%char ∉ r)
             \/ (path = chr "#"%char :: r /\ chr "/"%char ∉ r /\ chr "?"%char ∉ r)) ->
  unwrap_or (length (front ++ path))
    (find_sub "/" (front ++ path) <|> find_sub "?" (front ++ path) <|> find_sub "#" (front ++ path))%rust
  = length front.
Proof.
  intros Hf. change (lit "/") with [chr "/"%char]. change (lit "?") with [chr "?"%char].
  change (lit "#") with [chr "#"%char].
  assert (forall x r, x ∈ lit "/?#" -> find_sub [x] (front ++ x :: r) = Some (length front)) as Hh.
  { intros x r Hx. apply (find_sub_here x []). by apply Hf. }
  assert (forall x y r, x ∈ lit "/?#" -> x <> y -> x ∉ r -> find_sub [x] (front ++ y :: r) = None) as Hn.
  { intros x y r Hx Hy Hr. apply find_sub_absent. apply not_elem_of_app. split; [by apply Hf|].
    by apply not_elem_of_cons. }
  intros [->|(r & [->|[[-> Hr]|(-> & Hr & Hq)]])].
  - rw app_nil_r !find_sub_absent //; by apply Hf, (bool_decide_unpack (_ ∈ lit "/?#")).
  - rw Hh //. by apply (bool_decide_unpack (_ ∈ lit "/?#")).
  - rw (Hn (chr "/"%char)) // ?Hh //; by apply (bool_decide_unpack (_ ∈ lit "/?#")).
  - rw (Hn (chr "/"%char)) // ?(Hn (chr "?"%char)) // ?Hh //; by apply (bool_decide_unpack (_ ∈ lit "/?#")).
Qed.

Lemma authority_url u :
  wf_url u ->
  authority (show_url u) = (match url_user u with Some x => x ++ "@" | None => [] end) ++ host_port u.
Proof.
  intros Hu. unfold authority. rw (url_rest u Hu).
  set (who := match url_user u with Some x => x ++ "@" | None => [] end).
  assert (cut_free (who ++ host_port u)) as Hc.
  { apply cut_free_app; [|by apply host_port_cut]. unfold who.
    destruct (url_user u) as [x|] eqn:E; [|by intros x _; apply not_elem_of_nil].
    apply cut_free_app; [by eapply wu_user|]. intros y Hy Hi. apply list_elem_of_singleton in Hi as ->.
    by apply (bool_decide_unpack (_ ∉ lit "/?#")) in Hy. }
  replace (who ++ url_host u ++ match url_port u with Some p => ":" ++ p | None => [] end ++ url_path u)
    with ((who ++ host_port u) ++ url_path u) by by unfold host_port; rw -!app_assoc.
  rw (find_cut _ _ Hc (wu_path u Hu)). by rw take_app_length.
Qed.

Lemma without_port_host u : wf_url u -> without_port (host_port u) = Some (url_host u).
Proof.
  intros Hu. unfold without_port.
  assert (ends_with (host_port u) "]" = false) as ->.
  { apply not_true_iff_false. rw ends_with_spec. intros [r Hr].
    apply (host_port_notin u 93 Hu); [delimiter|done|]. rw Hr. apply elem_of_app. right. by left. }
  unfold host_port. destruct (wu_host u Hu) as [Hh _].
  change (lit ":") with [58%N]. destruct (url_port u) as [p|] eqn:E.
  - cbn [app]. rw rfind_here; [apply plain_notin; [by eapply wu_port|delimiter]|].
    rw take_app_length. assert (contains (url_host u) [58%N] = false) as ->; [|done].
    apply find_sub_None, find_sub_absent, plain_notin; [done|delimiter].
  - rw app_nil_r rfind_absent; [apply plain_notin; [done|delimiter]|done].
Qed.

Lemma drop_leading_notin x s : x ∉ s -> drop_leading x s = s.
Proof. destruct s as [|c s]; [done|]. intros [Hc _]%not_elem_of_cons. cbn. by rw (proj2 (N.eqb_neq c x)). Qed.

(** The host the guards look at is the host of the URL, whatever user, port, path, query
    or fragment surround it. *)
Lemma extract_host_url percent_decode u :
  wf_url u -> extract_host percent_decode (show_url u) = Some (percent_decode (url_host u)).
Proof.
  intros Hu. unfold extract_host. rw (authority_url u Hu).
  assert (after_last (chr "@"%char)
            ((match url_user u with Some x => x ++ "@" | None => [] end) ++ host_port u) = host_port u) as ->.
  { destruct (url_user u) as [x|].
    - rw -app_assoc. apply after_last_here, host_port_notin; [done|delimiter|done].
    - unfold after_last. rw split_char_notin //. apply host_port_notin; [done|delimiter|done]. }
  rw (without_port_host u Hu). destruct (wu_host u Hu) as [Hh Hn].
  unfold trim_end_matches. rw (drop_leading_notin (chr "["%char)); [apply plain_notin; [done|delimiter]|].
  rw drop_leading_notin; [rw elem_of_rev; apply plain_notin; [done|delimiter]|].
  by rw rev_involutive bool_decide_eq_false_2.
Qed.

(** ** Literal addresses *)

Definition show_v4 (a b c d : N) : str :=
  show_N a ++ "." ++ show_N b ++ "." ++ show_N c ++ "." ++ show_N d.

Lemma read_digits_app radix m acc count s v n x r :
  read_digits radix m acc count s = Some (v, n, []) -> to_digit radix x = None ->
  read_digits radix m acc count (s ++ x :: r) = Some (v, n, x :: r).
Proof.
  intros H Hx. revert acc count H. induction s as [|c s IH]; intros acc count; cbn [app read_digits].
  - rw Hx. by intros [= -> ->].
  - destruct (to_digit radix c); [|done]. destruct (m <? count + 1)%N; [done|]. apply IH.
Qed.

(** The octets are few: each is read back. *)
Lemma octets_read :
  forallb (fun k => bool_decide (read_number 10 3 false 255 (show_nat k) = Some (N.of_nat k, [])))
    (seq 0 256) = true.
Proof. vm_compute. reflexivity. Qed.

Lemma read_octet_show n r :
  octet n -> read_number 10 3 false 255 (show_N n ++ 46%N :: r) = Some (n, 46%N :: r)
             /\ read_number 10 3 false 255 (show_N n) = Some (n, []).
Proof.
  intros Hn. unfold octet in Hn. pose proof octets_read as H. rw forallb_forall in H.
  specialize (H (N.to_nat n)). assert (In (N.to_nat n) (seq 0 256)) as Hi by (apply in_seq; lia).
  apply H, bool_decide_eq_true in Hi. unfold show_nat in Hi. rw N2Nat.id in Hi. split; [|done].
  unfold read_number in *. destruct (read_digits 10 3 0 0 (show_N n)) as [[[v k] rest]|] eqn:E; [|done].
  destruct (show_N n) as [|c ds] eqn:Es; [by injection E as <- <- <-|].
  assert (rest = []) as -> by (repeat case_match; by simplify_eq).
  rw (read_digits_app _ _ _ _ _ _ _ 46%N r E) //. cbn [app head] in *.
  by repeat case_match; simplify_eq.
Qed.

Lemma parse_show_v4 a b c d :
  octet a -> octet b -> octet c -> octet d -> parse_ip (show_v4 a b c d) = Some (V4 a b c d).
Proof.
  intros Ha Hb Hc Hd. unfold parse_ip, read_ipv4_addr, show_v4, read_octet. change (lit ".") with [46%N].
  cbn [app read_separator].
  rw (proj1 (read_octet_show a _ Ha)). cbn [read_given_char]. rw N.eqb_refl.
  rw (proj1 (read_octet_show b _ Hb)). cbn [read_given_char]. rw N.eqb_refl.
  rw (proj1 (read_octet_show c _ Hc)). cbn [read_given_char]. rw N.eqb_refl.
  by rw (proj2 (read_octet_show d [] Hd)).
Qed.

(** A URL whose host is an IPv4 address passes the literal guard exactly when the
    address is in no internal block. *)
Lemma literal_guard_exact percent_decode u a b c d :
  wf_url u -> url_host u = show_v4 a b c d -> octet a -> octet b -> octet c -> octet d ->
  percent_decode (show_v4 a b c d) = show_v4 a b c d ->
  host_is_literal_internal_ip percent_decode (show_url u) = true <-> internal4 (v4_num a b c d).
Proof.
  intros Hu Hh Ha Hb Hc Hd Hp. unfold host_is_literal_internal_ip.
  rw extract_host_url // Hh Hp parse_show_v4 //. by apply is_internal_v4_blocks.
Qed.

Lemma plain_bool s : forallb (fun x => bool_decide (x ∉ delimiters)) s = true -> plain s.
Proof. rw forallb_forall. intros H x Hx. apply list_elem_of_In in Hx. by apply H, bool_decide_eq_true in Hx. Qed.

Definition metadata_url : Url :=
  mkUrl "http" (Some (lit "user:pw")) "169.254.169.254" (Some (lit "80")) "/latest".

Lemma metadata_url_wf : wf_url metadata_url.
Proof.
  constructor.
  - by apply plain_bool.
  - intros x [= <-] y Hy Hi. revert y Hy Hi.
    assert (forallb (fun y => bool_decide (y ∉ lit "user:pw")) (lit "/?#") = true) as H by (vm_compute; reflexivity).
    rw forallb_forall in H. intros y Hy%list_elem_of_In Hi. by apply H, bool_decide_eq_true in Hy.
  - split; [by apply plain_bool|done].
  - intros p [= <-]. by apply plain_bool.
  - right. eexists. left. reflexivity.
Qed.

Lemma extract_host_url_witness :
  extract_host (fun s => s) (show_url metadata_url) = Some (lit "169.254.169.254").
Proof. apply (extract_host_url (fun s => s) metadata_url). exact metadata_url_wf. Defined.

Lemma literal_guard_exact_witness :
  host_is_literal_internal_ip (fun s => s) (show_url metadata_url) = true <-> internal4 (v4_num 169 254 169 254).
Proof.
  apply (literal_guard_exact (fun s => s) metadata_url 169 254 169 254);
    [exact metadata_url_wf|reflexivity|reflexivity|reflexivity|reflexivity|reflexivity|reflexivity].
Defined.

(** A fragment or a query without a path before it may hold an [@]: the guards then look
    at what follows it, while the host of the URL (RFC 3986) is what precedes it. *)
Lemma fragment_hides_host :
  extract_host (fun s => s) "http://127.0.0.1#@example.com/" = Some (lit "example.com")
  /\ extract_host (fun s => s) "http://127.0.0.1?@example.com/" = Some (lit "example.com")
  /\ host_is_literal_internal_ip (fun s => s) "http://127.0.0.1#@example.com/" = false.
Proof. vm_compute. done. Qed.

(** An IPv6 literal with a port is refused, public or not. *)
Lemma ipv6_port_refused :
  extract_host (fun s => s) "http://[2606:4700::1111]:8080/" = None
  /\ extract_host (fun s => s) "http://[2606:4700::1111]/" = Some (lit "2606:4700::1111").
Proof. vm_compute. done. Qed.
