(* ===== verification/WebFetch.v ===== *)
(** * Fetching from the network (src/tools/web_fetch.rs, src/tools/web_search.rs)

    The tool [web_fetch]: the guards, the pinned client, the body with its cap and the
    text of a page; and [web_search].

    Parameters: the resolver, the HTTP client, [url::Url], [percent_encoding], the regular
    expressions, and at which awaits the cancel token wins. *)

From Stdlib Require Import ssreflect.
From S2P Require Import Prelude Machine BashSafety Undo Offload BudgetGuard Minify Paths PathGuard FileTools ReadFile Net.

Definition MAX_BODY_BYTES : N := 1024 * 1024.

(** ** Entities *)

Definition entity (name : str) : option str :=
  find_map (fun e => if str_eqb e.1 name then Some e.2 else None)
    [(lit "amp", lit "&"); (lit "lt", lit "<"); (lit "gt", lit ">"); (lit "quot", dquote); (lit "apos", lit "'");
     (lit "nbsp", lit " "); (lit "ndash", lit "–"); (lit "mdash", lit "—")].

(** [char::from_u32]. *)
Definition from_u32 (n : N) : option char := if is_scalar n then Some n else None.

(** The text an entity stands for; an unknown one stands for itself. *)
Definition replacement (name : str) : str :=
  match entity name with
  | Some r => r
  | None =>
      match (strip_prefix name "#" ≫= fun code => parse_u32 code ≫= from_u32) with
      | Some c => [c]
      | None => "&" ++ name ++ ";"
      end
  end.

(** The loop of [html_entities::decode]; [rest] is shorter in each turn. *)
Fixpoint decode_from (fuel : nat) (rest : str) : str :=
  match fuel with
  | O => []
  | S fuel' =>
      match find_sub "&" rest with
      | None => rest
      | Some pos =>
          let amp := drop pos rest in
          take pos rest
          ++ match find_sub ";" amp with
             | Some semi => replacement (drop 1 (take semi amp)) ++ decode_from fuel' (drop (semi + 1) amp)
             | None => "&" ++ decode_from fuel' (drop 1 amp)
             end
      end
  end.
Definition decode (input : str) : str := decode_from (S (length input)) input.

(** ** From HTML to text *)

Definition looks_like_html (body : str) : bool :=
  let lower := to_ascii_lowercase body in
  contains lower "<!doctype html" || contains lower "<html" || contains lower "<head" || contains lower "<body".

(** A match: its byte range and its groups. *)
Record Capture := mkCapture { cap_start : N; cap_end : N; groups : list (option str) }.

(** [Regex::captures_iter]. *)
Class RegexCaptures := captures_iter : str -> str -> list Capture.

Definition group (c : Capture) (i : nat) : str := unwrap_or [] (unwrap_or None (groups c !! i)).

Section Html.
Context `{RegexCaptures}.

(** The text between two byte offsets. *)
Definition slice (s : str) (from to : N) : str :=
  match split_at_byte s from with
  | Some (_, r) => match split_at_byte r (to - from) with Some (m, _) => m | None => [] end
  | None => []
  end.

(** [Regex::replace_all] with a closure that has a state. *)
Definition replace_all_with {A} (pattern text : str) (f : A -> Capture -> str * A) (a : A) : str :=
  let '(out, last, _) :=
    foldl (fun '(out, last, a) c =>
             let '(r, a') := f a c in
             (out ++ slice text last (cap_start c) ++ r, cap_end c, a'))
      ([], 0%N, a) (captures_iter pattern text) in
  out ++ slice text last (str_len text).
Definition replace_all (pattern text : str) (f : Capture -> str) : str :=
  replace_all_with pattern text (fun a c => (f c, a)) tt.

Definition q_class : str := "[" ++ dquote ++ "']".
Definition nq_class : str := "[^" ++ dquote ++ "']+".
Definition LINK_RE : str := "(?i)<a\b[^>]*href=" ++ q_class ++ "(" ++ nq_class ++ ")" ++ q_class ++ "[^>]*>(.*?)</a>".
Definition feed : str := [10%N].
Definition code_block (c : Capture) : str := feed ++ "```" ++ feed ++ group c 1 ++ feed ++ "```" ++ feed.

Definition heading (c : Capture) : str :=
  let n := N.to_nat (unwrap_or 1%N (parse_u64 (group c 1))) in
  replicate n (chr "#"%char) ++ " " ++ trim (group c 2) ++ feed.

(** A list tag, with the stack of the lists it is in: [true] for a numbered one. *)
Definition list_tag (stack : list bool) (c : Capture) : str * list bool :=
  let t := to_ascii_lowercase (group c 0) in
  if starts_with t "<ol" then (feed, stack ++ [true])
  else if starts_with t "<ul" then (feed, stack ++ [false])
  else if str_eqb t "</ol>" || str_eqb t "</ul>" then (feed, removelast stack)
  else
    let indent := mjoin (replicate (length stack - 1) (lit "  ")) in
    let bullet := if unwrap_or false (last stack) then lit "1." else lit "-" in
    (feed ++ indent ++ bullet ++ " ", stack).

(** A line with its inner white space collapsed; the leading one is kept. *)
Definition collapse_line (line : str) : str :=
  let body_of := trim_start line in
  let leading := take (length line - length body_of) line in
  let body := trim_end (replace_all "[ \t]+" body_of (fun _ => lit " ")) in
  if bool_decide (body = []) then [] else leading ++ body.

Definition html_to_text (html : str) : str :=
  let s := replace_all "(?is)<head[^>]*>.*?</head>" html (fun _ => []) in
  let s := replace_all "(?is)<script[^>]*>.*?</script>" s (fun _ => lit " ") in
  let s := replace_all "(?is)<style[^>]*>.*?</style>" s (fun _ => lit " ") in
  let s := replace_all "(?is)<pre[^>]*>\s*<code[^>]*>(.*?)</code>\s*</pre>" s code_block in
  let s := replace_all "(?is)<pre[^>]*>(.*?)</pre>" s code_block in
  let s := replace_all "(?i)<code\b[^>]*>(.*?)</code>" s (fun c => "`" ++ group c 1 ++ "`") in
  let s := replace_all "(?i)<h([1-6])[^>]*>(.*?)</h[1-6]>" s heading in
  let s := replace_all LINK_RE s (fun c => "[" ++ group c 2 ++ "](" ++ group c 1 ++ ")") in
  let s := replace_all "(?i)</?(?:strong|b)\b[^>]*>" s (fun _ => lit "**") in
  let s := replace_all "(?i)</?(?:em|i)\b[^>]*>" s (fun _ => lit "*") in
  let s := replace_all "(?i)<hr\b\s*/?>" s (fun _ => feed ++ "---" ++ feed) in
  let s := replace_all "(?i)<br\b\s*/?>" s (fun _ => feed) in
  let s := replace_all "(?i)</?p\b[^>]*>" s (fun _ => feed ++ feed) in
  let s := replace_all_with "(?i)<(?:ul|ol|li)\b[^>]*>|</(?:ul|ol)\b>" s list_tag [] in
  let s := replace_all "<[^>]+>" s (fun _ => lit " ") in
  let s := decode s in
  join feed (List.filter (fun line => negb (bool_decide (trim line = []))) (map collapse_line (lines s))).
End Html.

(** ** The network *)

Definition SocketAddr : Type := IpAddr * N.

(** [reqwest::redirect::Policy]: none, or the default of the crate. *)
Inductive Policy := PolicyNone | PolicyDefault.
(** A client: the name it resolves by itself, with the address, and its policy. *)
Record Client := mkClient { pinned : option (str * SocketAddr); redirect : Policy }.

Record Response := mkResponse {
  status : N;
  content_type : option str;
  (** The chunks of the body, as they come. *)
  body_chunks : list (result (list N) str)
}.

(** What the tool meets outside.  The resolver may answer the two guards differently, as a
    rebinding name server does. *)
Class Network := {
  percent_decode : str -> str;
  (** [DnsResolver::resolve], the first and the second time. *)
  resolve1 : str -> option (list SocketAddr);
  resolve2 : str -> option (list SocketAddr);
  (** [url.port_or_known_default()] of a URL that parses. *)
  port_or_known_default : str -> option N;
  (** Whether a client can be built: pinned or not. *)
  client_builds : option (str * SocketAddr) -> bool;
  build_request : str -> result unit str;
  (** A request: the response, and the URLs of the further requests that the client sends
      on its own, following redirects. *)
  execute : Client -> str -> result Response str * list str;
  (** The text of a status code. *)
  status_text : N -> str
}.

(** The cancel token at the awaits of a call: [true] where it wins. *)
Record Token := mkToken { at_guards : bool; at_response : bool; at_chunk : nat -> bool }.

Section Fetch.
Context `{Network} `{RegexCaptures}.

(** [host_resolves_to_internal_ip]. *)
Definition host_resolves_to_internal_ip (url : str) : bool :=
  match extract_host percent_decode url with
  | None => true
  | Some host =>
      if is_some_b (parse_ip host) then false
      else match resolve1 (host ++ ":80") with
           | Some addrs => existsb (fun sa => is_internal_addr sa.1) addrs
           | None => true
           end
  end.

Definition extract_port_from_url (url : str) : N := unwrap_or 80%N (port_or_known_default url).

(** [fallback_client]; the last resort is a client with the defaults of the crate. *)
Definition fallback_client : Client :=
  if client_builds None then mkClient None PolicyNone else mkClient None PolicyDefault.

(** [WebFetch::new]: the client of the tool. *)
Definition new_client : Client :=
  if client_builds None then mkClient None PolicyNone else fallback_client.

(** [resolve_and_pin_dns]; the builder sets no redirect policy. *)
Definition resolve_and_pin_dns (url : str) : result (option Client) unit :=
  match extract_host percent_decode url with
  | None => Err tt
  | Some host =>
      if is_some_b (parse_ip host) then Ok None
      else match resolve2 (host ++ ":" ++ show_N (extract_port_from_url url)) with
           | None => Err tt
           | Some [] => Ok None
           | Some ((pin_addr :: _) as addrs) =>
               if existsb (fun sa => is_internal_addr sa.1) addrs then Err tt
               else if client_builds (Some (host, pin_addr)) then Ok (Some (mkClient (Some (host, pin_addr)) PolicyDefault))
               else Err tt
           end
  end.

(** What stops the body. *)
Inductive BodyStop := StopCancelled | StopError (e : str) | StopExceeded.

(** The loop over the chunks: the cap is checked before a chunk is added. *)
Fixpoint read_body (cancelled : nat -> bool) (i : nat) (buf : list N) (chunks : list (result (list N) str))
    : result (list N) BodyStop :=
  if cancelled i then Err StopCancelled
  else match chunks with
       | [] => Ok buf
       | Err e :: _ => Err (StopError e)
       | Ok chunk :: chunks' =>
           if (MAX_BODY_BYTES <? N.of_nat (length buf + length chunk))%N then Err StopExceeded
           else read_body cancelled (S i) (buf ++ chunk) chunks'
       end.

Definition is_success (status : N) : bool := in_range 200 299 status.

(** After the response. *)
Definition show_response (trimmed : str) (tok : Token) (r : Response) : Outcome :=
  let content_type := to_ascii_lowercase (unwrap_or [] (content_type r)) in
  match read_body (at_chunk tok) 0 [] (body_chunks r) with
  | Err StopCancelled => Failure Cancelled
  | Err (StopError e) => internal ("Failed to read response body from " ++ trimmed ++ ": " ++ e)
  | Err StopExceeded =>
      internal ("Response from " ++ trimmed ++ " exceeds " ++ show_N MAX_BODY_BYTES ++ " byte cap")
  | Ok buf =>
      if negb (is_success (status r)) then
        Failure (Execution ("HTTP " ++ status_text (status r) ++ " from " ++ trimmed)
                   (Some (Z.of_N (status r))) (take 200 (from_utf8_lossy buf)))
      else
        let raw := from_utf8_lossy buf in
        let output := if contains content_type "text/html" || looks_like_html raw
                      then html_to_text raw else raw in
        Success (wrap_untrusted output)
  end.

(** A request on the wire. *)
Definition Request : Type := Client * str.

(** [WebFetch::run], with the requests it sends; those of a cancelled call may have been
    sent. *)
Definition web_fetch (deny_list : DenyList) (tok : Token) (args : json) : Outcome * list Request :=
  match string_arg args "url" with
  | None => (invalid_args "Missing 'url' argument", [])
  | Some url =>
      let trimmed := trim url in
      if bool_decide (trimmed = []) then (invalid_args "URL is empty", [])
      else
        let lower := to_ascii_lowercase trimmed in
        if negb (starts_with lower "http://" || starts_with lower "https://")
        then (access_denied "Only http:// and https:// URLs are allowed", [])
        else if url_is_denied trimmed (url_patterns deny_list)
        then (access_denied "URL is denied by the security policy", [])
        else if host_is_literal_internal_ip percent_decode trimmed
        then (access_denied "URL resolves to a private/internal IP by literal host", [])
        else if at_guards tok then (Failure Cancelled, [])
        else if host_resolves_to_internal_ip trimmed
        then (access_denied "URL host resolves to a private/internal IP", [])
        else
          match resolve_and_pin_dns trimmed with
          | Err _ => (access_denied "URL host resolves to a private/internal IP (DNS-rebinding guard)", [])
          | Ok pin =>
              let client := unwrap_or new_client pin in
              match build_request trimmed with
              | Err e => (internal ("Failed to build request for " ++ trimmed ++ ": " ++ e), [])
              | Ok _ =>
                  let '(response, redirected) := execute client trimmed in
                  (if at_response tok then Failure Cancelled
                   else match response with
                        | Err e => internal ("Failed to fetch " ++ trimmed ++ ": " ++ e)
                        | Ok r => show_response trimmed tok r
                        end, (client, trimmed) :: map (pair client) redirected)
              end
          end
  end.
End Fetch.

(** ** [web_search] *)

Record BraveResult := mkBrave { br_title : str; br_url : str; br_description : str }.
(** The answer of the service: the body, and what it parses to. *)
Record BraveAnswer := mkAnswer { ba_status : N; ba_body : str; ba_json : result (list BraveResult) str }.

Section Search.
Variable status_text : N -> str.
(** The request with its key, query and count. *)
Variable send : str -> str -> N -> result BraveAnswer str.

Definition search_brave (api_key query : str) (count : N) : result (list BraveResult) str :=
  match send api_key query count with
  | Err e => Err e
  | Ok resp =>
      if negb (is_success (ba_status resp))
      then Err ("Brave Search returned HTTP " ++ status_text (ba_status resp) ++ ": " ++ ba_body resp)
      else ba_json resp
  end.

Definition format_results (results : list BraveResult) : str :=
  match results with
  | [] => "No results found."
  | _ =>
      join (feed ++ feed)
        (("Found " ++ show_nat (length results) ++ " result(s):")
         :: imap (fun i r => show_nat (i + 1) ++ ". " ++ br_title r ++ feed ++ "   URL: " ++ br_url r ++ feed
                             ++ "   " ++ br_description r) results)
  end.

Definition web_search (api_key : option str) (cancelled : bool) (args : json) : Outcome :=
  match api_key with
  | None | Some [] => Error "web_search is not configured: set the BRAVE_SEARCH_API_KEY environment variable."
  | Some k =>
      match string_arg args "query" with
      | None => invalid_args "Missing or empty 'query' argument"
      | Some q =>
          if bool_decide (trim q = []) then invalid_args "Missing or empty 'query' argument"
          else
            let count := match json_get args "count" ≫= as_u64 with
                         | Some c => N.max 1 (N.min c 20)
                         | None => 10%N
                         end in
            if cancelled then Failure Cancelled
            else match search_brave k (trim q) count with
                 | Ok results => Success (wrap_untrusted (format_results results))
                 | Err e => Error ("Brave Search request failed: " ++ e)
                 end
      end
  end.
End Search.

(** ** Entities are decoded once *)

Lemma decode_from_cons fuel c t :
  c <> 38%N -> decode_from (S fuel) (c :: t) = c :: decode_from (S fuel) t.
Proof.
  intros Hc. cbn [decode_from]. change (lit "&") with [38%N]. cbn [find_sub starts_with].
  rw (proj2 (N.eqb_neq 38 c)); [congruence|]. cbn [andb].
  by destruct (find_sub [38%N] t).
Qed.

Lemma find_sub_bound x s i : find_sub [x] s = Some i -> i < length s.
Proof. intros H. apply find_sub_Some in H. apply (f_equal length) in H. rw !length_app length_take in H. cbn in H. lia. Qed.

Lemma decode_from_fuel fuel t : length t < fuel -> decode_from fuel t = decode_from (S fuel) t.
Proof.
  revert t. induction fuel as [|fuel IH]; intros t Hl; [lia|].
  rw {2}/decode_from -/decode_from. cbn [decode_from].
  change (lit "&") with [38%N]. change (lit ";") with [59%N].
  destruct (find_sub [38%N] t) as [pos|] eqn:E; [|done]. f_equal. pose proof (find_sub_bound _ _ _ E).
  destruct (find_sub [59%N] (drop pos t)) as [semi|] eqn:E2.
  - f_equal. apply IH. pose proof (find_sub_bound _ _ _ E2). rw !length_drop in H0 |- *. lia.
  - f_equal. apply IH. rw !length_drop. lia.
Qed.

Lemma decode_from_enough fuel t : length t < fuel -> decode_from fuel t = decode t.
Proof.
  intros Hl. unfold decode. induction Hl as [|fuel Hl IH]; [done|]. by rw -decode_from_fuel.
Qed.

(** Ways to write a text with the named entities of the table and canonical decimal
    references; a hexadecimal reference is not decoded. *)
Inductive encodes : str -> str -> Prop :=
| encodes_nil : encodes [] []
| encodes_char c s t : c <> 38%N -> encodes s t -> encodes (c :: s) (c :: t)
| encodes_named name r s t : entity name = Some r -> encodes s t -> encodes (r ++ s) ("&" ++ name ++ ";" ++ t)
| encodes_number c s t : is_scalar c = true -> encodes s t -> encodes (c :: s) ("&#" ++ show_N c ++ ";" ++ t).

Lemma decode_entity name t :
  59%N ∉ name -> decode ("&" ++ name ++ ";" ++ t) = replacement name ++ decode t.
Proof.
  intros Hn. unfold decode at 1. change ("&" ++ name ++ ";" ++ t) with (38%N :: name ++ 59%N :: t).
  cbn [decode_from]. change (lit "&") with [38%N]. change (lit ";") with [59%N].
  assert (find_sub [38%N] (38%N :: name ++ 59%N :: t) = Some 0) as -> by (apply (find_sub_here 38 [] []); apply not_elem_of_nil).
  cbn [take drop app].
  change (38%N :: name ++ 59%N :: t) with ((38%N :: name) ++ 59%N :: t).
  rw (find_sub_here 59 [] (38%N :: name)); [by apply not_elem_of_cons|].
  rw take_app_length drop_app_add. change (drop 1 (38%N :: name)) with name.
  change (drop 1 (59%N :: t)) with t. f_equal. apply decode_from_enough.
  rw length_app. cbn. lia.
Qed.

Lemma digits_no_semicolon n : (n < 2 ^ 64)%N -> 59%N ∉ show_N n.
Proof.
  intros Hn Hi. pose proof (parse_digits_all _ _ _ (parse_digits_show n Hn)) as H.
  rw Forall_forall in H. by apply H in Hi.
Qed.

Lemma scalar_bound c : is_scalar c = true -> (c < 1114112)%N.
Proof.
  unfold is_scalar. rw orb_true_iff andb_true_iff !N.ltb_lt. intros [Hc|[_ Hc]]; lia.
Qed.

Lemma entity_name name r : entity name = Some r -> 59%N ∉ name.
Proof.
  unfold entity. intros H. apply find_map_Some in H as ([n x] & Hi & H). cbn in H.
  destruct (str_eqb n name) eqn:E; [|done]. apply str_eqb_eq in E as <-.
  assert (forallb (fun e : str * str => bool_decide (59%N ∉ e.1))
    [(lit "amp", lit "&"); (lit "lt", lit "<"); (lit "gt", lit ">"); (lit "quot", dquote); (lit "apos", lit "'");
     (lit "nbsp", lit " "); (lit "ndash", lit "–"); (lit "mdash", lit "—")] = true) as Hb by (vm_compute; reflexivity).
  rw forallb_forall in Hb. apply list_elem_of_In in Hi. by apply Hb, bool_decide_eq_true in Hi.
Qed.

Lemma replacement_number c : is_scalar c = true -> replacement ("#" ++ show_N c) = [c].
Proof.
  intros Hc. pose proof (scalar_bound c Hc) as Hb. unfold replacement.
  assert (entity ("#" ++ show_N c) = None) as -> by done.
  rw (proj2 (strip_prefix_Some _ _ _) eq_refl). cbn [mbind option_bind].
  unfold parse_u32. rw (parse_digits_not_plus _ c); [apply parse_digits_show; lia|apply show_N_nonempty|].
  rw (proj2 (N.ltb_lt _ _)); [lia|]. cbn [mbind option_bind]. by rw /from_u32 Hc.
Qed.

(** Decoding undoes these ways of writing a text, and does so in one pass: what an entity
    stands for is not decoded again. *)
Lemma decode_encoded s t : encodes s t -> decode t = s.
Proof.
  induction 1 as [|c s t Hc _ IH|name r s t Hn _ IH|c s t Hc _ IH].
  - done.
  - unfold decode. rw decode_from_cons // decode_from_enough /=; [lia|by rw IH].
  - rw decode_entity; [by eapply entity_name|]. by rw IH /replacement Hn.
  - change ("&#" ++ show_N c ++ ";" ++ t) with (lit "&" ++ (lit "#" ++ show_N c) ++ ";" ++ t).
    pose proof (scalar_bound c Hc). rw decode_entity.
    + apply not_elem_of_cons. split; [done|]. apply digits_no_semicolon. lia.
    + by rw IH replacement_number.
Qed.

Lemma decode_encoded_witness : decode "a &lt; &#38;amp; b" = lit "a < &amp; b".
Proof.
  apply (decode_encoded (lit "a < &amp; b") (lit "a &lt; &#38;amp; b")).
  apply encodes_char, encodes_char; [done..|].
  apply (encodes_named (lit "lt") (lit "<") (lit " &amp; b") (lit " &#38;amp; b")); [done|].
  apply encodes_char; [done|]. apply (encodes_number 38 (lit "amp; b") (lit "amp; b")); [done|].
  repeat (apply encodes_char; [done|]). apply encodes_nil.
Defined.

Lemma hexadecimal_kept : decode "&#x26;" = lit "&#x26;".
Proof. vm_compute. reflexivity. Qed.

(** ** The target of a request *)

(** An address that is in no internal block. *)
Definition public (addr : IpAddr) : Prop := wf_addr addr /\ ~ internal_address addr.

Lemma public_iff addr : wf_addr addr -> is_internal_addr addr = false -> public addr.
Proof.
  intros Hw Hi. split; [done|]. intros H. apply is_internal_blocks_lemma in H; [congruence|done].
Qed.

Section Target.
Context `{Network} `{RegexCaptures}.

(** Where a client connects for a URL: to the address it is pinned to, which the second
    resolution gave, or, unpinned, to the address in the URL.  For a name that has no
    address the client is not pinned either: it asks once more when it connects. *)
Definition safe_target (client : Client) (url : str) : Prop :=
  exists host, extract_host percent_decode url = Some host
  /\ match pinned client with
     | Some (h, sa) =>
         h = host /\ public sa.1
         /\ exists port addrs, resolve2 (host ++ ":" ++ show_N port) = Some addrs /\ head addrs = Some sa
            /\ Forall (fun x => public x.1) addrs
     | None =>
         (exists ip, parse_ip host = Some ip /\ public ip)
         \/ (parse_ip host = None /\ exists port, resolve2 (host ++ ":" ++ show_N port) = Some [])
     end.

Lemma not_existsb_internal (addrs : list SocketAddr) :
  Forall (fun sa => wf_addr sa.1) addrs -> existsb (fun sa => is_internal_addr sa.1) addrs = false ->
  Forall (fun sa => public sa.1) addrs.
Proof.
  induction 1 as [|sa addrs Hw _ IH]; [by intros; apply Forall_nil_2|]. cbn [existsb].
  intros [H1 H2]%orb_false_iff. apply Forall_cons. split; [by apply public_iff|by apply IH].
Qed.

Lemma new_client_unpinned : pinned new_client = None.
Proof. unfold new_client, fallback_client. by repeat case_match. Qed.

Lemma new_client_policy : client_builds None = true -> redirect new_client = PolicyNone.
Proof. intros Hb. unfold new_client. by rw Hb. Qed.

Lemma unwrap_pin url pin :
  resolve_and_pin_dns url = Ok pin -> pinned (unwrap_or new_client pin) = None -> unwrap_or new_client pin = new_client.
Proof. unfold resolve_and_pin_dns. repeat case_match; try done; by intros [= <-]. Qed.

Lemma pin_safe url pin :
  (forall p addrs, resolve2 p = Some addrs -> Forall (fun sa => wf_addr sa.1) addrs) ->
  host_is_literal_internal_ip percent_decode url = false ->
  resolve_and_pin_dns url = Ok pin -> safe_target (unwrap_or new_client pin) url.
Proof.
  intros Hr Hl. unfold resolve_and_pin_dns, safe_target. unfold host_is_literal_internal_ip in Hl.
  destruct (extract_host percent_decode url) as [host|]; [|done].
  destruct (parse_ip host) as [ip|] eqn:Ei; cbn [is_some_b].
  { intros [= <-]. exists host. split; [done|]. cbn [unwrap_or]. rw new_client_unpinned. left. exists ip. split; [done|].
    apply public_iff; [by eapply parse_ip_wf|done]. }
  destruct (resolve2 _) as [[|sa addrs]|] eqn:Er; [..|done].
  { intros [= <-]. exists host. split; [done|]. cbn [unwrap_or]. rw new_client_unpinned. right. eauto. }
  pose proof (Hr _ _ Er) as Hw. case_match eqn:Ex; [done|].
  pose proof (not_existsb_internal (sa :: addrs) Hw Ex) as Hp.
  destruct (client_builds (Some (host, sa))); [|done]. intros [= <-]. exists host. split; [done|].
  split; [done|]. split; [by apply Forall_cons in Hp as [? _]|]. exists (extract_port_from_url url). eauto.
Qed.


(** The body is read whole or not at all: it is the concatenation of the chunks when all
    of them arrive, none is cut off by the token and the whole is within the cap. *)
Lemma read_body_exact buf chunks b i cancelled :
  (N.of_nat (length buf) <= MAX_BODY_BYTES)%N -> (forall j, cancelled j = false) ->
  read_body cancelled i buf chunks = Ok b
  <-> exists bs, chunks = map Ok bs /\ b = buf ++ concat bs /\ (N.of_nat (length b) <= MAX_BODY_BYTES)%N.
Proof.
  intros Hb Hc. revert buf i Hb. induction chunks as [|[chunk|e] chunks IH]; intros buf i Hb;
    cbn [read_body]; rw Hc.
  - split.
    + intros [= <-]. exists []. by rw app_nil_r.
    + intros ([|] & He & -> & _); [|done]. by rw app_nil_r.
  - destruct (N.ltb_spec MAX_BODY_BYTES (N.of_nat (length buf + length chunk))) as [Hl|Hl].
    + split; [done|]. intros ([|x bs] & He & -> & Hn); [done|]. injection He as <- _. exfalso.
      cbn in Hn. rw !length_app in Hn. lia.
    + rw IH; [rw length_app; lia|]. split.
      * intros (bs & -> & -> & Hn). exists (chunk :: bs). cbn [concat map]. by rw !app_assoc in Hn |- *.
      * intros ([|x bs] & He & -> & Hn); [done|]. injection He as <- ->. exists bs. cbn [concat] in Hn |- *.
        by rw !app_assoc in Hn |- *.
  - split; [done|]. by intros ([|] & He & _).
Qed.
End Target.

(** ** Witnesses *)

(** A network where [www.example.com] redirects to [elsewhere]. *)
Definition redirecting (elsewhere : str) : Network := {|
  percent_decode s := s;
  resolve1 _ := Some [(V4 93 184 216 34, 80%N)];
  resolve2 _ := Some [(V4 93 184 216 34, 80%N)];
  port_or_known_default _ := Some 80%N;
  client_builds _ := true;
  build_request _ := Ok tt;
  execute c url :=
    (Ok (mkResponse 200 (Some (lit "text/plain")) [Ok (utf8_encode (lit "hello"))]),
     match redirect c with
     | PolicyNone => []
     | PolicyDefault => if contains url "//www." then [elsewhere] else []
     end);
  status_text n := show_N n
|}.
Definition demo_net : Network := redirecting "http://example.com/".
Definition demo_regex : RegexCaptures := fun _ _ => [].
Definition demo_token : Token := mkToken false false (fun _ => false).
Definition demo_deny : DenyList := DenyList_default (fun _ => None).
Definition demo_client : Client := mkClient (Some (lit "example.com", (V4 93 184 216 34, 80%N))) PolicyDefault.

Lemma demo_fetch :
  web_fetch (H := demo_net) (H0 := demo_regex) demo_deny demo_token (JObj [(lit "url", JStr "http://example.com/a")])
  = (Success (wrap_untrusted "hello"), [(demo_client, lit "http://example.com/a")]).
Proof. vm_compute. reflexivity. Qed.


(** The client that is pinned to a public address follows a redirect to an internal one:
    the guards have not seen that URL, and reject it when it is the one of the call. *)
Lemma redirect_escapes :
  let metadata := lit "http://169.254.169.254/latest" in
  map snd (web_fetch (H := redirecting metadata) (H0 := demo_regex) demo_deny demo_token
     (JObj [(lit "url", JStr "http://www.example.com/")])).2
  = [lit "http://www.example.com/"; metadata]
  /\ (web_fetch (H := redirecting metadata) (H0 := demo_regex) demo_deny demo_token (JObj [(lit "url", JStr metadata)])).2 = [].
Proof. vm_compute. done. Qed.

Lemma read_body_exact_witness :
  read_body (fun _ => false) 0 [] [Ok [1%N]; Ok [2%N]] = Ok [1%N; 2%N].
Proof.
  apply (read_body_exact [] [Ok [1%N]; Ok [2%N]] [1%N; 2%N] 0 (fun _ => false)); [done|done|].
  exists [[1%N]; [2%N]]. done.
Defined.

(** The fragment form passes all the guards, and the client is pinned for another host than
    the one of the URL. *)
Lemma fragment_passes_guards :
  (web_fetch (H := demo_net) (H0 := demo_regex) demo_deny demo_token
     (JObj [(lit "url", JStr "http://127.0.0.1#@example.com/")])).2
  = [(demo_client, lit "http://127.0.0.1#@example.com/")].
Proof. vm_compute. reflexivity. Qed.

(** The deny list compares the URL as it is written: in another case the metadata address
    outside the internal blocks is fetched. *)
Lemma metadata_case_passes :
  (web_fetch (H := demo_net) (H0 := demo_regex) demo_deny demo_token
     (JObj [(lit "url", JStr "http://100.100.100.200/latest")])).2 = []
  /\ (web_fetch (H := demo_net) (H0 := demo_regex) demo_deny demo_token
     (JObj [(lit "url", JStr "HTTP://100.100.100.200/latest")])).2
  = [(mkClient None PolicyNone, lit "HTTP://100.100.100.200/latest")].
Proof. vm_compute. done. Qed.
