(* ===== verification/EditFile.v ===== *)
(** * Editing a file (src/tools/edit_file.rs)

    The tool [edit_file]: the exact replacement, the fallback that matches lines up to
    the white space at their end and maps them back to byte offsets of the original
    text, the review of the diff, and the guarded write with its snapshot.

    Parameters: those of [FileTools], and the line diff of the crate [similar]
    ([text_diff]). *)

From Stdlib Require Import ssreflect.
From S2P Require Import Prelude Machine BashSafety Undo Offload BudgetGuard Minify Paths PathGuard FileTools.

(** ** Matching and replacing *)

Fixpoint count_from (skip : nat) (s p : str) : nat :=
  match s with
  | [] => 0
  | _ :: s' =>
      match skip with
      | S k => count_from k s' p
      | O => if starts_with s p then S (count_from (length p - 1) s' p) else count_from 0 s' p
      end
  end.

(** [content.matches(old).count()]: occurrences that do not overlap; the empty text
    occurs at every position. *)
Definition match_count (content old : str) : nat :=
  if str_eqb old [] then S (length content) else count_from 0 content old.

(** [str::replace]. *)
Definition replace_every (content old new : str) : str :=
  if str_eqb old [] then new ++ (content ≫= fun c => c :: new) else replace content old new.

(** [content.replacen(old, new, 1)]. *)
Definition replace_first (content old new : str) : str :=
  match find_sub old content with
  | Some i => take i content ++ new ++ drop (i + length old) content
  | None => content
  end.

(** ** The fallback *)

Definition nl : str := [newline].

(** The lines without the white space at their end. *)
Definition normalize_ws (s : str) : str := join nl (map trim_end (lines s)).

(** [windows(o.len()).position(|w| w == o)]. *)
Fixpoint find_window (o n : list str) : option nat :=
  if bool_decide (take (length o) n = o) then Some 0
  else match n with
       | [] => None
       | _ :: n' => S <$> find_window o n'
       end.

(** [match_indices('\n')]: byte offsets. *)
Fixpoint nl_positions (off : N) (s : str) : list N :=
  match s with
  | [] => []
  | c :: s' =>
      if (c =? newline)%N then off :: nl_positions (off + 1) s'
      else nl_positions (off + str_len [c]) s'
  end.

Definition line_byte_start (content : str) (ps : list N) (i : nat) : N :=
  match i with
  | O => 0%N
  | S j => match ps with
           | [] => 0%N
           | _ => match ps !! j with Some p => (p + 1)%N | None => str_len content end
           end
  end.

Definition byte_at (s : str) (i : N) : option N := utf8_encode s !! N.to_nat i.

Definition line_byte_end (content : str) (ps : list N) (i : nat) : N :=
  match ps !! i with
  | Some p =>
      if (0 <? p)%N && bool_decide (byte_at content (p - 1) = Some 13%N) then (p - 1)%N else p
  | None => str_len content
  end.

(** Replacing the bytes from [i] to [j]; [None] is a slice that cuts a character, or
    ends before it starts. *)
Definition splice (content new : str) (i j : N) : option str :=
  if (j <? i)%N then None
  else match split_at_byte content i, split_at_byte content j with
       | Some (pre, _), Some (_, post) => Some (pre ++ new ++ post)
       | _, _ => None
       end.

(** What an edit comes to: an outcome without a write, or the new content with the text
    that the review measures. *)
Inductive Plan :=
| Refuse (o : Outcome)
| Apply (new_content reviewed : str)
| Panic.

Definition not_found (path content : str) : Plan :=
  let shown := take 10 (lines content) in
  Refuse (execution ("String not found in " ++ path ++ ". First " ++ show_nat (length shown)
                     ++ " lines:" ++ nl ++ join nl shown)).

Definition fuzzy_plan (path content old new : str) : Plan :=
  let normalized := normalize_ws content in
  let old_normalized := normalize_ws old in
  if str_eqb old_normalized [] then
    Refuse (Error ("old_string is empty or whitespace-only in " ++ path
                   ++ "; edit_file requires a non-empty old_string"))
  else if contains normalized old_normalized then
    let n := match_count normalized old_normalized in
    if 1 <? n then
      Refuse (execution ("old_string matches " ++ show_nat n ++ " times in " ++ path
                ++ " after whitespace normalization; edit_file requires a unique match"))
    else
      let o_lines := lines old_normalized in
      match find_window o_lines (lines normalized) with
      | Some i =>
          let ps := nl_positions 0 content in
          match splice content new (line_byte_start content ps i)
                  (line_byte_end content ps (i + length o_lines - 1)) with
          | Some new_content => Apply new_content old_normalized
          | None => Panic
          end
      | None => not_found path content
      end
  else not_found path content.

Definition ambiguous (dry : bool) (path : str) (n : nat) : Outcome :=
  execution ((if dry then lit "Dry run: " else []) ++ "old_string matches " ++ show_nat n ++ " times in "
    ++ path ++ "; edit_file requires a unique match (set replace_all"
    ++ (if dry then lit ": " else lit "=") ++ "true to replace all)").

Definition exact_content (content old new : str) (replace_all : bool) : str :=
  if replace_all then replace_every content old new else replace_first content old new.

Definition plan_edit (path content old new : str) (replace_all : bool) : Plan :=
  if negb (contains content old) then fuzzy_plan path content old new
  else if negb replace_all && (1 <? match_count content old)
  then Refuse (ambiguous false path (match_count content old))
  else Apply (exact_content content old new replace_all) old.

(** ** Review and write *)

Section Edit.
Context `{UnicodeCase} `{UnicodeAlnum} {U : Type} `{UndoLog U}.
Variable tilde : str -> str.
Variable gitignored : str -> bool.
Variable formatter : str -> list str -> str -> option str.
Variable text_diff : str -> str -> list (ChangeTag * str).

Definition tag_mark (t : ChangeTag) : str :=
  match t with Delete => "-" | Insert => "+" | Equal => " " end.

Definition render_diff (old new : str) : str :=
  text_diff old new ≫= fun c => tag_mark c.1 ++ c.2.

Definition is_delete (c : ChangeTag * str) : bool :=
  match c.1 with Delete => true | _ => false end.
Definition is_change (c : ChangeTag * str) : bool :=
  match c.1 with Equal => false | _ => true end.

(** [{:.1}] of [d / n], rounded half to even on the tenths. *)
Definition show_ratio (d n : nat) : str :=
  let t := 10 * d / n in
  let r := 2 * ((10 * d) mod n) in
  let t := if (n <? r) || ((r =? n) && Nat.odd t) then t + 1 else t in
  show_nat (t / 10) ++ "." ++ show_nat (t mod 10).

Definition review_diff (path old new old_string : str) : option str :=
  let changes := text_diff old new in
  let deletions := length (List.filter is_delete changes) in
  if negb (existsb is_change changes) then
    Some ("DIFF_REVIEW: edit to " ++ path ++ " produced an empty diff "
          ++ "(old_string already matches or content unchanged). Edit not applied.")
  else
    let old_lines := length (lines old_string) in
    if negb (str_eqb old_string []) && (0 <? old_lines) && (old_lines <? 5)
       && (10 * old_lines <? deletions)
    then Some ("DIFF_REVIEW: edit to " ++ path ++ " deletes " ++ show_nat deletions
          ++ " lines but old_string is only " ++ show_nat old_lines ++ " lines (ratio="
          ++ show_ratio deletions old_lines ++ "). Likely wrong line range. Edit not applied.")
    else None.

Definition write_denied (conf : ToolConf) (path content new_content old_string diff : str)
    : option Outcome :=
  match (if diff_review conf then review_diff path content new_content old_string else None) with
  | Some m => Some (execution m)
  | None =>
      if block_edits conf && negb (dry_run conf)
      then Some (execution ("BLOCK_EDITS: edit to " ++ path ++ " is blocked (--harden mode). Diff:"
                            ++ nl ++ diff))
      else None
  end.

(** The guarded write of the new content, and the snapshot. *)
Definition apply_edit (conf : ToolConf) (io : WriteIo) (w : World U)
    (path content new_content reviewed : str) (existed : bool) (prev : list N)
    : Outcome * World U :=
  let diff := render_diff content new_content in
  match write_denied conf path content new_content reviewed diff with
  | Some o => (o, w)
  | None =>
      let '(r, fs') := atomic_write (tree_of w) io path (utf8_encode new_content) in
      match r with
      | Err e => (internal ("Cannot write " ++ path ++ ": " ++ errno_text e), with_tree w fs')
      | Ok _ =>
          let '(s, w') := snapshot_for_undo Edit path existed prev (with_tree w fs') in
          (match s with
           | Ok _ => FileEdit path diff
           | Err e => internal ("Edited " ++ path ++ ", but undo snapshot failed: " ++ e
                        ++ ". The edit was applied; use git to revert if needed.")
           end, w')
      end
  end.

Definition dry_edit (path content old new : str) (replace_all any_expanded : bool) : Outcome :=
  if negb (contains content old)
  then execution ("Dry run: string not found in " ++ path)
  else if (1 <? match_count content old) && negb replace_all
  then ambiguous true path (match_count content old)
  else Success ("Dry run" ++ expanded_note any_expanded ++ ": would edit " ++ path ++ ":" ++ nl
                ++ render_diff content (exact_content content old new replace_all)).

Definition bool_arg (args : json) (key : string) (d : bool) : bool :=
  match json_get args key with Some (JBool b) => b | _ => d end.

(** [EditFile::run] after the guard and the arguments; [None] is a panic. *)
Definition edit_with (conf : ToolConf) (io : WriteIo) (path old new : str) (replace_all : bool)
    (w : World U) : option (Outcome * World U) :=
  match previous (tree_of w) path "edit" with
  | Err o => Some (o, w)
  | Ok (existed, prev) =>
      match from_utf8 prev with
      | None => Some (internal (path ++ " is not valid UTF-8; cannot edit_file (use bash for binary content)"), w)
      | Some content =>
          match expand_if formatter conf content, expand_if formatter conf old,
                expand_if formatter conf new with
          | Some (content, x), Some (old, y), Some (new, z) =>
              if dry_run conf
              then Some (dry_edit path content old new replace_all (x || y || z), w)
              else match plan_edit path content old new replace_all with
                   | Panic => None
                   | Refuse o => Some (o, w)
                   | Apply new_content reviewed =>
                       Some (apply_edit conf io w path content new_content reviewed existed prev)
                   end
          | _, _, _ => None
          end
      end
  end.

(** [EditFile::run]. *)
Definition edit_file (conf : ToolConf) (io : WriteIo) (args : json) (w : World U)
    : option (Outcome * World U) :=
  match string_arg args "path" with
  | None => Some (invalid_args "Missing 'path' argument", w)
  | Some p =>
      let path := tilde p in
      match check_write gitignored (tree_of w) (path_guard conf) path with
      | Denied m => Some (access_denied m, w)
      | Allowed _ =>
          match string_arg args "old_string" with
          | None => Some (invalid_args "Missing 'old_string' argument", w)
          | Some old =>
              match string_arg args "new_string" with
              | None => Some (invalid_args "Missing 'new_string' argument", w)
              | Some new => edit_with conf io path old new (bool_arg args "replace_all" false) w
              end
          end
      end
  end.
End Edit.

(** ** Lines and byte offsets *)

(** The text of whole lines. *)
Definition unlines (l : list str) : str := l ≫= fun p => p ++ nl.

Definition line_texts (l : list str) : Prop := Forall (fun p => newline ∉ p) l.

Lemma join_take_drop l i :
  i < length l -> join nl l = unlines (take i l) ++ join nl (drop i l).
Proof.
  revert l. induction i as [|i IH]; intros l Hi; [done|].
  destruct l as [|p l]; [simpl in Hi; lia|]. simpl in Hi.
  destruct l as [|q l]; [simpl in Hi; lia|].
  change (join nl (p :: q :: l)) with (p ++ nl ++ join nl (q :: l)).
  assert (i < length (q :: l)) as Hi' by (simpl in *; lia). rw (IH (q :: l) Hi'). change (take (S i) (p :: q :: l)) with (p :: take i (q :: l)).
  change (drop (S i) (p :: q :: l)) with (drop i (q :: l)).
  change (unlines (p :: take i (q :: l))) with ((p ++ nl) ++ unlines (take i (q :: l))).
  by rw !app_assoc.
Qed.

Lemma nl_positions_plain off p : (newline ∉ p) -> nl_positions off p = [].
Proof.
  revert off. induction p as [|c p IH]; intros off Hn; [done|]. simpl.
  apply not_elem_of_cons in Hn as [Hc Hn]. rw (proj2 (N.eqb_neq c _)); [congruence|]. by apply IH.
Qed.

Lemma nl_positions_line off p r :
  (newline ∉ p) ->
  nl_positions off (p ++ newline :: r) = (off + str_len p)%N :: nl_positions (off + str_len p + 1) r.
Proof.
  revert off. induction p as [|c p IH]; intros off Hn.
  - simpl. by rw N.add_0_r.
  - apply not_elem_of_cons in Hn as [Hc Hn]. cbn [app nl_positions].
    rw (proj2 (N.eqb_neq c _)); [congruence|]. rw (IH _ Hn).
    rw (str_len_app [c] p : str_len (c :: p) = _). by rw !N.add_assoc.
Qed.

(** The offset of the line feed after line [i]. *)
Lemma nl_positions_lookup l off i :
  l <> [] -> line_texts l ->
  nl_positions off (join nl l) !! i
  = if S i <? length l then Some (off + str_len (unlines (take i l)) + str_len (nth i l []))%N
    else None.
Proof.
  intros Hne Hl. revert off i. induction Hl as [|p l Hp Hl IH]; [done|]. intros off i.
  destruct l as [|q l]; [simpl; by rw nl_positions_plain|].
  change (join nl (p :: q :: l)) with (p ++ newline :: join nl (q :: l)).
  rw nl_positions_line //. destruct i as [|i].
  - simpl. by rw N.add_0_r.
  - change (take (S i) (p :: q :: l)) with (p :: take i (q :: l)).
    change (unlines (p :: take i (q :: l))) with ((p ++ nl) ++ unlines (take i (q :: l))).
    change ((?a :: ?k) !! S i) with (k !! i). rw (IH ltac:(done)).
    change (S (S i) <? length (p :: q :: l)) with (S i <? length (q :: l)).
    change (nth (S i) (p :: q :: l) []) with (nth i (q :: l) []).
    rw !str_len_app. by rw !N.add_assoc.
Qed.

Lemma line_start_spec l i :
  l <> [] -> line_texts l -> i < length l ->
  line_byte_start (join nl l) (nl_positions 0 (join nl l)) i = str_len (unlines (take i l)).
Proof.
  intros Hne Hl Hi. destruct i as [|i]; [done|]. cbn [line_byte_start].
  pose proof (nl_positions_lookup l 0 i Hne Hl) as H.
  rw (proj2 (Nat.ltb_lt (S i) (length l)) Hi) in H.
  destruct (nl_positions 0 (join nl l)) as [|x ps] eqn:E; [done|]. rw H N.add_0_l.
  assert (take (S i) l = take i l ++ [nth i l []]) as ->.
  { apply take_S_r. rw nth_lookup. destruct (l !! i) eqn:El; [done|].
    apply lookup_ge_None in El. lia. }
  unfold unlines. rw bind_app str_len_app. simpl. rw app_nil_r str_len_app. by rw N.add_assoc.
Qed.

Lemma last_byte_char c : last (utf8_encode_char c) = Some 13%N -> c = 13%N.
Proof.
  unfold utf8_encode_char. repeat case_match; cbn [last]; intros Hc; apply (inj Some) in Hc;
    [done|exfalso; revert Hc; generalize (c mod 64)%N; intros m Hc; lia..].
Qed.

Lemma utf8_char_pos c : 0 < length (utf8_encode_char c).
Proof. unfold utf8_encode_char. repeat case_match; simpl; lia. Qed.

(** The byte before the end of [s] is a carriage return when its last character is. *)
Lemma byte_at_last s r :
  s <> [] -> byte_at (s ++ r) (str_len s - 1) = Some 13%N <-> exists q, s = q ++ [13%N].
Proof.
  intros Hne. destruct (exists_last Hne) as (q & c & ->).
  unfold byte_at. rw utf8_encode_app.
  assert (last (utf8_encode (q ++ [c])) = utf8_encode ((q ++ [c]) ++ r) !! N.to_nat (str_len (q ++ [c]) - 1)) as E.
  { rw last_lookup (utf8_encode_app (q ++ [c]) r). unfold str_len, byte_len.
    assert (0 < length (utf8_encode (q ++ [c]))) as Hpos.
    { rw utf8_encode_app length_app. cbn [utf8_encode mbind list_bind]. rw app_nil_r.
      pose proof (utf8_char_pos c). lia. }
    rw lookup_app_l; [lia|]. f_equal. lia. }
  rw -utf8_encode_app -E utf8_encode_app. cbn [utf8_encode mbind list_bind]. rw app_nil_r last_app.
  split.
  - intros H. exists q. f_equal. f_equal.
    destruct (last (utf8_encode_char c)) as [x|] eqn:El.
    + apply last_byte_char. congruence.
    + revert El. unfold utf8_encode_char. by repeat case_match.
  - intros (q' & E'). apply app_inj_tail in E' as [_ ->]. done.
Qed.

(** The text of line [i] up to its terminator. *)
Definition line_body (l : list str) (i : nat) : str :=
  if S i <? length l then strip_cr (nth i l []) else nth i l [].

Lemma unlines_end l : l <> [] -> exists u, unlines l = u ++ nl.
Proof.
  intros Hne. destruct (exists_last Hne) as (k & p & ->). unfold unlines. rw bind_app.
  simpl. rw app_nil_r. exists ((k ≫= fun p => p ++ nl) ++ p). by rw app_assoc.
Qed.

Lemma line_end_spec l i :
  l <> [] -> line_texts l -> i < length l ->
  line_byte_end (join nl l) (nl_positions 0 (join nl l)) i
  = str_len (unlines (take i l) ++ line_body l i).
Proof.
  intros Hne Hl Hi. unfold line_byte_end, line_body. rw (nl_positions_lookup l 0 i Hne Hl).
  pose proof (join_take_drop l i Hi) as Hj.
  destruct (lookup_lt_is_Some_2 l i Hi) as [p Hp].
  rw (nth_lookup_Some l i [] p Hp). rw (drop_S l p i Hp) in Hj.
  destruct (S i <? length l) eqn:Hlt.
  - apply Nat.ltb_lt in Hlt.
    assert (join nl l = (unlines (take i l) ++ p) ++ nl ++ join nl (drop (S i) l)) as ->.
    { rw Hj. destruct (drop (S i) l) eqn:E; [|by rw -!app_assoc].
      apply (f_equal length) in E. rw length_drop /= in E. lia. }
    rw N.add_0_l -str_len_app. set (s := unlines (take i l) ++ p). unfold strip_cr.
    assert (forall q, s = q ++ [13%N] <-> exists q', p = q' ++ [13%N] /\ q = unlines (take i l) ++ q') as Hcr.
    { intros q. unfold s. split; [|intros (q' & -> & ->); by rw app_assoc].
      destruct p as [|c p' _] using rev_ind; [|].
      - rw app_nil_r. destruct (take i l) as [|x k] eqn:Et; [by destruct q|].
        destruct (unlines_end (x :: k) ltac:(done)) as [u ->]. by intros [_ [=]]%app_inj_tail.
      - rw app_assoc. intros [<- ->]%app_inj_tail. by exists p'. }
    destruct (decide (s = [])) as [Es|Es].
    { rw Es str_len_nil. simpl. unfold s in Es. apply app_eq_nil in Es as [-> ->]. done. }
    destruct (ends_with p [13%N]) eqn:Ep.
    + apply ends_with_spec in Ep as [q Hq].
      assert (s = (unlines (take i l) ++ q) ++ [13%N]) as Hs by (apply Hcr; by exists q).
      rw bool_decide_eq_true_2; [apply (byte_at_last s _ Es); by eexists|].
      rw Hq removelast_last Hs str_len_app. assert (str_len [13%N] = 1%N) as -> by done.
      rw (proj2 (N.ltb_lt 0 _)); [lia|]. simpl. lia.
    + rw bool_decide_eq_false_2; [|by rw andb_false_r].
      intros (q & (q' & Hq & _)%Hcr)%(byte_at_last s _ Es). apply not_true_iff_false in Ep.
      apply Ep, ends_with_spec. by exists q'.
  - apply Nat.ltb_ge in Hlt. rw Hj. rw (drop_ge l (S i) Hlt). done.
Qed.

(** ** The fallback replaces the matched lines *)

Lemma trim_end_snoc_ws s c : is_whitespace c = true -> trim_end (s ++ [c]) = trim_end s.
Proof. intros Hc. unfold trim_end. rw rev_unit. cbn [trim_start]. by rw Hc. Qed.

Lemma trim_end_strip_cr p : trim_end (strip_cr p) = trim_end p.
Proof.
  unfold strip_cr. destruct (ends_with p [13%N]) eqn:E; [|done].
  apply ends_with_spec in E as [q ->]. by rw removelast_last trim_end_snoc_ws.
Qed.

Lemma lines_of_prefix (f : str -> str) l :
  (forall p, f (strip_cr p) = f p) -> exists rest, map f l = map f (lines_of l) ++ rest.
Proof.
  intros Hf. induction l as [|p [|q l] IH]; [by exists []| |].
  - simpl. case_decide; [by eexists|]. by exists [].
  - destruct IH as [rest IH]. exists rest.
    change (f p :: map f (q :: l) = f (strip_cr p) :: map f (lines_of (q :: l)) ++ rest).
    by rw IH Hf.
Qed.

Lemma trim_end_last s d : last (trim_end s) = Some d -> is_whitespace d = false.
Proof.
  unfold trim_end. intros [k E]%last_Some. apply (f_equal (@rev char)) in E.
  rw rev_involutive rev_unit in E. revert E. generalize (rev s) as t. intros t.
  induction t as [|c t IH]; simpl; [done|]. destruct (is_whitespace c) eqn:Ec; [done|].
  by intros [= <- _].
Qed.

Lemma strip_cr_trimmed s : strip_cr (trim_end s) = trim_end s.
Proof.
  unfold strip_cr. destruct (ends_with (trim_end s) [13%N]) eqn:E; [|done].
  apply ends_with_spec in E as [q E].
  assert (last (trim_end s) = Some 13%N) as Hl by (rw E; apply last_snoc).
  by apply trim_end_last in Hl.
Qed.

Lemma lines_of_trimmed l : exists rest, map trim_end l = lines_of (map trim_end l) ++ rest.
Proof.
  induction l as [|p [|q l] IH]; [by exists []| |].
  - simpl. case_decide as E; [by exists [trim_end p]|by exists []].
  - destruct IH as [rest IH]. exists rest.
    change (trim_end p :: map trim_end (q :: l)
      = strip_cr (trim_end p) :: lines_of (map trim_end (q :: l)) ++ rest).
    rw strip_cr_trimmed. by f_equal.
Qed.

Lemma trim_end_texts l : line_texts l -> line_texts (map trim_end l).
Proof.
  unfold line_texts. rw !List.Forall_forall. intros Hl x (p & <- & Hp)%in_map_iff Hx.
  apply (Hl p Hp). by apply trim_end_elem.
Qed.

Lemma lines_of_texts l : line_texts l -> line_texts (lines_of l).
Proof.
  induction l as [|p [|q l] IH]; [done| |]; intros Hl.
  - simpl. case_decide; [constructor|done].
  - apply Forall_cons in Hl as [Hp Hl]. constructor; [|by apply IH].
    unfold strip_cr. destruct (ends_with p [13%N]) eqn:E; [|done].
    apply ends_with_spec in E as [k ->]. rw removelast_last. set_solver.
Qed.

(** The lines the fallback searches are the first of the trimmed lines. *)
Lemma normalized_lines content :
  exists rest, map trim_end (split_char newline content) = lines (normalize_ws content) ++ rest.
Proof.
  set (l := split_char newline content).
  destruct (lines_of_prefix trim_end l trim_end_strip_cr) as [r1 H1].
  destruct (lines_of_trimmed (lines_of l)) as [r2 H2].
  assert (normalize_ws content = join nl (map trim_end (lines_of l))) as -> by done.
  destruct (map trim_end (lines_of l)) as [|x k] eqn:E; [by exists r1|].
  assert (lines (join nl (x :: k)) = lines_of (x :: k)) as ->.
  { unfold lines. f_equal. apply (split_join newline); [done|]. rw -E.
    apply trim_end_texts, lines_of_texts. apply piece_notin. }
  exists (r2 ++ r1). rw H1 app_assoc. by f_equal.
Qed.

Lemma find_window_Some o n i : find_window o n = Some i -> take (length o) (drop i n) = o.
Proof.
  revert i. induction n as [|x n IH]; intros i; simpl; case_bool_decide as E.
  - by intros [= <-].
  - done.
  - by intros [= <-].
  - destruct (find_window o n) as [j|]; [|done]. intros [= <-]. by apply IH.
Qed.

Lemma lines_nonempty s : s <> [] -> lines s <> [].
Proof.
  intros Hs Hl. apply Hs. rw -(split_char_join newline s). unfold lines in Hl.
  change (split_char 10 s) with (split_char newline s) in Hl.
  destruct (split_char newline s) as [|p [|q r]]; [done| |done]. simpl in Hl.
  by case_decide; subst.
Qed.

Lemma trim_end_line_body l j : trim_end (line_body l j) = trim_end (nth j l []).
Proof. unfold line_body. destruct (S j <? length l); [apply trim_end_strip_cr|done]. Qed.

(** What follows the body of a line: its terminator and the rest, or nothing. *)
Definition at_terminator (post : str) : Prop :=
  post = [] \/ exists r, post = nl ++ r \/ post = 13%N :: nl ++ r.

Lemma line_body_post l j :
  j < length l -> exists post, join nl (drop j l) = line_body l j ++ post /\ at_terminator post.
Proof.
  intros Hj. destruct (lookup_lt_is_Some_2 l j Hj) as [p Hp].
  rw (drop_S l p j Hp). unfold line_body. rw (nth_lookup_Some l j [] p Hp).
  destruct (S j <? length l) eqn:E.
  - apply Nat.ltb_lt in E. destruct (drop (S j) l) as [|q r] eqn:Ed.
    { apply (f_equal length) in Ed. rw length_drop /= in Ed. lia. }
    change (join nl (p :: q :: r)) with (p ++ nl ++ join nl (q :: r)).
    unfold strip_cr. destruct (ends_with p [13%N]) eqn:Ec.
    + apply ends_with_spec in Ec as [k ->]. rw removelast_last.
      exists (13%N :: nl ++ join nl (q :: r)). split; [by rw -app_assoc|].
      right. by eexists; right.
    + eexists. split; [done|]. right. by eexists; left.
  - apply Nat.ltb_ge in E. rw (drop_ge l (S j) E). exists []. split; [by rw app_nil_r|by left].
Qed.

(** The text of the lines from [i] to [j], the last one without its terminator. *)
Definition span_of (l : list str) (i j : nat) : str :=
  join nl (drop i (take j l) ++ [line_body l j]).

Lemma unlines_app l k : unlines (l ++ k) = unlines l ++ unlines k.
Proof. apply bind_app. Qed.

Lemma join_snoc_lines l p : join nl (l ++ [p]) = unlines l ++ p.
Proof.
  pose proof (join_take_drop (l ++ [p]) (length l)) as H. rw take_app_length drop_app_length in H.
  apply H. rw length_app /=. lia.
Qed.

Lemma span_split l i j :
  line_texts l -> j < length l -> i <= j ->
  map trim_end (split_char newline (span_of l i j)) = drop i (take (S j) (map trim_end l)).
Proof.
  intros Hl Hj Hij. unfold span_of. destruct (lookup_lt_is_Some_2 l j Hj) as [p Hp].
  rw (split_join newline).
  - by destruct (drop i (take j l)).
  - apply Forall_app. split; [by apply Forall_drop, Forall_take|]. constructor; [|done].
    unfold line_texts in Hl. rw Forall_lookup in Hl. specialize (Hl j p Hp).
    unfold line_body. rw (nth_lookup_Some l j [] p Hp).
    destruct (S j <? length l); [|done]. unfold strip_cr.
    destruct (ends_with p [13%N]) eqn:E; [|done]. apply ends_with_spec in E as [k ->].
    rw removelast_last. set_solver.
  - rw map_app /= trim_end_line_body (nth_lookup_Some l j [] p Hp).
    rw -(fmap_take trim_end) -fmap_drop.
    rw (take_S_r l j p Hp) drop_app_le; [rw length_take; lia|]. by rw fmap_app.
Qed.

Lemma fuzzy_splice content old new i :
  normalize_ws old <> [] ->
  let l := split_char newline content in
  let o := lines (normalize_ws old) in
  let ps := nl_positions 0 content in
  find_window o (lines (normalize_ws content)) = Some i ->
  exists pre span post, content = pre ++ span ++ post
    /\ splice content new (line_byte_start content ps i)
         (line_byte_end content ps (i + length o - 1)) = Some (pre ++ new ++ post)
    /\ map trim_end (split_char newline span) = o
    /\ (pre = [] \/ exists u, pre = u ++ nl) /\ at_terminator post.
Proof.
  intros Hold l o ps Hw%find_window_Some.
  pose proof (lines_nonempty _ Hold) as Ho. fold o in Ho.
  destruct (normalized_lines content) as [rest Hn]. fold l in Hn.
  set (n := lines (normalize_ws content)) in *.
  assert (0 < length o) as Hm by (destruct o; [done|simpl; lia]).
  assert (i + length o <= length n) as Hlen.
  { apply (f_equal length) in Hw. rw length_take length_drop in Hw. lia. }
  assert (length n <= length l) as Hnl.
  { apply (f_equal length) in Hn. rw length_map length_app in Hn. lia. }
  set (j := i + length o - 1). assert (i <= j < length l) as Hij by (unfold j; lia).
  assert (line_texts l) as Hl by apply piece_notin.
  assert (l <> []) as Hlne by apply split_char_nonempty.
  assert (content = join nl l) as Hc by (symmetry; apply (split_char_join newline)).
  destruct (line_body_post l j ltac:(lia)) as (post & Hpost & Hat).
  assert (unlines (take j l) ++ line_body l j = unlines (take i l) ++ span_of l i j) as Hspan.
  { unfold span_of. rw join_snoc_lines app_assoc -unlines_app.
    rw -{1}(take_drop i (take j l)) take_take Nat.min_l; [lia|done]. }
  assert (content = unlines (take i l) ++ span_of l i j ++ post) as Hcut.
  { rw Hc (join_take_drop l j ltac:(lia)) Hpost !app_assoc. by rw Hspan. }
  exists (unlines (take i l)), (span_of l i j), post. split_and!; [done| | | |done].
  - unfold ps. rw Hc (line_start_spec l i Hlne Hl ltac:(lia)) (line_end_spec l j Hlne Hl ltac:(lia)).
    rw -Hc Hspan. unfold splice. rw (proj2 (N.ltb_ge _ _)); [rw str_len_app; lia|].
    rw (proj2 (split_at_byte_spec content _ (unlines (take i l)) (span_of l i j ++ post))) //.
    rw (proj2 (split_at_byte_spec content _ (unlines (take i l) ++ span_of l i j) post)) //.
    by rw -app_assoc.
  - rw (span_split l i j Hl ltac:(lia) ltac:(lia)) Hn.
    assert (take (S j) (n ++ rest) = take (S j) n) as ->
      by (rw take_app_le; [unfold j; lia|done]).
    assert (S j = i + length o) as -> by (unfold j; lia). by rw -take_drop_commute.
  - destruct (take i l) as [|x k] eqn:E; [by left|]. right. by apply unlines_end.
Qed.

(** ** The exact replacement *)

Lemma count_from_skip k s p : count_from k s p = count_from 0 (drop k s) p.
Proof.
  revert s. induction k as [|k IH]; intros s; [done|]. destruct s as [|c s]; [done|]. apply IH.
Qed.

Lemma count_from_find s p :
  p <> [] ->
  count_from 0 s p
  = match find_sub p s with
    | None => 0
    | Some i => S (count_from 0 (drop (i + length p) s) p)
    end.
Proof.
  intros Hp. induction s as [|c s IH]; [by destruct p|]. cbn [count_from find_sub].
  destruct (starts_with (c :: s) p).
  - rw count_from_skip. destruct p as [|x p]; [done|]. simpl. by rw Nat.sub_0_r.
  - rw IH. by destruct (find_sub p s).
Qed.

Lemma find_sub_le p s i : find_sub p s = Some i -> i <= length s.
Proof.
  revert i. induction s as [|c s IH]; intros i; cbn [find_sub].
  - destruct (starts_with [] p); [|done]. intros [= <-]. simpl. lia.
  - destruct (starts_with (c :: s) p); [intros [= <-]; lia|].
    destruct (find_sub p s) as [j|]; [|done]. intros [= <-]. specialize (IH j eq_refl). simpl. lia.
Qed.

Lemma unique_match content old :
  contains content old = true -> (1 <? match_count content old) = false ->
  exists a b, content = a ++ old ++ b /\ find_sub old content = Some (length a)
    /\ contains b old = (if str_eqb old [] then true else false).
Proof.
  intros Hc Hn. destruct (find_sub old content) as [i|] eqn:Hf;
    [|apply find_sub_None in Hf; congruence].
  pose proof (find_sub_Some _ _ _ Hf) as Hs.
  exists (take i content), (drop (i + length old) content).
  assert (length (take i content) = i) as Hi.
  { rw length_take. apply find_sub_le in Hf. lia. }
  rw Hi. split_and!; [done|done|]. apply Nat.ltb_ge in Hn. unfold match_count in Hn.
  destruct (str_eqb old []) eqn:He.
  - apply str_eqb_eq in He as ->. by destruct (drop _ _).
  - apply str_eqb_neq in He. rw (count_from_find content old He) Hf in Hn.
    rw (count_from_find _ old He) in Hn. apply find_sub_None.
    destruct (find_sub old (drop (i + length old) content)) as [k|]; [|done].
    exfalso. apply le_S_n in Hn. by apply Nat.nle_succ_0 in Hn.
Qed.

(** How the new content comes from the old one. *)
Inductive edited (content old new : str) (replace_all : bool) : str -> Prop :=
| edited_once a b :
    replace_all = false -> content = a ++ old ++ b ->
    find_sub old content = Some (length a) ->
    contains b old = (if str_eqb old [] then true else false) ->
    edited content old new replace_all (a ++ new ++ b)
| edited_all :
    replace_all = true -> contains content old = true ->
    edited content old new replace_all (replace_every content old new)
| edited_lines pre span post :
    contains content old = false -> content = pre ++ span ++ post ->
    map trim_end (split_char newline span) = lines (normalize_ws old) ->
    (pre = [] \/ exists u, pre = u ++ nl) -> at_terminator post ->
    edited content old new replace_all (pre ++ new ++ post).

Lemma fuzzy_plan_spec path content old new :
  contains content old = false ->
  match fuzzy_plan path content old new with
  | Panic => False
  | Refuse _ => True
  | Apply nc r => r = normalize_ws old /\ forall b, edited content old new b nc
  end.
Proof.
  intros Hc. unfold fuzzy_plan.
  destruct (str_eqb (normalize_ws old) []) eqn:He; [done|]. apply str_eqb_neq in He.
  destruct (contains (normalize_ws content) (normalize_ws old)); [|done].
  destruct (1 <? _); [done|].
  destruct (find_window _ _) as [i|] eqn:Hw; [|done].
  destruct (fuzzy_splice content old new i He Hw) as (pre & span & post & Hcut & Hs & Hm & Hpre & Hpost).
  rw Hs. split; [done|]. intros b. by eapply edited_lines.
Qed.

Lemma plan_edit_lemma path content old new replace_all :
  match plan_edit path content old new replace_all with
  | Panic => False
  | Refuse _ => True
  | Apply nc r => edited content old new replace_all nc
  end.
Proof.
  unfold plan_edit. destruct (contains content old) eqn:Hc; cbn [negb].
  - destruct replace_all; cbn [negb andb]; [by apply edited_all|].
    destruct (1 <? match_count content old) eqn:Hn; [done|].
    destruct (unique_match content old Hc Hn) as (a & b & Hs & Hf & Hb).
    unfold exact_content, replace_first. rw Hf.
    assert (take (length a) content = a) as ->.
    { rw Hs. apply take_app_length. }
    assert (drop (length a + length old) content = b) as ->.
    { rw Hs app_assoc. apply drop_app_length'. by rw length_app. }
    by eapply edited_once.
  - pose proof (fuzzy_plan_spec path content old new Hc) as H.
    destruct (fuzzy_plan path content old new); [done| |done]. by apply H.
Qed.

(** The search does not count occurrences that overlap: [aa] occurs twice in [aaa], and
    the first occurrence is replaced. *)
Lemma overlapping_match_accepted path :
  plan_edit path "aaa" "aa" "b" false = Apply "ba" "aa".
Proof. reflexivity. Qed.

(** Two blank lines are white space only, and are accepted. *)
Lemma blank_lines_accepted path :
  plan_edit path ([32%N] ++ nl ++ [9%N]) (nl ++ nl) "x" false
  = Apply ("x" ++ nl ++ [9%N]) nl.
Proof. reflexivity. Qed.

(** ** What [edit_file] does *)

Section Done.
Context `{UnicodeCase} `{UnicodeAlnum} {U : Type} `{UndoLog U}.
Variable tilde : str -> str.
Variable gitignored : str -> bool.
Variable formatter : str -> list str -> str -> option str.
Variable text_diff : str -> str -> list (ChangeTag * str).

(** An edit of the file [path] that was made: the content is the file's, the new one is
    an edit of it, the entry is replaced and the old bytes are in the undo log. *)
Record edit_made (conf : ToolConf) (dir path old new : str) (all : bool) (w w' : World U) : Prop := {
  made_content : exists existed prev content nc x,
    previous (tree_of w) path "edit" = Ok (existed, prev)
    /\ (from_utf8 prev ≫= fun c => expand_if formatter conf c) = Some (content, x)
    /\ edited content old new all nc
    /\ wrote_below dir path (utf8_encode nc) (tree_of w) (tree_of w')
    /\ undo w' = (fun u => (log_push Edit path existed prev u).2) <$> undo w;
  made_allowed : block_edits conf = false /\ dry_run conf = false
}.

Lemma snapshot_undo k path existed prev (w : World U) :
  undo (snapshot_for_undo k path existed prev w).2
  = (fun u => (log_push k path existed prev u).2) <$> undo w.
Proof.
  unfold snapshot_for_undo. destruct (undo w) as [u|] eqn:E; [|done]. simpl.
  by destruct (log_push k path existed prev u).
Qed.

Lemma apply_edit_cases conf io (w : World U) path content nc reviewed existed prev dir q o w' :
  fs_wf (tree_of w) -> fresh_tmp (tree_of w) path io -> dry_run conf = false ->
  sandbox_dir (path_guard conf) = Some dir ->
  check_write gitignored (tree_of w) (path_guard conf) path = Allowed q ->
  apply_edit text_diff conf io w path content nc reviewed existed prev = (o, w') ->
  w' = w /\ (forall p d, o <> FileEdit p d)
  \/ block_edits conf = false /\ wrote_below dir path (utf8_encode nc) (tree_of w) (tree_of w')
     /\ undo w' = (fun u => (log_push Edit path existed prev u).2) <$> undo w.
Proof.
  intros Hw Hf Hdry Hd Hc. unfold apply_edit, write_denied.
  destruct (if diff_review conf then _ else None); [intros [= <- <-]; by left|].
  rw Hdry andb_true_r. destruct (block_edits conf); [intros [= <- <-]; by left|].
  pose proof (sandboxed_write gitignored (tree_of w) io _ dir path q (utf8_encode nc) Hw Hf Hd Hc) as Hs.
  destruct (atomic_write (tree_of w) io path (utf8_encode nc)) as [[u|e] fs'].
  - pose proof (snapshot_tree Edit path existed prev (with_tree w fs')) as Ht.
    pose proof (snapshot_undo Edit path existed prev (with_tree w fs')) as Hu.
    destruct (snapshot_for_undo Edit path existed prev (with_tree w fs')) as [r w1].
    intros [= _ <-]. right. split_and!; [done|by rw Ht|done].
  - subst fs'. intros [= <- <-]. left. split; [by destruct w|done].
Qed.

Lemma edit_file_cases conf io args (w w' : World U) dir o :
  fs_wf (tree_of w) -> (forall p, fresh_tmp (tree_of w) p io) ->
  sandbox_dir (path_guard conf) = Some dir ->
  edit_file tilde gitignored formatter text_diff conf io args w = Some (o, w') ->
  w' = w /\ (forall p d, o <> FileEdit p d)
  \/ exists p old new old' new' y z, string_arg args "path" = Some p
     /\ string_arg args "old_string" = Some old /\ string_arg args "new_string" = Some new
     /\ expand_if formatter conf old = Some (old', y) /\ expand_if formatter conf new = Some (new', z)
     /\ edit_made conf dir (tilde p) old' new' (bool_arg args "replace_all" false) w w'.
Proof.
  intros Hw Hf Hd. unfold edit_file.
  destruct (string_arg args "path") as [p|]; [|intros [= <- <-]; by left].
  destruct (check_write gitignored (tree_of w) (path_guard conf) (tilde p)) as [q|m] eqn:Hc;
    [|intros [= <- <-]; by left].
  destruct (string_arg args "old_string") as [old|]; [|intros [= <- <-]; by left].
  destruct (string_arg args "new_string") as [new|]; [|intros [= <- <-]; by left].
  unfold edit_with. destruct (previous (tree_of w) (tilde p) "edit") as [[existed prev]|o'] eqn:Hprev.
  2: { intros [= <- <-]. left. split; [done|]. intros p' d ->. unfold previous in Hprev.
       destruct (is_ok _); [|done]. by destruct (read_bytes _ _). }
  destruct (from_utf8 prev) as [content0|] eqn:Hu; [|intros [= <- <-]; by left].
  destruct (expand_if formatter conf content0) as [[content x]|] eqn:Hx; [|done].
  destruct (expand_if formatter conf old) as [[old' y]|] eqn:Hy; [|done].
  destruct (expand_if formatter conf new) as [[new' z]|] eqn:Hz; [|done].
  destruct (dry_run conf) eqn:Hdry.
  { intros [= <- <-]. left. split; [done|]. intros p' d. unfold dry_edit. by repeat case_match. }
  pose proof (plan_edit_lemma (tilde p) content old' new' (bool_arg args "replace_all" false)) as Hplan.
  destruct (plan_edit _ _ _ _ _) as [o'|nc reviewed|] eqn:Hpl; [| |done].
  { intros [= <- <-]. left. split; [done|]. intros p' d ->. revert Hpl.
    unfold plan_edit, fuzzy_plan, not_found. by repeat case_match. }
  intros [= Ha].
  destruct (apply_edit_cases _ _ _ _ _ _ _ _ _ _ _ _ _ Hw (Hf _) Hdry Hd Hc Ha)
    as [?|(Hb & Hwrote & Hundo)]; [by left|].
  right. exists p, old, new, old', new', y, z. split_and!; [done..|]. constructor; [|done].
  exists existed, prev, content, nc, x. by rw /= Hu /=.
Qed.
End Done.

(** ** Properties *)

(** C29.  Planning an edit never panics, and a planned edit is one of three: the only
    occurrence of the old text (not counting overlaps), the first from the left,
    replaced; every occurrence replaced when asked; or, when the old text does not
    occur, a run of whole lines that equals it up to the white space at line ends,
    replaced up to the terminator of its last line, with everything around it kept
    byte for byte. *)
Theorem plan_edit_sound path content old new replace_all :
  plan_edit path content old new replace_all <> Panic
  /\ forall nc r, plan_edit path content old new replace_all = Apply nc r ->
     edited content old new replace_all nc.
Proof.
  pose proof (plan_edit_lemma path content old new replace_all) as H.
  destruct (plan_edit path content old new replace_all); [by split|split; [done|]|done].
  by intros nc r [= <- <-].
Qed.

(** C11.  Under a sandbox [edit_file] either leaves the tree and the undo log as they
    are, and does not report an edit, or makes the planned edit: the bytes of the file
    below the sandbox that the path names are replaced by an edit of their text, nothing
    else changes, and the undo log gets the bytes that were there. *)
Theorem edit_file_effect `{UnicodeCase} `{UnicodeAlnum} {U} `{UndoLog U} tilde gitignored
    formatter text_diff conf io args (w w' : World U) dir o :
  fs_wf (tree_of w) -> fresh_tag (tree_of w) io ->
  sandbox_dir (path_guard conf) = Some dir ->
  edit_file tilde gitignored formatter text_diff conf io args w = Some (o, w') ->
  w' = w /\ (forall p d, o <> FileEdit p d)
  \/ exists p old new old' new' y z, string_arg args "path" = Some p
     /\ string_arg args "old_string" = Some old /\ string_arg args "new_string" = Some new
     /\ expand_if formatter conf old = Some (old', y) /\ expand_if formatter conf new = Some (new', z)
     /\ edit_made formatter conf dir (tilde p) old' new' (bool_arg args "replace_all" false) w w'.
Proof.
  intros Hw Hf. apply edit_file_cases; [done|]. intros p. by apply fresh_tag_tmp.
Qed.

Definition edit_args (p o n : str) : json :=
  JObj [(lit "path", JStr p); (lit "old_string", JStr o); (lit "new_string", JStr n)].

Definition text_world : World unit :=
  mkWorld (tree [([lit "w"], Dir); ([lit "w"; lit "f"], File (lit "ab"))] [lit "w"]) (Some tt).

Definition whole_diff (a b : str) : list (ChangeTag * str) := [(Delete, a); (Insert, b)].

Lemma edit_file_effect_witness :
  exists o w',
    edit_file (H := ascii_case) (H0 := ascii_alnum) id (fun _ => false) (fun _ _ _ => None) whole_diff
      small_conf small_io (edit_args "f" "b" "c") text_world = Some (o, w')
    /\ (w' = text_world /\ (forall p d, o <> FileEdit p d)
        \/ exists p old new old' new' y z, string_arg (edit_args "f" "b" "c") "path" = Some p
           /\ string_arg (edit_args "f" "b" "c") "old_string" = Some old
           /\ string_arg (edit_args "f" "b" "c") "new_string" = Some new
           /\ expand_if (H := ascii_case) (H0 := ascii_alnum) (fun _ _ _ => None) small_conf old
              = Some (old', y)
           /\ expand_if (H := ascii_case) (H0 := ascii_alnum) (fun _ _ _ => None) small_conf new
              = Some (new', z)
           /\ edit_made (H := ascii_case) (H0 := ascii_alnum) (fun _ _ _ => None) small_conf "/w"
                (id p) old' new' (bool_arg (edit_args "f" "b" "c") "replace_all" false) text_world w').
Proof.
  eexists _, _. split; [reflexivity|].
  eapply (edit_file_effect (H := ascii_case) (H0 := ascii_alnum) id (fun _ => false)
    (fun _ _ _ => None) whole_diff small_conf small_io (edit_args "f" "b" "c") text_world _ "/w").
  - apply tree_wf; [|done]. repeat constructor; try done.
    all: by apply (bool_decide_unpack (valid_name _)).
  - split; [apply tree_fresh; [by apply (bool_decide_unpack (_ ∉ _))|done]|done].
  - reflexivity.
  - reflexivity.
Defined.
