(* ===== verification/Message.v ===== *)
(** * Messages of the conversation

    Models the message types of [src/src/shared/mod.rs] and the token estimates of
    [src/src/session/prompt/mod.rs]: what the conversation log stores and the prompt
    builder sends.  The tokenizer of the full build is a parameter; the minimal build's
    fallback is modelled.  serde_json's text of a list of calls is a parameter. *)

From Stdlib Require Import ssreflect.
From S2P Require Import Prelude Machine.

(** ** Data *)

Inductive Role := User | System | Assistant | Tool.

#[export] Instance Role_eq_dec : EqDecision Role.
Proof. solve_decision. Defined.

Inductive ContentPart :=
| Text (text : str)
| Image (data_base64 mime : str).

Record ToolInvocation := mkCall { call_id : str; call_name : str; arguments : json }.

Record Message := mkMessage {
  role : Role;
  content : str;
  content_parts : option (list ContentPart);
  thinking : option str;
  tool_calls : option (list ToolInvocation);
  tool_call_id : option str;
  tool_name : option str;
  token_count : option N
}.

(** A message of a role with a text and nothing else. *)
Definition plain (r : Role) (c : str) : Message := mkMessage r c None None None None None None.

(** An assignment to [content] that drops the cached count. *)
Definition with_content (m : Message) (c : str) : Message :=
  mkMessage (role m) c (content_parts m) (thinking m) (tool_calls m) (tool_call_id m) (tool_name m) None.
Definition with_token_count (m : Message) (n : N) : Message :=
  mkMessage (role m) (content m) (content_parts m) (thinking m) (tool_calls m) (tool_call_id m)
    (tool_name m) (Some n).
Definition with_parts (m : Message) (ps : list ContentPart) : Message :=
  mkMessage (role m) (content m) (Some ps) (thinking m) (tool_calls m) (tool_call_id m) (tool_name m)
    (token_count m).

Definition is_role (r : Role) (m : Message) : bool := bool_decide (role m = r).

(** ** Estimates *)

(** The tokenizer in use and serde_json's text of a list of calls. *)
Class Tokenizer := {
  count_tokens : str -> N;
  calls_json : list ToolInvocation -> str
}.

(** The blocks counted a token a character. *)
Definition is_cjk (c : char) : bool :=
  in_range 4352 4607 c || in_range 11904 40959 c || in_range 44032 55215 c
  || in_range 63744 64255 c || in_range 65280 65519 c.

(** [fallback_estimate_tokens] of the minimal build. *)
Fixpoint fallback_counts (cjk other_bytes : N) (s : str) : N * N :=
  match s with
  | [] => (cjk, other_bytes)
  | c :: s' =>
      if is_cjk c then fallback_counts (cjk + 1) other_bytes s'
      else fallback_counts cjk (other_bytes + char_len c) s'
  end.
Definition fallback_estimate_tokens (s : str) : N :=
  let '(cjk, other_bytes) := fallback_counts 0 0 s in (other_bytes / 4 + cjk)%N.

Section Estimates.
Context `{Tokenizer}.

Definition estimate_message_tokens (m : Message) : N :=
  match token_count m with
  | Some c => c
  | None =>
      (count_tokens (content m)
       + unwrap_or 0 (option_map count_tokens (thinking m))
       + unwrap_or 0 (option_map (fun calls => count_tokens (calls_json calls)) (tool_calls m)))%N
  end.

Definition estimate_tokens (ms : list Message) : N :=
  foldr (fun m n => estimate_message_tokens m + n)%N 0%N ms.

Lemma estimate_tokens_app a b : estimate_tokens (a ++ b) = (estimate_tokens a + estimate_tokens b)%N.
Proof. induction a as [|m a IH]; simpl; [done|]. rw IH. lia. Qed.
End Estimates.

(** The tokenizer of the minimal build, calls counted by their names. *)
Definition fallback_tokenizer : Tokenizer :=
  {| count_tokens := fallback_estimate_tokens;
     calls_json := fun l => concat (map call_name l) |}.

(** ** The fallback *)

Lemma fallback_counts_spec k b s :
  fallback_counts k b s =
    (k + N.of_nat (length (List.filter is_cjk s)),
     b + str_len (List.filter (fun c => negb (is_cjk c)) s))%N.
Proof.
  revert k b. induction s as [|c s IH]; intros k b; simpl; [by rw !N.add_0_r|].
  destruct (is_cjk c); simpl; rw IH ?str_len_cons; f_equal; lia.
Qed.

(** The estimate counts every CJK character once, and never exceeds the text's bytes. *)
Lemma fallback_bounds s :
  (N.of_nat (length (List.filter is_cjk s)) <= fallback_estimate_tokens s <= str_len s)%N.
Proof.
  unfold fallback_estimate_tokens. rw fallback_counts_spec !N.add_0_l.
  split; [apply N.le_add_l|].
  assert (N.of_nat (length (List.filter is_cjk s)) + str_len (List.filter (fun c => negb (is_cjk c)) s)
          <= str_len s)%N.
  { induction s as [|c s IH]; simpl; [done|]. pose proof (char_len_pos c).
    destruct (is_cjk c); simpl; rw ?str_len_cons; lia. }
  set (x := str_len (List.filter _ s)) in *. clearbody x.
  pose proof (N.Div0.div_le_upper_bound x 4 x ltac:(lia)). lia.
Qed.
