(* ===== verification/Conversation.v ===== *)
(** * The conversation log

    Models [src/src/session/conversation.rs]: an append-only file of one JSON text a
    line, its healing when it is opened, and its checkpoints.  The directory of the log
    is a finite map from file names to contents; [Io] says which operations succeed, and
    where an append stops.  serde_json is a class with its documented laws.  The
    theorems: a log that is opened again has its messages, a crash during an append
    loses at most that message, checkpoints are pruned to the newest five, and a log
    that became unreadable comes back from its newest checkpoint.  The asynchronous
    variants do the same steps on another thread. *)

From Stdlib Require Import ssreflect.
From stdpp Require Import sorting.
From S2P Require Import Prelude Names Machine ReadFile Message.

Abbreviation bytes := (list N).
Abbreviation files := (gmap str bytes).

(** ** Data *)

Inductive OpenOutcome := Loaded | Created | StartedEmpty | Restored (n : nat).

Record ConversationLog := mkLog {
  log_path : str;
  messages : list Message;
  checkpoint_interval : N;
  messages_since_checkpoint : N
}.

(** How far [append] gets: the file does not open, the write stops after some bytes, the
    file is not flushed, or the line is on disk. *)
Inductive AppendIo := OpenFails | Torn (written : nat) | NotSynced | Synced.

(** What the operating system does during a call. *)
Record Io := mkIo {
  mkdir_ok : bool;
  list_ok : bool;
  read_ok : str -> bool;
  atomic_ok : str -> bool;
  remove_ok : str -> bool;
  append_io : AppendIo;
  nanos : N
}.

Inductive LogError := NoDirectory | NotRead | NotOpened | NotWritten | NotFlushed | NotCommitted | NotListed.

(** serde_json on messages: one line without a line feed, an object that no proper
    prefix and no continuation is; [kept] are the messages it gives back as they were. *)
Class MessageJson := {
  to_line : Message -> str;
  from_line : str -> option Message;
  kept : Message -> Prop;
  line_scalar : forall m, forallb is_scalar (to_line m) = true;
  line_object : forall m, exists r, to_line m = chr "{" :: r;
  line_feedless : forall m, 10%N ∉ to_line m;
  line_kept : forall m, kept m -> from_line (to_line m) = Some m;
  line_feed_kept : forall m, kept m -> from_line (to_line m ++ [10%N]) = Some m;
  line_cut : forall m p, p `prefix_of` to_line m -> p <> to_line m -> from_line p = None;
  line_fused : forall m r, from_line (to_line m ++ chr "{" :: r) = None
}.

(** ** Files *)

(** [atomic_write]: all or nothing. *)
Definition atomic_write (io : Io) (p : str) (b : bytes) (fs : files) : result unit LogError * files :=
  if atomic_ok io p then (Ok tt, <[p := b]> fs) else (Err NotCommitted, fs).

Definition remove_file (io : Io) (p : str) (fs : files) : files :=
  if remove_ok io p then delete p fs else fs.

(** The file opened for append, created when missing. *)
Definition append_file (io : Io) (p : str) (b : bytes) (fs : files) : result unit LogError * files :=
  let old := unwrap_or [] (fs !! p) in
  match append_io io with
  | OpenFails => (Err NotOpened, fs)
  | Torn k => (Err NotWritten, <[p := old ++ take k b]> fs)
  | NotSynced => (Err NotFlushed, <[p := old ++ b]> fs)
  | Synced => (Ok tt, <[p := old ++ b]> fs)
  end.

(** ** The log *)

Definition checkpoint_prefix (filename : str) : str := filename ++ ".checkpoint-".

Definition is_checkpoint (filename name : str) : bool :=
  starts_with name (checkpoint_prefix filename) && ends_with name ".ndjson".

(** [read_dir] filtered and sorted. *)
Definition checkpoints (filename : str) (fs : files) : list str :=
  sort_names (List.filter (is_checkpoint filename) (map fst (map_to_list fs))).

Section Log.
Context `{MessageJson} `{Tokenizer}.

(** [load_messages]: the lines that parse, and whether one did not. *)
Fixpoint load_lines (raws : list bytes) : list Message * bool :=
  match raws with
  | [] => ([], false)
  | raw :: rest =>
      let '(ms, corrupt) := load_lines rest in
      if str_eqb (trim (from_utf8_lossy raw)) [] then (ms, corrupt)
      else match from_utf8 raw with
           | None => (ms, true)
           | Some line =>
               match from_line line with
               | Some m => (m :: ms, corrupt)
               | None => (ms, true)
               end
           end
  end.

Definition load_messages (io : Io) (p : str) (fs : files) : result (list Message * bool) LogError :=
  match fs !! p with
  | Some b => if read_ok io p then Ok (load_lines (chunks b)) else Err NotRead
  | None => Err NotRead
  end.

(** The file a list of messages is written as. *)
Definition log_text (ms : list Message) : bytes :=
  concat (map (fun m => utf8_encode (to_line m) ++ [10%N]) ms).

Definition write_atomic (io : Io) (p : str) (ms : list Message) (fs : files) : result unit LogError * files :=
  atomic_write io p (log_text ms) fs.

(** [restore_from_checkpoint]: the first, newest first, with a message. *)
Fixpoint try_checkpoints (io : Io) (cs : list str) (fs : files) : option (list Message) :=
  match cs with
  | [] => None
  | c :: cs' =>
      match load_messages io c fs with
      | Ok (((_ :: _) as ms), _) => Some ms
      | _ => try_checkpoints io cs' fs
      end
  end.

Definition restore_from_checkpoint (io : Io) (log : ConversationLog) (fs : files)
    : result bool LogError * ConversationLog * files :=
  if negb (list_ok io) then (Err NotListed, log, fs)
  else match try_checkpoints io (rev (checkpoints (log_path log) fs)) fs with
       | None => (Ok false, log, fs)
       | Some ms =>
           match write_atomic io (log_path log) ms fs with
           | (Err e, fs') => (Err e, log, fs')
           | (Ok _, fs') =>
               (Ok true, mkLog (log_path log) ms (checkpoint_interval log) (messages_since_checkpoint log), fs')
           end
       end.

(** What [open] makes of a file that exists. *)
Definition open_existing (io : Io) (p : str) (fs : files) : list Message * OpenOutcome * files :=
  let '(loaded, corrupt) :=
    match load_messages io p fs with Ok loaded => loaded | Err _ => ([], true) end in
  if negb (bool_decide (loaded = [])) then
    (loaded, Loaded, if corrupt then (write_atomic io p loaded fs).2 else fs)
  else if corrupt then
    match restore_from_checkpoint io (mkLog p [] 0 0) fs with
    | (Ok true, log, fs') => (messages log, Restored (length (messages log)), fs')
    | (_, _, fs') => ([], StartedEmpty, fs')
    end
  else ([], Loaded, fs).

Definition open (io : Io) (p : str) (fs : files)
    : result (ConversationLog * OpenOutcome) LogError * files :=
  if negb (mkdir_ok io) then (Err NoDirectory, fs)
  else
    let '(ms, outcome, fs') :=
      match fs !! p with
      | Some _ => open_existing io p fs
      | None => ([], Created, fs)
      end in
    (Ok (mkLog p ms 0 0, outcome), fs').

Definition with_checkpoint_interval (log : ConversationLog) (interval : N) : ConversationLog :=
  mkLog (log_path log) (messages log) interval 0.

(** ** Checkpoints *)

Definition MAX_CHECKPOINTS : nat := 5.

Definition checkpoint_name (io : Io) (filename : str) : str :=
  filename ++ ".checkpoint-" ++ show_N (nanos io) ++ ".ndjson".

(** [while checkpoints.len() > MAX_CHECKPOINTS]; a failed removal is only logged. *)
Fixpoint prune (io : Io) (l : list str) (fs : files) : files :=
  match l with
  | [] => fs
  | oldest :: rest =>
      if MAX_CHECKPOINTS <? length l then prune io rest (remove_file io oldest fs) else fs
  end.

Definition checkpoint (io : Io) (log : ConversationLog) (fs : files) : result str LogError * files :=
  let checkpoint_path := checkpoint_name io (log_path log) in
  match write_atomic io checkpoint_path (messages log) fs with
  | (Err e, fs') => (Err e, fs')
  | (Ok _, fs') =>
      if negb (list_ok io) then (Err NotListed, fs')
      else (Ok checkpoint_path, prune io (checkpoints (log_path log) fs') fs')
  end.

(** ** Writing *)

Definition stamp (msg : Message) : Message :=
  match token_count msg with
  | None => with_token_count msg (estimate_message_tokens msg)
  | Some _ => msg
  end.

Definition append (io : Io) (msg : Message) (log : ConversationLog) (fs : files)
    : result unit LogError * ConversationLog * files :=
  let msg := stamp msg in
  match append_file io (log_path log) (utf8_encode (to_line msg) ++ [10%N]) fs with
  | (Err e, fs1) => (Err e, log, fs1)
  | (Ok _, fs1) =>
      let ms := messages log ++ [msg] in
      let interval := checkpoint_interval log in
      let since := messages_since_checkpoint log in
      if (0 <? interval)%N then
        let log1 := mkLog (log_path log) ms interval (since + 1) in
        if (interval <=? since + 1)%N then
          match checkpoint io log1 fs1 with
          | (Err e, fs2) => (Err e, log1, fs2)
          | (Ok _, fs2) => (Ok tt, mkLog (log_path log) ms interval 0, fs2)
          end
        else (Ok tt, log1, fs1)
      else (Ok tt, mkLog (log_path log) ms interval since, fs1)
  end.

Definition replace_all (io : Io) (ms : list Message) (log : ConversationLog) (fs : files)
    : result unit LogError * ConversationLog * files :=
  match write_atomic io (log_path log) ms fs with
  | (Err e, fs') => (Err e, log, fs')
  | (Ok _, fs') =>
      (Ok tt, mkLog (log_path log) ms (checkpoint_interval log) (messages_since_checkpoint log), fs')
  end.

(** ** The asynchronous variants *)

(** [spawn_blocking] moves the same steps to another thread and waits for them. *)
Definition open_async (io : Io) (p : str) (fs : files)
    : result (ConversationLog * OpenOutcome) LogError * files := open io p fs.

(** The lines are written out before the thread starts. *)
Definition checkpoint_async (io : Io) (log : ConversationLog) (fs : files) : result str LogError * files :=
  let lines := map to_line (messages log) in
  let checkpoint_path := checkpoint_name io (log_path log) in
  let buf := concat (map (fun line => utf8_encode line ++ [10%N]) lines) in
  match atomic_write io checkpoint_path buf fs with
  | (Err e, fs') => (Err e, fs')
  | (Ok _, fs') =>
      if negb (list_ok io) then (Err NotListed, fs')
      else (Ok checkpoint_path, prune io (checkpoints (log_path log) fs') fs')
  end.

Definition append_async (io : Io) (msg : Message) (log : ConversationLog) (fs : files)
    : result unit LogError * ConversationLog * files :=
  let msg := stamp msg in
  match append_file io (log_path log) (utf8_encode (to_line msg) ++ [10%N]) fs with
  | (Err e, fs1) => (Err e, log, fs1)
  | (Ok _, fs1) =>
      let ms := messages log ++ [msg] in
      let interval := checkpoint_interval log in
      let since := messages_since_checkpoint log in
      if (0 <? interval)%N then
        let log1 := mkLog (log_path log) ms interval (since + 1) in
        if (interval <=? since + 1)%N then
          match checkpoint_async io log1 fs1 with
          | (Err e, fs2) => (Err e, log1, fs2)
          | (Ok _, fs2) => (Ok tt, mkLog (log_path log) ms interval 0, fs2)
          end
        else (Ok tt, log1, fs1)
      else (Ok tt, mkLog (log_path log) ms interval since, fs1)
  end.

Definition replace_all_async (io : Io) (ms : list Message) (log : ConversationLog) (fs : files)
    : result unit LogError * ConversationLog * files :=
  match write_atomic io (log_path log) ms fs with
  | (Err e, fs') => (Err e, log, fs')
  | (Ok _, fs') =>
      (Ok tt, mkLog (log_path log) ms (checkpoint_interval log) (messages_since_checkpoint log), fs')
  end.

(** The theorems on the blocking variants hold of these. *)
Lemma checkpoint_async_eq io log fs : checkpoint_async io log fs = checkpoint io log fs.
Proof. unfold checkpoint_async, checkpoint, write_atomic, log_text. by rw map_map. Qed.

Lemma append_async_eq io msg log fs : append_async io msg log fs = append io msg log fs.
Proof. unfold append_async, append. destruct (append_file _ _ _ _) as [[[]|e] fs1]; [|done]. by rw checkpoint_async_eq. Qed.
End Log.

(** ** Reading back *)

Lemma decode_app t b :
  forallb is_scalar t = true -> utf8_decode (utf8_encode t ++ b) = t ++ utf8_decode b.
Proof.
  induction t as [|c t IH]; [done|]. cbn [forallb]. intros [Hc Ht]%andb_true_iff.
  change (utf8_encode (c :: t)) with (utf8_encode_char c ++ utf8_encode t).
  by rw -app_assoc utf8_decode_char // IH.
Qed.

(** A prefix of an encoding that decodes is the encoding of a prefix. *)
Lemma from_utf8_cut s k t :
  forallb is_scalar s = true -> from_utf8 (take k (utf8_encode s)) = Some t ->
  t `prefix_of` s /\ utf8_encode t = take k (utf8_encode s).
Proof.
  intros Hs. unfold from_utf8. set (b := take k _).
  destruct (bool_decide _ && _) eqn:E; [|discriminate]. intros [= <-].
  apply andb_true_iff in E as [He%bool_decide_eq_true Hd]. split; [|done].
  exists (utf8_decode (drop k (utf8_encode s))).
  by rw -(decode_app (utf8_decode b)) // He take_drop utf8_decode_encode.
Qed.

Lemma chunks_line xs b :
  Forall (fun x => x <> 10%N) xs -> chunks ((xs ++ [10%N]) ++ b) = (xs ++ [10%N]) :: chunks b.
Proof.
  intros Hx. rw -app_assoc /chunks (chunks_from_text _ _ _ Hx) app_nil_r. simpl. by rw rev_involutive.
Qed.

Lemma chunks_rest xs : Forall (fun x => x <> 10%N) xs -> xs <> [] -> chunks xs = [xs].
Proof.
  intros Hx Hn. rw -{1}(app_nil_r xs) /chunks chunks_from_text // app_nil_r. simpl.
  rw bool_decide_eq_false_2; [by intros Hr%(f_equal (@rev N)); rw rev_involutive in Hr|].
  by rw rev_involutive.
Qed.

(** A line that starts with a brace is not blank. *)
Lemma brace_not_blank r : str_eqb (trim (from_utf8_lossy (chr "{" :: r))) [] = false.
Proof.
  change (from_utf8_lossy (chr "{" :: r)) with (chr "{" :: from_utf8_lossy r).
  apply str_eqb_neq. unfold trim, trim_end. cbn [trim_start is_whitespace in_range].
  set (l := from_utf8_lossy r). intros He%(f_equal (@rev N)). rw rev_involutive in He.
  assert (forall a, trim_start (a ++ [chr "{"]) <> []) as Ht.
  { induction a as [|x a IH]; simpl; [done|]. by destruct (is_whitespace x). }
  by apply (Ht (rev l)).
Qed.

Section Reading.
Context `{MessageJson}.

Lemma line_bytes_object m : exists r, utf8_encode (to_line m) = chr "{" :: r.
Proof. destruct (line_object m) as [r ->]. by eexists. Qed.

Lemma line_chunk m : from_utf8 (utf8_encode (to_line m) ++ [10%N]) = Some (to_line m ++ [10%N]).
Proof.
  change [10%N] with (utf8_encode [10%N]) at 1. rw -utf8_encode_app. apply from_utf8_encode.
  by rw forallb_app line_scalar.
Qed.

Lemma load_lines_object raw rest :
  (exists r, raw = chr "{" :: r) ->
  load_lines (raw :: rest) =
    (let '(ms, corrupt) := load_lines rest in
     match from_utf8 raw ≫= from_line with
     | Some m => (m :: ms, corrupt)
     | None => (ms, true)
     end).
Proof.
  intros [r ->]. cbn [load_lines]. rw brace_not_blank. destruct (load_lines rest).
  by destruct (from_utf8 _).
Qed.

Lemma load_lines_kept ms b :
  Forall kept ms ->
  load_lines (chunks (log_text ms ++ b)) =
    (let '(l, corrupt) := load_lines (chunks b) in (ms ++ l, corrupt)).
Proof.
  induction 1 as [|m ms Hm _ IH]; [change (log_text [] ++ b) with b; by destruct (load_lines (chunks b))|].
  unfold log_text in *. cbn [map concat]. rw -app_assoc chunks_line.
  { apply encode_feedless, line_feedless. }
  rw load_lines_object.
  { destruct (line_bytes_object m) as [r ->]. by eexists. }
  rw line_chunk /= line_feed_kept // IH. by destruct (load_lines (chunks b)).
Qed.

Lemma load_lines_text ms : Forall kept ms -> load_lines (chunks (log_text ms)) = (ms, false).
Proof. intros Hk. rw -(app_nil_r (log_text ms)) load_lines_kept //. simpl. by rw app_nil_r. Qed.

Lemma log_text_app a b : log_text (a ++ b) = log_text a ++ log_text b.
Proof. unfold log_text. by rw map_app concat_app. Qed.

(** What the bytes of an interrupted append are read as. *)
Lemma load_torn m k :
  kept m ->
  let line := utf8_encode (to_line m) ++ [10%N] in
  load_lines (chunks (take k line)) =
    if bool_decide (k = 0) then ([], false)
    else if bool_decide (S k < length line) then ([], true)
    else ([m], false).
Proof.
  intros Hk line. case_bool_decide as H0; [by subst k|].
  destruct (line_bytes_object m) as [r Hr].
  pose proof (encode_feedless _ (line_feedless m)) as Hf.
  assert (length line = S (length (utf8_encode (to_line m)))) as Hlen
    by (unfold line; rw length_app; simpl; lia).
  assert (forall j, take (S j) line = chr "{" :: take j (r ++ [10%N])) as Hobj by (intros j; unfold line; by rw Hr).
  assert (k <= length (utf8_encode (to_line m)) -> chunks (take k line) = [take k (utf8_encode (to_line m))]) as Hone.
  { intros Hle. unfold line. rw take_app_le //. apply chunks_rest; [by apply Forall_take|].
    rw Hr. by destruct k. }
  case_bool_decide as H1.
  - rw Hone; [lia|]. rw load_lines_object. { rw Hr. destruct k; [done|]. by eexists. }
    simpl. destruct (from_utf8 _) as [t|] eqn:E; [|done]. simpl.
    apply from_utf8_cut in E as [Hp He]; [|apply line_scalar]. rw (line_cut m t Hp); [|done].
    intros ->. apply (f_equal length) in He. rw length_take in He. lia.
  - destruct (decide (k = length (utf8_encode (to_line m)))) as [Hkl|Hkl].
    + rw Hone; [lia|]. rw firstn_all2; [lia|]. rw load_lines_object; [by eexists|].
      rw from_utf8_encode; [apply line_scalar|]. by rw /= line_kept.
    + rw firstn_all2; [lia|]. unfold line. rw -(app_nil_r (utf8_encode _ ++ _)) chunks_line //.
      rw load_lines_object; [rw Hr; by eexists|]. by rw line_chunk /= line_feed_kept.
Qed.
End Reading.

(** ** Names *)

Lemma prefix_longer (f name : str) : starts_with name (checkpoint_prefix f) = true -> length f < length name.
Proof. intros Hs%starts_with_length. revert Hs. unfold checkpoint_prefix. rw length_app. simpl. lia. Qed.

Lemma log_not_checkpoint f : is_checkpoint f f = false.
Proof.
  unfold is_checkpoint. destruct (starts_with _ _) eqn:E; [|done]. apply prefix_longer in E. lia.
Qed.

Lemma checkpoint_name_matches io f : is_checkpoint f (checkpoint_name io f) = true.
Proof.
  unfold is_checkpoint, checkpoint_name, checkpoint_prefix. apply andb_true_iff. split.
  - apply starts_with_spec. eexists. by rw -app_assoc.
  - apply ends_with_spec. eexists. by rw !app_assoc.
Qed.

Lemma checkpoint_not_log io f : checkpoint_name io f <> f.
Proof. intros He. pose proof (checkpoint_name_matches io f) as Hm. rw He log_not_checkpoint in Hm. done. Qed.

Lemma checkpoints_elem f fs p : p ∈ checkpoints f fs <-> is_checkpoint f p = true /\ is_Some (fs !! p).
Proof.
  unfold checkpoints. rw sort_names_perm list_elem_of_In filter_In -list_elem_of_In list_elem_of_fmap.
  split; intros [H1 H2]; split; try done.
  - destruct H1 as ([p' b] & -> & Hin). apply elem_of_map_to_list in Hin. by eexists.
  - destruct H2 as [b Hb]. exists (p, b). split; [done|]. by apply elem_of_map_to_list.
Qed.

Lemma checkpoints_nodup f fs : NoDup (checkpoints f fs).
Proof.
  unfold checkpoints. rw sort_names_perm. apply NoDup_ListNoDup, List.NoDup_filter, NoDup_ListNoDup.
  apply NoDup_fst_map_to_list.
Qed.

(** ** Pruning *)

(** What is not among the oldest is kept, and nothing is changed. *)
Lemma prune_recent io l fs p :
  p ∉ take (length l - MAX_CHECKPOINTS) l -> prune io l fs !! p = fs !! p.
Proof.
  revert fs. induction l as [|x l IH]; intros fs; [done|]. cbn [prune].
  destruct (Nat.ltb_spec MAX_CHECKPOINTS (length (x :: l))) as [Hlt|Hge]; [|done].
  cbn [length] in *. rw Nat.sub_succ_l; [lia|]. cbn [take]. intros [Hx Hl]%not_elem_of_cons.
  rw IH //. unfold remove_file. destruct (remove_ok io x); [by rw lookup_delete_ne|done].
Qed.

Lemma prune_other io l fs p : p ∉ l -> prune io l fs !! p = fs !! p.
Proof. intros Hp. apply prune_recent. intros Hin. by apply Hp, (subseteq_take (length l - MAX_CHECKPOINTS)). Qed.

Lemma prune_sub io l fs p v : prune io l fs !! p = Some v -> fs !! p = Some v.
Proof.
  revert fs. induction l as [|x l IH]; intros fs; [done|]. cbn [prune]. destruct (_ <? _); [|done].
  intros Hp%IH. revert Hp. unfold remove_file. destruct (remove_ok io x); [|done].
  by intros [_ ?]%lookup_delete_Some.
Qed.

Lemma prune_spec io l fs p :
  (forall q, remove_ok io q = true) -> NoDup l ->
  prune io l fs !! p = if bool_decide (p ∈ take (length l - MAX_CHECKPOINTS) l) then None else fs !! p.
Proof.
  intros Hio. revert fs. induction l as [|x l IH]; intros fs; [done|]. intros [Hx Hl]%NoDup_cons.
  cbn [prune]. destruct (Nat.ltb_spec MAX_CHECKPOINTS (length (x :: l))) as [Hlt|Hge].
  - rw IH //. unfold remove_file. rw Hio. cbn [length] in *. rw Nat.sub_succ_l; [lia|]. cbn [take].
    destruct (decide (p = x)) as [->|Hne].
    + rw (bool_decide_eq_true_2 (_ ∈ _ :: _)); [by left|]. rw lookup_delete_eq. by case_bool_decide.
    + rw lookup_delete_ne //. destruct (decide (p ∈ take (length l - MAX_CHECKPOINTS) l)) as [Hin|Hin].
      * rw !bool_decide_eq_true_2 //. by right.
      * rw !bool_decide_eq_false_2 //. by intros [->|?]%elem_of_cons.
  - rw (proj2 (Nat.sub_0_le _ _)) // bool_decide_eq_false_2 //.
Qed.

(** ** The log and its file *)

Section Stored.
Context `{MessageJson} `{Tokenizer}.

(** The file of the log has its messages, one line each. *)
Definition stored (log : ConversationLog) (fs : files) : Prop :=
  Forall kept (messages log)
  /\ (fs !! log_path log = Some (log_text (messages log))
      \/ messages log = [] /\ fs !! log_path log = None).

(** The messages a crash leaves behind with [b] at the end of the file. *)
Lemma open_text io p ms b fs :
  mkdir_ok io = true -> read_ok io p = true -> fs !! p = Some (log_text ms ++ b) -> Forall kept ms ->
  let '(l, corrupt) := load_lines (chunks b) in
  ms ++ l <> [] ->
  open io p fs =
    (Ok (mkLog p (ms ++ l) 0 0, Loaded),
     if corrupt then (write_atomic io p (ms ++ l) fs).2 else fs).
Proof.
  intros Hm Hr Hp Hk. destruct (load_lines (chunks b)) as [l corrupt] eqn:E. intros Hne.
  unfold open, open_existing, load_messages. rw Hm /= Hp Hr load_lines_kept // E.
  by rw bool_decide_eq_false_2.
Qed.

(** A stored log is opened with its messages. *)
Lemma open_stored io log fs :
  mkdir_ok io = true -> read_ok io (log_path log) = true -> stored log fs ->
  exists outcome, open io (log_path log) fs = (Ok (mkLog (log_path log) (messages log) 0 0, outcome), fs)
    /\ (outcome = Loaded \/ outcome = Created).
Proof.
  intros Hm Hr [Hk [Hp|[He Hp]]].
  - destruct (decide (messages log = [])) as [He|Hne].
    + exists Loaded. split; [|by left]. unfold open, open_existing, load_messages.
      by rw Hm /= Hp Hr He /=.
    + exists Loaded. split; [|by left]. pose proof (open_text io (log_path log) (messages log) [] fs Hm Hr) as Ho.
      rw app_nil_r in Ho. specialize (Ho Hp Hk). simpl in Ho. rw app_nil_r in Ho. by apply Ho.
  - exists Created. split; [|by right]. unfold open. by rw Hm Hp He.
Qed.

Lemma stored_frame log log' fs fs' :
  log_path log' = log_path log -> messages log' = messages log ->
  fs' !! log_path log = fs !! log_path log -> stored log fs -> stored log' fs'.
Proof. unfold stored. by intros -> -> ->. Qed.

Lemma checkpoint_keeps_log io log fs :
  (checkpoint io log fs).2 !! log_path log = fs !! log_path log.
Proof.
  unfold checkpoint, write_atomic, atomic_write. destruct (atomic_ok io _); [|done].
  destruct (negb _); cbn [snd].
  - rw lookup_insert_ne //. apply checkpoint_not_log.
  - rw prune_other. { rw checkpoints_elem log_not_checkpoint. naive_solver. }
    rw lookup_insert_ne //. apply checkpoint_not_log.
Qed.

Lemma append_stored log fs msg :
  kept msg -> stored log fs ->
  Forall kept (messages log ++ [msg])
  /\ <[log_path log := unwrap_or [] (fs !! log_path log) ++ utf8_encode (to_line msg) ++ [10%N]]> fs
       !! log_path log = Some (log_text (messages log ++ [msg])).
Proof.
  intros Hm [Hk Hp]. split; [by apply Forall_app; split; [|by constructor]|].
  rw lookup_insert_eq log_text_app. f_equal. f_equal; [|by unfold log_text; rw /= app_nil_r].
  destruct Hp as [->|[-> ->]]; done.
Qed.

(** ** Commands *)

Inductive command :=
| Append (m : Message)
| Checkpoint
| ReplaceAll (ms : list Message).

Definition run (io : Io) (c : command) (st : ConversationLog * files) : ConversationLog * files :=
  let '(log, fs) := st in
  match c with
  | Append m => let '(_, log', fs') := append io m log fs in (log', fs')
  | Checkpoint => (log, (checkpoint io log fs).2)
  | ReplaceAll ms => let '(_, log', fs') := replace_all io ms log fs in (log', fs')
  end.

(** An append that is not interrupted: the file does not open, or the line is on disk. *)
Definition whole (io : Io) : Prop := append_io io = OpenFails \/ append_io io = Synced.

Definition keepable (c : command) : Prop :=
  match c with
  | Append m => kept (stamp m)
  | Checkpoint => True
  | ReplaceAll ms => Forall kept ms
  end.

Lemma run_stored io c st :
  whole io -> keepable c -> stored st.1 st.2 ->
  stored (run io c st).1 (run io c st).2 /\ log_path (run io c st).1 = log_path st.1.
Proof.
  intros Hw Hc Hs. destruct st as [log fs]. cbn [fst snd] in *. destruct c as [m| |ms]; cbn [run keepable] in *.
  - unfold append, append_file. destruct Hw as [->| ->]; cbn [fst snd]; [done|].
    destruct (append_stored log fs (stamp m) Hc Hs) as [Hk Hp].
    destruct (0 <? _)%N; [|split; [split; [|left]; done|done]].
    destruct (_ <=? _)%N; [|split; [split; [|left]; done|done]].
    set (log1 := mkLog _ _ _ _). set (fs1 := <[_ := _]> fs) in *.
    pose proof (checkpoint_keeps_log io log1 fs1) as Hc1. cbn [log_path log1] in Hc1.
    destruct (checkpoint io log1 fs1) as [[|] fs2]; cbn [fst snd] in *; split; try done; split; try done;
      left; by rw Hc1.
  - split; [|done]. apply (stored_frame log log fs); try done. apply checkpoint_keeps_log.
  - unfold replace_all, write_atomic, atomic_write. destruct (atomic_ok io _); [|done].
    cbn [fst snd log_path]. split; [|done]. split; [done|]. left. cbn [log_path messages].
    by rw lookup_insert_eq.
Qed.

(** C33. A session's log survives it: after any sequence of appends, checkpoints and
    rewrites on a log in step with its file, whatever fails short of an interrupted
    append (a file that does not open, a checkpoint that is not committed, listed or
    pruned), opening the file again gives the messages the session had. *)
Theorem reopened_log_has_its_messages io (cs : list (Io * command)) log fs :
  mkdir_ok io = true -> read_ok io (log_path log) = true -> stored log fs ->
  Forall (fun x => whole x.1 /\ keepable x.2) cs ->
  let '(log', fs') := foldl (fun st x => run x.1 x.2 st) (log, fs) cs in
  exists outcome, open io (log_path log) fs' = (Ok (mkLog (log_path log) (messages log') 0 0, outcome), fs')
    /\ (outcome = Loaded \/ outcome = Created).
Proof.
  intros Hm Hr Hs Hc. revert log fs Hr Hs. induction Hc as [|x cs [Hw Hk] _ IH]; intros log fs Hr Hs.
  { by apply open_stored. }
  cbn [foldl]. destruct (run_stored x.1 x.2 (log, fs) Hw Hk Hs) as [Hs1 Hp].
  destruct (run x.1 x.2 (log, fs)) as [log1 fs1]. cbn [fst snd] in *. rw -Hp. apply IH; [by rw Hp|done].
Qed.
End Stored.

(** ** Interrupted appends *)

Section Crash.
Context `{MessageJson} `{Tokenizer}.

Lemma append_torn io m k log fs :
  append_io io = Torn k ->
  append io m log fs =
    (Err NotWritten, log,
     <[log_path log := unwrap_or [] (fs !! log_path log)
                       ++ take k (utf8_encode (to_line (stamp m)) ++ [10%N])]> fs).
Proof. intros Hk. unfold append, append_file. by rw Hk. Qed.

Lemma stored_old log fs :
  stored log fs -> unwrap_or [] (fs !! log_path log) = log_text (messages log).
Proof. by intros [_ [->|[-> ->]]]. Qed.

(** C32. A crash loses at most the message being appended: whatever part of its line
    reached the disk, opening the log afterwards gives all earlier messages, and the
    new one exactly when its whole text was written; the file is healed to these
    messages, except when only the final line feed is missing, where it stays as the
    crash left it. *)
Theorem crash_loses_one_message io io' m k log fs :
  stored log fs -> kept (stamp m) -> messages log <> [] -> append_io io = Torn k ->
  mkdir_ok io' = true -> read_ok io' (log_path log) = true -> atomic_ok io' (log_path log) = true ->
  let size := length (utf8_encode (to_line (stamp m)) ++ [10%N]) in
  let '(_, _, fs1) := append io m log fs in
  let '(r, fs2) := open io' (log_path log) fs1 in
  exists ms, r = Ok (mkLog (log_path log) ms 0 0, Loaded)
    /\ ms = messages log ++ (if bool_decide (S k < size) then [] else [stamp m])
    /\ fs2 !! log_path log =
         (if bool_decide (S k = size) then fs1 !! log_path log else Some (log_text ms)).
Proof.
  intros Hs Hm Hne Hk Hmk Hr Ha size. rw (append_torn _ _ k) // (stored_old log fs) //.
  set (b := take k _). set (fs1 := <[_ := _]> fs).
  assert (fs1 !! log_path log = Some (log_text (messages log) ++ b)) as Hp by apply lookup_insert_eq.
  pose proof (open_text io' (log_path log) (messages log) b fs1 Hmk Hr Hp (proj1 Hs)) as Ho.
  pose proof (load_torn (stamp m) k Hm) as Hl. cbn zeta in Hl. fold b in Hl. fold size in Hl. rw Hl in Ho.
  assert (forall x, messages log ++ x <> []) as Hnn by (intros x; by destruct (messages log)).
  assert (1 < size) as Hsz.
  { unfold size. rw length_app. destruct (line_bytes_object (stamp m)) as [r ->]. simpl. lia. }
  case_bool_decide as Hk0; [|case_bool_decide as Hk1].
  - rw (Ho (Hnn [])). subst k. rw (bool_decide_eq_true_2 (1 < size)) //. eexists. split; [done|]. split; [done|].
    rw bool_decide_eq_false_2; [lia|]. rw app_nil_r Hp. unfold b. by rw take_0 app_nil_r.
  - rw (Ho (Hnn [])). eexists. split; [done|]. split; [done|].
    rw bool_decide_eq_false_2; [lia|]. unfold write_atomic, atomic_write. rw Ha. apply lookup_insert_eq.
  - rw (Ho (Hnn [stamp m])). eexists. split; [done|]. split; [done|].
    case_bool_decide as Hk2; [done|]. rw Hp log_text_app. f_equal. f_equal. unfold b.
    rw firstn_all2; [unfold size in *; lia|]. by rw /log_text /= app_nil_r.
Qed.

(** The healed log is in step with its file again, so the session goes on. *)
Lemma healed_log_stored log fs ms :
  Forall kept ms -> fs !! log_path log = Some (log_text ms) -> messages log = ms -> stored log fs.
Proof. intros Hk Hp Hm. split; [by rw Hm|left; by rw Hm]. Qed.

(** A line that lost only its line feed is read, the file is not rewritten, and the next
    append is written onto it: both messages are gone when the log is opened again. *)
Lemma unterminated_line_fuses io io1 io2 io3 m m2 log fs :
  stored log fs -> kept (stamp m) -> kept (stamp m2) -> messages log <> [] ->
  append_io io = Torn (length (utf8_encode (to_line (stamp m)))) ->
  mkdir_ok io1 = true -> read_ok io1 (log_path log) = true -> append_io io2 = Synced ->
  mkdir_ok io3 = true -> read_ok io3 (log_path log) = true ->
  let '(_, _, fs1) := append io m log fs in
  exists log2, open io1 (log_path log) fs1 = (Ok (log2, Loaded), fs1)
    /\ messages log2 = messages log ++ [stamp m]
    /\ let '(r, log3, fs3) := append io2 m2 log2 fs1 in
       r = Ok tt /\ messages log3 = messages log ++ [stamp m; stamp m2]
       /\ (open io3 (log_path log) fs3).1 = Ok (mkLog (log_path log) (messages log) 0 0, Loaded).
Proof.
  intros Hs Hm Hm2 Hne Hk Hmk Hr Ha2 Hmk3 Hr3. rw (append_torn _ _ _ _ _ Hk) (stored_old log fs) //.
  rw take_app_length. set (b := utf8_encode _). set (fs1 := <[_ := _]> fs).
  assert (fs1 !! log_path log = Some (log_text (messages log) ++ b)) as Hp by apply lookup_insert_eq.
  pose proof (open_text io1 (log_path log) (messages log) b fs1 Hmk Hr Hp (proj1 Hs)) as Ho.
  pose proof (load_torn (stamp m) (length b) Hm) as Hl. cbn zeta in Hl. rw take_app_length in Hl.
  destruct (line_bytes_object (stamp m)) as [r Hb]. fold b in Hb.
  rw bool_decide_eq_false_2 in Hl; [by rw Hb|]. rw bool_decide_eq_false_2 in Hl.
  { unfold b. rw length_app /=. lia. }
  fold b in Hl. rw Hl in Ho. eexists. split; [apply Ho; by destruct (messages log)|]. split; [done|].
  unfold append, append_file. rw Ha2. cbn [log_path messages checkpoint_interval messages_since_checkpoint].
  rw Hp. cbn [unwrap_or]. rw (proj2 (N.ltb_ge 0 0)) //. split; [done|]. split; [by rw -app_assoc|].
  set (line2 := utf8_encode (to_line (stamp m2)) ++ [10%N]). set (fs3 := <[_ := _]> fs1).
  assert (fs3 !! log_path log = Some (log_text (messages log) ++ (b ++ line2))) as Hp3
    by (rw app_assoc; apply lookup_insert_eq).
  pose proof (open_text io3 (log_path log) (messages log) _ fs3 Hmk3 Hr3 Hp3 (proj1 Hs)) as Ho3.
  assert (load_lines (chunks (b ++ line2)) = ([], true)) as Hf.
  { unfold line2. rw app_assoc -(app_nil_r (_ ++ [10%N])) chunks_line.
    { apply Forall_app. split; apply encode_feedless, line_feedless. }
    rw load_lines_object; [rw Hb; by eexists|]. unfold b.
    change [10%N] with (utf8_encode [10%N]) at 1. rw -!utf8_encode_app from_utf8_encode.
    { by rw !forallb_app !line_scalar. }
    simpl. destruct (line_object (stamp m2)) as [r2 ->]. by rw -app_assoc -app_comm_cons line_fused. }
  rw Hf in Ho3. rw app_nil_r in Ho3. by rw Ho3.
Qed.

(** A file without a usable line is replaced by the newest usable checkpoint. *)
Lemma open_unusable io p ms fs b :
  mkdir_ok io = true -> list_ok io = true -> atomic_ok io p = true -> fs !! p = Some b ->
  match load_messages io p fs with Ok loaded => loaded | Err _ => ([], true) end = ([], true) ->
  try_checkpoints io (rev (checkpoints p fs)) fs = Some ms ->
  open io p fs = (Ok (mkLog p ms 0 0, Restored (length ms)), <[p := log_text ms]> fs).
Proof.
  intros Hm Hl Ha Hp Hu Hc. unfold open, open_existing. rw Hm Hp Hu /=.
  unfold restore_from_checkpoint, write_atomic, atomic_write. by rw Hl /= Hc Ha.
Qed.

(** A log that cannot be read while it is opened is overwritten by its newest readable
    checkpoint: the messages after the checkpoint are gone from the disk. *)
Lemma read_error_overwrites_log io p ms fs b :
  mkdir_ok io = true -> list_ok io = true -> read_ok io p = false -> atomic_ok io p = true ->
  fs !! p = Some b ->
  try_checkpoints io (rev (checkpoints p fs)) fs = Some ms ->
  open io p fs = (Ok (mkLog p ms 0 0, Restored (length ms)), <[p := log_text ms]> fs).
Proof.
  intros Hm Hl Hr Ha Hp Hc. apply (open_unusable io p ms fs b); try done.
  unfold load_messages. by rw Hp Hr.
Qed.
End Crash.

(** ** Checkpoints *)

Lemma checkpoints_sorted f fs : StronglySorted names_le (checkpoints f fs).
Proof.
  apply sort_names_sorted.
Qed.

Section Checkpoints.
Context `{MessageJson}.

(** The directory after a checkpoint whose removals all succeed. *)
Lemma checkpoint_files io log fs name fs' :
  checkpoint io log fs = (Ok name, fs') ->
  let fs1 := <[checkpoint_name io (log_path log) := log_text (messages log)]> fs in
  name = checkpoint_name io (log_path log)
  /\ fs' = prune io (checkpoints (log_path log) fs1) fs1.
Proof.
  unfold checkpoint, write_atomic, atomic_write. destruct (atomic_ok io _); [|discriminate].
  destruct (list_ok io); [|discriminate]. cbn [negb]. intros [= <- <-]. done.
Qed.

(** C35. Checkpoints are capped by dropping the oldest: when a checkpoint succeeds and the
    removals do, the checkpoints left in the directory are the last five, in the order
    of their names, of those there were with the new one; the new one is the text of
    the whole log, and every other file is untouched. *)
Theorem checkpoint_keeps_the_newest io log fs name fs' :
  checkpoint io log fs = (Ok name, fs') -> (forall p, remove_ok io p = true) ->
  let fs1 := <[name := log_text (messages log)]> fs in
  let all := checkpoints (log_path log) fs1 in
  checkpoints (log_path log) fs' = drop (length all - MAX_CHECKPOINTS) all
  /\ length (checkpoints (log_path log) fs') <= MAX_CHECKPOINTS
  /\ name ∈ all
  /\ forall p, fs' !! p = if bool_decide (p ∈ take (length all - MAX_CHECKPOINTS) all) then None else fs1 !! p.
Proof.
  intros [-> ->]%checkpoint_files Hr fs1 all. set (fs' := prune _ _ _).
  assert (forall p, fs' !! p = if bool_decide (p ∈ take (length all - MAX_CHECKPOINTS) all) then None else fs1 !! p)
    as Hl by (intros p; apply prune_spec; [done|apply checkpoints_nodup]).
  pose proof (checkpoints_nodup (log_path log) fs1) as Hnd. fold all in Hnd.
  assert (checkpoints (log_path log) fs' = drop (length all - MAX_CHECKPOINTS) all) as Hc.
  { apply (StronglySorted_unique names_le); [apply checkpoints_sorted|apply sorted_drop, checkpoints_sorted|].
    apply NoDup_Permutation; [apply checkpoints_nodup| |].
    { rw -(take_drop (length all - MAX_CHECKPOINTS) all) in Hnd. by apply NoDup_app in Hnd as (_ & _ & ?). }
    intros p. rw checkpoints_elem Hl. rw -{1}(take_drop (length all - MAX_CHECKPOINTS) all) in Hnd.
    apply NoDup_app in Hnd as (_ & Hdis & _).
    assert (p ∈ all <-> p ∈ take (length all - MAX_CHECKPOINTS) all \/ p ∈ drop (length all - MAX_CHECKPOINTS) all)
      as Hin by (rw -elem_of_app take_drop; done).
    unfold all in Hin at 1. rw checkpoints_elem in Hin. case_bool_decide as Hd.
    - split; [by intros [_ [? ?]]|]. intros Hp. by apply Hdis in Hd.
    - tauto. }
  split; [done|]. split; [rw Hc length_drop; unfold MAX_CHECKPOINTS; lia|]. split; [|done].
  apply checkpoints_elem. split; [apply checkpoint_name_matches|]. unfold fs1. rw lookup_insert_eq. by eexists.
Qed.

Lemma load_checkpoint io p ms fs :
  Forall kept ms -> read_ok io p = true -> fs !! p = Some (log_text ms) ->
  load_messages io p fs = Ok (ms, false).
Proof. intros Hk Hr Hp. unfold load_messages. by rw Hp Hr load_lines_text. Qed.

(** C34. A log whose file has become unreadable comes back from its checkpoint: after a
    checkpoint of a log with messages, whose name is the last, whatever has been
    written over the file in which no line parses, opening it restores exactly the
    messages of the checkpoint and writes them to the file. *)
Theorem corrupt_log_restored io io' log fs name fs' b :
  checkpoint io log fs = (Ok name, fs') -> Forall kept (messages log) -> messages log <> [] ->
  (forall p, p ∈ checkpoints (log_path log) fs -> str_le p name = true) ->
  load_lines (chunks b) = ([], true) ->
  mkdir_ok io' = true -> list_ok io' = true -> (forall p, read_ok io' p = true) ->
  atomic_ok io' (log_path log) = true ->
  let fs2 := <[log_path log := b]> fs' in
  open io' (log_path log) fs2 =
    (Ok (mkLog (log_path log) (messages log) 0 0, Restored (length (messages log))),
     <[log_path log := log_text (messages log)]> fs2).
Proof.
  intros [-> ->]%checkpoint_files Hk Hne Hlast Hb Hm Hl Hr Ha fs2.
  set (name := checkpoint_name io (log_path log)) in *. set (fs1 := <[name := _]> fs) in *.
  set (all := checkpoints (log_path log) fs1) in *.
  assert (name <> log_path log) as Hnl by apply checkpoint_not_log.
  assert (fs1 !! name = Some (log_text (messages log))) as Hn1 by apply lookup_insert_eq.
  assert (forall p, p ∈ all -> str_le p name = true) as Hall.
  { intros p [Hp1 Hp2]%checkpoints_elem. destruct (decide (p = name)) as [->|Hpn].
    { apply not_false_is_true. intros Hf. pose proof (str_le_total _ _ Hf). congruence. }
    apply Hlast, checkpoints_elem. split; [done|]. unfold fs1 in Hp2. by rw lookup_insert_ne in Hp2. }
  assert (name ∈ all) as Hin by (apply checkpoints_elem; split; [apply checkpoint_name_matches|by eexists]).
  assert (last all = Some name) as Hla by (by apply sorted_last; [apply checkpoints_sorted|..]).
  assert (fs2 !! name = Some (log_text (messages log))) as Hn2.
  { unfold fs2. rw lookup_insert_ne //. rw prune_recent //. apply last_Some in Hla as [l' Hl'].
    pose proof (checkpoints_nodup (log_path log) fs1) as Hnd. fold all in Hnd. rw Hl' in Hnd. rw Hl'.
    apply NoDup_app in Hnd as (_ & Hd & _). rw take_app_le.
    { rw length_app /=. unfold MAX_CHECKPOINTS. lia. }
    intros Hx. apply (Hd name); [by eapply subseteq_take|by left]. }
  assert (last (checkpoints (log_path log) fs2) = Some name) as Hl2.
  { apply sorted_last; [apply checkpoints_sorted| |].
    - apply checkpoints_elem. split; [apply checkpoint_name_matches|by eexists].
    - intros p [Hp1 [v Hv]]%checkpoints_elem. apply Hall, checkpoints_elem. split; [done|]. exists v.
      unfold fs2 in Hv. rw lookup_insert_ne in Hv; [by intros He; rw -He log_not_checkpoint in Hp1|].
      by apply prune_sub in Hv. }
  apply last_Some in Hl2 as [l2 Hl2]. apply (open_unusable io' (log_path log) (messages log) fs2 b); try done.
  - by rw lookup_insert_eq.
  - unfold load_messages. rw lookup_insert_eq Hr. by rw Hb.
  - rw Hl2 rev_app_distr /=. rw (load_checkpoint io' name (messages log)) //. by destruct (messages log).
Qed.
End Checkpoints.

(** ** A concrete codec *)

(** Messages of the user that hold digits, written between braces. *)
Definition demo_message (c : str) : Message := with_token_count (plain User c) 0.
Definition demo_line (m : Message) : str := chr "{" :: List.filter is_ascii_digit (content m) ++ [chr "}"].
Definition demo_parse (s : str) : option Message :=
  match unwrap_or s (strip_suffix s [10%N]) with
  | [] => None
  | x :: r =>
      if (x =? chr "{")%N then
        strip_suffix r "}" ≫= fun c =>
        if forallb is_ascii_digit c then Some (demo_message c) else None
      else None
  end.
Definition demo_kept (m : Message) : Prop :=
  m = demo_message (content m) /\ forallb is_ascii_digit (content m) = true.

Lemma demo_parse_inv s m :
  demo_parse s = Some m ->
  exists c t, s = chr "{" :: c ++ chr "}" :: t /\ (t = [] \/ t = [10%N]) /\ forallb is_ascii_digit c = true.
Proof.
  unfold demo_parse. destruct (strip_suffix s [10%N]) as [u|] eqn:E; cbn [unwrap_or].
  - apply strip_suffix_Some in E as ->. destruct u as [|x r]; [done|]. destruct (N.eqb_spec x (chr "{")) as [->|]; [|done].
    destruct (strip_suffix r "}") as [c|] eqn:E; [|done]. apply strip_suffix_Some in E as ->. simpl.
    destruct (forallb _ c) eqn:Ec; [|done]. intros _. exists c, [10%N].
    split; [by rw -app_assoc|]. split; [by right|done].
  - destruct s as [|x r]; [done|]. destruct (N.eqb_spec x (chr "{")) as [->|]; [|done].
    destruct (strip_suffix r "}") as [c|] eqn:E'; [|done]. apply strip_suffix_Some in E' as ->. simpl.
    destruct (forallb _ c) eqn:Ec; [|done]. intros _. exists c, []. split; [done|]. split; [by left|done].
Qed.

Lemma digits_brace_inj c d t u :
  forallb is_ascii_digit c = true -> forallb is_ascii_digit d = true ->
  c ++ chr "}" :: t = d ++ chr "}" :: u -> c = d /\ t = u.
Proof.
  revert d. induction c as [|x c IH]; intros [|y d]; cbn [forallb app].
  - by intros _ _ [= ->].
  - intros _ Hd [= <- _]. done.
  - intros Hc _ [= -> _]. done.
  - intros [_ Hc]%andb_true_iff [_ Hd]%andb_true_iff [= -> He]. by destruct (IH d Hc Hd He) as [-> ->].
Qed.

Lemma filter_digits c : forallb is_ascii_digit (List.filter is_ascii_digit c) = true.
Proof. induction c as [|x c IH]; simpl; [done|]. destruct (is_ascii_digit x) eqn:E; simpl; by rw ?E. Qed.

Lemma filter_all c : forallb is_ascii_digit c = true -> List.filter is_ascii_digit c = c.
Proof. induction c as [|x c IH]; cbn [forallb List.filter]; [done|]. by intros [-> Hc]%andb_true_iff; rw IH. Qed.

Lemma digits_notin c x : forallb is_ascii_digit c = true -> is_ascii_digit x = false -> x ∉ c.
Proof. intros Hc Hx Hin. rw (forallb_elem _ c) in Hc. rw (Hc x Hin) in Hx. done. Qed.

Lemma digit_scalar x : is_ascii_digit x = true -> is_scalar x = true.
Proof.
  unfold is_ascii_digit, in_range, is_scalar. intros [_ Hx%N.leb_le]%andb_true_iff.
  by rw (proj2 (N.ltb_lt x 55296)); [lia|].
Qed.

Lemma demo_parse_text c :
  forallb is_ascii_digit c = true ->
  demo_parse (chr "{" :: c ++ [chr "}"]) = Some (demo_message c)
  /\ demo_parse ((chr "{" :: c ++ [chr "}"]) ++ [10%N]) = Some (demo_message c).
Proof.
  intros Hc. unfold demo_parse. split.
  - destruct (strip_suffix _ [10%N]) as [u|] eqn:E.
    { apply strip_suffix_Some in E. apply (f_equal last) in E. by rw app_comm_cons !last_snoc in E. }
    cbn [unwrap_or]. by rw N.eqb_refl strip_suffix_app /= Hc.
  - rw strip_suffix_app. cbn [unwrap_or]. by rw N.eqb_refl strip_suffix_app /= Hc.
Qed.

Program Definition demo_json : MessageJson := {|
  to_line := demo_line;
  from_line := demo_parse;
  kept := demo_kept
|}.
Next Obligation.
  intros m. apply forallb_elem. intros x. unfold demo_line. rw elem_of_cons elem_of_app list_elem_of_singleton.
  intros [->|[Hx| ->]]; try done. apply digit_scalar. revert x Hx. by apply forallb_elem, filter_digits.
Qed.
Next Obligation. by eexists. Qed.
Next Obligation.
  intros m. unfold demo_line. rw elem_of_cons elem_of_app list_elem_of_singleton.
  intros [?|[Hx|?]]; try done. by apply (digits_notin _ _ (filter_digits (content m)) (eq_refl : is_ascii_digit 10 = false)) in Hx.
Qed.
Next Obligation. intros m [-> Hc]. unfold demo_line. rw filter_all //. by apply demo_parse_text. Qed.
Next Obligation. intros m [-> Hc]. unfold demo_line. rw filter_all //. by apply demo_parse_text. Qed.
Next Obligation.
  intros m p [k Hk] Hne. destruct (demo_parse p) as [m'|] eqn:E; [exfalso|done].
  apply demo_parse_inv in E as (c & t & -> & _ & Hc). unfold demo_line in Hk, Hne.
  rw -app_comm_cons -app_assoc -app_comm_cons in Hk. injection Hk as Hk.
  apply digits_brace_inj in Hk as [<- Ht]; [|apply filter_digits|done].
  symmetry in Ht. by apply app_eq_nil in Ht as [-> ->].
Qed.
Next Obligation.
  intros m r. destruct (demo_parse _) as [m'|] eqn:E; [exfalso|done].
  apply demo_parse_inv in E as (c & t & He & Ht & Hc). unfold demo_line in He.
  rw -app_comm_cons -app_assoc -app_comm_cons in He. injection He as He.
  apply digits_brace_inj in He as [_ He]; [|apply filter_digits|done]. by destruct Ht as [->| ->].
Qed.

#[local] Existing Instance demo_json.
#[local] Existing Instance fallback_tokenizer.

Definition demo_io (a : AppendIo) (n : N) : Io :=
  mkIo true true (fun _ => true) (fun _ => true) (fun _ => true) a n.
Definition demo_log : ConversationLog := mkLog (lit "s.ndjson") [demo_message (lit "1")] 0 0.
Definition demo_files : files := {[ lit "s.ndjson" := log_text [demo_message (lit "1")] ]}.

Lemma demo_stored : stored demo_log demo_files.
Proof. split; [by repeat constructor|]. left. vm_compute. done. Qed.

Definition demo_session : ConversationLog * files :=
  run (demo_io Synced 7) Checkpoint
    (run (demo_io Synced 0) (Append (demo_message (lit "22"))) (demo_log, demo_files)).

Lemma demo_session_messages : messages demo_session.1 = [demo_message (lit "1"); demo_message (lit "22")].
Proof. vm_compute. done. Qed.

Lemma reopened_log_has_its_messages_witness :
  exists outcome,
    open (demo_io Synced 0) (lit "s.ndjson") demo_session.2
    = (Ok (mkLog (lit "s.ndjson") [demo_message (lit "1"); demo_message (lit "22")] 0 0, outcome),
       demo_session.2).
Proof.
  pose proof (reopened_log_has_its_messages (demo_io Synced 0)
    [(demo_io Synced 0, Append (demo_message (lit "22"))); (demo_io Synced 7, Checkpoint)]
    demo_log demo_files eq_refl eq_refl demo_stored) as Hw.
  rw -demo_session_messages.
  change (foldl _ _ _) with demo_session in Hw. destruct demo_session as [log' fs'].
  destruct Hw as (outcome & Ho & _); [|by exists outcome].
  repeat constructor; try (by right); by vm_compute.
Defined.

Lemma crash_loses_one_message_witness :
  exists ms,
    (let '(_, _, fs1) := append (demo_io (Torn 2) 0) (demo_message (lit "22")) demo_log demo_files in
     (open (demo_io Synced 0) (lit "s.ndjson") fs1).1) = Ok (mkLog (lit "s.ndjson") ms 0 0, Loaded)
    /\ ms = [demo_message (lit "1")].
Proof.
  pose proof (crash_loses_one_message (demo_io (Torn 2) 0) (demo_io Synced 0) (demo_message (lit "22")) 2
    demo_log demo_files demo_stored) as Hw.
  cbn zeta in Hw. destruct (append _ _ _ _) as [[r log1] fs1].
  change (log_path demo_log) with (lit "s.ndjson") in Hw.
  destruct (open _ _ fs1) as [r2 fs2].
  destruct Hw as (ms & -> & -> & _); try done.
  eexists. split; [done|]. by vm_compute.
Defined.

Lemma checkpoint_keeps_the_newest_witness :
  exists fs', checkpoint (demo_io Synced 7) demo_log demo_files = (Ok (lit "s.ndjson.checkpoint-7.ndjson"), fs')
    /\ length (checkpoints (lit "s.ndjson") fs') <= 5.
Proof.
  eexists. split; [vm_compute; reflexivity|].
  eapply (checkpoint_keeps_the_newest (demo_io Synced 7) demo_log demo_files
    (lit "s.ndjson.checkpoint-7.ndjson")); [vm_compute; reflexivity|done].
Defined.

Lemma corrupt_log_restored_witness :
  (let '(_, fs') := checkpoint (demo_io Synced 7) demo_log demo_files in
   (open (demo_io Synced 0) (lit "s.ndjson") (<[lit "s.ndjson" := [120%N]]> fs')).1)
  = Ok (mkLog (lit "s.ndjson") [demo_message (lit "1")] 0 0, Restored 1).
Proof.
  destruct (checkpoint (demo_io Synced 7) demo_log demo_files) as [[name|e] fs'] eqn:E.
  - refine (f_equal fst (corrupt_log_restored (demo_io Synced 7) (demo_io Synced 0) demo_log demo_files
      name fs' [120%N] E _ _ _ _ _ _ _ _)); try reflexivity.
    + by repeat constructor.
    + discriminate.
    + intros p. rw checkpoints_elem. intros [Hp [b Hb]]. unfold demo_files in Hb.
      apply lookup_singleton_Some in Hb as [<- _]. by vm_compute in Hp.
  - exfalso. apply (f_equal (fun r => is_ok r.1)) in E. by vm_compute in E.
Defined.

(** The unterminated line on a concrete log: two messages appended, one crash and no
    damage but a missing line feed, and both are gone. *)
Example fused_messages_are_lost :
  let fs1 := (append (demo_io (Torn 4) 0) (demo_message (lit "22")) demo_log demo_files).2 in
  let '(r, fs2) := open (demo_io Synced 0) (lit "s.ndjson") fs1 in
  match r with
  | Ok (log2, o) =>
      length (messages log2) = 2 /\ o = Loaded
      /\ let '(_, _, fs3) := append (demo_io Synced 0) (demo_message (lit "3")) log2 fs2 in
         (open (demo_io Synced 0) (lit "s.ndjson") fs3).1
         = Ok (mkLog (lit "s.ndjson") [demo_message (lit "1")] 0 0, Loaded)
  | Err _ => False
  end.
Proof. vm_compute. done. Qed.
