(* ===== verification/Compaction.v ===== *)
(** * Compaction of the conversation

    Models [src/src/session/prompt/compaction.rs] and
    [src/src/session/prompt/microcompaction.rs]: the split of a history into anchor,
    middle and tail, the two ways the middle is shortened, and the texts of the
    summaries.  Token counts are natural numbers: a sum of counts of texts in memory
    does not overflow.  The theorems: compaction keeps the anchor, the recent messages
    and the user's turns as they are, the tail it grows is the longest the budget
    allows, and microcompaction replaces exactly the middle by one message. *)

From Stdlib Require Import ssreflect.
From S2P Require Import Prelude Machine Minify Message.

(** ** Data *)

Inductive MiddleStrategy := StubPerSlot | CollapseToSummary.

Record ProcessMiddleResult := mkMiddle {
  new_messages : list Message;
  dropped_tool_results : nat;
  condensed_assistant_turns : nat;
  summarised_messages : nat;
  original_count : nat;
  compacted_count : nat;
  tokens_before : N;
  tokens_after : N
}.

(** [CompactionResult] drops one counter. *)
Record CompactionResult := mkCompaction {
  cr_new_messages : list Message;
  cr_dropped_tool_results : nat;
  cr_condensed_assistant_turns : nat;
  cr_original_count : nat;
  cr_compacted_count : nat;
  cr_tokens_before : N;
  cr_tokens_after : N
}.
Definition CompactionResult_from (r : ProcessMiddleResult) : CompactionResult :=
  mkCompaction (new_messages r) (dropped_tool_results r) (condensed_assistant_turns r)
    (original_count r) (compacted_count r) (tokens_before r) (tokens_after r).

Record MicrocompactResult := mkMicro { mc_messages : list Message; mc_tokens_after : N }.

Definition TOOL_RESULT_STUB : str := "[previous tool result omitted to save budget — see TUI history]".
Definition ASSISTANT_CONDENSED_PREFIX : str :=
  "[previous assistant turn condensed for context budget — original was ".
Definition ASSISTANT_CONDENSED_SUFFIX : str := " chars]".

(** ** The texts of a summary *)

(** [str::trim_matches] with a predicate. *)
Fixpoint drop_matching (p : char -> bool) (s : str) : str :=
  match s with c :: s' => if p c then drop_matching p s' else s | [] => [] end.
Definition trim_matches (p : char -> bool) (s : str) : str :=
  rev (drop_matching p (rev (drop_matching p s))).

(** [if !out.contains(x) { out.push(x) }]. *)
Definition push_new (x : str) (out : list str) : list str :=
  if bool_decide (x ∈ out) then out else out ++ [x].

Definition extract_path (args : json) (out : list str) : list str :=
  let out := match json_get args "path" ≫= as_str with Some p => push_new p out | None => out end in
  match json_get args "paths" ≫= as_array with
  | Some ps => foldl (fun out p => match as_str p with Some s => push_new s out | None => out end) out ps
  | None => out
  end.

Section Summaries.
Context `{UnicodeCase} `{UnicodeAlnum} `{Tokenizer}.

Definition not_path_char (c : char) : bool :=
  negb (is_alphanumeric c) && negb (c =? "/"%char)%N && negb (c =? "."%char)%N.

Definition extract_word (out : list str) (word : str) : list str :=
  let trimmed := trim_matches not_path_char word in
  if negb (str_eqb trimmed []) && negb (bool_decide (trimmed ∈ out)) && (length out <? 12)
     && (starts_with trimmed "/" || starts_with trimmed "./" || ends_with trimmed ".rs")
  then out ++ [trimmed] else out.

Definition extract_path_from_text (text : str) (out : list str) : list str :=
  foldl extract_word out (split_whitespace text).

Definition has_error (text : str) : bool := contains text "error" || contains text "Error".

Record Facts := mkFacts { f_tools : list str; f_paths : list str; f_errors : nat }.

Definition heuristic_step (f : Facts) (msg : Message) : Facts :=
  match role msg with
  | Assistant =>
      match tool_calls msg with
      | Some calls =>
          foldl (fun f tc => mkFacts (push_new (call_name tc) (f_tools f))
                               (extract_path (arguments tc) (f_paths f)) (f_errors f)) f calls
      | None => f
      end
  | Tool =>
      mkFacts (match tool_name msg with Some name => push_new name (f_tools f) | None => f_tools f end)
        (extract_path_from_text (content msg) (f_paths f))
        (if has_error (content msg) then S (f_errors f) else f_errors f)
  | _ => f
  end.

(** A part of a summary when it is not empty. *)
Definition part (b : bool) (s : str) : list str := if b then [s] else [].
Definition some_of {A} (l : list A) : bool := match l with [] => false | _ => true end.

Definition heuristic_summary (ms : list Message) : str :=
  let f := foldl heuristic_step (mkFacts [] [] 0) ms in
  let parts :=
    part (some_of (f_tools f)) ("tools used: " ++ join ", " (f_tools f))
    ++ part (some_of (f_paths f)) ("paths: " ++ join ", " (take 8 (f_paths f)))
    ++ part (0 <? f_errors f) (show_nat (f_errors f) ++ " error(s) encountered") in
  if some_of parts then join "; " parts
  else "(older conversation context omitted for token budget)".

(** *** The structured summary *)

Record Digest := mkDigest {
  goals : list str;
  d_files : list str;
  d_errors : list str;
  tool_outputs : list (str * str);
  todos : list str
}.

Definition is_goal_line (lower : str) : bool :=
  contains lower "i'll " || contains lower "i will " || contains lower "let me "
  || contains lower "plan:" || contains lower "decision:" || contains lower "approach:".
Definition is_todo_line (lower : str) : bool :=
  contains lower "todo" || contains lower "pending" || contains lower "still need"
  || contains lower "remaining".

(** A line worth keeping, trimmed. *)
Definition short_line (line : str) : list str :=
  let cleaned := trim line in
  if negb (str_eqb cleaned []) && (str_len cleaned <? 200)%N then [cleaned] else [].

Definition digest_line (d : Digest) (line : str) : Digest :=
  let lower := to_lowercase line in
  mkDigest (goals d ++ (if is_goal_line lower then short_line line else []))
    (d_files d) (d_errors d) (tool_outputs d)
    (todos d ++ (if is_todo_line lower then short_line line else [])).

Definition has_tool (outs : list (str * str)) (name : str) : bool :=
  existsb (fun o => str_eqb o.1 name) outs.

Definition digest_call (d : Digest) (tc : ToolInvocation) : Digest :=
  mkDigest (goals d) (extract_path (arguments tc) (d_files d)) (d_errors d)
    (if has_tool (tool_outputs d) (call_name tc) then tool_outputs d
     else tool_outputs d ++ [(call_name tc, [])])
    (todos d).

Definition digest_step (d : Digest) (msg : Message) : Digest :=
  match role msg with
  | User => mkDigest (goals d ++ short_line (content msg)) (d_files d) (d_errors d) (tool_outputs d) (todos d)
  | Assistant =>
      let d := match tool_calls msg with Some calls => foldl digest_call d calls | None => d end in
      foldl digest_line d (lines (trim (content msg)))
  | Tool =>
      mkDigest (goals d) (extract_path_from_text (content msg) (d_files d))
        (if has_error (content msg) then d_errors d ++ [take 150 (content msg)] else d_errors d)
        (match tool_name msg with
         | Some name =>
             if has_tool (tool_outputs d) name then tool_outputs d
             else tool_outputs d ++ [(name, take 100 (content msg))]
         | None => tool_outputs d
         end)
        (todos d)
  | System => d
  end.

Definition bullets (l : list str) : str := join [10%N] (map (fun g => "- " ++ g) (take 5 l)).

Definition deterministic_compaction_summary (ms : list Message) : str :=
  let d := foldl digest_step (mkDigest [] [] [] [] []) ms in
  let parts :=
    part (some_of (goals d)) ("Goals/Decisions:" ++ [10%N] ++ bullets (goals d))
    ++ part (some_of (d_files d)) ("Files: " ++ join ", " (take 8 (d_files d)))
    ++ part (some_of (d_errors d)) (show_nat (length (d_errors d)) ++ " error(s)")
    ++ part (some_of (tool_outputs d)) ("Tools used: " ++ join ", " (take 5 (map fst (tool_outputs d))))
    ++ part (some_of (todos d)) ("TODOs:" ++ [10%N] ++ bullets (todos d)) in
  if some_of parts then join [10%N; 10%N] parts else "(older conversation context compressed)".

(** ** The driver *)

Definition stub_tool_result (msg : Message) : Message := with_content msg TOOL_RESULT_STUB.

Definition anchor_len (ms : list Message) : nat :=
  match ms with m :: _ => if is_role System m then 1 else 0 | [] => 0 end.

Definition noop (ms : list Message) (original_tokens : N) : ProcessMiddleResult :=
  mkMiddle ms 0 0 0 (length ms) (length ms) original_tokens original_tokens.

(** The loop of [budget_tail_size]; the fuel is the number of messages. *)
Fixpoint grow_tail (fuel : nat) (ms : list Message) (anchor : nat) (tail_budget : N)
    (tail_size : nat) (tail_tokens : N) : nat :=
  match fuel with
  | O => tail_size
  | S fuel' =>
      if tail_size <? length ms - anchor then
        let next_tokens :=
          match ms !! (length ms - tail_size - 1) with
          | Some m => estimate_message_tokens m
          | None => 0%N
          end in
        if (tail_budget <? saturating_add tail_tokens next_tokens)%N then tail_size
        else grow_tail fuel' ms anchor tail_budget (S tail_size) (tail_tokens + next_tokens)
      else tail_size
  end.

Definition budget_tail_size (ms : list Message) (keep_tail_min : nat) (budget : option N)
    (original_tokens : N) (anchor : nat) : nat :=
  match budget with
  | Some b =>
      if (b <? original_tokens)%N then
        grow_tail (length ms) ms anchor (b / 4) keep_tail_min
          (estimate_tokens (drop (length ms - keep_tail_min) ms))
      else keep_tail_min
  | None => keep_tail_min
  end.

(** One message of the middle, and whether a tool result or an assistant's turn went. *)
Definition condensed_text (original_chars : nat) : str :=
  ASSISTANT_CONDENSED_PREFIX ++ show_nat original_chars ++ ASSISTANT_CONDENSED_SUFFIX.
Definition stub_slot (msg : Message) : Message * nat * nat :=
  match role msg with
  | Tool => (stub_tool_result msg, 1, 0)
  | Assistant =>
      let original_chars := length (content msg) in
      if original_chars =? 0 then (msg, 0, 0)
      else (with_content msg (condensed_text original_chars), 0, 1)
  | _ => (msg, 0, 0)
  end.

Fixpoint stub_middle (middle : list Message) : list Message * nat * nat * nat :=
  match middle with
  | [] => ([], 0, 0, 0)
  | msg :: rest =>
      let '(m, d, c) := stub_slot msg in
      let '(out, dropped, condensed, _) := stub_middle rest in
      (m :: out, d + dropped, c + condensed, 0)
  end.

Definition context_summary (summarised_count : nat) (summary : str) : str :=
  "[Context summary — " ++ show_nat summarised_count ++ " earlier messages compressed]" ++ [10%N] ++ summary.

Definition collapse_middle (middle : list Message) (collapse_fn : option (list Message -> str))
    : list Message * nat * nat * nat :=
  let content :=
    match collapse_fn with
    | Some f => f middle
    | None => context_summary (length middle) (heuristic_summary middle)
    end in
  ([plain System content], 0, 0, length middle).

(** [&messages[a..b]]. *)
Definition slice (a b : nat) (ms : list Message) : list Message := drop a (take b ms).

Definition assemble_middle (ms : list Message) (anchor working_set_start : nat) (original_tokens : N)
    (r : list Message * nat * nat * nat) : ProcessMiddleResult :=
  let '(middle_msgs, dropped, condensed, summarised) := r in
  let new_messages := take anchor ms ++ middle_msgs ++ drop working_set_start ms in
  mkMiddle new_messages dropped condensed summarised (length ms) (length new_messages)
    original_tokens (estimate_tokens new_messages).

Definition process_middle (ms : list Message) (strategy : MiddleStrategy) (keep_tail : nat)
    (budget : option N) (collapse_fn : option (list Message -> str)) : ProcessMiddleResult :=
  let keep_tail_min := Nat.max keep_tail 1 in
  let original_tokens := estimate_tokens ms in
  let anchor := anchor_len ms in
  match strategy with
  | StubPerSlot =>
      if length ms <=? keep_tail_min then noop ms original_tokens
      else
        let tail_size := budget_tail_size ms keep_tail_min budget original_tokens anchor in
        let working_set_start := length ms - tail_size in
        assemble_middle ms anchor working_set_start original_tokens
          (stub_middle (slice anchor working_set_start ms))
  | CollapseToSummary =>
      if length ms <=? keep_tail_min + 1 then noop ms original_tokens
      else
        let working_set_start := length ms - keep_tail_min in
        if working_set_start <=? anchor then noop ms original_tokens
        else assemble_middle ms anchor working_set_start original_tokens
               (collapse_middle (slice anchor working_set_start ms) collapse_fn)
  end.

Definition compact_to_budget (ms : list Message) (preserve_recent : nat) (target_budget_tokens : option N)
    : CompactionResult :=
  CompactionResult_from (process_middle ms StubPerSlot preserve_recent target_budget_tokens None).

(** ** Microcompaction *)

(** 1.0 - heuristic / middle. *)
Definition drop_ratio (heuristic_tokens middle_tokens : N) : f64 :=
  if (0 <? middle_tokens)%N
  then f64_sub (f64_of 1) (f64_div (f64_of heuristic_tokens) (f64_of middle_tokens))
  else f64_of 0.

Definition collapse_text (use_llm : bool) (drop_threshold : f64) (middle_tokens : N) (middle : list Message) : str :=
  let heuristic := heuristic_summary middle in
  let summary :=
    if use_llm then
      let heuristic_tokens := estimate_message_tokens (plain System heuristic) in
      if f64_gt (drop_ratio heuristic_tokens middle_tokens) drop_threshold
      then deterministic_compaction_summary middle
      else heuristic
    else heuristic in
  context_summary (length middle) summary.

Definition maybe_microcompact (ms : list Message) (threshold_tokens : N) (keep_tail : nat)
    (use_llm : bool) (drop_threshold : f64) : option MicrocompactResult :=
  let keep_tail := Nat.max keep_tail 1 in
  if length ms <=? keep_tail + 1 then None
  else if (estimate_tokens ms <=? threshold_tokens)%N then None
  else
    let anchor := anchor_len ms in
    let tail_start := length ms - keep_tail in
    if tail_start <=? anchor then None
    else
      let middle_tokens := estimate_tokens (slice anchor tail_start ms) in
      let r := process_middle ms CollapseToSummary keep_tail None
                 (Some (collapse_text use_llm drop_threshold middle_tokens)) in
      Some (mkMicro (new_messages r) (tokens_after r)).

(** ** Pinned findings *)

Definition is_unresolved (m : Message) : bool :=
  is_role Tool m
  && match tool_name m with Some n => starts_with n "verifier:" | None => false end
  && (contains (content m) "Verification failed:" || contains (content m) "Failed to auto-fix:"
      || contains (content m) "Failed to run formatter:").

Definition extract_unresolved_verifier_findings (ms : list Message) : option str :=
  let findings := map (fun m => trim (content m)) (List.filter is_unresolved ms) in
  if some_of findings
  then Some ("[Verifier findings from earlier turns — still unresolved]" ++ [10%N] ++ join [10%N] findings)
  else None.
End Summaries.

(** ** The middle, slot by slot *)

Section Facts.
Context `{UnicodeCase} `{UnicodeAlnum} `{Tokenizer}.

Definition slot (msg : Message) : Message := (stub_slot msg).1.1.
Definition is_long_turn (m : Message) : bool := is_role Assistant m && negb (length (content m) =? 0).

Lemma stub_middle_spec l :
  stub_middle l = (map slot l, length (List.filter (is_role Tool) l),
                   length (List.filter is_long_turn l), 0).
Proof.
  induction l as [|m l IH]; [done|]. cbn [stub_middle map]. rw IH. cbn [List.filter].
  unfold slot, stub_slot, is_long_turn, is_role. destruct (role m) eqn:Er; simpl; try done.
  by destruct (length (content m) =? 0).
Qed.

(** What a slot keeps: everything but the text of results and of the assistant's turns. *)
Definition same_slot (m m' : Message) : Prop :=
  role m' = role m /\ content_parts m' = content_parts m /\ thinking m' = thinking m
  /\ tool_calls m' = tool_calls m /\ tool_call_id m' = tool_call_id m /\ tool_name m' = tool_name m
  /\ (role m = User \/ role m = System -> m' = m).

Lemma same_slot_refl m : same_slot m m.
Proof. by repeat split. Qed.

Lemma slot_same m : same_slot m (slot m).
Proof.
  unfold slot, stub_slot. destruct (role m) eqn:Er; try apply same_slot_refl.
  - destruct (_ =? 0); [apply same_slot_refl|]. repeat split. rw Er. by intros [|].
  - repeat split. rw Er. by intros [|].
Qed.

Lemma Forall2_refl_app (p m m' t : list Message) :
  Forall2 same_slot m m' -> Forall2 same_slot (p ++ m ++ t) (p ++ m' ++ t).
Proof.
  intros Hm. assert (forall l, Forall2 same_slot l l) as Hr.
  { intros l. apply Forall_Forall2_diag, Forall_forall. intros x _. apply same_slot_refl. }
  by repeat apply Forall2_app.
Qed.

Lemma slice_split a b (ms : list Message) :
  a <= b -> ms = take a ms ++ slice a b ms ++ drop b ms.
Proof.
  intros Hab. unfold slice. rw -{1}(take_drop b ms) -{1}(take_drop a (take b ms)) take_take Nat.min_l //.
  by rw -app_assoc.
Qed.

(** ** The tail *)

Lemma tail_step (ms : list Message) t m :
  t < length ms -> ms !! (length ms - t - 1) = Some m ->
  estimate_tokens (drop (length ms - S t) ms)
  = (estimate_message_tokens m + estimate_tokens (drop (length ms - t) ms))%N.
Proof.
  intros Ht Hm. assert (length ms - S t = length ms - t - 1) as -> by lia.
  rw (drop_S ms m _ Hm). cbn [estimate_tokens foldr].
  by assert (S (length ms - t - 1) = length ms - t) as -> by lia.
Qed.

Lemma grow_tail_spec fuel ms anchor tb t tok :
  (tb < usize_max)%N -> tok = estimate_tokens (drop (length ms - t) ms) ->
  t <= length ms - anchor -> length ms - anchor - t <= fuel ->
  let t' := grow_tail fuel ms anchor tb t tok in
  t <= t' <= length ms - anchor
  /\ (t' = t \/ (estimate_tokens (drop (length ms - t') ms) <= tb)%N)
  /\ (t' < length ms - anchor -> (tb < estimate_tokens (drop (length ms - S t') ms))%N).
Proof.
  intros Htb. revert t tok. induction fuel as [|fuel IH]; intros t tok Htok Ht Hf.
  { cbn. split; [lia|]. split; [by left|]. lia. }
  cbn [grow_tail]. destruct (Nat.ltb_spec t (length ms - anchor)) as [Hlt|Hge]; cycle 1.
  { split; [lia|]. split; [by left|]. lia. }
  destruct (lookup_lt_is_Some_2 ms (length ms - t - 1) ltac:(lia)) as [m Hm]. rw Hm.
  pose proof (tail_step ms t m ltac:(lia) Hm) as Hs. rw -Htok in Hs.
  unfold saturating_add. destruct (N.ltb_spec tb (N.min usize_max (tok + estimate_message_tokens m))) as [Hb|Hb].
  { split; [lia|]. split; [by left|]. intros _. rw Hs. lia. }
  destruct (IH (S t) (tok + estimate_message_tokens m)%N) as (Hg1 & Hg2 & Hg3); [rw Hs; lia|lia|lia|].
  split; [lia|]. split; [|done]. right. destruct Hg2 as [->|?]; [rw Hs; lia|done].
Qed.

Lemma anchor_le (ms : list Message) : anchor_len ms <= 1.
Proof. unfold anchor_len. destruct ms as [|m ms]; [lia|]. destruct (is_role _ _); lia. Qed.

Lemma tail_fits ms k budget tokens :
  1 <= k -> k < length ms -> (match budget with Some b => b <= usize_max | None => True end)%N ->
  k <= budget_tail_size ms k budget tokens (anchor_len ms) <= length ms - anchor_len ms.
Proof.
  intros Hk Hl Hb. pose proof (anchor_le ms) as Ha. unfold budget_tail_size.
  destruct budget as [b|]; [|lia]. destruct (b <? tokens)%N; [|lia].
  destruct (grow_tail_spec (length ms) ms (anchor_len ms) (b / 4) k
    (estimate_tokens (drop (length ms - k) ms))) as (Ht & _); [|done|lia|lia|lia].
  unfold usize_max in *. apply N.Div0.div_lt_upper_bound. lia.
Qed.

(** The tail that compaction keeps under a budget is the longest that fits: never
    less than the configured minimum, never into the anchor, within a quarter of the
    budget when it was grown, and one message more would exceed that quarter. *)
Lemma grown_tail_is_maximal ms keep b :
  1 <= keep < length ms -> (b <= usize_max)%N -> (b < estimate_tokens ms)%N ->
  let tail := budget_tail_size ms keep (Some b) (estimate_tokens ms) (anchor_len ms) in
  keep <= tail <= length ms - anchor_len ms
  /\ (tail = keep \/ (estimate_tokens (drop (length ms - tail) ms) <= b / 4)%N)
  /\ (tail < length ms - anchor_len ms -> (b / 4 < estimate_tokens (drop (length ms - S tail) ms))%N).
Proof.
  intros Hk Hb Ho tail. pose proof (anchor_le ms) as Ha. unfold tail, budget_tail_size.
  rw (proj2 (N.ltb_lt b _) Ho). apply grow_tail_spec; [|done|lia|lia].
  unfold usize_max in *. apply N.Div0.div_lt_upper_bound. lia.
Qed.

(** ** Compaction *)

Lemma anchor_take (ms : list Message) m : m ∈ take (anchor_len ms) ms -> role m = System.
Proof.
  unfold anchor_len. destruct ms as [|m0 ms]; [by intros ?%elem_of_nil|].
  unfold is_role. case_bool_decide as Hr; cbn [take]; [|by intros ?%elem_of_nil].
  by intros ->%list_elem_of_singleton.
Qed.

(** What compaction makes of a message of the middle: a result becomes the stub, a
    nonempty turn a note of its length, anything else stays. *)
Definition compacted (m m' : Message) : Prop :=
  same_slot m m'
  /\ content m' = match role m with
                  | Tool => TOOL_RESULT_STUB
                  | Assistant => if bool_decide (content m = []) then [] else condensed_text (length (content m))
                  | _ => content m
                  end.

Lemma slot_compacted m : compacted m (slot m).
Proof.
  split; [apply slot_same|]. unfold slot, stub_slot. destruct (content m) as [|c l] eqn:E; cbn [length Nat.eqb].
  - assert (bool_decide (@nil char = []) = true) as -> by by apply bool_decide_eq_true_2.
    destruct (role m); cbn [fst]; [exact E|exact E|exact E|]. unfold stub_tool_result, with_content. cbn [content]. exact eq_refl.
  - assert (bool_decide (c :: l = []) = false) as -> by by apply bool_decide_eq_false_2.
    unfold stub_tool_result, with_content. destruct (role m); cbn [fst content]; [exact E|exact E|exact eq_refl|exact eq_refl].
Qed.

(** The leading system message. *)
Definition leading_system (ms : list Message) : list Message :=
  match ms with
  | m :: _ => if bool_decide (role m = System) then [m] else []
  | [] => []
  end.

Lemma anchor_leading ms : take (anchor_len ms) ms = leading_system ms.
Proof. destruct ms as [|m ms]; [done|]. unfold anchor_len, leading_system, is_role. by case_bool_decide. Qed.

(** The tail that is kept: the configured number of messages or, over a budget, as many
    as a quarter of it holds: the tail fits, when it was grown, and with one message more
    it would not. *)
Definition kept_tail (keep : nat) (budget : option N) (total : N) (middle tail : list Message) : Prop :=
  match budget with
  | Some b =>
      if (b <? total)%N
      then keep <= length tail
           /\ (length tail = keep \/ (estimate_tokens tail <= b / 4)%N)
           /\ (forall earlier m, middle = earlier ++ [m] -> (b / 4 < estimate_tokens (m :: tail))%N)
      else length tail = keep
  | None => length tail = keep
  end.

Lemma budget_tail_kept ms k budget :
  1 <= k -> k < length ms -> (match budget with Some b => b <= usize_max | None => True end)%N ->
  let w := length ms - budget_tail_size ms k budget (estimate_tokens ms) (anchor_len ms) in
  kept_tail k budget (estimate_tokens ms) (slice (anchor_len ms) w ms) (drop w ms).
Proof.
  intros Hk Hl Hb w. pose proof (anchor_le ms) as Ha.
  pose proof (tail_fits ms k budget (estimate_tokens ms) Hk Hl Hb) as Ht.
  unfold kept_tail. destruct budget as [b|]; [|subst w; rw length_drop; cbn; lia].
  destruct (b <? estimate_tokens ms)%N eqn:E; [|subst w; rw length_drop /budget_tail_size E; lia].
  apply N.ltb_lt in E. pose proof (grown_tail_is_maximal ms k b (conj Hk Hl) Hb E) as (Ht1 & Ht2 & Ht3).
  set (t := budget_tail_size _ _ _ _ _) in *. assert (length (drop w ms) = t) as Hlen by (rw length_drop; lia).
  rw Hlen. split; [lia|]. split; [exact Ht2|]. intros earlier m He.
  assert (t < length ms - anchor_len ms) as Hlt.
  { apply (f_equal length) in He. unfold slice in He. rw length_drop length_take length_app /= in He. lia. }
  specialize (Ht3 Hlt). assert (drop (length ms - S t) ms = m :: drop w ms) as Hd; [|by rw Hd in Ht3].
  assert (ms !! (w - 1) = Some m) as Hm.
  { assert (take w ms = take (anchor_len ms) ms ++ earlier ++ [m]) as Htk.
    { rw -He /slice -{1}(take_drop (anchor_len ms) (take w ms)) take_take Nat.min_l; [lia|done]. }
    assert (length (take w ms) = w) as Hw by (rw length_take; lia).
    rw -(lookup_take_lt ms w); [lia|]. rw Htk. rw Htk app_assoc length_app /= in Hw.
    rw app_assoc lookup_app_r; [lia|]. by replace (w - 1 - _) with 0 by lia. }
  replace (length ms - S t) with (w - 1) by lia. rw (drop_S ms m _ Hm).
  by replace (S (w - 1)) with w by lia.
Qed.

(** C37. Compacting to a budget keeps the shape of the conversation: a history of at most
    the configured number of messages is left alone; a longer one is its leading system
    message, a middle and the tail [kept_tail] describes, of which the first and the last
    come back as they are, and the middle message by message: the user's and the system's
    unchanged, each result replaced by the stub and each nonempty turn by a note of its
    length, with the same calls, names and ids.  The counters count exactly those results
    and turns, and no message is added or removed. *)
Theorem compact_to_budget_spec ms keep budget :
  (match budget with Some b => b <= usize_max | None => True end)%N ->
  let r := compact_to_budget ms keep budget in
  let keep := Nat.max keep 1 in
  (length ms <= keep ->
     cr_new_messages r = ms /\ cr_dropped_tool_results r = 0 /\ cr_condensed_assistant_turns r = 0)
  /\ (keep < length ms -> exists middle middle' tail,
       ms = leading_system ms ++ middle ++ tail
       /\ kept_tail keep budget (estimate_tokens ms) middle tail
       /\ cr_new_messages r = leading_system ms ++ middle' ++ tail
       /\ Forall2 compacted middle middle'
       /\ cr_dropped_tool_results r = length (List.filter (is_role Tool) middle)
       /\ cr_condensed_assistant_turns r = length (List.filter is_long_turn middle))
  /\ Forall2 same_slot ms (cr_new_messages r)
  /\ cr_original_count r = length ms /\ cr_compacted_count r = length ms
  /\ cr_tokens_before r = estimate_tokens ms /\ cr_tokens_after r = estimate_tokens (cr_new_messages r).
Proof.
  intros Hb. unfold compact_to_budget, process_middle.
  destruct (Nat.leb_spec (length ms) (Nat.max keep 1)) as [Hle|Hlt].
  { split; [done|]. split; [lia|]. split; [|done].
    apply Forall_Forall2_diag, Forall_forall. intros x _. apply same_slot_refl. }
  pose proof (budget_tail_kept ms (Nat.max keep 1) budget ltac:(lia) Hlt Hb) as Hkept.
  pose proof (tail_fits ms (Nat.max keep 1) budget (estimate_tokens ms) ltac:(lia) Hlt Hb) as Ht.
  set (t := budget_tail_size _ _ _ _ _) in *. set (w := length ms - t) in *.
  pose proof (anchor_le ms) as Ha. assert (anchor_len ms <= w) as Haw by (unfold w; lia).
  pose proof (slice_split (anchor_len ms) w ms Haw) as Hs.
  assert (Forall2 same_slot ms (take (anchor_len ms) ms ++ map slot (slice (anchor_len ms) w ms) ++ drop w ms)) as Hf.
  { rw {1}Hs. apply Forall2_refl_app, Forall2_map_self, slot_same. }
  rw stub_middle_spec. unfold assemble_middle, CompactionResult_from.
  cbn [cr_new_messages cr_dropped_tool_results cr_condensed_assistant_turns cr_original_count
       cr_compacted_count cr_tokens_before cr_tokens_after new_messages dropped_tool_results
       condensed_assistant_turns original_count compacted_count tokens_before tokens_after].
  rw anchor_leading in Hs, Hf |- *. split; [lia|]. split.
  { intros _. exists (slice (anchor_len ms) w ms), (map slot (slice (anchor_len ms) w ms)), (drop w ms).
    split; [exact Hs|]. split; [exact Hkept|]. split; [done|].
    split; [|done]. apply Forall2_map_self, slot_compacted. }
  split; [done|]. split; [done|]. split; [symmetry; by apply Forall2_length in Hf|done].
Qed.

(** ** Microcompaction *)

Lemma microcompact_shape ms threshold keep use_llm drop_threshold :
  let k := Nat.max keep 1 in
  match maybe_microcompact ms threshold keep use_llm drop_threshold with
  | None => length ms <= k + 1 \/ (estimate_tokens ms <= threshold)%N
  | Some r =>
      k + 1 < length ms /\ (threshold < estimate_tokens ms)%N
      /\ exists anchor middle tail summary,
           ms = anchor ++ middle ++ tail /\ length anchor = anchor_len ms
           /\ Forall (fun m => role m = System) anchor /\ length tail = k /\ middle <> []
           /\ mc_messages r = anchor ++ [plain System (context_summary (length middle) summary)] ++ tail
           /\ mc_tokens_after r = estimate_tokens (mc_messages r)
  end.
Proof.
  intros k. unfold maybe_microcompact. fold k. pose proof (anchor_le ms) as Ha.
  destruct (Nat.leb_spec (length ms) (k + 1)) as [Hle|Hlt]; [by left|].
  destruct (N.leb_spec (estimate_tokens ms) threshold) as [Ht|Ht]; [by right|].
  rw (proj2 (Nat.leb_gt (length ms - k) (anchor_len ms))); [lia|].
  split; [done|]. split; [done|].
  unfold process_middle. assert (Nat.max k 1 = k) as -> by lia.
  rw (proj2 (Nat.leb_gt (length ms) (k + 1))) //.
  rw (proj2 (Nat.leb_gt (length ms - k) (anchor_len ms))); [lia|].
  set (w := length ms - k).
  pose proof (slice_split (anchor_len ms) w ms ltac:(unfold w; lia)) as Hs.
  exists (take (anchor_len ms) ms), (slice (anchor_len ms) w ms), (drop w ms). unfold collapse_middle, collapse_text.
  eexists. split; [done|]. split; [rw length_take; lia|].
  split; [by apply Forall_forall; intros m; apply anchor_take|].
  split; [rw length_drop; unfold w; lia|].
  split; [|by split].
  intros He. apply (f_equal length) in He. unfold slice in He. rw length_drop length_take in He.
  cbn [length] in He. unfold w in He. lia.
Qed.

(** Microcompaction happens exactly when the history is longer than the tail and one
    message more and over the threshold; it then replaces what lies between the anchor
    and the tail, at least one message, by one system message that tells how many
    there were, and reports the tokens of the result. *)
Lemma maybe_microcompact_spec ms threshold keep use_llm drop_threshold :
  let k := Nat.max keep 1 in
  match maybe_microcompact ms threshold keep use_llm drop_threshold with
  | None => length ms <= k + 1 \/ (estimate_tokens ms <= threshold)%N
  | Some r =>
      k + 1 < length ms /\ (threshold < estimate_tokens ms)%N
      /\ exists anchor middle tail summary,
           ms = anchor ++ middle ++ tail /\ length anchor = anchor_len ms
           /\ Forall (fun m => role m = System) anchor /\ length tail = k /\ middle <> []
           /\ mc_messages r = anchor ++ [plain System (context_summary (length middle) summary)] ++ tail
           /\ mc_tokens_after r = estimate_tokens (mc_messages r)
  end.
Proof. apply microcompact_shape. Qed.
End Facts.

(** ** Concrete histories *)

#[local] Existing Instance ascii_case.
#[local] Existing Instance ascii_alnum.
#[local] Existing Instance fallback_tokenizer.

(** A system prompt, a question, a call with its result, an answer, a question. *)
Definition demo_history : list Message :=
  [plain System "prompt"; plain User "find the bug";
   mkMessage Assistant (lit "I'll read it") None None
     (Some [mkCall "c1" "read_file" (JObj [(lit "path", JStr "src/a.rs")])]) None None None;
   mkMessage Tool (lit "error: missing ./src/b.rs") None None None (Some (lit "c1")) (Some (lit "read_file")) None;
   plain Assistant "done"; plain User "go on"].

Example demo_compacted :
  map content (cr_new_messages (compact_to_budget demo_history 1 None))
  = [lit "prompt"; lit "find the bug"; condensed_text 12; TOOL_RESULT_STUB; condensed_text 4; lit "go on"].
Proof. vm_compute. done. Qed.

Example demo_summary :
  heuristic_summary demo_history
  = lit "tools used: read_file; paths: src/a.rs, ./src/b.rs; 1 error(s) encountered".
Proof. vm_compute. done. Qed.

(** Compaction of short turns makes the history longer: the markers are longer than what
    they stand for. *)
Example compaction_can_grow :
  (tokens_before (process_middle demo_history StubPerSlot 1 None None)
   < tokens_after (process_middle demo_history StubPerSlot 1 None None))%N.
Proof. vm_compute. done. Qed.

Lemma compact_to_budget_spec_witness :
  exists middle tail, demo_history = leading_system demo_history ++ middle ++ tail
    /\ kept_tail 1 (Some 5%N) (estimate_tokens demo_history) middle tail.
Proof.
  destruct (compact_to_budget_spec demo_history 1 (Some 5%N) ltac:(vm_compute; discriminate)) as (_ & Hl & _).
  destruct (Hl ltac:(vm_compute; lia)) as (middle & _ & tail & Hs & Hk & _). exists middle, tail. split; [exact Hs|exact Hk].
Defined.

Lemma grown_tail_is_maximal_witness :
  1 <= budget_tail_size demo_history 1 (Some 10%N) (estimate_tokens demo_history) 1.
Proof.
  destruct (grown_tail_is_maximal demo_history 1 10%N) as [[Hle _] _].
  - vm_compute. lia.
  - vm_compute. discriminate.
  - vm_compute. done.
  - exact Hle.
Defined.
