(* ===== verification/ContextIndex.v ===== *)
(** * The context index

    Models the data and the retrieval by name of [src/crates/kf-context-index/src/lib.rs]
    and the dropping of changed files of [src/crates/kf-context-index/src/cache.rs].
    Extraction with tree-sitter is not modelled; weights of embeddings are kept as they
    are.  The theorems: an incremental rebuild keeps every embedding with its symbol, and
    what a retrieval reports of a symbol. *)

From Stdlib Require Import ssreflect SpecFloat.
From S2P Require Import Prelude Machine.

(** ** Data *)

Inductive SymbolKind :=
| Function | Struct | Enum | Impl | Module_ | Use | Class_ | Interface | TypeAlias.

Record Symbol := mkSymbol {
  sym_name : str;
  sym_kind : SymbolKind;
  sym_file : str;
  sym_line : N;
  sym_end_line : N;
  sym_doc : option str
}.

Record ImportEdge := mkImport {
  source_file : str;
  imported_symbol : str;
  resolved_file : option str;
  import_line : N
}.

Record CallEdge := mkCallEdge {
  caller_file : str;
  caller_name : str;
  caller_line : N;
  callee_name : str;
  callee_file : option str
}.

Record CallSite := mkSite { site_name : str; site_file : str; site_line : N }.

Record RetrievalResult := mkRetrieval {
  rr_symbol : Symbol;
  imported_by : list str;
  called_by : list CallSite
}.

(** A sparse vector: dimensions with binary32 weights. *)
Definition SparseVec : Type := list (nat * spec_float).
Record SymbolEmbedding := mkEmbedding { symbol_idx : nat; vector : SparseVec }.

Record ContextIndex := mkIndex {
  symbols : list Symbol;
  edges : list ImportEdge;
  call_edges : list CallEdge;
  embeddings : list SymbolEmbedding
}.

Record CachedIndex := mkCached {
  format_version : N;
  head_sha : str;
  c_symbols : list Symbol;
  c_edges : list ImportEdge;
  c_call_edges : list CallEdge;
  c_embeddings : list SymbolEmbedding;
  file_mtimes : list (str * N)
}.

Definition from_cached (cached : CachedIndex) : ContextIndex :=
  mkIndex (c_symbols cached) (c_edges cached) (c_call_edges cached)
    (List.filter (fun e => symbol_idx e <? length (c_symbols cached)) (c_embeddings cached)).

(** ** Retrieval by name *)

Definition resolves_to (file : str) (e : ImportEdge) : bool :=
  match resolved_file e with Some rf => str_eqb rf file | None => false end.
Definition site_of (e : CallEdge) : CallSite := mkSite (caller_name e) (caller_file e) (caller_line e).
Definition sites_of (idx : ContextIndex) (sym : Symbol) : list CallSite :=
  map site_of (List.filter (fun e => str_eqb (callee_name e) (sym_name sym)) (call_edges idx)).

Definition retrieve (idx : ContextIndex) (query : str) (k : nat) : list RetrievalResult :=
  map (fun sym => mkRetrieval sym
                    (map source_file (List.filter (resolves_to (sym_file sym)) (edges idx)))
                    (sites_of idx sym))
    (take k (List.filter (fun s => contains (sym_name s) query) (symbols idx))).

Definition retrieve_symbols (idx : ContextIndex) (query : str) (k : nat) : list Symbol :=
  take k (List.filter (fun s => contains (sym_name s) query) (symbols idx)).

(** The importers of a file, each once, in order. *)
Fixpoint first_seen (seen : list str) (l : list str) : list str :=
  match l with
  | [] => []
  | x :: l' => if bool_decide (x ∈ seen) then first_seen seen l' else x :: first_seen (x :: seen) l'
  end.

Definition to_retrieval_result (idx : ContextIndex) (sym : Symbol) : RetrievalResult :=
  mkRetrieval sym
    (first_seen [] (map source_file (List.filter (resolves_to (sym_file sym)) (edges idx))))
    (sites_of idx sym).

(** ** Dropping changed files *)

Section Drop.
Variable changed : str -> bool.

(** [old_to_new] and the symbols that are kept, [n] of which are already there. *)
Fixpoint keep_symbols (n : nat) (l : list Symbol) : list (option nat) * list Symbol :=
  match l with
  | [] => ([], [])
  | sym :: l' =>
      if changed (sym_file sym)
      then let '(m, kept) := keep_symbols n l' in (None :: m, kept)
      else let '(m, kept) := keep_symbols (S n) l' in (Some n :: m, sym :: kept)
  end.

Definition relink (old_to_new : list (option nat)) (emb : SymbolEmbedding) : option SymbolEmbedding :=
  match mjoin (old_to_new !! symbol_idx emb) with
  | Some new_idx => Some (mkEmbedding new_idx (vector emb))
  | None => None
  end.

Definition unchanged_file (o : option str) : bool := is_none_or (fun f => negb (changed f)) o.

Definition drop_changed (cached : CachedIndex) : ContextIndex :=
  let '(old_to_new, kept) := keep_symbols 0 (c_symbols cached) in
  mkIndex kept
    (List.filter (fun e => negb (changed (source_file e)) && unchanged_file (resolved_file e)) (c_edges cached))
    (List.filter (fun e => negb (changed (caller_file e)) && unchanged_file (callee_file e))
       (c_call_edges cached))
    (omap (relink old_to_new) (c_embeddings cached)).
End Drop.

(** ** Facts *)

Lemma first_seen_elem seen l x : x ∈ first_seen seen l <-> x ∈ l /\ x ∉ seen.
Proof.
  revert seen. induction l as [|y l IH]; intros seen; cbn [first_seen]; [set_solver|].
  case_bool_decide as Hy; rw ?elem_of_cons IH ?elem_of_cons.
  - split; [naive_solver|]. intros [[->|?] ?]; naive_solver.
  - destruct (decide (x = y)) as [->|]; naive_solver.
Qed.

Lemma first_seen_nodup seen l : NoDup (first_seen seen l).
Proof.
  revert seen. induction l as [|y l IH]; intros seen; cbn [first_seen]; [constructor|].
  case_bool_decide; [done|]. constructor; [|done]. rw first_seen_elem. set_solver.
Qed.

(** What is reported of a symbol: every file whose import resolved to the symbol's
    file, once; and every call of its name. *)
Lemma to_retrieval_result_spec idx sym :
  let r := to_retrieval_result idx sym in
  NoDup (imported_by r)
  /\ (forall f, f ∈ imported_by r <->
        exists e, e ∈ edges idx /\ source_file e = f /\ resolved_file e = Some (sym_file sym))
  /\ (forall s, s ∈ called_by r <->
        exists e, e ∈ call_edges idx /\ site_of e = s /\ callee_name e = sym_name sym).
Proof.
  intros r. split; [apply first_seen_nodup|]. split.
  - intros f. cbn [imported_by r to_retrieval_result]. rw first_seen_elem list_elem_of_fmap. split.
    + intros [(e & -> & [He Hr]%list_elem_of_In%filter_In) _]. exists e.
      split; [by apply list_elem_of_In|]. split; [done|]. unfold resolves_to in Hr.
      destruct (resolved_file e) as [rf|]; [|done]. by apply str_eqb_eq in Hr as ->.
    + intros (e & He & <- & Hr). split; [|apply not_elem_of_nil]. exists e. split; [done|].
      apply list_elem_of_In, filter_In. split; [by apply list_elem_of_In|].
      unfold resolves_to. by rw Hr str_eqb_refl.
  - intros s. cbn [called_by r to_retrieval_result]. unfold sites_of. rw list_elem_of_fmap. split.
    + intros (e & -> & [He Hr]%list_elem_of_In%filter_In). exists e.
      split; [by apply list_elem_of_In|]. split; [done|]. by apply str_eqb_eq.
    + intros (e & He & <- & Hr). exists e. split; [done|]. apply list_elem_of_In, filter_In.
      split; [by apply list_elem_of_In|]. by apply str_eqb_eq.
Qed.

Section DropFacts.
Variable changed : str -> bool.

Lemma keep_symbols_kept n l :
  (keep_symbols changed n l).2 = List.filter (fun s => negb (changed (sym_file s))) l.
Proof.
  revert n. induction l as [|s l IH]; intros n; [done|]. cbn [keep_symbols List.filter].
  destruct (changed (sym_file s)); cbn [negb].
  - specialize (IH n). by destruct (keep_symbols changed n l).
  - specialize (IH (S n)). destruct (keep_symbols changed (S n) l). cbn [snd] in *. by rw IH.
Qed.

Lemma keep_symbols_index n l i :
  mjoin ((keep_symbols changed n l).1 !! i) =
    match l !! i with
    | Some s => if changed (sym_file s) then None
                else Some (n + length (List.filter (fun s => negb (changed (sym_file s))) (take i l)))
    | None => None
    end.
Proof.
  revert n i. induction l as [|s l IH]; intros n i; [done|]. cbn [keep_symbols].
  destruct (changed (sym_file s)) eqn:E.
  - specialize (IH n). destruct (keep_symbols changed n l). cbn [fst] in *. destruct i as [|i].
    + cbn. by rw E.
    + cbn [lookup list_lookup take List.filter]. rw E. cbn [negb]. apply IH.
  - specialize (IH (S n)). destruct (keep_symbols changed (S n) l). cbn [fst] in *. destruct i as [|i].
    + cbn. rw E. f_equal. lia.
    + cbn [lookup list_lookup take List.filter]. rw E. cbn [negb length].
      rw IH. destruct (l !! i) as [s'|]; [|done].
      destruct (changed (sym_file s')); [done|]. f_equal. lia.
Qed.

Lemma filter_lookup {A} (p : A -> bool) l i x :
  l !! i = Some x -> p x = true -> List.filter p l !! length (List.filter p (take i l)) = Some x.
Proof.
  revert i. induction l as [|y l IH]; intros i; [done|]. destruct i as [|i].
  - cbn. intros [= ->] Hp. by rw Hp.
  - intros Hi Hp. cbn [take List.filter]. destruct (p y); [|by apply IH]. cbn [length]. by apply IH.
Qed.

(** C39.  An incremental rebuild keeps every embedding with its symbol: after the changed
    files are dropped, the symbols are those of the other files in their order, every
    embedding left points at the symbol it was computed for, with the same vector, and
    the embedding of every symbol of an unchanged file is left. *)
Theorem drop_changed_relinks cached :
  let idx := drop_changed changed cached in
  symbols idx = List.filter (fun s => negb (changed (sym_file s))) (c_symbols cached)
  /\ (forall e, e ∈ embeddings idx ->
        exists e0 s, e0 ∈ c_embeddings cached /\ vector e = vector e0
          /\ c_symbols cached !! symbol_idx e0 = Some s /\ symbols idx !! symbol_idx e = Some s)
  /\ (forall e0 s, e0 ∈ c_embeddings cached -> c_symbols cached !! symbol_idx e0 = Some s ->
        changed (sym_file s) = false ->
        exists e, e ∈ embeddings idx /\ vector e = vector e0 /\ symbols idx !! symbol_idx e = Some s).
Proof.
  intros idx. unfold idx, drop_changed. clear idx.
  pose proof (keep_symbols_kept 0 (c_symbols cached)) as Hk.
  pose proof (keep_symbols_index 0 (c_symbols cached)) as Hi.
  destruct (keep_symbols changed 0 (c_symbols cached)) as [m kept]. cbn [fst snd] in *.
  cbn [symbols embeddings]. split; [done|]. split.
  - intros e (e0 & He0 & Hr)%list_elem_of_omap. unfold relink in Hr. rw Hi in Hr.
    destruct (c_symbols cached !! symbol_idx e0) as [s|] eqn:Es; [|done].
    destruct (changed (sym_file s)) eqn:Ec; [done|]. injection Hr as <-.
    exists e0, s. split; [done|]. split; [done|]. split; [done|]. rw Hk. cbn [symbol_idx].
    apply filter_lookup; [done|by rw Ec].
  - intros e0 s He0 Es Ec.
    exists (mkEmbedding (length (List.filter (fun s => negb (changed (sym_file s)))
                                   (take (symbol_idx e0) (c_symbols cached)))) (vector e0)).
    split; [|split; [done|rw Hk; apply filter_lookup; [done|by rw Ec]]].
    apply list_elem_of_omap. exists e0. split; [done|]. unfold relink. by rw Hi Es Ec.
Qed.

(** The import of a changed file by an unchanged one is dropped with the changed file,
    though only changed files are read again: who imports a changed file is forgotten. *)
Lemma import_of_changed_dropped cached e f :
  resolved_file e = Some f -> changed f = true -> e ∉ edges (drop_changed changed cached).
Proof.
  intros Hr Hc. unfold drop_changed. destruct (keep_symbols _ _ _) as [m kept]. cbn [edges].
  intros [_ He]%list_elem_of_In%filter_In. unfold unchanged_file in He. rw Hr /= Hc in He.
  by rw andb_false_r in He.
Qed.
End DropFacts.
