(* ===== verification/GraphWalk.v ===== *)
(** * Retrieval by walking the graph of imports and calls

    Models [src/crates/kf-context-index/src/graph_walk.rs]: a walk from a symbol along
    import and call edges in both directions, with a stack, revisiting a symbol when a
    shorter way to it is found.  The iteration order of the hash map is a parameter.
    The theorems: the loop ends, and its result is exactly the symbols within the bound,
    each with its least number of hops. *)

From Stdlib Require Import ssreflect SpecFloat.
From S2P Require Import Prelude Machine ContextIndex.

(** ** Neighbours *)

Definition CALL_WEIGHT : f32 := f32_of_Z 1.
Definition IMPORT_WEIGHT : f32 := f32_decimal 5 1.
Definition SAME_FILE_BONUS : f32 := f32_decimal 3 1.

Definition SymbolKey : Type := str * str.
Definition key_sym (s : Symbol) : SymbolKey := (sym_file s, sym_name s).

(** The positions of the symbols that satisfy a test. *)
Fixpoint positions_from (n : nat) (p : Symbol -> bool) (l : list Symbol) : list nat :=
  match l with
  | [] => []
  | s :: l' => if p s then n :: positions_from (S n) p l' else positions_from (S n) p l'
  end.
Definition positions (p : Symbol -> bool) (l : list Symbol) : list nat := positions_from 0 p l.

Definition find_symbol_idx (l : list Symbol) (target : Symbol) : option nat :=
  head (positions (fun s => str_eqb (sym_file s) (sym_file target) && str_eqb (sym_name s) (sym_name target)) l).

Definition forward_imports (sym : Symbol) (es : list ImportEdge) (l : list Symbol) : list nat :=
  List.filter (fun e => str_eqb (source_file e) (sym_file sym)) es ≫= fun e =>
  match resolved_file e with
  | Some rf => positions (fun s => str_eqb (sym_file s) rf) l
  | None => []
  end.

Definition reverse_imports (sym : Symbol) (es : list ImportEdge) (l : list Symbol) : list nat :=
  List.filter (resolves_to (sym_file sym)) es ≫= fun e =>
  positions (fun s => str_eqb (sym_file s) (source_file e)) l.

Definition forward_calls (sym : Symbol) (cs : list CallEdge) (l : list Symbol) : list nat :=
  List.filter (fun e => str_eqb (caller_name e) (sym_name sym) && str_eqb (caller_file e) (sym_file sym)) cs
  ≫= fun e => positions (fun s => str_eqb (sym_name s) (callee_name e)) l.

Definition reverse_calls (sym : Symbol) (cs : list CallEdge) (l : list Symbol) : list nat :=
  List.filter (fun e => str_eqb (callee_name e) (sym_name sym)) cs ≫= fun e =>
  positions (fun s => str_eqb (sym_name s) (caller_name e) && str_eqb (sym_file s) (caller_file e)) l.

Definition weighted_neighbors (idx : ContextIndex) (sym : Symbol) : list (nat * f32) :=
  map (fun n => (n, IMPORT_WEIGHT)) (forward_imports sym (edges idx) (symbols idx))
  ++ map (fun n => (n, IMPORT_WEIGHT)) (reverse_imports sym (edges idx) (symbols idx))
  ++ map (fun n => (n, CALL_WEIGHT)) (forward_calls sym (call_edges idx) (symbols idx))
  ++ map (fun n => (n, CALL_WEIGHT)) (reverse_calls sym (call_edges idx) (symbols idx)).

(** ** The walk *)

(** The maps of the walk; the frontier is a stack with its top first. *)
Record Walk := mkWalk {
  best : gmap SymbolKey (nat * nat);
  best_weight : gmap SymbolKey f32;
  visited : gset SymbolKey;
  frontier : list (nat * nat)
}.

Section Walking.
Variable idx : ContextIndex.
Variable max_hops : nat.

Definition relax_neighbor (next_hops : nat) (st : Walk) (next : nat * f32) : Walk :=
  match symbols idx !! next.1 with
  | None => st
  | Some s =>
      let k := key_sym s in
      let is_new := negb (bool_decide (k ∈ visited st)) in
      let is_closer := is_none_or (fun b => next_hops <? snd b) (best st !! k) in
      if is_new || is_closer then
        mkWalk (<[k := (next.1, next_hops)]> (best st)) (<[k := next.2]> (best_weight st))
          ({[k]} ∪ visited st) ((next.1, next_hops) :: frontier st)
      else st
  end.

Definition visit (i hops : nat) (st : Walk) : Walk :=
  if max_hops <=? hops then st
  else match symbols idx !! i with
       | Some sym => foldl (relax_neighbor (S hops)) st (weighted_neighbors idx sym)
       | None => st
       end.

Definition pop_frontier (st : Walk) (rest : list (nat * nat)) : Walk :=
  mkWalk (best st) (best_weight st) (visited st) rest.

(** [while let Some(..) = frontier.pop()]; [None] is out of fuel. *)
Fixpoint walk_loop (fuel : nat) (st : Walk) : option Walk :=
  match fuel with
  | O => None
  | S fuel' =>
      match frontier st with
      | [] => Some st
      | (i, hops) :: rest => walk_loop fuel' (visit i hops (pop_frontier st rest))
      end
  end.

Definition walk_fuel : nat := S (S (length (symbols idx) * S max_hops)).

(** ** Ranking *)

Definition score_for (hops : nat) (weight : f32) (file start_file : str) : f32 :=
  let base := f32_div weight (f32_of_Z (Z.of_nat (Nat.max hops 1))) in
  if str_eqb file start_file then f32_add base SAME_FILE_BONUS else base.

(** The order of names: by bytes. *)
Fixpoint name_cmp (a b : str) : comparison :=
  match a, b with
  | [], [] => Eq
  | [], _ :: _ => Lt
  | _ :: _, [] => Gt
  | x :: a', y :: b' => match (x ?= y)%N with Eq => name_cmp a' b' | c => c end
  end.

Definition Scored : Type := f32 * Symbol * nat.
Definition scored_cmp (a b : Scored) : comparison :=
  match match SFcompare b.1.1 a.1.1 with Some c => c | None => Eq end with
  | Eq => name_cmp (sym_name a.1.2) (sym_name b.1.2)
  | c => c
  end.

(** A stable sort. *)
Fixpoint insert_scored (x : Scored) (l : list Scored) : list Scored :=
  match l with
  | [] => [x]
  | y :: l' => match scored_cmp x y with Gt => y :: insert_scored x l' | _ => x :: l end
  end.
Definition sort_scored (l : list Scored) : list Scored := foldr insert_scored [] l.

Definition score_entry (st : Walk) (start_file : str) (e : SymbolKey * (nat * nat)) : option Scored :=
  match symbols idx !! e.2.1 with
  | Some s =>
      Some (score_for e.2.2 (unwrap_or CALL_WEIGHT (best_weight st !! e.1)) (sym_file s) start_file, s, e.2.2)
  | None => None
  end.

Variable iteration : list (SymbolKey * (nat * nat)) -> list (SymbolKey * (nat * nat)).

Definition rank (st : Walk) (start_file : str) : list (Symbol * nat) :=
  map (fun x => (x.1.2, x.2))
    (sort_scored (omap (score_entry st start_file) (iteration (map_to_list (best st))))).

Definition start_walk (start_idx : nat) (s : Symbol) : Walk :=
  mkWalk {[key_sym s := (start_idx, 0)]} {[key_sym s := CALL_WEIGHT]} {[key_sym s]} [(start_idx, 0)].

Definition graph_walk (start : Symbol) : option (list (Symbol * nat)) :=
  match find_symbol_idx (symbols idx) start with
  | None => Some [(start, 0)]
  | Some start_idx =>
      match symbols idx !! start_idx with
      | Some s => option_map (fun st => rank st (sym_file s)) (walk_loop walk_fuel (start_walk start_idx s))
      | None => None
      end
  end.
End Walking.

(** ** Distances *)

Lemma positions_from_elem n p l i :
  i ∈ positions_from n p l <-> exists s, n <= i /\ l !! (i - n) = Some s /\ p s = true.
Proof.
  revert n. induction l as [|s l IH]; intros n; cbn [positions_from].
  { split; [by intros ?%elem_of_nil|]. by intros (s & _ & ? & _). }
  assert (i ∈ positions_from (S n) p l <-> exists s', S n <= i /\ (s :: l) !! (i - n) = Some s' /\ p s' = true) as Hr.
  { rw IH. split; intros (s' & Hle & Hs & Hp); exists s'; (split; [lia|]); (split; [|done]).
    - by assert (i - n = S (i - S n)) as -> by lia.
    - by assert (i - n = S (i - S n)) as He by lia; rw He in Hs. }
  destruct (p s) eqn:Ep; rw ?elem_of_cons Hr.
  - split.
    + intros [->|(s' & ? & ? & ?)]; [exists s; rw Nat.sub_diag; by split; [lia|]|exists s'; by split; [lia|]].
    + intros (s' & Hle & Hs & Hp). destruct (decide (i = n)) as [->|]; [by left|right].
      exists s'. by split; [lia|].
  - split.
    + intros (s' & ? & ? & ?). exists s'. by split; [lia|].
    + intros (s' & Hle & Hs & Hp). exists s'. split; [|done]. destruct (decide (i = n)) as [->|]; [|lia].
      rw Nat.sub_diag in Hs. injection Hs as <-. congruence.
Qed.

Lemma positions_elem p l i : i ∈ positions p l <-> exists s, l !! i = Some s /\ p s = true.
Proof.
  unfold positions. rw positions_from_elem Nat.sub_0_r. split; intros (s & Hs); exists s; [by destruct Hs|].
  split; [lia|done].
Qed.

Section Distance.
Variable idx : ContextIndex.

(** One symbol leads to another: an edge of the graph, on files and names. *)
Definition leads_to (s t : Symbol) : Prop :=
  exists j w, (j, w) ∈ weighted_neighbors idx s /\ symbols idx !! j = Some t.

(** [k] is reached in [n] hops. *)
Inductive reach (start : SymbolKey) : nat -> SymbolKey -> Prop :=
| reach_start : reach start 0 start
| reach_step n s t : reach start n (key_sym s) -> s ∈ symbols idx -> leads_to s t ->
    reach start (S n) (key_sym t).

(** Neighbours depend on the file and the name only. *)
Lemma neighbors_key s s' : key_sym s = key_sym s' -> weighted_neighbors idx s = weighted_neighbors idx s'.
Proof.
  intros [= Hf Hn]. unfold weighted_neighbors, forward_imports, reverse_imports, forward_calls, reverse_calls.
  by rw Hf Hn.
Qed.

Lemma neighbor_inside s j w : (j, w) ∈ weighted_neighbors idx s -> exists t, symbols idx !! j = Some t.
Proof.
  assert (forall v (l : list nat), (forall i, i ∈ l -> exists t, symbols idx !! i = Some t) ->
    (j, w) ∈ map (fun n => (n, v)) l -> exists t, symbols idx !! j = Some t) as Hm.
  { intros v l Hl (i & [= -> ->] & Hi)%list_elem_of_fmap. by apply Hl. }
  unfold weighted_neighbors. rw !elem_of_app.
  intros [Hj|[Hj|[Hj|Hj]]]; eapply Hm in Hj; try done; intros i Hi; apply list_elem_of_bind in Hi as (e & Hi & _).
  1: destruct (resolved_file e); [|by apply not_elem_of_nil in Hi].
  all: apply positions_elem in Hi as (t & Ht & _); by exists t.
Qed.
End Distance.

(** ** The invariant *)

Section Invariant.
Variable idx : ContextIndex.
Variable max_hops : nat.
Variable start : SymbolKey.

Abbreviation hops_of st k := (option_map snd (best st !! k)).

(** The neighbours of the symbol with key [k] are known within one hop more than [h]. *)
Definition closed (st : Walk) (k : SymbolKey) (h : nat) : Prop :=
  forall s t, s ∈ symbols idx -> key_sym s = k -> leads_to idx s t ->
    exists h', hops_of st (key_sym t) = Some h' /\ h' <= S h.

Record walk_inv (st : Walk) : Prop := {
  inv_visited : forall k, k ∈ visited st <-> is_Some (best st !! k);
  inv_start : hops_of st start = Some 0;
  inv_best : forall k i h, best st !! k = Some (i, h) ->
    h <= max_hops /\ reach idx start h k /\ exists s, symbols idx !! i = Some s /\ key_sym s = k;
  inv_frontier : forall i h, (i, h) ∈ frontier st ->
    h <= max_hops /\ exists s, symbols idx !! i = Some s /\ reach idx start h (key_sym s)
}.

(** Every symbol short of the bound is closed or waits on the stack. *)
Definition progress (st : Walk) : Prop :=
  forall k h, hops_of st k = Some h -> h < max_hops ->
    closed st k h \/ exists i s, (i, h) ∈ frontier st /\ symbols idx !! i = Some s /\ key_sym s = k.

(** The maps only improve. *)
Definition improves (st st' : Walk) : Prop :=
  (forall k h, hops_of st k = Some h -> exists h', hops_of st' k = Some h' /\ h' <= h)
  /\ (forall x, x ∈ frontier st -> x ∈ frontier st').

Lemma improves_refl st : improves st st.
Proof. split; [|done]. intros k h Hk. by exists h. Qed.

Lemma improves_trans st st' st'' : improves st st' -> improves st' st'' -> improves st st''.
Proof.
  intros [Ha Hb] [Hc Hd]. split; [|by intros x Hx; apply Hd, Hb].
  intros k h (h' & Hk & Hle)%Ha. apply Hc in Hk as (h'' & Hk & Hle'). exists h''. split; [done|lia].
Qed.

Lemma closed_mono st st' k h h' : improves st st' -> h <= h' -> closed st k h -> closed st' k h'.
Proof.
  intros [Hi _] Hle Hc s t Hs Hk Ht. destruct (Hc s t Hs Hk Ht) as (h1 & Hh1 & Hle1).
  apply Hi in Hh1 as (h2 & Hh2 & Hle2). exists h2. split; [done|lia].
Qed.

(** What one neighbour changes: nothing, or a shorter way that goes on the stack. *)
Lemma relax_cases st h j w t :
  walk_inv st -> symbols idx !! j = Some t ->
  let st' := relax_neighbor idx h st (j, w) in
  (st' = st /\ exists h', hops_of st (key_sym t) = Some h' /\ h' <= h)
  \/ (best st' = <[key_sym t := (j, h)]> (best st) /\ frontier st' = (j, h) :: frontier st
      /\ visited st' = {[key_sym t]} ∪ visited st
      /\ (forall h', hops_of st (key_sym t) = Some h' -> h < h')).
Proof.
  intros Hinv Hj st'. unfold st', relax_neighbor. cbn [fst snd]. rw Hj.
  pose proof (inv_visited st Hinv (key_sym t)) as Hv.
  destruct (best st !! key_sym t) as [[i h']|] eqn:Eb; cbn [is_none_or option_map snd] in *.
  - rw bool_decide_eq_true_2; [apply Hv; by eexists|]. cbn [negb orb].
    destruct (Nat.ltb_spec h h') as [Hlt|Hge].
    + right. repeat split. by intros ? [= <-].
    + left. split; [done|]. by exists h'.
  - right. rw orb_true_r. repeat split. done.
Qed.

Lemma relax_sound st h i s j w :
  walk_inv st -> h < max_hops -> symbols idx !! i = Some s -> reach idx start h (key_sym s) ->
  (j, w) ∈ weighted_neighbors idx s ->
  let st' := relax_neighbor idx (S h) st (j, w) in
  walk_inv st' /\ improves st st'
  /\ (exists t, symbols idx !! j = Some t /\ exists h', hops_of st' (key_sym t) = Some h' /\ h' <= S h)
  /\ (forall k h, hops_of st' k = Some h -> hops_of st k = Some h
        \/ exists i s, (i, h) ∈ frontier st' /\ symbols idx !! i = Some s /\ key_sym s = k).
Proof.
  intros Hinv Hh Hi Hr Hn st'. destruct (neighbor_inside idx s j w Hn) as [t Ht].
  assert (reach idx start (S h) (key_sym t)) as Hrt.
  { eapply reach_step; [done| |by exists j, w]. by eapply list_elem_of_lookup_2. }
  pose proof (relax_cases st (S h) j w t Hinv Ht) as Hc. cbv zeta in Hc. fold st' in Hc.
  destruct Hc as [[He Hb]|(Hb & Hf & Hv & Hs)].
  { rw He. split; [done|]. split; [apply improves_refl|]. split; [by exists t|]. intros k h0 Hk. by left. }
  split; [|split; [|split]].
  - split; rw ?Hb ?Hf ?Hv.
    + intros k. rw elem_of_union elem_of_singleton (inv_visited st Hinv k) lookup_insert_is_Some'. split; (intros [He|?]; [left; congruence|by right]).
    + destruct (decide (key_sym t = start)) as [E|E].
      * rw E in Hs. specialize (Hs 0 (inv_start st Hinv)). lia.
      * rw lookup_insert_ne //. apply Hinv.
    + intros k i' h'. rw lookup_insert_Some. intros [[<- [= <- <-]]|[_ Hk]]; [|by apply Hinv in Hk].
      split; [lia|]. split; [done|]. by exists t.
    + intros i' h' [[= -> ->]|Hf']%elem_of_cons; [|by apply Hinv in Hf']. split; [lia|]. by exists t.
  - split; rw ?Hb ?Hf; [|intros x Hx; by right]. intros k h' Hk.
    destruct (decide (key_sym t = k)) as [<-|Hne].
    + rw lookup_insert_eq. exists (S h). split; [done|]. specialize (Hs h' Hk). lia.
    + rw lookup_insert_ne //. by exists h'.
  - exists t. split; [done|]. exists (S h). rw Hb lookup_insert_eq. done.
  - intros k h'. rw Hb Hf. destruct (decide (key_sym t = k)) as [<-|Hne].
    + rw lookup_insert_eq. intros [= <-]. right. exists j, t. split; [by left|done].
    + rw lookup_insert_ne //. by left.
Qed.

Lemma fold_sound h i s ns st :
  (forall x, x ∈ ns -> x ∈ weighted_neighbors idx s) ->
  walk_inv st -> h < max_hops -> symbols idx !! i = Some s -> reach idx start h (key_sym s) ->
  let st' := foldl (relax_neighbor idx (S h)) st ns in
  walk_inv st' /\ improves st st'
  /\ (forall j w, (j, w) ∈ ns ->
        exists t, symbols idx !! j = Some t /\ exists h', hops_of st' (key_sym t) = Some h' /\ h' <= S h)
  /\ (forall k h', hops_of st' k = Some h' -> hops_of st k = Some h'
        \/ exists i s, (i, h') ∈ frontier st' /\ symbols idx !! i = Some s /\ key_sym s = k).
Proof.
  revert st. induction ns as [|[j w] ns IH]; intros st Hns Hinv Hh Hi Hr; cbn [foldl].
  { split; [done|]. split; [apply improves_refl|]. split; [by intros j w ?%elem_of_nil|]. by left. }
  destruct (relax_sound st h i s j w Hinv Hh Hi Hr (Hns _ ltac:(by left))) as (Hi1 & Him1 & Hn1 & Hk1).
  set (st1 := relax_neighbor idx (S h) st (j, w)) in *.
  destruct (IH st1 (fun x Hx => Hns x ltac:(by right)) Hi1 Hh Hi Hr) as (Hi2 & Him2 & Hn2 & Hk2).
  split; [done|]. split; [by eapply improves_trans|]. split.
  - intros j' w' [[= -> ->]|Hj]%elem_of_cons; [|by eapply Hn2].
    destruct Hn1 as (t & Ht & h1 & Hh1 & Hle1). exists t. split; [done|].
    apply (proj1 Him2) in Hh1 as (h2 & Hh2 & Hle2). exists h2. split; [done|lia].
  - intros k h' [Hk|?]%Hk2; [|by right]. apply Hk1 in Hk as [?|(i' & s' & Hf & Hs)]; [by left|right].
    exists i', s'. split; [by apply Him2|done].
Qed.

Lemma visit_sound st i h rest :
  walk_inv st -> progress st -> frontier st = (i, h) :: rest ->
  let st' := visit idx max_hops i h (pop_frontier st rest) in walk_inv st' /\ progress st'.
Proof.
  intros Hinv Hp Hf st'. unfold st', visit.
  assert (walk_inv (pop_frontier st rest)) as Hinv0.
  { split; try apply Hinv. intros i' h' Hin. apply Hinv. rw Hf. by right. }
  destruct (Nat.leb_spec max_hops h) as [Hge|Hlt].
  { split; [done|]. intros k h' Hk Hh'. destruct (Hp k h' Hk Hh') as [Hc|(i' & s & Hin & Hs)]; [by left|].
    rw Hf in Hin. apply elem_of_cons in Hin as [[= -> ->]|Hin]; [lia|]. right. by exists i', s. }
  destruct (inv_frontier st Hinv i h) as (Hle & s & Hs & Hr); [rw Hf; by left|]. rw Hs.
  destruct (fold_sound h i s (weighted_neighbors idx s) (pop_frontier st rest) (fun x Hx => Hx) Hinv0 Hlt Hs Hr)
    as (Hi1 & Him1 & Hn1 & Hk1).
  set (st1 := foldl _ _ _) in *. split; [done|]. intros k h' Hk Hh'.
  apply Hk1 in Hk as [Hk|?]; [|by right].
  destruct (Hp k h' Hk Hh') as [Hc|(i' & s' & Hin & Hs' & Hks)].
  - left. apply (closed_mono (pop_frontier st rest) st1 k h' h' Him1); [done|exact Hc].
  - rw Hf in Hin. apply elem_of_cons in Hin as [[= -> ->]|Hin].
    + left. rw Hs in Hs'. injection Hs' as <-. intros s2 t Hs2 Hk2 (j & w & Hj & Ht).
      rw (neighbors_key idx s2 s) in Hj; [by rw Hk2 Hks|].
      destruct (Hn1 j w Hj) as (t' & Ht' & Hh1). rw Ht in Ht'. by injection Ht' as <-.
    + right. exists i', s'. split; [by apply Him1|done].
Qed.

(** ** The loop ends *)

Definition gap (st : Walk) (k : SymbolKey) : nat :=
  match best st !! k with Some (_, h) => h | None => S max_hops end.
Definition total_gap (st : Walk) (l : list Symbol) : nat := foldr (fun s n => gap st (key_sym s) + n) 0 l.
Definition walk_measure (st : Walk) : nat := length (frontier st) + total_gap st (symbols idx).

Lemma total_gap_le st st' l :
  (forall k, gap st' k <= gap st k) -> total_gap st' l <= total_gap st l.
Proof. intros Hg. unfold total_gap. induction l as [|s l IH]; cbn [foldr]; [lia|]. specialize (Hg (key_sym s)). lia. Qed.

Lemma total_gap_lt st st' l t :
  (forall k, gap st' k <= gap st k) -> gap st' (key_sym t) < gap st (key_sym t) -> t ∈ l ->
  total_gap st' l < total_gap st l.
Proof.
  intros Hg Ht. induction l as [|s l IH]; [by intros ?%elem_of_nil|].
  pose proof (total_gap_le st st' l Hg) as Hle. pose proof (Hg (key_sym s)) as Hs. unfold total_gap in *.
  intros [<-|Hin]%elem_of_cons; cbn [foldr]; [lia|]. specialize (IH Hin). lia.
Qed.

Lemma relax_measure st h x :
  walk_inv st -> h < max_hops -> walk_measure (relax_neighbor idx (S h) st x) <= walk_measure st.
Proof.
  intros Hinv Hh. destruct x as [j w]. destruct (symbols idx !! j) as [t|] eqn:Ht; cycle 1.
  { unfold relax_neighbor. cbn [fst]. by rw Ht. }
  pose proof (relax_cases st (S h) j w t Hinv Ht) as Hc. cbv zeta in Hc.
  destruct Hc as [[-> _]|(Hb & Hf & _ & Hs)]; [lia|]. set (st' := relax_neighbor _ _ _ _) in *.
  assert (forall k, gap st' k <= gap st k /\ (k = key_sym t -> gap st' k < gap st k)) as Hg.
  { intros k. unfold gap. rw Hb. destruct (decide (key_sym t = k)) as [<-|Hne].
    - rw lookup_insert_eq. destruct (best st !! key_sym t) as [[i h']|] eqn:E; cbn in Hs.
      + specialize (Hs h' eq_refl). lia.
      + lia.
    - rw lookup_insert_ne //. }
  unfold walk_measure. rw Hf. cbn [length].
  enough (total_gap st' (symbols idx) < total_gap st (symbols idx)) by lia.
  apply (total_gap_lt st st' _ t); [intros k; apply Hg|by apply Hg|]. by eapply list_elem_of_lookup_2.
Qed.

Lemma fold_measure h i s ns st :
  (forall x, x ∈ ns -> x ∈ weighted_neighbors idx s) ->
  walk_inv st -> h < max_hops -> symbols idx !! i = Some s -> reach idx start h (key_sym s) ->
  walk_measure (foldl (relax_neighbor idx (S h)) st ns) <= walk_measure st.
Proof.
  revert st. induction ns as [|[j w] ns IH]; intros st Hns Hinv Hh Hi Hr; cbn [foldl]; [done|].
  destruct (relax_sound st h i s j w Hinv Hh Hi Hr (Hns _ ltac:(by left))) as (Hi1 & _).
  etrans; [|by apply (relax_measure st h (j, w))]. apply IH; try done. intros x Hx. apply Hns. by right.
Qed.

Lemma visit_measure st i h rest :
  walk_inv st -> frontier st = (i, h) :: rest ->
  walk_measure (visit idx max_hops i h (pop_frontier st rest)) < walk_measure st.
Proof.
  intros Hinv Hf. assert (walk_measure (pop_frontier st rest) < walk_measure st) as Hlt.
  { unfold walk_measure, total_gap, gap. rw Hf. cbn [frontier best pop_frontier length]. lia. }
  assert (walk_inv (pop_frontier st rest)) as Hinv0.
  { split; try apply Hinv. intros i' h' Hin. apply Hinv. rw Hf. by right. }
  unfold visit. destruct (Nat.leb_spec max_hops h) as [Hge|Hh]; [done|].
  destruct (inv_frontier st Hinv i h) as (Hle & s & Hs & Hr); [rw Hf; by left|]. rw Hs.
  eapply Nat.le_lt_trans; [|done]. by apply (fold_measure h i s).
Qed.

Lemma walk_loop_sound fuel st :
  walk_inv st -> progress st -> walk_measure st < fuel ->
  exists st', walk_loop idx max_hops fuel st = Some st' /\ walk_inv st' /\ progress st' /\ frontier st' = [].
Proof.
  revert st. induction fuel as [|fuel IH]; intros st Hinv Hp Hm; [lia|]. cbn [walk_loop].
  destruct (frontier st) as [|[i h] rest] eqn:Ef; [by exists st|].
  destruct (visit_sound st i h rest Hinv Hp Ef) as [Hi1 Hp1].
  pose proof (visit_measure st i h rest Hinv Ef). apply IH; try done. lia.
Qed.

(** A walk that has ended knows the least number of hops. *)
Lemma ended_least st n k :
  walk_inv st -> progress st -> frontier st = [] -> reach idx start n k -> n <= max_hops ->
  exists h, hops_of st k = Some h /\ h <= n.
Proof.
  intros Hinv Hp Hf Hr. induction Hr as [|n s t Hr IH Hs Ht]; intros Hn.
  { exists 0. split; [apply Hinv|done]. }
  destruct IH as (h & Hk & Hle); [lia|]. destruct (Hp (key_sym s) h Hk ltac:(lia)) as [Hc|(i & s' & Hin & _)].
  - destruct (Hc s t Hs eq_refl Ht) as (h' & Hk' & Hle'). exists h'. split; [done|lia].
  - rw Hf in Hin. by apply elem_of_nil in Hin.
Qed.
End Invariant.

(** ** The result *)

Lemma find_symbol_key l target i :
  find_symbol_idx l target = Some i -> exists s, l !! i = Some s /\ key_sym s = key_sym target.
Proof.
  unfold find_symbol_idx. intros Hh. assert (i ∈ positions
    (fun s => str_eqb (sym_file s) (sym_file target) && str_eqb (sym_name s) (sym_name target)) l) as Hi.
  { destruct (positions _ l); [done|]. injection Hh as <-. by left. }
  apply positions_elem in Hi as (s & Hs & [Hf Hn]%andb_true_iff). exists s. split; [done|].
  apply str_eqb_eq in Hf, Hn. unfold key_sym. by rw Hf Hn.
Qed.

Lemma insert_scored_perm x l : Permutation (insert_scored x l) (x :: l).
Proof.
  induction l as [|y l IH]; cbn [insert_scored]; [done|]. destruct (scored_cmp x y); try done.
  rw IH. apply Permutation_swap.
Qed.

Lemma sort_scored_perm l : Permutation (sort_scored l) l.
Proof.
  induction l as [|x l IH]; [done|]. change (sort_scored (x :: l)) with (insert_scored x (sort_scored l)).
  by rw insert_scored_perm IH.
Qed.

Section Result.
Variable idx : ContextIndex.
Variable max_hops : nat.
Variable iteration : list (SymbolKey * (nat * nat)) -> list (SymbolKey * (nat * nat)).
Hypothesis iteration_perm : forall l, Permutation (iteration l) l.

Lemma rank_perm st file :
  Permutation (rank idx iteration st file)
    (map (fun x => (x.1.2, x.2)) (omap (score_entry idx st file) (map_to_list (best st)))).
Proof. unfold rank. by rw sort_scored_perm iteration_perm. Qed.

Lemma rank_elem st file s h :
  (s, h) ∈ rank idx iteration st file <->
  exists k i, best st !! k = Some (i, h) /\ symbols idx !! i = Some s.
Proof.
  rw rank_perm list_elem_of_fmap. split.
  - intros ([[sc s1] h1] & [= -> ->] & ([k [i h']] & Hk & He)%list_elem_of_omap).
    apply elem_of_map_to_list in Hk. unfold score_entry in He. cbn [fst snd] in He.
    destruct (symbols idx !! i) as [s'|] eqn:Es; [|done]. injection He as _ -> ->. by exists k, i.
  - intros (k & i & Hk & Hs).
    exists (score_for h (unwrap_or CALL_WEIGHT (best_weight st !! k)) (sym_file s) file, s, h).
    split; [done|]. apply list_elem_of_omap. exists (k, (i, h)). split; [by apply elem_of_map_to_list|].
    unfold score_entry. cbn [fst snd]. by rw Hs.
Qed.

Lemma rank_nodup start st file :
  walk_inv idx max_hops start st -> NoDup (map (fun x => key_sym x.1) (rank idx iteration st file)).
Proof.
  intros Hinv. rw rank_perm map_map. cbn [fst]. pose proof (NoDup_fst_map_to_list (best st)) as Hnd.
  assert (forall k v, (k, v) ∈ map_to_list (best st) ->
    exists s, symbols idx !! v.1 = Some s /\ key_sym s = k) as Hall.
  { intros k [i h] Hk%elem_of_map_to_list. by apply (inv_best _ _ _ st Hinv) in Hk as (_ & _ & ?). }
  induction (map_to_list (best st)) as [|[k [i h]] l IH]; [constructor|].
  apply NoDup_cons in Hnd as [Hk Hnd]. cbn [omap list_omap score_entry fst snd].
  destruct (Hall k (i, h) ltac:(by left)) as (s & Hs & Hks). cbn [fst] in Hs. rw {1}/score_entry. cbn [fst snd]. rw Hs.
  specialize (IH Hnd (fun k v Hv => Hall k v ltac:(by right))). cbn [map fst snd]. constructor; [|done].
  rw Hks list_elem_of_fmap. intros ([[sc s1] h1] & Hk' & ([k2 [i2 h2]] & Hin & He)%list_elem_of_omap).
  cbn [fst snd] in *. unfold score_entry in He. cbn [fst snd] in He.
  destruct (Hall k2 (i2, h2) ltac:(by right)) as (s2 & Hs2 & Hks2). cbn [fst] in Hs2. rw Hs2 in He.
  injection He as _ <- _. apply Hk, list_elem_of_fmap. exists (k2, (i2, h2)). split; [cbn; congruence|done].
Qed.

Lemma start_walk_inv i s :
  symbols idx !! i = Some s ->
  walk_inv idx max_hops (key_sym s) (start_walk i s) /\ progress idx max_hops (start_walk i s).
Proof.
  intros Hs. split.
  - split; cbn [start_walk best visited frontier].
    + intros k. rw elem_of_singleton lookup_singleton_is_Some. by split.
    + by rw lookup_singleton_eq.
    + intros k i' h [<- [= <- <-]]%lookup_singleton_Some. split; [lia|]. split; [constructor|by exists s].
    + intros i' h [= -> ->]%list_elem_of_singleton. split; [lia|]. exists s. split; [done|constructor].
  - intros k h Hk _. cbn [start_walk best] in Hk. destruct ({[key_sym s := (i, 0)]} !! k) as [[i' h']|] eqn:E.
    + apply lookup_singleton_Some in E as [<- [= <- <-]]. cbn in Hk. injection Hk as <-. right.
      exists i, s. split; [by left|done].
    + done.
Qed.

Lemma total_gap_bound st l : (forall k, gap max_hops st k <= S max_hops) -> total_gap max_hops st l <= length l * S max_hops.
Proof.
  intros Hg. unfold total_gap. induction l as [|s l IH]; cbn [foldr length]; [lia|].
  specialize (Hg (key_sym s)). lia.
Qed.

(** C38. A walk from a symbol of the index always ends, and finds exactly the symbols
    within the bound, one for each file and name, each with the least number of edges,
    of imports and calls in either direction, that lead to it; whatever order the hash
    map is iterated in. *)
Theorem graph_walk_least start i :
  find_symbol_idx (symbols idx) start = Some i ->
  exists result, graph_walk idx max_hops iteration start = Some result
    /\ NoDup (map (fun x => key_sym x.1) result)
    /\ (forall s h, (s, h) ∈ result ->
          s ∈ symbols idx /\ h <= max_hops /\ reach idx (key_sym start) h (key_sym s)
          /\ forall n, reach idx (key_sym start) n (key_sym s) -> h <= n)
    /\ (forall n k, reach idx (key_sym start) n k -> n <= max_hops ->
          exists s h, (s, h) ∈ result /\ key_sym s = k).
Proof.
  intros Hf. destruct (find_symbol_key _ _ _ Hf) as (s0 & Hs0 & Hk0). rw -Hk0.
  destruct (start_walk_inv i s0 Hs0) as [Hinv Hp].
  destruct (walk_loop_sound idx max_hops (key_sym s0) (walk_fuel idx max_hops) (start_walk i s0) Hinv Hp)
    as (st & Hl & Hi & Hpr & Hfr).
  { unfold walk_measure, walk_fuel. cbn [start_walk frontier length].
    pose proof (total_gap_bound (start_walk i s0) (symbols idx)) as Hb.
    enough (total_gap max_hops (start_walk i s0) (symbols idx) <= length (symbols idx) * S max_hops) by lia.
    apply Hb. intros k. unfold gap. destruct (best _ !! k) as [[i' h']|] eqn:E; [|done].
    apply (inv_best _ _ _ _ Hinv) in E as [? _]. lia. }
  exists (rank idx iteration st (sym_file s0)). unfold graph_walk. rw Hf Hs0 Hl. split; [done|].
  split; [by eapply rank_nodup|]. split.
  - intros s h (k & j & Hk & Hs)%rank_elem. pose proof (inv_best _ _ _ st Hi k j h Hk) as (Hh & Hr & s' & Hs' & <-).
    rw Hs in Hs'. injection Hs' as <-. split; [by eapply list_elem_of_lookup_2|]. split; [done|]. split; [done|].
    intros n Hn. destruct (decide (n <= max_hops)) as [Hle|]; [|lia].
    destruct (ended_least idx max_hops (key_sym s0) st n _ Hi Hpr Hfr Hn Hle) as (h' & Hk' & Hle').
    rw Hk in Hk'. cbn in Hk'. injection Hk' as <-. done.
  - intros n k Hr Hn. destruct (ended_least idx max_hops (key_sym s0) st n k Hi Hpr Hfr Hr Hn) as (h & Hk & _).
    destruct (best st !! k) as [[j h']|] eqn:E; [|done]. cbn in Hk. injection Hk as ->.
    pose proof (inv_best _ _ _ st Hi k j h E) as (_ & _ & s & Hs & Hks).
    exists s, h. split; [|done]. apply rank_elem. by exists k, j.
Qed.
End Result.

(** ** Concrete graphs *)

Definition demo_sym (name file : string) : Symbol := mkSymbol (lit name) Function (lit file) 1 1 None.
Definition demo_index : ContextIndex :=
  mkIndex [demo_sym "login" "main.rs"; demo_sym "auth" "auth.rs"; demo_sym "db" "db.rs"]
    [mkImport (lit "main.rs") (lit "crate::auth") (Some (lit "auth.rs")) 1]
    [mkCallEdge (lit "auth.rs") (lit "auth") 3 (lit "db") None] [].

Example demo_walk :
  graph_walk demo_index 2 id (demo_sym "login" "main.rs")
  = Some [(demo_sym "login" "main.rs", 0); (demo_sym "auth" "auth.rs", 1); (demo_sym "db" "db.rs", 2)].
Proof. vm_compute. done. Qed.

Lemma graph_walk_least_witness :
  exists result, graph_walk demo_index 1 id (demo_sym "login" "main.rs") = Some result
    /\ NoDup (map (fun x => key_sym x.1) result).
Proof.
  destruct (graph_walk_least demo_index 1 id (fun l => Permutation_refl l) (demo_sym "login" "main.rs") 0)
    as (r & Hr & Hn & _); [vm_compute; done|]. exists r. split; [exact Hr|exact Hn].
Defined.

(** A called function of another file that is also imported is ranked as an import: the
    edge of the import is looked at first, and one of the same length does not replace
    it.  With the call alone its weight is the double. *)
Example called_import_ranks_as_import :
  let called := mkCallEdge (lit "main.rs") (lit "login") 2 (lit "auth") None in
  let syms := [demo_sym "login" "main.rs"; demo_sym "auth" "auth.rs"] in
  let weight idx := option_map (fun st => best_weight st !! key_sym (demo_sym "auth" "auth.rs"))
      (walk_loop idx 2 (walk_fuel idx 2) (start_walk 0 (demo_sym "login" "main.rs"))) in
  weight (mkIndex syms (edges demo_index) [called] []) = Some (Some IMPORT_WEIGHT)
  /\ weight (mkIndex syms [] [called] []) = Some (Some CALL_WEIGHT).
Proof. vm_compute. done. Qed.
