(* ===== verification/Prompt.v ===== *)
(** * Building the messages of a request

    Models the message assembly of [PromptBuilder] in [src/src/session/prompt/mod.rs]:
    the image of a tool result, the caps and the deduplication of tool results, the
    symbols of the context index, and the ladder of compactions when the request is over
    the budget of the model.  The language-aware minifier and the index are parameters.
    The theorems: the system prompt stays first whatever the ladder does, a request over
    budget left the last rung, long results keep their two ends, and what old tool
    results become. *)

From Stdlib Require Import ssreflect.
From S2P Require Import Prelude Machine Minify Message ContextIndex Compaction.

Definition DEFAULT_MICROCOMPACT_KEEP_TAIL : nat := 5.

(** ** Tool results *)

Definition TOOL_RESULT_DEFAULT_HEAD : N := 20000.
Definition TOOL_RESULT_DEFAULT_TAIL : N := 8000.

Definition per_tool_caps : list (str * (N * N)) :=
  [(lit "bash", (50000, 10000)); (lit "grep", (10000, 5000)); (lit "read_file", (20000, 5000));
   (lit "glob", (5000, 2000)); (lit "edit_file", (5000, 2000)); (lit "write_file", (5000, 2000))]%N.

Definition caps_of (name : option str) : N * N :=
  unwrap_or (TOOL_RESULT_DEFAULT_HEAD, TOOL_RESULT_DEFAULT_TAIL) (name ≫= fun n => assoc n per_tool_caps).

Definition two_feeds : str := [10%N; 10%N].
Definition truncated_marker (removed_chars : N) : str :=
  two_feeds ++ "[…truncated " ++ show_N removed_chars ++ " chars of tool output…]" ++ two_feeds.

Definition truncate_tool_result (msg : Message) : Message :=
  if is_role Tool msg then
    let '(head_keep, tail_keep) := caps_of (tool_name msg) in
    let n := N.of_nat (length (content msg)) in
    if (head_keep + tail_keep <? n)%N then
      let head := take (N.to_nat head_keep) (content msg) in
      let tail := rev (take (N.to_nat tail_keep) (rev (content msg))) in
      with_content msg (head ++ truncated_marker (n - (head_keep + tail_keep)) ++ tail)
    else msg
  else msg.

Definition truncate_tool_results (ms : list Message) : list Message := map truncate_tool_result ms.

Definition TOOL_RESULT_DEDUP_MARKER : str :=
  "[duplicate tool result omitted — see previous identical result]".
Definition TOOL_RESULT_UNCHANGED_MARKER : str := "[unchanged from previous identical tool result]".

Definition DedupKey : Type := str * option str * option str.
Definition dedup_key (m : Message) : DedupKey := (content m, tool_name m, tool_call_id m).

(** [prev_tool] is the last key and how often it was seen in a row. *)
Fixpoint dedup_from (prev_tool : option (DedupKey * nat)) (ms : list Message) : list Message :=
  match ms with
  | [] => []
  | msg :: rest =>
      if negb (is_role Tool msg) then msg :: dedup_from None rest
      else
        let key := dedup_key msg in
        match prev_tool with
        | Some (prev, seen) =>
            if bool_decide (prev = key)
            then with_content msg (if 2 <=? seen then TOOL_RESULT_UNCHANGED_MARKER
                                   else TOOL_RESULT_DEDUP_MARKER)
                 :: dedup_from (Some (key, S seen)) rest
            else msg :: dedup_from (Some (key, 1)) rest
        | None => msg :: dedup_from (Some (key, 1)) rest
        end
  end.
Definition dedup_adjacent_tool_results (ms : list Message) : list Message := dedup_from None ms.

(** Positions of the tool results, and the old ones replaced. *)
Fixpoint stub_first (n : nat) (ms : list Message) : list Message * bool :=
  match ms with
  | [] => ([], false)
  | m :: rest =>
      if is_role Tool m then
        match n with
        | O => (ms, false)
        | S n' =>
            let '(rest', any) := stub_first n' rest in
            if str_eqb (content m) TOOL_RESULT_STUB then (m :: rest', any)
            else (stub_tool_result m :: rest', true)
        end
      else let '(rest', any) := stub_first n rest in (m :: rest', any)
  end.
Definition stub_old_tool_results (ms : list Message) : list Message * bool :=
  stub_first (length (List.filter (is_role Tool) ms) - 2) ms.

(** ** The pending image *)

(** Assigns the last message of a list. *)
Definition set_last (ms : list Message) (m : Message) : list Message := removelast ms ++ [m].

Definition image_parts (image : ContentPart) (user : Message) : list ContentPart :=
  image :: match content_parts user with
           | Some existing => existing
           | None => if str_eqb (content user) [] then [] else [Text (content user)]
           end.

Definition attach_pending_image (ms : list Message) : list Message :=
  match rev ms with
  | user :: tool :: _ =>
      if negb (is_role User user) || negb (is_role Tool tool)
         || negb (bool_decide (tool_name tool = Some (lit "read_image"))) then ms
      else match content_parts tool ≫= head with
           | Some (Image d m) => set_last ms (with_parts user (image_parts (Image d m) user))
           | _ => ms
           end
  | _ => ms
  end.

Definition assemble_messages (system : Message) (history tool_results : list Message) : list Message :=
  system :: history ++ tool_results.

(** ** Symbols *)

Definition show_kind (k : SymbolKind) : str :=
  match k with
  | Function => "fn" | Struct => "struct" | Enum => "enum" | Impl => "impl" | Module_ => "mod"
  | Use => "use" | Class_ => "class" | Interface => "interface" | TypeAlias => "type"
  end.

(** At most ten entries, and how many more there are. *)
Definition capped_list (what : str) (entries : list str) : str :=
  match entries with
  | [] => []
  | _ :: _ =>
      " (" ++ what ++ ": " ++ join ", " (take 10 entries)
      ++ (if 10 <? length entries then ", +" ++ show_nat (length entries - 10) ++ " more" else [])
      ++ ")"
  end.

Definition show_site (cs : CallSite) : str :=
  site_name cs ++ "() at " ++ site_file cs ++ ":" ++ show_N (site_line cs).

Definition symbol_line (r : RetrievalResult) : str :=
  let sym := rr_symbol r in
  show_kind (sym_kind sym) ++ " " ++ sym_name sym ++ " at " ++ sym_file sym ++ ":" ++ show_N (sym_line sym)
  ++ capped_list "imported by" (imported_by r)
  ++ capped_list "called by" (map show_site (called_by r))
  ++ match sym_doc sym with Some doc => " // " ++ doc | None => [] end
  ++ [10%N].

Definition symbols_text (relevant : list RetrievalResult) : str :=
  "<relevant_symbols>" ++ [10%N] ++ concat (map symbol_line relevant) ++ "</relevant_symbols>".

(** The text of the last user turn of the history. *)
Definition last_query (history : list Message) : str :=
  match find_first (is_role User) (rev history) with Some m => content m | None => [] end.

(** [context_index]: its retrieval of at most ten symbols, when there is an index. *)
Definition insert_symbols (context_index : option (str -> list RetrievalResult)) (history ms : list Message)
    : list Message :=
  match context_index with
  | None => ms
  | Some retrieve_hybrid =>
      let query := last_query history in
      if str_eqb query [] then ms
      else match retrieve_hybrid query, ms with
           | (_ :: _) as relevant, stem :: rest => stem :: plain System (symbols_text relevant) :: rest
           | _, _ => ms
           end
  end.

(** ** Minification *)

Definition fence : str := replicate 3 96%N.

Definition tag_extension (tag : str) : option str :=
  if existsb (str_eqb tag) [lit "rs"; lit "rust"] then Some (lit "rs")
  else if existsb (str_eqb tag) [lit "py"; lit "python"] then Some (lit "py")
  else if existsb (str_eqb tag) [lit "js"; lit "javascript"] then Some (lit "js")
  else if existsb (str_eqb tag) [lit "ts"; lit "typescript"] then Some (lit "ts")
  else if str_eqb tag "jsx" then Some (lit "jsx")
  else if str_eqb tag "tsx" then Some (lit "tsx")
  else if str_eqb tag "go" then Some (lit "go")
  else if str_eqb tag "c" then Some (lit "c")
  else if existsb (str_eqb tag) [lit "cpp"; lit "c++"] then Some (lit "cpp")
  else if str_eqb tag "java" then Some (lit "java")
  else if existsb (str_eqb tag) [lit "rb"; lit "ruby"] then Some (lit "rb")
  else if existsb (str_eqb tag) [lit "sh"; lit "bash"; lit "zsh"] then Some (lit "sh")
  else if existsb (str_eqb tag) [lit "md"; lit "markdown"] then Some (lit "md")
  else if str_eqb tag "json" then Some (lit "json")
  else if existsb (str_eqb tag) [lit "yaml"; lit "yml"] then Some (lit "yaml")
  else if str_eqb tag "toml" then Some (lit "toml")
  else None.

Section Builder.
Context `{UnicodeCase} `{UnicodeAlnum} `{Tokenizer}.
(** [minify_source_safe] on a path and a text. *)
Variable minify_source_safe : str -> str -> str.

(** The fences of a text, which [match_indices] gives without overlap. *)
Fixpoint fence_extension (skip : nat) (s : str) : option str :=
  match s with
  | [] => None
  | _ :: s' =>
      match skip with
      | S k => fence_extension k s'
      | O =>
          if starts_with s fence then
            let tag := to_lowercase (trim (unwrap_or [] (head (lines (drop 3 s))))) in
            match tag_extension tag with
            | Some ext => Some ext
            | None => fence_extension 2 s'
            end
          else fence_extension 0 s'
      end
  end.

Definition synthetic_extension_for (text : str) : str :=
  match fence_extension 0 text with
  | Some ext => ext
  | None => if contains text "fn " && contains text "{" then "rs" else "txt"
  end.

(** What a message of the list is minified to, when it is worth it. *)
Definition minified_text (i : nat) (msg : Message) : option str :=
  if i =? 0 then None
  else if is_role Tool msg then None
  else if (estimate_message_tokens msg <? 10)%N then None
  else
    let path := "message-" ++ show_nat i ++ "." ++ synthetic_extension_for (content msg) in
    let minified := minify_source_safe path (content msg) in
    if (str_len minified <? str_len (content msg))%N && (20 <? str_len (content msg) - str_len minified)%N
    then Some minified else None.

Fixpoint minify_from (i : nat) (ms adjusted : list Message) : list Message * bool :=
  match ms with
  | [] => (adjusted, false)
  | msg :: rest =>
      match minified_text i msg with
      | Some minified =>
          if i <? length adjusted then
            let '(out, _) := minify_from (S i) rest (alter (fun m => with_content m minified) i adjusted) in
            (out, true)
          else minify_from (S i) rest adjusted
      | None => minify_from (S i) rest adjusted
      end
  end.
Definition minify_old_messages (ms adjusted : list Message) : list Message * bool := minify_from 0 ms adjusted.

(** ** The ladder *)

Definition truncate_to_budget (ms : list Message) (budget : N) : list Message :=
  match ms with
  | [] => ms
  | first :: _ =>
      let keep_count := (budget * 4 / 20)%N in
      let history_to_keep := N.to_nat (N.min keep_count (N.of_nat (length ms - 1))) in
      let truncated := first :: drop (length ms - history_to_keep) ms in
      if length truncated <? 2 then ms else truncated
  end.

Definition under (budget : N) (ms : list Message) : bool := (estimate_tokens ms <=? budget)%N.

(** Rungs two to four, on what microcompaction left. *)
Definition lower_rungs (budget : N) (ms adjusted : list Message) : list Message :=
  let '(minified, minified_any) := minify_old_messages ms adjusted in
  if minified_any && (length minified =? length adjusted) && under budget minified then minified
  else
    let '(stubbed, stubbed_any) := stub_old_tool_results minified in
    if stubbed_any && under budget stubbed then stubbed
    else truncate_to_budget stubbed budget.

Definition ladder (budget : N) (use_llm : bool) (drop_threshold : f64) (ms : list Message) : list Message :=
  match maybe_microcompact ms budget DEFAULT_MICROCOMPACT_KEEP_TAIL use_llm drop_threshold with
  | Some r =>
      if (mc_tokens_after r <=? budget)%N then mc_messages r else lower_rungs budget ms (mc_messages r)
  | None => lower_rungs budget ms ms
  end.

Definition request_budget (model_max_tokens : N) : N := (model_max_tokens - model_max_tokens / 10)%N.

Definition build_messages_with_compaction (context_index : option (str -> list RetrievalResult))
    (system : Message) (history : list Message) (model_max_tokens : N) (tool_results : list Message)
    (use_llm : bool) (drop_threshold : f64) : list Message :=
  let ms := assemble_messages system history tool_results in
  let ms := attach_pending_image ms in
  let ms := truncate_tool_results ms in
  let ms := dedup_adjacent_tool_results ms in
  let ms := insert_symbols context_index history ms in
  let budget := request_budget model_max_tokens in
  if under budget ms then ms else ladder budget use_llm drop_threshold ms.

Definition build_messages (context_index : option (str -> list RetrievalResult)) (system : Message)
    (history : list Message) (model_max_tokens : N) (tool_results : list Message) : list Message :=
  build_messages_with_compaction context_index system history model_max_tokens tool_results false
    (decimal 5 1).
End Builder.

(** ** The system prompt *)

Section Head.
Context `{UnicodeCase} `{UnicodeAlnum} `{Tokenizer}.
Variable minify_source_safe : str -> str -> str.

(** A list that starts with this message. *)
Definition headed (s : Message) (ms : list Message) : Prop := exists rest, ms = s :: rest.

Lemma not_tool s : role s = System -> is_role Tool s = false.
Proof. intros Hs. unfold is_role. by rw Hs. Qed.

Lemma attach_headed s ms : headed s ms -> headed s (attach_pending_image ms).
Proof.
  intros [rest ->]. unfold attach_pending_image.
  destruct (rev (s :: rest)) as [|user [|tool l]] eqn:E; try by exists rest.
  destruct (_ || _); [by exists rest|]. destruct (_ ≫= head) as [[]|]; try by exists rest.
  unfold set_last. destruct rest as [|m rest]; [done|]. by eexists.
Qed.

Lemma truncate_headed s ms : role s = System -> headed s ms -> headed s (truncate_tool_results ms).
Proof.
  intros Hs [rest ->]. unfold truncate_tool_results. cbn [map]. unfold truncate_tool_result at 1.
  rw not_tool //. by eexists.
Qed.

Lemma dedup_headed s ms : role s = System -> headed s ms -> headed s (dedup_adjacent_tool_results ms).
Proof.
  intros Hs [rest ->]. unfold dedup_adjacent_tool_results. cbn [dedup_from]. rw not_tool //. by eexists.
Qed.

Lemma symbols_headed ci h s ms : headed s ms -> headed s (insert_symbols ci h ms).
Proof.
  intros [rest ->]. unfold insert_symbols. destruct ci as [f|]; [|by eexists].
  destruct (str_eqb _ _); [by eexists|]. destruct (f _); by eexists.
Qed.

Lemma minify_headed s i ms adjusted :
  headed s adjusted -> headed s (minify_from minify_source_safe i ms adjusted).1.
Proof.
  revert i adjusted. induction ms as [|m ms IH]; intros i adjusted Hh; [done|]. cbn [minify_from].
  destruct i as [|i]; [cbn [minified_text Nat.eqb]; by apply IH|].
  destruct (minified_text minify_source_safe (S i) m) as [t|]; [|by apply IH]. destruct (_ <? _); [|by apply IH].
  destruct Hh as [rest ->].
  specialize (IH (S (S i)) (alter (fun m => with_content m t) (S i) (s :: rest))). cbn in IH.
  destruct (minify_from _ _ _ _). cbn [fst] in *. apply IH. by eexists.
Qed.

Lemma stub_headed s n ms : role s = System -> headed s ms -> headed s (stub_first n ms).1.
Proof.
  intros Hs [rest ->]. cbn [stub_first]. rw not_tool //. destruct (stub_first n rest). by eexists.
Qed.

Lemma cut_headed s ms b : headed s ms -> headed s (truncate_to_budget ms b).
Proof. intros [rest ->]. unfold truncate_to_budget. destruct (_ <? 2); by eexists. Qed.

Lemma microcompact_headed s ms b k l d r :
  role s = System -> headed s ms -> maybe_microcompact ms b k l d = Some r -> headed s (mc_messages r).
Proof.
  intros Hs [rest ->] Hr. pose proof (microcompact_shape (s :: rest) b k l d) as Hm. cbv zeta in Hm. rw Hr in Hm.
  destruct Hm as (_ & _ & an & mi & ta & su & He & Hl & _ & _ & _ & -> & _).
  unfold anchor_len, is_role in Hl. rw Hs in Hl. cbn in Hl. destruct an as [|a [|]]; try done.
  injection He as -> _. by eexists.
Qed.

Lemma lower_rungs_spec s b ms adjusted :
  role s = System -> headed s adjusted ->
  let out := lower_rungs minify_source_safe b ms adjusted in
  headed s out /\ ((estimate_tokens out <= b)%N \/ exists ms', out = truncate_to_budget ms' b).
Proof.
  intros Hs Hh out. unfold out, lower_rungs.
  pose proof (minify_headed s 0 ms adjusted Hh) as Hm. unfold minify_old_messages.
  destruct (minify_from _ _ _ _) as [mi any]. cbn [fst] in Hm.
  destruct (any && _ && _) eqn:E1.
  { split; [done|]. left. apply andb_true_iff in E1 as [_ E1]. by apply N.leb_le. }
  pose proof (stub_headed s (length (List.filter (is_role Tool) mi) - 2) mi Hs Hm) as Hst.
  unfold stub_old_tool_results. destruct (stub_first _ mi) as [st any2]. cbn [fst] in Hst.
  destruct (any2 && _) eqn:E2.
  { split; [done|]. left. apply andb_true_iff in E2 as [_ E2]. by apply N.leb_le. }
  split; [by apply cut_headed|]. right. by eexists.
Qed.

(** C36.  The system prompt is the first message of every request, as it was given, whatever
    was attached, capped, deduplicated, inserted or compacted; and a request that is
    over nine tenths of the model's context was left by the last rung of the ladder. *)
Theorem build_messages_keeps_system context_index system history max tools use_llm threshold :
  role system = System ->
  let out := build_messages_with_compaction minify_source_safe context_index system history max tools
               use_llm threshold in
  (exists rest, out = system :: rest)
  /\ ((estimate_tokens out <= max - max / 10)%N \/ exists ms, out = truncate_to_budget ms (max - max / 10)).
Proof.
  intros Hs out. unfold out, build_messages_with_compaction, request_budget.
  set (ms := insert_symbols _ _ _).
  assert (headed system ms) as Hh.
  { apply symbols_headed, dedup_headed, truncate_headed, attach_headed; try done. by eexists. }
  clearbody ms. destruct (under _ ms) eqn:E; [split; [done|left; by apply N.leb_le]|].
  unfold ladder. destruct (maybe_microcompact _ _ _ _ _) as [r|] eqn:Er; [|by apply lower_rungs_spec].
  pose proof (microcompact_headed system ms _ _ _ _ r Hs Hh Er) as Hm.
  pose proof (microcompact_shape ms (max - max / 10) DEFAULT_MICROCOMPACT_KEEP_TAIL use_llm threshold) as Hsh.
  cbv zeta in Hsh. rw Er in Hsh. destruct Hsh as (_ & _ & an & mi & ta & su & _ & _ & _ & _ & _ & _ & Ht).
  destruct (N.leb_spec (mc_tokens_after r) (max - max / 10)) as [Hle|]; [|by apply lower_rungs_spec].
  split; [done|]. left. by rw -Ht.
Qed.
End Head.

(** ** Tool results *)

(** Only the text of a message differs. *)
Definition same_but_text (m m' : Message) : Prop :=
  role m' = role m /\ content_parts m' = content_parts m /\ thinking m' = thinking m
  /\ tool_calls m' = tool_calls m /\ tool_call_id m' = tool_call_id m /\ tool_name m' = tool_name m.

Lemma take_rev_tail {A} (l : list A) n : rev (take n (rev l)) = drop (length l - n) l.
Proof.
  destruct (decide (n <= length l)) as [Hn|Hn].
  - rw -{1}(take_drop (length l - n) l) rev_app_distr take_app_le.
    { rw length_rev length_drop. lia. }
    rw firstn_all2; [rw length_rev length_drop; lia|]. by rw rev_involutive.
  - rw firstn_all2; [rw length_rev; lia|]. rw rev_involutive. by assert (length l - n = 0) as -> by lia.
Qed.

(** A long tool result keeps its two ends: messages that are not tool results and
    results within their tool's caps are unchanged; a longer one becomes its first and
    its last characters, as many as the caps of its tool say, around a note of exactly
    how many characters were taken out. *)
Lemma truncate_tool_results_spec ms :
  Forall2 (fun m m' =>
    let '(head_keep, tail_keep) := caps_of (tool_name m) in
    if is_role Tool m && (head_keep + tail_keep <? N.of_nat (length (content m)))%N
    then same_but_text m m'
         /\ exists head removed tail, content m = head ++ removed ++ tail
              /\ N.of_nat (length head) = head_keep /\ N.of_nat (length tail) = tail_keep
              /\ content m' = head ++ truncated_marker (N.of_nat (length removed)) ++ tail
    else m' = m) ms (truncate_tool_results ms).
Proof.
  apply Forall2_map_self. intros m.
  unfold truncate_tool_result. destruct (caps_of (tool_name m)) as [hk tk].
  destruct (is_role Tool m); [|done]. cbn [andb].
  destruct (N.ltb_spec (hk + tk) (N.of_nat (length (content m)))) as [Hlt|]; [|done].
  split; [done|]. set (c := content m) in *.
  exists (take (N.to_nat hk) c), (take (length c - N.to_nat hk - N.to_nat tk) (drop (N.to_nat hk) c)),
    (drop (length c - N.to_nat tk) c).
  split; [|split; [rw length_take; lia|split; [rw length_drop; lia|]]].
  - rw -{1}(take_drop (N.to_nat hk) c) -{1}(take_drop (length c - N.to_nat hk - N.to_nat tk) (drop _ c)).
    rw drop_drop. do 3 f_equal. lia.
  - cbn [content with_content]. rw take_rev_tail. f_equal. f_equal. f_equal.
    rw length_take length_drop. lia.
Qed.

(** An old result as it is sent. *)
Definition stubbed (m : Message) : Message :=
  if is_role Tool m && negb (str_eqb (content m) TOOL_RESULT_STUB) then stub_tool_result m else m.

Lemma stub_first_spec n ms :
  n <= length (List.filter (is_role Tool) ms) ->
  exists old recent, ms = old ++ recent /\ (stub_first n ms).1 = map stubbed old ++ recent
    /\ length (List.filter (is_role Tool) old) = n
    /\ (stub_first n ms).2 = existsb (fun m => is_role Tool m && negb (str_eqb (content m) TOOL_RESULT_STUB)) old.
Proof.
  revert n. induction ms as [|m ms IH]; intros n Hn.
  { exists [], []. cbn in *. by assert (n = 0) as -> by lia. }
  cbn [stub_first List.filter] in *. destruct (is_role Tool m) eqn:Em.
  - destruct n as [|n]; [by exists [], (m :: ms)|]. cbn [length] in Hn.
    destruct (IH n ltac:(lia)) as (old & recent & -> & He & Hl & Ha).
    destruct (stub_first n (old ++ recent)) as [out any]. cbn [fst snd] in He, Ha. subst out any.
    exists (m :: old), recent. cbn [List.filter map existsb]. rw Em. cbn [length andb]. rw Hl.
    assert (stubbed m = if str_eqb (content m) TOOL_RESULT_STUB then m else stub_tool_result m) as ->
      by (unfold stubbed; rw Em; by destruct (str_eqb _ _)).
    by destruct (str_eqb _ _).
  - destruct (IH n Hn) as (old & recent & -> & He & Hl & Ha).
    destruct (stub_first n (old ++ recent)) as [out any]. cbn [fst snd] in He, Ha. subst out any.
    exists (m :: old), recent. cbn [List.filter map existsb]. rw Em. cbn [andb orb].
    by assert (stubbed m = m) as -> by (unfold stubbed; by rw Em).
Qed.

(** The third rung drops the text of every tool result but the last two, and nothing
    else: the list splits in front of the last two results (or all, when there are
    fewer), what is behind stays, and in front exactly the results have become the
    marker, with their names and ids. *)
Lemma stub_old_tool_results_spec ms :
  exists old recent, ms = old ++ recent
    /\ length (List.filter (is_role Tool) recent) = Nat.min 2 (length (List.filter (is_role Tool) ms))
    /\ (stub_old_tool_results ms).1 = map stubbed old ++ recent
    /\ Forall2 (fun m m' => same_but_text m m'
                  /\ content m' = (if is_role Tool m then TOOL_RESULT_STUB else content m)) old (map stubbed old).
Proof.
  unfold stub_old_tool_results.
  destruct (stub_first_spec (length (List.filter (is_role Tool) ms) - 2) ms ltac:(lia))
    as (old & recent & He & Ho & Hl & _).
  exists old, recent. split; [done|]. split; [|split; [done|]].
  - rw He List.filter_app length_app in Hl. rw He List.filter_app length_app. lia.
  - apply Forall2_map_self. intros m. unfold stubbed.
    destruct (is_role Tool m); [|done]. cbn [andb].
    destruct (str_eqb (content m) TOOL_RESULT_STUB) eqn:E; cbn [negb]; [|done]. by apply str_eqb_eq in E.
Qed.

(** ** What the ladder does not do *)

Section Ladder.
Context `{UnicodeCase} `{UnicodeAlnum} `{Tokenizer}.
Variable minify_source_safe : str -> str -> str.

(** The last rung counts messages, a fifth of the budget in tokens: a history that is not
    that long is sent whole, however far over the budget it is. *)
Lemma truncate_cuts_nothing ms budget :
  (N.of_nat (length ms) <= budget * 4 / 20 + 1)%N -> truncate_to_budget ms budget = ms.
Proof.
  intros Hl. destruct ms as [|m ms]; [done|]. unfold truncate_to_budget. cbn [length] in *.
  rw N.min_r; [lia|]. rw Nat2N.id Nat.sub_succ Nat.sub_0_r.
  assert (S (length ms) - length ms = 1) as -> by lia. cbn [drop length].
  destruct (S (length (drop 0 ms)) <? 2); by rw ?drop_0.
Qed.

(** The second rung takes the texts from the uncompacted list, and writes them over the
    messages that have the same position in the compacted one. *)
Lemma minify_overwrites i ms adjusted k m a t :
  ms !! k = Some m -> adjusted !! (i + k) = Some a -> minified_text minify_source_safe (i + k) m = Some t ->
  exists a', content a' = t /\ (minify_from minify_source_safe i ms adjusted).1 !! (i + k) = Some a'.
Proof.
  assert (forall ms i adjusted j a, j < i -> adjusted !! j = Some a ->
    (minify_from minify_source_safe i ms adjusted).1 !! j = Some a) as Hbelow.
  { clear. intros ms. induction ms as [|m ms IH]; intros i adjusted j a Hj Ha; [done|]. cbn [minify_from].
    destruct (minified_text _ i m) as [t|]; [|by apply IH; [lia|]].
    destruct (i <? length adjusted); [|by apply IH; [lia|]].
    specialize (IH (S i) (alter (fun m => with_content m t) i adjusted) j a ltac:(lia)).
    rw list_lookup_alter_ne in IH; [lia|]. specialize (IH Ha). by destruct (minify_from _ _ _ _). }
  revert i adjusted k a. induction ms as [|m0 ms IH]; intros i adjusted k a Hk Ha Ht; [done|].
  cbn [minify_from]. destruct k as [|k].
  - injection Hk as ->. rw Nat.add_0_r in Ha Ht. rw Nat.add_0_r Ht.
    rw (proj2 (Nat.ltb_lt i (length adjusted))); [by eapply lookup_lt_Some|].
    specialize (Hbelow ms (S i) (alter (fun m => with_content m t) i adjusted) i (with_content a t) ltac:(lia)).
    rw list_lookup_alter_eq Ha in Hbelow. specialize (Hbelow eq_refl).
    destruct (minify_from _ _ _ _). by exists (with_content a t).
  - rw -Nat.add_succ_comm in Ha Ht *.
    destruct (minified_text minify_source_safe i m0) as [t0|]; [|by apply (IH _ _ _ a)].
    destruct (i <? length adjusted); [|by apply (IH _ _ _ a)].
    destruct (IH (S i) (alter (fun m => with_content m t0) i adjusted) k a Hk) as (a' & Hc & Hl); [|done|].
    + rw list_lookup_alter_ne //. lia.
    + destruct (minify_from _ _ _ _). by exists a'.
Qed.
End Ladder.

(** ** Concrete requests *)

#[local] Existing Instance ascii_case.
#[local] Existing Instance ascii_alnum.
#[local] Existing Instance fallback_tokenizer.

(** A minifier that squeezes blanks out. *)
Definition demo_minify (path text : str) : str := List.filter (fun c => negb (c =? 32)%N) text.

Definition wide_turn (t : string) (n : nat) : Message := plain User (lit t ++ replicate n 32%N).
Definition demo_turns : list Message :=
  [wide_turn "one" 120; wide_turn "two" 120; wide_turn "three" 120; wide_turn "four" 120; wide_turn "five" 120;
   wide_turn "six" 120; wide_turn "seven" 120; plain User "LIVE QUESTION"].

Lemma build_messages_keeps_system_witness :
  exists rest,
    build_messages_with_compaction demo_minify None (plain System "prompt") demo_turns 60 [] false
      (decimal 5 1) = plain System "prompt" :: rest.
Proof.
  destruct (build_messages_keeps_system demo_minify None (plain System "prompt") demo_turns 60 [] false
    (decimal 5 1) eq_refl) as [Hh _].
  exact Hh.
Defined.

(** Over budget after the first rung, the request of these turns is answered without the
    question: the second rung writes the oldest turns over the most recent ones. *)
Example live_question_is_lost :
  map content (build_messages demo_minify None (plain System "prompt") demo_turns 100 [])
  = [lit "prompt"; lit "one"; lit "two"; lit "three"; lit "four"; lit "five"; lit "six"].
Proof. vm_compute. done. Qed.

(** The last rung of a small history sends everything, a hundred times over the budget. *)
Example last_rung_over_budget :
  let turns := [plain User (replicate 40000 97%N); plain User (replicate 4 97%N)] in
  let out := build_messages demo_minify None (plain System "prompt") turns 100 [] in
  length out = 3 /\ (100 * 100 <=? estimate_tokens out)%N = true.
Proof. vm_compute. done. Qed.

(** The fallback of a budget under five tokens keeps every message too. *)
Example tiny_budget_keeps_all : truncate_to_budget demo_turns 4 = demo_turns.
Proof. vm_compute. done. Qed.

Example demo_extension : synthetic_extension_for (fence ++ lit "python" ++ [10%N] ++ lit "x" ++ fence) = lit "py".
Proof. vm_compute. done. Qed.

(** The image of a [read_image] result leads the question that follows it. *)
Example demo_image :
  map content_parts (attach_pending_image
    [mkMessage Tool (lit "ok") (Some [Image (lit "AA") (lit "image/png")]) None None None
       (Some (lit "read_image")) None; plain User "what is it"])
  = [Some [Image (lit "AA") (lit "image/png")]; Some [Image (lit "AA") (lit "image/png"); Text (lit "what is it")]].
Proof. vm_compute. done. Qed.
