(* ===== verification/AuditTrail.v ===== *)
(** * The audit trail

    Models [src/src/shared/audit.rs] and the walker [verify_audit_jsonl] of
    [src/src/session/plugin_tools/native.rs]: the events of the hash-chained trail, the
    chain hash with its canonical JSON, the memory sink, the file sink with its buffer,
    rotation and resumption, the logger, and the redaction of tool arguments.  SHA-256,
    HMAC and serde_json are classes; [Io] says which file operations succeed and where a
    write stops.  The theorems: a stored trail that verifies and ends in the hash of the
    original records the same facts unless two texts collide; the file verifies after
    every flush, failed flush and restart after a crash; canonical JSON does not depend
    on the order of members; redaction keeps no value but paths and shell commands.
    The lemmas at the end are inputs for which the code does less than its comments say. *)

From Stdlib Require Import ssreflect.
From stdpp Require Import sorting.
From S2P Require Import Prelude Names Machine.

Abbreviation bytes := (list N).
Abbreviation files := (gmap str bytes).

(** ** Events *)

Inductive AuditAction :=
| AuthSuccess | AuthFailure | AuthTokenRefresh | PolicyCheck | PolicyDeny | PolicyChange
| TenantCreate | TenantEvict | TenantAccess | VerifyStart | VerifyComplete | CorrectStart
| CorrectComplete | ObserveRecord | ObserveRecall | MemoryRead | MemoryWrite | MemoryDelete
| SecretAccess | SecretResolve | ConfigChange | ToolInvoke | ToolDeny | ModelInvoke | ModelDeny
| SystemStartup | SystemShutdown | ServeStart | ServeShutdown | SystemError.

Definition action_str (a : AuditAction) : str :=
  lit match a with
  | AuthSuccess => "auth.success"
  | AuthFailure => "auth.failure"
  | AuthTokenRefresh => "auth.token_refresh"
  | PolicyCheck => "policy.check"
  | PolicyDeny => "policy.deny"
  | PolicyChange => "policy.change"
  | TenantCreate => "tenant.create"
  | TenantEvict => "tenant.evict"
  | TenantAccess => "tenant.access"
  | VerifyStart => "verify.start"
  | VerifyComplete => "verify.complete"
  | CorrectStart => "correct.start"
  | CorrectComplete => "correct.complete"
  | ObserveRecord => "observe.record"
  | ObserveRecall => "observe.recall"
  | MemoryRead => "memory.read"
  | MemoryWrite => "memory.write"
  | MemoryDelete => "memory.delete"
  | SecretAccess => "secret.access"
  | SecretResolve => "secret.resolve"
  | ConfigChange => "config.change"
  | ToolInvoke => "tool.invoke"
  | ToolDeny => "tool.deny"
  | ModelInvoke => "model.invoke"
  | ModelDeny => "model.deny"
  | SystemStartup => "system.startup"
  | SystemShutdown => "system.shutdown"
  | ServeStart => "serve.start"
  | ServeShutdown => "serve.shutdown"
  | SystemError => "system.error"
  end.

Inductive AuditOutcome := Success | Deny | Error | Skipped.

Definition outcome_str (o : AuditOutcome) : str :=
  lit match o with Success => "success" | Deny => "deny" | Error => "error" | Skipped => "skipped" end.

Record AuditEvent := mkEvent {
  event_id : str;
  sequence : N;
  timestamp : str;
  action : AuditAction;
  outcome : AuditOutcome;
  actor_id : str;
  tenant_id : str;
  reason : str;
  chain_hash : str;
  policy_hash : option str;
  trace_id : option str;
  metadata : option json
}.

Definition with_chain_hash (e : AuditEvent) (h : str) : AuditEvent :=
  mkEvent (event_id e) (sequence e) (timestamp e) (action e) (outcome e) (actor_id e) (tenant_id e)
    (reason e) h (policy_hash e) (trace_id e) (metadata e).

(** A digest in hexadecimal. *)
Definition is_hex (c : char) : bool := in_range 48 57 c || in_range 97 102 c.
Definition hex64 (s : str) : Prop := length s = 64 /\ forallb is_hex s = true.

Class Sha256 := {
  sha256 : bytes -> str;
  hmac_sha256 : bytes -> bytes -> str;
  sha256_hex : forall b, hex64 (sha256 b);
  hmac_sha256_hex : forall k b, hex64 (hmac_sha256 k b)
}.

(** serde_json: the printer of strings, and events as lines.  A line is an object without
    a line feed; [event_kept] are the events it gives back as they were, which does not
    depend on their chain hash; a proper prefix of a line is not an event. *)
Class AuditJson := {
  json_string : str -> str;
  event_line : AuditEvent -> option str;
  parse_event : str -> option AuditEvent;
  event_kept : AuditEvent -> Prop;
  kept_sealed : forall e h, event_kept e -> hex64 h -> event_kept (with_chain_hash e h);
  kept_line : forall e, event_kept e -> exists s,
    event_line e = Some (chr "{" :: (s ++ [chr "}"])) /\ forallb is_scalar s = true /\ 10%N ∉ s
    /\ parse_event (chr "{" :: (s ++ [chr "}"])) = Some e
    /\ forall p, p `prefix_of` (chr "{" :: s) -> parse_event p = None
}.

(** ** The chain hash *)

Section Hash.
Context `{Sha256}.

Definition digest (hmac_key : option str) (b : bytes) : str :=
  match hmac_key with
  | Some key => hmac_sha256 (utf8_encode key) b
  | None => sha256 b
  end.

Definition initial_hash (hmac_key : option str) : str :=
  digest hmac_key (utf8_encode "kirkforge-audit-genesis").

Context `{AuditJson}.

Fixpoint canonical_json (value : json) (depth : N) : str :=
  if (32 <? depth)%N then dquote ++ "<max-depth>" ++ dquote
  else match value with
  | JNull => lit "null"
  | JBool b => lit (if b then "true" else "false")
  | JNum n => n
  | JStr s => json_string s
  | JArr arr => "[" ++ join "," (map (fun v => canonical_json v (depth + 1)) arr) ++ "]"
  | JObj members =>
      let rendered := map (fun m => (m.1, canonical_json m.2 (depth + 1))) members in
      let keys := sort_names (map fst members) in
      "{" ++ join "," (map (fun k => json_string k ++ ":" ++ unwrap_or [] (assoc k rendered)) keys) ++ "}"
  end.

Definition metadata_json (e : AuditEvent) : str :=
  match metadata e with
  | Some JNull | None => lit "{}"
  | Some v => canonical_json v 0
  end.

Definition hashed_text (prev_hash : str) (e : AuditEvent) : str :=
  prev_hash ++ "|" ++ action_str (action e) ++ "|" ++ outcome_str (outcome e) ++ "|" ++ actor_id e
  ++ "|" ++ tenant_id e ++ "|" ++ reason e ++ "|" ++ timestamp e ++ "|" ++ show_N (sequence e)
  ++ "|" ++ metadata_json e.

Definition chain_hash_of (prev_hash : str) (e : AuditEvent) (hmac_key : option str) : str :=
  digest hmac_key (utf8_encode (hashed_text prev_hash e)).

(** ** The memory sink *)

Record MemoryAuditSink := mkMemory {
  events : list AuditEvent;
  mem_last_hash : str;
  mem_hmac_key : option str
}.

Definition memory_new (hmac_key : option str) : MemoryAuditSink :=
  mkMemory [] (initial_hash hmac_key) hmac_key.

Definition memory_write (s : MemoryAuditSink) (event : AuditEvent) : bool * MemoryAuditSink :=
  let chain := chain_hash_of (mem_last_hash s) event (mem_hmac_key s) in
  (true, mkMemory (events s ++ [with_chain_hash event chain]) chain (mem_hmac_key s)).

Definition memory_flush (s : MemoryAuditSink) : bool := true.

Definition get_events (s : MemoryAuditSink) : list AuditEvent := events s.

Fixpoint verify_events (hmac_key : option str) (prev : str) (l : list AuditEvent) : bool :=
  match l with
  | [] => true
  | event :: l' =>
      let expected := chain_hash_of prev event hmac_key in
      if negb (str_eqb (chain_hash event) expected) then false
      else verify_events hmac_key (chain_hash event) l'
  end.

Definition memory_verify_chain (s : MemoryAuditSink) : bool :=
  verify_events (mem_hmac_key s) (initial_hash (mem_hmac_key s)) (events s).

(** ** Files *)

(** How far a write gets: the file does not open, the write stops after some bytes, or
    everything is written. *)
Inductive WriteIo := OpenFails | Torn (written : nat) | Written.

Record Io := mkIo {
  metadata_ok : str -> bool;
  read_ok : str -> bool;
  truncate_io : WriteIo;
  append_io : WriteIo;
  rename_ok : str -> str -> bool
}.

(** [read_to_string] fails on bytes that are not UTF-8. *)
Definition read_audit_no_follow (io : Io) (p : str) (fs : files) : option str :=
  match fs !! p with
  | Some b => if read_ok io p then from_utf8 b else None
  | None => None
  end.

Definition write_audit_no_follow (io : Io) (p content : str) (fs : files) : bool * files :=
  match truncate_io io with
  | OpenFails => (false, fs)
  | Torn k => (false, <[p := take k (utf8_encode content)]> fs)
  | Written => (true, <[p := utf8_encode content]> fs)
  end.

Definition append_file (io : Io) (p content : str) (fs : files) : bool * files :=
  let old := unwrap_or [] (fs !! p) in
  match append_io io with
  | OpenFails => (false, fs)
  | Torn k => (false, <[p := old ++ take k (utf8_encode content)]> fs)
  | Written => (true, <[p := old ++ utf8_encode content]> fs)
  end.

Definition rename (io : Io) (from to : str) (fs : files) : files :=
  match fs !! from with
  | Some b => if rename_ok io from to then <[to := b]> (delete from fs) else fs
  | None => fs
  end.

(** The lines that are not blank. *)
Definition audit_lines (content : str) : list str :=
  List.filter (fun l => negb (str_eqb (trim l) [])) (lines content).

(** ** The file sink *)

Record FileAuditSink := mkFile {
  file_path : str;
  buffer : list AuditEvent;
  flush_size : nat;
  last_hash : str;
  max_file_size_bytes : N;
  max_rotated_files : nat;
  hmac_key : option str
}.

(** The last line that is an event, with its index. *)
Fixpoint last_good (ls : list str) : option (nat * AuditEvent) :=
  match ls with
  | [] => None
  | l :: ls' =>
      match last_good ls' with
      | Some (i, e) => Some (S i, e)
      | None => match parse_event l with Some e => Some (0, e) | None => None end
      end
  end.

Definition resume_chain (io : Io) (p : str) (fs : files) : option str * files :=
  match read_audit_no_follow io p fs with
  | None => (None, fs)
  | Some content =>
      let ls := audit_lines content in
      if bool_decide (ls = []) then (None, fs)
      else match last_good ls with
      | Some (i, evt) =>
          if i <? length ls - 1 then
            let kept := join [10%N] (take (S i) ls) ++ [10%N] in
            match write_audit_no_follow io p kept fs with
            | (false, fs') => (None, fs')
            | (true, fs') => (Some (chain_hash evt), fs')
            end
          else (Some (chain_hash evt), fs)
      | None => (None, (write_audit_no_follow io p [] fs).2)
      end
  end.

Definition file_new (io : Io) (p : str) (key : option str) (max_bytes : N) (max_rotated flush : nat)
    (fs : files) : FileAuditSink * files :=
  let '(resumed, fs') := resume_chain io p fs in
  (mkFile p [] flush (unwrap_or (initial_hash key) resumed) max_bytes max_rotated key, fs').

(** The loop of [verify_chain]; only the last line may be no event. *)
Fixpoint verify_lines (key : option str) (prev : str) (ls : list str) : bool :=
  match ls with
  | [] => true
  | line :: ls' =>
      match parse_event line with
      | None => bool_decide (ls' = [])
      | Some event =>
          let expected := chain_hash_of prev event key in
          if negb (str_eqb (chain_hash event) expected) then false
          else verify_lines key (chain_hash event) ls'
      end
  end.

Definition file_verify_chain (io : Io) (s : FileAuditSink) (fs : files) : bool :=
  match read_audit_no_follow io (file_path s) fs with
  | None => true
  | Some content => verify_lines (hmac_key s) (initial_hash (hmac_key s)) (audit_lines content)
  end.

Definition rotated_path (base : str) (n : nat) : str := base ++ "." ++ show_nat n.

(** [while i >= 1]. *)
Fixpoint shift_rotated (io : Io) (base : str) (i : nat) (fs : files) : files :=
  match i with
  | O => fs
  | S i' => shift_rotated io base i' (rename io (rotated_path base i) (rotated_path base (S i)) fs)
  end.

Definition rotate (io : Io) (s : FileAuditSink) (fs : files) : files :=
  match fs !! file_path s with
  | None => fs
  | Some b =>
      if negb (metadata_ok io (file_path s)) then fs
      else if (N.of_nat (length b) <? max_file_size_bytes s)%N then fs
      else rename io (file_path s) (rotated_path (file_path s) 1)
             (shift_rotated io (file_path s) (max_rotated_files s - 1) fs)
  end.

(** The lines of the buffer and the hash after them. *)
Fixpoint seal (key : option str) (prev : str) (buf : list AuditEvent) : option (list str * str) :=
  match buf with
  | [] => Some ([], prev)
  | event :: buf' =>
      let chain := chain_hash_of prev event key in
      match event_line (with_chain_hash event chain) with
      | None => None
      | Some s =>
          match seal key chain buf' with
          | None => None
          | Some (ls, last) => Some (s :: ls, last)
          end
      end
  end.

Definition file_flush (io : Io) (s : FileAuditSink) (fs : files) : bool * FileAuditSink * files :=
  if bool_decide (buffer s = []) then (true, s, fs)
  else
    let fs1 := rotate io s fs in
    match seal (hmac_key s) (last_hash s) (buffer s) with
    | None => (false, s, fs1)
    | Some (ls, prev) =>
        let content := join [10%N] ls ++ [10%N] in
        match append_file io (file_path s) content fs1 with
        | (false, fs2) => (false, s, fs2)
        | (true, fs2) =>
            (true, mkFile (file_path s) [] (flush_size s) prev (max_file_size_bytes s)
                     (max_rotated_files s) (hmac_key s), fs2)
        end
    end.

Definition file_write (io : Io) (s : FileAuditSink) (event : AuditEvent) (fs : files)
    : bool * FileAuditSink * files :=
  let buf := buffer s ++ [event] in
  let s1 := mkFile (file_path s) buf (flush_size s) (last_hash s) (max_file_size_bytes s)
              (max_rotated_files s) (hmac_key s) in
  if flush_size s <=? length buf then file_flush io s1 fs else (true, s1, fs).

(** [close] and [drop] ignore what [flush] answers. *)
Definition file_close (io : Io) (s : FileAuditSink) (fs : files) : FileAuditSink * files :=
  let '(_, s', fs') := file_flush io s fs in (s', fs').

(** ** Sinks and the logger *)

Inductive AuditSinkKind := KindMemory | KindFile (p : str).
Inductive AuditSink := SinkMemory (s : MemoryAuditSink) | SinkFile (s : FileAuditSink).

(** The flag is the warning that the chain on disk does not verify. *)
Definition create_audit_sink (io : Io) (kind : AuditSinkKind) (fs : files) : AuditSink * bool * files :=
  match kind with
  | KindMemory => (SinkMemory (memory_new None), false, fs)
  | KindFile p =>
      let '(sink, fs') := file_new io p None (50 * 1024 * 1024) 10 100 fs in
      (SinkFile sink, negb (file_verify_chain io sink fs'), fs')
  end.

Definition sink_name (s : AuditSink) : str :=
  lit match s with SinkMemory _ => "memory" | SinkFile _ => "file" end.

Definition sink_write (io : Io) (s : AuditSink) (event : AuditEvent) (fs : files) : bool * AuditSink * files :=
  match s with
  | SinkMemory m => let '(ok, m') := memory_write m event in (ok, SinkMemory m', fs)
  | SinkFile f => let '(ok, f', fs') := file_write io f event fs in (ok, SinkFile f', fs')
  end.

Definition sink_flush (io : Io) (s : AuditSink) (fs : files) : bool * AuditSink * files :=
  match s with
  | SinkMemory m => (memory_flush m, s, fs)
  | SinkFile f => let '(ok, f', fs') := file_flush io f fs in (ok, SinkFile f', fs')
  end.

Definition sink_close (io : Io) (s : AuditSink) (fs : files) : AuditSink * files :=
  match s with
  | SinkMemory m => (s, fs)
  | SinkFile f => let '(f', fs') := file_close io f fs in (SinkFile f', fs')
  end.

Record AuditRecord := mkRecord {
  rec_action : option AuditAction;
  rec_outcome : option AuditOutcome;
  rec_actor_id : str;
  rec_tenant_id : str;
  rec_reason : str;
  rec_policy_hash : option str;
  rec_trace_id : option str;
  rec_metadata : option json
}.

Record AuditLogger := mkLogger { sink : AuditSink; next_sequence : N }.

Definition logger_new (s : AuditSink) : AuditLogger := mkLogger s 0.

(** The two readings of the clock are arguments. *)
Definition logger_record (io : Io) (millis : Z) (rfc3339 : str) (params : AuditRecord) (l : AuditLogger) (fs : files)
    : bool * AuditLogger * files :=
  let assigned_sequence := next_sequence l in
  let id := "audit-" ++ show_Z millis ++ "-" ++ show_N assigned_sequence in
  let action := unwrap_or SystemError (rec_action params) in
  let outcome := unwrap_or Success (rec_outcome params) in
  let event := mkEvent id assigned_sequence rfc3339 action outcome (rec_actor_id params)
                 (rec_tenant_id params) (rec_reason params) [] (rec_policy_hash params)
                 (rec_trace_id params) (rec_metadata params) in
  let '(ok, sink', fs') := sink_write io (sink l) event fs in
  (ok, mkLogger sink' (assigned_sequence + 1), fs').

Definition logger_flush (io : Io) (l : AuditLogger) (fs : files) : bool * AuditLogger * files :=
  let '(ok, sink', fs') := sink_flush io (sink l) fs in (ok, mkLogger sink' (next_sequence l), fs').

(** ** The walker of the audit tool *)

Inductive VerifyError := CannotRead | NotAnEvent (line : nat).

Fixpoint walk_lines (key : option str) (prev : str) (count : nat) (ls : list str)
    : result (nat * option N) VerifyError :=
  match ls with
  | [] => Ok (count, None)
  | line :: ls' =>
      match parse_event line with
      | None => Err (NotAnEvent (count + 1))
      | Some event =>
          let expected := chain_hash_of prev event key in
          if negb (str_eqb (chain_hash event) expected) then Ok (count, Some (sequence event))
          else walk_lines key (chain_hash event) (count + 1) ls'
      end
  end.

Definition verify_audit_jsonl (io : Io) (p : str) (key : option str) (fs : files)
    : result (nat * option N) VerifyError :=
  match read_audit_no_follow io p fs with
  | None => Err CannotRead
  | Some content => walk_lines key (initial_hash key) 0 (audit_lines content)
  end.
End Hash.

(** ** Entries of the plain log, and redaction *)

(** [scrub_free_text]: the regular expression of the code, run by the regex crate. *)
Class Scrubber := scrub_free_text : str -> str.

Fixpoint char_indices (offset : N) (s : str) : list N :=
  match s with
  | [] => []
  | c :: s' => offset :: char_indices (offset + char_len c) s'
  end.

Fixpoint take_while {A} (p : A -> bool) (l : list A) : list A :=
  match l with
  | [] => []
  | x :: l' => if p x then x :: take_while p l' else []
  end.

(** [None] where slicing the text would panic. *)
Definition truncate_string (s : str) (max : N) : option str :=
  if (str_len s <=? max)%N then Some s
  else
    let idx := unwrap_or 0%N (last (take_while (fun i => (i <=? max)%N) (char_indices 0 s))) in
    match split_at_byte s idx with
    | Some (head, _) => Some (head ++ "...[truncated]")
    | None => None
    end.

Section Redaction.
Context `{Scrubber}.

(** One member; [None] for a panic, [Some None] for a member that is dropped. *)
Definition redact_member (tool key : str) (value : json) : option (option (str * json)) :=
  if str_eqb key "content" || str_eqb key "old_string" || str_eqb key "new_string" then Some None
  else if str_eqb key "command" && str_eqb tool "bash" then
    let cmd := unwrap_or [] (as_str value) in
    match truncate_string cmd 1024 with
    | Some truncated => Some (Some (key, JStr (scrub_free_text truncated)))
    | None => None
    end
  else if str_eqb key "path" then
    Some (match as_str value with Some s => Some (key, JStr s) | None => None end)
  else Some (Some (key, JStr [])).

Fixpoint redact_members (tool : str) (obj : list (str * json)) : option (list (str * json)) :=
  match obj with
  | [] => Some []
  | (key, value) :: obj' =>
      match redact_member tool key value, redact_members tool obj' with
      | Some (Some m), Some out => Some (m :: out)
      | Some None, Some out => Some out
      | _, _ => None
      end
  end.

Definition redact_args (tool : str) (args : json) : option json :=
  match args with
  | JObj obj => match redact_members tool obj with Some out => Some (JObj out) | None => None end
  | _ => Some JNull
  end.

Inductive AuditEntry :=
| Tool (ts tool : str) (args : json) (success : bool) (denial_reason session_id : option str)
| Hook (ts event : str) (plugin : option str) (verdict : str) (hook_reason session_id : option str)
| PluginTool (ts name args_summary : str) (exit_code : option Z) (duration_ms : N).

Definition entry_tool (now tool : str) (args : json) (success : bool) (denial_reason : option str)
    : option AuditEntry :=
  match redact_args tool args with
  | Some redacted => Some (Tool now tool redacted success denial_reason None)
  | None => None
  end.

Definition entry_hook (now event : str) (plugin : option str) (verdict : str) (why : option str) : AuditEntry :=
  Hook now event plugin verdict (scrub_free_text <$> why) None.

Definition entry_plugin_tool (now name args_summary : str) (exit_code : option Z) (duration_ms : N) : AuditEntry :=
  PluginTool now name (scrub_free_text args_summary) exit_code duration_ms.
End Redaction.

(** ** Proofs: the chain *)

Section ChainFacts.
Context `{Sha256} `{AuditJson}.

Fixpoint end_hash (prev : str) (l : list AuditEvent) : str :=
  match l with [] => prev | e :: l' => end_hash (chain_hash e) l' end.

Lemma end_hash_app prev l l' : end_hash prev (l ++ l') = end_hash (end_hash prev l) l'.
Proof. revert prev. induction l as [|e l IH]; intros prev; [done|]. apply IH. Qed.

Lemma verify_events_app key prev l l' :
  verify_events key prev (l ++ l') = verify_events key prev l && verify_events key (end_hash prev l) l'.
Proof.
  revert prev. induction l as [|e l IH]; intros prev; [done|]. cbn [app verify_events end_hash].
  destruct (str_eqb _ _); [apply IH|done].
Qed.

Lemma verify_events_one key prev e :
  verify_events key prev [e] = true <-> chain_hash e = chain_hash_of prev e key.
Proof. cbn [verify_events]. by destruct (str_eqb _ _) eqn:E; [apply str_eqb_eq in E|apply str_eqb_neq in E]. Qed.

Lemma digest_hex key b : hex64 (digest key b).
Proof. destruct key; [apply hmac_sha256_hex|apply sha256_hex]. Qed.

Lemma end_hash_hex key l :
  verify_events key (initial_hash key) l = true -> hex64 (end_hash (initial_hash key) l).
Proof.
  induction l as [|e l IH] using rev_ind; intros Hv; [apply digest_hex|].
  rw verify_events_app in Hv. apply andb_true_iff in Hv as [_ Hc%verify_events_one].
  rw end_hash_app. cbn [end_hash]. rw Hc. apply digest_hex.
Qed.

(** Two different texts with one digest. *)
Definition collision (key : option str) : Prop :=
  exists a b, a <> b /\ digest key a = digest key b.

Lemma digest_eq key a b : digest key a = digest key b -> a = b \/ collision key.
Proof. intros He. destruct (decide (a = b)); [by left|]. right. by exists a, b. Qed.

(** What follows the previous hash in the hashed text. *)
Definition rest_text (e : AuditEvent) : str := drop 64 (hashed_text (replicate 64 48%N) e).

Lemma hashed_text_rest prev e : length prev = 64 -> hashed_text prev e = prev ++ rest_text e.
Proof.
  intros Hl. unfold rest_text, hashed_text. by f_equal.
Qed.

Lemma genesis_not_hashed prev e : length prev = 64 -> lit "kirkforge-audit-genesis" <> hashed_text prev e.
Proof.
  intros Hl He. rw hashed_text_rest // in He. apply (f_equal length) in He. rw length_app in He.
  change (length (lit "kirkforge-audit-genesis")) with 23 in He. lia.
Qed.

(** Two chains that verify and end in one hash have the same texts, or a collision. *)
Lemma chain_texts key l l' :
  let g := initial_hash key in
  verify_events key g l = true -> verify_events key g l' = true -> end_hash g l = end_hash g l' ->
  map rest_text l = map rest_text l' \/ collision key.
Proof.
  intros g. revert l'. induction l as [|e l IH] using rev_ind; intros l'; induction l' as [|e' l' _] using rev_ind.
  - by left.
  - rw verify_events_app end_hash_app. intros _ [Hv Hl%verify_events_one]%andb_true_iff He. right.
    cbn [end_hash] in He. rw Hl in He. apply end_hash_hex in Hv as [Hx _].
    destruct (digest_eq _ _ _ He) as [Ht|?]; [|done]. apply utf8_encode_inj in Ht.
    by apply genesis_not_hashed in Ht.
  - rw verify_events_app end_hash_app. intros [Hv Hl%verify_events_one]%andb_true_iff _ He. right.
    cbn [end_hash] in He. rw Hl in He. apply end_hash_hex in Hv as [Hx _].
    destruct (digest_eq _ _ _ He) as [Ht|?]; [|done]. apply utf8_encode_inj in Ht.
    by apply eq_sym, genesis_not_hashed in Ht.
  - rw !verify_events_app !end_hash_app.
    intros [Hv Hl%verify_events_one]%andb_true_iff [Hv' Hl'%verify_events_one]%andb_true_iff He.
    cbn [end_hash] in He. rw Hl Hl' in He.
    destruct (digest_eq _ _ _ He) as [Ht%utf8_encode_inj|?]; [|by right].
    destruct (end_hash_hex _ _ Hv) as [Hx _], (end_hash_hex _ _ Hv') as [Hx' _].
    rw !hashed_text_rest // in Ht. apply app_inj_1 in Ht as [Hp Hr]; [|by rw Hx Hx'].
    destruct (IH l' Hv Hv' Hp) as [Hm|?]; [left|by right]. by rw !map_app /= Hm Hr.
Qed.

(** ** Proofs: the text determines the facts *)

(** The facts that the hash covers. *)
Definition recorded (e : AuditEvent) :=
  (action e, outcome e, actor_id e, tenant_id e, reason e, timestamp e, sequence e, metadata_json e).

(** No separator inside a field, and the number is a [u64]. *)
Definition separated (e : AuditEvent) : Prop :=
  chr "|" ∉ actor_id e /\ chr "|" ∉ tenant_id e /\ chr "|" ∉ reason e /\ chr "|" ∉ timestamp e
  /\ (sequence e < 2 ^ 64)%N.

Lemma sep_inj x (a a' r r' : str) :
  x ∉ a -> x ∉ a' -> a ++ [x] ++ r = a' ++ [x] ++ r' -> a = a' /\ r = r'.
Proof.
  revert a'. induction a as [|c a IH]; intros [|c' a'] Ha Ha' He; simpl in He.
  - by injection He.
  - injection He as <- _. exfalso. apply Ha'. by left.
  - injection He as <- _. exfalso. apply Ha. by left.
  - injection He as <- He. apply not_elem_of_cons in Ha as [_ Ha], Ha' as [_ Ha'].
    by destruct (IH a' Ha Ha' He) as [-> ->].
Qed.

Definition all_actions : list AuditAction :=
  [AuthSuccess; AuthFailure; AuthTokenRefresh; PolicyCheck; PolicyDeny; PolicyChange; TenantCreate;
   TenantEvict; TenantAccess; VerifyStart; VerifyComplete; CorrectStart; CorrectComplete; ObserveRecord;
   ObserveRecall; MemoryRead; MemoryWrite; MemoryDelete; SecretAccess; SecretResolve; ConfigChange;
   ToolInvoke; ToolDeny; ModelInvoke; ModelDeny; SystemStartup; SystemShutdown; ServeStart;
   ServeShutdown; SystemError].

Lemma action_str_inj a b : action_str a = action_str b -> a = b.
Proof.
  intros He.
  assert (forall c, find_first (fun x => str_eqb (action_str x) (action_str c)) all_actions = Some c) as Hf
    by (by intros []).
  pose proof (Hf a) as Ha. rw He Hf in Ha. by injection Ha.
Qed.

Lemma action_str_bar a : chr "|" ∉ action_str a.
Proof. apply (bool_decide_unpack _). by destruct a. Qed.

Lemma outcome_str_inj a b : outcome_str a = outcome_str b -> a = b.
Proof. by destruct a, b. Qed.

Lemma outcome_str_bar a : chr "|" ∉ outcome_str a.
Proof. apply (bool_decide_unpack _). by destruct a. Qed.

Lemma show_N_bar n : (n < 2 ^ 64)%N -> chr "|" ∉ show_N n.
Proof.
  intros Hn Hin. pose proof (parse_digits_all _ _ _ (parse_digits_show n Hn)) as Hd.
  rw Forall_forall in Hd. by apply Hd in Hin.
Qed.

Lemma show_N_inj n m : (n < 2 ^ 64)%N -> (m < 2 ^ 64)%N -> show_N n = show_N m -> n = m.
Proof.
  intros Hn Hm He. pose proof (parse_digits_show n Hn) as Hp. rw He parse_digits_show // in Hp. by injection Hp.
Qed.

Lemma rest_text_recorded e e' :
  separated e -> separated e' -> rest_text e = rest_text e' -> recorded e = recorded e'.
Proof.
  intros (Ha & Ht & Hr & Hs & Hn) (Ha' & Ht' & Hr' & Hs' & Hn') He.
  assert (hashed_text (replicate 64 48%N) e = hashed_text (replicate 64 48%N) e') as Hh
    by (rw !hashed_text_rest ?length_replicate //; by f_equal).
  unfold hashed_text in Hh. apply app_inv_head in Hh. injection Hh as Hh.
  apply sep_inj in Hh as [Eact Hh]; [|apply action_str_bar..].
  apply sep_inj in Hh as [Eout Hh]; [|apply outcome_str_bar..].
  apply sep_inj in Hh as [Eactor Hh]; [|done..].
  apply sep_inj in Hh as [Eten Hh]; [|done..].
  apply sep_inj in Hh as [Erea Hh]; [|done..].
  apply sep_inj in Hh as [Ets Hh]; [|done..].
  apply sep_inj in Hh as [Eseq Emeta]; [|by apply show_N_bar..].
  unfold recorded. apply action_str_inj in Eact. apply outcome_str_inj in Eout. apply show_N_inj in Eseq; [|done..].
  congruence.
Qed.

Lemma rest_texts_recorded l l' :
  Forall separated l -> Forall separated l' -> map rest_text l = map rest_text l' ->
  map recorded l = map recorded l'.
Proof.
  intros Hl. revert l'. induction Hl as [|e l He Hl IH]; intros [|e' l'] Hl' Hm; try done.
  apply Forall_cons in Hl' as [He' Hl']. cbn [map].
  pose proof (f_equal (hd []) Hm : rest_text e = rest_text e') as Hx. apply (f_equal tail) in Hm.
  by rw (rest_text_recorded e e' He He' Hx) (IH l' Hl' Hm).
Qed.
End ChainFacts.

(** ** Proofs: canonical JSON *)

(** The same value up to the order of members, at every depth. *)
Inductive json_same : json -> json -> Prop :=
| same_value v : json_same v v
| same_array l l' : Forall2 json_same l l' -> json_same (JArr l) (JArr l')
| same_object m m' m'' :
    map fst m = map fst m' -> Forall2 json_same (map snd m) (map snd m') -> NoDup (map fst m') ->
    Permutation m' m'' -> json_same (JObj m) (JObj m'').

Lemma json_nested_ind (P : json -> Prop) :
  P JNull -> (forall b, P (JBool b)) -> (forall n, P (JNum n)) -> (forall s, P (JStr s)) ->
  (forall l, Forall P l -> P (JArr l)) -> (forall m, Forall (fun e => P e.2) m -> P (JObj m)) ->
  forall v, P v.
Proof.
  intros Hnull Hbool Hnum Hstr Harr Hobj. fix IH 1. intros [|b|n|s|l|m];
    [apply Hnull|apply Hbool|apply Hnum|apply Hstr|apply Harr|apply Hobj].
  - induction l; constructor; [apply IH|done].
  - induction m; constructor; [apply IH|done].
Qed.

Lemma assoc_perm {A} (k : str) (l l' : list (str * A)) :
  Permutation l l' -> NoDup (map fst l) -> assoc k l = assoc k l'.
Proof.
  induction 1 as [|[k1 v1] l l' Hp IH|[k1 v1] [k2 v2] l|l l' l'' Hp IH Hp' IH']; intros Hn; [done|..].
  - cbn [assoc]. apply NoDup_cons in Hn as [_ Hn]. by rw IH.
  - cbn [assoc map fst] in *. apply NoDup_cons in Hn as [Hn _]. apply not_elem_of_cons in Hn as [Hn _].
    destruct (str_eqb k k1) eqn:E1, (str_eqb k k2) eqn:E2; try done.
    apply str_eqb_eq in E1 as ->, E2. done.
  - rw IH //. apply IH'. by rw -Hp.
Qed.

Section Canonical.
Context `{AuditJson}.

Lemma canonical_json_same v v' depth : json_same v v' -> canonical_json v depth = canonical_json v' depth.
Proof.
  revert v' depth. induction v as [| | | |l IH|m IH] using json_nested_ind; intros v' depth Hs.
  1-4: by inversion Hs.
  - inversion Hs as [|? l' Hl|]; subst; [done|]. cbn [canonical_json]. destruct (32 <? depth)%N; [done|].
    do 3 f_equal. clear Hs. induction Hl as [|x x' l l' Hx Hl IHl]; [done|].
    apply Forall_cons in IH as [Hc IH]. cbn [map]. by rw (Hc x') // IHl.
  - inversion Hs as [| |? m' m'' Hk Hv Hn Hp]; subst; [done|]. cbn [canonical_json].
    destruct (32 <? depth)%N; [done|].
    set (r := fun e : str * json => (e.1, canonical_json e.2 (depth + 1))).
    assert (map r m = map r m') as Hr.
    { clear Hs Hn Hp. revert m' Hk Hv. induction IH as [|[k x] m Hc IH IHm]; intros [|[k' x'] m'] Hk Hv; try done.
      cbn [map fst snd] in *. injection Hk as <- Hk. apply Forall2_cons in Hv as [Hx Hv].
      rw (IHm m') //. unfold r. cbn [fst snd]. by rw (Hc x'). }
    do 3 f_equal. rw Hk (sort_names_unique (map fst m') (map fst m'')); [by rw Hp|].
    apply map_ext. intros k. rw Hr. do 3 f_equal. apply assoc_perm; [by rw Hp|].
    by rw map_map.
Qed.

(** The hash of an event does not depend on the order of its metadata. *)
Definition with_metadata (e : AuditEvent) (v : json) : AuditEvent :=
  mkEvent (event_id e) (sequence e) (timestamp e) (action e) (outcome e) (actor_id e) (tenant_id e)
    (reason e) (chain_hash e) (policy_hash e) (trace_id e) (Some v).

Lemma metadata_json_same e v v' :
  json_same v v' -> metadata_json (with_metadata e v) = metadata_json (with_metadata e v').
Proof.
  intros Hs. pose proof (canonical_json_same v v' 0 Hs) as Hc. unfold metadata_json. cbn [with_metadata metadata].
  by destruct Hs as [[]| |].
Qed.

End Canonical.

(** ** Proofs: lines of the file *)

(** A line that starts with a brace is not blank. *)
Lemma trim_brace r : str_eqb (trim (chr "{" :: r)) [] = false.
Proof.
  apply str_eqb_neq. unfold trim, trim_end. cbn [trim_start is_whitespace in_range].
  change (trim_start (chr "{" :: r)) with (chr "{" :: r). cbn [rev].
  intros He%(f_equal (@rev N)). rw rev_involutive in He.
  assert (forall a, trim_start (a ++ [chr "{"]) <> []) as Ht.
  { induction a as [|x a IH]; simpl; [done|]. by destruct (is_whitespace x). }
  by apply (Ht (rev r)).
Qed.

Lemma strip_cr_brace s : strip_cr (chr "{" :: (s ++ [chr "}"])) = chr "{" :: (s ++ [chr "}"]).
Proof.
  unfold strip_cr. destruct (ends_with _ [13%N]) eqn:E; [|done].
  apply ends_with_spec in E as [q Hq]. rw app_comm_cons in Hq.
  by apply app_inj_tail in Hq as [_ Hq].
Qed.

Section Lines.
Context `{Sha256} `{AuditJson}.

Definition line (e : AuditEvent) : str := unwrap_or [] (event_line e).

(** The text of a file with these events. *)
Definition file_text (l : list AuditEvent) : str := concat (map (fun e => line e ++ [10%N]) l).

Lemma file_text_app l l' : file_text (l ++ l') = file_text l ++ file_text l'.
Proof. unfold file_text. by rw map_app concat_app. Qed.

Lemma line_kept e : event_kept e -> exists s,
  event_line e = Some (line e) /\ line e = chr "{" :: (s ++ [chr "}"]) /\ forallb is_scalar (line e) = true
  /\ 10%N ∉ line e /\ parse_event (line e) = Some e
  /\ forall p, p `prefix_of` line e -> p <> line e -> parse_event p = None.
Proof.
  intros Hk. destruct (kept_line e Hk) as (s & Hl & Hs & Hn & Hp & Hc). exists s.
  assert (line e = chr "{" :: (s ++ [chr "}"])) as -> by (unfold line; by rw Hl).
  repeat split; [done| |by rw elem_of_cons elem_of_app list_elem_of_singleton; intros [?|[?|?]]|done|].
  - cbn [forallb]. by rw forallb_app Hs.
  - intros p [k Hk'] Hne. apply Hc. destruct k as [|x k _] using rev_ind; [by rw app_nil_r in Hk'|].
    rw app_assoc app_comm_cons in Hk'. apply app_inj_tail in Hk' as [Hk' _]. by exists k.
Qed.

Lemma file_text_scalar l : Forall event_kept l -> forallb is_scalar (file_text l) = true.
Proof.
  induction 1 as [|e l He _ IH]; [done|]. destruct (line_kept e He) as (s & _ & _ & Hs & _).
  unfold file_text in *. cbn [map concat]. by rw !forallb_app Hs IH.
Qed.

Lemma lines_cons l r : 10%N ∉ l -> strip_cr l = l -> lines (l ++ 10%N :: r) = l :: lines r.
Proof.
  intros Hn Hs. unfold lines. rw split_char_app (split_char_notin _ _ Hn).
  destruct (split_char 10 r) as [|x k] eqn:E; [by apply split_char_nonempty in E|].
  cbn [app lines_of]. by rw Hs.
Qed.

Definition torn_lines (frag : str) : list str := match frag with [] => [] | _ => [frag] end.

(** A torn tail: nothing, or the start of an object. *)
Definition fragment (frag : str) : Prop := frag = [] \/ exists r, frag = chr "{" :: r.

Lemma audit_lines_text l frag :
  Forall event_kept l -> fragment frag -> 10%N ∉ frag ->
  audit_lines (file_text l ++ frag) = map line l ++ torn_lines frag.
Proof.
  intros Hl Hf Hn. unfold audit_lines. induction Hl as [|e l He _ IH].
  - change (file_text [] ++ frag) with frag. assert (lines frag = torn_lines frag) as ->.
    { unfold lines. rw (split_char_notin _ _ Hn). by destruct frag. }
    destruct Hf as [->|[r ->]]; [done|]. cbn [torn_lines List.filter]. by rw trim_brace.
  - destruct (line_kept e He) as (s & _ & Hs & _ & Hnl & _). unfold file_text in *. cbn [map concat].
    rw -!app_assoc. cbn [app]. rw lines_cons // ?Hs ?strip_cr_brace //. cbn [List.filter].
    rw trim_brace. cbn [negb]. by rw IH.
Qed.

(** The events as the sink seals them. *)
Fixpoint sealed (key : option str) (prev : str) (buf : list AuditEvent) : list AuditEvent :=
  match buf with
  | [] => []
  | e :: buf' => let chain := chain_hash_of prev e key in with_chain_hash e chain :: sealed key chain buf'
  end.

Lemma sealed_spec key prev buf :
  Forall event_kept buf ->
  Forall event_kept (sealed key prev buf) /\ verify_events key prev (sealed key prev buf) = true
  /\ seal key prev buf = Some (map line (sealed key prev buf), end_hash prev (sealed key prev buf)).
Proof.
  intros Hk. revert prev. induction Hk as [|e buf He _ IH]; intros prev; [done|].
  cbn [sealed seal verify_events map end_hash chain_hash with_chain_hash].
  destruct (IH (chain_hash_of prev e key)) as (Hks & Hv & Hs).
  assert (event_kept (with_chain_hash e (chain_hash_of prev e key))) as Hke by (apply kept_sealed; [done|apply digest_hex]).
  destruct (line_kept _ Hke) as (s & -> & _). rw Hs. split; [by constructor|]. split; [|done].
  change (chain_hash_of prev (with_chain_hash e _) key) with (chain_hash_of prev e key).
  by rw str_eqb_refl Hv.
Qed.

Lemma join_lines l : l <> [] -> join [10%N] (map line l) ++ [10%N] = file_text l.
Proof.
  induction l as [|e [|e' l] IH]; intros Hn; [done|unfold file_text; cbn [map join concat]; by rw app_nil_r|].
  change (file_text (e :: e' :: l)) with ((line e ++ [10%N]) ++ file_text (e' :: l)).
  rw -IH //. cbn [map join]. by rw -!app_assoc.
Qed.

Lemma verify_lines_text key prev l frag :
  Forall event_kept l -> (frag <> [] -> parse_event frag = None) ->
  verify_lines key prev (map line l ++ torn_lines frag) = verify_events key prev l.
Proof.
  intros Hk Hf. revert prev. induction Hk as [|e l He _ IH]; intros prev.
  - cbn [map app]. destruct frag; [done|]. cbn [torn_lines verify_lines]. by rw Hf.
  - destruct (line_kept e He) as (s & _ & _ & _ & _ & Hp & _). cbn [map app verify_lines verify_events].
    by rw Hp IH.
Qed.

Lemma last_good_snoc ls l e : parse_event l = Some e -> last_good (ls ++ [l]) = Some (length ls, e).
Proof. intros Hp. induction ls as [|x ls IH]; cbn [app last_good length]; [by rw Hp|by rw IH]. Qed.

Lemma last_good_bad ls l : parse_event l = None -> last_good (ls ++ [l]) = last_good ls.
Proof. intros Hp. induction ls as [|x ls IH]; cbn [app last_good]; [by rw Hp|by rw IH]. Qed.

(** What a restart makes of a file with a torn tail. *)
Lemma resume_text io p key l frag fs :
  Forall event_kept l -> fragment frag -> 10%N ∉ frag -> (frag <> [] -> parse_event frag = None) ->
  forallb is_scalar frag = true -> read_ok io p = true -> truncate_io io = Written ->
  fs !! p = Some (utf8_encode (file_text l ++ frag)) ->
  exists h fs', resume_chain io p fs = (h, fs')
    /\ unwrap_or (initial_hash key) h = end_hash (initial_hash key) l
    /\ fs' !! p = Some (utf8_encode (file_text l)).
Proof.
  intros Hk Hf Hn Hp Hs Hr Ht Hfs. unfold resume_chain, read_audit_no_follow. rw Hfs Hr.
  rw from_utf8_encode; [by rw forallb_app file_text_scalar|]. rw audit_lines_text //.
  unfold write_audit_no_follow. rw Ht. destruct l as [|e l _] using rev_ind.
  - cbn [map app]. destruct frag as [|c frag]; cbn [torn_lines].
    + rw bool_decide_eq_true_2 //. exists None, fs. by rw app_nil_r in Hfs.
    + rw bool_decide_eq_false_2 //. cbn [last_good]. rw Hp //. eexists None, _. split; [done|]. split; [done|]. apply lookup_insert_eq.
  - rw bool_decide_eq_false_2. { rw map_app. by destruct (map line l). }
    apply Forall_app in Hk as [Hkl [He _]%Forall_cons]. destruct (line_kept e He) as (s & _ & _ & _ & _ & Hpe & _).
    assert (last_good (map line (l ++ [e])) = Some (length l, e)) as Hg.
    { rw map_app. cbn [map]. by rw (last_good_snoc _ _ e) // length_map. }
    rw end_hash_app. cbn [end_hash]. destruct frag as [|c frag]; cbn [torn_lines].
    + rw app_nil_r Hg length_map length_app. cbn [length].
      rw (proj2 (Nat.ltb_ge _ _)); [lia|]. exists (Some (chain_hash e)), fs. by rw app_nil_r in Hfs.
    + rw last_good_bad ?Hg; [by apply Hp|]. rw length_app length_map length_app. cbn [length].
      rw (proj2 (Nat.ltb_lt _ _)); [lia|]. eexists (Some (chain_hash e)), _. split; [done|]. split; [done|].
      rw lookup_insert_eq. do 2 f_equal. rw take_app_length'; [rw length_map length_app /=; lia|].
      apply join_lines. by destruct l.
Qed.
End Lines.

(** ** Proofs: the file sink *)

Section Trail.
Context `{Sha256} `{AuditJson}.

(** What the caller recorded, without the seal. *)
Definition facts (e : AuditEvent) : AuditEvent := with_chain_hash e [].

(** The file is below the size at which it is rotated. *)
Definition below_cap (s : FileAuditSink) (fs : files) : Prop :=
  forall b, fs !! file_path s = Some b -> (N.of_nat (length b) < max_file_size_bytes s)%N.

(** A crash while the buffer is written: some lines, and a proper prefix of the next. *)
Definition pending (s : FileAuditSink) : list AuditEvent := sealed (hmac_key s) (last_hash s) (buffer s).
Definition torn_at (s : FileAuditSink) (j : nat) (frag : str) : Prop :=
  match pending s !! j with
  | Some e => frag `prefix_of` line e /\ frag <> line e
  | None => frag = []
  end.
Definition torn_files (s : FileAuditSink) (fs : files) (j : nat) (frag : str) : files :=
  <[file_path s := unwrap_or [] (fs !! file_path s) ++ utf8_encode (file_text (take j (pending s)) ++ frag)]> fs.

(** The sessions of a sink whose file is not rotated: events are written, flushed, or the
    process ends in the middle of a flush and a new sink opens the file.  The list is what
    the caller recorded, less what the last crash lost. *)
Inductive trail : FileAuditSink -> files -> list AuditEvent -> Prop :=
| trail_new io p key mb mr fl fs s fs' :
    fs !! p = None -> file_new io p key mb mr fl fs = (s, fs') -> trail s fs' []
| trail_write io s fs hist e ok s' fs' :
    trail s fs hist -> event_kept e -> append_io io = OpenFails \/ append_io io = Written ->
    below_cap s fs -> file_write io s e fs = (ok, s', fs') -> trail s' fs' (hist ++ [e])
| trail_flush io s fs hist ok s' fs' :
    trail s fs hist -> append_io io = OpenFails \/ append_io io = Written -> below_cap s fs ->
    file_flush io s fs = (ok, s', fs') -> trail s' fs' hist
| trail_crash io s fs hist j frag mb mr fl s' fs' :
    trail s fs hist -> torn_at s j frag -> read_ok io (file_path s) = true -> truncate_io io = Written ->
    file_new io (file_path s) (hmac_key s) mb mr fl (torn_files s fs j frag) = (s', fs') ->
    trail s' fs' (take (length hist - length (buffer s) + j) hist).

(** The file is the text of a chain that ends in the hash of the sink. *)
Definition sound (s : FileAuditSink) (fs : files) (l : list AuditEvent) : Prop :=
  Forall event_kept l /\ Forall event_kept (buffer s)
  /\ unwrap_or [] (fs !! file_path s) = utf8_encode (file_text l)
  /\ verify_events (hmac_key s) (initial_hash (hmac_key s)) l = true
  /\ end_hash (initial_hash (hmac_key s)) l = last_hash s.

Lemma sealed_facts key prev buf : map facts (sealed key prev buf) = map facts buf.
Proof. revert prev. induction buf as [|e buf IH]; intros prev; [done|]. cbn [sealed map]. by rw IH. Qed.

Lemma sealed_app key prev l l' :
  sealed key prev (l ++ l') = sealed key prev l ++ sealed key (end_hash prev (sealed key prev l)) l'.
Proof. revert prev. induction l as [|e l IH]; intros prev; [done|]. cbn [app sealed end_hash]. by rw IH. Qed.

Lemma sealed_take key prev buf j : take j (sealed key prev buf) = sealed key prev (take j buf).
Proof. revert prev j. induction buf as [|e buf IH]; intros prev [|j]; try done. cbn [sealed take]. by rw IH. Qed.

Lemma rotate_below io s fs : below_cap s fs -> rotate io s fs = fs.
Proof.
  intros Hb. unfold rotate. destruct (fs !! file_path s) as [b|] eqn:E; [|done].
  destruct (metadata_ok _ _); [|done]. by rw (proj2 (N.ltb_lt _ _) (Hb b E)).
Qed.

Lemma flush_sound io s fs l ok s' fs' :
  sound s fs l -> append_io io = OpenFails \/ append_io io = Written -> below_cap s fs ->
  file_flush io s fs = (ok, s', fs') ->
  file_path s' = file_path s /\ exists l', sound s' fs' l' /\ map facts l' ++ map facts (buffer s') = map facts l ++ map facts (buffer s).
Proof.
  intros (Hl & Hb & Hf & Hv & He) Hio Hcap. unfold file_flush.
  case_bool_decide as Hn; [intros [= <- <- <-]; split; [done|]; by exists l|].
  rw rotate_below //. destruct (sealed_spec (hmac_key s) (last_hash s) (buffer s) Hb) as (Hks & Hvs & Hs).
  rw Hs join_lines. { by destruct (buffer s). }
  unfold append_file. destruct Hio as [-> | ->]; intros [= <- <- <-]; (split; [done|]).
  - by exists l.
  - exists (l ++ sealed (hmac_key s) (last_hash s) (buffer s)). cbn [buffer].
    split; [|by rw map_app sealed_facts app_nil_r].
    repeat split; cbn [buffer file_path hmac_key last_hash]; [by apply Forall_app|done| | |].
    + by rw lookup_insert_eq file_text_app utf8_encode_app Hf.
    + by rw verify_events_app Hv He Hvs.
    + by rw end_hash_app He.
Qed.

(** The file as a crash leaves it. *)
Lemma torn_text s fs l j frag :
  sound s fs l -> torn_at s j frag ->
  let l' := l ++ take j (pending s) in
  Forall event_kept l' /\ fragment frag /\ 10%N ∉ frag /\ (frag <> [] -> parse_event frag = None) /\ forallb is_scalar frag = true
  /\ torn_files s fs j frag !! file_path s = Some (utf8_encode (file_text l' ++ frag))
  /\ verify_events (hmac_key s) (initial_hash (hmac_key s)) l' = true.
Proof.
  intros (Hl & Hb & Hf & Hv & He) Ht l'. unfold torn_at, pending in *.
  destruct (sealed_spec (hmac_key s) (last_hash s) (buffer s) Hb) as (Hks & Hvs & _).
  split; [apply Forall_app; split; [done|by apply Forall_take]|].
  assert (fragment frag /\ 10%N ∉ frag /\ (frag <> [] -> parse_event frag = None) /\ forallb is_scalar frag = true) as (H1 & H2 & H3 & H4).
  { destruct (_ !! j) as [e|] eqn:E.
    - destruct Ht as [Hp Hne]. eapply Forall_lookup_1 in E; [|exact Hks].
      destruct (line_kept e E) as (t & _ & Hlt & Hsc & Hnl & _ & Hcut). pose proof (Hcut frag Hp Hne) as Hc.
      destruct Hp as [k Hk]. split; [|split; [|split; [done|]]].
      + destruct frag as [|c frag]; [by left|]. right. rw Hlt in Hk. injection Hk as Hx _.
        exists frag. f_equal. exact (eq_sym Hx).
      + intros Hin. apply Hnl. rw Hk. apply elem_of_app. by left.
      + rw Hk forallb_app in Hsc. by apply andb_true_iff in Hsc as [? _].
    - subst frag. split; [by left|]. by split; [apply not_elem_of_nil|]. }
  do 4 (split; [done|]). split.
  - unfold torn_files, l'. by rw lookup_insert_eq Hf -utf8_encode_app file_text_app -app_assoc.
  - unfold l'. rw verify_events_app Hv He sealed_take.
    by destruct (sealed_spec (hmac_key s) (last_hash s) (take j (buffer s)) (Forall_take _ _ _ Hb)) as (_ & -> & _).
Qed.

Lemma new_resumed io p key mb mr fl fs h fs1 :
  resume_chain io p fs = (h, fs1) ->
  file_new io p key mb mr fl fs = (mkFile p [] fl (unwrap_or (initial_hash key) h) mb mr key, fs1).
Proof. intros Hr. unfold file_new. by rw Hr. Qed.

Lemma trail_sound s fs hist :
  trail s fs hist -> exists l, sound s fs l /\ map facts l ++ map facts (buffer s) = map facts hist.
Proof.
  induction 1 as [io p key mb mr fl fs s fs' Hp Hnew|io s fs hist e ok s' fs' _ IH Hk Hio Hcap Hw
    |io s fs hist ok s' fs' _ IH Hio Hcap Hfl|io s fs hist j frag mb mr fl s' fs' _ IH Ht Hr Htr Hnew].
  - assert (resume_chain io p fs = (None, fs)) as Hr by (unfold resume_chain, read_audit_no_follow; by rw Hp).
    rw (new_resumed _ _ _ _ _ _ _ _ _ Hr) in Hnew. injection Hnew as <- <-. exists [].
    split; [|done]. repeat split; cbn [buffer file_path]; [constructor..|]. by rw Hp.
  - destruct IH as (l & (Hl & Hb & Hs) & Hm). unfold file_write in Hw.
    set (s1 := mkFile _ _ _ _ _ _ _) in Hw.
    assert (sound s1 fs l) as Hs1 by (split; [done|]; split; [by apply Forall_app; split; [|constructor]|done]).
    assert (map facts l ++ map facts (buffer s1) = map facts (hist ++ [e])) as Hm1
      by (cbn [s1 buffer]; by rw !map_app app_assoc Hm).
    destruct (_ <=? _); [|injection Hw as <- <- <-; by exists l].
    destruct (flush_sound io s1 fs l ok s' fs' Hs1 Hio Hcap Hw) as (_ & l' & Hs' & Hm').
    exists l'. by rw Hm' Hm1.
  - destruct IH as (l & Hs & Hm). destruct (flush_sound io s fs l ok s' fs' Hs Hio Hcap Hfl) as (_ & l' & Hs' & Hm').
    exists l'. by rw Hm' Hm.
  - destruct IH as (l & Hs & Hm). destruct (torn_text s fs l j frag Hs Ht) as (Hk & Hf & Hn & Hp & Hsc & Hfile & Hv).
    destruct (resume_text io (file_path s) (hmac_key s) _ frag _ Hk Hf Hn Hp Hsc Hr Htr Hfile) as (h & fs1 & Hres & Hh & Hfs1).
    rw (new_resumed _ _ _ _ _ _ _ _ _ Hres) in Hnew. injection Hnew as <- <-.
    exists (l ++ take j (pending s)). split; [repeat split; cbn [buffer file_path hmac_key last_hash]; try done; by rw Hfs1|].
    cbn [buffer map]. unfold pending. rw app_nil_r map_app sealed_take sealed_facts -!firstn_map -Hm.
    assert (length hist = length l + length (buffer s)) as ->
      by (rw -(length_map facts hist) -Hm length_app !length_map; lia).
    rw Nat.add_sub take_app length_map (take_ge (map facts l)); [rw length_map; lia|].
    by replace (length l + j - length l) with j by lia.
Qed.

Lemma sound_verifies io s fs l : sound s fs l -> file_verify_chain io s fs = true.
Proof.
  intros (Hl & _ & Hf & Hv & _). unfold file_verify_chain, read_audit_no_follow.
  destruct (fs !! file_path s) as [b|]; [|done]. cbn [unwrap_or] in Hf. subst b.
  destruct (read_ok _ _); [|done]. rw from_utf8_encode; [by apply file_text_scalar|].
  rw -(app_nil_r (file_text l)) audit_lines_text //; [by left|by apply not_elem_of_nil|].
  by rw verify_lines_text.
Qed.

Lemma torn_verifies io s fs l j frag :
  sound s fs l -> torn_at s j frag -> file_verify_chain io s (torn_files s fs j frag) = true.
Proof.
  intros Hs Ht. destruct (torn_text s fs l j frag Hs Ht) as (Hk & Hf & Hn & Hp & Hsc & Hfile & Hv).
  unfold file_verify_chain, read_audit_no_follow. rw Hfile. destruct (read_ok _ _); [|done].
  rw from_utf8_encode; [by rw forallb_app file_text_scalar|]. by rw audit_lines_text // verify_lines_text.
Qed.

(** The audit file keeps a chain that verifies: after every write, flush, failed flush
    and restart (the file not being rotated) [verify_chain] accepts the file, it accepts
    it also as a crash in the middle of a flush leaves it, and the file holds, sealed and in
    order, everything recorded but what still waits in the buffer or was lost in a crash. *)
Lemma file_trail_verifies s fs hist :
  trail s fs hist ->
  (forall io, file_verify_chain io s fs = true)
  /\ (forall io j frag, torn_at s j frag -> file_verify_chain io s (torn_files s fs j frag) = true)
  /\ exists l, unwrap_or [] (fs !! file_path s) = utf8_encode (file_text l)
       /\ verify_events (hmac_key s) (initial_hash (hmac_key s)) l = true
       /\ map facts l ++ map facts (buffer s) = map facts hist.
Proof.
  intros (l & Hs & Hm)%trail_sound. split; [by intros io; eapply sound_verifies|].
  split; [by intros io j frag; eapply torn_verifies|]. exists l. by destruct Hs as (_ & _ & ? & ? & _).
Qed.
End Trail.

(** ** Tamper evidence *)

Section Tamper.
Context `{Sha256} `{AuditJson}.

(** What a memory sink is after a list of events. *)
Definition memory_run (key : option str) (l : list AuditEvent) : MemoryAuditSink :=
  fold_left (fun s e => (memory_write s e).2) l (memory_new key).

Lemma memory_run_sealed key l :
  memory_run key l = mkMemory (sealed key (initial_hash key) l)
                       (end_hash (initial_hash key) (sealed key (initial_hash key) l)) key.
Proof.
  unfold memory_run. induction l as [|e l IH] using rev_ind; [done|].
  rw fold_left_app IH. cbn [fold_left memory_write snd events mem_last_hash mem_hmac_key].
  by rw sealed_app end_hash_app.
Qed.

Lemma sealed_verifies key prev l : verify_events key prev (sealed key prev l) = true.
Proof.
  revert prev. induction l as [|e l IH]; intros prev; [done|]. cbn [sealed verify_events chain_hash with_chain_hash].
  change (chain_hash_of prev (with_chain_hash e _) key) with (chain_hash_of prev e key). by rw str_eqb_refl IH.
Qed.

Lemma sealed_recorded key prev l : map recorded (sealed key prev l) = map recorded l.
Proof. revert prev. induction l as [|e l IH]; intros prev; [done|]. cbn [sealed map]. by rw IH. Qed.

Lemma sealed_separated key prev l : Forall separated l -> Forall separated (sealed key prev l).
Proof. intros Hl. revert prev. induction Hl as [|e l He Hl IH]; intros prev; constructor; [done|apply IH]. Qed.

End Tamper.

(** ** Proofs: redaction *)

Lemma last_index_spec off s max :
  (off <= max)%N -> (max < off + str_len s)%N ->
  exists a c b, s = a ++ c :: b
    /\ last (take_while (fun i => (i <=? max)%N) (char_indices off s)) = Some (off + str_len a)%N
    /\ (off + str_len a <= max < off + str_len a + char_len c)%N.
Proof.
  revert off. induction s as [|c s IH]; intros off Ho Hm; [rw str_len_nil in Hm; lia|]. rw str_len_cons in Hm.
  cbn [char_indices take_while]. rw (proj2 (N.leb_le _ _) Ho).
  destruct (N.le_gt_cases (off + char_len c) max) as [Hle|Hgt].
  - destruct (IH (off + char_len c)%N Hle) as (a & c' & b & -> & Hl & Hr); [lia|].
    exists (c :: a), c', b. split; [done|]. rw str_len_cons N.add_assoc. split; [|lia].
    destruct (take_while _ _) as [|x r]; [done|]. by rw -Hl.
  - exists [], c, s. rw str_len_nil N.add_0_r. split; [done|]. split; [|lia].
    destruct s as [|d s]; [done|]. cbn [char_indices take_while].
    by rw (proj2 (N.leb_gt _ _) Hgt).
Qed.

(** Cutting never panics: the text, or its longest part of at most [max] bytes with the mark. *)
Lemma truncate_string_spec s max :
  (str_len s <= max)%N /\ truncate_string s max = Some s
  \/ exists a c b, s = a ++ c :: b /\ truncate_string s max = Some (a ++ "...[truncated]")
       /\ (str_len a <= max < str_len a + char_len c)%N.
Proof.
  unfold truncate_string. destruct (N.leb_spec (str_len s) max) as [Hle|Hgt]; [by left|right].
  destruct (last_index_spec 0 s max) as (a & c & b & -> & -> & Hr); [lia|lia|]. rw N.add_0_l in Hr *.
  exists a, c, b. split; [done|]. cbn [unwrap_or]. rw (proj2 (split_at_byte_spec _ _ a (c :: b))); [done|].
  by split.
Qed.

Section Redacted.
Context `{Scrubber}.

Definition dropped_key (key : str) : bool :=
  str_eqb key "content" || str_eqb key "old_string" || str_eqb key "new_string".

(** What may be left of one argument. *)
Definition redacted_to (tool key : str) (value out : json) : Prop :=
  out = JStr []
  \/ key = lit "path" /\ (exists p, value = JStr p) /\ out = value
  \/ key = lit "command" /\ tool = lit "bash" /\ exists t, out = JStr (scrub_free_text t)
       /\ truncate_string (unwrap_or [] (as_str value)) 1024 = Some t.

Lemma redact_member_spec tool key value :
  exists r, redact_member tool key value = Some r
    /\ (r = None <-> dropped_key key = true \/ key = lit "path" /\ as_str value = None)
    /\ forall k out, r = Some (k, out) -> k = key /\ redacted_to tool key value out.
Proof.
  unfold redact_member. fold (dropped_key key). destruct (dropped_key key) eqn:Ed; [by exists None; split; [|split; [split; [left|]|]]|].
  destruct (str_eqb key "command" && str_eqb tool "bash") eqn:Ec.
  - apply andb_true_iff in Ec as [->%str_eqb_eq ->%str_eqb_eq].
    assert (exists t, truncate_string (unwrap_or [] (as_str value)) 1024 = Some t) as [t Ht].
    { destruct (truncate_string_spec (unwrap_or [] (as_str value)) 1024) as [[_ Ht]|(a & c & b & _ & Ht & _)]; by eexists. }
    rw Ht. eexists. split; [done|]. split; [by split; [|intros [?|[? _]]]|]. intros k out [= <- <-].
    split; [done|]. right. right. by repeat split; eexists.
  - destruct (str_eqb key "path") eqn:Ep.
    + apply str_eqb_eq in Ep as ->. eexists. split; [done|]. destruct value; cbn [as_str];
        (split; [by split; [intros ?; right|intros [?|[_ ?]]]|]); intros k out; try discriminate.
      intros [= <- <-]. split; [done|]. right. left. by repeat split; eexists.
    + apply str_eqb_neq in Ep. eexists. split; [done|]. split; [by split; [|intros [?|[? _]]]|].
      intros k out [= <- <-]. split; [done|by left].
Qed.

(** Redaction never panics; it drops file contents and edit texts, keeps the other keys in
    their order, and of the values only paths and the scrubbed head of a shell command. *)
Lemma redact_args_spec tool obj :
  exists out, redact_args tool (JObj obj) = Some (JObj out)
    /\ map fst out = map fst (List.filter (fun m => negb (dropped_key m.1)
                       && negb (str_eqb m.1 "path" && negb (is_some_b (as_str m.2)))) obj)
    /\ (forall k v, (k, v) ∈ out -> dropped_key k = false /\ exists v0, (k, v0) ∈ obj /\ redacted_to tool k v0 v).
Proof.
  unfold redact_args. induction obj as [|[key value] obj (out & Hr & Hk & Hv)].
  { exists []. split; [done|]. split; [done|]. by intros k v Hin%not_elem_of_nil. }
  destruct (redact_members tool obj) as [o|] eqn:E; [|done]. injection Hr as ->.
  cbn [redact_members List.filter fst snd]. rw E.
  destruct (redact_member_spec tool key value) as (r & -> & Hn & Hs).
  destruct r as [[k v]|].
  - destruct (Hs k v eq_refl) as [-> Hto]. exists ((key, v) :: out). split; [done|].
    assert (dropped_key key = false) as Hd by (apply not_true_iff_false; intros Hd; by discriminate (proj2 Hn (or_introl Hd))).
    assert (negb (str_eqb key "path" && negb (is_some_b (as_str value))) = true) as Hp.
    { apply negb_true_iff, not_true_iff_false. intros [->%str_eqb_eq Ha]%andb_true_iff.
      destruct (as_str value) eqn:Ea; [done|]. by discriminate (proj2 Hn (or_intror (conj eq_refl eq_refl))). }
    rw Hd Hp. cbn [negb andb map fst]. split; [by rw Hk|]. intros k' v' [Hin|Hin]%elem_of_cons.
    + injection Hin as -> ->. split; [done|]. exists value. split; [by left|done].
    + destruct (Hv k' v' Hin) as (Hd' & v0 & Hin' & Hto'). split; [done|]. exists v0. split; [by right|done].
  - exists out. split; [done|]. split.
    + rw Hk. destruct (proj1 Hn eq_refl) as [Hd|[-> Ha]]; [by rw Hd|by rw Ha].
    + intros k' v' Hin. destruct (Hv k' v' Hin) as (Hd' & v0 & Hin' & Hto'). split; [done|]. exists v0. split; [by right|done].
Qed.
End Redacted.

(** ** Gaps of the trail *)

Section Gaps.
Context `{Sha256} `{AuditJson}.

Definition with_actor (e : AuditEvent) (actor tenant : str) : AuditEvent :=
  mkEvent (event_id e) (sequence e) (timestamp e) (action e) (outcome e) actor tenant
    (reason e) (chain_hash e) (policy_hash e) (trace_id e) (metadata e).

(** Fields are not escaped: moving the separator between two fields keeps the hash. *)
Lemma separator_shift_undetected prev e key :
  chain_hash_of prev (with_actor e "eve|root" "t1") key = chain_hash_of prev (with_actor e "eve" "root|t1") key.
Proof. done. Qed.

(** The identifier, the policy hash and the trace are not hashed. *)
Definition with_unhashed (e : AuditEvent) (id : str) (policy trace : option str) : AuditEvent :=
  mkEvent id (sequence e) (timestamp e) (action e) (outcome e) (actor_id e) (tenant_id e)
    (reason e) (chain_hash e) policy trace (metadata e).

Lemma unhashed_edit_undetected key prev l id policy trace :
  verify_events key prev (map (fun e => with_unhashed e id policy trace) l) = verify_events key prev l.
Proof. revert prev. induction l as [|e l IH]; intros prev; [done|]. cbn [map verify_events]. by rw IH. Qed.

(** Metadata below the depth limit is not hashed. *)
Lemma deep_edit_undetected v w :
  let nested := fix nested n v := match n with O => v | S n => JArr [nested n v] end in
  canonical_json (nested 33 v) 0 = canonical_json (nested 33 w) 0.
Proof. by destruct v, w. Qed.

(** A file that is not UTF-8 is taken for an empty one. *)
Lemma unreadable_file_verifies io s fs b :
  fs !! file_path s = Some b -> from_utf8 b = None -> file_verify_chain io s fs = true.
Proof. intros Hf Hb. unfold file_verify_chain, read_audit_no_follow. rw Hf Hb. by destruct (read_ok _ _). Qed.
End Gaps.

(** ** A concrete instance *)

Fixpoint demo_hex (k : nat) (n : N) : str :=
  match k with O => [] | S k' => demo_hex k' (n / 16) ++ [hex_digit (n mod 16)] end.
Definition demo_digest (b : bytes) : str :=
  demo_hex 64 (foldl (fun h x => (h * 257 + x + 1) mod 2 ^ 256)%N 0%N b).

Lemma demo_hex64 n : hex64 (demo_hex 64 n).
Proof.
  assert (forall k n, length (demo_hex k n) = k /\ forallb is_hex (demo_hex k n) = true) as Hk.
  { induction k as [|k IH]; intros m; [done|]. destruct (IH (m / 16)%N) as [Hl Hh]. cbn [demo_hex].
    rw length_app forallb_app Hl Hh /=. split; [lia|]. pose proof (N.mod_lt m 16 ltac:(done)) as Hm.
    revert Hm. generalize (m mod 16)%N as d. intros d Hd. unfold hex_digit, is_hex, in_range.
    destruct (N.ltb_spec d 10); apply andb_true_iff; (split; [|done]);
      apply orb_true_iff; [left|right]; apply andb_true_iff; split; apply N.leb_le; lia. }
  apply Hk.
Qed.

Definition demo_sha : Sha256 := {|
  sha256 := demo_digest;
  hmac_sha256 k b := demo_digest (k ++ b);
  sha256_hex b := demo_hex64 _;
  hmac_sha256_hex k b := demo_hex64 _
|}.

(** Events with an actor and a hash only, on lines of these two fields. *)
Definition demo_event (actor hash : str) : AuditEvent :=
  mkEvent [] 0 [] ToolInvoke Success actor [] [] hash None None None.
Definition demo_char (c : char) : bool :=
  is_scalar c && negb (c =? 10)%N && negb (c =? chr ",")%N && negb (c =? chr "}")%N.
Definition demo_kept (e : AuditEvent) : Prop :=
  exists actor hash, e = demo_event actor hash /\ forallb demo_char actor = true /\ forallb demo_char hash = true.
Definition demo_parse (s : str) : option AuditEvent :=
  match strip_prefix s "{" with
  | Some r =>
      match strip_suffix r "}" with
      | Some t =>
          match split_char (chr ",") t with
          | [actor; hash] => if forallb demo_char actor && forallb demo_char hash then Some (demo_event actor hash) else None
          | _ => None
          end
      | None => None
      end
  | None => None
  end.

Lemma demo_char_notin s c : forallb demo_char s = true -> demo_char c = false -> c ∉ s.
Proof. intros Hs Hc Hin. pose proof (proj1 (forallb_elem _ _) Hs c Hin) as Ht. by rw Hc in Ht. Qed.

Lemma hex64_demo h : hex64 h -> forallb demo_char h = true.
Proof.
  intros [_ Hh]. apply forallb_elem. intros c Hc. pose proof (proj1 (forallb_elem _ _) Hh c Hc) as Hx.
  unfold is_hex, in_range in Hx. unfold demo_char, is_scalar.
  apply orb_true_iff in Hx as [[Ha%N.leb_le Hb%N.leb_le]%andb_true_iff|[Ha%N.leb_le Hb%N.leb_le]%andb_true_iff];
    rw (proj2 (N.ltb_lt c 55296)) ?(proj2 (N.eqb_neq c _)) //; try lia;
    change (chr ",") with 44%N; change (chr "}") with 125%N; lia.
Qed.

Program Definition demo_audit : AuditJson := {|
  json_string s := dquote ++ s ++ dquote;
  event_line e := Some ("{" ++ actor_id e ++ "," ++ chain_hash e ++ "}");
  parse_event := demo_parse;
  event_kept := demo_kept
|}.
Next Obligation.
  intros e h (a & h0 & -> & Ha & _) Hh. exists a, h. split; [done|]. split; [done|]. by apply hex64_demo.
Qed.
Next Obligation.
  intros e (a & h & -> & Ha & Hh). exists (a ++ "," ++ h). cbn [actor_id chain_hash demo_event].
  assert (forallb demo_char (a ++ h) = true) as Hah by (by rw forallb_app Ha Hh).
  split; [change (lit "{") with [chr "{"]; cbn [app]; by rw -!app_assoc|].
  split. { rw !forallb_app. change (forallb is_scalar ",") with true. rw andb_true_l -forallb_app.
    apply forallb_elem. intros c Hc. pose proof (proj1 (forallb_elem _ _) Hah c Hc) as Hd.
    unfold demo_char in Hd. by destruct (is_scalar c). }
  split. { rw !elem_of_app. intros [Hc|[Hc|Hc]].
    - by apply (demo_char_notin _ _ Ha) in Hc.
    - by apply list_elem_of_singleton in Hc.
    - by apply (demo_char_notin _ _ Hh) in Hc. }
  split.
  - unfold demo_parse.
    rw (proj2 (strip_prefix_Some _ (lit "{") ((a ++ "," ++ h) ++ [chr "}"]))) //.
    rw (strip_suffix_app _ [chr "}"]). change (lit ",") with [chr ","]. cbn [app].
    rw split_char_app !split_char_notin; [by apply (demo_char_notin _ _ Ha)|by apply (demo_char_notin _ _ Hh)|].
    by rw /= Ha Hh.
  - intros p [k Hk]. unfold demo_parse. destruct (strip_prefix p "{") as [r|] eqn:E; [|done].
    apply strip_prefix_Some in E as ->. destruct (strip_suffix r "}") as [t|] eqn:E; [|done].
    apply strip_suffix_Some in E as ->. exfalso. change (lit "{") with [chr "{"] in Hk. cbn [app] in Hk.
    injection Hk as Hk. assert (chr "}" ∈ a ++ "," ++ h) as Hin.
    { rw Hk !elem_of_app. left. right. by apply list_elem_of_singleton. }
    rw !elem_of_app in Hin. destruct Hin as [Hc|[Hc|Hc]].
    + by apply (demo_char_notin _ _ Ha) in Hc.
    + by apply list_elem_of_singleton in Hc.
    + by apply (demo_char_notin _ _ Hh) in Hc.
Qed.

#[local] Existing Instance demo_sha.
#[local] Existing Instance demo_audit.

Definition demo_io (a : WriteIo) : Io := mkIo (fun _ => true) (fun _ => true) Written a (fun _ _ => true).
Definition demo_open (max_bytes : N) (fs : files) : FileAuditSink * files :=
  file_new (demo_io Written) "audit.log" None max_bytes 3 1 fs.
Definition demo_write (a : WriteIo) (actor : string) (s : FileAuditSink * files) : FileAuditSink * files :=
  let '(_, s', fs') := file_write (demo_io a) s.1 (demo_event actor []) s.2 in (s', fs').
Definition demo_verify (s : FileAuditSink * files) : bool := file_verify_chain (demo_io Written) s.1 s.2.

(** Rotation starts a new file, but the chain goes on from the old one, so that the new
    file does not verify. *)
Lemma rotation_breaks_chain :
  let s := demo_write Written "a" (demo_open 1 ∅) in
  let s' := demo_write Written "b" s in
  demo_verify s = true /\ demo_verify s' = false
  /\ s'.2 !! rotated_path "audit.log" 1 = s.2 !! lit "audit.log".
Proof. by vm_compute. Qed.

(** A write that stops half-way is repeated after the half. *)
Lemma torn_write_breaks_chain :
  let s := demo_write Written "b" (demo_write (Torn 9) "a" (demo_open 1000 ∅)) in
  demo_verify (demo_write Written "c" s) = false.
Proof. by vm_compute. Qed.

(** A last event that lacks only its line feed is taken for intact; the next one is written
    behind it, both lines are lost, and the next start erases the file. *)
Lemma unterminated_event_fuses :
  let s := demo_write Written "a" (demo_open 1000 ∅) in
  let cut := <[ lit "audit.log" := removelast (unwrap_or [] (s.2 !! lit "audit.log")) ]> s.2 in
  let s' := demo_write Written "b" (demo_open 1000 cut) in
  demo_verify s' = true /\ (demo_open 1000 s'.2).2 !! lit "audit.log" = Some [].
Proof. by vm_compute. Qed.

(** A crash inside a character makes the file unreadable: it verifies, whatever was changed
    in it, and the chain starts again from the beginning. *)
Lemma torn_character_verifies :
  let s := demo_write Written "a" (demo_open 1000 ∅) in
  let old := unwrap_or [] (s.2 !! lit "audit.log") in
  let torn := <[ lit "audit.log" := 88%N :: old ++ take 2 (utf8_encode "{é") ]> s.2 in
  demo_verify (s.1, torn) = true /\ last_hash (demo_open 1000 torn).1 = initial_hash None.
Proof. by vm_compute. Qed.

(** The two walkers disagree on a torn tail. *)
Lemma walkers_disagree :
  let s := demo_open 1000 {[ lit "audit.log" := utf8_encode "{a" ]} in
  let torn : files := {[ lit "audit.log" := utf8_encode "{a" ]} in
  demo_verify (s.1, torn) = true
  /\ verify_audit_jsonl (demo_io Written) "audit.log" None torn = Err (NotAnEvent 1).
Proof. by vm_compute. Qed.

(** ** Witnesses *)

Definition demo_1 : FileAuditSink * files := demo_write Written "a" (demo_open 1000 ∅).
Definition demo_2 : FileAuditSink * files := demo_write OpenFails "b" demo_1.
Definition demo_3 : FileAuditSink * files := demo_open 1000 (torn_files demo_2.1 demo_2.2 0 "{b").
Definition demo_4 : FileAuditSink * files := demo_write Written "c" demo_3.

Lemma demo_write_step a actor s hist :
  trail s.1 s.2 hist -> forallb demo_char (lit actor) = true -> a = OpenFails \/ a = Written ->
  below_cap s.1 s.2 ->
  trail (demo_write a actor s).1 (demo_write a actor s).2 (hist ++ [demo_event actor []]).
Proof.
  intros Ht Ha Hio Hc. unfold demo_write. destruct (file_write _ _ _ _) as [[ok s'] fs'] eqn:E.
  eapply (trail_write (demo_io a)); [exact Ht|by exists (lit actor), []|exact Hio|exact Hc|exact E].
Qed.

Lemma demo_below s b : s.2 !! file_path s.1 = Some b -> (N.of_nat (length b) < max_file_size_bytes s.1)%N -> below_cap s.1 s.2.
Proof. intros Hb Hl b' Hb'. rw Hb in Hb'. by injection Hb' as <-. Qed.

Lemma file_trail_verifies_witness :
  trail demo_4.1 demo_4.2 [demo_event "a" []; demo_event "c" []]
  /\ file_verify_chain (demo_io Written) demo_4.1 demo_4.2 = true.
Proof.
  assert (trail demo_4.1 demo_4.2 [demo_event "a" []; demo_event "c" []]) as Ht.
  { apply (demo_write_step Written "c" demo_3 [demo_event "a" []]);
      [|done|by right|eapply demo_below; [vm_compute; reflexivity|vm_compute; reflexivity]].
    apply (trail_crash (demo_io Written) demo_2.1 demo_2.2 [demo_event "a" []; demo_event "b" []] 0 "{b" 1000 3 1 _ _);
      [|by vm_compute; split; [eexists; reflexivity|]|done|done|by vm_compute].
    apply (demo_write_step OpenFails "b" demo_1 [demo_event "a" []]);
      [|done|by left|eapply demo_below; [vm_compute; reflexivity|vm_compute; reflexivity]].
    apply (demo_write_step Written "a" (demo_open 1000 ∅) []); [|done|by right|intros b Hb; vm_compute in Hb; discriminate].
    by apply (trail_new (demo_io Written) "audit.log" None 1000 3 1 ∅). }
  split; [exact Ht|]. exact (proj1 (file_trail_verifies _ _ _ Ht) _).
Defined.

