(* ===== verification/Streams.v ===== *)
(** * Model streams

    Models the stream parsers of the adapters: the NDJSON parser of
    [src/adapters/ollama_ndjson.rs] with its synchronous twin, the SSE parser of
    [src/adapters/anthropic/sse.rs] with [content_blocks.rs] and [usage.rs], and the
    helpers of [src/adapters/mod.rs] they share.  A parser is a state monad over the
    channel, which may be closed by its reader at any time; the HTTP body is a list of
    chunks, of which one may be a transport error or a timeout.  Cutting the body into
    frames is the class [Framing]; the loop over chunks is written once against it, and
    its laws give that the events do not depend on how the body was cut into chunks. *)

From Stdlib Require Import ssreflect.
From S2P Require Import Prelude Machine ReadFile Message.

Abbreviation bytes := (list N).

(** ** Events and the channel *)

Record TokenUsage := mkUsage {
  prompt_tokens : option N;
  completion_tokens : option N;
  cached_tokens : option N;
  cache_write_tokens : option N
}.

Inductive FinishReason := Stop | Length | ToolCalls | FinishError.

Inductive StreamEvent :=
| Text (s : str)
| Thinking (s : str)
| ToolCall (t : ToolInvocation)
| ErrorEvent (s : str)
| Done (finish_reason : FinishReason) (usage : option TokenUsage).

(** The events that arrived, and after how many more the reader is gone. *)
Record Tx := mkTx { sent : list StreamEvent; room : option nat }.

Definition send (ev : StreamEvent) (tx : Tx) : bool * Tx :=
  match room tx with
  | Some O => (false, tx)
  | Some (S n) => (true, mkTx (sent tx ++ [ev]) (Some n))
  | None => (true, mkTx (sent tx ++ [ev]) None)
  end.

(** A parser step on a state, which may return from the parser. *)
Definition M (St A : Type) : Type := St -> Tx -> option (A * St) * Tx.

Definition ret {St A} (a : A) : M St A := fun s tx => (Some (a, s), tx).
Definition bind {St A B} (m : M St A) (k : A -> M St B) : M St B := fun s tx =>
  match m s tx with
  | (Some (a, s'), tx') => k a s' tx'
  | (None, tx') => (None, tx')
  end.
Definition leave {St A} : M St A := fun _ tx => (None, tx).
Definition get {St} : M St St := fun s tx => (Some (s, s), tx).
Definition put {St} (s : St) : M St unit := fun _ tx => (Some (tt, s), tx).

Declare Scope stream_scope.
Delimit Scope stream_scope with stream.
Open Scope stream_scope.
Notation "'let!' x := m 'in' k" := (bind m (fun x => k))
  (at level 10, x pattern, m at level 99, k at level 200,
   format "'[v' 'let!'  x  :=  m  'in' '/' k ']'") : stream_scope.
Notation "'do!' m ;; k" := (bind m (fun _ => k))
  (at level 10, m at level 99, k at level 200,
   format "'[v' 'do!'  m  ;; '/' k ']'") : stream_scope.

(** [send_or_bail], and what a caller does with its answer: leave the parser, or not. *)
Definition send_or_bail {St} (ev : StreamEvent) : M St bool := fun s tx =>
  let '(ok, tx') := send ev tx in (Some (ok, s), tx').
Definition send_or_leave {St} (ev : StreamEvent) : M St unit :=
  let! ok := send_or_bail ev in if ok : bool then ret tt else leave.
Definition send_anyway {St} (ev : StreamEvent) : M St unit :=
  do! send_or_bail ev ;; ret tt.

Fixpoint send_calls {St} (l : list ToolInvocation) : M St unit :=
  match l with
  | [] => ret tt
  | tc :: l' => do! send_or_leave (ToolCall tc) ;; send_calls l'
  end.

(** ** Chunks and frames *)

(** [next_chunk_or_idle_timeout]: bytes, a transport error, or no byte in time. *)
Inductive Chunk := Bytes (b : bytes) | Broken (e : str) | Idle.

Definition MAX_SSE_BUFFER_BYTES : N := 8 * 1024 * 1024.
Definition MAX_NDJSON_BUFFER_BYTES : N := 8 * 1024 * 1024.

Definition find_subseq (haystack needle : bytes) : option nat := find_sub needle haystack.

Definition ascii_ws (b : N) : bool := is_ascii_whitespace b.

Fixpoint drop_ws (b : bytes) : bytes :=
  match b with
  | [] => []
  | x :: b' => if ascii_ws x then drop_ws b' else b
  end.
Definition trim_ascii_whitespace (b : bytes) : bytes := rev (drop_ws (rev (drop_ws b))).

(** Cutting the first frame off a buffer. *)
Class Framing := next_frame : bytes -> option (bytes * bytes).

Section Driver.
Context {St : Type} {framing : Framing} (limit : N) (overflow : str) (idle_secs : N)
  (on_frame : bytes -> M St unit) (on_broken : str -> M St unit).

(** [while let Some(..)] over the frames of the buffer; what is left of it. *)
Fixpoint drain_frames (fuel : nat) (buffer : bytes) : M St bytes :=
  match fuel with
  | O => ret buffer
  | S fuel' =>
      match next_frame buffer with
      | None => ret buffer
      | Some (payload, rest) => do! on_frame payload ;; drain_frames fuel' rest
      end
  end.

Definition idle_text : str := "stream idle for " ++ show_N idle_secs ++ "s; aborting".

Fixpoint read_chunks (chunks : list Chunk) (buffer : bytes) : M St unit :=
  match chunks with
  | [] => ret tt
  | Idle :: _ => send_anyway (ErrorEvent idle_text)
  | Broken e :: _ => on_broken e
  | Bytes b :: chunks' =>
      let buffer := buffer ++ b in
      if (limit <? N.of_nat (length buffer))%N then do! send_anyway (ErrorEvent overflow) ;; leave
      else let! rest := drain_frames (length buffer) buffer in read_chunks chunks' rest
  end.
End Driver.

(** ** JSON *)

(** serde_json, and the text of an error in UTF-8. *)
Class JsonText := {
  parse_json : str -> result json str;
  print_json : json -> str;
  utf8_error : bytes -> str
}.

Definition get_path (v : json) (path : list str) : option json :=
  foldl (fun o k => o ≫= fun v => json_get v k) (Some v) path.

(** ** Ollama: NDJSON *)

Record OllamaNdjsonConfig := mkConfig { thinking_field : option str }.

Definition GLM : OllamaNdjsonConfig := mkConfig (Some (lit "thinking")).
Definition DEEPSEEK : OllamaNdjsonConfig := mkConfig (Some (lit "reasoning_content")).
Definition KIMI : OllamaNdjsonConfig := mkConfig (Some (lit "reasoning_content")).
Definition GEMINI : OllamaNdjsonConfig := mkConfig None.
Definition OLLAMA : OllamaNdjsonConfig := mkConfig None.

(** [buffer.iter().position(|&b| b == '\n')] and the two drains. *)
Fixpoint next_line (b : bytes) : option (bytes * bytes) :=
  match b with
  | [] => None
  | x :: b' =>
      if (x =? 10)%N then Some ([], b')
      else match next_line b' with
           | Some (line, rest) => Some (x :: line, rest)
           | None => None
           end
  end.

Definition u64_at (u : json) (path : list str) : option N := get_path u path ≫= as_u64.

Definition parse_token_usage (u : json) : TokenUsage :=
  mkUsage (u64_at u [lit "prompt_tokens"] <|> u64_at u [lit "prompt_eval_count"])%rust
    (u64_at u [lit "completion_tokens"] <|> u64_at u [lit "eval_count"])%rust
    ((json_get u "cached_count" <|> json_get u "cached_tokens"
      <|> get_path u [lit "prompt_tokens_details"; lit "cached_tokens"])%rust ≫= as_u64)
    None.

Section Ollama.
Context `{JsonText}.

Definition ollama_error (err : json) : str :=
  unwrap_or (print_json err) ((json_get err "message" ≫= as_str) <|> as_str err)%rust.

(** The calls of one line that have a name and arguments. *)
Definition tool_call_of (tc : json) : option ToolInvocation :=
  match get_path tc [lit "function"; lit "name"] ≫= as_str, get_path tc [lit "function"; lit "arguments"] with
  | Some name, Some args => Some (mkCall (unwrap_or [] (json_get tc "id" ≫= as_str)) name args)
  | _, _ => None
  end.

Definition finish_reason_of (reason : str) : FinishReason :=
  if str_eqb reason "length" then Length
  else if str_eqb reason "tool_calls" then ToolCalls
  else if str_eqb reason "error" then FinishError
  else Stop.

Definition done_event (v : json) : StreamEvent :=
  Done (finish_reason_of (unwrap_or (lit "stop") (json_get v "done_reason" ≫= as_str)))
    (parse_token_usage <$> json_get v "usage").

Definition is_done (v : json) : bool := unwrap_or false (json_get v "done" ≫= as_bool).

Definition thinking_text (config : OllamaNdjsonConfig) (v : json) : option str :=
  thinking_field config ≫= fun field => get_path v [lit "message"; field] ≫= as_str.
Definition content_text (v : json) : option str := get_path v [lit "message"; lit "content"] ≫= as_str.

(** The text is sent when it is there and not empty. *)
Definition send_text {St} (mk : str -> StreamEvent) (o : option str) : M St unit :=
  match o with
  | Some ((_ :: _) as t) => send_or_leave (mk t)
  | _ => ret tt
  end.

Definition no_parseable_entries : str := "Model emitted tool_calls with no parseable entries".

(** The state is [tool_calls_buffer]. *)
Definition ollama_json (config : OllamaNdjsonConfig) (v : json) : M (list ToolInvocation) unit :=
  match json_get v "error" with
  | Some err => send_or_leave (ErrorEvent (ollama_error err))
  | None =>
      do! send_text Thinking (thinking_text config v) ;;
      do! send_text Text (content_text v) ;;
      do! match get_path v [lit "message"; lit "tool_calls"] ≫= as_array with
          | Some calls =>
              let parsed := omap tool_call_of calls in
              let! buf := get in
              do! put (buf ++ parsed) ;;
              if negb (bool_decide (calls = [])) && bool_decide (parsed = [])
              then send_or_leave (ErrorEvent no_parseable_entries) else ret tt
          | None => ret tt
          end ;;
      if is_done v then
        let! buf := get in
        do! send_calls buf ;;
        do! put [] ;;
        send_or_leave (done_event v)
      else ret tt
  end.

Definition drop_cr (b : bytes) : bytes := if ends_with b [13%N] then removelast b else b.

Definition ollama_line (config : OllamaNdjsonConfig) (line_bytes : bytes) : M (list ToolInvocation) unit :=
  let line_bytes := drop_cr line_bytes in
  if forallb ascii_ws line_bytes then ret tt
  else match from_utf8 line_bytes with
  | None => send_or_leave (ErrorEvent ("NDJSON line is not valid UTF-8: " ++ utf8_error line_bytes))
  | Some s =>
      let line := trim s in
      if bool_decide (line = []) then ret tt
      else match parse_json line with
      | Ok v => ollama_json config v
      | Err e => send_or_leave (ErrorEvent ("JSON parse: " ++ e))
      end
  end.

Definition ndjson_overflow : str :=
  "NDJSON line buffer exceeded " ++ show_N (MAX_NDJSON_BUFFER_BYTES / (1024 * 1024)) ++ " MiB limit; aborting stream".

Definition ndjson_framing : Framing := next_line.

(** Transport error: reported, and the loop over chunks ends. *)
Definition parse_ollama_ndjson_stream (config : OllamaNdjsonConfig) (idle_secs : N) (chunks : list Chunk)
    : M (list ToolInvocation) unit :=
  do! read_chunks (framing := ndjson_framing) MAX_NDJSON_BUFFER_BYTES ndjson_overflow idle_secs (ollama_line config)
        (fun e => send_or_leave (ErrorEvent e)) chunks [] ;;
  let! buf := get in
  send_calls buf.

(** What the reader of the channel sees. *)
Definition run_ollama (config : OllamaNdjsonConfig) (idle_secs : N) (chunks : list Chunk) (tx : Tx) : list StreamEvent :=
  sent (parse_ollama_ndjson_stream config idle_secs chunks [] tx).2.

(** The synchronous twin, on a text. *)
Definition twin_json (config : OllamaNdjsonConfig) (v : json) (buf : list ToolInvocation)
    : list StreamEvent * list ToolInvocation :=
  match json_get v "error" with
  | Some err => ([ErrorEvent (ollama_error err)], buf)
  | None =>
      let thinking := match thinking_text config v with Some ((_ :: _) as s) => [Thinking s] | _ => [] end in
      let content := match content_text v with Some ((_ :: _) as s) => [Text s] | _ => [] end in
      let buf := match get_path v [lit "message"; lit "tool_calls"] ≫= as_array with
                 | Some calls => buf ++ omap tool_call_of calls
                 | None => buf
                 end in
      if is_done v then (thinking ++ content ++ map ToolCall buf ++ [done_event v], [])
      else (thinking ++ content, buf)
  end.

Fixpoint twin_lines (config : OllamaNdjsonConfig) (raws : list str) (buf : list ToolInvocation) : list StreamEvent :=
  match raws with
  | [] => map ToolCall buf
  | raw_line :: raws' =>
      let line := trim raw_line in
      if bool_decide (line = []) then twin_lines config raws' buf
      else match parse_json line with
      | Err _ => twin_lines config raws' buf
      | Ok v => let '(evs, buf') := twin_json config v buf in evs ++ twin_lines config raws' buf'
      end
  end.

Definition parse_ndjson_lines (config : OllamaNdjsonConfig) (input : str) : list StreamEvent :=
  twin_lines config (split_char 10 input) [].
End Ollama.

(** ** SSE frames *)

Definition data_prefix : bytes := utf8_encode "data: ".

(** The loop of [find_data_frame_start]: [data: ] at the start of the buffer or of a line. *)
Fixpoint frame_start_from (fuel from : nat) (buffer : bytes) : option nat :=
  match fuel with
  | O => None
  | S fuel' =>
      match find_subseq (drop from buffer) data_prefix with
      | None => None
      | Some i =>
          let at_ := from + i in
          if (at_ =? 0)%nat || match buffer !! (at_ - 1) with
                               | Some b => (b =? 10)%N || (b =? 13)%N
                               | None => false
                               end
          then Some at_ else frame_start_from fuel' (at_ + 1) buffer
      end
  end.
Definition find_data_frame_start (buffer : bytes) : option nat :=
  frame_start_from (S (length buffer)) 0 buffer.

Definition terminators : list bytes := [[10; 10]; [13; 10; 13; 10]; [13; 13]]%N.

(** [min_by_key] on the positions: the first of the least. *)
Fixpoint min_by_pos (l : list (nat * nat)) : option (nat * nat) :=
  match l with
  | [] => None
  | x :: l' => match min_by_pos l' with
               | None => Some x
               | Some y => if y.1 <? x.1 then Some y else Some x
               end
  end.

Definition frame_end (after : bytes) : option (nat * nat) :=
  min_by_pos (omap (fun t => (fun i => (i, length t)) <$> find_subseq after t) terminators).

(** One frame: its payload, trimmed, and what follows it. *)
Definition next_sse (buffer : bytes) : option (bytes * bytes) :=
  match find_data_frame_start buffer with
  | None => None
  | Some start =>
      let after := drop (start + 6) buffer in
      match frame_end after with
      | None => None
      | Some (sep_idx, term_len) =>
          Some (trim_ascii_whitespace (take sep_idx after), drop (sep_idx + term_len) after)
      end
  end.

Definition sse_framing : Framing := next_sse.

Definition sse_overflow : str :=
  "SSE frame buffer exceeded " ++ show_N (MAX_SSE_BUFFER_BYTES / (1024 * 1024)) ++ " MiB limit; aborting stream".

(** ** Anthropic: usage and content blocks *)

Definition parse_usage (u : json) : TokenUsage :=
  mkUsage (u64_at u [lit "input_tokens"]) (u64_at u [lit "output_tokens"])
    (u64_at u [lit "cache_read_input_tokens"]) (u64_at u [lit "cache_creation_input_tokens"]).

Definition merge_usage (base over : TokenUsage) : TokenUsage :=
  mkUsage (prompt_tokens over <|> prompt_tokens base)%rust
    (completion_tokens over <|> completion_tokens base)%rust
    (cached_tokens over <|> cached_tokens base)%rust
    (cache_write_tokens over <|> cache_write_tokens base)%rust.

Definition no_usage : TokenUsage := mkUsage None None None None.

Definition finalize_usage (u : TokenUsage) : option TokenUsage :=
  if negb (is_some_b (prompt_tokens u)) && negb (is_some_b (completion_tokens u))
     && negb (is_some_b (cached_tokens u)) && negb (is_some_b (cache_write_tokens u))
  then None else Some u.

Record PendingToolUse := mkPending { pending_id : str; pending_name : str; pending_input : option json }.

Definition append_json (p : PendingToolUse) (partial : str) : PendingToolUse :=
  let buffer := match pending_input p with Some (JStr s) => s | _ => [] end in
  mkPending (pending_id p) (pending_name p) (Some (JStr (buffer ++ partial))).

Record SseState := mkSse {
  pending_tool : option PendingToolUse;
  done_emitted : bool;
  pending_stop_reason : option str;
  usage : TokenUsage
}.

Definition sse_start : SseState := mkSse None false None no_usage.

Definition set_tool (s : SseState) (t : option PendingToolUse) : SseState :=
  mkSse t (done_emitted s) (pending_stop_reason s) (usage s).
Definition set_done (s : SseState) : SseState :=
  mkSse (pending_tool s) true (pending_stop_reason s) (usage s).
Definition set_stop_reason (s : SseState) (r : str) : SseState :=
  mkSse (pending_tool s) (done_emitted s) (Some r) (usage s).
Definition set_usage (s : SseState) (u : TokenUsage) : SseState :=
  mkSse (pending_tool s) (done_emitted s) (pending_stop_reason s) u.

Definition modify {St} (f : St -> St) : M St unit := let! s := get in put (f s).

(** A text that is there and not empty is sent; the answer is ignored. *)
Definition send_text_anyway {St} (mk : str -> StreamEvent) (t : str) : M St unit :=
  if bool_decide (t = []) then ret tt else send_anyway (mk t).

Definition str_at (v : json) (key : str) : str := unwrap_or [] (json_get v key ≫= as_str).

Definition handle_content_block_start (block : json) : M SseState unit :=
  let block_type := str_at block "type" in
  if str_eqb block_type "thinking" then ret tt
  else if str_eqb block_type "tool_use" then
    let input := match json_get block "input" with
                 | Some (JObj []) | None => None
                 | Some v => Some v
                 end in
    modify (fun s => set_tool s (Some (mkPending (str_at block "id") (str_at block "name") input)))
  else if str_eqb block_type "text" then
    match json_get block "text" ≫= as_str with
    | Some t => send_text_anyway Text t
    | None => ret tt
    end
  else ret tt.

Definition handle_content_block_delta (delta : json) : M SseState unit :=
  match json_get delta "thinking" ≫= as_str with
  | Some t => send_text_anyway Thinking t
  | None =>
      match json_get delta "text" ≫= as_str with
      | Some t => send_text_anyway Text t
      | None =>
          match json_get delta "partial_json" ≫= as_str with
          | Some partial => modify (fun s => set_tool s ((fun t => append_json t partial) <$> pending_tool s))
          | None => ret tt
          end
      end
  end.

(** ** Anthropic: the stream *)

Section Anthropic.
Context `{JsonText}.

Definition into_invocation (p : PendingToolUse) : ToolInvocation :=
  mkCall (pending_id p) (pending_name p)
    match pending_input p with
    | Some (JStr s) => match parse_json s with Ok v => v | Err _ => JStr s end
    | Some v => v
    | None => JObj []
    end.

(** [send_done]: once; the flag is set when the event was taken. *)
Definition send_done (reason : FinishReason) (u : option TokenUsage) : M SseState bool :=
  let! s := get in
  if done_emitted s then ret true
  else
    let! ok := send_or_bail (Done reason u) in
    if ok : bool then do! modify set_done ;; ret true else ret false.
Definition done_or_leave (reason : FinishReason) (u : option TokenUsage) : M SseState unit :=
  let! ok := send_done reason u in if ok : bool then ret tt else leave.

Definition anthropic_error (err : json) : str :=
  unwrap_or (unwrap_or (lit "API error") (as_str err)) (json_get err "message" ≫= as_str).

Definition stop_finish (reason : str) : FinishReason :=
  if str_eqb reason "max_tokens" then Length
  else if str_eqb reason "tool_use" then ToolCalls
  else Stop.

Definition merge_usage_at (o : option json) : M SseState unit :=
  match o with
  | Some u => modify (fun s => set_usage s (merge_usage (usage s) (parse_usage u)))
  | None => ret tt
  end.

(** [content_block_stop]. *)
Definition flush_tool : M SseState unit :=
  let! s := get in
  match pending_tool s with
  | Some tool => do! put (set_tool s None) ;; send_or_leave (ToolCall (into_invocation tool))
  | None => ret tt
  end.

Definition message_stop (v : json) : M SseState unit :=
  let! s := get in
  let reason := unwrap_or (lit "end_turn") ((json_get v "stop_reason" ≫= as_str) <|> pending_stop_reason s)%rust in
  let stop_usage := match json_get v "usage" with
                    | Some u => Some (parse_usage u)
                    | None => finalize_usage (usage s)
                    end in
  done_or_leave (stop_finish reason) stop_usage.

Definition anthropic_json (v : json) : M SseState unit :=
  match json_get v "error" with
  | Some err => send_or_leave (ErrorEvent (anthropic_error err))
  | None =>
      let event_type := str_at v "type" in
      if str_eqb event_type "message_start" then merge_usage_at (get_path v [lit "message"; lit "usage"])
      else if str_eqb event_type "message_delta" then
        do! match get_path v [lit "delta"; lit "stop_reason"] ≫= as_str with
            | Some r => modify (fun s => set_stop_reason s r)
            | None => ret tt
            end ;;
        merge_usage_at (json_get v "usage")
      else if str_eqb event_type "content_block_start" then
        match json_get v "content_block" with Some block => handle_content_block_start block | None => ret tt end
      else if str_eqb event_type "content_block_delta" then
        match json_get v "delta" with Some delta => handle_content_block_delta delta | None => ret tt end
      else if str_eqb event_type "content_block_stop" then flush_tool
      else if str_eqb event_type "message_stop" then message_stop v
      else ret tt
  end.

Definition anthropic_frame (payload : bytes) : M SseState unit :=
  if bool_decide (payload = []) then ret tt
  else match from_utf8 payload with
  | None => send_or_leave (ErrorEvent ("SSE frame is not valid UTF-8: " ++ utf8_error payload))
  | Some line =>
      if str_eqb line "[DONE]" then done_or_leave Stop None
      else match parse_json line with
      | Ok v => anthropic_json v
      | Err e => send_or_leave (ErrorEvent ("JSON parse: " ++ e))
      end
  end.

(** After the last chunk. *)
Definition anthropic_end : M SseState unit :=
  let! s := get in
  if done_emitted s then ret tt
  else
    do! match pending_tool s with
        | Some tool => do! put (set_tool s None) ;; send_anyway (ToolCall (into_invocation tool))
        | None => ret tt
        end ;;
    do! send_done FinishError (finalize_usage (usage s)) ;; ret tt.

Definition parse_anthropic_stream (idle_secs : N) (chunks : list Chunk) : M SseState unit :=
  do! read_chunks (framing := sse_framing) MAX_SSE_BUFFER_BYTES sse_overflow idle_secs anthropic_frame
        (fun e => send_anyway (ErrorEvent e)) chunks [] ;;
  anthropic_end.

Definition run_anthropic (idle_secs : N) (chunks : list Chunk) (tx : Tx) : list StreamEvent :=
  sent (parse_anthropic_stream idle_secs chunks sse_start tx).2.
End Anthropic.

(** ** The loop over chunks *)

Class FramingLaws (framing : Framing) := {
  next_frame_stable : forall b c p r, next_frame b = Some (p, r) -> next_frame (b ++ c) = Some (p, r ++ c);
  next_frame_shorter : forall b p r, next_frame b = Some (p, r) -> length r < length b
}.

Definition chunk_bytes (chunks : list Chunk) : nat :=
  foldr (fun c n => match c with Bytes b => length b + n | _ => n end) 0 chunks.

Section Chunking.
Context {St : Type} `{FramingLaws} (limit : N) (overflow : str) (idle_secs : N)
  (on_frame : bytes -> M St unit) (on_broken : str -> M St unit).

Abbreviation read := (read_chunks limit overflow idle_secs on_frame on_broken).
Abbreviation drain := (drain_frames on_frame).

Lemma drain_fuel f f' b s tx : length b <= f -> length b <= f' -> drain f b s tx = drain f' b s tx.
Proof.
  revert f' b s tx. induction f as [|f IH]; intros f' b s tx Hf Hf'.
  - destruct b; [|simpl in Hf; lia]. destruct f' as [|f']; [done|]. cbn [drain_frames].
    destruct (next_frame []) as [[p r]|] eqn:E; [|done]. by apply next_frame_shorter in E; simpl in E; lia.
  - destruct f' as [|f'].
    + destruct b; [|simpl in Hf'; lia]. cbn [drain_frames].
      destruct (next_frame []) as [[p r]|] eqn:E; [|done]. by apply next_frame_shorter in E; simpl in E; lia.
    + cbn [drain_frames]. destruct (next_frame b) as [[p r]|] eqn:E; [|done]. apply next_frame_shorter in E.
      unfold bind. destruct (on_frame p s tx) as [[[u s']|] tx']; [|done]. apply IH; lia.
Qed.

Lemma drain_shorter f b s tx r s' tx' : drain f b s tx = (Some (r, s'), tx') -> length r <= length b.
Proof.
  revert b s tx. induction f as [|f IH]; intros b s tx; cbn [drain_frames]; [by intros [= <- _ _]|].
  destruct (next_frame b) as [[p q]|] eqn:E; [|by intros [= <- _ _]]. apply next_frame_shorter in E.
  unfold bind. destruct (on_frame p s tx) as [[[u s1]|] tx1]; [|done]. intros Hr%IH. lia.
Qed.

(** Frames first of the buffer, then of what is left with more bytes, or all at once. *)
Lemma drain_app f b c s tx :
  length b <= f ->
  bind (drain f b) (fun r => drain (length (r ++ c)) (r ++ c)) s tx = drain (length (b ++ c)) (b ++ c) s tx.
Proof.
  revert b s tx. induction f as [|f IH]; intros b s tx Hf.
  { destruct b; [done|simpl in Hf; lia]. }
  cbn [drain_frames]. destruct (next_frame b) as [[p r]|] eqn:E; [|done].
  pose proof (next_frame_shorter _ _ _ E) as Hl. pose proof (next_frame_stable _ c _ _ E) as Ec.
  destruct (length (b ++ c)) as [|n] eqn:En; [rw length_app in En; lia|]. cbn [drain_frames]. rw Ec.
  unfold bind. destruct (on_frame p s tx) as [[[u s1]|] tx1]; [|done].
  rw (drain_fuel n (length (r ++ c))) //; [rw !length_app in En *; lia|]. rw -(IH r); [lia|done].
Qed.

Lemma read_merge b c chunks buffer s tx :
  (N.of_nat (length (buffer ++ b ++ c)) <= limit)%N ->
  read (Bytes b :: Bytes c :: chunks) buffer s tx = read (Bytes (b ++ c) :: chunks) buffer s tx.
Proof.
  intros Hl. rw app_assoc in Hl. cbn [read_chunks]. rw app_assoc.
  rw (proj2 (N.ltb_ge limit (N.of_nat (length (buffer ++ b))))); [rw length_app in Hl; lia|].
  rw (proj2 (N.ltb_ge _ _) Hl). unfold bind.
  rw -(drain_app (length (buffer ++ b)) (buffer ++ b) c s tx (le_n _)). unfold bind.
  destruct (drain (length (buffer ++ b)) (buffer ++ b) s tx) as [[[r s1]|] tx1] eqn:E; [|done]. apply drain_shorter in E.
  destruct (N.ltb_spec limit (N.of_nat (length (r ++ c)))) as [Hlt|_]; [|done].
  rw !length_app in Hl E Hlt. lia.
Qed.

Lemma read_empty chunks s tx : read (Bytes [] :: chunks) [] s tx = read chunks [] s tx.
Proof. cbn [read_chunks app length]. by destruct limit. Qed.

(** However the bytes are cut into chunks, the parser does the same. *)
Lemma read_concat bs chunks s tx :
  (N.of_nat (length (concat bs)) <= limit)%N ->
  read (map Bytes bs ++ chunks) [] s tx = read (Bytes (concat bs) :: chunks) [] s tx.
Proof.
  assert (forall b, (N.of_nat (length (b ++ concat bs)) <= limit)%N ->
    read (Bytes b :: map Bytes bs ++ chunks) [] s tx = read (Bytes (b ++ concat bs) :: chunks) [] s tx) as Hb.
  { induction bs as [|c bs IH]; intros b Hl; cbn [map app concat] in *; [by rw app_nil_r|].
    rw read_merge. { rw app_assoc in Hl. rw length_app in Hl. simpl. lia. }
    rw app_assoc in Hl *. by apply IH. }
  intros Hl. rw -(read_empty (map Bytes bs ++ chunks)). by apply (Hb []).
Qed.
End Chunking.

(** ** Laws of the two framings *)

#[export] Instance ndjson_laws : FramingLaws ndjson_framing.
Proof.
  split; unfold next_frame, ndjson_framing.
  - intros b. induction b as [|x b IH]; intros c p r; [done|]. cbn [next_line app].
    destruct (x =? 10)%N; [by intros [= <- <-]|].
    destruct (next_line b) as [[l q]|] eqn:E; [|done]. intros [= <- <-]. by rw (IH c l q eq_refl).
  - intros b. induction b as [|x b IH]; intros p r; [done|]. cbn [next_line length].
    destruct (x =? 10)%N; [intros [= _ <-]; lia|].
    destruct (next_line b) as [[l q]|] eqn:E; [|done]. intros [= _ <-].
    pose proof (IH l q eq_refl). lia.
Qed.

(** The first occurrence. *)
Lemma find_sub_first p s i :
  find_sub p s = Some i ->
  starts_with (drop i s) p = true /\ forall j, j < i -> starts_with (drop j s) p = false.
Proof.
  revert i. induction s as [|c s IH]; intros i; cbn [find_sub].
  - destruct (starts_with [] p) eqn:E; [|done]. intros [= <-]. split; [done|lia].
  - destruct (starts_with (c :: s) p) eqn:E; [intros [= <-]; split; [done|lia]|].
    destruct (find_sub p s) as [k|] eqn:Ek; [|done]. intros [= <-]. destruct (IH k eq_refl) as [Hs Hl].
    split; [done|]. intros [|j] Hj; [done|]. apply Hl. lia.
Qed.

Lemma find_sub_at p s i :
  starts_with (drop i s) p = true -> i <= length s -> exists j, find_sub p s = Some j /\ j <= i.
Proof.
  revert i. induction s as [|c s IH]; intros i Hs Hi; cbn [find_sub].
  - destruct i; [|simpl in Hi; lia]. cbn [drop] in Hs. rw Hs. by exists 0.
  - destruct (starts_with (c :: s) p) eqn:E; [exists 0; split; [done|lia]|]. destruct i as [|i]; [by rw E in Hs|].
    destruct (IH i) as (j & -> & Hj); [done|simpl in Hi; lia|]. exists (S j). split; [done|lia].
Qed.

Lemma starts_with_len (s p : str) i : starts_with (drop i s) p = true -> p <> [] -> i + length p <= length s.
Proof. intros H1 Hp. apply starts_with_length in H1. rw length_drop in H1. destruct p; [done|]. simpl in *. lia. Qed.

Lemma starts_with_more (s c p : str) : starts_with s p = true -> starts_with (s ++ c) p = true.
Proof. intros [r ->]%starts_with_spec. apply starts_with_spec. exists (r ++ c). by rw app_assoc. Qed.

Lemma starts_with_less (s c p : str) :
  starts_with (s ++ c) p = true -> length p <= length s -> starts_with s p = true.
Proof.
  intros [r Hr]%starts_with_spec Hl. apply starts_with_spec. exists (drop (length p) s).
  apply (f_equal (take (length s))) in Hr. rw take_app_length take_app_ge // in Hr. rw {1}Hr.
  f_equal. apply (f_equal (drop (length p))) in Hr. by rw drop_app_length in Hr.
Qed.

Lemma drop_app_within (s c : str) i : i <= length s -> drop i (s ++ c) = drop i s ++ c.
Proof. intros Hi. rw drop_app. by replace (i - length s) with 0 by lia. Qed.

Lemma find_subseq_app a c t i : t <> [] -> find_subseq a t = Some i -> find_subseq (a ++ c) t = Some i.
Proof.
  intros Ht Hf. unfold find_subseq in *. destruct (find_sub_first t a i Hf) as [Hs Hl].
  pose proof (starts_with_len _ _ _ Hs Ht) as Hle.
  assert (starts_with (drop i (a ++ c)) t = true) as Hs' by (rw drop_app_within; [lia|by apply starts_with_more]).
  destruct (find_sub_at t (a ++ c) i Hs') as (j & Hj & Hji); [rw length_app; lia|]. rw Hj.
  destruct (decide (j < i)) as [Hlt|]; [|f_equal; lia]. destruct (find_sub_first _ _ _ Hj) as [Hsj _].
  rw drop_app_within in Hsj; [lia|]. apply starts_with_less in Hsj; [|rw length_drop; lia].
  by rw (Hl j Hlt) in Hsj.
Qed.

(** An occurrence that only more bytes made ends in them. *)
Lemma find_subseq_new a c t j :
  t <> [] -> find_subseq a t = None -> find_subseq (a ++ c) t = Some j ->
  length a < j + length t /\ forall k x, t !! k = Some x -> j + k < length a -> a !! (j + k) = Some x.
Proof.
  intros Ht Hn Hj. unfold find_subseq in *. destruct (find_sub_first _ _ _ Hj) as [Hs _]. split.
  - apply Nat.nle_gt. intros Hle. rw drop_app_within in Hs; [lia|].
    apply starts_with_less in Hs; [|rw length_drop; lia].
    destruct (find_sub_at t a j Hs) as (i & Hi & _); [lia|]. by rw Hi in Hn.
  - intros k x Hk Hlt. apply starts_with_spec in Hs as [r Hr].
    assert ((a ++ c) !! (j + k) = Some x) as He by (rw -lookup_drop Hr; by apply lookup_app_l_Some).
    by rw lookup_app_l in He.
Qed.

Lemma occurrence_lookup a t i k x :
  find_subseq a t = Some i -> t !! k = Some x -> a !! (i + k) = Some x.
Proof.
  intros [Hs _]%find_sub_first Hk. apply starts_with_spec in Hs as [r Hr].
  rw -lookup_drop Hr. by apply lookup_app_l_Some.
Qed.

(** A terminator that more bytes complete starts behind one that was complete before. *)
Lemma terminator_later a c t t' i j :
  t ∈ terminators -> t' ∈ terminators -> find_subseq a t = Some i -> find_subseq a t' = None ->
  find_subseq (a ++ c) t' = Some j -> i < j.
Proof.
  intros Ht Ht' Hi Hn Hj.
  assert (t <> [] /\ t' <> []) as [Hne Hne'] by (split; intros ->; unfold terminators in *; set_solver).
  destruct (find_subseq_new a c t' j Hne' Hn Hj) as [Hl Hk].
  pose proof (starts_with_len _ _ _ (proj1 (find_sub_first _ _ _ Hi)) Hne) as Hle.
  pose proof (fun k x => occurrence_lookup a t i k x Hi) as Ho.
  apply Nat.nle_gt. intros Hji. unfold terminators in Ht, Ht'.
  rw !elem_of_cons in Ht Ht'.
  destruct Ht as [->|[->|[->|Ht]]]; [| | |by apply not_elem_of_nil in Ht];
    (destruct Ht' as [->|[->|[->|Ht']]]; [| | |by apply not_elem_of_nil in Ht']); simpl in Hl, Hle; try lia; try (by rw Hi in Hn).
  - assert (j = i \/ S j = i) as [->|<-] by lia.
    + pose proof (Hk 0 _ eq_refl) as K. pose proof (Ho 0 _ eq_refl) as O. rw K in O; [lia|done].
    + pose proof (Hk 2 _ eq_refl) as K. pose proof (Ho 1 _ eq_refl) as O.
      replace (S j + 1) with (j + 2) in O by lia. rw K in O; [lia|done].
  - assert (j = i \/ S j = i) as [->|<-] by lia.
    + pose proof (Hk 1 _ eq_refl) as K. pose proof (Ho 1 _ eq_refl) as O. rw K in O; [lia|done].
    + pose proof (Hk 1 _ eq_refl) as K. pose proof (Ho 0 _ eq_refl) as O.
      replace (S j + 0) with (j + 1) in O by lia. rw K in O; [lia|done].
Qed.

Definition candidates (a : bytes) (ts : list bytes) : list (nat * nat) :=
  omap (fun t => (fun i => (i, length t)) <$> find_subseq a t) ts.

Lemma min_by_pos_elem l x : min_by_pos l = Some x -> x ∈ l.
Proof.
  revert x. induction l as [|y l IH]; intros x; cbn [min_by_pos]; [done|].
  destruct (min_by_pos l) as [z|]; [|intros [= <-]; by left].
  destruct (_ <? _); intros [= <-]; [right; by apply IH|by left].
Qed.

Lemma candidates_found a ts i n :
  min_by_pos (candidates a ts) = Some (i, n) -> exists t, t ∈ ts /\ find_subseq a t = Some i /\ n = length t.
Proof.
  intros (t & Ht & Hf)%min_by_pos_elem%list_elem_of_omap. exists t. split; [done|].
  destruct (find_subseq a t); [|done]. by injection Hf as -> ->.
Qed.

Lemma candidates_none a ts t : min_by_pos (candidates a ts) = None -> t ∈ ts -> find_subseq a t = None.
Proof.
  induction ts as [|u ts IH]; intros Hm; [by intros ?%not_elem_of_nil|]. unfold candidates in *. cbn [omap list_omap] in Hm.
  destruct (find_subseq a u) as [i|] eqn:E; cbn [fmap option_fmap option_map] in Hm.
  - cbn [min_by_pos] in Hm. destruct (min_by_pos _); [by destruct (_ <? _)|done].
  - intros [->|Ht]%elem_of_cons; [done|by apply IH].
Qed.

Lemma candidates_app a c ts i n :
  (forall t, t ∈ ts -> t ∈ terminators) -> min_by_pos (candidates a ts) = Some (i, n) ->
  min_by_pos (candidates (a ++ c) ts) = Some (i, n).
Proof.
  revert i n. induction ts as [|t ts IH]; intros i n Hts; [done|].
  assert (t ∈ terminators /\ forall u, u ∈ ts -> u ∈ terminators) as [Ht Hu]
    by (split; [by apply Hts; left|intros u Hu; by apply Hts; right]).
  assert (t <> []) as Hne by (intros ->; unfold terminators in Ht; set_solver).
  specialize (fun i n => IH i n Hu). unfold candidates in *. cbn [omap list_omap].
  fold (candidates a ts) (candidates (a ++ c) ts) in *.
  destruct (find_subseq a t) as [k|] eqn:E; cbn [fmap option_fmap option_map min_by_pos].
  - rw (find_subseq_app a c t k Hne E). cbn [fmap option_fmap option_map min_by_pos].
    destruct (min_by_pos (candidates a ts)) as [[k' n']|] eqn:Em; [by rw (IH k' n' eq_refl)|].
    intros [= -> <-]. destruct (min_by_pos (candidates (a ++ c) ts)) as [[j m]|] eqn:Ej; [|done].
    apply candidates_found in Ej as (u & Hin & Hf & ->). cbn [fst].
    pose proof (terminator_later a c t u i j Ht (Hu u Hin) E (candidates_none a ts u Em Hin) Hf) as Hlt.
    by rw (proj2 (Nat.ltb_ge j i)); [lia|].
  - intros Hm. pose proof (IH i n Hm) as Hm'. destruct (find_subseq (a ++ c) t) as [j|] eqn:Ej; [|done].
    cbn [fmap option_fmap option_map min_by_pos]. rw Hm'. cbn [fst].
    apply candidates_found in Hm as (u & Hin & Hf & ->).
    by rw (proj2 (Nat.ltb_lt i j)); [exact (terminator_later a c u t i j (Hu u Hin) Ht Hf E Ej)|].
Qed.

Lemma frame_end_bounds a i n : frame_end a = Some (i, n) -> i + n <= length a.
Proof.
  intros (t & Ht & Hf & ->)%candidates_found.
  assert (t <> []) as Hne by (intros ->; unfold terminators in Ht; set_solver).
  exact (starts_with_len _ _ _ (proj1 (find_sub_first _ _ _ Hf)) Hne).
Qed.

(** Where a frame may start. *)
Definition good_start (buffer : bytes) (at_ : nat) : bool :=
  starts_with (drop at_ buffer) data_prefix
  && ((at_ =? 0)%nat || match buffer !! (at_ - 1) with
                        | Some b => (b =? 10)%N || (b =? 13)%N
                        | None => false
                        end).

Lemma data_prefix_length : length data_prefix = 6.
Proof. done. Qed.

Lemma frame_start_spec fuel from buffer :
  length buffer < fuel + from ->
  match frame_start_from fuel from buffer with
  | Some at_ => from <= at_ /\ good_start buffer at_ = true /\ forall j, from <= j -> j < at_ -> good_start buffer j = false
  | None => forall j, from <= j -> good_start buffer j = false
  end.
Proof.
  assert (forall j, length buffer < j + 6 -> good_start buffer j = false) as Hout.
  { intros j Hj. unfold good_start. destruct (starts_with _ _) eqn:E; [|done].
    apply starts_with_len in E; [|done]. rw data_prefix_length in E. lia. }
  revert from. induction fuel as [|fuel IH]; intros from Hf; cbn [frame_start_from].
  { intros j Hj. apply Hout. lia. }
  unfold find_subseq. destruct (find_sub data_prefix (drop from buffer)) as [i|] eqn:E.
  - apply find_sub_first in E as [Hs Hl]. rw drop_drop in Hs.
    assert (forall j, from <= j -> j < from + i -> good_start buffer j = false) as Hb.
    { intros j H1 H2. unfold good_start. specialize (Hl (j - from)). rw drop_drop in Hl.
      replace (from + (j - from)) with j in Hl by lia. by rw Hl; [lia|]. }
    destruct ((from + i =? 0)%nat || _) eqn:Eg.
    + split; [lia|]. split; [unfold good_start; by rw Hs Eg|done].
    + assert (good_start buffer (from + i) = false) as Hg by (unfold good_start; by rw Hs Eg).
      specialize (IH (from + i + 1) ltac:(lia)).
      assert (forall j, from <= j -> j < from + i + 1 -> good_start buffer j = false) as Hb'.
      { intros j H1 H2. destruct (decide (j = from + i)) as [->|]; [done|]. apply Hb; lia. }
      destruct (frame_start_from _ _ _) as [at_|].
      * destruct IH as (H1 & H2 & H3). split; [lia|]. split; [done|]. intros j Hj1 Hj2.
        destruct (decide (j < from + i + 1)); [by apply Hb'|apply H3; lia].
      * intros j Hj. destruct (decide (j < from + i + 1)); [by apply Hb'|apply IH; lia].
  - intros j Hj. unfold good_start. destruct (starts_with (drop j buffer) data_prefix) eqn:Es; [|done].
    pose proof (starts_with_len _ _ _ Es ltac:(done)) as Hle. rw data_prefix_length in Hle.
    destruct (find_sub_at data_prefix (drop from buffer) (j - from)) as (k & Hk & _);
      [rw drop_drop; by replace (from + (j - from)) with j by lia|rw length_drop; lia|by rw E in Hk].
Qed.

Lemma good_start_app b c j : j + 6 <= length b -> good_start (b ++ c) j = good_start b j.
Proof.
  intros Hj. unfold good_start. rw drop_app_within; [lia|].
  assert (starts_with (drop j b ++ c) data_prefix = starts_with (drop j b) data_prefix) as ->.
  { destruct (starts_with (drop j b) data_prefix) eqn:E; [by apply starts_with_more|].
    apply not_true_iff_false. intros Hs. apply starts_with_less in Hs; [by rw E in Hs|]. rw length_drop data_prefix_length. lia. }
  by rw lookup_app_l; [lia|].
Qed.

Lemma good_start_len b j : good_start b j = true -> j + 6 <= length b.
Proof. intros [Hs _]%andb_true_iff. by apply starts_with_len in Hs. Qed.

Lemma find_start_app b c at_ :
  find_data_frame_start b = Some at_ -> find_data_frame_start (b ++ c) = Some at_ /\ at_ + 6 <= length b.
Proof.
  unfold find_data_frame_start. intros Hf.
  pose proof (frame_start_spec (S (length b)) 0 b ltac:(lia)) as Hs. rw Hf in Hs. destruct Hs as (_ & Hg & Hl).
  pose proof (good_start_len _ _ Hg) as Hle. split; [|done].
  pose proof (frame_start_spec (S (length (b ++ c))) 0 (b ++ c) ltac:(lia)) as Hs.
  assert (good_start (b ++ c) at_ = true) as Hg' by (by rw good_start_app).
  destruct (frame_start_from (S (length (b ++ c))) 0 (b ++ c)) as [j|] eqn:Ej; [|by rw (Hs at_ ltac:(lia)) in Hg'].
  destruct Hs as (_ & Hj & Hlj). destruct (Nat.lt_trichotomy j at_) as [Hlt|[->|Hlt]]; [|done|].
  - rw good_start_app in Hj; [lia|]. by rw (Hl j ltac:(lia) ltac:(lia)) in Hj.
  - by rw (Hlj at_ ltac:(lia) ltac:(lia)) in Hg'.
Qed.

#[export] Instance sse_laws : FramingLaws sse_framing.
Proof.
  split; unfold next_frame, sse_framing, next_sse.
  - intros b c p r. destruct (find_data_frame_start b) as [st|] eqn:E; [|done].
    destruct (find_start_app b c st E) as [-> Hle]. rw drop_app_within //.
    destruct (frame_end (drop (st + 6) b)) as [[i n]|] eqn:Ef; [|done]. intros [= <- <-].
    pose proof (frame_end_bounds _ _ _ Ef) as Hb.
    assert (frame_end (drop (st + 6) b ++ c) = Some (i, n)) as -> by (by apply candidates_app).
    rw take_app_le; [lia|]. by rw drop_app_within.
  - intros b p r. destruct (find_data_frame_start b) as [st|] eqn:E; [|done].
    destruct (find_start_app b [] st E) as [_ Hle].
    destruct (frame_end (drop (st + 6) b)) as [[i n]|] eqn:Ef; [|done]. intros [= _ <-].
    rw !length_drop. lia.
Qed.

(** ** One end of the stream *)

Definition dones (l : list StreamEvent) : nat :=
  length (List.filter (fun ev => match ev with Done _ _ => true | _ => false end) l).

Lemma dones_app l l' : dones (l ++ l') = dones l + dones l'.
Proof. unfold dones. by rw List.filter_app length_app. Qed.

(** The steps of a parser that keeps a flag for the end it has sent.  A step either goes on
    with a flag that agrees with the channel, or leaves; it leaves a channel that is open
    only where [leaves] holds. *)
Section Once.
Context {St : Type} (flag : St -> bool) (leaves : Prop).

Definition counted (s : St) (tx : Tx) : Prop := dones (sent tx) = if flag s then 1 else 0.

Definition fair_at {A} (s : St) (m : M St A) : Prop := forall tx, counted s tx ->
  match m s tx with
  | (Some (_, s'), tx') => counted s' tx' /\ (room tx = None -> room tx' = None)
  | (None, tx') => dones (sent tx') <= 1 /\ (room tx = None -> leaves)
  end.

Lemma fair_ret {A} (a : A) s : fair_at s (ret a).
Proof. intros tx Hc. by split. Qed.

Lemma fair_bind {A B} (m : M St A) (k : A -> M St B) s :
  fair_at s m -> (forall a s' tx tx', m s tx = (Some (a, s'), tx') -> fair_at s' (k a)) -> fair_at s (bind m k).
Proof.
  intros Hm Hk tx Hc. specialize (Hm tx Hc). unfold bind. destruct (m s tx) as [[[a s']|] tx'] eqn:E; [|done].
  destruct Hm as [Hc' Hr]. specialize (Hk a s' tx tx' E tx' Hc').
  destruct (k a s' tx') as [[[b s2]|] tx2]; destruct Hk as [H1 H2]; auto.
Qed.

Lemma fair_then {A B} (m : M St A) (k : A -> M St B) s :
  fair_at s m -> (forall a s', fair_at s' (k a)) -> fair_at s (bind m k).
Proof. intros Hm Hk. apply fair_bind; auto. Qed.

Lemma fair_get {B} (k : St -> M St B) s : fair_at s (k s) -> fair_at s (bind get k).
Proof. done. Qed.

Lemma fair_put {B} (k : unit -> M St B) s s' : flag s' = flag s -> fair_at s' (k tt) -> fair_at s (bind (put s') k).
Proof. intros Hf Hk tx Hc. apply Hk. unfold counted. by rw Hf. Qed.

Lemma fair_put_only s s' : flag s' = flag s -> fair_at s (put s').
Proof. intros Hf tx Hc. split; [|done]. unfold counted. by rw Hf. Qed.

Lemma fair_modify f s : flag (f s) = flag s -> fair_at s (modify f).
Proof. intros Hf. by apply fair_get, fair_put_only. Qed.

Definition not_done (ev : StreamEvent) : Prop := match ev with Done _ _ => False | _ => True end.

Lemma send_counted ev s tx : not_done ev -> counted s tx -> counted s (send ev tx).2.
Proof.
  intros Hn Hc. unfold counted, send in *. destruct (room tx) as [[|n]|]; cbn [snd sent]; [done|..];
    rw dones_app Hc; destruct ev; try done; by rw Nat.add_0_r.
Qed.

Lemma send_room ev tx : room tx = None -> room (send ev tx).2 = None /\ (send ev tx).1 = true.
Proof. intros Hr. unfold send. by rw Hr. Qed.

Lemma fair_send_anyway ev s : not_done ev -> fair_at s (send_anyway ev).
Proof.
  intros Hn tx Hc. unfold send_anyway, send_or_bail, bind, ret.
  pose proof (send_counted ev s tx Hn Hc) as H1. pose proof (send_room ev tx) as H2.
  destruct (send ev tx) as [ok tx']. split; [done|]. intros Hr. by destruct (H2 Hr).
Qed.

Lemma fair_send_or_leave ev s : not_done ev -> fair_at s (send_or_leave ev).
Proof.
  intros Hn tx Hc. unfold send_or_leave, send_or_bail, bind, ret.
  pose proof (send_counted ev s tx Hn Hc) as H1. pose proof (send_room ev tx) as H2.
  destruct (send ev tx) as [[] tx']; cbn [snd fst] in *; (split; [|intros Hr; by destruct (H2 Hr)]); [done|].
  unfold leave, counted in *. rw H1. by destruct (flag s); lia.
Qed.

Lemma fair_send_calls l s : fair_at s (send_calls l).
Proof.
  revert s. induction l as [|tc l IH]; intros s; [apply fair_ret|].
  apply fair_then; [by apply fair_send_or_leave|]. intros _ s'. apply IH.
Qed.

Lemma fair_drain `{FramingLaws} on_frame fuel b s :
  (forall p s, fair_at s (on_frame p)) -> fair_at s (drain_frames on_frame fuel b).
Proof.
  intros Hf. revert b s. induction fuel as [|fuel IH]; intros b s; cbn [drain_frames]; [apply fair_ret|].
  destruct (next_frame b) as [[p r]|]; [|apply fair_ret]. apply fair_then; [apply Hf|]. intros _ s'. apply IH.
Qed.

Lemma fair_read `{FramingLaws} limit overflow idle_secs on_frame on_broken chunks buffer s :
  (forall p s, fair_at s (on_frame p)) -> (forall e s, fair_at s (on_broken e)) ->
  ((limit < N.of_nat (length buffer + chunk_bytes chunks))%N -> leaves) ->
  fair_at s (read_chunks limit overflow idle_secs on_frame on_broken chunks buffer).
Proof.
  intros Hf Hb. revert buffer s. induction chunks as [|[b|e|] chunks IH]; intros buffer s Hl; cbn [read_chunks].
  - apply fair_ret.
  - cbn [chunk_bytes foldr] in Hl. fold (chunk_bytes chunks) in Hl.
    destruct (N.ltb_spec limit (N.of_nat (length (buffer ++ b)))) as [Hlt|_].
    + rw length_app in Hlt. intros tx Hc. unfold bind, leave.
      pose proof (fair_send_anyway (ErrorEvent overflow) s I tx Hc) as Hs.
      destruct (send_anyway _ s tx) as [[[u s']|] tx']; destruct Hs as [H1 H2].
      * unfold counted in H1. rw H1. split; [by destruct (flag s'); lia|]. intros _. apply Hl. lia.
      * split; [done|]. intros _. apply Hl. lia.
    + apply fair_bind; [by apply fair_drain|]. intros r s' tx tx' Hd%drain_shorter.
      apply IH. intros Hlt. apply Hl. rw length_app in Hd. lia.
  - apply Hb.
  - by apply fair_send_anyway.
Qed.
End Once.

Create HintDb fair discriminated.
#[export] Hint Resolve fair_ret fair_send_anyway fair_send_or_leave fair_send_calls fair_modify fair_put_only : fair.
#[export] Hint Extern 1 (not_done _) => exact I : fair.

(** Steps through a parser: binds, reads and writes of the state, case distinctions. *)
Ltac fair :=
  repeat match goal with
  | |- fair_at _ _ _ (bind get _) => apply fair_get
  | |- fair_at _ _ _ (bind (put _) _) => apply fair_put; [reflexivity|]
  | |- fair_at _ _ _ (bind _ _) => apply fair_then; [|intros]
  | |- fair_at _ _ _ match _ with _ => _ end => case_match
  | |- _ => progress (auto with fair)
  end.

Section AnthropicEnd.
Context `{JsonText} (leaves : Prop).

Abbreviation fair := (fair_at done_emitted leaves).

Lemma fair_done_or_leave r u s : fair s (done_or_leave r u).
Proof.
  intros tx Hc. unfold done_or_leave, send_done, send_or_bail, modify, get, put, bind, ret, leave.
  unfold counted in *. destruct (done_emitted s) eqn:E; [by rw E|].
  unfold send. destruct (room tx) as [[|n]|] eqn:Er; cbn [sent room done_emitted set_done];
    rw ?dones_app ?Hc; split; try done; lia.
Qed.

Lemma fair_anthropic_frame p s : fair s (anthropic_frame p).
Proof.
  unfold anthropic_frame, anthropic_json, merge_usage_at, handle_content_block_start, handle_content_block_delta,
    send_text_anyway, flush_tool, message_stop.
  fair; try apply fair_done_or_leave.
Qed.

End AnthropicEnd.

Lemma send_dones ev tx :
  dones (sent (send ev tx).2) <= dones (sent tx) + dones [ev]
  /\ (room tx = None -> dones (sent (send ev tx).2) = dones (sent tx) + dones [ev] /\ room (send ev tx).2 = None).
Proof. unfold send. destruct (room tx) as [[|n]|]; cbn [snd sent room]; rw ?dones_app; split; try done; lia. Qed.

Lemma anthropic_end_sends `{JsonText} s tx :
  done_emitted s = false ->
  (anthropic_end s tx).2
  = (send (Done FinishError (finalize_usage (usage s)))
      match pending_tool s with
      | Some tool => (send (ToolCall (into_invocation tool)) tx).2
      | None => tx
      end).2.
Proof.
  intros Hd. unfold anthropic_end, send_done, send_anyway, send_or_bail, modify, get, put, bind, ret. rw Hd.
  destruct (pending_tool s) as [tool|].
  - destruct (send (ToolCall _) tx) as [ok tx1]. cbn [done_emitted set_tool usage snd]. rw Hd.
    by destruct (send _ tx1) as [[] tx2].
  - rw Hd. by destruct (send _ tx) as [[] tx2].
Qed.

Lemma anthropic_end_counts `{JsonText} s tx :
  counted done_emitted s tx ->
  let tx' := (anthropic_end s tx).2 in dones (sent tx') <= 1 /\ (room tx = None -> dones (sent tx') = 1).
Proof.
  unfold counted. destruct (done_emitted s) eqn:Hd; intros Hc.
  { unfold anthropic_end, bind, get. rw Hd. cbn [ret snd]. rw Hc. by split; [lia|]. }
  rw anthropic_end_sends //. set (d := Done _ _). set (tx1 := match pending_tool s with Some tool => _ | None => tx end).
  assert (dones (sent tx1) = 0 /\ (room tx = None -> room tx1 = None)) as [H1 H2].
  { unfold tx1. destruct (pending_tool s) as [tool|]; [|by rw Hc].
    destruct (send_dones (ToolCall (into_invocation tool)) tx) as [Hle Hr]. rw Hc in Hle. cbn in Hle.
    split; [lia|]. intros Hn. by destruct (Hr Hn). }
  destruct (send_dones d tx1) as [Hle Hr]. rw H1 in Hle Hr. cbn in Hle, Hr. split; [lia|].
  intros Hn. by destruct (Hr (H2 Hn)).
Qed.

Lemma anthropic_ends_once `{JsonText} idle_secs chunks n :
  let tx := (parse_anthropic_stream idle_secs chunks sse_start (mkTx [] n)).2 in
  dones (sent tx) <= 1
  /\ (n = None -> (N.of_nat (chunk_bytes chunks) <= MAX_SSE_BUFFER_BYTES)%N -> dones (sent tx) = 1).
Proof.
  unfold parse_anthropic_stream, bind.
  pose proof (fair_read (H := sse_laws) done_emitted (MAX_SSE_BUFFER_BYTES < N.of_nat (chunk_bytes chunks))%N
    MAX_SSE_BUFFER_BYTES sse_overflow idle_secs anthropic_frame (fun e => send_anyway (ErrorEvent e)) chunks [] sse_start
    (fun p s => fair_anthropic_frame _ p s)
    (fun e s => fair_send_anyway _ _ (ErrorEvent e) s I) (fun h => h) (mkTx [] n) eq_refl) as Hr.
  destruct (read_chunks _ _ _ _ _ _ _ _ _) as [[[u s]|] tx]; cbn [snd room] in *; destruct Hr as [H1 H2].
  - destruct (anthropic_end_counts s tx H1) as [H3 H4]. split; [done|]. intros Hn _. by apply H4, H2.
  - split; [done|]. intros Hn Hl. specialize (H2 Hn). lia.
Qed.

(** ** The twin of the NDJSON parser *)

Lemma trim_start_snoc q c :
  is_whitespace c = true -> trim_start (q ++ [c]) = match trim_start q with [] => [] | t => t ++ [c] end.
Proof.
  intros Hc. induction q as [|x q IH]; cbn [app trim_start]; [by rw Hc|]. by destruct (is_whitespace x).
Qed.

Lemma trim_snoc q c : is_whitespace c = true -> trim (q ++ [c]) = trim q.
Proof.
  intros Hc. unfold trim. rw trim_start_snoc //. destruct (trim_start q) as [|x t]; [done|].
  unfold trim_end. rw rev_app_distr. cbn [rev app trim_start]. by rw Hc.
Qed.

Lemma trim_strip_cr l : trim (strip_cr l) = trim l.
Proof.
  unfold strip_cr. destruct (ends_with l [13%N]) eqn:E; [|done].
  apply ends_with_spec in E as [q ->]. by rw removelast_last trim_snoc.
Qed.

Lemma ends_with_snoc (q : str) x y : ends_with (q ++ [x]) [y] = (x =? y)%N.
Proof.
  apply eq_iff_eq_true. rw ends_with_spec N.eqb_eq. split; [by intros [r [_ ?]%app_inj_tail]|].
  intros ->. by exists q.
Qed.

Lemma encode_char_last c : c <> 13%N -> exists q x, utf8_encode_char c = q ++ [x] /\ (x =? 13)%N = false.
Proof.
  intros Hc. unfold utf8_encode_char.
  assert (forall n, (128 + n =? 13)%N = false) as Hb by (intros n; apply N.eqb_neq; lia).
  destruct (c <? 128)%N; [exists [], c; split; [done|by apply N.eqb_neq]|].
  destruct (c <? 2048)%N; [by exists [192 + c / 64]%N, (128 + c mod 64)%N|].
  destruct (c <? 65536)%N; [by exists [224 + c / 4096; 128 + (c / 64) mod 64]%N, (128 + c mod 64)%N|].
  by exists [240 + c / 262144; 128 + (c / 4096) mod 64; 128 + (c / 64) mod 64]%N, (128 + c mod 64)%N.
Qed.

Lemma drop_cr_encode l : drop_cr (utf8_encode l) = utf8_encode (strip_cr l).
Proof.
  destruct l as [|c l _] using rev_ind; [done|]. unfold drop_cr, strip_cr. rw ends_with_snoc utf8_encode_app.
  destruct (N.eqb_spec c 13) as [->|Hc].
  - change (utf8_encode [13%N]) with [13%N]. by rw ends_with_snoc !removelast_last.
  - destruct (encode_char_last c Hc) as (q & x & He & Hx).
    assert (utf8_encode [c] = q ++ [x]) as -> by (unfold utf8_encode; by rw bind_cons app_nil_r).
    rw app_assoc ends_with_snoc Hx -app_assoc -He utf8_encode_app. f_equal.
    unfold utf8_encode. by rw bind_cons app_nil_r.
Qed.

Lemma blank_line l : forallb ascii_ws (utf8_encode l) = true -> trim l = [].
Proof.
  intros Hw. unfold trim. assert (trim_start l = []) as ->; [|done].
  induction l as [|c l IH]; [done|]. change (utf8_encode (c :: l)) with (utf8_encode_char c ++ utf8_encode l) in Hw.
  rw forallb_app in Hw. apply andb_true_iff in Hw as [Hc Hl]. cbn [trim_start]. rw IH //.
  assert (is_whitespace c = true) as ->; [|done]. revert Hc. unfold utf8_encode_char.
  assert (forall k n, (128 <= k)%N -> ascii_ws (k + n) = false) as Hbig.
  { intros k m Hk. assert (128 <= k + m)%N as Hn by lia. revert Hn. generalize (k + m)%N as n. intros n Hn. apply bool_decide_eq_false_2. rw !elem_of_cons. intros Hin.
    repeat (destruct Hin as [->|Hin]; [lia|]). by apply not_elem_of_nil in Hin. }
  destruct (c <? 128)%N; cbn [forallb].
  - rw andb_true_r. intros Hin%bool_decide_eq_true_1. rw !elem_of_cons in Hin.
    repeat (destruct Hin as [->|Hin]; [done|]). by apply not_elem_of_nil in Hin.
  - destruct (c <? 2048)%N; [|destruct (c <? 65536)%N]; cbn [forallb]; by rw Hbig.
Qed.

Lemma next_line_app a r : Forall (fun x => x <> 10%N) a -> next_line (a ++ 10%N :: r) = Some (a, r).
Proof.
  induction 1 as [|x a Hx _ IH]; [done|]. cbn [app next_line]. by rw (proj2 (N.eqb_neq x 10) Hx) IH.
Qed.

Section Twin.
Context `{JsonText}.

Lemma send_open ev l : send ev (mkTx l None) = (true, mkTx (l ++ [ev]) None).
Proof. done. Qed.

Lemma send_calls_open {St} calls (s : St) l :
  send_calls calls s (mkTx l None) = (Some (tt, s), mkTx (l ++ map ToolCall calls) None).
Proof.
  revert l. induction calls as [|tc calls IH]; intros l; [by rw app_nil_r|]. cbn [send_calls map].
  unfold bind at 1, send_or_leave, send_or_bail, ret. unfold bind. rw send_open IH. by rw -app_assoc.
Qed.

(** The calls of a line can be read, when it has some. *)
Definition readable_calls (v : json) : Prop :=
  forall calls, get_path v [lit "message"; lit "tool_calls"] ≫= as_array = Some calls ->
  calls <> [] -> omap tool_call_of calls <> [].

Lemma send_text_open {St} mk o (s : St) l :
  send_text mk o s (mkTx l None)
  = (Some (tt, s), mkTx (l ++ match o with Some ((_ :: _) as t) => [mk t] | _ => [] end) None).
Proof. destruct o as [[|c t]|]; cbn [send_text]; [by rw app_nil_r|done|by rw app_nil_r]. Qed.

Lemma ollama_json_twin config v buf l :
  readable_calls v ->
  ollama_json config v buf (mkTx l None)
  = (let '(evs, buf') := twin_json config v buf in (Some (tt, buf'), mkTx (l ++ evs) None)).
Proof.
  intros Hr. unfold ollama_json, twin_json. destruct (json_get v "error") as [err|]; [done|].
  unfold bind at 1. rw send_text_open. unfold bind at 1. rw send_text_open.
  set (thinking := match thinking_text config v with Some _ => _ | None => _ end).
  set (content := match content_text v with Some _ => _ | None => _ end).
  assert (forall calls : list json, (match get_path v [lit "message"; lit "tool_calls"] ≫= as_array with Some c => c = calls | None => False end) ->
    negb (bool_decide (calls = [])) && bool_decide (omap tool_call_of calls = []) = false) as Hc.
  { intros calls Hm. unfold readable_calls in Hr. destruct (_ ≫= _) as [c|]; [|done]. subst c.
    case_bool_decide as H1; [done|]. by rw bool_decide_eq_false_2; [apply (Hr calls)|]. }
  unfold bind at 1. destruct (get_path v _ ≫= as_array) as [calls|].
  - unfold get at 1, put at 1, bind at 1 2. rw (Hc calls) //. unfold ret.
    destruct (is_done v); unfold bind, get, put.
    + rw send_calls_open. unfold send_or_leave, send_or_bail, bind, ret. rw send_open. by rw -!app_assoc.
    + by rw -!app_assoc.
  - unfold ret. destruct (is_done v); unfold bind, get, put.
    + rw send_calls_open. unfold send_or_leave, send_or_bail, bind, ret. rw send_open. by rw -!app_assoc.
    + by rw -!app_assoc.
Qed.

(** A line both parsers read: blank, or JSON with calls that can be read. *)
Definition clean_line (l : str) : Prop :=
  forallb is_scalar l = true /\ 10%N ∉ l
  /\ (trim l = [] \/ trim l <> [] /\ exists v, parse_json (trim l) = Ok v /\ readable_calls v).

Definition twin_line (config : OllamaNdjsonConfig) (raw : str) (buf : list ToolInvocation)
    : list StreamEvent * list ToolInvocation :=
  if bool_decide (trim raw = []) then ([], buf)
  else match parse_json (trim raw) with Ok v => twin_json config v buf | Err _ => ([], buf) end.

Lemma strip_cr_scalar l : forallb is_scalar l = true -> forallb is_scalar (strip_cr l) = true.
Proof.
  unfold strip_cr. destruct (ends_with l [13%N]) eqn:E; [|done].
  apply ends_with_spec in E as [q ->]. rw removelast_last forallb_app. by intros [? _]%andb_true_iff.
Qed.

Lemma ollama_line_twin config raw buf l :
  clean_line raw ->
  ollama_line config (utf8_encode raw) buf (mkTx l None)
  = (let '(evs, buf') := twin_line config raw buf in (Some (tt, buf'), mkTx (l ++ evs) None)).
Proof.
  intros (Hs & _ & Hv). unfold ollama_line, twin_line. rw drop_cr_encode.
  destruct (forallb ascii_ws _) eqn:Ew.
  { apply blank_line in Ew. rw trim_strip_cr in Ew. rw bool_decide_eq_true_2 //. by rw app_nil_r. }
  rw from_utf8_encode; [by apply strip_cr_scalar|]. rw trim_strip_cr.
  destruct Hv as [->|(Hn & v & Hp & Hr)]; [by rw /= app_nil_r|]. rw !bool_decide_eq_false_2 // Hp.
  by apply ollama_json_twin.
Qed.

Definition lines_text (ls : list str) : str := concat (map (fun l => l ++ [10%N]) ls).

Fixpoint twin_run (config : OllamaNdjsonConfig) (ls : list str) (buf : list ToolInvocation)
    : list StreamEvent * list ToolInvocation :=
  match ls with
  | [] => ([], buf)
  | l :: ls' =>
      let '(evs, buf1) := twin_line config l buf in
      let '(evs', buf2) := twin_run config ls' buf1 in (evs ++ evs', buf2)
  end.

Lemma drain_twin config ls buf l fuel :
  Forall clean_line ls -> length ls < fuel ->
  drain_frames (framing := ndjson_framing) (ollama_line config) fuel (utf8_encode (lines_text ls)) buf (mkTx l None)
  = (let '(evs, buf') := twin_run config ls buf in (Some ([], buf'), mkTx (l ++ evs) None)).
Proof.
  intros Hc. revert buf l fuel. induction Hc as [|raw ls Hraw Hc IH]; intros buf l [|fuel] Hf; try (simpl in Hf; lia).
  - cbn. by rw app_nil_r.
  - cbn [drain_frames twin_run]. unfold lines_text. cbn [map concat].
    assert (utf8_encode ((raw ++ [10%N]) ++ concat (map (fun l => l ++ [10%N]) ls))
            = utf8_encode raw ++ 10%N :: utf8_encode (lines_text ls)) as -> by (by rw !utf8_encode_app -app_assoc).
    assert (next_frame (Framing := ndjson_framing) (utf8_encode raw ++ 10%N :: utf8_encode (lines_text ls))
            = Some (utf8_encode raw, utf8_encode (lines_text ls))) as ->
      by (apply next_line_app, encode_feedless; by destruct Hraw as (_ & ? & _)).
    unfold bind. rw ollama_line_twin //. destruct (twin_line config raw buf) as [evs buf1].
    rw IH; [simpl in Hf; lia|]. destruct (twin_run config ls buf1) as [evs' buf2]. by rw app_assoc.
Qed.

Lemma twin_lines_run config ls buf :
  Forall clean_line ls ->
  twin_lines config (ls ++ [[]]) buf = (let '(evs, buf') := twin_run config ls buf in evs ++ map ToolCall buf').
Proof.
  intros Hc. revert buf. induction Hc as [|raw ls Hraw Hc IH]; intros buf; [done|].
  cbn [app twin_lines twin_run]. unfold twin_line. case_bool_decide as Ht.
  - rw IH. by destruct (twin_run config ls buf).
  - destruct Hraw as (_ & _ & [|(_ & v & -> & _)]); [done|]. destruct (twin_json config v buf) as [evs buf1].
    rw IH. destruct (twin_run config ls buf1). by rw app_assoc.
Qed.

Lemma split_lines_text ls : Forall (fun l => 10%N ∉ l) ls -> split_char 10 (lines_text ls) = ls ++ [[]].
Proof.
  induction 1 as [|l ls Hl _ IH]; [done|]. unfold lines_text in *. cbn [map concat]. rw -app_assoc.
  change ([10%N] ++ ?r) with (10%N :: r). rw split_char_app split_char_notin // IH. done.
Qed.

Lemma lines_text_length ls : length ls <= length (utf8_encode (lines_text ls)).
Proof.
  induction ls as [|l ls IH]; [simpl; lia|]. unfold lines_text in *. cbn [map concat length].
  rw !utf8_encode_app !length_app. assert (length (utf8_encode_char 10) = 1) as -> by done. lia.
Qed.

(** The stream parser and its synchronous twin report the same events for a body of
    complete lines of JSON, however the body is cut into chunks. *)
Lemma ndjson_twins_agree config idle_secs ls bs :
  Forall clean_line ls -> concat bs = utf8_encode (lines_text ls) ->
  (N.of_nat (length (concat bs)) <= MAX_NDJSON_BUFFER_BYTES)%N ->
  run_ollama config idle_secs (map Bytes bs) (mkTx [] None) = parse_ndjson_lines config (lines_text ls).
Proof.
  intros Hc Hb Hl. unfold run_ollama, parse_ollama_ndjson_stream, parse_ndjson_lines.
  rw split_lines_text; [eapply Forall_impl; [exact Hc|]; by intros l (_ & ? & _)|]. rw twin_lines_run //.
  unfold bind at 1. rw -(app_nil_r (map Bytes bs)) (read_concat (H := ndjson_laws)) //.
  cbn [read_chunks app]. rw (proj2 (N.ltb_ge _ _) Hl) Hb. unfold bind at 1.
  rw (drain_fuel (H := ndjson_laws) (ollama_line config) _ (S (length (utf8_encode (lines_text ls)))) _ _ _ (le_n _)); [lia|].
  rw drain_twin //; [pose proof (lines_text_length ls); lia|]. destruct (twin_run config ls []) as [evs buf].
  unfold ret, get, bind. by rw send_calls_open.
Qed.
End Twin.

(** ** Gaps *)

(** A body that exceeds the buffer ends the Anthropic stream without an end event. *)
Lemma overflow_has_no_end `{JsonText} idle_secs b :
  (MAX_SSE_BUFFER_BYTES < N.of_nat (length b))%N ->
  run_anthropic idle_secs [Bytes b] (mkTx [] None) = [ErrorEvent sse_overflow].
Proof.
  intros Hl. unfold run_anthropic, parse_anthropic_stream. unfold bind at 1. cbn [read_chunks app].
  by rw (proj2 (N.ltb_lt _ _) Hl).
Qed.

(** Texts of a few values, for the examples. *)
Definition demo_text (table : list (str * json)) : JsonText := {|
  parse_json s := match assoc s table with Some v => Ok v | None => Err (lit "expected value") end;
  print_json v := match v with JNull => lit "null" | _ => [] end;
  utf8_error b := []
|}.

Definition demo_done : json :=
  JObj [(lit "done", JBool true); (lit "prompt_eval_count", JNum (lit "7")); (lit "eval_count", JNum (lit "2"))].
Definition demo_null_error : json :=
  JObj [(lit "error", JNull); (lit "message", JObj [(lit "content", JStr (lit "hi"))])].
Definition demo_parser : JsonText := demo_text [(lit "D", demo_done); (lit "E", demo_null_error)].
#[local] Existing Instance demo_parser.

(** A last line without its line feed is not read by the stream parser, but by its twin. *)
Lemma unterminated_line_dropped :
  run_ollama GLM 180 [Bytes (utf8_encode "D")] (mkTx [] None) = []
  /\ parse_ndjson_lines GLM "D" = [Done Stop None].
Proof. by vm_compute. Qed.

(** A line that is no JSON is an error of the stream parser, and skipped by its twin. *)
Lemma bad_line_skipped_by_twin :
  run_ollama GLM 180 [Bytes (utf8_encode ("x" ++ [10%N]))] (mkTx [] None) = [ErrorEvent "JSON parse: expected value"]
  /\ parse_ndjson_lines GLM ("x" ++ [10%N]) = [].
Proof. by vm_compute. Qed.

(** The counts of a native [done] line are at its top level; they are not read. *)
Lemma native_usage_unread :
  run_ollama GLM 180 [Bytes (utf8_encode ("D" ++ [10%N]))] (mkTx [] None) = [Done Stop None].
Proof. by vm_compute. Qed.

(** A null [error] member is taken for an error, and its line is dropped. *)
Lemma null_error_reported :
  run_ollama GLM 180 [Bytes (utf8_encode ("E" ++ [10%N]))] (mkTx [] None) = [ErrorEvent "null"].
Proof. by vm_compute. Qed.

Lemma ndjson_twins_agree_witness :
  run_ollama GLM 180 (map Bytes [utf8_encode "D"; [10%N]]) (mkTx [] None) = parse_ndjson_lines GLM (lines_text [lit "D"]).
Proof.
  apply (ndjson_twins_agree GLM 180 [lit "D"] [utf8_encode "D"; [10%N]]); [|done|by vm_compute].
  constructor; [|constructor]. split; [done|]. split; [by apply (bool_decide_unpack _)|]. right. split; [done|].
  exists demo_done. split; [done|]. intros calls Hc. vm_compute in Hc. discriminate.
Defined.
