(* ===== verification/ToolCalls.v ===== *)
(** * Tool calls in model output

    Models [src/adapters/openai_compat/tool_call.rs] (deltas of tool calls, argument
    objects that arrive concatenated, duplicate identifiers) and
    [src/adapters/tool_call_markup.rs] (calls written as DSML markup in the text).  The
    scanners of the code walk bytes or byte offsets; what they look for is ASCII or
    whole characters, so characters and suffixes of the text stand for them here.  The
    theorems: concatenated objects are taken apart, drained calls come in the order of
    their index with distinct identifiers, and markup that was printed is read back. *)

From Stdlib Require Import ssreflect.
From S2P Require Import Prelude Names Machine Message Streams.

(** ** Concatenated argument objects *)

(** The state of the walk: brace depth, inside a string, after a backslash. *)
Record Lex := mkLex { depth : Z; in_str : bool; escape : bool }.

Definition lex_char (l : Lex) (c : char) : Lex :=
  if escape l then mkLex (depth l) (in_str l) false
  else if in_str l then
    if (c =? chr "\")%N then mkLex (depth l) true true
    else if (c =? 34)%N then mkLex (depth l) false false
    else l
  else if (c =? 34)%N then mkLex (depth l) true false
  else if (c =? chr "{")%N then mkLex (depth l + 1) false false
  else if (c =? chr "}")%N then mkLex (depth l - 1) false false
  else l.

(** The brace that counts: outside strings. *)
Definition opens (l : Lex) (c : char) : bool := negb (escape l) && negb (in_str l) && (c =? chr "{")%N.
Definition closes (l : Lex) (c : char) : bool := negb (escape l) && negb (in_str l) && (c =? chr "}")%N.

Definition slice (s : str) (start i : nat) : str := take (S i - start) (drop start s).

Section Split.
Context `{JsonText}.

(** The loop; [None] for a stray closing brace. *)
Fixpoint split_walk (s rest : str) (i : nat) (l : Lex) (slice_start : option nat) (out : list json)
    : option (list json) :=
  match rest with
  | [] => Some out
  | c :: rest' =>
      let l' := lex_char l c in
      if opens l c then
        split_walk s rest' (S i) l' (if (depth l =? 0)%Z then Some i else slice_start) out
      else if closes l c then
        if (depth l' <? 0)%Z then None
        else if (depth l' =? 0)%Z then
          match slice_start with
          | Some start =>
              match parse_json (slice s start i) with
              | Ok v => split_walk s rest' (S i) l' None (out ++ [v])
              | Err _ => split_walk s rest' (S i) l' None out
              end
          | None => split_walk s rest' (S i) l' None out
          end
        else split_walk s rest' (S i) l' slice_start out
      else split_walk s rest' (S i) l' slice_start out
  end.

Definition split_concatenated_json (s : str) : list json :=
  let trimmed := trim s in
  if bool_decide (trimmed = []) then []
  else match parse_json trimmed with
  | Ok v => [v]
  | Err _ =>
      match split_walk trimmed trimmed 0 (mkLex 0 false false) None [] with
      | None | Some [] => [JStr s]
      | Some out => out
      end
  end.
End Split.

(** ** The accumulator *)

(** Identifier, name and argument text for each index. *)
Abbreviation ToolCallAccumulator := (gmap N (str * str * str)).

Definition accumulate (acc : ToolCallAccumulator) (index : N) (id : str) (name args : option str)
    : ToolCallAccumulator :=
  let '(id0, name0, args0) := unwrap_or (id, [], []) (acc !! index) in
  <[index := (if bool_decide (id = []) then id0 else id,
              unwrap_or name0 name,
              args0 ++ unwrap_or [] args)]> acc.

Definition is_empty (acc : ToolCallAccumulator) : bool := bool_decide (acc = ∅).

(** The identifiers that were seen, and the counter of the suffixes. *)
Record Seen := mkSeen { seen_ids : gset str; next_suffix : N }.

Definition emit_call (st : Seen) (id name : str) (arg : json) : Seen * ToolInvocation :=
  if bool_decide (id ∈ seen_ids st) then
    let next := (next_suffix st + 1)%N in
    (mkSeen (seen_ids st) next, mkCall (id ++ "__" ++ show_N next) name arg)
  else (mkSeen ({[id]} ∪ seen_ids st) (next_suffix st), mkCall id name arg).

Fixpoint emit_args (st : Seen) (id name : str) (args : list json) : Seen * list ToolInvocation :=
  match args with
  | [] => (st, [])
  | arg :: args' =>
      let '(st1, tc) := emit_call st id name arg in
      let '(st2, tcs) := emit_args st1 id name args' in (st2, tc :: tcs)
  end.

Section Drain.
Context `{JsonText}.

Definition call_args (name args_json : str) : list json :=
  if bool_decide (trim args_json = []) then
    if bool_decide (name = []) then [] else [JObj []]
  else split_concatenated_json args_json.

Fixpoint emit_calls (st : Seen) (l : list (N * (str * str * str))) : list ToolInvocation :=
  match l with
  | [] => []
  | (_, (id, name, args_json)) :: l' =>
      let '(st', tcs) := emit_args st id name (call_args name args_json) in
      tcs ++ emit_calls st' l'
  end.

(** The calls by index; the accumulator is empty afterwards. *)
Definition drain (acc : ToolCallAccumulator) : list ToolInvocation * ToolCallAccumulator :=
  (emit_calls (mkSeen ∅ 0) (sort_by fst (map_to_list acc)), ∅).
End Drain.

(** ** DSML markup *)

Definition ascii_invoke : str := "<|DSML|invoke ".
Definition full_invoke : str := "<｜DSML｜invoke ".
Definition ascii_invoke_close : str := "</|DSML|invoke>".
Definition full_invoke_close : str := "</｜DSML｜invoke>".
Definition ascii_parameter : str := "<|DSML|parameter ".
Definition full_parameter : str := "<｜DSML｜parameter ".
Definition ascii_parameter_close : str := "</|DSML|parameter>".
Definition full_parameter_close : str := "</｜DSML｜parameter>".

(** The loop over the characters of a quoted value. *)
Fixpoint quoted_value (quote : char) (escaped : bool) (value s : str) : option str :=
  match s with
  | [] => None
  | ch :: s' =>
      if escaped then quoted_value quote false (value ++ [ch]) s'
      else if (ch =? chr "\")%N && (quote =? 34)%N then quoted_value quote true value s'
      else if (ch =? quote)%N then Some value
      else quoted_value quote false (value ++ [ch]) s'
  end.

Definition parse_name_attr (tag : str) : option str :=
  match find_sub "name=" tag with
  | None => None
  | Some idx =>
      match drop (idx + 5) tag with
      | [] => None
      | quote :: rest =>
          if negb (quote =? 34)%N && negb (quote =? 39)%N then None
          else quoted_value quote false [] rest
      end
  end.

(** An opening tag in a text: what is before it, the tag without its body, what is after. *)
Record Tag := mkTag { before : str; tag_text : str; after_tag : str }.

(** The tag runs from its start to the next [>]; [None] where there is none. *)
Definition cut_tag (content : str) (start open_len : nat) : option Tag :=
  let after := drop (start + open_len) content in
  match find_sub ">" after with
  | None => None
  | Some close => Some (mkTag (take start content) (drop start (take (start + open_len + close + 1) content))
                          (drop (close + 1) after))
  end.

(** The scan for either spelling, the ASCII one first. *)
Fixpoint invoke_at (content : str) : option (nat * nat) :=
  if starts_with content ascii_invoke then Some (0, length ascii_invoke)
  else if starts_with content full_invoke then Some (0, length full_invoke)
  else match content with
       | [] => None
       | _ :: content' => (fun p => (S p.1, p.2)) <$> invoke_at content'
       end.

Definition find_invoke_open (content : str) : option (Tag * option str) :=
  match invoke_at content with
  | None => None
  | Some (start, open_len) =>
      match cut_tag content start open_len with
      | Some tag => Some (tag, parse_name_attr (tag_text tag))
      | None => None
      end
  end.

(** The first of two closing tags: the text before it and after it. *)
Definition find_either (content ascii full : str) : option nat :=
  match find_sub ascii content, find_sub full content with
  | Some a, Some f => Some (min a f)
  | Some a, None => Some a
  | None, Some f => Some f
  | None, None => None
  end.
Definition find_close (content ascii full : str) : option (str * str) :=
  match find_either content ascii full with
  | None => None
  | Some start =>
      let len := if starts_with (drop start content) ascii then length ascii else length full in
      Some (take start content, drop (start + len) content)
  end.

Definition find_invoke_close (content : str) : option (str * str) :=
  find_close content ascii_invoke_close full_invoke_close.
Definition find_parameter_close (content : str) : option (str * str) :=
  find_close content ascii_parameter_close full_parameter_close.

Definition find_parameter_open (content : str) : option (Tag * str) :=
  match find_either content ascii_parameter full_parameter with
  | None => None
  | Some start =>
      let open_len := if starts_with (drop start content) ascii_parameter
                      then length ascii_parameter else length full_parameter in
      match cut_tag content start open_len with
      | None => None
      | Some tag => (fun name => (tag, name)) <$> parse_name_attr (tag_text tag)
      end
  end.

Section Markup.
Context `{JsonText}.

Definition parameter_value (text : str) : json :=
  let value := trim text in
  match parse_json value with Ok v => v | Err _ => JStr value end.

Fixpoint parameters_loop (fuel : nat) (inner : str) (map : list (str * json)) : list (str * json) :=
  match fuel with
  | O => map
  | S fuel' =>
      match find_parameter_open inner with
      | None => map
      | Some (param, name) =>
          match find_parameter_close (after_tag param) with
          | None => map
          | Some (text, rest) => parameters_loop fuel' rest (insert_member name (parameter_value text) map)
          end
      end
  end.
Definition parse_parameters (inner : str) : json := JObj (parameters_loop (S (length inner)) inner []).

Fixpoint extract_loop (fuel : nat) (content cleaned : str) (calls : list ToolInvocation)
    : str * list ToolInvocation :=
  match fuel with
  | O => (cleaned ++ content, calls)
  | S fuel' =>
      match find_invoke_open content with
      | None => (cleaned ++ content, calls)
      | Some (tag, name) =>
          let cleaned' := cleaned ++ before tag in
          let from_tag := drop (length (before tag)) content in
          match name with
          | None => (cleaned' ++ from_tag, calls)
          | Some tool_name =>
              match find_invoke_close (after_tag tag) with
              | None => (cleaned' ++ from_tag, calls)
              | Some (inner, rest) =>
                  let call := mkCall ("dsml_" ++ show_nat (length calls)) tool_name (parse_parameters inner) in
                  extract_loop fuel' rest cleaned' (calls ++ [call])
              end
          end
      end
  end.

Definition extract_dsml_tool_calls (content : str) : str * list ToolInvocation :=
  extract_loop (S (length content)) content [] [].
End Markup.

(** ** Proofs: concatenated objects *)

Abbreviation lex := (foldl lex_char).
Definition lex_start : Lex := mkLex 0 false false.

(** From a state inside an object: the text ends it, and not before its last character. *)
Definition closes_object (l : Lex) (r : str) : Prop :=
  lex l r = lex_start /\ (0 < depth l)%Z /\ forall a c b, r = a ++ c :: b -> (0 < depth (lex l a))%Z.

(** One object: an opening brace and what closes it. *)
Definition object_text (t : str) : Prop := exists r, t = chr "{" :: r /\ closes_object (lex_char lex_start (chr "{")) r.

Lemma closes_cons l c r :
  closes_object l (c :: r) ->
  r = [] /\ lex_char l c = lex_start \/ r <> [] /\ closes_object (lex_char l c) r.
Proof.
  intros (He & Hd & Hp). destruct r as [|d r]; [by left|right]. split; [done|]. split; [done|].
  split; [by apply (Hp [c] d r)|]. intros a x b Hr. apply (Hp (c :: a) x b). by rw Hr.
Qed.

Lemma last_closes l c : (0 < depth l)%Z -> lex_char l c = lex_start -> closes l c = true /\ opens l c = false /\ c = chr "}".
Proof.
  unfold lex_start, lex_char, closes, opens. destruct l as [d ins es]. cbn [depth in_str escape].
  destruct es; [intros ? [= ? ?]; lia|]. destruct ins.
  - destruct (c =? chr "\")%N; [done|]. destruct (c =? 34)%N; intros ? [= ?]; lia.
  - destruct (c =? 34)%N eqn:E1; [done|]. destruct (c =? chr "{")%N eqn:E2; [intros ? [= ?]; lia|].
    destruct (c =? chr "}")%N eqn:E3; [|intros ? [= ?]; lia]. intros _ _. apply N.eqb_eq in E3. by subst c.
Qed.

Lemma slice_middle (a t b : str) : t <> [] -> slice (a ++ t ++ b) (length a) (length a + length t - 1) = t.
Proof.
  intros Ht. unfold slice. rw drop_app_length. destruct t as [|c t]; [done|]. cbn [length].
  replace (S (length a + S (length t) - 1) - length a) with (length (c :: t)) by (simpl; lia). by rw take_app_length.
Qed.

Section SplitFacts.
Context `{JsonText}.

Lemma walk_inside s r rest i l start out v :
  closes_object l r -> parse_json (slice s start (i + length r - 1)) = Ok v ->
  split_walk s (r ++ rest) i l (Some start) out = split_walk s rest (i + length r) lex_start None (out ++ [v]).
Proof.
  revert i l. induction r as [|c r IH]; intros i l Hc Hv.
  { destruct Hc as (He & Hd & _). cbn [foldl] in He. by rw He in Hd. }
  pose proof Hc as (_ & Hd & _). apply closes_cons in Hc as [[-> He]|[Hr Hc]].
  - destruct (last_closes l c Hd He) as (Hcl & Hop & _). cbn [app split_walk length]. rw He Hop Hcl /=.
    cbn [length] in Hv. replace (i + 1 - 1) with i in Hv by lia. rw Hv. by rw Nat.add_1_r.
  - cbn [app split_walk]. assert (0 < depth (lex_char l c))%Z as Hd' by (by destruct Hc as (_ & ? & _)).
    assert (split_walk s (r ++ rest) (S i) (lex_char l c) (Some start) out
            = split_walk s rest (i + length (c :: r)) lex_start None (out ++ [v])) as Hgo.
    { rw IH //; [|cbn [length]; by rw Nat.add_succ_r]. cbn [length] in Hv.
      by replace (S i + length r - 1) with (i + S (length r) - 1) by lia. }
    destruct (opens l c).
    + by rw (proj2 (Z.eqb_neq (depth l) 0)); [lia|].
    + destruct (closes l c); [|done]. rw (proj2 (Z.ltb_ge _ 0)); [lia|]. by rw (proj2 (Z.eqb_neq _ 0)); [lia|].
Qed.

Lemma walk_object pre t rest out v :
  object_text t -> parse_json t = Ok v ->
  split_walk (pre ++ t ++ rest) (t ++ rest) (length pre) lex_start None out
  = split_walk (pre ++ t ++ rest) rest (length (pre ++ t)) lex_start None (out ++ [v]).
Proof.
  intros (r & Ht & Hc) Hv. rw {2}Ht. cbn [app split_walk].
  change (opens lex_start (chr "{")) with true. cbv iota. change ((depth lex_start =? 0)%Z) with true. cbv iota.
  rw (walk_inside _ r rest _ _ _ _ v Hc).
  - replace (S (length pre) + length r - 1) with (length pre + length t - 1) by (rw Ht; simpl; lia).
    by rw slice_middle; [rw Ht|].
  - f_equal. rw Ht length_app. simpl. lia.
Qed.

Lemma walk_objects pre ts vs out :
  Forall2 (fun t v => object_text t /\ parse_json t = Ok v) ts vs ->
  split_walk (pre ++ concat ts) (concat ts) (length pre) lex_start None out = Some (out ++ vs).
Proof.
  intros Hf. revert pre out. induction Hf as [|t v ts vs [Ho Hp] Hf IH]; intros pre out; [by rw app_nil_r|].
  cbn [concat]. rw (walk_object pre t (concat ts) out v Ho Hp) app_assoc IH. by rw -app_assoc.
Qed.

Lemma object_ends t : object_text t -> exists q, t = q ++ [chr "}"].
Proof.
  intros (r & -> & Hc). revert Hc. generalize (lex_char lex_start (chr "{")) as l. generalize (chr "{") as x.
  induction r as [|c r IH]; intros x l Hc.
  { destruct Hc as (He & Hd & _). cbn [foldl] in He. by rw He in Hd. }
  pose proof Hc as (_ & Hd & _). apply closes_cons in Hc as [[-> He]|[Hr Hc]].
  - destruct (last_closes l c Hd He) as (_ & _ & ->). by exists [x].
  - destruct (IH c _ Hc) as [q Hq]. exists (x :: q). by rw Hq.
Qed.

Lemma trim_between c q d : is_whitespace c = false -> is_whitespace d = false -> trim (c :: q ++ [d]) = c :: q ++ [d].
Proof.
  intros Hc Hd. unfold trim, trim_end. cbn [trim_start]. rw Hc app_comm_cons rev_app_distr. cbn [rev app trim_start].
  by rw Hd /= rev_app_distr rev_involutive.
Qed.

Lemma trim_objects ts : Forall object_text ts -> trim (concat ts) = concat ts.
Proof.
  destruct ts as [|t ts _] using rev_ind; [done|]. intros [Hts [Ht _]%Forall_cons]%Forall_app.
  destruct (object_ends t Ht) as [q ->]. rw concat_app. cbn [concat]. rw app_nil_r.
  assert (exists r, concat ts ++ q ++ [chr "}"] = chr "{" :: r ++ [chr "}"]) as [r ->].
  { destruct Hts as [|t' ts (r & -> & _) _]; cbn [concat app].
    - destruct Ht as (r & Hr & Hc). destruct q as [|x q]; [|injection Hr as -> _; by exists q].
      injection Hr as _ <-. destruct Hc as (He & Hd & _). cbn [foldl] in He. by rw He in Hd.
    - exists (r ++ concat ts ++ q). by rw -!app_assoc. }
  by apply trim_between.
Qed.

(** Argument objects that arrive concatenated are taken apart again: a text made of
    objects that parse, and is itself no JSON, gives the values of the objects in order. *)
Lemma split_concatenated_objects ts vs e :
  Forall2 (fun t v => object_text t /\ parse_json t = Ok v) ts vs ->
  vs <> [] -> parse_json (concat ts) = Err e -> split_concatenated_json (concat ts) = vs.
Proof.
  intros Hf Hn He. unfold split_concatenated_json.
  rw trim_objects; [by eapply Forall2_Forall_l; [exact Hf|]; apply Forall_true; intros v t [? _]|].
  case_bool_decide as Hc.
  - destruct Hf as [|t v ts vs [(r & -> & _) _] _]; [done|]. discriminate Hc.
  - rw He. pose proof (walk_objects [] ts vs [] Hf) as Hw. cbn [app length] in Hw. fold lex_start. rw Hw.
    by destruct vs.
Qed.
End SplitFacts.

(** ** Proofs: drained calls *)

(** The shape of an identifier that was made distinct. *)
Definition suffixed (id : str) : Prop := exists x n, id = x ++ "__" ++ show_N n.

Lemma show_N_digits n : (n < 2 ^ 64)%N -> Forall (fun c => is_ascii_digit c = true) (show_N n).
Proof. intros Hn. exact (parse_digits_all _ _ _ (parse_digits_show n Hn)). Qed.

(** The digits behind the last underscore. *)
Lemma suffix_inj x y n m :
  (n < 2 ^ 64)%N -> (m < 2 ^ 64)%N -> x ++ "__" ++ show_N n = y ++ "__" ++ show_N m -> n = m.
Proof.
  intros Hn Hm He.
  assert (forall (a b d e : str), Forall (fun c => is_ascii_digit c = true) d -> Forall (fun c => is_ascii_digit c = true) e ->
    rev d ++ chr "_" :: a = rev e ++ chr "_" :: b -> rev d = rev e) as Hrev.
  { intros a b d e Hd He'. apply Forall_rev in Hd, He'. revert Hd He'. generalize (rev d) as d', (rev e) as e'.
    intros d' e' Hd. revert e'. induction Hd as [|c d' Hc _ IH]; intros [|c' e'] He' Heq; try done; cbn [app] in Heq.
    - injection Heq as <- _. by apply Forall_cons in He' as [? _].
    - injection Heq as -> _. done.
    - injection Heq as <- Heq. f_equal. apply IH; [by apply Forall_cons in He' as [_ ?]|done]. }
  pose proof (f_equal (@rev N) He) as Hr. rw !rev_app_distr in Hr.
  change (rev (lit "__")) with [chr "_"; chr "_"] in Hr. rw -!app_assoc in Hr.
  apply Hrev in Hr; [|by apply show_N_digits..]. apply (f_equal (@rev N)) in Hr. rw !rev_involutive in Hr.
  pose proof (parse_digits_show n Hn) as Hp. rw Hr parse_digits_show // in Hp. by injection Hp.
Qed.

(** Identifiers used so far: those seen, and those with a suffix up to the counter. *)
Definition issued (st : Seen) (id : str) : Prop :=
  id ∈ seen_ids st \/ exists x n, (1 <= n <= next_suffix st)%N /\ id = x ++ "__" ++ show_N n.

Lemma emit_call_fresh st id name arg st' tc :
  (next_suffix st + 1 < 2 ^ 64)%N -> ~ suffixed id -> (forall i, i ∈ seen_ids st -> ~ suffixed i) ->
  emit_call st id name arg = (st', tc) ->
  ~ issued st (call_id tc) /\ issued st' (call_id tc) /\ (forall i, issued st i -> issued st' i)
  /\ (forall i, i ∈ seen_ids st' -> ~ suffixed i) /\ (next_suffix st' <= next_suffix st + 1)%N
  /\ call_name tc = name /\ arguments tc = arg.
Proof.
  intros Hn Hid Hs. unfold emit_call, issued. case_bool_decide as Hin; intros [= <- <-];
    cbn [call_id call_name arguments seen_ids next_suffix].
  - split; [|split; [right; by eexists _, _; split; [|done]; lia|]].
    + intros [Hi|(x & n & Hx & He)]; [by apply Hs in Hi; apply Hi; eexists _, _|].
      apply suffix_inj in He; lia.
    + split; [|split; [done|split; [lia|done]]]. intros i [Hi|(x & n & Hx & ->)]; [by left|right].
      exists x, n. split; [lia|done].
  - split; [|split; [left; set_solver|]].
    + intros [Hi|(x & n & _ & He)]; [done|]. apply Hid. by exists x, n.
    + split; [|split; [|split; [lia|done]]].
      * intros i [Hi|(x & n & Hx & ->)]; [left; set_solver|right]. by exists x, n.
      * intros i [->%elem_of_singleton|Hi]%elem_of_union; [done|by apply Hs].
Qed.

Lemma emit_args_fresh st id name args st' tcs :
  (next_suffix st + N.of_nat (length args) < 2 ^ 64)%N -> ~ suffixed id -> (forall i, i ∈ seen_ids st -> ~ suffixed i) ->
  emit_args st id name args = (st', tcs) ->
  NoDup (map call_id tcs) /\ Forall (fun tc => ~ issued st (call_id tc) /\ issued st' (call_id tc)) tcs
  /\ (forall i, issued st i -> issued st' i) /\ (forall i, i ∈ seen_ids st' -> ~ suffixed i)
  /\ (next_suffix st' <= next_suffix st + N.of_nat (length args))%N
  /\ map (fun tc => (call_name tc, arguments tc)) tcs = map (pair name) args.
Proof.
  revert st st' tcs. induction args as [|arg args IH]; intros st st' tcs Hn Hid Hs; cbn [emit_args].
  { intros [= <- <-]. split; [constructor|]. split; [constructor|]. split; [done|]. split; [done|]. split; [simpl; lia|done]. }
  destruct (emit_call st id name arg) as [st1 tc] eqn:E1. destruct (emit_args st1 id name args) as [st2 tcs'] eqn:E2.
  intros [= <- <-]. cbn [length] in Hn. apply emit_call_fresh in E1 as (H1 & H2 & H3 & H4 & H5 & H6 & H7); [|lia|done|done].
  destruct (IH st1 st2 tcs') as (G1 & G2 & G3 & G4 & G5 & G6); [lia|done|done|done|].
  split; [|split; [|split; [by auto|split; [done|split; [simpl; lia|cbn [map]; by rw H6 H7 G6]]]]].
  - cbn [map]. apply NoDup_cons. split; [|done]. intros (tc' & He & Hin)%list_elem_of_fmap.
    rw Forall_forall in G2. apply G2 in Hin as [Hn' _]. rw -He in Hn'. done.
  - constructor; [by auto|]. eapply Forall_impl; [exact G2|]. intros tc' [Ha Hb]. split; [|done]. by intros ?%H3.
Qed.

Section DrainFacts.
Context `{JsonText}.

Definition args_total (l : list (N * (str * str * str))) : N :=
  foldr (fun e n => (N.of_nat (length (call_args e.2.1.2 e.2.2)) + n)%N) 0%N l.

Lemma emit_calls_fresh st l :
  (next_suffix st + args_total l < 2 ^ 64)%N -> Forall (fun e => ~ suffixed e.2.1.1) l ->
  (forall i, i ∈ seen_ids st -> ~ suffixed i) ->
  NoDup (map call_id (emit_calls st l)) /\ Forall (fun tc => ~ issued st (call_id tc)) (emit_calls st l)
  /\ map (fun tc => (call_name tc, arguments tc)) (emit_calls st l)
     = l ≫= fun e => map (pair e.2.1.2) (call_args e.2.1.2 e.2.2).
Proof.
  revert st. induction l as [|[k [[id name] args]] l IH]; intros st Hn Hl Hs; [by repeat split; constructor|].
  cbn [emit_calls args_total foldr fst snd] in *. fold (args_total l) in Hn. apply Forall_cons in Hl as [Hid Hl]. cbn [fst snd] in Hid.
  destruct (emit_args st id name (call_args name args)) as [st' tcs] eqn:E.
  apply emit_args_fresh in E as (G1 & G2 & G3 & G4 & G5 & G6); [|lia|done|done].
  destruct (IH st') as (I1 & I2 & I3); [lia|done|done|].
  split; [|split].
  - rw map_app. apply NoDup_app. split; [done|]. split; [|done].
    intros x (tc & -> & Htc)%list_elem_of_fmap (tc' & He & Htc')%list_elem_of_fmap.
    rw !Forall_forall in G2 I2. apply G2 in Htc as [_ Hi]. apply I2 in Htc'. by rw -He in Htc'.
  - apply Forall_app. split; [eapply Forall_impl; [exact G2|]; by intros tc [? _]|].
    eapply Forall_impl; [exact I2|]. intros tc Hi. by intros ?%G3.
  - rw map_app G6 I3. done.
Qed.

(** Draining the accumulator gives, in the order of the indices, one call for every
    argument object, with the name of its entry; the identifiers are all distinct where no
    entry came with an identifier that already has the shape of a suffixed one. *)
Lemma drain_spec acc :
  let entries := sort_by fst (map_to_list acc) in
  (args_total entries < 2 ^ 64)%N -> (forall k e, acc !! k = Some e -> ~ suffixed e.1.1) ->
  let calls := (drain acc).1 in
  NoDup (map call_id calls)
  /\ map (fun tc => (call_name tc, arguments tc)) calls = (entries ≫= fun e => map (pair e.2.1.2) (call_args e.2.1.2 e.2.2))
  /\ StronglySorted (fun a b => a.1 <= b.1)%N entries /\ Permutation entries (map_to_list acc)
  /\ is_empty (drain acc).2 = true.
Proof.
  intros entries Hn Hs calls. unfold calls, drain. cbn [fst snd].
  destruct (emit_calls_fresh (mkSeen ∅ 0) entries) as (H1 & _ & H3).
  - done.
  - unfold entries. apply Forall_forall. intros [k e]. rw sort_by_perm elem_of_map_to_list. apply Hs.
  - cbn [seen_ids]. by intros i Hi%not_elem_of_empty.
  - split; [done|]. split; [done|]. split; [apply sort_by_sorted|]. split; [apply sort_by_perm|].
    by apply bool_decide_eq_true_2.
Qed.
End DrainFacts.

(** ** Proofs: markup *)

(** The first occurrence of [p] is not in [u], whatever follows. *)
Definition skips (p u : str) : Prop := forall w, find_sub p (u ++ w) = (fun j => length u + j) <$> find_sub p w.

Lemma skips_nil p : skips p [].
Proof. intros w. cbn [app]. by destruct (find_sub p w). Qed.

Lemma skips_cons p c u : (forall w, starts_with (c :: u ++ w) p = false) -> skips p u -> skips p (c :: u).
Proof. intros Hs Hu w. cbn [app find_sub]. rw Hs Hu. by destruct (find_sub p w). Qed.

Lemma skips_app p u v : skips p u -> skips p v -> skips p (u ++ v).
Proof.
  intros Hu Hv w. rw -app_assoc Hu Hv length_app. destruct (find_sub p w); [|done].
  cbn. f_equal. lia.
Qed.

Lemma starts_with_neq c x s p : c <> x -> starts_with (c :: s) (x :: p) = false.
Proof. intros Hn. cbn [starts_with]. destruct (N.eqb_spec x c); [by subst|]. by destruct (N.eqb_spec c x). Qed.

Lemma skips_without x p u : x ∉ u -> skips (x :: p) u.
Proof.
  induction u as [|c u IH]; [intros _; apply skips_nil|]. intros [Hc Hu]%not_elem_of_cons.
  apply skips_cons; [|by apply IH]. intros w. apply starts_with_neq. congruence.
Qed.

Lemma skips_tag p u : head p = Some (chr "<") -> chr "<" ∉ u -> skips p u.
Proof. destruct p as [|x p]; [done|]. intros [= ->]. apply skips_without. Qed.

Lemma find_sub_at_head p w : find_sub p (p ++ w) = Some 0.
Proof.
  assert (starts_with (p ++ w) p = true) as Hs by (apply starts_with_spec; by exists w).
  destruct (p ++ w) as [|c s] eqn:E; cbn [find_sub]; by rw Hs.
Qed.

Lemma find_sub_skip p u w : skips p u -> find_sub p (u ++ p ++ w) = Some (length u).
Proof. intros Hs. rw Hs find_sub_at_head. cbn. by rw Nat.add_0_r. Qed.

Lemma find_either_skip ascii full u w :
  skips ascii u -> skips full u -> find_either (u ++ ascii ++ w) ascii full = Some (length u).
Proof.
  intros Ha Hf. unfold find_either. rw find_sub_skip // Hf. destruct (find_sub full _) as [j|]; [|done].
  cbn. f_equal. lia.
Qed.

Lemma find_close_skip ascii full u w :
  skips ascii u -> skips full u -> find_close (u ++ ascii ++ w) ascii full = Some (u, w).
Proof.
  intros Ha Hf. unfold find_close. rw find_either_skip // drop_app_length take_app_length.
  assert (starts_with (ascii ++ w) ascii = true) as -> by (apply starts_with_spec; by exists w).
  by rw app_assoc -length_app drop_app_length.
Qed.

(** *** Printing *)

Definition quoted (name : str) : str := dquote ++ name ++ dquote.
Definition show_parameter (p : str * str) : str :=
  ascii_parameter ++ "name=" ++ quoted p.1 ++ ">" ++ p.2 ++ ascii_parameter_close.
Definition show_invoke (c : str * list (str * str)) : str :=
  ascii_invoke ++ "name=" ++ quoted c.1 ++ ">" ++ concat (map show_parameter c.2) ++ ascii_invoke_close.
Definition show_markup (segments : list (str * (str * list (str * str)))) (tail : str) : str :=
  concat (map (fun s => s.1 ++ show_invoke s.2) segments) ++ tail.

(** Names without quotes, backslashes and [>]; texts without [<]. *)
Definition plain_name (s : str) : Prop := 34%N ∉ s /\ chr "\" ∉ s /\ chr ">" ∉ s /\ chr "<" ∉ s.
Definition plain_text (s : str) : Prop := chr "<" ∉ s.
Definition plain_call (c : str * list (str * str)) : Prop :=
  plain_name c.1 /\ Forall (fun p => plain_name p.1 /\ plain_text p.2) c.2.

Lemma quoted_value_plain v name r :
  34%N ∉ name -> chr "\" ∉ name -> quoted_value 34 false v (name ++ 34%N :: r) = Some (v ++ name).
Proof.
  revert v. induction name as [|c name IH]; intros v Hq Hb; [by rw app_nil_r|].
  apply not_elem_of_cons in Hq as [Hq Hq'], Hb as [Hb Hb']. cbn [app quoted_value].
  rw (proj2 (N.eqb_neq c (chr "\"))); [congruence|]. rw (proj2 (N.eqb_neq c 34)); [congruence|].
  cbn [andb]. by rw IH // -app_assoc.
Qed.

Lemma parse_name_plain open name :
  plain_name name -> find_sub "name=" (open ++ "name=" ++ quoted name ++ ">") = Some (length open) ->
  parse_name_attr (open ++ "name=" ++ quoted name ++ ">") = Some name.
Proof.
  intros (Hq & Hb & _) Hf. unfold parse_name_attr. rw Hf -drop_drop drop_app_length.
  change (drop 5 (lit "name=" ++ quoted name ++ lit ">")) with (34%N :: (name ++ dquote) ++ lit ">"). rw -app_assoc. cbn [N.eqb negb andb].
  by rw (quoted_value_plain [] name (lit ">")).
Qed.

Lemma cut_tag_plain u open name w :
  plain_name name ->
  cut_tag (u ++ open ++ "name=" ++ quoted name ++ ">" ++ w) (length u) (length open)
  = Some (mkTag u (open ++ "name=" ++ quoted name ++ ">") w).
Proof.
  intros (_ & _ & Hg & _). unfold cut_tag. rw -drop_drop !drop_app_length.
  assert (skips ">" ("name=" ++ quoted name)) as Hs.
  { apply skips_without. unfold quoted. rw !elem_of_app. intros [Hin|[Hin|[Hin|Hin]]]; [|by apply list_elem_of_singleton in Hin|done|by apply list_elem_of_singleton in Hin].
    revert Hin. by apply (bool_decide_unpack (chr ">" ∉ lit "name=")). }
  rw (app_assoc (lit "name=")) find_sub_skip // take_app_length.
  set (body := lit "name=" ++ quoted name). f_equal. f_equal.
  - assert (take (length u + length open + length body + 1) (u ++ open ++ body ++ lit ">" ++ w)
            = u ++ open ++ body ++ lit ">") as ->.
    { replace (length u + length open + length body + 1) with (length (u ++ open ++ body ++ lit ">"))
        by (rw !length_app; change (length (lit ">")) with 1; lia).
      assert (u ++ open ++ body ++ lit ">" ++ w = (u ++ open ++ body ++ lit ">") ++ w) as -> by (by rw -!app_assoc).
      apply take_app_length. }
    rw drop_app_length. unfold body. by rw -app_assoc.
  - by rw -drop_drop drop_app_length.
Qed.

Section MarkupFacts.
Context `{JsonText}.

Definition parameters_of (ps : list (str * str)) (m : list (str * json)) : list (str * json) :=
  fold_left (fun m p => insert_member p.1 (parameter_value p.2) m) ps m.

Lemma parameters_loop_plain fuel ps m :
  Forall (fun p => plain_name p.1 /\ plain_text p.2) ps -> length ps < fuel ->
  parameters_loop fuel (concat (map show_parameter ps)) m = parameters_of ps m.
Proof.
  intros Hp. revert fuel m. induction Hp as [|[name value] ps [Hn Ht] Hp IH]; intros [|fuel] m Hf; try (simpl in Hf; lia); [done|].
  cbn [map concat fst snd] in *. set (rest := concat (map show_parameter ps)) in *.
  unfold show_parameter. cbn [fst snd].
  assert ((ascii_parameter ++ "name=" ++ quoted name ++ ">" ++ value ++ ascii_parameter_close) ++ rest
          = [] ++ ascii_parameter ++ "name=" ++ quoted name ++ ">" ++ value ++ ascii_parameter_close ++ rest) as ->
    by (by rw -!app_assoc).
  cbn [parameters_loop]. unfold find_parameter_open.
  rw (find_either_skip ascii_parameter full_parameter []); [apply skips_nil|apply skips_nil|].
  cbn [length]. assert (forall w, starts_with (drop 0 ([] ++ ascii_parameter ++ w)) ascii_parameter = true) as Hst
    by (intros w; apply starts_with_spec; by exists w).
  rw Hst (cut_tag_plain [] ascii_parameter name) //. cbn [tag_text fmap option_fmap option_map].
  rw parse_name_plain //. cbn [fmap option_fmap option_map after_tag]. unfold find_parameter_close.
  rw (find_close_skip ascii_parameter_close full_parameter_close value rest
    (skips_tag ascii_parameter_close value eq_refl Ht) (skips_tag full_parameter_close value eq_refl Ht)).
  cbn [length] in Hf. rw IH; [lia|]. done.
Qed.

(** The parameters hold no closing tag of a call. *)
Lemma parameters_skip_close ps :
  Forall (fun p => plain_name p.1 /\ plain_text p.2) ps ->
  skips ascii_invoke_close (concat (map show_parameter ps)) /\ skips full_invoke_close (concat (map show_parameter ps)).
Proof.
  intros Hp.
  assert (forall close : str, (close = ascii_invoke_close \/ close = full_invoke_close) -> skips close (concat (map show_parameter ps))) as Hs;
    [|by split; apply Hs; auto].
  intros close Hc. induction Hp as [|[name value] ps [(_ & _ & _ & Hn) Ht] Hp IH]; [apply skips_nil|].
  cbn [map concat]. apply skips_app; [|done]. unfold show_parameter. cbn [fst snd].
  assert (forall u, chr "<" ∉ u -> skips close u) as Hplain.
  { intros u Hu. destruct Hc as [-> | ->]; by apply skips_tag. }
  assert (forall u, (forall w, starts_with (chr "<" :: u ++ w) close = false) -> chr "<" ∉ u -> skips close (chr "<" :: u)) as Htag.
  { intros u H1 H2. apply skips_cons; [done|by apply Hplain]. }
  apply skips_app.
  { apply (Htag (lit "|DSML|parameter ")); [by destruct Hc as [-> | ->]|by apply (bool_decide_unpack _)]. }
  apply skips_app; [apply Hplain; by apply (bool_decide_unpack _)|].
  apply skips_app.
  { apply Hplain. unfold quoted. rw !elem_of_app.
    intros [Hin|[Hin|Hin]]; [by apply list_elem_of_singleton in Hin|done|by apply list_elem_of_singleton in Hin]. }
  apply skips_app; [apply Hplain; by apply (bool_decide_unpack _)|].
  apply skips_app; [by apply Hplain|].
  apply (Htag (lit "/|DSML|parameter>")); [by destruct Hc as [-> | ->]|by apply (bool_decide_unpack _)].
Qed.

Lemma invoke_at_plain t w : plain_text t -> invoke_at (t ++ ascii_invoke ++ w) = Some (length t, length ascii_invoke).
Proof.
  induction t as [|c t IH]; [done|]. intros [Hc Ht]%not_elem_of_cons. cbn [app invoke_at].
  assert (forall s p, starts_with (c :: s) (chr "<" :: p) = false) as Hs
    by (intros s p; apply starts_with_neq; congruence).
  assert (starts_with (c :: t ++ ascii_invoke ++ w) ascii_invoke = false) as -> by apply Hs.
  assert (starts_with (c :: t ++ ascii_invoke ++ w) full_invoke = false) as -> by apply Hs.
  by rw IH.
Qed.

Lemma invoke_at_none t : plain_text t -> invoke_at t = None.
Proof.
  induction t as [|c t IH]; [done|]. intros [Hc Ht]%not_elem_of_cons. cbn [invoke_at].
  assert (forall s p, starts_with (c :: s) (chr "<" :: p) = false) as Hs
    by (intros s p; apply starts_with_neq; congruence).
  assert (starts_with (c :: t) ascii_invoke = false) as -> by apply Hs.
  assert (starts_with (c :: t) full_invoke = false) as -> by apply Hs. by rw IH.
Qed.

(** The calls of the segments, numbered from [n]. *)
Fixpoint calls_of (n : nat) (segments : list (str * (str * list (str * str)))) : list ToolInvocation :=
  match segments with
  | [] => []
  | (_, (name, ps)) :: segments' =>
      mkCall ("dsml_" ++ show_nat n) name (JObj (parameters_of ps [])) :: calls_of (S n) segments'
  end.

Lemma parameter_count ps : length ps <= length (concat (map show_parameter ps)).
Proof.
  induction ps as [|p ps IH]; [simpl; lia|]. cbn [map concat length]. rw length_app.
  assert (1 <= length (show_parameter p)); [|lia].
  unfold show_parameter. rw length_app. change (length ascii_parameter) with 17. lia.
Qed.

Lemma extract_loop_plain fuel segments tail cleaned calls :
  Forall (fun s => plain_text s.1 /\ plain_call s.2) segments -> plain_text tail -> length segments < fuel ->
  extract_loop fuel (show_markup segments tail) cleaned calls
  = (cleaned ++ concat (map fst segments) ++ tail, calls ++ calls_of (length calls) segments).
Proof.
  intros Hs Ht. revert fuel cleaned calls.
  induction Hs as [|[t [name ps]] segments [Htx [Hn Hp]] Hs IH]; intros [|fuel] cleaned calls Hf; try (simpl in Hf; lia).
  - unfold show_markup. cbn [map concat app extract_loop calls_of]. unfold find_invoke_open.
    rw invoke_at_none //. by rw app_nil_r.
  - unfold show_markup. cbn [map concat fst snd] in *. fold (show_markup segments tail) in *.
    set (inner := concat (map show_parameter ps)).
    assert (((t ++ show_invoke (name, ps)) ++ concat (map (fun s => s.1 ++ show_invoke s.2) segments)) ++ tail
            = t ++ ascii_invoke ++ "name=" ++ quoted name ++ ">" ++ inner ++ ascii_invoke_close ++ show_markup segments tail) as ->
      by (unfold show_invoke, show_markup; cbn [fst snd]; by rw -!app_assoc).
    cbn [extract_loop]. unfold find_invoke_open. rw invoke_at_plain // cut_tag_plain //. cbn [tag_text].
    rw parse_name_plain //. cbn [before after_tag]. unfold find_invoke_close.
    destruct (parameters_skip_close ps Hp) as [Ha Hf']. rw find_close_skip //.
    unfold parse_parameters. rw parameters_loop_plain //; [pose proof (parameter_count ps); unfold inner; lia|].
    cbn [length] in Hf. rw IH; [lia|]. cbn [calls_of]. rw length_app Nat.add_1_r -!app_assoc. done.
Qed.

(** Markup that was printed is read back: the text between the calls is left, and each
    call comes with its name, its number and its parameters, sorted by name. *)
Lemma markup_roundtrip segments tail :
  Forall (fun s => plain_text s.1 /\ plain_call s.2) segments -> plain_text tail ->
  extract_dsml_tool_calls (show_markup segments tail) = (concat (map fst segments) ++ tail, calls_of 0 segments).
Proof.
  intros Hs Ht. unfold extract_dsml_tool_calls. rw extract_loop_plain //.
  assert (length segments <= length (show_markup segments tail)) as Hl; [|lia].
  clear. unfold show_markup. rw length_app. induction segments as [|s segments IH]; [simpl; lia|].
  cbn [map concat length]. rw !length_app. change (length ascii_invoke) with 14. lia.
Qed.
End MarkupFacts.

(** ** Gaps, and examples *)

Definition demo_calls : JsonText := demo_text [(lit "{}", JObj []); (lit "{1}", JNum (lit "1"))].
#[local] Existing Instance demo_calls.

(** An identifier that was made distinct is not remembered: a later entry that comes with
    it repeats it. *)
Definition colliding : ToolCallAccumulator :=
  accumulate (accumulate (accumulate ∅ 0 "a" (Some (lit "ls")) None) 1 "a" (Some (lit "ls")) None)
    2 "a__1" (Some (lit "ls")) None.
Lemma drained_ids_collide : map call_id (drain colliding).1 = [lit "a"; lit "a__1"; lit "a__1"].
Proof. by vm_compute. Qed.

(** A parameter that is not closed is lost with its call's markup. *)
Lemma unclosed_parameter_eaten :
  extract_dsml_tool_calls (ascii_invoke ++ "name=" ++ quoted "bash" ++ ">" ++ ascii_parameter ++ "name=" ++ quoted "command"
                           ++ ">ls" ++ ascii_invoke_close)
  = ([], [mkCall "dsml_0" "bash" (JObj [])]).
Proof. by vm_compute. Qed.

Lemma object_text_brackets t : (t = lit "{}" \/ t = lit "{1}") -> object_text t.
Proof.
  intros [-> | ->]; eexists; (split; [reflexivity|]); (split; [reflexivity|]); (split; [reflexivity|]); intros a c b Ha.
  - pose proof (f_equal length Ha) as Hl. destruct a as [|x a]; [done|]. rw /= length_app /= in Hl. lia.
  - pose proof (f_equal length Ha) as Hl. destruct a as [|x [|y a]]; [done|by injection Ha as <- _|].
    rw /= length_app /= in Hl. lia.
Qed.

Lemma split_concatenated_objects_witness :
  split_concatenated_json (concat [lit "{}"; lit "{1}"]) = [JObj []; JNum (lit "1")].
Proof.
  apply (split_concatenated_objects [lit "{}"; lit "{1}"] [JObj []; JNum (lit "1")] (lit "expected value")); [|done|by vm_compute].
  repeat constructor; apply object_text_brackets; auto.
Defined.

Definition demo_acc : ToolCallAccumulator :=
  accumulate (accumulate ∅ 1 "a" (Some (lit "ls")) None) 0 "a" (Some (lit "cat")) (Some (lit "{}")).

Lemma drain_spec_witness :
  NoDup (map call_id (drain demo_acc).1) /\ map call_name (drain demo_acc).1 = [lit "cat"; lit "ls"].
Proof.
  assert (forall k e, demo_acc !! k = Some e -> ~ suffixed e.1.1) as Hs.
  { intros k e. unfold demo_acc, accumulate. cbn [unwrap_or]. rw !lookup_insert_Some lookup_empty.
    assert (~ suffixed (lit "a")) as Ha.
    { intros (x & n & He). apply (f_equal length) in He. rw !length_app in He. simpl in He. lia. }
    by intros [[_ <-]|[_ [[_ <-]|[_ ?]]]]. }
  assert (args_total (sort_by fst (map_to_list demo_acc)) < 2 ^ 64)%N as Ht by (vm_compute; reflexivity).
  pose proof (drain_spec demo_acc Ht Hs) as Hd. cbv zeta in Hd.
  split; [exact (proj1 Hd)|vm_compute; reflexivity].
Defined.

Lemma markup_roundtrip_witness :
  let segments := [(lit "run ", (lit "bash", [(lit "command", lit "ls")]))] in
  extract_dsml_tool_calls (show_markup segments "done")
  = (lit "run done", [mkCall "dsml_0" "bash" (JObj [(lit "command", JStr (lit "ls"))])]).
Proof.
  intros segments. unfold segments. etransitivity;
    [apply (markup_roundtrip [(lit "run ", (lit "bash", [(lit "command", lit "ls")]))] (lit "done"))
    |vm_compute; reflexivity]; [|by apply (bool_decide_unpack _)].
  repeat constructor; by apply (bool_decide_unpack _).
Defined.
