(* ===== verification/OpenAi.v ===== *)
(** * The OpenAI-compatible stream

    Models the SSE parser of [src/adapters/openai_compat/mod.rs], on the channel, the
    chunks and the frames of [Streams] and the accumulator of [ToolCalls].  The theorems
    are those all stream parsers share: the events do not depend on how the body is cut
    into chunks, and a stream ends once. *)

From Stdlib Require Import ssreflect.
From S2P Require Import Prelude Names Machine Message Streams ToolCalls.

Open Scope stream_scope.

Record OpenAiState := mkOpenAi {
  pending_tool_calls : ToolCallAccumulator;
  oa_done_emitted : bool;
  pending_usage : option TokenUsage;
  pending_finish : option FinishReason
}.

Definition openai_start : OpenAiState := mkOpenAi ∅ false None None.

Definition set_calls (s : OpenAiState) (acc : ToolCallAccumulator) : OpenAiState :=
  mkOpenAi acc (oa_done_emitted s) (pending_usage s) (pending_finish s).
Definition set_oa_done (s : OpenAiState) : OpenAiState :=
  mkOpenAi (pending_tool_calls s) true (pending_usage s) (pending_finish s).
Definition set_oa_usage (s : OpenAiState) (u : option TokenUsage) : OpenAiState :=
  mkOpenAi (pending_tool_calls s) (oa_done_emitted s) u (pending_finish s).
Definition set_finish (s : OpenAiState) (r : FinishReason) : OpenAiState :=
  mkOpenAi (pending_tool_calls s) (oa_done_emitted s) (pending_usage s) (Some r).

Definition parse_openai_usage (u : json) : TokenUsage :=
  mkUsage (u64_at u [lit "prompt_tokens"] <|> u64_at u [lit "prompt_eval_count"])%rust
    (u64_at u [lit "completion_tokens"] <|> u64_at u [lit "eval_count"])%rust
    (u64_at u [lit "cache_read_input_tokens"]
     <|> u64_at u [lit "prompt_tokens_details"; lit "cached_tokens"])%rust
    (u64_at u [lit "cache_creation_input_tokens"]).

(** [merge_usage]: what the frame reports replaces what was there. *)
Definition merge_pending (pending : option TokenUsage) (frame : TokenUsage) : option TokenUsage :=
  match pending with
  | None => Some frame
  | Some cur => Some (merge_usage cur frame)
  end.

Section OpenAi.
Context `{JsonText}.

(** [send_done_once]. *)
Definition send_done_once (ev : StreamEvent) : M OpenAiState bool :=
  let! s := get in
  if oa_done_emitted s then ret true
  else
    let! ok := send_or_bail ev in
    if ok : bool then do! modify set_oa_done ;; ret true else ret false.

(** The accumulated calls, which leave the accumulator. *)
Definition flush_calls : M OpenAiState unit :=
  let! s := get in
  let '(calls, acc) := drain (pending_tool_calls s) in
  do! put (set_calls s acc) ;;
  send_calls calls.

Definition accumulate_delta (acc : ToolCallAccumulator) (tc : json) : ToolCallAccumulator :=
  accumulate acc (unwrap_or 0%N (json_get tc "index" ≫= as_u64)) (str_at tc "id")
    (get_path tc [lit "function"; lit "name"] ≫= as_str)
    (get_path tc [lit "function"; lit "arguments"] ≫= as_str).

Definition no_parseable_calls : str := "Model emitted tool_calls finish_reason but no parseable tool calls".

Definition finish_frame (reason : str) : M OpenAiState unit :=
  let! s := get in
  do! (if str_eqb reason "tool_calls" && is_empty (pending_tool_calls s) && negb (oa_done_emitted s)
       then send_or_leave (ErrorEvent no_parseable_calls) else ret tt) ;;
  do! flush_calls ;;
  modify (fun s => set_finish s (finish_reason_of reason)).

Definition openai_json (v : json) : M OpenAiState unit :=
  match json_get v "error" with
  | Some err =>
      send_or_leave (ErrorEvent (unwrap_or (lit "API error") (json_get err "message" ≫= as_str)))
  | None =>
      let choice : option json := (json_get v "choices" ≫= as_array) ≫= head in
      let delta : option json := choice ≫= fun c => json_get c "delta" in
      let finish : option json := choice ≫= fun c => json_get c "finish_reason" in
      do! send_text Text (delta ≫= fun d => json_get d "content" ≫= as_str) ;;
      do! match delta ≫= fun d => json_get d "tool_calls" ≫= as_array with
          | Some calls => modify (fun s => set_calls s (fold_left accumulate_delta calls (pending_tool_calls s)))
          | None => ret tt
          end ;;
      do! match json_get v "usage" with
          | Some u => modify (fun s => set_oa_usage s (merge_pending (pending_usage s) (parse_openai_usage u)))
          | None => ret tt
          end ;;
      match finish ≫= as_str with
      | Some reason => finish_frame reason
      | None => ret tt
      end
  end.

(** The end event of [[DONE]] and of the end of the stream. *)
Definition end_event (default : FinishReason) (s : OpenAiState) : StreamEvent :=
  Done (unwrap_or default (pending_finish s)) (pending_usage s).

Definition done_sentinel : M OpenAiState unit :=
  do! flush_calls ;;
  let! s := get in
  let! ok := send_done_once (end_event Stop s) in
  if ok : bool then ret tt else leave.

Definition openai_frame (payload : bytes) : M OpenAiState unit :=
  if bool_decide (payload = []) then ret tt
  else if bool_decide (payload = utf8_encode "[DONE]") then done_sentinel
  else match from_utf8 payload with
  | None => send_or_leave (ErrorEvent ("SSE frame is not valid UTF-8: " ++ utf8_error payload))
  | Some line =>
      match parse_json line with
      | Ok v => openai_json v
      | Err e => send_or_leave (ErrorEvent ("SSE frame contains invalid JSON: " ++ e))
      end
  end.

Definition openai_end : M OpenAiState unit :=
  let! s := get in
  if oa_done_emitted s then ret tt
  else
    do! flush_calls ;;
    do! send_done_once (end_event FinishError s) ;; ret tt.

Definition parse_openai_compat_stream (idle_secs : N) (chunks : list Chunk) : M OpenAiState unit :=
  do! read_chunks (framing := sse_framing) MAX_SSE_BUFFER_BYTES sse_overflow idle_secs openai_frame
        (fun e => send_or_leave (ErrorEvent e)) chunks [] ;;
  openai_end.

Definition run_openai (idle_secs : N) (chunks : list Chunk) (tx : Tx) : list StreamEvent :=
  sent (parse_openai_compat_stream idle_secs chunks openai_start tx).2.
End OpenAi.

(** [OpenAiCompatAdapter::new]: one trailing [/v1] and trailing slashes are dropped. *)
Definition api_base (ollama_host : str) : str :=
  let trimmed := trim_end_matches (chr "/") ollama_host in
  unwrap_or trimmed (strip_suffix trimmed "/v1").

(** ** The end of the stream *)

Section OpenAiEnd.
Context `{JsonText} (leaves : Prop).

Abbreviation fair_oa := (fair_at oa_done_emitted leaves).

Lemma fair_flush_calls s : fair_oa s flush_calls.
Proof.
  unfold flush_calls. apply fair_get. destruct (drain _) as [calls acc]. apply fair_put; [done|]. apply fair_send_calls.
Qed.

(** What happens to the flag and to the channel when the end is sent. *)
Lemma send_done_once_spec r u s tx :
  counted oa_done_emitted s tx ->
  exists ok s' tx', send_done_once (Done r u) s tx = (Some (ok, s'), tx') /\ counted oa_done_emitted s' tx'
    /\ (ok = true -> oa_done_emitted s' = true) /\ (ok = false -> room tx <> None) /\ (room tx = None -> room tx' = None).
Proof.
  intros Hc. unfold send_done_once, send_or_bail, modify, get, put, bind, ret. unfold counted in *.
  destruct (oa_done_emitted s) eqn:E; [by exists true, s, tx; rw E Hc|].
  unfold send. destruct (room tx) as [[|n]|] eqn:Er.
  - exists false, s, tx. by rw E Hc Er.
  - eexists true, _, _. split; [done|]. cbn [oa_done_emitted set_oa_done sent room]. by rw dones_app Hc.
  - eexists true, _, _. split; [done|]. cbn [oa_done_emitted set_oa_done sent room]. by rw dones_app Hc.
Qed.

Lemma fair_done_sentinel s : fair_oa s done_sentinel.
Proof.
  unfold done_sentinel. apply fair_then; [apply fair_flush_calls|]. intros _ s'. apply fair_get.
  intros tx Hc. unfold end_event.
  destruct (send_done_once_spec (unwrap_or Stop (pending_finish s')) (pending_usage s') s' tx Hc) as (ok & s2 & tx2 & He & Hc2 & _ & Hf & Hr).
  unfold bind. rw He. destruct ok; [by split|]. unfold leave. split; [|intros Hn; by destruct (Hf eq_refl)].
  unfold counted in Hc2. rw Hc2. by destruct (oa_done_emitted s2); lia.
Qed.

Lemma fair_openai_frame p s : fair_oa s (openai_frame p).
Proof.
  unfold openai_frame, openai_json, finish_frame, send_text.
  fair; try apply fair_done_sentinel; try apply fair_flush_calls.
Qed.
End OpenAiEnd.

Lemma openai_ends_once `{JsonText} idle_secs chunks n :
  let tx := (parse_openai_compat_stream idle_secs chunks openai_start (mkTx [] n)).2 in
  dones (sent tx) <= 1
  /\ (n = None -> (N.of_nat (chunk_bytes chunks) <= MAX_SSE_BUFFER_BYTES)%N -> dones (sent tx) = 1).
Proof.
  unfold parse_openai_compat_stream, bind.
  pose proof (fair_read (H := sse_laws) oa_done_emitted (MAX_SSE_BUFFER_BYTES < N.of_nat (chunk_bytes chunks))%N
    MAX_SSE_BUFFER_BYTES sse_overflow idle_secs openai_frame (fun e => send_or_leave (ErrorEvent e)) chunks [] openai_start
    (fun p s => fair_openai_frame _ p s)
    (fun e s => fair_send_or_leave _ _ (ErrorEvent e) s I) (fun h => h) (mkTx [] n) eq_refl) as Hr.
  destruct (read_chunks _ _ _ _ _ _ _ _ _) as [[[u s]|] tx]; cbn [snd room] in *; destruct Hr as [H1 H2].
  - unfold openai_end, bind, get. destruct (oa_done_emitted s) eqn:Ed.
    { unfold counted in H1. rw Ed in H1. cbn [ret snd]. by rw H1. }
    pose proof (fair_flush_calls False s tx H1) as Hf. destruct (flush_calls s tx) as [[[u' s']|] tx'].
    + destruct Hf as [Hc Hn].
      destruct (send_done_once_spec (unwrap_or FinishError (pending_finish s)) (pending_usage s) s' tx' Hc)
        as (ok & s2 & tx2 & He & Hc2 & Hok & Hbad & _).
      unfold end_event. rw He. cbn [ret snd]. unfold counted in Hc2. rw Hc2.
      split; [by destruct (oa_done_emitted s2); lia|]. intros Hnone _.
      destruct ok; [by rw Hok|]. destruct (Hbad eq_refl). by apply Hn, H2.
    + destruct Hf as [Hc Hn]. split; [done|]. intros Hnone _. destruct (Hn (H2 Hnone)).
  - split; [done|]. intros Hn Hl. specialize (H2 Hn). lia.
Qed.

(** ** The theorems on all stream parsers *)

(** A stream ends once: whatever the body and whenever the reader goes, at most one end
    event is sent; with a reader that stays and a body within the buffer, exactly one. *)
Lemma streams_end_once `{JsonText} idle_secs chunks n :
  let within := n = None /\ (N.of_nat (chunk_bytes chunks) <= MAX_SSE_BUFFER_BYTES)%N in
  (dones (run_anthropic idle_secs chunks (mkTx [] n)) <= 1
   /\ (within -> dones (run_anthropic idle_secs chunks (mkTx [] n)) = 1))
  /\ (dones (run_openai idle_secs chunks (mkTx [] n)) <= 1
      /\ (within -> dones (run_openai idle_secs chunks (mkTx [] n)) = 1)).
Proof.
  intros within. destruct (anthropic_ends_once idle_secs chunks n) as [A1 A2].
  destruct (openai_ends_once idle_secs chunks n) as [O1 O2].
  split; (split; [done|]); intros [Hn Hl]; [by apply A2|by apply O2].
Qed.

(** C23. The events do not depend on how the network cuts the body: for a body within the
    buffer, whatever follows it, all three parsers do with its chunks what they do with the
    whole. *)
Theorem chunking_invariant `{JsonText} config idle_secs bs rest tx :
  (N.of_nat (length (concat bs)) <= MAX_SSE_BUFFER_BYTES)%N ->
  let whole := Bytes (concat bs) :: rest in
  let cut := map Bytes bs ++ rest in
  run_anthropic idle_secs cut tx = run_anthropic idle_secs whole tx
  /\ run_openai idle_secs cut tx = run_openai idle_secs whole tx
  /\ run_ollama config idle_secs cut tx = run_ollama config idle_secs whole tx.
Proof.
  intros Hl whole cut.
  unfold run_anthropic, run_openai, run_ollama, parse_anthropic_stream, parse_openai_compat_stream,
    parse_ollama_ndjson_stream, bind, whole, cut.
  by rw !(read_concat (H := sse_laws)) // (read_concat (H := ndjson_laws)).
Qed.

(** ** Examples *)

Definition demo_openai : JsonText :=
  demo_text [(lit "T", JObj [(lit "choices", JArr [JObj [(lit "delta", JObj [(lit "content", JStr (lit "hi"))])]])])].
#[local] Existing Instance demo_openai.

Lemma streams_end_once_witness :
  dones (run_openai 180 [Bytes (utf8_encode "data: T" ++ [10; 10]%N); Broken (lit "reset")] (mkTx [] None)) = 1
  /\ dones (run_openai 180 [Bytes (utf8_encode "data: T" ++ [10; 10]%N); Broken (lit "reset")] (mkTx [] (Some 1))) <= 1.
Proof.
  split.
  - apply (proj2 (proj2 (streams_end_once 180 [Bytes (utf8_encode "data: T" ++ [10; 10]%N); Broken (lit "reset")] None))).
    split; [reflexivity|vm_compute; discriminate].
  - exact (proj1 (proj2 (streams_end_once 180 [Bytes (utf8_encode "data: T" ++ [10; 10]%N); Broken (lit "reset")] (Some 1)))).
Defined.

Lemma chunking_invariant_witness :
  run_openai 180 (map Bytes [utf8_encode "data: "; utf8_encode "T"; [10; 10]%N] ++ []) (mkTx [] None)
  = run_openai 180 [Bytes (utf8_encode "data: T" ++ [10; 10]%N)] (mkTx [] None)
  /\ run_openai 180 [Bytes (utf8_encode "data: T" ++ [10; 10]%N)] (mkTx [] None) = [Text (lit "hi"); Done FinishError None].
Proof.
  split; [|vm_compute; reflexivity].
  exact (proj1 (proj2 (chunking_invariant GLM 180 [utf8_encode "data: "; utf8_encode "T"; [10; 10]%N] [] (mkTx [] None)
    ltac:(vm_compute; discriminate)))).
Defined.

(** The error of a frame that has no [error] but a null one stops nothing; its text is lost. *)
Definition demo_null : JsonText :=
  demo_text [(lit "T", JObj [(lit "error", JNull); (lit "choices", JArr [JObj [(lit "delta", JObj [(lit "content", JStr (lit "hi"))])]])])].
Lemma null_error_hides_text :
  run_openai (H := demo_null) 180 [Bytes (utf8_encode "data: T" ++ [10; 10]%N)] (mkTx [] None)
  = [ErrorEvent (lit "API error"); Done FinishError None].
Proof. by vm_compute. Qed.
