(* ===== verification/ToolGates.v ===== *)
(** * The gates of a tool call (src/session/executor/helpers/mod.rs)

    The decisions the executor takes on the arguments of a call before it runs: which
    shell commands count as read-only, whether the arguments fit the tool's schema, the
    deny lists for paths and URLs, and the containment of search paths.

    Parameters: serde_json's printer ([print_json]), the iteration order of the set of
    required names ([hash_order]), and the Unicode lower-case table. *)

From Stdlib Require Import ssreflect.
From S2P Require Import Prelude Machine BashSafety Paths PathGuard ReadFile.

(** ** Read-only commands *)

Definition READ_ONLY_COMMANDS : list str := map lit
  ["ls"; "cat"; "head"; "tail"; "pwd"; "echo"; "printf"; "which"; "type"; "file"; "stat"; "du";
   "df"; "true"; "false"; "dirname"; "basename"; "realpath"; "readlink"; "grep"; "rg"; "sort";
   "wc"; "cut"; "tr"; "uniq"; "fold"; "nl"; "diff"; "cmp"; "comm"; "jq"; "date"; "cal"; "whoami";
   "id"; "uname"; "hostname"; "uptime"; "ps"; "free"; "lscpu"; "lsblk"; "lsof"; "dmesg"; "nproc";
   "arch"; "tty"; "jobs"; "help"; "find"; "git"].

Definition READ_ONLY_GIT_SUBCOMMANDS : list str := map lit
  ["status"; "log"; "diff"; "show"; "ls-files"; "rev-parse"].

Definition FIND_FLAGS : list str := map lit
  [" -delete"; " -exec"; " -execdir"; " -ok"; " -okdir"; " -fprint"; " -fls"].

Definition listed (l : list str) (s : str) : bool := existsb (str_eqb s) l.

(** The first token that is no option; [-C] takes one more. *)
Fixpoint git_subcommand (tokens : list str) : option str :=
  match tokens with
  | [] => None
  | tok :: tokens' =>
      if starts_with tok "-" then
        if str_eqb tok "-C" then
          match tokens' with [] => None | _ :: tokens'' => git_subcommand tokens'' end
        else git_subcommand tokens'
      else Some tok
  end.

Definition git_command_is_read_only (cmd : str) : bool :=
  match git_subcommand (drop 1 (split_whitespace cmd)) with
  | Some sub => listed READ_ONLY_GIT_SUBCOMMANDS sub
  | None => false
  end.

(** The text up to the first white space. *)
Fixpoint first_word (s : str) : str :=
  match s with
  | [] => []
  | c :: s' => if is_whitespace c then [] else c :: first_word s'
  end.

Definition has_metachar (seg : str) : bool :=
  contains seg ">" || contains seg ";" || contains seg "&&" || contains seg "||"
  || contains seg "$(" || contains seg "&" || contains seg "`".

Definition segment_is_read_only `{UnicodeCase} (segment : str) : bool :=
  let seg := trim segment in
  match split_whitespace seg with
  | [] => false
  | word :: _ =>
      if negb (listed READ_ONLY_COMMANDS word) then false
      else if str_eqb word "find" && existsb (contains (to_lowercase seg)) FIND_FLAGS then false
      else if str_eqb word "git" && negb (git_command_is_read_only seg) then false
      else negb (has_metachar seg)
  end.

Definition is_read_only_bash `{UnicodeCase} (cmd : str) : bool :=
  let trimmed := trim cmd in
  if bool_decide (trimmed = []) then true
  else if negb (listed READ_ONLY_COMMANDS (first_word (trim_start trimmed))) then false
  else if contains trimmed [10%N] || contains trimmed [13%N] then false
  else forallb segment_is_read_only (split_char 124 trimmed).

(** ** Deny lists on the arguments *)

Definition str_arg (args : json) (key : str) : option str := json_get args key ≫= as_str.

Definition check_deny_list (dl : DenyList) (tool_name : str) (args : json) : option str :=
  if listed (map lit ["read_file"; "read_image"; "write_file"; "edit_file"; "grep"; "glob"]) tool_name then
    match str_arg args "path" with
    | Some path => when (is_path_denied dl path) ("🔒 Path denied by deny list: " ++ path)
    | None => None
    end
  else None.

Definition check_url_in_args (args : json) (dl : DenyList) : option str :=
  match args with
  | JObj _ =>
      find_map (fun key =>
        match str_arg args key with
        | Some url => when (url_is_denied url (url_patterns dl)) ("🔒 URL denied by deny list: " ++ url)
        | None => None
        end) (map lit ["url"; "endpoint"; "api_url"])
  | _ => None
  end.

(** ** Search paths *)

(** [PathBuf::pop] until the path exists; [parent] is [None] at the end. *)
Fixpoint existing_ancestor (fuel : nat) (fs : Fs) (cur : str) : str :=
  match fuel with
  | O => cur
  | S fuel' =>
      if path_exists fs cur then cur
      else match parent cur with Some up => existing_ancestor fuel' fs up | None => cur end
  end.

Definition search_root (fs : Fs) (path : str) : str :=
  if path_exists fs path then path else existing_ancestor (S (length path)) fs path.

Definition search_sandbox_step (fs : Fs) (g : PathGuard) (path check : str) : result unit str :=
  match sandbox_dir g with
  | None => Ok tt
  | Some sandbox =>
      let? sb := map_err (fun e => cannot_resolve "sandbox dir" sandbox e []) (canonicalize fs sandbox) in
      deny_if (negb (path_starts_with check sb)) ("Search path outside sandbox: " ++ path)
  end.

Definition check_search_path (fs : Fs) (g : PathGuard) (path : str) : GuardVerdict :=
  verdict (
    do? deny_if (is_path_denied (deny_list g) path) ("Path denied by deny list: " ++ path) ;;
    let? check := map_err (fun e => cannot_resolve "search path" path e " (refusing unverified search)")
                    (canonicalize fs (search_root fs path)) in
    do? deny_if (is_path_denied (deny_list g) check) ("Resolved path denied by deny list: " ++ check) ;;
    do? search_sandbox_step fs g path check ;;
    Ok path).

(** ** Schemas *)

(** [Value::is_i64() || Value::is_u64()]: the number has an integer's text. *)
Definition is_integer (v : json) : bool :=
  match v with
  | JNum text =>
      match parse_u64 text with
      | Some _ => true
      | None => match text with
                | c :: digits => (c =? 45)%N && match parse_u64 digits with
                                                | Some n => (0 <? n)%N && (n <=? 2 ^ 63)%N
                                                | None => false
                                                end
                | [] => false
                end
      end
  | _ => false
  end.

Definition json_value_type_name (v : json) : str :=
  match v with
  | JStr _ => lit "string" | JNum _ => lit "number" | JBool _ => lit "boolean"
  | JArr _ => lit "array" | JObj _ => lit "object" | JNull => lit "null"
  end.

Definition has_type (value : json) (expected : str) : bool :=
  if str_eqb expected "integer" then is_integer value
  else if listed (map lit ["string"; "number"; "boolean"; "array"; "object"; "null"]) expected
  then str_eqb (json_value_type_name value) expected
  else true.

Definition value_matches_type (value : json) (expected key : str) : option str :=
  when (negb (has_type value expected))
    ("argument '" ++ key ++ "' expected type '" ++ expected ++ "', got " ++ json_value_type_name value).

Fixpoint json_depth (v : json) : nat :=
  match v with
  | JArr l => S (foldr (fun x n => Nat.max (json_depth x) n) 0 l)
  | JObj m => S (foldr (fun kv n => Nat.max (json_depth kv.2) n) 0 m)
  | _ => 1
  end.

(** The first of [anyOf] and [oneOf] that is an array, with its name. *)
Definition combinator_of (schema : json) : option (str * list json) :=
  find_map (fun c => (fun l => (c, l)) <$> (json_get schema c ≫= as_array)) (map lit ["anyOf"; "oneOf"]).

(** The reasons of the alternatives, or none when one accepts. *)
Fixpoint all_reasons {A} (f : A -> option str) (l : list A) : option (list str) :=
  match l with
  | [] => Some []
  | x :: l' => match f x with
               | None => None
               | Some r => cons r <$> all_reasons f l'
               end
  end.

(** The first item that is refused, with its position. *)
Fixpoint first_refused (f : json -> option str) (i : nat) (l : list json) : option (nat * str) :=
  match l with
  | [] => None
  | x :: l' => match f x with Some r => Some (i, r) | None => first_refused f (S i) l' end
  end.

Fixpoint value_matches_schema (fuel : nat) (value schema : json) (key : str) : option str :=
  match fuel with
  | O => None
  | S fuel' =>
      match combinator_of schema with
      | Some (_, []) => None
      | Some (combinator, alternatives) =>
          (fun reasons => "argument '" ++ key ++ "' did not match any of the " ++ combinator
                          ++ " schemas (" ++ join "; " reasons ++ ")")
          <$> all_reasons (fun alt => value_matches_schema fuel' value alt key) alternatives
      | None =>
          match json_get schema "type" ≫= as_str with
          | None => None
          | Some expected =>
              match value_matches_type value expected key with
              | Some reason => Some reason
              | None =>
                  match (if str_eqb expected "array" then json_get schema "items" else None), value with
                  | Some items, JArr arr =>
                      (fun ir => "array item " ++ show_nat ir.1 ++ " for '" ++ key ++ "' has wrong type: " ++ ir.2)
                      <$> first_refused (fun item => value_matches_schema fuel' item items key) 0 arr
                  | _, _ => None
                  end
              end
          end
      end
  end.

Definition schema_refuses (value schema : json) (key : str) : option str :=
  value_matches_schema (S (json_depth schema)) value schema key.

Section Args.
Context (print_json : json -> str) (hash_order : list str -> list str).

(** The names of the [required] array, in the order of the set they are put into. *)
Definition required_names (schema : json) : list str :=
  match json_get schema "required" ≫= as_array with
  | Some l => hash_order (remove_dups (omap as_str l))
  | None => []
  end.

Definition validate_args_against_schema (args schema : json) : option str :=
  match json_get schema "properties" with
  | Some (JObj properties) =>
      match args with
      | JObj members =>
          find_map (fun req => when (negb (is_some_b (assoc req members)))
                                    ("missing required argument '" ++ req ++ "'")) (required_names schema)
          <|> find_map (fun kv => match assoc kv.1 properties with
                                  | Some s => schema_refuses kv.2 s kv.1
                                  | None => None
                                  end) members
      | _ => Some ("arguments must be a JSON object, got " ++ print_json args)
      end
  | _ => None
  end.
End Args.

(** ** Proofs: read-only commands *)

Lemma listed_spec l s : listed l s = true <-> s ∈ l.
Proof.
  unfold listed. rw existsb_elem. split; [by intros (x & Hx & ->%str_eqb_eq)|]. intros Hs.
  exists s. by rw str_eqb_eq.
Qed.

Definition pipe_to_nul (c : char) : char := if (c =? 124)%N then NUL else c.

Lemma replace_pipes s : replace s [124%N] [NUL] = map pipe_to_nul s.
Proof.
  unfold replace, pipe_to_nul. induction s as [|c s IH]; [done|]. cbn [replace_from map].
  cbn [starts_with length Nat.sub]. rw andb_true_r IH (N.eqb_sym 124). by destruct (c =? 124)%N.
Qed.

Lemma contains_absent s x p : x ∉ s -> contains s (x :: p) = false.
Proof.
  intros Hx. apply not_true_is_false. intros (a & b & ->)%contains_spec. apply Hx.
  rw elem_of_app elem_of_cons. by right; left.
Qed.

Lemma split_lone_amp_absent prev s : 38%N ∉ s -> split_lone_amp prev s = s.
Proof.
  revert prev. induction s as [|c s IH]; intros prev; [done|]. intros [Hc Hs]%not_elem_of_cons.
  cbn [split_lone_amp]. rw IH //. destruct (N.eqb_spec c "&"%char) as [->|]; [|done]. by destruct Hc.
Qed.

Lemma split_pipes s : NUL ∉ s -> split_char NUL (map pipe_to_nul s) = split_char 124 s.
Proof.
  induction s as [|c s IH]; [done|]. intros [Hc Hs]%not_elem_of_cons. cbn [map split_char].
  rw IH //. unfold pipe_to_nul. destruct (N.eqb_spec c 124) as [->|Hn]; [done|].
  by destruct (N.eqb_spec c NUL) as [->|].
Qed.

(** A command without the other separators is split at its pipes. *)
Lemma split_pipeline t :
  contains t "||" = false -> (forall x, x ∈ [38; 59; 10; 13; 0]%N -> x ∉ t) ->
  split_compound_clauses t = filter (fun c => c <> []) (map trim (split_char 124 t)).
Proof.
  intros Hp Hx. unfold split_compound_clauses. f_equal. f_equal.
  assert (forall x p s, x <> NUL -> (forall y, y ∈ s -> y ∈ t \/ y = NUL) -> x ∉ t ->
            replace s (x :: p) [NUL] = s) as Hr.
  { intros x p s Hn Hs Ht. apply replace_from_absent. apply contains_absent.
    by intros [?|?]%Hs. }
  assert (forall y, y ∈ map pipe_to_nul t -> y ∈ t \/ y = NUL) as Hm.
  { intros y (z & -> & Hz)%list_elem_of_fmap. unfold pipe_to_nul. case_match; auto. }
  cbn [SEPARATORS map app fold_left]. change (lit "&&") with [38; 38]%N. change (lit ";") with [59%N].
  change (lit "|") with [124%N].
  rw (Hr 38%N) //; [auto|by apply Hx; set_solver|]. change (replace t (lit "||") [NUL]) with (replace_from 0 t (lit "||") [NUL]). rw (replace_from_absent t (lit "||")) //.
  rw (Hr 59%N) //; [auto|by apply Hx; set_solver|]. rw replace_pipes.
  rw (Hr 10%N) //; [by apply Hx; set_solver|]. rw (Hr 13%N) //; [by apply Hx; set_solver|].
  rw split_lone_amp_absent; [intros [?|?]%Hm; [|done]; by eapply (Hx 38%N); [set_solver|]|].
  apply split_pipes. apply Hx. set_solver.
Qed.

Lemma segment_has_metachar seg :
  has_metachar seg = false ->
  (forall x, x ∈ [62; 59; 38; 96]%N -> x ∉ seg) /\ contains seg "$(" = false.
Proof.
  unfold has_metachar. rw !orb_false_iff. intros ((((((H1 & H2) & _) & _) & H5) & H6) & H7).
  split; [|done].
  assert (forall x, contains seg [x] = false -> x ∉ seg) as Hn.
  { intros x Hc (a & b & ->)%list_elem_of_split. apply not_true_iff_false in Hc. apply Hc.
    apply contains_spec. by exists a, b. }
  intros x Hx. repeat (apply elem_of_cons in Hx as [->|Hx]; [by apply Hn|]). by apply elem_of_nil in Hx.
Qed.

(** What an accepted segment is: a listed command that is no dangerous [find] and no other
    [git], without metacharacters. *)
Record harmless `{UnicodeCase} (c : str) : Prop := {
  hl_word : exists word args, split_whitespace c = word :: args /\ word ∈ READ_ONLY_COMMANDS
    /\ (word = lit "find" -> forall flag, flag ∈ FIND_FLAGS -> contains (to_lowercase c) flag = false)
    /\ (word = lit "git" -> exists sub, git_subcommand args = Some sub /\ sub ∈ READ_ONLY_GIT_SUBCOMMANDS);
  hl_chars : forall x, x ∈ [62; 59; 38; 96]%N -> x ∉ c;
  hl_subst : contains c "$(" = false
}.

Lemma segment_spec `{UnicodeCase} seg : segment_is_read_only seg = true -> harmless (trim seg).
Proof.
  unfold segment_is_read_only. destruct (split_whitespace (trim seg)) as [|word args] eqn:E; [done|].
  destruct (listed READ_ONLY_COMMANDS word) eqn:Hw; [|done]. cbn [negb].
  destruct (str_eqb word "find" && _) eqn:Hf; [done|].
  destruct (str_eqb word "git" && _) eqn:Hg; [done|]. intros [Hc Hs]%negb_true_iff%segment_has_metachar.
  split; [|done|done]. exists word, args. split; [done|]. split; [by apply listed_spec|]. split.
  - intros ->. cbn [andb] in Hf. rw str_eqb_refl in Hf. intros flag Hflag. apply not_true_is_false. intros Hx.
    assert (existsb (contains (to_lowercase (trim seg))) FIND_FLAGS = true) as He; [|by rw He in Hf].
    apply existsb_elem. by exists flag.
  - intros ->. rw str_eqb_refl in Hg. apply negb_false_iff in Hg. unfold git_command_is_read_only in Hg.
    rw E in Hg. change (drop 1 (lit "git" :: args)) with args in Hg. destruct (git_subcommand args) as [sub|]; [|done].
    exists sub. by rw -listed_spec.
Qed.

Lemma join_elem sep l x : x ∈ join sep l -> x ∈ sep \/ exists p, p ∈ l /\ x ∈ p.
Proof.
  induction l as [|p l IH]; [by intros ?%elem_of_nil|]. destruct l as [|q l].
  - intros Hx. right. exists p. split; [by left|done].
  - change (join sep (p :: q :: l)) with (p ++ sep ++ join sep (q :: l)). rw !elem_of_app.
    intros [Hx|[Hx|Hx]]; [right; exists p; split; [by left|done]|by left|].
    destruct (IH Hx) as [?|(r & ? & ?)]; [by left|]. right. exists r. split; [by right|done].
Qed.

Lemma trim_start_keeps s x : x ∈ s -> is_whitespace x = false -> x ∈ trim_start s.
Proof.
  induction s as [|c s IH]; [done|]. intros [->|Hx]%elem_of_cons Hw; cbn [trim_start]; [rw Hw; by left|].
  destruct (is_whitespace c); [by apply IH|by right].
Qed.

Lemma trim_keeps s x : x ∈ s -> is_whitespace x = false -> x ∈ trim s.
Proof.
  intros Hx Hw. unfold trim, trim_end. rw elem_of_rev. apply trim_start_keeps; [|done].
  rw elem_of_rev. by apply trim_start_keeps.
Qed.

(** Every clause of a command accepted as read-only starts with a listed command, no
    [find] among them has a listed flag and no [git] another subcommand, and there is no
    redirection, separator or substitution in it. *)
Lemma read_only_clauses `{UnicodeCase} cmd :
  is_read_only_bash cmd = true -> NUL ∉ cmd ->
  forall c, c ∈ split_compound_clauses (trim cmd) -> harmless c.
Proof.
  unfold is_read_only_bash. case_bool_decide as Ht.
  { intros _ _ c. rw Ht. change (split_compound_clauses []) with (@nil str). by intros ?%elem_of_nil. }
  destruct (listed _ _); [|done]. cbn [negb]. destruct (contains _ _ || _) eqn:Hl; [done|].
  apply orb_false_iff in Hl as [Hl Hr]. rw forallb_elem. intros Hs Hn. set (t := trim cmd) in *.
  assert (forall x, x ∈ t -> x = 124%N \/ exists seg, seg ∈ split_char 124 t /\ x ∈ seg) as Hx.
  { intros x. rw -{1}(split_char_join 124 t). generalize (split_char 124 t). intros l Hx.
    by apply join_elem in Hx as [?%list_elem_of_singleton|?]; [left|right]. }
  assert (forall seg, seg ∈ split_char 124 t -> forall x, x ∈ seg -> is_whitespace x = false -> x ∈ trim seg) as Htr.
  { intros. by apply trim_keeps. }
  rw split_pipeline.
  - apply not_true_is_false. intros (a & b & Hab)%contains_spec. assert ([] ∈ split_char 124 t) as He.
    { rw Hab. change (a ++ lit "||" ++ b) with (a ++ 124%N :: [] ++ 124%N :: b). rw !split_char_app. set_solver. }
    by specialize (Hs _ He).
  - assert (forall x, contains t [x] = false -> x ∉ t) as Hc.
    { intros x Hf (a & b & Hab)%list_elem_of_split. apply not_true_iff_false in Hf. apply Hf.
      apply contains_spec. by exists a, b. }
    assert (forall x, x ∈ [38; 59]%N -> x ∉ t) as Hm.
    { intros x Hxl [->|(seg & Hseg & Hxs)]%Hx; [set_solver|].
      apply (hl_chars _ (segment_spec _ (Hs _ Hseg)) x); [set_solver|].
      apply Htr; [done..|]. repeat (apply elem_of_cons in Hxl as [->|Hxl]; [done|]). by apply elem_of_nil in Hxl. }
    intros x Hxl. apply elem_of_cons in Hxl as [->|Hxl]; [apply Hm; set_solver|].
    apply elem_of_cons in Hxl as [->|Hxl]; [apply Hm; set_solver|].
    apply elem_of_cons in Hxl as [->|Hxl]; [by apply Hc|].
    apply elem_of_cons in Hxl as [->|Hxl]; [by apply Hc|].
    apply list_elem_of_singleton in Hxl as ->. by intros ?%trim_elem.
  - intros c [_ (seg & -> & Hseg)%list_elem_of_fmap]%list_elem_of_filter. apply segment_spec. by apply Hs.
Qed.

(** ** Proofs: search paths *)

(** [a] is reached from [p] by taking parents, and nothing passed on the way exists. *)
Inductive nearest (fs : Fs) : str -> str -> Prop :=
| nearest_here p : path_exists fs p = true -> nearest fs p p
| nearest_up p q a : path_exists fs p = false -> parent p = Some q -> nearest fs q a -> nearest fs p a.

Lemma existing_ancestor_nearest fuel fs p :
  path_exists fs (existing_ancestor fuel fs p) = true -> nearest fs p (existing_ancestor fuel fs p).
Proof.
  revert p. induction fuel as [|fuel IH]; intros p; cbn [existing_ancestor]; [by constructor|].
  destruct (path_exists fs p) eqn:E; [by constructor|]. destruct (parent p) as [q|] eqn:Ep; [|by rw E].
  intros He. eapply nearest_up; [done|done|by apply IH].
Qed.

Lemma search_root_nearest fs p : path_exists fs (search_root fs p) = true -> nearest fs p (search_root fs p).
Proof. unfold search_root. destruct (path_exists fs p) eqn:E; [by constructor|apply existing_ancestor_nearest]. Qed.

Lemma nearest_unique fs p a b : nearest fs p a -> nearest fs p b -> a = b.
Proof. intros Ha. revert b. induction Ha; intros b Hb; inversion Hb; subst; try congruence. apply IHHa. congruence. Qed.

Lemma search_sandbox_step_Ok fs g p c u :
  search_sandbox_step fs g p c = Ok u <-> (forall dir, sandbox_dir g = Some dir -> inside fs dir c).
Proof.
  unfold search_sandbox_step, inside. destruct u, (sandbox_dir g) as [dir|]; [|naive_solver].
  rw result_bind_Ok. setoid_rewrite map_err_Ok. setoid_rewrite deny_if_Ok.
  setoid_rewrite negb_false_iff. naive_solver.
Qed.

(** What a search needs: the path is not denied, and its nearest existing ancestor resolves
    to a directory that is not denied and lies in the sandbox. *)
Record searchable (fs : Fs) (g : PathGuard) (p : str) : Prop := {
  se_listed : is_path_denied (deny_list g) p = false;
  se_root : exists a c, nearest fs p a /\ canonicalize fs a = Ok c
    /\ is_path_denied (deny_list g) c = false
    /\ forall dir, sandbox_dir g = Some dir -> inside fs dir c
}.

Lemma existing_ancestor_complete fuel fs p a : length p < fuel -> nearest fs p a -> existing_ancestor fuel fs p = a.
Proof.
  intros Hf Hn. revert fuel Hf. induction Hn as [p Hp|p q a Hp Hq Hn IH]; intros [|fuel] Hf; try lia; cbn [existing_ancestor].
  - by rw Hp.
  - rw Hp Hq. apply IH. pose proof (parent_shorter _ _ Hq). lia.
Qed.

Lemma search_root_complete fs p a : nearest fs p a -> search_root fs p = a.
Proof.
  intros Hn. unfold search_root. destruct (path_exists fs p) eqn:E.
  - inversion Hn; subst; [done|congruence].
  - apply existing_ancestor_complete; [lia|done].
Qed.

Lemma check_search_path_Allowed fs g p q :
  fs_wf fs -> check_search_path fs g p = Allowed q <-> q = p /\ searchable fs g p.
Proof.
  intros Hw. unfold check_search_path. rw verdict_Allowed do_Ok deny_if_Ok result_bind_Ok.
  setoid_rewrite map_err_Ok. setoid_rewrite do_Ok. setoid_rewrite do_Ok. setoid_rewrite deny_if_Ok.
  setoid_rewrite search_sandbox_step_Ok. split.
  - intros (Hd & c & Hc & Hr & Hs & [= <-]). split; [done|].
    split; [done|]. exists (search_root fs p), c. split_and!; try done.
    apply search_root_nearest. apply path_exists_Ok; [done|by exists c].
  - intros (-> & [Hd (a & c & Hn & Hc & Hr & Hs)]). split; [done|]. exists c. by rw (search_root_complete _ _ _ Hn).
Qed.

(** ** Proofs: schemas *)

(** When a value fits a schema: one of the alternatives of a combinator does, or the type
    does and, for an array, every item fits the schema of the items. *)
Inductive fits : json -> json -> Prop :=
| fits_empty v s c : combinator_of s = Some (c, []) -> fits v s
| fits_alternative v s c l alt : combinator_of s = Some (c, l) -> alt ∈ l -> fits v alt -> fits v s
| fits_untyped v s : combinator_of s = None -> json_get s "type" ≫= as_str = None -> fits v s
| fits_typed v s expected :
    combinator_of s = None -> json_get s "type" ≫= as_str = Some expected -> has_type v expected = true ->
    (forall items arr, expected = lit "array" -> json_get s "items" = Some items -> v = JArr arr ->
       forall item, item ∈ arr -> fits item items) ->
    fits v s.

Lemma assoc_depth k m v : assoc k m = Some v -> json_depth v < json_depth (JObj m).
Proof.
  cbn [json_depth]. induction m as [|[k' v'] m IH]; cbn [assoc foldr snd]; [done|].
  destruct (str_eqb k k'); [intros [= ->]; lia|]. intros Ha. specialize (IH Ha). lia.
Qed.

Lemma get_depth s k v : json_get s k = Some v -> json_depth v < json_depth s.
Proof. destruct s; try done. apply assoc_depth. Qed.

Lemma elem_depth (x : json) l : x ∈ l -> json_depth x < json_depth (JArr l).
Proof.
  cbn [json_depth]. induction l as [|y l IH]; [by intros ?%elem_of_nil|].
  cbn [foldr]. intros [->|Hx]%elem_of_cons; [lia|]. specialize (IH Hx). lia.
Qed.

Lemma combinator_depth s c l alt :
  combinator_of s = Some (c, l) -> alt ∈ l -> json_depth alt < json_depth s.
Proof.
  unfold combinator_of. intros (x & _ & Hx)%find_map_Some Ha.
  destruct (json_get s x) as [v|] eqn:E; [|done]. destruct v; try done.
  injection Hx as _ <-. apply get_depth in E. apply elem_depth in Ha. lia.
Qed.

Lemma all_reasons_None {A} (f : A -> option str) l :
  all_reasons f l = None <-> exists x, x ∈ l /\ f x = None.
Proof.
  induction l as [|x l IH]; cbn [all_reasons].
  - split; [done|]. by intros (x & ?%elem_of_nil & _).
  - destruct (f x) as [r|] eqn:E; [|split; [by exists x; split; [left|]|done]].
    rw fmap_None IH. split; intros (y & Hy & Hf); exists y; (split; [|done]); [by right|].
    apply elem_of_cons in Hy as [->|?]; [congruence|done].
Qed.

Lemma first_refused_None f i l : first_refused f i l = None <-> forall x, x ∈ l -> f x = None.
Proof.
  revert i. induction l as [|x l IH]; intros i; cbn [first_refused]; [by split; [intros _ ? ?%elem_of_nil|]|].
  destruct (f x) as [r|] eqn:E.
  - split; [done|]. intros Hf. rw Hf in E; [by left|done].
  - rw IH. split; [intros Hf y [->|?]%elem_of_cons; [done|by apply Hf]|]. intros Hf y Hy. apply Hf. by right.
Qed.

Lemma value_matches_schema_spec fuel v s key :
  json_depth s < fuel -> value_matches_schema fuel v s key = None <-> fits v s.
Proof.
  revert v s. induction fuel as [|fuel IH]; intros v s Hd; [lia|]. cbn [value_matches_schema].
  destruct (combinator_of s) as [[c l]|] eqn:Ec.
  - destruct l as [|a l]; [split; [by econstructor|done]|]. rw fmap_None all_reasons_None. split.
    + intros (x & Hx & Hn). econstructor 2; [done|done|]. apply IH; [|done].
      pose proof (combinator_depth _ _ _ _ Ec Hx). lia.
    + intros Hf. inversion Hf; subst; try congruence. rw Ec in H. injection H as [= <- <-].
      exists alt. split; [done|]. apply IH; [|done]. pose proof (combinator_depth _ _ _ _ Ec H0). lia.
  - destruct (json_get s "type" ≫= as_str) as [expected|] eqn:Et; [|split; [by econstructor 3|done]].
    unfold value_matches_type. destruct (has_type v expected) eqn:Eh; cbn [negb when].
    + split.
      * intros Hn. econstructor 4; [done|done|done|]. intros items arr -> Hi -> item Hitem.
        rw str_eqb_refl Hi in Hn. apply fmap_None in Hn. rw first_refused_None in Hn.
        apply IH; [|by apply Hn]. apply get_depth in Hi. lia.
      * intros Hf. inversion Hf; subst; try congruence.
        destruct (str_eqb expected "array") eqn:Ea; [|done]. apply str_eqb_eq in Ea as ->.
        destruct (json_get s "items") as [items|] eqn:Ei; [|done]. destruct v; try done.
        apply fmap_None, first_refused_None. intros x Hx. apply IH; [apply get_depth in Ei; lia|].
        rw Et in H0. injection H0 as [= <-]. by eapply H2.
    + split; [done|]. intros Hf. inversion Hf; subst; congruence.
Qed.

(** Arguments pass the schema exactly when it declares no properties, or they are an
    object with every required member whose declared members fit their schemas. *)
Lemma validate_args_spec print_json hash_order args schema :
  (forall l, hash_order l ≡ₚ l) ->
  validate_args_against_schema print_json hash_order args schema = None
  <-> (forall properties, json_get schema "properties" = Some (JObj properties) ->
        exists members, args = JObj members
        /\ (forall req l, json_get schema "required" = Some (JArr l) -> JStr req ∈ l ->
              is_Some (assoc req members))
        /\ (forall key value s, (key, value) ∈ members -> assoc key properties = Some s -> fits value s)).
Proof.
  intros Hh. unfold validate_args_against_schema.
  destruct (json_get schema "properties") as [p|]; [|done].
  destruct p as [| | | | |properties]; try (by split).
  assert (forall req, req ∈ required_names hash_order schema
            <-> exists l, json_get schema "required" = Some (JArr l) /\ JStr req ∈ l) as Hreq.
  { intros req. unfold required_names. destruct (json_get schema "required") as [v|]; cbn;
      [|split; [by intros ?%elem_of_nil|by intros (? & ? & _)]].
    destruct v; cbn; try (by split; [intros ?%elem_of_nil|intros (? & ? & _)]).
    rw Hh elem_of_remove_dups list_elem_of_omap. split.
    - intros (v & Hv & Hs). destruct v; try done. injection Hs as ->. by eexists.
    - intros (l' & [= <-] & Hl). by exists (JStr req). }
  destruct args as [| | | | |members]; try (split; [intros Hm; discriminate Hm|]; intros Hx; by destruct (Hx _ eq_refl) as (? & ? & _)).
  rw orelse_None !find_map_None !Forall_forall. split.
  - intros [H1 H2] ? [= <-]. exists members. split; [done|]. split.
    + intros req l Hl Hr. assert (req ∈ required_names hash_order schema) as Hin by (apply Hreq; by exists l).
      specialize (H1 _ Hin). apply when_None, negb_false_iff in H1. by destruct (assoc req members); [eexists|].
    + intros key value s Hin Hs. specialize (H2 _ Hin). cbn [fst snd] in H2. rw Hs in H2.
      by eapply value_matches_schema_spec, H2; lia.
  - intros Hx. destruct (Hx _ eq_refl) as (? & [= <-] & H1 & H2). split.
    + intros req (l & Hl & Hr)%Hreq. apply when_None, negb_false_iff. by destruct (H1 _ _ Hl Hr) as [? ->].
    + intros [key value] Hin. cbn [fst snd]. destruct (assoc key properties) as [s|] eqn:Es; [|done].
      apply value_matches_schema_spec; [lia|]. by eapply H2.
Qed.

(** ** Gaps and examples *)

#[local] Existing Instance ascii_case.

Lemma read_only_clauses_witness :
  is_read_only_bash "cat a | sort" = true
  /\ forall c, c ∈ split_compound_clauses (trim "cat a | sort") -> harmless c.
Proof.
  split; [vm_compute; reflexivity|]. apply read_only_clauses; [vm_compute; reflexivity|].
  apply (bool_decide_unpack _). vm_compute. exact I.
Defined.

Definition demo_schema : json :=
  JObj [(lit "properties", JObj [(lit "paths", JObj [(lit "type", JStr (lit "array"));
                                                    (lit "items", JObj [(lit "type", JStr (lit "string"))])])]);
        (lit "required", JArr [JStr (lit "paths")])].

Lemma validate_args_spec_witness :
  (exists members, JObj [(lit "paths", JArr [JStr (lit "a")])] = JObj members
   /\ is_Some (assoc "paths" members))
  /\ validate_args_against_schema (fun _ => []) (fun l => l) (JObj [(lit "paths", JArr [JNull])]) demo_schema <> None.
Proof.
  split; [|vm_compute; discriminate].
  destruct (proj1 (validate_args_spec (fun _ => []) (fun l => l) (JObj [(lit "paths", JArr [JStr (lit "a")])])
              demo_schema (fun l => Permutation_refl l)) ltac:(vm_compute; reflexivity) _ eq_refl)
    as (members & Hm & Hr & _).
  exists members. split; [exact Hm|]. exact (Hr (lit "paths") _ eq_refl (list_elem_of_here _ _)).
Defined.

(** Commands that write, delete or run programs and are accepted as read-only: the flags of
    [find] behind a tab or in quotes, and the options of other listed commands. *)
Lemma read_only_commands_write :
  forallb is_read_only_bash
    ["find . " ++ [9%N] ++ "-delete"; lit "find . '-delete'"; lit "sort -o notes.txt data.txt";
     lit "git diff --output=main.rs"; lit "rg --pre ./run.sh x"; lit "uniq data.txt notes.txt"] = true.
Proof. by vm_compute. Qed.

(** Required names are not looked at when the schema has no properties. *)
Lemma required_without_properties_unchecked :
  validate_args_against_schema (fun _ => []) (fun l => l) (JObj []) (JObj [(lit "required", JArr [JStr (lit "path")])]) = None.
Proof. by vm_compute. Qed.

(** A relative search path of which no component exists is refused, since the walk ends at
    the empty path and not at the working directory. *)
Lemma relative_search_refused :
  check_search_path (tree [(map lit ["w"], Dir)] (map lit ["w"]))
    (PathGuard_default (fun _ => None)) "src"
  = Denied (cannot_resolve "search path" "src" ENOENT " (refusing unverified search)").
Proof. by vm_compute. Qed.
