(* ===== verification/Toolsets.v ===== *)
(** * Toolsets (src/tools/toolset.rs, the helpers of src/tools/mod.rs, scout.rs)

    The tools the executor can list and resolve by name, composed of several sources, with
    the check of the arguments before a tool runs and the filter of the read-only scout
    ([src/session/executor/scout.rs]).  A trait object is a [Toolset], a record of its
    operations; what the executor relies on is [ToolsetLaws].  The body of a tool is a
    parameter. *)

From Stdlib Require Import ssreflect.
From S2P Require Import Prelude ToolGates.

(** ** Tools *)

Record ToolDef := mkToolDef { def_name : str; description : str; parameters : json }.

Section Toolsets.
Context {Body : Type}.

Record Tool := mkTool { def : ToolDef; body : Body }.

(** The trait object. *)
Record Toolset := mkToolset {
  source : str;
  definitions : list ToolDef;
  resolve : str -> option Tool
}.

Definition named (name : str) (d : ToolDef) : bool := str_eqb (def_name d) name.

(** [VecToolset]. *)
Definition vec_resolve (tools : list Tool) (name : str) : option Tool := find_first (fun t => named name (def t)) tools.
Definition VecToolset (src : str) (tools : list Tool) : Toolset := mkToolset src (map def tools) (vec_resolve tools).

(** ** The composition *)

(** Definitions in order, the first of each name. *)
Fixpoint first_named (seen : list str) (defs : list ToolDef) : list ToolDef :=
  match defs with
  | [] => []
  | d :: defs' => if listed seen (def_name d) then first_named seen defs'
                  else d :: first_named (def_name d :: seen) defs'
  end.

Definition composite_definitions (toolsets : list Toolset) : list ToolDef :=
  first_named [] (concat (map definitions toolsets)).
Definition composite_resolve (toolsets : list Toolset) (name : str) : option Tool :=
  find_map (fun t => resolve t name) toolsets.
Definition CompositeToolset (toolsets : list Toolset) : Toolset :=
  mkToolset "composite" (composite_definitions toolsets) (composite_resolve toolsets).

(** [add]; [replace] takes the first set of the source, or appends. *)
Definition add_toolset (toolsets : list Toolset) (t : Toolset) : list Toolset := toolsets ++ [t].
Fixpoint replace_first (src : str) (new : Toolset) (toolsets : list Toolset) : option (list Toolset) :=
  match toolsets with
  | [] => None
  | t :: rest => if str_eqb (source t) src then Some (new :: rest) else cons t <$> replace_first src new rest
  end.
Definition replace_toolset (toolsets : list Toolset) (src : str) (new : Toolset) : bool * list Toolset :=
  match replace_first src new toolsets with
  | Some l => (true, l)
  | None => (false, toolsets ++ [new])
  end.

Definition total_definitions (toolsets : list Toolset) : nat :=
  foldr (fun t n => length (definitions t) + n) 0 toolsets.

Fixpoint resolve_all (toolsets : list Toolset) (defs : list ToolDef) : result (list Tool) str :=
  match defs with
  | [] => Ok []
  | d :: defs' =>
      match composite_resolve toolsets (def_name d) with
      | Some t => let? rest := resolve_all toolsets defs' in Ok (t :: rest)
      | None => Err ("tool '" ++ def_name d ++ "' disappeared during flatten — plugin may have loaded inconsistently")
      end
  end.
Definition into_tools (toolsets : list Toolset) : result (list Tool) str :=
  resolve_all toolsets (composite_definitions toolsets).

(** ** The scout *)

Definition SCOUT_TOOLS : list str := map lit ["read_file"; "read_image"; "grep"; "glob"].

Definition filter_tools (allowed : list str) (tools : list Tool) : list Tool :=
  List.filter (fun t => listed allowed (def_name (def t))) tools.

(** ** Arguments *)

(** The types of [validate_tool_args]; an unknown one matches. *)
Definition actual_matches (expected : str) (val : json) : bool :=
  if str_eqb expected "string" then match val with JStr _ => true | _ => false end
  else if str_eqb expected "number" then match val with JNum _ => true | _ => false end
  else if str_eqb expected "integer" then is_integer val
  else if str_eqb expected "boolean" then match val with JBool _ => true | _ => false end
  else if str_eqb expected "array" then match val with JArr _ => true | _ => false end
  else if str_eqb expected "object" then match val with JObj _ => true | _ => false end
  else true.

Definition argument_refused (props : list (str * json)) (kv : str * json) : option str :=
  match assoc kv.1 props with
  | None => None
  | Some prop_schema =>
      match str_arg prop_schema "type" with
      | None => None
      | Some expected =>
          when (negb (actual_matches expected kv.2) && negb (match kv.2 with JNull => true | _ => false end))
            ("Argument '" ++ kv.1 ++ "': expected type '" ++ expected ++ "', got '" ++ json_value_type_name kv.2 ++ "'")
      end
  end.

Definition required_args (schema : json) : list str :=
  match json_get schema "required" ≫= as_array with Some l => omap as_str l | None => [] end.

(** [validate_tool_args]: [None] when the arguments are accepted. *)
Definition validate_tool_args (t : Tool) (args : json) : option str :=
  let schema := parameters (def t) in
  if negb (bool_decide (str_arg schema "type" = Some (lit "object"))) then None
  else match args with
       | JObj members =>
           find_map (fun key => when (negb (is_some_b (assoc key members))) ("Missing required argument: " ++ key))
             (required_args schema)
           <|> match json_get schema "properties" with
               | Some (JObj props) => find_map (argument_refused props) members
               | _ => None
               end
       | _ => Some (lit "args must be a JSON object")
       end.

(** ** Specification *)

(** What is resolved under a name is the tool whose definition is listed first under it:
    the model is shown the definition of the tool that will run. *)
Definition ToolsetLaws (t : Toolset) : Prop := forall name, def <$> resolve t name = find_first (named name) (definitions t).

(** ** Proofs *)

Lemma vec_laws src tools : ToolsetLaws (VecToolset src tools).
Proof.
  intros name. cbn [resolve definitions VecToolset]. unfold vec_resolve.
  induction tools as [|t tools IH]; [done|]. cbn [find_first map]. by destruct (named name (def t)).
Qed.

Lemma listed_elem l s : listed l s = true <-> s ∈ l.
Proof.
  unfold listed. rw existsb_elem. split; [by intros (x & Hx & ->%str_eqb_eq)|].
  intros Hs. exists s. by rw str_eqb_refl.
Qed.

Lemma first_named_names seen defs : NoDup (map def_name (first_named seen defs))
  /\ forall d, d ∈ first_named seen defs -> def_name d ∉ seen /\ d ∈ defs.
Proof.
  revert seen. induction defs as [|d defs IH]; intros seen.
  { split; [constructor|]. by intros d ?%elem_of_nil. }
  cbn [first_named]. destruct (listed seen (def_name d)) eqn:Hl.
  - destruct (IH seen) as [Hn Hs]. split; [done|]. intros d' [? ?]%Hs. split; [done|by right].
  - destruct (IH (def_name d :: seen)) as [Hn Hs]. split.
    + cbn [map]. constructor; [|done]. intros (d' & Heq & Hd')%list_elem_of_fmap.
      apply Hs in Hd' as [Hd' _]. apply Hd'. rw Heq. by left.
    + intros d' [->|[Hd' ?]%Hs]%elem_of_cons.
      * split; [|by left]. intros ?%listed_elem. congruence.
      * split; [|by right]. intros Hin. apply Hd'. by right.
Qed.

Lemma first_named_find name seen defs :
  find_first (named name) (first_named seen defs)
  = if listed seen name then None else find_first (named name) defs.
Proof.
  revert seen. induction defs as [|d defs IH]; intros seen; [by destruct (listed _ _)|].
  cbn [first_named find_first]. destruct (named name d) eqn:Hd; unfold named in Hd.
  - apply str_eqb_eq in Hd as Hn. destruct (listed seen (def_name d)) eqn:Hl.
    + rw IH. by rw -Hn Hl.
    + cbn [find_first]. unfold named at 1. by rw Hd -Hn Hl.
  - destruct (listed seen (def_name d)) eqn:Hl; [by rw IH|]. cbn [find_first]. unfold named at 1. rw Hd IH.
    change (listed (def_name d :: seen) name) with (str_eqb name (def_name d) || listed seen name).
    destruct (str_eqb name (def_name d)) eqn:E; [|done].
    apply str_eqb_eq in E as ->. by rw str_eqb_refl in Hd.
Qed.

Lemma find_first_app {A} (p : A -> bool) l k :
  find_first p (l ++ k) = match find_first p l with Some x => Some x | None => find_first p k end.
Proof. induction l as [|x l IH]; [done|]. cbn [app find_first]. by destruct (p x). Qed.

Lemma composite_resolve_find toolsets name :
  Forall ToolsetLaws toolsets ->
  def <$> composite_resolve toolsets name = find_first (named name) (concat (map definitions toolsets)).
Proof.
  unfold composite_resolve. induction 1 as [|t toolsets Ht _ IH]; [done|]. cbn [map concat].
  rw find_first_app -(Ht name) -IH. change (find_map (fun t => resolve t name) (t :: toolsets))
    with (match resolve t name with Some x => Some x | None => find_map (fun t => resolve t name) toolsets end).
  by destruct (resolve t name).
Qed.

Lemma replace_first_laws src new toolsets l :
  ToolsetLaws new -> Forall ToolsetLaws toolsets -> replace_first src new toolsets = Some l -> Forall ToolsetLaws l.
Proof.
  intros Hn Hf. revert l. induction Hf as [|t toolsets Ht Hf IH]; intros l; [done|]. cbn [replace_first].
  destruct (str_eqb (source t) src); [intros [= <-]; by constructor|].
  destruct (replace_first src new toolsets) as [l'|]; [|done]. intros [= <-]. constructor; [done|by apply IH].
Qed.

Lemma replace_laws toolsets src new :
  ToolsetLaws new -> Forall ToolsetLaws toolsets -> Forall ToolsetLaws (replace_toolset toolsets src new).2.
Proof.
  intros Hn Hf. unfold replace_toolset. destruct (replace_first src new toolsets) as [l|] eqn:E.
  - by apply (replace_first_laws src new toolsets).
  - apply Forall_app. by repeat constructor.
Qed.

Lemma resolve_all_Ok toolsets defs :
  (forall d, d ∈ defs -> def <$> composite_resolve toolsets (def_name d) = Some d) ->
  exists tools, resolve_all toolsets defs = Ok tools /\ map def tools = defs.
Proof.
  induction defs as [|d defs IH]; intros H; [by exists []|].
  destruct (IH (fun d' Hd' => H d' (list_elem_of_further _ _ _ Hd'))) as (tools & Hr & Hm).
  specialize (H d (list_elem_of_here _ _)). cbn [resolve_all].
  destruct (composite_resolve toolsets (def_name d)) as [t|]; [|done]. injection H as Hd.
  rw Hr. exists (t :: tools). split; [done|]. cbn [map]. by rw Hd Hm.
Qed.

Lemma first_of_name defs d : NoDup (map def_name defs) -> d ∈ defs -> find_first (named (def_name d)) defs = Some d.
Proof.
  induction defs as [|d' defs IH]; [by intros _ ?%elem_of_nil|]. cbn [map]. intros [Hn Hd]%NoDup_cons Hin.
  cbn [find_first]. unfold named at 1. destruct (str_eqb (def_name d') (def_name d)) eqn:E.
  - apply str_eqb_eq in E. apply elem_of_cons in Hin as [->|Hin]; [done|].
    destruct Hn. rw E. apply list_elem_of_fmap. by exists d.
  - apply elem_of_cons in Hin as [->|Hin]; [by rw str_eqb_refl in E|by apply IH].
Qed.
End Toolsets.

(** ** Properties *)

(** A composition of toolsets is one: it lists each name once, in the order of its
    sources, with the definition of the tool it resolves under that name; flattening it
    never fails and gives exactly the listed tools, and replacing a source keeps all that. *)
Lemma composite_laws {Body} (toolsets : list (@Toolset Body)) :
  Forall ToolsetLaws toolsets ->
  ToolsetLaws (CompositeToolset toolsets)
  /\ NoDup (map def_name (composite_definitions toolsets))
  /\ (forall name, is_Some (composite_resolve toolsets name) <-> exists t d, t ∈ toolsets /\ d ∈ definitions t /\ def_name d = name)
  /\ (exists tools, into_tools toolsets = Ok tools /\ map def tools = composite_definitions toolsets)
  /\ forall src new, ToolsetLaws new -> Forall ToolsetLaws (replace_toolset toolsets src new).2.
Proof.
  intros Hf. assert (ToolsetLaws (CompositeToolset toolsets)) as Hl.
  { intros name. cbn [resolve definitions CompositeToolset]. unfold composite_definitions.
    by rw (composite_resolve_find toolsets name Hf) first_named_find. }
  pose proof (proj1 (first_named_names [] (concat (map definitions toolsets)))) as Hn.
  split_and!; [done|done| | |intros; by apply replace_laws].
  - intros name. transitivity (is_Some (def <$> composite_resolve toolsets name)); [by rw fmap_is_Some|].
    rw (composite_resolve_find toolsets name Hf). split.
    + intros (d & [Hd Hnm%str_eqb_eq]%find_first_Some). apply list_elem_of_In, in_concat in Hd as (ds & Hds & Hd).
      apply in_map_iff in Hds as (t & <- & Ht). exists t, d. by rw !list_elem_of_In.
    + intros (t & d & Ht & Hd & <-). destruct (find_first _ _) as [x|] eqn:E; [done|].
      assert (d ∈ concat (map definitions toolsets)) as Hin.
      { apply list_elem_of_In, in_concat. exists (definitions t). split; [|by apply list_elem_of_In].
        apply in_map_iff. exists t. by rw -list_elem_of_In. }
      pose proof (proj1 (find_first_None _ _) E d Hin) as Hd'. unfold named in Hd'. by rw str_eqb_refl in Hd'.
  - apply resolve_all_Ok. intros d Hd. rw (Hl (def_name d)). by apply first_of_name.
Qed.

Lemma composite_laws_witness :
  let builtin := VecToolset "builtin" [mkTool (mkToolDef "bash" [] JNull) 0; mkTool (mkToolDef "grep" [] JNull) 1] in
  let plugin := VecToolset "plugin" [mkTool (mkToolDef "grep" (lit "shadowed") JNull) 2; mkTool (mkToolDef "lint" [] JNull) 3] in
  NoDup (map def_name (composite_definitions [builtin; plugin]))
  /\ map def_name (composite_definitions [builtin; plugin]) = map lit ["bash"; "grep"; "lint"].
Proof.
  intros builtin plugin. split; [|by vm_compute].
  refine (proj1 (proj2 (composite_laws [builtin; plugin] _))).
  constructor; [apply vec_laws|constructor; [apply vec_laws|constructor]].
Defined.

(** The scout has no tool that is not on its list. *)
Lemma scout_reads_only {Body} (tools : list (@Tool Body)) t :
  t ∈ filter_tools SCOUT_TOOLS tools <-> t ∈ tools /\ def_name (def t) ∈ SCOUT_TOOLS.
Proof. unfold filter_tools. by rw list_elem_of_In filter_In -list_elem_of_In listed_elem. Qed.

(** An argument that is [null] passes whatever its type, which the check before the gates
    refuses. *)
Lemma null_argument_passes :
  let schema := JObj [(lit "properties", JObj [(lit "n", JObj [(lit "type", JStr "integer")])]); (lit "type", JStr "object")] in
  let args := JObj [(lit "n", JNull)] in
  validate_tool_args (mkTool (mkToolDef "t" [] schema) tt) args = None
  /\ is_some_b (validate_args_against_schema (fun _ => []) (fun l => l) args schema) = true.
Proof. by vm_compute. Qed.
