(* ===== verification/Outcomes.v ===== *)
(** * What a tool call leaves behind (src/session/executor/helpers/mod.rs, outcome.rs)

    The outcome of a tool as the model sees it: the cut to the size limit, the text of
    search results, the metrics of a shell command, the hints after an error
    ([src/session/error_recovery.rs]) with the back-off of [src/shared/mod.rs], and the
    detector of repeated errors ([loop_.rs], [cost_tracking.rs]).

    Parameters: the regular expressions ([RegexCaptures]) and the Unicode lower-case
    table; the clock's nanoseconds are an argument of [retry_backoff]. *)

From Stdlib Require Import ssreflect.
From S2P Require Import Prelude Machine BashSafety Undo Offload BudgetGuard FileTools ReadFile WebFetch ToolGates.

(** ** Outcomes *)

Record Match := mkMatch {
  line_number : N;
  line : str;
  context_before : list str;
  context_after : list str
}.

Definition CallOutcome : Type := @ToolOutcome ToolError (list Match).

Definition tool_outcome_success (o : CallOutcome) : bool :=
  match o with Error _ | Failure _ => false | _ => true end.

Definition tool_error_kind (o : CallOutcome) : option str :=
  match o with
  | Error _ => Some (lit "error")
  | Failure e => Some (match e with
                       | InvalidArgs _ => lit "invalid_args"
                       | AccessDenied _ => lit "access_denied"
                       | Execution _ _ _ => lit "execution"
                       | Timeout _ => lit "timeout"
                       | Cancelled => lit "cancelled"
                       | Internal _ => lit "internal"
                       end)
  | _ => None
  end.

Definition text_content (o : CallOutcome) : str :=
  match o with
  | Success content => content
  | Error message => message
  | Failure e => to_user_message e
  | FileContent _ content _ => content
  | FileEdit _ diff => diff
  | GrepMatches _ matches total => show_nat (length matches) ++ " matches (" ++ show_N total ++ " total shown)"
  | Image _ _ _ => lit "[image data]"
  end.

Definition context_line (ctx : str) : str := "  " ++ ctx ++ [10%N].
Definition format_match (m : Match) : str :=
  concat (map context_line (context_before m))
  ++ ">" ++ show_N (line_number m) ++ ": " ++ line m ++ [10%N]
  ++ concat (map context_line (context_after m)) ++ [10%N].
Definition format_grep_output (path : str) (matches : list Match) : str :=
  "Matches in " ++ path ++ ":" ++ [10%N] ++ concat (map format_match matches).

(** ** Cutting *)

(** [&s[..b]] at the last boundary up to [i]; a panic when there is none. *)
Definition cut_at (s : str) (i : N) : option str := fst <$> split_at_byte s (floor_char_boundary s i).

Definition cut_note (max_chars : N) : str :=
  "..." ++ [10%N] ++ "[output truncated to " ++ show_N max_chars ++ " chars]".

Definition truncate_wrapped_untrusted (content : str) (max_chars : N) : option (option str) :=
  if (str_len content <=? max_chars)%N then Some None
  else match unwrap_untrusted content with
       | None => Some None
       | Some payload =>
           (fun cut => Some (open_untrusted ++ cut ++ "..." ++ [10%N] ++ "[truncated]"))
           <$> cut_at payload (N.min (str_len payload) (max_chars - str_len open_untrusted))
       end.

(** The text, and whether it was cut. *)
Definition truncate_content (content : str) (max_chars : N) : option (str * bool) :=
  match truncate_wrapped_untrusted content max_chars with
  | None => None
  | Some (Some cut) => Some (cut, true)
  | Some None =>
      if (max_chars <? str_len content)%N
      then (fun cut => (cut ++ cut_note max_chars, true)) <$> cut_at content max_chars
      else Some (content, false)
  end.

Definition truncate_tool_output (o : CallOutcome) (max_chars : N) : option CallOutcome :=
  if (max_chars =? 0)%N then Some o
  else match o with
  | Success content => (fun c => Success c.1) <$> truncate_content content max_chars
  | FileContent path content truncated =>
      (fun c => FileContent path c.1 (truncated || c.2)) <$> truncate_content content max_chars
  | GrepMatches path matches total =>
      let rendered := format_grep_output path matches in
      if (max_chars <? str_len rendered)%N
      then (fun cut => Success (cut ++ cut_note max_chars)) <$> cut_at rendered max_chars
      else Some (GrepMatches path matches total)
  | other => Some other
  end.

(** ** Shell metrics *)

Definition parse_i32 (s : str) : option Z :=
  match s with
  | c :: digits =>
      if (c =? 45)%N then
        match digits with
        | d :: _ => if (d =? 43)%N then None
                    else match parse_u64 digits with
                         | Some n => if (n <=? 2 ^ 31)%N then Some (- Z.of_N n)%Z else None
                         | None => None
                         end
        | [] => None
        end
      else match parse_u64 s with
           | Some n => if (n <? 2 ^ 31)%N then Some (Z.of_N n) else None
           | None => None
           end
  | [] => None
  end.

(** [s.split(p).nth(1)]: between the first occurrence of [p] and the next. *)
Definition second_piece (s p : str) : option str :=
  match find_sub p s with
  | None => None
  | Some i => let rest := drop (i + length p) s in
              Some (match find_sub p rest with Some j => take j rest | None => rest end)
  end.

Definition stderr_mark : str := [10%N] ++ "stderr:" ++ [10%N].

Definition extract_bash_metrics (o : CallOutcome) : option Z * option N * option N :=
  match o with
  | Success content => (Some 0%Z, Some (str_len content), Some 0%N)
  | Error message =>
      let exit_code :=
        if contains message "exited with code"
        then match second_piece message "exited with code " with
             | Some s => match split_whitespace s with w :: _ => parse_i32 w | [] => None end
             | None => None
             end
        else Some 1%Z in
      match find_sub stderr_mark message with
      | Some i => (exit_code, Some (str_len (take i message)), Some (str_len (drop (i + 9) message)))
      | None => (exit_code, Some (str_len message), Some 0%N)
      end
  | Failure (Execution _ exit_code stderr) => (exit_code, Some 0%N, Some (str_len stderr))
  | Failure _ => (Some 1%Z, Some 0%N, Some 0%N)
  | _ => (None, None, None)
  end.

(** ** Hints after an error *)

Inductive ErrorHint :=
| BorrowConflict (original_ref conflicting_ref : str)
| MissingImport (symbol suggested_module : str)
| TypeMismatch (expected found : str)
| MissingMethod (type_name method_name : str) (suggested_traits : list str).

Definition tick : str := lit "`".
Definition ticked (s : str) : str := tick ++ s ++ tick.

Definition render_hint (h : ErrorHint) : str :=
  match h with
  | BorrowConflict original_ref conflicting_ref =>
      "Hint: this looks like a borrow conflict. The reference " ++ ticked original_ref
      ++ " is still alive when " ++ ticked conflicting_ref ++ " tries to borrow it. Consider cloning "
      ++ ticked original_ref ++ " or restructuring the borrows so their lifetimes do not overlap."
  | MissingImport symbol suggested_module =>
      "Hint: " ++ ticked symbol ++ " is not in scope. Try adding "
      ++ ticked ("use " ++ suggested_module ++ "::" ++ symbol ++ ";") ++ "."
  | TypeMismatch expected found =>
      "Hint: expected " ++ ticked expected ++ " but found " ++ ticked found
      ++ ". Consider using a conversion (e.g. `.into()` or `.try_into()`) or fixing the type annotation."
  | MissingMethod type_name method_name suggested_traits =>
      let traits := match suggested_traits with
                    | [] => lit "the trait that provides it"
                    | _ => "one of: " ++ join ", " suggested_traits
                    end in
      "Hint: " ++ ticked type_name ++ " does not have a method named " ++ ticked method_name
      ++ ". Consider importing " ++ traits ++ ", or implementing the method on " ++ ticked type_name ++ "."
  end.

Record RecoveryHint := mkHint { error_summary : str; suggestion : str; recoverable : bool }.

Section Hints.
Context `{UnicodeCase} `{RegexCaptures}.

Definition borrower_regex : str := lit "cannot borrow `([^`]+)`".
Definition original_regex : str := lit "also (?:mutably )?borrowed as `([^`]+)`".
Definition symbol_regex : str := lit "cannot find (?:value|type) `([^`]+)`".
Definition mismatch_regex : str := lit "expected `([^`]+)`, found `([^`]+)`".
Definition method_regex : str :=
  lit "no method named `([^`]+)` found for (?:type|struct|enum) `([^`]+)`".

(** [Regex::captures] and a group of it. *)
Definition captures (re s : str) : option Capture := head (captures_iter re s).
Definition capture_group (c : Capture) (i : nat) : option str := unwrap_or None (groups c !! i).
Definition first_group (re s : str) : option str :=
  match captures re s with Some c => capture_group c 1 | None => None end.

Definition classify_borrow_conflict (error : str) : option ErrorHint :=
  if negb (contains (to_lowercase error) "cannot borrow") then None
  else match first_group borrower_regex error with
       | None => None
       | Some conflicting_ref =>
           Some (BorrowConflict (unwrap_or conflicting_ref (first_group original_regex error)) conflicting_ref)
       end.

Definition classify_missing_import (error : str) : option ErrorHint :=
  let lower := to_lowercase error in
  let is_missing_value := contains lower "cannot find value" && contains lower "in this scope" in
  let is_missing_type := contains lower "cannot find type" && contains lower "in this scope" in
  if negb (is_missing_value || is_missing_type) then None
  else (fun symbol => MissingImport symbol "crate") <$> first_group symbol_regex error.

Definition is_blank_text (s : str) : bool := bool_decide (s = []).

Definition classify_type_mismatch (error : str) : option ErrorHint :=
  let lower := to_lowercase error in
  if negb (contains lower "expected") || negb (contains lower "found") then None
  else match captures mismatch_regex error with
       | None => None
       | Some caps =>
           match capture_group caps 1, capture_group caps 2 with
           | Some expected, Some found =>
               if is_blank_text expected || is_blank_text found || str_eqb expected found then None
               else Some (TypeMismatch expected found)
           | _, _ => None
           end
       end.

Definition classify_missing_method (error : str) : option ErrorHint :=
  if negb (contains (to_lowercase error) "no method named") then None
  else match captures method_regex error with
       | None => None
       | Some caps =>
           match capture_group caps 1, capture_group caps 2 with
           | Some method_name, Some type_name =>
               if is_blank_text method_name || is_blank_text type_name then None
               else Some (MissingMethod type_name method_name [])
           | _, _ => None
           end
       end.

Definition classify_error (error : str) : option ErrorHint :=
  classify_borrow_conflict error <|> classify_missing_import error
  <|> classify_missing_method error <|> classify_type_mismatch error.

Definition classify_for_tool (tool_name message : str) (args : json) : option ErrorHint :=
  if listed (map lit ["bash"; "clippy"; "cargo"; "rustc"]) tool_name then classify_error message else None.

Definition render_tool_error_with_hint (tool_name message : str) (args : json) : str :=
  match classify_for_tool tool_name message args with
  | Some hint => "Error: " ++ message ++ [10%N] ++ render_hint hint
  | None => "Error: " ++ message
  end.

(** The lines of a suggestion. *)
Definition steps (l : list str) : str := join [10%N] l.

Definition not_found_hint (path_hint : str) : RecoveryHint :=
  mkHint ("File not found: " ++ path_hint)
    (steps ["The file '" ++ path_hint ++ "' was not found. Try:";
            lit "1. Use `glob` to search for the correct file path";
            lit "2. Use `grep` to search for code that references this file";
            lit "3. If this is a new file you're creating, use `write_file` instead"]) true.

Definition denied_hint (path_hint : str) : RecoveryHint :=
  mkHint ("Permission denied: " ++ path_hint)
    (steps ["Access was denied for '" ++ path_hint ++ "'. Try:";
            lit "1. Check if you have write permissions in this directory";
            lit "2. Consider using a different output path (e.g., /tmp/)";
            lit "3. If this is a system file, the change may need to be applied differently"]) true.

Definition cargo_hint : RecoveryHint :=
  mkHint "Build/compile error"
    ("The build failed. Read the error output carefully — the compiler tells you exactly what line is wrong "
     ++ "and often suggests the fix. Use `read_file` to view the offending file, then `edit_file` to fix the "
     ++ "specific issue.") true.

Definition node_hint : RecoveryHint :=
  mkHint "JavaScript/TypeScript build error"
    ("The build failed. Check the error output for the specific file and line number. Use `read_file` to "
     ++ "inspect the file and `edit_file` to fix the issue.") true.

Definition command_hint : RecoveryHint :=
  mkHint "Command not found"
    (steps [lit "The command you tried to run doesn't exist. Check:";
            lit "1. Is the tool installed? Try `which <command>`";
            lit "2. Do you need to install it first? Use the package manager";
            lit "3. Is there an alternative tool you can use?"]) true.

Definition network_hint : RecoveryHint :=
  mkHint "Network error"
    ("A network operation failed. Retry may succeed — network issues are often transient. If this persists, "
     ++ "check connectivity with a simple command like `curl`.") true.

Definition analyze_error (tool_name error_message : str) (args : json) : option RecoveryHint :=
  let err_lower := to_lowercase error_message in
  let has p := contains err_lower p in
  if has "no such file" || has "not found" && negb (has "command")
  then Some (not_found_hint (unwrap_or (lit "the file") (str_arg args "path" <|> str_arg args "file_path")))
  else if has "permission denied" || has "access denied"
  then Some (denied_hint (unwrap_or (lit "the target") (str_arg args "path")))
  else
    let builds := str_eqb tool_name "bash" && (has "error:" || has "failed" || has "cannot find") in
    if builds && (has "cargo" || has "rustc") then Some cargo_hint
    else if builds && (has "npm" || has "node" || has "tsc") then Some node_hint
    else if has "command not found" || has "not recognized" then Some command_hint
    else if has "connection" || has "timeout" || has "network" then Some network_hint
    else None.

Definition recovery_text (hint : RecoveryHint) : str :=
  "The previous action failed: " ++ error_summary hint ++ [10%N] ++ [10%N] ++ suggestion hint ++ [10%N] ++ [10%N]
  ++ "Please correct the issue and try again. "
  ++ "Do NOT repeat the same failing command — use the suggestions above.".
End Hints.

(** ** Retries *)

Record RetryTracker := mkRetry { retry_count : N; max_retries : N }.
Definition RetryTracker_new : RetryTracker := mkRetry 0 2.
Definition can_retry (t : RetryTracker) : bool := (retry_count t <? max_retries t)%N.
Definition record_retry (t : RetryTracker) : RetryTracker := mkRetry (retry_count t + 1) (max_retries t).
Definition reset_retry (t : RetryTracker) : RetryTracker := mkRetry 0 (max_retries t).

(** [retry_backoff] for a first attempt 1, in milliseconds; [nanos] is the clock. *)
Definition retry_backoff (attempt nanos : N) : N :=
  let base_s := N.shiftl 1 (N.min (attempt - 1) 63) in
  let cap_ms := N.min (N.min usize_max (attempt * 250)) 1000 in
  saturating_add (N.min usize_max (base_s * 1000)) (nanos mod cap_ms).
Definition wait_before_retry (t : RetryTracker) (nanos : N) : N := retry_backoff (retry_count t + 1) nanos.

(** ** Repeated errors *)

Definition WINDOW : nat := 5.
Definition THRESHOLD : N := 3.
Definition ERROR_TRUNCATE : N := 200.

Record DoomLoopTracker := mkDoom { window : list (str * str); run_length : N; last_emit : option str }.
Record DoomHit := mkHit { hit_count : N; hit_tool : str; last_error : str }.

Definition DoomLoopTracker_new : DoomLoopTracker := mkDoom [] 0 None.
Definition doom_reset (t : DoomLoopTracker) : DoomLoopTracker := mkDoom [] 0 None.

Definition short_error (error : str) : str :=
  if (ERROR_TRUNCATE <? str_len error)%N then unwrap_or [] (cut_at error ERROR_TRUNCATE) ++ "…" else error.

Definition observe (t : DoomLoopTracker) (tool error : str) : option DoomHit * DoomLoopTracker :=
  let truncated := short_error error in
  let run := if bool_decide (last (window t) = Some (tool, truncated)) then saturating_add (run_length t) 1 else 1%N in
  let window' := (if length (window t) =? WINDOW then drop 1 (window t) else window t) ++ [(tool, truncated)] in
  if (THRESHOLD <=? run)%N then
    if bool_decide (last_emit t = Some truncated) then (None, mkDoom window' run (last_emit t))
    else (Some (mkHit run tool truncated), mkDoom window' run (Some truncated))
  else (None, mkDoom window' run (last_emit t)).

Inductive DoomLoopAction := AutoPlan | Halt | WarnOnly.

Definition parse_doom_action (s : str) : option DoomLoopAction :=
  if str_eqb s "auto_plan" then Some AutoPlan
  else if str_eqb s "halt" then Some Halt
  else if str_eqb s "warn_only" then Some WarnOnly
  else None.

(** [Executor::observe_tool_outcome], the action it asks for. *)
Definition doom_action (configured : str) (non_interactive : bool) : DoomLoopAction :=
  match unwrap_or AutoPlan (parse_doom_action configured) with
  | AutoPlan => if non_interactive then WarnOnly else AutoPlan
  | a => a
  end.

Record DoomLoopOutcome := mkDoomOutcome { doom_hint : str; doom_does : DoomLoopAction; doom_count : N; doom_tool : str }.

(** The tracker and the number of hits; a hit that is reported is the second answer. *)
Definition observe_tool_outcome (t : DoomLoopTracker) (hits : N) (tool : str) (o : CallOutcome)
    (doom_loop_max_hits : N) (action : DoomLoopAction)
    : option DoomLoopOutcome * option DoomHit * DoomLoopTracker * N :=
  let error_text := match o with Error m => Some m | Failure e => Some (to_user_message e) | _ => None end in
  match error_text with
  | None => (None, None, doom_reset t, hits)
  | Some error =>
      match observe t tool error with
      | (None, t') => (None, None, t', hits)
      | (Some hit, t') =>
          let hits := (hits + 1)%N in
          let outcome :=
            if (0 <? doom_loop_max_hits)%N && (doom_loop_max_hits <=? hits)%N then
              Some (mkDoomOutcome
                      ("[System: tool '" ++ hit_tool hit ++ "' has failed " ++ show_N (hit_count hit)
                       ++ " times with the same error. Try a different approach or ask the user for help.]")
                      action hits (hit_tool hit))
            else None in
          (outcome, Some hit, t', hits)
      end
  end.

(** ** Proofs: cutting *)

Lemma cut_at_spec s i :
  exists a b, cut_at s i = Some a /\ s = a ++ b /\ (str_len a <= i)%N
    /\ (forall a' b', s = a' ++ b' -> (str_len a' <= i)%N -> (str_len a' <= str_len a)%N).
Proof.
  destruct (floor_char_boundary_spec s i) as (Hb & Hle & Hmax). unfold cut_at.
  rw is_char_boundary_split in Hb. destruct (split_at_byte s _) as [[a b]|] eqn:E; [|done].
  apply split_at_byte_spec in E as [-> Hl]. exists a, b. rw Hl. split_and!; try done.
  intros a' b' Hs Hi. rw -Hl. rw Hl. apply Hmax; [|done]. apply boundary_spec. by exists a', b'.
Qed.

(** What is left of a text that is too long: its longest beginning that fits, with a note;
    for untrusted content, of what is between the delimiters, and the region is not closed. *)
Definition cut_text (content : str) (max_chars : N) (cut : str) : Prop :=
  match unwrap_untrusted content with
  | Some payload => exists a b, payload = a ++ b /\ (str_len a <= max_chars - str_len open_untrusted)%N
      /\ cut = open_untrusted ++ a ++ "..." ++ [10%N] ++ "[truncated]"
  | None => exists a b, content = a ++ b /\ (str_len a <= max_chars)%N
      /\ (forall a' b', content = a' ++ b' -> (str_len a' <= max_chars)%N -> (str_len a' <= str_len a)%N)
      /\ cut = a ++ cut_note max_chars
  end.

Lemma truncate_content_spec content max_chars :
  exists c, truncate_content content max_chars = Some (c, (max_chars <? str_len content)%N)
  /\ (if (max_chars <? str_len content)%N then cut_text content max_chars c else c = content).
Proof.
  unfold truncate_content, truncate_wrapped_untrusted, cut_text. rw N.leb_antisym.
  destruct (max_chars <? str_len content)%N eqn:E; cbn [negb]; [|by exists content].
  destruct (unwrap_untrusted content) as [payload|].
  - destruct (cut_at_spec payload (N.min (str_len payload) (max_chars - str_len open_untrusted)))
      as (a & b & -> & -> & Hle & _). eexists. split; [done|]. exists a, b. split_and!; [done|lia|done].
  - destruct (cut_at_spec content max_chars) as (a & b & -> & Hs & Hle & Hmax).
    eexists. split; [done|]. by exists a, b.
Qed.

Lemma cut_text_bound content max_chars cut :
  cut_text content max_chars cut ->
  (str_len cut <= N.max max_chars (str_len open_untrusted) + str_len (cut_note max_chars))%N.
Proof.
  unfold cut_text. destruct (unwrap_untrusted content) as [payload|].
  - intros (a & b & _ & Hle & ->).
    assert (str_len "..." + (str_len [10%N] + str_len "[truncated]") <= str_len (cut_note max_chars))%N as Hn.
    { unfold cut_note. rw !str_len_app.
      assert (str_len "[truncated]" <= str_len "[output truncated to ")%N by (vm_compute; discriminate). lia. }
    revert Hle Hn. generalize open_untrusted (cut_note max_chars). intros o m Hle Hn. rw !str_len_app. lia.
  - intros (a & b & _ & Hle & _ & ->). rw str_len_app. lia.
Qed.

(** The output of a tool is cut without a panic: a text within the limit is kept, a
    longer one keeps its longest beginning that fits with a note, untrusted text keeps its
    opening delimiter and never closes it, and the result exceeds the limit by no more than
    the note. *)
Lemma truncate_spec o max_chars :
  exists o', truncate_tool_output o max_chars = Some o'
  /\ (let kept c c' := if (0 <? max_chars)%N && (max_chars <? str_len c)%N
        then cut_text c max_chars c'
             /\ (str_len c' <= N.max max_chars (str_len open_untrusted) + str_len (cut_note max_chars))%N
        else c' = c in
      match o with
      | Success c => exists c', o' = Success c' /\ kept c c'
      | FileContent p c t => exists c', o' = FileContent p c' (t || (0 <? max_chars)%N && (max_chars <? str_len c)%N)
                                        /\ kept c c'
      | GrepMatches p ms n =>
          let c := format_grep_output p ms in
          if (0 <? max_chars)%N && (max_chars <? str_len c)%N
          then exists a b, c = a ++ b /\ (str_len a <= max_chars)%N /\ o' = Success (a ++ cut_note max_chars)
          else o' = o
      | _ => o' = o
      end).
Proof.
  unfold truncate_tool_output. destruct (N.eqb_spec max_chars 0) as [->|Hm].
  { exists o. split; [done|]. destruct o; cbn; try done; eexists; (split; [|done]); [done|by rw orb_false_r]. }
  rw (proj2 (N.ltb_lt 0 max_chars)); [lia|]. cbn [andb].
  destruct o as [c|m|e|p c t|p d|p ms n|p mi d]; try (by eexists).
  - destruct (truncate_content_spec c max_chars) as (c' & -> & Hc). eexists. split; [done|]. exists c'.
    split; [done|]. destruct (max_chars <? str_len c)%N; [|done]. split; [done|by apply cut_text_bound in Hc].
  - destruct (truncate_content_spec c max_chars) as (c' & -> & Hc). eexists. split; [done|]. exists c'.
    split; [done|]. destruct (max_chars <? str_len c)%N; [|done]. split; [done|by apply cut_text_bound in Hc].
  - destruct (max_chars <? _)%N; [|by eexists].
    destruct (cut_at_spec (format_grep_output p ms) max_chars) as (a & b & -> & Hs & Hle & _).
    eexists. split; [done|]. by exists a, b.
Qed.

(** ** Proofs: back-off *)

(** Each attempt waits for its base and less than a second more, so a later one never waits
    less. *)
Lemma retry_backoff_bounds attempt nanos :
  (1 <= attempt <= 32)%N ->
  (2 ^ (attempt - 1) * 1000 <= retry_backoff attempt nanos < 2 ^ (attempt - 1) * 1000 + 1000)%N.
Proof.
  intros Ha. unfold retry_backoff, saturating_add. rw N.shiftl_1_l. rw (N.min_l (attempt - 1)); [lia|].
  assert (2 ^ (attempt - 1) <= 2 ^ 31)%N as Hp by (apply N.pow_le_mono_r; lia).
  assert (N.min (N.min usize_max (attempt * 250)) 1000 <> 0%N) as Hc by (unfold usize_max; lia).
  pose proof (N.mod_lt nanos _ Hc) as Hlt. revert Hlt. generalize (nanos mod N.min (N.min usize_max (attempt * 250)) 1000)%N.
  revert Hp. generalize (2 ^ (attempt - 1))%N. change (2 ^ 31)%N with 2147483648%N.
  change usize_max with 18446744073709551615%N. intros; lia.
Qed.

Lemma retry_backoff_mono a b n m :
  (1 <= a)%N -> (a < b)%N -> (b <= 32)%N -> (retry_backoff a n <= retry_backoff b m)%N.
Proof.
  intros. pose proof (retry_backoff_bounds a n ltac:(lia)). pose proof (retry_backoff_bounds b m ltac:(lia)).
  assert (2 ^ a <= 2 ^ (b - 1))%N as Hp by (apply N.pow_le_mono_r; lia).
  assert (2 ^ a = 2 * 2 ^ (a - 1))%N as He by (rw -N.pow_succ_r'; f_equal; lia).
  assert (1 <= 2 ^ (a - 1))%N by (apply (N.pow_le_mono_r 2 0 (a - 1)); lia). lia.
Qed.

(** ** Proofs: repeated errors *)

(** The errors since the last success, the latest first, as the tracker compares them. *)
Definition seen (l : list (str * str)) : list (str * str) := rev (map (fun o => (o.1, short_error o.2)) l).
Definition feed (l : list (str * str)) : DoomLoopTracker :=
  fold_left (fun t o => (observe t o.1 o.2).2) l DoomLoopTracker_new.

(** How many of the latest errors are [x], and the text of the last run of three. *)
Fixpoint same_head (x : str * str) (s : list (str * str)) : nat :=
  match s with
  | y :: s' => if bool_decide (y = x) then S (same_head x s') else 0
  | [] => 0
  end.
Fixpoint last_run (s : list (str * str)) : option str :=
  match s with
  | [] => None
  | x :: s' => if 3 <=? S (same_head x s') then Some x.2 else last_run s'
  end.

Lemma feed_snoc l tool error : feed (l ++ [(tool, error)]) = (observe (feed l) tool error).2.
Proof. unfold feed. by rw fold_left_app. Qed.
Lemma seen_snoc l tool error : seen (l ++ [(tool, error)]) = (tool, short_error error) :: seen l.
Proof. unfold seen. by rw map_app rev_app_distr. Qed.

Lemma next_run s x n :
  n = match s with [] => 0%N | y :: s' => N.min usize_max (N.of_nat (S (same_head y s'))) end ->
  (if bool_decide (head s = Some x) then saturating_add n 1 else 1%N)
  = N.min usize_max (N.of_nat (S (same_head x s))).
Proof.
  intros ->. destruct s as [|y s]; cbn [head same_head]; [by rw bool_decide_eq_false_2|].
  case_bool_decide as Hy; case_bool_decide as Hx; try congruence; [|done].
  injection Hy as ->. unfold saturating_add, usize_max. lia.
Qed.

Lemma feed_spec l :
  let t := feed l in
  window t = rev (take WINDOW (seen l))
  /\ run_length t = match seen l with
                    | [] => 0%N
                    | x :: s => N.min usize_max (N.of_nat (S (same_head x s)))
                    end
  /\ last_emit t = last_run (seen l).
Proof.
  induction l as [|[tool error] l IH] using rev_ind; [done|]. cbv zeta in *. rw feed_snoc seen_snoc.
  destruct IH as (Hw & Hr & He). set (x := (tool, short_error error)).
  assert (last (window (feed l)) = head (seen l)) as Hl by (rw Hw last_rev; by destruct (seen l)).
  pose proof (next_run (seen l) x _ Hr) as Hn. unfold observe. rw Hl. fold x. rw Hn.
  assert ((if length (window (feed l)) =? WINDOW then drop 1 (window (feed l)) else window (feed l)) ++ [x]
          = rev (take WINDOW (x :: seen l))) as Hw'.
  { rw Hw length_rev length_take. change (take WINDOW (x :: seen l)) with (x :: take 4 (seen l)). cbn [rev].
    apply (f_equal (fun u => u ++ [x])). destruct (Nat.eqb_spec (WINDOW `min` length (seen l)) WINDOW) as [E|E].
    - destruct (seen l) as [|a [|b [|c [|d [|e s]]]]]; try (vm_compute in E; discriminate E). done.
    - unfold WINDOW in *. by rw !take_ge; [lia|lia|]. }
  rw Hw'. cbn [last_run]. assert ((THRESHOLD <=? N.min usize_max (N.of_nat (S (same_head x (seen l)))))%N
          = (3 <=? S (same_head x (seen l)))) as ->.
  { unfold THRESHOLD, usize_max. apply eq_true_iff_eq. rw N.leb_le Nat.leb_le. lia. }
  destruct (3 <=? _); [|by rw He]. by destruct (bool_decide_reflect (last_emit (feed l) = Some (short_error error))).
Qed.

(** Whatever errors came since the last success, an error is reported exactly when it
    is at least the third equal one in a row and the last run of three had another text;
    the tracker keeps at most five errors. *)
Lemma doom_loop_spec l tool error :
  (observe (feed l) tool error).1
  = (let n := S (same_head (tool, short_error error) (seen l)) in
     if (3 <=? n) && negb (bool_decide (last_run (seen l) = Some (short_error error)))
     then Some (mkHit (N.min usize_max (N.of_nat n)) tool (short_error error)) else None)
  /\ length (window (feed (l ++ [(tool, error)]))) <= WINDOW.
Proof.
  destruct (feed_spec l) as (Hw & Hr & He). split.
  - set (x := (tool, short_error error)).
    assert (last (window (feed l)) = head (seen l)) as Hl by (rw Hw last_rev; by destruct (seen l)).
    pose proof (next_run (seen l) x _ Hr) as Hn. unfold observe. rw Hl He. fold x. rw Hn.
    assert ((THRESHOLD <=? N.min usize_max (N.of_nat (S (same_head x (seen l)))))%N
            = (3 <=? S (same_head x (seen l)))) as ->.
    { unfold THRESHOLD, usize_max. apply eq_true_iff_eq. rw N.leb_le Nat.leb_le. lia. }
    destruct (3 <=? _); [|done]. cbn [andb]. by destruct (bool_decide_reflect (last_run (seen l) = Some (short_error error))).
  - destruct (feed_spec (l ++ [(tool, error)])) as (-> & _). rw length_rev length_take. lia.
Qed.

(** The same text from another tool, or in a new run, is not reported again. *)
Lemma doom_same_text_suppressed :
  let fail tool := (lit tool, lit "timeout") in
  (observe (feed (replicate 2 (fail "bash"))) "bash" "timeout").1 = Some (mkHit 3 "bash" "timeout")
  /\ (observe (feed (replicate 3 (fail "bash") ++ replicate 2 (fail "grep"))) "grep" "timeout").1 = None.
Proof. by vm_compute. Qed.
