(* ===== verification/BashOutput.v ===== *)
(** * Shorter command output (src/tools/bash_minify.rs)

    What the bash tool does with the text of a successful or failed command before the
    model sees it: the dump of a source file is minified like [read_file] does, a build
    log keeps its errors and loses most of its warnings and progress lines.

    Parameters: [minify_source_safe] (the source minifier) and [HOME].  The threshold
    [(1.0 - 0.20) * n as f64] is exact below 2^50 and written [n * 4 / 5]. *)

From Stdlib Require Import ssreflect.
From S2P Require Import Prelude Machine BashSafety Paths PathGuard.

(** ** Dumps of a file *)

(** [rsplit_once('/')], else the whole token. *)
Definition basename (tok : str) : str := unwrap_or tok (last (split_char "/"%char tok)).

Definition DUMP_COMMANDS : list str :=
  map lit ["cat"; "head"; "tail"; "bat"; "less"; "more"; "nl"; "tac"; "fold"].
Definition is_dump_command (name : str) : bool := existsb (str_eqb name) DUMP_COMMANDS.

Definition looks_like_number (tok : str) : bool :=
  let digits := match tok with
                | c :: ((_ :: _) as rest) => if (c =? 43)%N || (c =? 45)%N then rest else tok
                | _ => tok
                end in
  negb (str_eqb digits []) && forallb is_ascii_digit digits.

Definition is_path_token (tok : str) : bool :=
  negb (starts_with tok "-" && negb (str_eqb tok "-")) && negb (looks_like_number tok).

Definition extract_file_path (home : option str) (cmd : str) : option str :=
  match split_whitespace cmd with
  | [] => None
  | c :: args =>
      if negb (is_dump_command (basename c)) then None
      else match List.filter is_path_token args with
           | [raw] => match strip_prefix raw "~/" with
                      | Some stripped => (fun h => h ++ "/" ++ stripped) <$> home
                      | None => Some raw
                      end
           | _ => None
           end
  end.

(** A replacement must save a fifth of the bytes. *)
Definition saves_enough (minified original : nat) : bool := minified <? original * 4 / 5.

Definition regular_file (fs : Fs) (p : str) : bool :=
  match metadata fs p with Ok (_, File _) => true | _ => false end.

Definition try_minify_bash_output (minify_source_safe : str -> str -> str) (home : option str) (fs : Fs)
    (g : PathGuard) (cmd stdout : str) : option str :=
  if str_eqb stdout [] then None
  else match extract_file_path home cmd with
       | None => None
       | Some path =>
           match check_read fs g path with
           | Denied _ => None
           | Allowed resolved =>
               if negb (regular_file fs resolved) then None
               else let minified := minify_source_safe resolved stdout in
                    if saves_enough (byte_len minified) (byte_len stdout) then Some minified else None
           end
       end.

(** ** Build logs *)

Definition BUILD_LOG_KEEP_HEAD_WARNINGS : nat := 3.
Definition BUILD_LOG_KEEP_TAIL_WARNINGS : nat := 3.
Definition BUILD_LOG_KEEP_HEAD_COMPILING : nat := 5.
Definition BUILD_LOG_KEEP_TAIL_COMPILING : nat := 3.
Definition BUILD_LOG_MIN_LINES : nat := 30.

Definition BUILD_COMMANDS : list str := map lit ["cargo"; "rustc"; "cargo-nextest"; "sccache"].
Definition is_build_command (cmd : str) : bool :=
  match split_whitespace cmd with
  | [] => false
  | c :: _ => existsb (str_eqb (basename c)) BUILD_COMMANDS
  end.

Definition output_looks_like_cargo (stdout : str) : bool :=
  (contains stdout "warning:" || contains stdout "error[")
  && (contains stdout "Compiling " || contains stdout "Finished " || contains stdout "    Finished"
      || contains stdout "Running ").

Inductive LineKind := WarningTitle | ErrorTitle | Compiling | Blank | Other.

#[global] Instance LineKind_eq_dec : EqDecision LineKind.
Proof. solve_decision. Defined.

Definition is_kind (k k' : LineKind) : bool := bool_decide (k = k').

Definition PROGRESS : list str :=
  map lit ["   Compiling "; "    Compiling "; "    Finished"; "     Finished"; "     Running"; "    Running"].

Definition classify (line : str) : LineKind :=
  let trimmed := trim_start line in
  if str_eqb trimmed [] then Blank
  else if starts_with trimmed "warning:" then WarningTitle
  else if starts_with trimmed "error[" || starts_with trimmed "error:" then ErrorTitle
  else if existsb (starts_with line) PROGRESS then Compiling
  else Other.

Definition WARNINGS_OMITTED_MARKER : str := "<<WARNINGS_OMITTED>>".
Definition CRATES_OMITTED_MARKER : str := "<<CRATES_OMITTED>>".

(** The positions of the lines of a kind. *)
Definition indices (k : LineKind) (kinds : list LineKind) : list nat :=
  List.filter (fun i => match kinds !! i with Some k' => is_kind k k' | None => false end) (seq 0 (length kinds)).

(** Of the first [head] and the last [tail] of [n], how many are kept. *)
Definition kept_head (head n : nat) : nat := Nat.min head n.
Definition kept_tail (head tail n : nat) : nat := Nat.min tail (n - kept_head head n).

(** The positions between the head and the tail. *)
Definition middle (head tail : nat) (l : list nat) : list nat :=
  let n := length l in
  take (n - kept_tail head tail n - kept_head head n) (drop (kept_head head n) l).

Definition dropped_warning_lines (kinds : list LineKind) : list nat :=
  middle BUILD_LOG_KEEP_HEAD_WARNINGS BUILD_LOG_KEEP_TAIL_WARNINGS (indices WarningTitle kinds).
Definition dropped_compiling_lines (kinds : list LineKind) : list nat :=
  middle BUILD_LOG_KEEP_HEAD_COMPILING BUILD_LOG_KEEP_TAIL_COMPILING (indices Compiling kinds).

Definition among (l : list nat) (i : nat) : bool := existsb (Nat.eqb i) l.

(** A marker stands for the lines left out, once in a row. *)
Definition push_marker (out : list str) (marker : str) : list str :=
  match last out with
  | Some s => if str_eqb s marker then out else out ++ [marker]
  | None => out ++ [marker]
  end.

(** One line of the walk; the state is the output and whether a dropped warning's
    block is being skipped. *)
Definition log_step (kinds : list LineKind) (st : list str * bool) (i : nat) (line : str) (k : LineKind)
    : list str * bool :=
  let '(out, skipping_warning) := st in
  if is_kind k WarningTitle
  then if among (dropped_warning_lines kinds) i
       then (push_marker out WARNINGS_OMITTED_MARKER, true)
       else (out ++ [line], false)
  else if skipping_warning && negb (is_kind k Blank || is_kind k Compiling || is_kind k ErrorTitle)
  then (out, true)
  else if is_kind k Compiling && among (dropped_compiling_lines kinds) i
  then (push_marker out CRATES_OMITTED_MARKER, false)
  else (out ++ [line], false).

Fixpoint log_walk (kinds : list LineKind) (i : nat) (lines : list str) (st : list str * bool) : list str * bool :=
  match lines with
  | [] => st
  | line :: lines' => log_walk kinds (S i) lines' (log_step kinds st i line (classify line))
  end.

Definition warnings_note (kinds : list LineKind) : str :=
  let n := length (indices WarningTitle kinds) in
  "[…" ++ show_nat (length (dropped_warning_lines kinds)) ++ " warnings omitted (kept first "
  ++ show_nat (kept_head BUILD_LOG_KEEP_HEAD_WARNINGS n) ++ " and last "
  ++ show_nat (kept_tail BUILD_LOG_KEEP_HEAD_WARNINGS BUILD_LOG_KEEP_TAIL_WARNINGS n) ++ ")…]".
Definition compiling_note (kinds : list LineKind) : str :=
  let n := length (indices Compiling kinds) in
  "[…" ++ show_nat (length (dropped_compiling_lines kinds)) ++ " crate compilations omitted (kept first "
  ++ show_nat (kept_head BUILD_LOG_KEEP_HEAD_COMPILING n) ++ " and last "
  ++ show_nat (kept_tail BUILD_LOG_KEEP_HEAD_COMPILING BUILD_LOG_KEEP_TAIL_COMPILING n) ++ ")…]".

Definition with_notes (kinds : list LineKind) (s : str) : str :=
  let s := if (0 <? length (dropped_warning_lines kinds)) && str_eqb s WARNINGS_OMITTED_MARKER
           then warnings_note kinds else s in
  if (0 <? length (dropped_compiling_lines kinds)) && str_eqb s CRATES_OMITTED_MARKER
  then compiling_note kinds else s.

Definition filter_build_log (ls : list str) : list str :=
  let kinds := map classify ls in
  map (with_notes kinds) (log_walk kinds 0 ls ([], false)).1.

(** The lines with their line feeds. *)
Definition log_size (ls : list str) : nat := list_sum (map (fun l => byte_len l + 1) ls).

Definition try_minify_build_log (cmd stdout : str) : option str :=
  if str_eqb stdout [] then None
  else if negb (is_build_command cmd) && negb (output_looks_like_cargo stdout) then None
  else let ls := lines stdout in
       if length ls <? BUILD_LOG_MIN_LINES then None
       else let minified := filter_build_log ls in
            if saves_enough (log_size minified) (log_size ls) then Some (join [10%N] minified) else None.

(** ** Lemmas *)

#[local] Opaque WARNINGS_OMITTED_MARKER CRATES_OMITTED_MARKER classify.

Lemma is_kind_eq k k' : is_kind k k' = true <-> k = k'.
Proof. apply bool_decide_eq_true. Qed.

Lemma among_elem l i : among l i = true <-> i ∈ l.
Proof.
  unfold among. rw existsb_exists. setoid_rewrite Nat.eqb_eq. setoid_rewrite <- list_elem_of_In.
  split; [intros (x & ? & ->); done | by exists i].
Qed.

Lemma middle_sub head tail l : middle head tail l ⊆ l.
Proof.
  intros x Hx. unfold middle in Hx. apply (elem_of_take (A := nat)) in Hx as (j & Hj & _).
  rw lookup_drop in Hj. by eapply list_elem_of_lookup_2.
Qed.

Lemma indices_kind k kinds i : i ∈ indices k kinds -> kinds !! i = Some k.
Proof.
  unfold indices. rw list_elem_of_In filter_In. intros [_ Hk].
  destruct (kinds !! i) as [k'|]; [|done]. by apply is_kind_eq in Hk as ->.
Qed.

Lemma dropped_warning_kind kinds i : among (dropped_warning_lines kinds) i = true -> kinds !! i = Some WarningTitle.
Proof. intros Hi. by apply among_elem, middle_sub, indices_kind in Hi. Qed.

Lemma dropped_compiling_kind kinds i : among (dropped_compiling_lines kinds) i = true -> kinds !! i = Some Compiling.
Proof. intros Hi. by apply among_elem, middle_sub, indices_kind in Hi. Qed.

(** *** Which lines survive *)

Definition opens_block (kinds : list LineKind) (i : nat) : bool :=
  match kinds !! i with Some k => negb (is_kind k Other) | None => true end.

(** The line that opens_block the block of line [i - 1] is a warning left out. *)
Definition in_dropped_block (kinds : list LineKind) (i : nat) : bool :=
  match last (List.filter (opens_block kinds) (seq 0 i)) with
  | Some j => among (dropped_warning_lines kinds) j
  | None => false
  end.

Definition survives (kinds : list LineKind) (i : nat) : bool :=
  negb (in_dropped_block kinds (S i)) && negb (among (dropped_compiling_lines kinds) i).

Definition survivors_from (kinds : list LineKind) (i : nat) (ls : list str) : list str :=
  concat (imap (fun j l => if survives kinds (i + j) then [l] else []) ls).

Definition not_marker (s : str) : bool :=
  negb (str_eqb s WARNINGS_OMITTED_MARKER || str_eqb s CRATES_OMITTED_MARKER).

Lemma in_dropped_block_S kinds i :
  in_dropped_block kinds (S i)
  = if opens_block kinds i then among (dropped_warning_lines kinds) i else in_dropped_block kinds i.
Proof.
  unfold in_dropped_block. rw seq_S List.filter_app. cbn [List.filter]. rw Nat.add_0_l.
  destruct (opens_block kinds i); [by rw last_snoc | by rw app_nil_r].
Qed.

Lemma unmarked_push out m :
  not_marker m = false -> List.filter not_marker (push_marker out m) = List.filter not_marker out.
Proof.
  intros Hm. unfold push_marker.
  assert (List.filter not_marker (out ++ [m]) = List.filter not_marker out) as He.
  { rw List.filter_app. cbn [List.filter]. by rw Hm app_nil_r. }
  destruct (last out) as [s|]; [|done]. by destruct (str_eqb s m).
Qed.

Lemma unmarked_snoc out l :
  not_marker l = true -> List.filter not_marker (out ++ [l]) = List.filter not_marker out ++ [l].
Proof. intros Hl. rw List.filter_app. cbn [List.filter]. by rw Hl. Qed.

Lemma log_step_spec kinds out i line :
  kinds !! i = Some (classify line) -> not_marker line = true ->
  let r := log_step kinds (out, in_dropped_block kinds i) i line (classify line) in
  r.2 = in_dropped_block kinds (S i)
  /\ List.filter not_marker r.1
     = List.filter not_marker out ++ (if survives kinds i then [line] else []).
Proof.
  intros Hk Hl. unfold survives. rw in_dropped_block_S. unfold opens_block, log_step.
  assert (among (dropped_warning_lines kinds) i = true -> classify line = WarningTitle) as Hw.
  { intros Hd. apply dropped_warning_kind in Hd. rw Hd in Hk. by injection Hk. }
  assert (among (dropped_compiling_lines kinds) i = true -> classify line = Compiling) as Hc.
  { intros Hd. apply dropped_compiling_kind in Hd. rw Hd in Hk. by injection Hk. }
  rw Hk. destruct (among (dropped_warning_lines kinds) i), (among (dropped_compiling_lines kinds) i);
    try (specialize (Hw eq_refl); specialize (Hc eq_refl); rw Hw in Hc; discriminate).
  - rw (Hw eq_refl). cbn. rw app_nil_r. split; [done | by apply unmarked_push].
  - rw (Hc eq_refl). destruct (in_dropped_block kinds i); cbn; rw app_nil_r; (split; [done | by apply unmarked_push]).
  - destruct (in_dropped_block kinds i), (classify line); cbn; rw ?app_nil_r; (split; [done | try done; by apply unmarked_snoc]).
Qed.

Lemma log_walk_spec kinds ls i out :
  (forall j l, ls !! j = Some l -> kinds !! (i + j) = Some (classify l)) ->
  Forall (fun l => not_marker l = true) ls ->
  List.filter not_marker (log_walk kinds i ls (out, in_dropped_block kinds i)).1
  = List.filter not_marker out ++ survivors_from kinds i ls.
Proof.
  revert i out. induction ls as [|l ls IH]; intros i out Hk Hm; [by cbn; rw app_nil_r |].
  apply Forall_cons in Hm as [Hl Hm]. cbn [log_walk].
  destruct (log_step_spec kinds out i l) as [Hs Ho]; [rw -(Hk 0 l eq_refl); f_equal; lia | done |].
  destruct (log_step kinds _ i l _) as [out' sk] eqn:E. cbn [fst snd] in Hs, Ho. subst sk.
  rw IH; [intros j x Hj; rw -(Hk (S j) x Hj); f_equal; lia | done |].
  rw Ho. rw -app_assoc. f_equal. unfold survivors_from. cbn. rw Nat.add_0_r. f_equal. f_equal.
  apply imap_ext. intros j x _. cbn. by replace (S (i + j)) with (i + S j) by lia.
Qed.

Lemma with_notes_id kinds l : not_marker l = true -> with_notes kinds l = l.
Proof.
  unfold not_marker, with_notes. intros Hl. apply negb_true_iff, orb_false_iff in Hl as [H1 H2].
  rw H1 andb_false_r H2. by rw andb_false_r.
Qed.

(** An error opens_block a block of its own. *)
Lemma error_survives kinds i j :
  kinds !! i = Some ErrorTitle -> i <= j -> (forall k, i < k <= j -> kinds !! k = Some Other) ->
  survives kinds j = true.
Proof.
  intros Hi Hle Hother. unfold survives. apply andb_true_iff. rw !negb_true_iff.
  assert (in_dropped_block kinds (S j) = false) as Hb.
  { induction j as [|j IH].
    - assert (i = 0) as -> by lia. rw in_dropped_block_S. unfold opens_block. rw Hi. cbn.
      apply not_true_is_false. intros Hd%dropped_warning_kind. congruence.
    - rw in_dropped_block_S. unfold opens_block. destruct (decide (i = S j)) as [<-|Hne].
      + rw Hi. cbn. apply not_true_is_false. intros Hd%dropped_warning_kind. congruence.
      + rw (Hother (S j)); [lia |]. cbn. apply IH; [lia | intros k Hk; apply Hother; lia]. }
  split; [done |]. apply not_true_is_false. intros Hd%dropped_compiling_kind.
  destruct (decide (i = j)) as [->|Hne]; [congruence |]. rw (Hother j) in Hd; [lia |]. done.
Qed.

(** ** Gaps *)

(** Eight warnings in thirty lines, each followed by a blank line. *)
Definition eight_warnings : list str :=
  concat (replicate 8 [lit "warning: unused variable"; lit " --> a.rs"; []]) ++ replicate 6 (lit "test a ... ok").

(** The middle of the warnings is said to become a single marker.  Each warning left out
    leaves its own, as the blank line after it separates the two; each marker gives the
    number of all of them. *)
Lemma markers_repeat :
  let out := filter_build_log eight_warnings in
  length (dropped_warning_lines (map classify eight_warnings)) = 2
  /\ length (List.filter (str_eqb (lit "[…2 warnings omitted (kept first 3 and last 3)…]")) out) = 2.
Proof. by vm_compute. Qed.

(** A line that follows a dropped warning without a blank line goes with it. *)
Definition swallowed : list str :=
  replicate 6 (lit "warning: a") ++ [lit "warning: b"; lit "test a ... FAILED"; []] ++ replicate 6 (lit "warning: a").
Lemma failures_go_with_warnings : existsb (fun l => contains l "FAILED") (filter_build_log swallowed) = false.
Proof. by vm_compute. Qed.

(** ** Properties *)

(** A filtered build log is the lines of the log that survive, in order, with the
    notes on what was left out between them: only a warning that is neither among the
    first nor the last three, the lines after it up to the next blank, progress or
    diagnostic line, and the progress lines in the middle are left out.  Each error line
    and each line of its block is in the result, which has at most six of the warnings. *)
Lemma build_log_spec ls :
  Forall (fun l => not_marker l = true) ls ->
  let kinds := map classify ls in
  let noted := (log_walk kinds 0 ls ([], false)).1 in
  filter_build_log ls = map (with_notes kinds) noted
  /\ List.filter not_marker noted = survivors_from kinds 0 ls
  /\ (forall i j l, kinds !! i = Some ErrorTitle -> i <= j -> (forall k, i < k <= j -> kinds !! k = Some Other) ->
      ls !! j = Some l -> l ∈ filter_build_log ls)
  /\ length (indices WarningTitle kinds) - length (dropped_warning_lines kinds) <= 6.
Proof.
  intros Hm. cbv zeta.
  assert (List.filter not_marker (log_walk (map classify ls) 0 ls ([], false)).1
          = survivors_from (map classify ls) 0 ls) as Hw.
  { apply (log_walk_spec (map classify ls) ls 0 []); [|done]. intros j l Hj. rw Nat.add_0_l. by rw list_lookup_fmap Hj. }
  split; [done |]. split; [done |]. split.
  - intros i j l Hi Hle Hother Hj.
    pose proof (error_survives _ i j Hi Hle Hother) as Hs.
    assert (l ∈ survivors_from (map classify ls) 0 ls) as Hin.
    { unfold survivors_from. apply list_elem_of_In, in_concat. exists [l]. split; [|by left].
      apply list_elem_of_In, elem_of_lookup_imap. exists j, l. rw Nat.add_0_l. by rw Hs. }
    rw -Hw in Hin. apply list_elem_of_In, filter_In in Hin as [Hin Hl].
    unfold filter_build_log. apply list_elem_of_In, in_map_iff. exists l.
    split; [by apply with_notes_id | done].
  - unfold dropped_warning_lines, middle. rw length_take length_drop.
    unfold kept_head, kept_tail, kept_head, BUILD_LOG_KEEP_HEAD_WARNINGS, BUILD_LOG_KEEP_TAIL_WARNINGS. lia.
Qed.

Lemma build_log_spec_witness :
  let ls := [lit "warning: a"; lit "error: b"; lit " --> b.rs"] in lit " --> b.rs" ∈ filter_build_log ls.
Proof.
  intros ls. assert (Forall (fun l => not_marker l = true) ls) as Hf by (repeat constructor).
  apply (proj1 (proj2 (proj2 (build_log_spec ls Hf))) 1 2); [by vm_compute | lia | | by vm_compute].
  intros k Hk. assert (k = 2) as -> by lia. by vm_compute.
Defined.
