(* ===== verification/Shell.v ===== *)
(** * Running a command (src/session/bash_runner/mod.rs, src/tools/bash.rs)

    The environment a child gets, the capped capture of its output, what becomes of an
    invocation that ends, times out, is cancelled or leaves a pipe open, and the bash
    tool around it: gate, dry run, background start, Docker, shorter output.

    Parameters: what the processes do ([Invocation]), which directories are
    world-writable, the tilde expansion and the source minifier; the start of a
    background job is an argument of the tool ([Jobs.v] models the registry).  Resource
    limits, landlock and seccomp are set up by system calls after the fork and are not
    modelled. *)

From Stdlib Require Import ssreflect.
From S2P Require Import Prelude Machine BashSafety Paths PathGuard BudgetGuard FileTools ToolGates Outcomes BashOutput.

(** ** The environment of a child *)

Definition SECRET_ENV_SUFFIXES : list str := map lit
  ["_API_KEY"; "_TOKEN"; "_SECRET"; "_ACCESS_KEY"; "_PASSWORD"; "_PRIVATE_KEY"; "_CREDENTIAL"; "_PASS";
   "_PASSPHRASE"; "_KEYFILE"; "_CONN_STRING"; "_CONNECTION_STRING"].
Definition SECRET_ENV_EXACT : list str := map lit
  ["API_KEY"; "TOKEN"; "SECRET"; "AWS_SECRET_ACCESS_KEY"; "AWS_ACCESS_KEY_ID"; "PASSPHRASE"].

Definition ascii_upper (c : char) : char := if in_range 97 122 c then (c - 32)%N else c.
Definition to_ascii_uppercase (s : str) : str := map ascii_upper s.

Definition is_secret_env_name (name : str) : bool :=
  let upper := to_ascii_uppercase name in
  existsb (ends_with upper) SECRET_ENV_SUFFIXES || listed SECRET_ENV_EXACT upper.

(** The variables of the parent, then those set for the child, then the removals. *)
Definition scrub_secrets_from_child_env (parent child : list (str * str)) : list (str * str) :=
  let secrets := List.filter is_secret_env_name (map fst parent) in
  List.filter (fun kv => negb (listed secrets kv.1)) child.

Definition set_env (k v : str) (env : list (str * str)) : list (str * str) :=
  List.filter (fun kv => negb (str_eqb kv.1 k)) env ++ [(k, v)].

Definition SYSTEM_DIRS : list str := map lit
  ["/usr/local/sbin"; "/usr/local/bin"; "/usr/sbin"; "/usr/bin"; "/sbin"; "/bin"].

Fixpoint keep_dirs (is_world_writable : str -> bool) (kept : list str) (entries : list str) : list str :=
  match entries with
  | [] => kept
  | entry :: rest =>
      let kept' :=
        if str_eqb entry [] then kept
        else if negb (starts_with entry "/") then kept
        else if listed SYSTEM_DIRS entry then kept
        else if is_world_writable entry then kept
        else if listed kept entry then kept
        else kept ++ [entry] in
      keep_dirs is_world_writable kept' rest
  end.
Definition sanitized_path (is_world_writable : str -> bool) (original : str) : str :=
  join ":" (keep_dirs is_world_writable SYSTEM_DIRS (split_char ":"%char original)).

(** The environment of a foreground command. *)
Definition shell_env (is_world_writable : str -> bool) (parent : list (str * str)) : list (str * str) :=
  let path := sanitized_path is_world_writable (unwrap_or [] (assoc "PATH" parent)) in
  scrub_secrets_from_child_env parent (set_env "PATH" path parent).

(** ** Capped capture *)

Definition MAX_BASH_OUTPUT_BYTES : nat := N.to_nat 1048576.

(** What a pipe still holds, how much of it each read delivers at most (one byte more
    than the number), and the error that ends it. *)
Record Pipe := mkPipe { rest : list N; grains : list nat; breaks : option str }.

Definition BLOCK : nat := N.to_nat 8192.

(** A read into a buffer of [n] bytes. *)
Definition read (n : nat) (p : Pipe) : result (list N * Pipe) str :=
  match rest p with
  | [] => match breaks p with Some e => Err e | None => Ok ([], p) end
  | bs => let k := match grains p with [] => n | g :: _ => Nat.min n (S g) end in
          Ok (take k bs, mkPipe (drop k bs) (tail (grains p)) (breaks p))
  end.

Record CappedReader := mkReader { inner : Pipe; cap : nat; truncated_bytes : nat; kept : nat }.

Fixpoint sink (fuel : nat) (p : Pipe) (dropped : nat) : result (Pipe * nat) str :=
  match fuel with
  | O => Ok (p, dropped)
  | S f => let? r := read BLOCK p in
           match r.1 with [] => Ok (r.2, dropped) | bs => sink f r.2 (dropped + length bs) end
  end.

(** [read_into]: the bytes kept by one call, in the buffer. *)
Definition read_into (cr : CappedReader) (buf : list N) : result (nat * list N * CappedReader) str :=
  let room := cap cr - kept cr in
  if room =? 0
  then let? r := sink (S (length (rest (inner cr)))) (inner cr) (truncated_bytes cr) in
       Ok (0, buf, mkReader r.1 (cap cr) r.2 (kept cr))
  else let? r := read (Nat.min room BLOCK) (inner cr) in
       let n := length r.1 in
       if n =? 0 then Ok (0, buf, mkReader r.2 (cap cr) (truncated_bytes cr) (kept cr))
       else let to_keep := Nat.min n room in
            Ok (to_keep, buf ++ take to_keep r.1,
                mkReader r.2 (cap cr) (if to_keep <? n then truncated_bytes cr + (n - to_keep) else truncated_bytes cr)
                  (kept cr + to_keep)).

Fixpoint drain_loop (fuel : nat) (cr : CappedReader) (out : list N) : result (list N * nat) str :=
  match fuel with
  | O => Ok (out, truncated_bytes cr)
  | S f => let? r := read_into cr out in
           let '(n, out', cr') := r in
           if n =? 0 then Ok (out', truncated_bytes cr') else drain_loop f cr' out'
  end.

(** [drain_capped]: the bytes kept and the number of bytes dropped. *)
Definition drain_capped (p : Pipe) (max : nat) : result (list N * nat) str :=
  drain_loop (S (length (rest p))) (mkReader p max 0 0) [].

Definition cap_to_string (raw : list N) (dropped : nat) : str :=
  from_utf8_lossy raw
  ++ (if 0 <? dropped
      then [10%N] ++ "[...truncated: " ++ show_nat dropped ++ " bytes omitted, output exceeded 1 MiB cap...]" ++ [10%N]
      else []).

(** ** An invocation *)

(** The raw wait status of Unix. *)
Definition status_success (raw : Z) : bool := (raw =? 0)%Z.
Definition status_code (raw : Z) : option Z :=
  if (Z.land raw 127 =? 0)%Z then Some (Z.land (Z.shiftr raw 8) 255) else None.
Definition status_killed : Z := 9.

Inductive ShellError :=
| Spawn (message : str)
| Drain (label message : str)
| ShellCancelled.

Definition shell_error_text (e : ShellError) : str :=
  match e with
  | Spawn m => m
  | Drain label m => "drain " ++ label ++ ": " ++ m
  | ShellCancelled => lit "cancelled"
  end.

Record ShellOutput := mkOutput { status : Z; out_text : str; err_text : str }.

(** What becomes of the task that drains a pipe; [Stuck] is one that outlives the wait. *)
Inductive DrainTask := Drains (p : Pipe) | Panics (e : str) | Stuck.

Inductive ChildEnd := Exits (raw : Z) | WaitFails (e : str) | Expires | IsCancelled.

Record Invocation := mkInvocation {
  starts : result unit str;
  ends : ChildEnd;
  child_stdout : DrainTask;
  child_stderr : DrainTask
}.

Definition join_drain (t : DrainTask) (label : str) : result (list N * nat) ShellError :=
  match t with
  | Drains p => map_err (Drain label) (drain_capped p MAX_BASH_OUTPUT_BYTES)
  | Panics e => Err (Drain label ("task panicked: " ++ e))
  | Stuck => Err (Drain label (lit "task did not finish within 5s"))
  end.

Definition join_drain_or_note (t : DrainTask) (label : str) : list N * nat * option str :=
  match join_drain t label with
  | Ok p => (p.1, p.2, None)
  | Err (Drain _ message) =>
      ([], 0, Some ("[" ++ label ++ " not captured: a background process still holds the pipe (" ++ message ++ ")]"))
  | Err e => ([], 0, Some ("[" ++ label ++ " not captured: " ++ shell_error_text e ++ "]"))
  end.

Definition noted_text (t : DrainTask) (label : str) : str :=
  let '(raw, dropped, note) := join_drain_or_note t label in cap_to_string raw dropped ++ unwrap_or [] note.

Definition timeout_marker (timeout_secs : N) : str := "[timed out after " ++ show_N timeout_secs ++ " seconds]".

Definition run_shell_with_token (c : Invocation) (timeout_secs : N) : result ShellOutput ShellError :=
  match starts c with
  | Err e => Err (Spawn ("Failed to execute command: " ++ e))
  | Ok _ =>
      match ends c with
      | Exits raw => Ok (mkOutput raw (noted_text (child_stdout c) "stdout") (noted_text (child_stderr c) "stderr"))
      | WaitFails e => Err (Spawn ("Failed to wait for command: " ++ e))
      | Expires =>
          let? o := join_drain (child_stdout c) "stdout" in
          let? e := join_drain (child_stderr c) "stderr" in
          Ok (mkOutput status_killed (timeout_marker timeout_secs ++ [10%N] ++ cap_to_string o.1 o.2)
                (cap_to_string e.1 e.2))
      | IsCancelled => Err ShellCancelled
      end
  end.

Definition is_timeout_marker (o : ShellOutput) (timeout_secs : N) : bool :=
  negb (status_success (status o)) && starts_with (out_text o) (timeout_marker timeout_secs).

(** ** The bash tool *)

Definition MAX_BASH_TIMEOUT_SECS : N := 86400.

Record DockerConfig := mkDocker { enabled : bool; image : str; memory : str; cpus : str }.

Definition build_docker_args (cfg : DockerConfig) (workdir cmd : str) : list str :=
  [lit "run"; lit "--rm"; lit "--network"; lit "none"; lit "--memory"; memory cfg; lit "--cpus"; cpus cfg;
   lit "-v"; workdir ++ ":/work"; lit "-w"; lit "/work"; image cfg; lit "/bin/sh"; lit "-c"; cmd].

(** A call of [join_capped_drain]; [None] when the task never ends. *)
Definition join_capped_drain (t : DrainTask) : option (list N * nat) :=
  match t with
  | Drains p => Some (match drain_capped p MAX_BASH_OUTPUT_BYTES with Ok r => r | Err _ => ([], 0) end)
  | Panics _ => Some ([], 0)
  | Stuck => None
  end.

Definition docker_timeout_result (timeout_secs : N) (out err : list N * nat) : Z * str * str :=
  (9%Z, timeout_marker timeout_secs ++ [10%N] ++ cap_to_string out.1 out.2, cap_to_string err.1 err.2).

(** A status whose raw value is the exit code. *)
Definition from_code (code : Z) : Z := code.

Section Tool.
Context `{UnicodeCase}.
Variable tilde : str -> str.
Variable minify_source_safe : str -> str -> str.
Variable home : option str.

(** [std::fs::canonicalize], as the gate uses it. *)
Definition located (fs : Fs) (p : str) : option (list str) :=
  match resolve fs Follow p with Ok loc => Some loc | Err _ => None end.

Record Bash := mkBash {
  bash_deny_list : DenyList;
  bash_path_guard : PathGuard;
  bash_sandbox_workdir : bool;
  docker_config : option DockerConfig
}.

Definition bash_gate (fs : Fs) (b : Bash) (cmd : str) (workdir : option str) : option str :=
  check_bash_command_str (located fs) cmd workdir (bash_deny_list b) (sandbox_dir (bash_path_guard b)) (bash_sandbox_workdir b).

(** The directory the container mounts. *)
Definition docker_workdir (fs : Fs) (b : Bash) (workdir : str) : result str str :=
  let? resolved := map_err (fun e => "docker workdir cannot be resolved: " ++ workdir ++ " (" ++ errno_text e ++ ")")
                     (canonicalize fs workdir) in
  do? match sandbox_dir (bash_path_guard b) with
      | None => Ok tt
      | Some sandbox =>
          let? root := map_err (fun e => "cannot canonicalize project root '" ++ sandbox ++ "': " ++ errno_text e)
                         (canonicalize fs sandbox) in
          deny_if (negb (path_starts_with resolved root))
            ("Docker workdir escapes project root: " ++ resolved ++ " is outside " ++ root)
      end ;;
  do? deny_if (contains resolved ":")
        ("docker workdir contains ':' which would inject Docker mount options: " ++ resolved) ;;
  Ok resolved.

(** [run_docker]; the container is a function of the arguments of the client.  [None]
    when a pipe of a container that has ended stays open. *)
Definition run_docker (container : list str -> Invocation) (fs : Fs) (b : Bash) (cmd workdir : str) (timeout_secs : N)
    : option (result (Z * str * str) ShellError) :=
  match docker_config b with
  | None => Some (Err (Spawn (lit "docker_config is None (run_docker called without docker enabled)")))
  | Some cfg =>
      match bash_gate fs b cmd None with
      | Some denied => Some (Err (Spawn denied))
      | None =>
          match docker_workdir fs b workdir with
          | Err e => Some (Err (Spawn e))
          | Ok resolved =>
              let c := container (build_docker_args cfg resolved cmd) in
              match starts c with
              | Err e => Some (Err (Spawn ("docker spawn failed: " ++ e)))
              | Ok _ =>
                  match ends c with
                  | WaitFails e => Some (Err (Spawn ("docker wait: " ++ e)))
                  | Expires =>
                      let '(o, e) := match join_capped_drain (child_stdout c), join_capped_drain (child_stderr c) with
                                     | Some o, Some e => (o, e)
                                     | _, _ => (([], 0), ([], 0))
                                     end in
                      Some (Ok (docker_timeout_result timeout_secs o e))
                  | IsCancelled => Some (Err ShellCancelled)
                  | Exits raw =>
                      match join_capped_drain (child_stdout c), join_capped_drain (child_stderr c) with
                      | Some o, Some e =>
                          Some (Ok (unwrap_or (-1)%Z (status_code raw), cap_to_string o.1 o.2, cap_to_string e.1 e.2))
                      | _, _ => None
                      end
                  end
              end
          end
      end
  end.

Definition docker_output (r : Z * str * str) : ShellOutput :=
  let '(code, o, e) := r in mkOutput (if (code =? 0)%Z then 0%Z else from_code code) o e.

Definition minified (fs : Fs) (b : Bash) (cmd stdout : str) : str :=
  let content := unwrap_or stdout (try_minify_bash_output minify_source_safe home fs (bash_path_guard b) cmd stdout) in
  unwrap_or content (try_minify_build_log cmd content).

Definition stderr_part (stderr : str) : str :=
  if str_eqb stderr [] then [] else [10%N] ++ "stderr:" ++ [10%N] ++ stderr.

Definition shell_outcome (fs : Fs) (b : Bash) (cmd : str) (timeout_secs : N) (r : result ShellOutput ShellError)
    : CallOutcome :=
  match r with
  | Ok o =>
      if status_success (status o)
      then Success (minified fs b cmd (out_text o) ++ stderr_part (err_text o))
      else if is_timeout_marker o timeout_secs then Failure (Timeout timeout_secs)
      else let exit_code := unwrap_or (-1)%Z (status_code (status o)) in
           Failure (Execution ("Command exited with code " ++ show_Z exit_code ++ [10%N] ++ "stdout:" ++ [10%N]
                               ++ minified fs b cmd (out_text o))
                      (Some exit_code) (stderr_part (err_text o)))
  | Err ShellCancelled => Failure Cancelled
  | Err e => Failure (Execution ("Failed to execute command: " ++ shell_error_text e) None [])
  end.

Definition uses_docker (b : Bash) : bool :=
  match docker_config b with Some c => enabled c | None => false end.

(** [Bash::run].  [spawn_job] starts a background job, [shell] a command in a directory;
    [fs'] is the tree the command leaves behind. *)
Definition bash_run (spawn_job : str -> option str -> option N -> result N str)
    (shell : str -> str -> Invocation) (container : list str -> Invocation)
    (fs fs' : Fs) (b : Bash) (dry_run : bool) (args : json) : option CallOutcome :=
  match str_arg args "command" with
  | None => Some (Failure (InvalidArgs (lit "Missing 'command' argument")))
  | Some cmd =>
      let timeout_secs := N.min (unwrap_or 30%N (json_get args "timeout" ≫= as_u64)) MAX_BASH_TIMEOUT_SECS in
      let workdir := unwrap_or (lit ".") (str_arg args "workdir") in
      let workdir_path := tilde workdir in
      if dry_run
      then Some (match bash_gate fs b cmd (Some workdir) with
                 | Some denied => Failure (AccessDenied denied)
                 | None => Success ("Dry run: would execute bash command: " ++ cmd ++ [10%N] ++ "  workdir: "
                                    ++ workdir_path ++ [10%N] ++ "  timeout: " ++ show_N timeout_secs ++ "s")
                 end)
      else if unwrap_or false (json_get args "background" ≫= as_bool)
      then Some (match spawn_job cmd (str_arg args "workdir")
                         ((fun t => N.min t MAX_BASH_TIMEOUT_SECS) <$> (json_get args "timeout" ≫= as_u64)) with
                 | Ok id => Success ("Background job #" ++ show_N id ++ " started. Use bash_status(id=" ++ show_N id
                                     ++ ") to check status.")
                 | Err e => Failure (Internal ("Failed to start background job: " ++ e))
                 end)
      else match bash_gate fs b cmd (Some workdir) with
           | Some denied => Some (Failure (AccessDenied denied))
           | None =>
               if uses_docker b
               then (fun r => shell_outcome fs' b cmd timeout_secs
                                match r with Ok r => Ok (docker_output r) | Err e => Err e end)
                    <$> run_docker container fs b cmd workdir_path timeout_secs
               else Some (shell_outcome fs' b cmd timeout_secs
                            (run_shell_with_token (shell cmd workdir_path) timeout_secs))
           end
  end.
End Tool.

(** ** Lemmas *)

(** *** Capture *)

Lemma read_cons n p :
  rest p <> [] -> 0 < n ->
  exists k, 0 < k <= n /\ read n p = Ok (take k (rest p), mkPipe (drop k (rest p)) (tail (grains p)) (breaks p)).
Proof.
  intros Hr Hn. unfold read. destruct (rest p) as [|b bs]; [done |].
  exists (match grains p with [] => n | g :: _ => Nat.min n (S g) end). split; [destruct (grains p); lia | done].
Qed.

Lemma sink_spec fuel p d :
  length (rest p) < fuel ->
  match breaks p with
  | Some e => sink fuel p d = Err e
  | None => exists p', sink fuel p d = Ok (p', d + length (rest p))
  end.
Proof.
  revert p d. induction fuel as [|f IH]; intros p d Hf; [lia |]. cbn [sink].
  destruct (decide (rest p = [])) as [Hr|Hr].
  - unfold read. rw Hr. destruct (breaks p); [done |]. exists p. cbn. by rw Nat.add_0_r.
  - destruct (read_cons BLOCK p Hr ltac:(unfold BLOCK; lia)) as (k & Hk & ->). cbn [result_bind fst snd].
    destruct (take k (rest p)) as [|b bs] eqn:Ht.
    { apply (f_equal length) in Ht. rw length_take in Ht. destruct (rest p); [done | cbn in Ht; lia]. }
    rw -Ht. specialize (IH (mkPipe (drop k (rest p)) (tail (grains p)) (breaks p)) (d + length (take k (rest p)))).
    cbn [rest breaks] in IH. rw length_drop in IH. rw length_take in IH. rw length_take.
    assert (0 < length (rest p)) by (destruct (rest p); [done | cbn; lia]).
    destruct (breaks p); [by apply IH; lia |]. destruct IH as (p' & ->); [lia |]. exists p'. f_equal. f_equal. lia.
Qed.

Lemma drain_loop_spec fuel p max kept out :
  length (rest p) < fuel -> kept <= max ->
  drain_loop fuel (mkReader p max 0 kept) out
  = match breaks p with
    | Some e => Err e
    | None => Ok (out ++ take (max - kept) (rest p), length (rest p) - (max - kept))
    end.
Proof.
  revert p kept out. induction fuel as [|f IH]; intros p kept out Hf Hk; [lia |].
  cbn [drain_loop]. unfold read_into. cbn [cap Shell.kept inner truncated_bytes].
  destruct (max - kept =? 0) eqn:Hroom.
  - apply Nat.eqb_eq in Hroom. rw Hroom take_0 app_nil_r Nat.sub_0_r.
    pose proof (sink_spec (S (length (rest p))) p 0 ltac:(lia)) as Hs.
    destruct (breaks p) as [e|]; [by rw Hs |]. by destruct Hs as (p' & ->).
  - apply Nat.eqb_neq in Hroom. destruct (decide (rest p = [])) as [Hr|Hr].
    + unfold read. rw Hr. destruct (breaks p); [done |]. cbn. by rw take_nil app_nil_r.
    + destruct (read_cons (Nat.min (max - kept) BLOCK) p Hr ltac:(unfold BLOCK; lia)) as (k & Hk' & ->).
      cbn [result_bind fst snd].
      assert (0 < length (rest p)) by (destruct (rest p); [done | cbn; lia]).
      rw length_take. set (m := Nat.min k (length (rest p))). assert (0 < m) as Hm by lia.
      destruct (m =? 0) eqn:Hz; [apply Nat.eqb_eq in Hz; lia |].
      replace (Nat.min m (max - kept)) with m by lia. rw Nat.ltb_irrefl. cbn [result_bind]. rw Hz.
      rw IH; [cbn [rest]; rw length_drop; lia | lia |]. cbn [rest breaks].
      destruct (breaks p); [done |]. rw length_drop. f_equal. f_equal; [|lia].
      rw -app_assoc. f_equal.
      rw take_take. replace (Nat.min m k) with m by lia. unfold m. destruct (decide (k <= length (rest p))).
      * replace (Nat.min k (length (rest p))) with k by lia.
        rw -{3}(take_drop k (rest p)). rw take_app length_take.
        rw (take_ge (take k (rest p)) (max - kept)); [rw length_take; lia |]. f_equal. f_equal. lia.
      * rw (drop_ge (rest p) k); [lia |]. rw take_nil app_nil_r. rw !take_ge; [lia | lia | done].
Qed.

Lemma drain_capped_eq p max :
  drain_capped p max
  = match breaks p with
    | Some e => Err e
    | None => Ok (take max (rest p), length (rest p) - max)
    end.
Proof. unfold drain_capped. rw drain_loop_spec; [lia | lia |]. by rw Nat.sub_0_r. Qed.

(** *** The environment *)

Lemma keep_dirs_spec ww kept entries :
  let out := keep_dirs ww kept entries in
  (exists added, out = kept ++ added
     /\ Forall (fun d => d ∈ entries /\ starts_with d "/" = true /\ ww d = false) added)
  /\ (NoDup kept -> NoDup out)
  /\ (SYSTEM_DIRS ⊆ kept -> forall d, d ∈ entries -> starts_with d "/" = true -> ww d = false -> d ∈ out).
Proof.
  cbv zeta. revert kept. induction entries as [|x l IH]; intros kept.
  { cbn. split; [by exists []; rw app_nil_r | split; [done | intros _ d Hd; by apply elem_of_nil in Hd]]. }
  cbn [keep_dirs]. set (kept' := if str_eqb x [] then _ else _).
  assert (kept' = kept \/ (kept' = kept ++ [x] /\ starts_with x "/" = true /\ ww x = false /\ x ∉ kept)) as Hk.
  { unfold kept'. destruct (str_eqb x []); [by left |]. destruct (starts_with x "/"); [|by left]. cbn [negb].
    destruct (listed SYSTEM_DIRS x); [by left |]. destruct (ww x); [by left |].
    destruct (listed kept x) eqn:Hl; [by left |]. right. repeat split.
    intros Hx%listed_spec. congruence. }
  assert (SYSTEM_DIRS ⊆ kept -> starts_with x "/" = true -> ww x = false -> x ∈ kept') as Hc.
  { intros Hs Hx Hw. unfold kept'. rw Hx Hw. cbn [negb].
    destruct (str_eqb x []) eqn:Hn; [apply str_eqb_eq in Hn as ->; done |].
    destruct (listed SYSTEM_DIRS x) eqn:Hl; [by apply Hs, listed_spec |].
    destruct (listed kept x) eqn:Hl'; [by apply listed_spec |]. apply elem_of_app. right. by apply list_elem_of_singleton. }
  destruct (IH kept') as ((added & Ho & Ha) & Hnd & Hall). clearbody kept'.
  assert (kept ⊆ kept') as Hsub by (destruct Hk as [->|[-> _]]; set_solver).
  split; [|split].
  - destruct Hk as [->|(-> & Hx & Hw & _)].
    + exists added. split; [done |]. eapply Forall_impl; [done |]. cbn. set_solver.
    + exists (x :: added). split; [by rw Ho -app_assoc |]. constructor; [set_solver |].
      eapply Forall_impl; [done |]. cbn. set_solver.
  - intros Hd. apply Hnd. destruct Hk as [->|(-> & _ & _ & Hx)]; [done |].
    apply NoDup_app. split; [done | split; [|apply NoDup_singleton]]. intros y Hy ->%list_elem_of_singleton. done.
  - intros Hs d Hd Hx Hw. apply elem_of_cons in Hd as [->|Hd].
    + rw Ho. apply elem_of_app. left. by apply Hc.
    + apply Hall; [set_solver | done..].
Qed.

Lemma scrub_spec parent child kv :
  kv ∈ scrub_secrets_from_child_env parent child
  <-> kv ∈ child /\ ~ (is_secret_env_name kv.1 = true /\ kv.1 ∈ map fst parent).
Proof.
  unfold scrub_secrets_from_child_env. rw list_elem_of_In filter_In -list_elem_of_In negb_true_iff.
  assert (listed (List.filter is_secret_env_name (map fst parent)) kv.1 = true
          <-> is_secret_env_name kv.1 = true /\ kv.1 ∈ map fst parent) as Hl.
  { rw listed_spec list_elem_of_In filter_In -list_elem_of_In. tauto. }
  rw -Hl. by rw not_true_iff_false.
Qed.

(** *** What is started *)

Section Started.
Context `{UnicodeCase}.
Variables (tilde : str -> str) (minify_source_safe : str -> str -> str) (home : option str).

(** The container's arguments: the command passed the gate, the mounted directory is
    canonical, inside the sandbox and has no colon. *)
Definition cleared_container (fs : Fs) (b : Bash) (args : list str) : Prop :=
  exists cfg cmd workdir resolved,
    args = build_docker_args cfg resolved cmd
    /\ bash_gate fs b cmd None = None
    /\ canonicalize fs workdir = Ok resolved
    /\ (forall sandbox, sandbox_dir (bash_path_guard b) = Some sandbox ->
        exists root, canonicalize fs sandbox = Ok root /\ path_starts_with resolved root = true)
    /\ contains resolved ":" = false.

Lemma docker_workdir_Ok fs b workdir resolved :
  docker_workdir fs b workdir = Ok resolved ->
  canonicalize fs workdir = Ok resolved
  /\ (forall sandbox, sandbox_dir (bash_path_guard b) = Some sandbox ->
      exists root, canonicalize fs sandbox = Ok root /\ path_starts_with resolved root = true)
  /\ contains resolved ":" = false.
Proof.
  unfold docker_workdir. destruct (canonicalize fs workdir) as [r|e] eqn:Hr; [|done]. cbn [map_err result_bind].
  intros Hd. apply do_Ok in Hd as [Hs Hd]. apply do_Ok in Hd as [Hc%deny_if_Ok [= <-]].
  split; [done | split; [|done]]. intros sandbox Es. rw Es in Hs.
  destruct (canonicalize fs sandbox) as [root|e] eqn:Hroot; [|done]. cbn [map_err result_bind] in Hs.
  apply deny_if_Ok, negb_false_iff in Hs. by exists root.
Qed.

Lemma run_docker_gated c1 c2 fs b cmd workdir t :
  (forall args, cleared_container fs b args -> c1 args = c2 args) ->
  run_docker c1 fs b cmd workdir t = run_docker c2 fs b cmd workdir t.
Proof.
  intros Heq. unfold run_docker. destruct (docker_config b) as [cfg|]; [|done].
  destruct (bash_gate fs b cmd None) eqn:Hg; [done |].
  destruct (docker_workdir fs b workdir) as [resolved|e] eqn:Hw; [|done].
  rw Heq; [|done]. apply docker_workdir_Ok in Hw as (Hc & Hs & Hn). by exists cfg, cmd, workdir, resolved.
Qed.
End Started.

(** ** Gaps *)

(** The exit code of a container is taken for a raw wait status: a failing code reads as
    a death by signal, reported as [-1], and 128 as an exit with code 0. *)
Lemma docker_exit_code_lost code o e :
  (0 < code < 128)%Z -> status_code (status (docker_output (code, o, e))) = None.
Proof.
  intros Hc. unfold docker_output, from_code, status, status_code.
  rw (proj2 (Z.eqb_neq code 0)); [lia |].
  rw (Z.land_ones code 7); [lia |]. rw Z.mod_small; [lia |]. by rw (proj2 (Z.eqb_neq code 0)); [lia |].
Qed.
Lemma docker_code_128_reads_as_0 o e :
  status_success (status (docker_output (128%Z, o, e))) = false /\ status_code (status (docker_output (128%Z, o, e))) = Some 0%Z.
Proof. done. Qed.

(** The header of the error stream is written by the tool and again by the error's text. *)
Lemma stderr_named_twice `{UnicodeCase} minify home fs b cmd t raw out err :
  err <> [] -> status_success raw = false -> is_timeout_marker (mkOutput raw out err) t = false ->
  exists m, text_content (shell_outcome minify home fs b cmd t (Ok (mkOutput raw out err)))
            = m ++ stderr_mark ++ stderr_mark ++ err.
Proof.
  intros He Hs Ht. unfold shell_outcome. cbn [status out_text err_text]. rw Hs Ht.
  assert (stderr_part err = stderr_mark ++ err) as ->.
  { unfold stderr_part, str_eqb. by rw bool_decide_eq_false_2. }
  unfold text_content, to_user_message. unfold str_eqb at 1. rw bool_decide_eq_false_2; [done |].
  set (code := show_Z (unwrap_or (-1)%Z (status_code raw))).
  match goal with |- exists _, (?a ++ ?k) = _ => set (m := a) end. clearbody m code.
  exists (m ++ " (exit code " ++ code ++ ")"). unfold stderr_mark. by rw -!app_assoc.
Qed.

(** A container that leaves its output open after it has ended is waited for without a
    limit, where the foreground shell gives up after five seconds. *)
Lemma docker_waits_forever `{UnicodeCase} container fs b cmd workdir t cfg resolved raw e :
  docker_config b = Some cfg -> bash_gate fs b cmd None = None -> docker_workdir fs b workdir = Ok resolved ->
  container (build_docker_args cfg resolved cmd) = mkInvocation (Ok tt) (Exits raw) Stuck e ->
  run_docker container fs b cmd workdir t = None
  /\ is_ok (run_shell_with_token (mkInvocation (Ok tt) (Exits raw) Stuck e) t) = true.
Proof. intros Hd Hg Hw Hc. unfold run_docker. by rw Hd Hg Hw Hc. Qed.

(** ** Properties *)

(** The capture of a stream is its first [max] bytes and the number of the others,
    however the pipe cuts it into reads; a read error is the result when the pipe has one. *)
Lemma drain_capped_spec p max :
  drain_capped p max
  = match breaks p with
    | Some e => Err e
    | None => Ok (take max (rest p), length (rest p) - max)
    end.
Proof. apply drain_capped_eq. Qed.

(** The environment of a command has no variable of the parent whose name looks like
    a credential, and every other one; its [PATH] is the system directories followed by
    absolute directories of the parent's [PATH] that not everyone may write, each once. *)
Lemma shell_env_spec ww parent :
  let env := shell_env ww parent in
  (forall kv, kv ∈ env -> is_secret_env_name kv.1 = false)
  /\ (forall kv, kv ∈ parent -> kv.1 <> lit "PATH" -> is_secret_env_name kv.1 = false -> kv ∈ env)
  /\ exists dirs, (lit "PATH", join ":" (SYSTEM_DIRS ++ dirs)) ∈ env
     /\ NoDup (SYSTEM_DIRS ++ dirs)
     /\ Forall (fun d => d ∈ split_char ":"%char (unwrap_or [] (assoc "PATH" parent))
                         /\ starts_with d "/" = true /\ ww d = false) dirs.
Proof.
  cbv zeta. unfold shell_env, set_env. set (path := sanitized_path _ _).
  assert (is_secret_env_name "PATH" = false) as Hp by (by vm_compute).
  split; [|split].
  - intros kv [Hin Hs]%scrub_spec. apply not_true_is_false. intros Hk. apply Hs. split; [done |].
    apply elem_of_app in Hin as [Hin|Hin%list_elem_of_singleton].
    + apply list_elem_of_In, filter_In in Hin as [Hin _]. apply list_elem_of_In, in_map, Hin.
    + subst kv. cbn [fst] in Hk. by rw Hp in Hk.
  - intros kv Hin Hne Hs. apply scrub_spec. split; [|intros [Hk _]; by rw Hk in Hs].
    apply elem_of_app. left. apply list_elem_of_In, filter_In. split; [by apply list_elem_of_In |].
    apply negb_true_iff, not_true_is_false. by intros ?%str_eqb_eq.
  - destruct (keep_dirs_spec ww SYSTEM_DIRS (split_char ":"%char (unwrap_or [] (assoc "PATH" parent))))
      as ((dirs & Hd & Hall) & Hnd & _).
    exists dirs. rw -Hd. split; [|split; [|done]].
    + apply scrub_spec. split; [apply elem_of_app; right; by apply list_elem_of_singleton |].
      cbn [fst]. intros [Hk _]. by rw Hp in Hk.
    + apply Hnd. by apply (bool_decide_unpack (NoDup SYSTEM_DIRS)); vm_compute.
Qed.

(** The bash tool starts a command only when the gate accepts it in its directory, and
    a container only with a command the gate accepts and a mount that is canonical,
    inside the sandbox and free of colons: the outcome depends on no other process. *)
Lemma bash_run_gated `{UnicodeCase} tilde minify home spawn_job s1 s2 c1 c2 fs fs' b dry_run args :
  (forall cmd workdir, bash_gate fs b cmd (Some workdir) = None -> s1 cmd (tilde workdir) = s2 cmd (tilde workdir)) ->
  (forall l, cleared_container fs b l -> c1 l = c2 l) ->
  bash_run tilde minify home spawn_job s1 c1 fs fs' b dry_run args
  = bash_run tilde minify home spawn_job s2 c2 fs fs' b dry_run args.
Proof.
  intros Hs Hc. unfold bash_run. destruct (str_arg args "command") as [cmd|]; [|done].
  set (workdir := unwrap_or _ (str_arg args "workdir")). destruct dry_run; [done |].
  destruct (unwrap_or false _); [done |]. destruct (bash_gate fs b cmd (Some workdir)) eqn:Hg; [done |].
  by rw (run_docker_gated c1 c2) // (Hs _ _ Hg).
Qed.

(** One that refuses by its pattern list only. *)
Definition plain_bash : Bash := mkBash (deny_list (sandboxed [])) (sandboxed []) false None.
Definition idle : Invocation := mkInvocation (Ok tt) (Exits 0) (Drains (mkPipe [] [] None)) (Drains (mkPipe [] [] None)).
Definition failing : Invocation := mkInvocation (Err []) Expires Stuck Stuck.

Lemma bash_run_gated_witness :
  let run := fun s => @bash_run ascii_case id (fun _ t => t) None (fun _ _ _ => Err []) s (fun _ => idle)
               small_tree small_tree plain_bash false (JObj [(lit "command", JStr (lit "sudo x"))]) in
  run (fun _ _ => idle) = run (fun cmd _ => if str_eqb cmd "sudo x" then failing else idle)
  /\ run (fun _ _ => idle) <> None.
Proof.
  split; [|by vm_compute].
  apply (@bash_run_gated ascii_case).
  - intros cmd workdir. destruct (str_eqb cmd "sudo x") eqn:He; [|done].
    apply str_eqb_eq in He as ->. by vm_compute.
  - done.
Defined.
