(* ===== verification/Jobs.v ===== *)
(** * Background jobs (src/session/bash_jobs.rs, the job tools of src/tools/bash.rs)

    The registry of background commands: its operations cut into the sections that hold
    one lock, as tasks whose steps interleave ([step]), with the watcher of each job and
    the watchdog of each watcher.  Shown: the cap, that ids are never reused and a status
    that is terminal stays, and that a job that is listed as running is looked after by a
    task that will record its end or remove it.

    Parameters: what the processes do (an exit, a failed wait, a time-out; output), the
    process ids the system gives, the clock.  The processes of the model are the groups
    of the shells; [kill] ends one.  A job's number is a [u64] that is taken not to wrap. *)

From Stdlib Require Import ssreflect.
From S2P Require Import Prelude Machine FileTools BudgetGuard Outcomes ToolGates Shell.
From stdpp Require Import relations.

(** ** Data *)

Inductive JobStatus := Running | Completed (code : Z) | Failed (e : str) | JobCancelled.

#[global] Instance JobStatus_eq_dec : EqDecision JobStatus.
Proof. solve_decision. Defined.

Definition is_running (s : JobStatus) : bool := match s with Running => true | _ => false end.

Record BashJob := mkJob {
  job_id : N;
  job_command : str;
  job_owner : option str;
  job_run_id : str;
  job_pid : option N;
  job_status : JobStatus;
  job_stdout : str;
  job_stderr : str;
  started_at : Z;
  finished_at : option Z
}.

Definition BashJob_new (id : N) (command : str) (owner : option str) (run : str) (now : Z) : BashJob :=
  mkJob id command owner run None Running [] [] now None.
Definition with_pid (j : BashJob) (pid : N) : BashJob :=
  mkJob (job_id j) (job_command j) (job_owner j) (job_run_id j) (Some pid) (job_status j) (job_stdout j) (job_stderr j)
    (started_at j) (finished_at j).
Definition ended (j : BashJob) (s : JobStatus) (out err : str) (now : Z) : BashJob :=
  mkJob (job_id j) (job_command j) (job_owner j) (job_run_id j) (job_pid j) s out err (started_at j) (Some now).

Definition MAX_JOBS : nat := 64.

Definition check_job_cap (running_count : nat) : result unit str :=
  if MAX_JOBS <=? running_count
  then Err ("Background job limit (" ++ show_nat MAX_JOBS ++ ") reached; wait for jobs to finish or cancel them.")
  else Ok tt.

(** The registry, with the processes: the child handles by job, the handles a watcher
    holds locked and the groups that are alive, by process id. *)
Record Registry := mkRegistry {
  jobs : gmap N BashJob;
  children : gmap N N;
  next_id : N;
  run_id : str;
  held : gset N;
  alive : gset N
}.

Definition Registry_new : Registry := mkRegistry ∅ ∅ 1 [] ∅ ∅.
Definition set_run_id (run : str) (r : Registry) : Registry :=
  mkRegistry (jobs r) (children r) (next_id r) run (held r) (alive r).
Definition with_jobs (m : gmap N BashJob) (r : Registry) : Registry :=
  mkRegistry m (children r) (next_id r) (run_id r) (held r) (alive r).
Definition with_children (c : gmap N N) (r : Registry) : Registry :=
  mkRegistry (jobs r) c (next_id r) (run_id r) (held r) (alive r).
Definition with_held (h : gset N) (r : Registry) : Registry :=
  mkRegistry (jobs r) (children r) (next_id r) (run_id r) h (alive r).
Definition kill (pid : N) (r : Registry) : Registry :=
  mkRegistry (jobs r) (children r) (next_id r) (run_id r) (held r) (alive r ∖ {[pid]}).
Definition started (pid : N) (r : Registry) : Registry :=
  mkRegistry (jobs r) (children r) (next_id r) (run_id r) (held r) (alive r ∪ {[pid]}).

(** ** Questions *)

Definition get (id : N) (r : Registry) : option BashJob := jobs r !! id.

Fixpoint insert_job_by_id (j : BashJob) (l : list BashJob) : list BashJob :=
  match l with
  | [] => [j]
  | k :: l' => if (job_id j <=? job_id k)%N then j :: l else k :: insert_job_by_id j l'
  end.
Definition list_jobs (r : Registry) : list BashJob :=
  foldr insert_job_by_id [] (map snd (map_to_list (jobs r))).

(** The ids of the jobs that satisfy a test, in the map's order. *)
Definition ids_where (p : BashJob -> bool) (r : Registry) : list N :=
  map fst (List.filter (fun e => p e.2) (map_to_list (jobs r))).
Definition running_ids (r : Registry) : list N := ids_where (fun j => is_running (job_status j)) r.
Definition running_count (r : Registry) : nat := length (running_ids r).
Definition finished_ids (r : Registry) : list N := ids_where (fun j => negb (is_running (job_status j))) r.
Definition owned_running_ids (owner : str) (r : Registry) : list N :=
  ids_where (fun j => is_running (job_status j) && bool_decide (job_owner j = Some owner)) r.

Record BgJobExitSummary := mkSummary {
  sum_id : N;
  sum_command : str;
  status_at_exit : str;
  sum_session_id : str;
  sum_started_at : Z
}.
Definition persist_exit_summaries (session_id : str) (r : Registry) : list BgJobExitSummary :=
  omap (fun id => (fun j => mkSummary id (job_command j) "died-with-session" session_id (started_at j)) <$> jobs r !! id)
    (running_ids r).

(** ** Sections under one lock *)

Definition reserve (r : Registry) : N * Registry :=
  (next_id r, mkRegistry (jobs r) (children r) (next_id r + 1) (run_id r) (held r) (alive r)).

Definition delete_jobs (ids : list N) (r : Registry) : Registry :=
  with_jobs (foldr delete (jobs r) ids) r.

Definition evict_jobs (r : Registry) : list N * Registry :=
  if MAX_JOBS <=? size (jobs r)
  then let ids := finished_ids r in (ids, delete_jobs ids r)
  else ([], r).

(** Takes the handles of the jobs and kills their groups; waits for a handle that a
    watcher holds ([None]). *)
Fixpoint kill_children (ids : list N) (r : Registry) : option Registry :=
  match ids with
  | [] => Some r
  | id :: ids' =>
      match children r !! id with
      | Some pid => if bool_decide (pid ∈ held r) then None
                    else kill_children ids' (kill pid (with_children (delete id (children r)) r))
      | None => kill_children ids' r
      end
  end.

Definition insert_job (id : N) (command : str) (owner : option str) (pid : N) (now : Z) (r : Registry)
    : result unit str * Registry :=
  match check_job_cap (size (jobs r)) with
  | Err e => (Err e, kill pid r)
  | Ok _ => (Ok tt, with_jobs (<[id := with_pid (BashJob_new id command owner (run_id r) now) pid]> (jobs r)) r)
  end.

Definition store_child (id pid : N) (r : Registry) : Registry := with_children (<[id := pid]> (children r)) r.
Definition take_child (id : N) (r : Registry) : option N * Registry :=
  (children r !! id, with_children (delete id (children r)) r).

(** How a wait ends: with a raw status, an error, or at the time limit. *)
Inductive WaitEnd := WaitExit (raw : Z) | WaitError (e : str) | WaitTimedOut.

Definition final_status (w : WaitEnd) : JobStatus :=
  match w with
  | WaitExit raw => Completed (unwrap_or (-1)%Z (status_code raw))
  | WaitError e => Failed e
  | WaitTimedOut => Failed (lit "Timed out")
  end.

Definition watch_record (id : N) (w : WaitEnd) (out err : str) (now : Z) (r : Registry) : Registry :=
  match jobs r !! id with
  | None => r
  | Some j =>
      let s := match job_status j with JobCancelled => JobCancelled | _ => final_status w end in
      with_jobs (<[id := ended j s out err now]> (jobs r)) r
  end.

Definition mark_failed_if_running (id : N) (reason : str) (now : Z) (r : Registry) : Registry :=
  match jobs r !! id with
  | Some j => if is_running (job_status j)
              then with_jobs (<[id := ended j (Failed reason) (job_stdout j) (job_stderr j) now]> (jobs r)) r
              else r
  | None => r
  end.

(** Whether the job was running, and its process id. *)
Definition cancel_flip (id : N) (now : Z) (r : Registry) : bool * option N * Registry :=
  match jobs r !! id with
  | Some j =>
      if is_running (job_status j)
      then (true, job_pid j, with_jobs (<[id := ended j JobCancelled (job_stdout j) (job_stderr j) now]> (jobs r)) r)
      else (false, job_pid j, r)
  | None => (false, None, r)
  end.

(** A handle in hand: the group dies by the handle, or by the process id of the record
    while a watcher holds the handle. *)
Definition kill_taken (child : N) (pid : option N) (r : Registry) : Registry :=
  if bool_decide (child ∈ held r)
  then match pid with Some p => kill p r | None => r end
  else kill child r.

Definition job_pid_of (id : N) (r : Registry) : option N := jobs r !! id ≫= job_pid.

(** ** Tasks and their steps *)

Inductive Task :=
| SpawnEvict (id : N) (command : str) (owner : option str)
| SpawnClear (id : N) (command : str) (owner : option str) (evicted : list N)
| SpawnExec (id : N) (command : str) (owner : option str)
| SpawnInsert (id : N) (command : str) (owner : option str) (pid : N)
| SpawnStore (id pid : N)
| Watch (id : N)
| Locking (id pid : N)
| Waiting (id pid : N)
| Recording (id pid : N) (w : WaitEnd)
| MarkFailed (id : N)
| CancelTake (id : N) (pid : option N)
| CancelKill (child : N) (pid : option N)
| RemoveTake (id : N)
| RemoveKill (id child : N)
| RemoveRecord (id : N)
| CleanTake (ids : list N)
| CleanRemove (ids : list N).

(** One section of a task: the registry and the tasks that follow. *)
Inductive exec (now : Z) (r : Registry) : Task -> Registry -> list Task -> Prop :=
| exec_evict id c o : exec now r (SpawnEvict id c o) (evict_jobs r).2 [SpawnClear id c o (evict_jobs r).1]
| exec_clear id c o ids r' : kill_children ids r = Some r' -> exec now r (SpawnClear id c o ids) r' [SpawnExec id c o]
| exec_refused id c o : exec now r (SpawnExec id c o) r []
| exec_started id c o pid : pid ∉ alive r -> exec now r (SpawnExec id c o) (started pid r) [SpawnInsert id c o pid]
| exec_insert id c o pid r' : insert_job id c o pid now r = (Ok tt, r') ->
    exec now r (SpawnInsert id c o pid) r' [SpawnStore id pid]
| exec_full id c o pid e r' : insert_job id c o pid now r = (Err e, r') -> exec now r (SpawnInsert id c o pid) r' []
| exec_store id pid : exec now r (SpawnStore id pid) (store_child id pid r) [Watch id]
| exec_watch_none id : children r !! id = None -> exec now r (Watch id) r []
| exec_watch id pid : children r !! id = Some pid -> exec now r (Watch id) r [Locking id pid]
| exec_lock id pid : pid ∉ held r -> exec now r (Locking id pid) (with_held (held r ∪ {[pid]}) r) [Waiting id pid]
| exec_wait id pid w : (forall raw, w = WaitExit raw -> pid ∉ alive r) ->
    exec now r (Waiting id pid)
      (with_children (delete id (children r)) (match w with WaitTimedOut => kill pid r | _ => r end)) [Recording id pid w]
| exec_record id pid w out err :
    exec now r (Recording id pid w) (watch_record id w out err now (with_held (held r ∖ {[pid]}) r)) []
| exec_mark id : exec now r (MarkFailed id) (mark_failed_if_running id "background watcher panicked" now r) []
| exec_cancel_take id pid :
    exec now r (CancelTake id pid) (take_child id r).2
      (match (take_child id r).1 with Some child => [CancelKill child pid] | None => [] end)
| exec_cancel_kill child pid : exec now r (CancelKill child pid) (kill_taken child pid r) []
| exec_remove_take id :
    exec now r (RemoveTake id) (take_child id r).2
      (match (take_child id r).1 with Some child => [RemoveKill id child] | None => [RemoveRecord id] end)
| exec_remove_kill id child : exec now r (RemoveKill id child) (kill_taken child (job_pid_of id r) r) [RemoveRecord id]
| exec_remove_record id : exec now r (RemoveRecord id) (with_jobs (delete id (jobs r)) r) []
| exec_clean_take ids r' : kill_children ids r = Some r' -> exec now r (CleanTake ids) r' [CleanRemove ids]
| exec_clean_remove ids : exec now r (CleanRemove ids) (delete_jobs ids r) [].

(** The watcher of a job, in one of its sections. *)
Definition watcher_of (t : Task) : option N :=
  match t with Watch id | Locking id _ | Waiting id _ | Recording id _ _ => Some id | _ => None end.

Definition unheld (t : Task) (r : Registry) : Registry :=
  match t with Waiting _ pid | Recording _ pid _ => with_held (held r ∖ {[pid]}) r | _ => r end.

Record State := mkState { registry : Registry; tasks : list Task }.

(** One step of the program: a section of a task, the panic of a watcher, the start of an
    operation, or the end of a process.  With [known], [cancel] is only asked for jobs
    that are in the registry. *)
Inductive step (gate : str -> option str -> option str) (known : bool) : State -> State -> Prop :=
| step_exec now r l1 t l2 r' ts : exec now r t r' ts ->
    step gate known (mkState r (l1 ++ t :: l2)) (mkState r' (l1 ++ ts ++ l2))
| step_panic r l1 t l2 id : watcher_of t = Some id ->
    step gate known (mkState r (l1 ++ t :: l2)) (mkState (unheld t r) (l1 ++ [MarkFailed id] ++ l2))
| step_spawn r ts command workdir owner : gate command workdir = None ->
    step gate known (mkState r ts) (mkState (reserve r).2 (SpawnEvict (reserve r).1 command owner :: ts))
| step_cancel r ts id now : (known = true -> is_Some (jobs r !! id)) ->
    step gate known (mkState r ts) (mkState (cancel_flip id now r).2 (CancelTake id (cancel_flip id now r).1.2 :: ts))
| step_remove r ts id : step gate known (mkState r ts) (mkState r (RemoveTake id :: ts))
| step_clean r ts : step gate known (mkState r ts) (mkState r (CleanTake (finished_ids r) :: ts))
| step_set_run_id r ts run : step gate known (mkState r ts) (mkState (set_run_id run r) ts)
| step_exit r ts pid : step gate known (mkState r ts) (mkState (kill pid r) ts).

Definition no_jobs : State := mkState Registry_new [].
Definition reachable (gate : str -> option str -> option str) (known : bool) (s : State) : Prop := rtc (step gate known) no_jobs s.

(** ** The job tools *)

Definition job_number (id : N) : str := "Job #" ++ show_N id.

Definition debug_status `{UnicodePrint} (s : JobStatus) : str :=
  match s with
  | Running => lit "Running"
  | Completed c => "Completed(" ++ show_Z c ++ ")"
  | Failed e => "Failed(" ++ debug_str e ++ ")"
  | JobCancelled => lit "Cancelled"
  end.

(** [BashCancel::run]: [found] is the answer of [cancel], [after] the job afterwards. *)
Definition bash_cancel `{UnicodePrint} (found : bool) (after : option BashJob) (args : json) : CallOutcome :=
  match json_get args "id" ≫= as_u64 with
  | None => Failure (InvalidArgs (lit "Missing 'id' argument"))
  | Some id =>
      if found then Success (job_number id ++ " cancelled")
      else match after with
           | Some job => Failure (Execution (job_number id ++ " is not running (status: " ++ debug_status (job_status job)
                                             ++ ")") None [])
           | None => Failure (Internal (job_number id ++ " not found"))
           end
  end.

Definition job_text (j : BashJob) (label : str) : str :=
  job_number (job_id j) ++ " is " ++ label ++ [10%N] ++ "command: " ++ job_command j ++ [10%N] ++ "---" ++ [10%N]
  ++ "stdout so far:" ++ [10%N] ++ job_stdout j ++ [10%N] ++ "stderr so far:" ++ [10%N] ++ job_stderr j.

Definition bash_status (r : Registry) (args : json) : CallOutcome :=
  match json_get args "id" ≫= as_u64 with
  | None => Failure (InvalidArgs (lit "Missing 'id' argument"))
  | Some id =>
      match get id r with
      | Some job =>
          match job_status job with
          | Running => Success (job_text job "running")
          | JobCancelled => Success (job_text job "cancelled")
          | Completed code =>
              Success (job_number (job_id job) ++ " completed (exit code " ++ show_Z code ++ ")" ++ [10%N] ++ "stdout:"
                       ++ [10%N] ++ job_stdout job ++ [10%N] ++ "stderr:" ++ [10%N] ++ job_stderr job)
          | Failed e => Failure (Execution (job_number (job_id job) ++ " failed: " ++ e) None [])
          end
      | None => Failure (Internal (job_number id ++ " not found"))
      end
  end.

(** ** Invariants *)

(** The job a task spawns, watches or marks: at most one task has it. *)
Definition spawning (t : Task) : option N :=
  match t with SpawnEvict id _ _ | SpawnClear id _ _ _ | SpawnExec id _ _ | SpawnInsert id _ _ _ => Some id | _ => None end.
Definition chain_id (t : Task) : option N :=
  match t with
  | SpawnEvict id _ _ | SpawnClear id _ _ _ | SpawnExec id _ _ | SpawnInsert id _ _ _ | SpawnStore id _
  | Watch id | Locking id _ | Waiting id _ | Recording id _ _ | MarkFailed id => Some id
  | _ => None
  end.

Definition open_status (j : BashJob) : Prop := job_status j = Running \/ job_status j = JobCancelled.

(** What a task that has the job [id] may rely on. *)
Definition supported (r : Registry) (t : Task) (id : N) : Prop :=
  if is_some_b (spawning t) then jobs r !! id = None else forall j, jobs r !! id = Some j -> open_status j.

Record inv (s : State) : Prop := {
  inv_keys : forall id j, jobs (registry s) !! id = Some j -> job_id j = id /\ N.lt id (next_id (registry s));
  inv_cap : size (jobs (registry s)) <= MAX_JOBS;
  inv_chain : NoDup (omap chain_id (tasks s));
  inv_bound : forall id, id ∈ omap chain_id (tasks s) -> N.lt id (next_id (registry s));
  inv_supported : forall t id, t ∈ tasks s -> chain_id t = Some id -> supported (registry s) t id
}.

Lemma delete_jobs_Some ids r id j : jobs (delete_jobs ids r) !! id = Some j -> (id ∉ ids) /\ jobs r !! id = Some j.
Proof.
  cbn. induction ids as [|x ids IH]; cbn; [intros Hj; split; [apply not_elem_of_nil | done] |].
  intros [Hne Hj]%lookup_delete_Some. apply IH in Hj as [Hn Hj]. split; [|done].
  apply not_elem_of_cons. split; [done | done].
Qed.

Lemma delete_jobs_size ids r : size (jobs (delete_jobs ids r)) <= size (jobs r).
Proof.
  cbn. induction ids as [|x ids IH]; cbn; [done |].
  destruct (decide (is_Some (foldr delete (jobs r) ids !! x))) as [Hs|Hn].
  - rw map_size_delete_Some //. lia.
  - rw map_size_delete_None; [by apply eq_None_not_Some | done].
Qed.

Lemma kill_children_same ids r r' : kill_children ids r = Some r' -> jobs r' = jobs r /\ next_id r' = next_id r.
Proof.
  revert r. induction ids as [|id ids IH]; intros r; cbn; [by intros [= <-] |].
  destruct (children r !! id) as [pid|]; [|apply IH]. case_bool_decide; [done |].
  intros Hk. apply IH in Hk. done.
Qed.

Lemma kill_taken_same child pid r : jobs (kill_taken child pid r) = jobs r /\ next_id (kill_taken child pid r) = next_id r.
Proof. unfold kill_taken. case_bool_decide; [by destruct pid | done]. Qed.

Lemma insert_job_Ok id c o pid now r r' u :
  insert_job id c o pid now r = (Ok u, r') ->
  size (jobs r) < MAX_JOBS
  /\ r' = with_jobs (<[id := with_pid (BashJob_new id c o (run_id r) now) pid]> (jobs r)) r.
Proof.
  unfold insert_job, check_job_cap. destruct (MAX_JOBS <=? size (jobs r)) eqn:Hs; [done |].
  intros [= _ <-]. apply Nat.leb_gt in Hs. done.
Qed.
Lemma insert_job_Err id c o pid now r r' e :
  insert_job id c o pid now r = (Err e, r') -> r' = kill pid r.
Proof. unfold insert_job, check_job_cap. destruct (MAX_JOBS <=? size (jobs r)); by intros [= _ <-]. Qed.

Lemma exec_next now r t r' ts : exec now r t r' ts -> next_id r' = next_id r.
Proof.
  intros He. inversion He; subst; try done.
  - unfold evict_jobs. by destruct (MAX_JOBS <=? _).
  - by eapply kill_children_same.
  - by apply insert_job_Ok in H as [_ ->].
  - by apply insert_job_Err in H as ->.
  - by destruct w.
  - unfold watch_record. by destruct (jobs _ !! id).
  - unfold mark_failed_if_running. destruct (jobs r !! id) as [j|]; [|done]. by destruct (is_running _).
  - apply kill_taken_same.
  - apply kill_taken_same.
  - by eapply kill_children_same.
Qed.

(** What a section does to a job. *)
Lemma exec_jobs now r t r' ts id j' :
  exec now r t r' ts -> jobs r' !! id = Some j' ->
  jobs r !! id = Some j'
  \/ chain_id t = Some id
     /\ (spawning t = Some id /\ job_id j' = id /\ job_status j' = Running /\ size (jobs r) < MAX_JOBS
         \/ spawning t = None /\ exists j, jobs r !! id = Some j /\ job_id j' = job_id j
            /\ (job_status j = JobCancelled -> job_status j' = JobCancelled) /\ job_status j' <> Running).
Proof.
  intros He Hj. inversion He; subst; cbn [jobs with_jobs with_children with_held kill started store_child take_child fst snd] in Hj; try (by left).
  - left. unfold evict_jobs in Hj. destruct (MAX_JOBS <=? _); [|done]. by apply delete_jobs_Some in Hj as [_ Hj].
  - apply kill_children_same in H as [H _]. rw H in Hj. by left.
  - apply insert_job_Ok in H as [Hs ->]. cbn [jobs with_jobs with_children with_held kill started store_child take_child fst snd] in Hj.
    apply lookup_insert_Some in Hj as [[<- <-]|[_ Hj]]; [|by left]. right. split; [done |]. left. done.
  - apply insert_job_Err in H as ->. by left.
  - left. by destruct w.
  - unfold watch_record in Hj. cbn [jobs with_jobs with_children with_held kill started store_child take_child fst snd] in Hj. destruct (jobs r !! id0) as [j|] eqn:Ej; [|by left]. cbn [jobs with_jobs with_children with_held kill started store_child take_child fst snd] in Hj.
    apply lookup_insert_Some in Hj as [[<- <-]|[_ Hj]]; [|by left]. right. split; [done |]. right. split; [done |].
    exists j. split; [done | split; [done |]]. cbn. destruct (job_status j), w; done.
  - clear He. revert Hj. generalize (lit "background watcher panicked") as reason. intros reason Hj.
    unfold mark_failed_if_running in Hj. destruct (jobs r !! id0) as [j|] eqn:Ej; [|by left].
    destruct (is_running (job_status j)) eqn:Hr; [|by left]. cbn [jobs with_jobs with_children with_held kill started store_child take_child fst snd] in Hj.
    apply lookup_insert_Some in Hj as [[<- <-]|[_ Hj]]; [|by left]. right. split; [done |]. right. split; [done |].
    exists j. split; [done | split; [done |]]. cbn [job_status ended]. by destruct (job_status j).
  - rw (proj1 (kill_taken_same _ _ _)) in Hj. by left.
  - rw (proj1 (kill_taken_same _ _ _)) in Hj. by left.
  - apply lookup_delete_Some in Hj as [_ Hj]. by left.
  - apply kill_children_same in H as [H _]. rw H in Hj. by left.
  - apply delete_jobs_Some in Hj as [_ Hj]. by left.
Qed.

Lemma exec_size now r t r' ts : exec now r t r' ts -> size (jobs r) <= MAX_JOBS -> size (jobs r') <= MAX_JOBS.
Proof.
  intros He Hs. inversion He; subst; try done.
  - unfold evict_jobs. destruct (MAX_JOBS <=? _); [|done]. by etrans; [apply delete_jobs_size |].
  - by apply kill_children_same in H as [-> _].
  - apply insert_job_Ok in H as [Hlt ->]. cbn [jobs with_jobs].
    destruct (decide (is_Some (jobs r !! id))) as [Hsome|Hn].
    + by rw map_size_insert_Some.
    + rw map_size_insert_None; [by apply eq_None_not_Some | lia].
  - by apply insert_job_Err in H as ->.
  - by destruct w.
  - unfold watch_record. cbn [jobs with_held]. destruct (jobs r !! id) as [j|] eqn:Ej; [|done].
    cbn [jobs with_jobs with_held]. by rw map_size_insert_Some.
  - unfold mark_failed_if_running. destruct (jobs r !! id) as [j|] eqn:Ej; [|done].
    destruct (is_running (job_status j)); [|done]. cbn [jobs with_jobs]. by rw map_size_insert_Some.
  - by rw (proj1 (kill_taken_same _ _ _)).
  - by rw (proj1 (kill_taken_same _ _ _)).
  - etrans; [apply (delete_jobs_size [id] r) | done].
  - by apply kill_children_same in H as [-> _].
  - by etrans; [apply delete_jobs_size |].
Qed.

(** The task that follows carries the job on. *)
Lemma exec_follow now r t r' ts t' id :
  exec now r t r' ts -> t' ∈ ts -> chain_id t' = Some id ->
  chain_id t = Some id
  /\ (spawning t = None -> spawning t' = None /\ jobs r' = jobs r)
  /\ (is_Some (spawning t) -> (is_Some (spawning t') /\ (jobs r !! id = None -> jobs r' !! id = None))
      \/ (spawning t' = None /\ exists j, jobs r' !! id = Some j /\ job_status j = Running)).
Proof.
  intros He Ht Hc. inversion He; subst;
    try (by apply elem_of_nil in Ht); try (apply list_elem_of_singleton in Ht as ->; cbn in Hc; simplify_eq);
    try (split; [done | split; [done | by intros []]]).
  - split; [done | split; [done |]]. intros _. left. split; [by eexists |]. intros Hn. unfold evict_jobs.
    destruct (MAX_JOBS <=? _); [|done]. apply eq_None_not_Some. intros [j [_ Hj]%delete_jobs_Some]. by rw Hn in Hj.
  - split; [done | split; [done |]]. intros _. left. split; [by eexists |].
    by apply kill_children_same in H as [-> _].
  - split; [done | split; [done |]]. intros _. left. split; [by eexists | done].
  - split; [done | split; [done |]]. intros _. right. split; [done |].
    apply insert_job_Ok in H as [_ ->]. eexists. cbn [jobs with_jobs]. by rw lookup_insert_eq.
  - split; [done | split; [intros _; split; [done | by destruct w] | by intros []]].
  - destruct (take_child id0 r).1; [|by apply elem_of_nil in Ht]. by apply list_elem_of_singleton in Ht as ->.
  - destruct (take_child id0 r).1; by apply list_elem_of_singleton in Ht as ->.
Qed.

Lemma exec_chain now r t r' ts :
  exec now r t r' ts -> omap chain_id ts `sublist_of` omap chain_id [t].
Proof.
  intros He. inversion He; subst; cbn; try (by apply sublist_nil_l); try done.
  - destruct (children r !! id); apply sublist_nil_l.
  - destruct (children r !! id); apply sublist_nil_l.
Qed.

Lemma omap_chain_elem (l : list Task) id : id ∈ omap chain_id l <-> exists t, t ∈ l /\ chain_id t = Some id.
Proof. by rw list_elem_of_omap. Qed.

Lemma chain_split l1 t l2 ts :
  omap chain_id ts `sublist_of` omap chain_id [t] ->
  omap chain_id (l1 ++ ts ++ l2) `sublist_of` omap chain_id (l1 ++ t :: l2).
Proof.
  intros Hs. change (t :: l2) with ([t] ++ l2). rw !omap_app. apply sublist_app; [done |]. by apply sublist_app.
Qed.

(** Two tasks never have the same job. *)
Lemma chain_unique l1 t l2 t' id :
  NoDup (omap chain_id (l1 ++ t :: l2)) -> chain_id t = Some id -> t' ∈ l1 \/ t' ∈ l2 -> chain_id t' <> Some id.
Proof.
  intros Hn Ht Hin Ht'. change (t :: l2) with ([t] ++ l2) in Hn. rw !omap_app in Hn.
  assert (id ∈ omap chain_id [t]) as H1 by (apply omap_chain_elem; exists t; split; [by left | done]).
  apply NoDup_app in Hn as (_ & Hd & [_ [Hd' _]]%NoDup_app).
  destruct Hin as [Hin|Hin].
  - apply (Hd id); [apply omap_chain_elem; by exists t' |]. apply elem_of_app. by left.
  - apply (Hd' id); [done |]. apply omap_chain_elem. by exists t'.
Qed.

(** *** Preservation *)

Lemma inv_evolve r r' ts ts' :
  inv (mkState r ts) -> next_id r' = next_id r -> size (jobs r') <= size (jobs r) ->
  omap chain_id ts' = omap chain_id ts -> (forall t id, t ∈ ts' -> chain_id t = Some id -> t ∈ ts) ->
  (forall id j', jobs r' !! id = Some j' ->
     exists j, jobs r !! id = Some j /\ job_id j' = job_id j /\ (open_status j -> open_status j')) ->
  inv (mkState r' ts').
Proof.
  intros [Hk Hc Hch Hb Hs] Hn Hsz Ho Ht Hj. cbn [registry tasks] in *. split; cbn [registry tasks].
  - intros id j' (j & Ej & -> & _)%Hj. rw Hn. by apply Hk.
  - lia.
  - by rw Ho.
  - intros id Hid. rw Hn. apply Hb. by rw -Ho.
  - intros t id Hin Hid. specialize (Hs t id (Ht t id Hin Hid) Hid). unfold supported in *.
    destruct (is_some_b (spawning t)).
    + apply eq_None_not_Some. intros [j' (j & Ej & _)%Hj]. by rw Hs in Ej.
    + intros j' (j & Ej & _ & Hopen)%Hj. by apply Hopen, Hs.
Qed.

Lemma cancel_flip_jobs id now r id' j' :
  jobs (cancel_flip id now r).2 !! id' = Some j' ->
  exists j, jobs r !! id' = Some j /\ job_id j' = job_id j
    /\ (job_status j' = job_status j \/ job_status j = Running /\ job_status j' = JobCancelled).
Proof.
  unfold cancel_flip. destruct (jobs r !! id) as [j|] eqn:Ej; [|intros Hj; exists j'; split; [done | by split; [|left]]].
  destruct (is_running (job_status j)) eqn:Hr; [|intros Hj; exists j'; split; [done | by split; [|left]]].
  cbn [snd jobs with_jobs]. intros [[<- <-]|[_ Hj]]%lookup_insert_Some.
  - exists j. split; [done | split; [done |]]. right. by destruct (job_status j).
  - exists j'. split; [done | by split; [|left]].
Qed.

Lemma cancel_flip_same id now r :
  next_id (cancel_flip id now r).2 = next_id r /\ size (jobs (cancel_flip id now r).2) = size (jobs r)
  /\ children (cancel_flip id now r).2 = children r.
Proof.
  unfold cancel_flip. destruct (jobs r !! id) as [j|] eqn:Ej; [|done]. destruct (is_running (job_status j)); [|done].
  split; [done | split; [|done]]. cbn [snd jobs with_jobs]. by rw map_size_insert_Some.
Qed.

Lemma inv_exec now r l1 t l2 r' ts :
  inv (mkState r (l1 ++ t :: l2)) -> exec now r t r' ts -> inv (mkState r' (l1 ++ ts ++ l2)).
Proof.
  intros [Hk Hc Hch Hb Hs] He. cbn [registry tasks] in *.
  pose proof (chain_split l1 t l2 ts (exec_chain now r t r' ts He)) as Hsub.
  pose proof (exec_next now r t r' ts He) as Hn.
  assert (t ∈ l1 ++ t :: l2) as Hin by (apply elem_of_app; right; by left).
  split; cbn [registry tasks].
  - intros id j' Hj. rw Hn. destruct (exec_jobs now r t r' ts id j' He Hj) as [Hold|(Hid & [(_ & Hj' & _)|(_ & j & Ej & -> & _)])].
    + by apply Hk.
    + split; [done |]. apply Hb, omap_chain_elem. by exists t.
    + by apply Hk.
  - by eapply exec_size.
  - by eapply sublist_NoDup.
  - intros id Hid. rw Hn. apply Hb. by eapply sublist_subseteq.
  - intros t' id Ht' Hid. rw !elem_of_app in Ht'.
    assert (t' ∈ ts \/ (t' ∈ l1 \/ t' ∈ l2)) as [Hts|Ht] by tauto.
    + destruct (exec_follow now r t r' ts t' id He Hts Hid) as (Hidt & Hnone & Hsome).
      specialize (Hs t id Hin Hidt). unfold supported in *. destruct (spawning t) as [i|] eqn:Esp; cbn [is_some_b] in Hs.
      * destruct Hsome as [[[i' ->] Hab]|[-> (j & Ej & Hr)]]; [by eexists | by apply Hab |].
        cbn [is_some_b]. intros j' Hj'. rw Ej in Hj'. simplify_eq. by left.
      * destruct (Hnone eq_refl) as [-> ->]. done.
    + assert (chain_id t <> Some id) as Hne.
      { intros Hidt. by apply (chain_unique l1 t l2 t' id Hch Hidt Ht). }
      assert (t' ∈ l1 ++ t :: l2) as Hin' by (apply elem_of_app; destruct Ht; [by left | right; by right]).
      specialize (Hs t' id Hin' Hid). unfold supported in *. destruct (is_some_b (spawning t')).
      * apply eq_None_not_Some. intros [j' [Hj|[Hidt _]]%(exec_jobs now r t r' ts id j' He)]; [by rw Hs in Hj | done].
      * intros j' [Hj|[Hidt _]]%(exec_jobs now r t r' ts id j' He); [by apply Hs | done].
Qed.

Lemma inv_step gate known s s' : inv s -> step gate known s s' -> inv s'.
Proof.
  intros Hi Hst. inversion Hst; subst; clear Hst.
  - by eapply inv_exec.
  - match goal with H : watcher_of t = Some id |- _ => rename H into Hw end.
    assert (chain_id t = Some id /\ spawning t = None) as [Hid Hsp] by (by destruct t).
    assert (jobs (unheld t r) = jobs r /\ next_id (unheld t r) = next_id r) as [Hj Hn] by (by destruct t).
    destruct Hi as [Hk Hc Hch Hb Hs]. cbn [registry tasks] in *.
    assert (omap chain_id (l1 ++ [MarkFailed id] ++ l2) = omap chain_id (l1 ++ t :: l2)) as Ho.
    { change (t :: l2) with ([t] ++ l2). rw !omap_app. f_equal. f_equal. cbn. by rw Hid. }
    split; cbn [registry tasks]; rw ?Hj ?Hn ?Ho; try done.
    intros t' i Ht' Hi'. unfold supported. rw Hj. rw !elem_of_app list_elem_of_singleton in Ht'.
    destruct Ht' as [Ht'|[->|Ht']].
    + apply (Hs t' i); [apply elem_of_app; by left | done].
    + cbn [chain_id] in Hi'. simplify_eq. pose proof (Hs t i) as Hst. unfold supported in Hst. rw Hsp in Hst.
      apply Hst; [apply elem_of_app; right; by left | done].
    + apply (Hs t' i); [apply elem_of_app; right; by right | done].
  - destruct Hi as [Hk Hc Hch Hb Hs]. cbn [registry tasks] in *. split; cbn [registry tasks jobs next_id fst snd reserve].
    + intros id j Hj. destruct (Hk id j Hj). split; [done | lia].
    + done.
    + cbn. constructor; [|done]. intros Hin%Hb. lia.
    + intros id. cbn. intros [->|Hin%Hb]%elem_of_cons; lia.
    + intros t id Ht Hid. apply elem_of_cons in Ht as [->|Ht]; [|by apply Hs]. cbn in Hid. simplify_eq.
      unfold supported. cbn. apply eq_None_not_Some. intros [j Hj%Hk]. lia.
  - destruct (cancel_flip_same id now r) as (Hn & Hz & _).
    eapply inv_evolve; [done | done | by rw Hz | done | | ].
    + intros t i [->|Ht]%elem_of_cons Hid; done.
    + intros i j' (j & Ej & Hid & Hst)%cancel_flip_jobs. exists j. split; [done | split; [done |]].
      unfold open_status. destruct Hst as [-> |[_ ->]]; [done | by right].
  - eapply inv_evolve; [done | done | done | done | | by intros i j' Hj; exists j'].
    intros t i [->|Ht]%elem_of_cons Hid; done.
  - eapply inv_evolve; [done | done | done | done | | by intros i j' Hj; exists j'].
    intros t i [->|Ht]%elem_of_cons Hid; done.
  - eapply inv_evolve; [done | done | done | done | done | by intros i j' Hj; exists j'].
  - eapply inv_evolve; [done | done | done | done | done | by intros i j' Hj; exists j'].
Qed.

Lemma inv_no_jobs : inv no_jobs.
Proof.
  split; cbn; try done; try (by apply NoDup_nil); try (by intros ? ?%elem_of_nil).
  - unfold MAX_JOBS. rw map_size_empty. lia.
  - by intros t id ?%elem_of_nil.
Qed.

(** An invariant of every step is one of every reachable state. *)
Lemma reachable_ind gate known (P : State -> Prop) s :
  P no_jobs -> (forall x y, P x -> step gate known x y -> P y) -> reachable gate known s -> P s.
Proof.
  intros H0 Hstep Hr. revert H0. induction Hr as [|x y z Hxy _ IH]; [done |]. intros Hx. by eapply IH, Hstep.
Qed.

Lemma reachable_inv gate known s : reachable gate known s -> inv s.
Proof. apply reachable_ind; [apply inv_no_jobs | intros x y; apply inv_step]. Qed.

(** *** A running job is looked after *)

(** The task will record the end of the job, or remove it. *)
Definition attends (c : gmap N N) (id : N) (t : Task) : Prop :=
  match t with
  | SpawnStore i _ | Locking i _ | Waiting i _ | Recording i _ _ | MarkFailed i | RemoveKill i _ | RemoveRecord i => i = id
  | Watch i => i = id /\ is_Some (c !! id)
  | _ => False
  end.

(** The jobs whose handles the task takes without removing the job. *)
Definition takes (t : Task) : list N :=
  match t with
  | SpawnClear _ _ _ ids | CleanTake ids | CleanRemove ids => ids
  | CancelTake id _ => [id]
  | _ => []
  end.

(** The job has ended and its number is not one to come. *)
Definition over (s : State) (id : N) : Prop :=
  (forall j, jobs (registry s) !! id = Some j -> job_status j <> Running)
  /\ N.lt id (next_id (registry s))
  /\ forall t, t ∈ tasks s -> spawning t <> Some id.

Record attended (s : State) : Prop := {
  att_running : forall id j, jobs (registry s) !! id = Some j -> job_status j = Running ->
    exists t, t ∈ tasks s /\ attends (children (registry s)) id t;
  att_takes : forall t id, t ∈ tasks s -> id ∈ takes t -> over s id
}.

Lemma spawning_chain t id : spawning t = Some id -> chain_id t = Some id.
Proof. by destruct t. Qed.
Lemma spawning_some t id : is_Some (spawning t) -> chain_id t = Some id -> spawning t = Some id.
Proof. intros [i Hi]. by destruct t. Qed.

Lemma ids_where_spec p r id : id ∈ ids_where p r <-> exists j, jobs r !! id = Some j /\ p j = true.
Proof.
  unfold ids_where. rw list_elem_of_In in_map_iff. split.
  - intros ([i j] & <- & [Hin Hp]%filter_In). exists j. split; [|done]. by apply elem_of_map_to_list, list_elem_of_In.
  - intros (j & Hj & Hp). exists (id, j). split; [done |]. apply filter_In. split; [|done].
    by apply list_elem_of_In, elem_of_map_to_list.
Qed.

Lemma finished_ids_spec r id :
  id ∈ finished_ids r <-> exists j, jobs r !! id = Some j /\ job_status j <> Running.
Proof.
  unfold finished_ids. rw ids_where_spec. split; intros (j & Hj & Hs); exists j; (split; [done |]).
  - by destruct (job_status j).
  - by destruct (job_status j).
Qed.

Lemma kill_children_keeps ids r r' id :
  kill_children ids r = Some r' -> id ∉ ids -> children r' !! id = children r !! id.
Proof.
  revert r. induction ids as [|i ids IH]; intros r; cbn [kill_children]; [by intros [= <-] |].
  intros Hk [Hne Hn]%not_elem_of_cons. destruct (children r !! i) as [pid|]; [|by apply IH].
  case_bool_decide; [done |]. rw (IH _ Hk Hn). cbn. by rw lookup_delete_ne.
Qed.

Lemma exec_attends now r t r' ts id j' :
  exec now r t r' ts -> jobs r' !! id = Some j' -> job_status j' = Running -> id ∉ takes t ->
  (exists t', t' ∈ ts /\ attends (children r') id t')
  \/ jobs r !! id = Some j' /\ ~ attends (children r) id t
     /\ (is_Some (children r !! id) -> is_Some (children r' !! id)).
Proof.
  intros He Hj Hr Ht. pose proof (exec_jobs now r t r' ts id j' He Hj) as Hold.
  assert (forall t', ts = [t'] -> attends (children r') id t' ->
          exists t', t' ∈ ts /\ attends (children r') id t') as Hone.
  { intros t' -> Ha. exists t'. split; [by apply list_elem_of_singleton | done]. }
  assert (jobs r !! id = Some j' \/ spawning t = Some id) as Hold'.
  { destruct Hold as [Ho|[_ [[Hs _]|(_ & j & _ & _ & _ & Hn)]]]; [by left | by right | done]. }
  clear Hold. inversion He; subst; cbn [takes] in Ht; cbn [spawning] in Hold';
    try (destruct Hold' as [Hold|[=]]; right; split; [done | split; [by intros [] | done]]; fail).
  - right. destruct Hold' as [Hold|[= ->]].
    + split; [done | split; [by intros [] |]]. unfold evict_jobs. by destruct (MAX_JOBS <=? _).
    + unfold evict_jobs in Hj |- *. destruct (MAX_JOBS <=? _); [apply delete_jobs_Some in Hj as [_ Hj] |]; (split; [done | split; [by intros [] | done]]).
  - right. rw (kill_children_keeps ids r r' id) //. apply kill_children_same in H as [H _]. rw H in Hj.
    split; [done | split; [by intros [] | done]].
  - right. split; [done | split; [by intros [] | done]].
  - right. split; [done | split; [by intros [] | done]].
  - destruct (decide (id0 = id)) as [->|Hne]; [left; by eapply Hone |]. destruct Hold' as [Hold|[= ->]]; [|done].
    right. apply insert_job_Ok in H as [_ ->]. split; [done | split; [by intros [] | done]].
  - apply insert_job_Err in H as ->. right. split; [done | split; [by intros [] | done]].
  - destruct Hold' as [Hold|[=]]. destruct (decide (id0 = id)) as [->|Hne].
    + left. eapply Hone; [done |]. cbn. split; [done |]. rw lookup_insert_eq. by eexists.
    + right. split; [done | split; [done |]]. cbn. by rw lookup_insert_ne.
  - destruct Hold' as [Hold|[=]]. right. split; [done | split; [|done]]. intros [-> [? Hs]]. by rw Hs in H.
  - destruct Hold' as [Hold|[=]]. destruct (decide (id0 = id)) as [->|Hne]; [left; by eapply Hone |].
    right. split; [done | split; [by intros [Hid _] | done]].
  - destruct Hold' as [Hold|[=]]. destruct (decide (id0 = id)) as [->|Hne]; [left; by eapply Hone |].
    right. split; [done | split; [done | done]].
  - destruct Hold' as [Hold|[=]]. destruct (decide (id0 = id)) as [->|Hne]; [left; by eapply Hone |].
    right. split; [done | split; [done |]]. cbn. by rw lookup_delete_ne.
  - destruct Hold' as [Hold|[=]]. unfold watch_record in Hj |- *. cbn [jobs with_held] in Hj |- *.
    destruct (decide (id0 = id)) as [->|Hne].
    + rw Hold in Hj. cbn [jobs with_jobs with_held] in Hj. rw lookup_insert_eq in Hj. injection Hj as Hj.
      apply (f_equal job_status) in Hj. cbn [job_status ended] in Hj. rw Hr in Hj. by destruct w.
    + right. split; [done | split; [done |]]. by destruct (jobs r !! id0).
  - destruct Hold' as [Hold|[=]]. revert Hj. generalize (lit "background watcher panicked"). intros reason Hj.
    unfold mark_failed_if_running in Hj |- *. destruct (decide (id0 = id)) as [->|Hne].
    + rw Hold in Hj. destruct (is_running (job_status j')) eqn:Hrun; [|by rw Hr in Hrun].
      cbn [jobs with_jobs] in Hj. rw lookup_insert_eq in Hj. injection Hj as Hj.
      apply (f_equal job_status) in Hj. by rw Hr in Hj.
    + right. split; [done | split; [done |]]. destruct (jobs r !! id0) as [j|]; [|done]. by destruct (is_running _).
  - destruct Hold' as [Hold|[=]]. right. split; [done | split; [by intros [] |]]. cbn.
    rw lookup_delete_ne; [|done]. intros ->. apply Ht. by left.
  - destruct Hold' as [Hold|[=]]. right. split; [done | split; [by intros [] |]]. unfold kill_taken.
    case_bool_decide; [by destruct pid | done].
  - destruct Hold' as [Hold|[=]]. destruct (decide (id0 = id)) as [->|Hne].
    + left. cbn. destruct (children r !! id) as [child|].
      * exists (RemoveKill id child). split; [by left | done].
      * exists (RemoveRecord id). split; [by left | done].
    + right. split; [done | split; [by intros [] |]]. cbn. by rw lookup_delete_ne.
  - destruct Hold' as [Hold|[=]]. destruct (decide (id0 = id)) as [->|Hne]; [left; by eapply Hone |].
    right. split; [done | split; [done |]]. unfold kill_taken. case_bool_decide; [by destruct (job_pid_of id0 r) | done].
  - destruct Hold' as [Hold|[=]]. cbn in Hj. apply lookup_delete_Some in Hj as [Hne _].
    right. split; [done | split; [done | done]].
  - right. rw (kill_children_keeps ids r r' id) //. apply kill_children_same in H as [H _]. rw H in Hj.
    split; [done | split; [by intros [] | done]].
Qed.

Lemma exec_takes now r t r' ts t' id :
  exec now r t r' ts -> t' ∈ ts -> id ∈ takes t' ->
  id ∈ takes t \/ (id ∈ (evict_jobs r).1 /\ r' = (evict_jobs r).2 /\ is_Some (spawning t)).
Proof.
  intros He Ht Hid. inversion He; subst;
    try (by apply elem_of_nil in Ht); try (apply list_elem_of_singleton in Ht as ->);
    try (by apply elem_of_nil in Hid); try (by left).
  - right. split; [done | split; [done | by eexists]].
  - destruct (take_child id0 r).1; [|by apply elem_of_nil in Ht].
    apply list_elem_of_singleton in Ht as ->. by apply elem_of_nil in Hid.
  - destruct (take_child id0 r).1; apply list_elem_of_singleton in Ht as ->; by apply elem_of_nil in Hid.
Qed.

Lemma evicted r id :
  id ∈ (evict_jobs r).1 -> is_Some (jobs r !! id) /\ jobs (evict_jobs r).2 !! id = None.
Proof.
  unfold evict_jobs. destruct (MAX_JOBS <=? _); [|intros Hid; by apply elem_of_nil in Hid].
  cbn [fst snd]. intros Hid. split.
  - apply finished_ids_spec in Hid as (j & Hj & _). by eexists.
  - apply eq_None_not_Some. intros [j [Hn _]%delete_jobs_Some]. done.
Qed.

(** A number that is over stays over. *)
Lemma over_exec now r l1 t l2 r' ts id :
  exec now r t r' ts -> over (mkState r (l1 ++ t :: l2)) id -> over (mkState r' (l1 ++ ts ++ l2)) id.
Proof.
  intros He (Hj & Hn & Hs). cbn [registry tasks] in *. split; [|split]; cbn [registry tasks].
  - intros j' Hj' Hr. destruct (exec_jobs now r t r' ts id j' He Hj') as [Ho|[_ [[Ht _]|(_ & j & _ & _ & _ & Hne)]]].
    + by eapply Hj.
    + eapply Hs; [|exact Ht]. apply elem_of_app. right. by left.
    + done.
  - by rw (exec_next now r t r' ts He).
  - intros t'. rw !elem_of_app. intros [Hin|[Hin|Hin]] Hsp.
    + eapply Hs; [|exact Hsp]. apply elem_of_app. by left.
    + destruct (exec_follow now r t r' ts t' id He Hin (spawning_chain t' id Hsp)) as (Hc & Hnone & _).
      destruct (spawning t) as [i|] eqn:Est; [|by destruct (Hnone eq_refl) as [Hno _]; rw Hsp in Hno].
      eapply (Hs t); [apply elem_of_app; right; by left |]. apply spawning_some; [by eexists | done].
    + eapply Hs; [|exact Hsp]. apply elem_of_app. right. by right.
Qed.

(** The jobs of a registry have no spawning task. *)
Lemma listed_not_spawning s t id : inv s -> t ∈ tasks s -> is_Some (jobs (registry s) !! id) -> spawning t <> Some id.
Proof.
  intros Hi Ht [j Hj] Hs. pose proof (inv_supported s Hi t id Ht (spawning_chain t id Hs)) as Hsup.
  unfold supported in Hsup. rw Hs in Hsup. cbn in Hsup. by rw Hj in Hsup.
Qed.

Lemma attended_exec now r l1 t l2 r' ts :
  inv (mkState r (l1 ++ t :: l2)) -> attended (mkState r (l1 ++ t :: l2)) -> exec now r t r' ts ->
  attended (mkState r' (l1 ++ ts ++ l2)).
Proof.
  intros Hi [Ha Hb] He. cbn [registry tasks] in *. split; cbn [registry tasks].
  - intros id j' Hj Hr.
    assert (id ∉ takes t) as Ht.
    { intros Hid. pose proof (Hb t id ltac:(apply elem_of_app; right; by left) Hid) as Ho.
      by destruct (over_exec now r l1 t l2 r' ts id He Ho) as (Hno & _); eapply Hno. }
    destruct (exec_attends now r t r' ts id j' He Hj Hr Ht) as [(t' & Hin & Hat)|(Hold & Hnot & Hkeep)].
    + exists t'. split; [|done]. apply elem_of_app. right. apply elem_of_app. by left.
    + destruct (Ha id j' Hold Hr) as (t0 & Hin & Hat). exists t0. split.
      * apply elem_of_app in Hin as [Hin|[->|Hin]%elem_of_cons]; [apply elem_of_app; by left | done |].
        apply elem_of_app. right. apply elem_of_app. by right.
      * destruct t0; cbn in Hat |- *; try done. destruct Hat as [-> Hat]. split; [done | by apply Hkeep].
  - intros t' id Hin Hid. rw !elem_of_app in Hin.
    assert (t' ∈ ts \/ t' ∈ l1 ++ t :: l2) as [Hts|Hold].
    { destruct Hin as [Hin|[Hin|Hin]]; [right; apply elem_of_app; by left | by left | right; apply elem_of_app; right; by right]. }
    2: { eapply over_exec; [done | by apply (Hb t')]. }
    destruct (exec_takes now r t r' ts t' id He Hts Hid) as [Ht|(Hev & Hr' & Hsp)].
    { eapply over_exec; [done |]. apply (Hb t); [apply elem_of_app; right; by left | done]. }
    destruct (evicted r id Hev) as [Hsome Hnone]. split; [|split]; cbn [registry tasks].
    + intros j. rw Hr'. by rw Hnone.
    + rw (exec_next now r t r' ts He). destruct Hsome as [j Hj]. by apply (inv_keys _ Hi id j).
    + intros t2 Ht2 Hs2. rw !elem_of_app in Ht2.
      destruct Ht2 as [Ht2|[Ht2|Ht2]].
      * eapply (listed_not_spawning _ t2 id Hi); [apply elem_of_app; by left | done | done].
      * destruct (exec_follow now r t r' ts t2 id He Ht2 (spawning_chain t2 id Hs2)) as (Hc & _ & _).
        eapply (listed_not_spawning _ t id Hi); [apply elem_of_app; right; by left | done | by apply spawning_some].
      * eapply (listed_not_spawning _ t2 id Hi); [apply elem_of_app; right; by right | done | done].
Qed.

(** The other steps: the handles stay, no job starts running, and the new task takes only
    jobs that are over. *)
Lemma attended_start r r' t ts :
  attended (mkState r ts) -> children r' = children r -> N.le (next_id r) (next_id r') ->
  (forall id j', jobs r' !! id = Some j' -> job_status j' = Running -> jobs r !! id = Some j') ->
  (forall id, spawning t = Some id -> N.le (next_id r) id) ->
  (forall id, id ∈ takes t -> over (mkState r' (t :: ts)) id) ->
  attended (mkState r' (t :: ts)).
Proof.
  intros [Ha Hb] Hc Hn Hj Hsp Ht. cbn [registry tasks] in *. split; cbn [registry tasks].
  - intros id j' Hj' Hr. destruct (Ha id j' (Hj id j' Hj' Hr) Hr) as (t0 & Hin & Hat).
    exists t0. split; [by right | by rw Hc].
  - intros t' id [->|Hin]%elem_of_cons Hid; [by apply Ht |].
    destruct (Hb t' id Hin Hid) as (Hno & Hlt & Hs). cbn [registry tasks] in *. split; [|split]; cbn [registry tasks].
    + intros j' Hj' Hr. by apply (Hno j' (Hj id j' Hj' Hr)).
    + lia.
    + intros t2 [->|Hin2]%elem_of_cons Hs2; [|by apply (Hs t2)]. apply Hsp in Hs2. lia.
Qed.

Lemma attended_same r r' ts :
  attended (mkState r ts) -> jobs r' = jobs r -> children r' = children r -> next_id r' = next_id r ->
  attended (mkState r' ts).
Proof.
  intros [Ha Hb] Hj Hc Hn. split; cbn [registry tasks] in *; unfold over in *; cbn [registry tasks] in *; rw ?Hj ?Hc ?Hn; done.
Qed.

(** Jobs of the registry that do not run are over. *)
Lemma not_running_over r ts t id j :
  inv (mkState r ts) -> jobs r !! id = Some j -> job_status j <> Running -> spawning t = None ->
  over (mkState r (t :: ts)) id.
Proof.
  intros Hi Hj Hr Ht. split; [|split]; cbn [registry tasks].
  - intros j' Hj'. rw Hj in Hj'. by simplify_eq.
  - by apply (inv_keys _ Hi id j).
  - intros t2 [->|Hin]%elem_of_cons; [by rw Ht |]. apply (listed_not_spawning (mkState r ts)); [done | done | by eexists].
Qed.

Lemma attended_step gate s s' : inv s -> attended s -> step gate true s s' -> attended s'.
Proof.
  intros Hi Ha Hst. pose proof (inv_step gate true s s' Hi Hst) as Hi'. inversion Hst; subst; clear Hst.
  - by eapply attended_exec.
  - match goal with H : watcher_of t = Some id |- _ => rename H into Hw end.
    assert (jobs (unheld t r) = jobs r /\ next_id (unheld t r) = next_id r /\ children (unheld t r) = children r)
      as (Hj & Hn & Hc) by (by destruct t).
    apply (attended_same r); [|done..]. destruct Ha as [Ha Hb]. cbn [registry tasks] in *. split; cbn [registry tasks].
    + intros i j Hij Hr. destruct (Ha i j Hij Hr) as (t0 & Hin & Hat).
      apply elem_of_app in Hin as [Hin|[->|Hin]%elem_of_cons].
      * exists t0. split; [apply elem_of_app; by left | done].
      * exists (MarkFailed id). split; [apply elem_of_app; right; by left |].
        destruct t; cbn in Hw, Hat |- *; simplify_eq; try done. by destruct Hat.
      * exists t0. split; [apply elem_of_app; right; by right | done].
    + intros t' i Hin Hid. apply elem_of_app in Hin as [Hin|[->|Hin]%elem_of_cons]; [|by apply elem_of_nil in Hid|].
      * destruct (Hb t' i ltac:(apply elem_of_app; by left) Hid) as (Hno & Hlt & Hs). split; [done | split; [done |]].
        cbn [tasks]. intros t2 [Hin2|[->|Hin2]%elem_of_cons]%elem_of_app; [apply Hs; apply elem_of_app; by left | done |].
        apply Hs; apply elem_of_app; right; by right.
      * destruct (Hb t' i ltac:(apply elem_of_app; right; by right) Hid) as (Hno & Hlt & Hs). split; [done | split; [done |]].
        cbn [tasks]. intros t2 [Hin2|[->|Hin2]%elem_of_cons]%elem_of_app; [apply Hs; apply elem_of_app; by left | done |].
        apply Hs; apply elem_of_app; right; by right.
  - apply attended_start with (r := r); [done | done | cbn; lia | done | |].
    + cbn. intros id [= <-]. done.
    + intros id Hid. by apply elem_of_nil in Hid.
  - destruct (cancel_flip_same id now r) as (Hn & _ & Hc).
    apply attended_start with (r := r); [done | done | by rw Hn | | done |].
    + intros i j' Hj' Hr. destruct (cancel_flip_jobs id now r i j' Hj') as (j & Hj & _ & [Hst|[_ Hst]]); [|by rw Hst in Hr].
      unfold cancel_flip in Hj'. destruct (jobs r !! id) as [k|] eqn:Ek; [|done].
      destruct (is_running (job_status k)); [|done]. cbn [snd jobs with_jobs] in Hj'.
      apply lookup_insert_Some in Hj' as [[_ <-]|[_ Hj']]; done.
    + intros i Hi0%list_elem_of_singleton. subst i.
      assert (is_Some (jobs (cancel_flip id now r).2 !! id)) as [j' Hj'].
      { destruct (H eq_refl) as [j Hj]. unfold cancel_flip. rw Hj. destruct (is_running (job_status j)); cbn [snd jobs with_jobs];
          [rw lookup_insert_eq; by eexists | rw Hj; by eexists]. }
      split; [|split]; cbn [registry tasks].
      * intros k Hk Hr. unfold cancel_flip in Hk. destruct (jobs r !! id) as [j|] eqn:Ej; [|cbn in Hk; by rw Ej in Hk].
        destruct (is_running (job_status j)) eqn:Hrun; cbn [snd jobs with_jobs] in Hk.
        -- rw lookup_insert_eq in Hk. by injection Hk as <-.
        -- rw Ej in Hk. injection Hk as ->. by rw Hr in Hrun.
      * by apply (inv_keys _ Hi' id j').
      * intros t2 Hin2. apply (listed_not_spawning _ t2 id Hi' Hin2). by eexists.
  - apply attended_start with (r := r); [done | done | lia | done | done |].
    intros i Hid. by apply elem_of_nil in Hid.
  - apply attended_start with (r := r); [done | done | lia | done | done |].
    intros i Hid. cbn [takes] in Hid. apply finished_ids_spec in Hid as (j & Hj & Hr). by eapply not_running_over.
  - by apply (attended_same r).
  - by apply (attended_same r).
Qed.

Lemma attended_initial : attended no_jobs.
Proof. split; [done |]. by intros t id ?%elem_of_nil. Qed.

Lemma reachable_attended gate s : reachable gate true s -> attended s.
Proof.
  intros Hr. apply (reachable_ind gate true (fun s => inv s /\ attended s) s); [|intros x y [Hi Ha] Hst|done].
  - split; [apply inv_no_jobs | apply attended_initial].
  - split; [by eapply inv_step | by eapply attended_step].
Qed.

(** ** Gaps *)

Definition anything (_ : str) (_ : option str) : option str := None.

(** The head task makes a step. *)
Lemma step_head gate known now r t l r' ts s :
  exec now r t r' ts -> rtc (step gate known) (mkState r' (ts ++ l)) s -> rtc (step gate known) (mkState r (t :: l)) s.
Proof. intros He Hr. eapply rtc_l; [exact (step_exec gate known now r [] t l r' ts He) | exact Hr]. Qed.

(** The record of a job is inserted before its handle: a [cancel] in between, as the end
    of a session or of a subtask makes it, reports the job as cancelled, finds no handle
    and leaves the process running, and no task will kill it. *)
Lemma cancel_between_inserts_kills_nothing :
  exists s j, reachable anything true s
    /\ jobs (registry s) !! 1%N = Some j /\ job_status j = JobCancelled
    /\ 100%N ∈ alive (registry s) /\ tasks s = [Waiting 1 100].
Proof.
  eexists _, _. split.
  { eapply rtc_l; [apply (step_spawn anything true Registry_new [] [] None None eq_refl) |].
    eapply (step_head _ _ 0); [apply exec_evict |]. eapply (step_head _ _ 0); [by apply exec_clear |].
    eapply (step_head _ _ 0); [apply (exec_started _ _ _ _ _ 100); set_solver |].
    eapply (step_head _ _ 0); [by eapply exec_insert |].
    eapply rtc_l; [apply (step_cancel anything true _ _ 1 0); intros _; by eexists |].
    eapply (step_head _ _ 0); [apply exec_cancel_take |].
    eapply (step_head _ _ 0); [apply exec_store |].
    eapply (step_head _ _ 0); [by apply (exec_watch _ _ 1 100); vm_compute |].
    eapply (step_head _ _ 0); [by apply exec_lock; set_solver |].
    apply rtc_refl. }
  split; [by vm_compute | split; [done | split; [|done]]]. by apply (bool_decide_unpack _); vm_compute.
Qed.

(** A [cancel] of a number that has no job yet goes on to take the handle: when the job
    is spawned meanwhile, its process is killed, its watcher finds no handle and ends, and
    the job is listed as running for ever. *)
Lemma cancel_of_next_id_leaks :
  exists s j, reachable anything false s
    /\ jobs (registry s) !! 1%N = Some j /\ job_status j = Running
    /\ alive (registry s) = ∅ /\ tasks s = [].
Proof.
  eexists _, _. split.
  { eapply rtc_l; [apply (step_cancel anything false Registry_new [] 1 0); done |].
    eapply rtc_l; [apply (step_spawn anything false _ _ [] None None eq_refl) |].
    eapply (step_head _ _ 0); [apply exec_evict |]. eapply (step_head _ _ 0); [by apply exec_clear |].
    eapply (step_head _ _ 0); [apply (exec_started _ _ _ _ _ 100); set_solver |].
    eapply (step_head _ _ 0); [by eapply exec_insert |].
    eapply (step_head _ _ 0); [apply exec_store |].
    eapply rtc_l; [eapply (step_exec _ _ 0 _ [Watch 1]); apply exec_cancel_take |].
    eapply rtc_l; [eapply (step_exec _ _ 0 _ [Watch 1]); apply exec_cancel_kill |].
    eapply (step_head _ _ 0); [by apply exec_watch_none |].
    apply rtc_refl. }
  split; [by vm_compute | split; [done | split; [by vm_compute | done]]].
Qed.

(** Eviction is said to take the oldest ended jobs first; at the cap it takes them all. *)
Lemma evict_takes_all r id j :
  MAX_JOBS <= size (jobs r) -> jobs (evict_jobs r).2 !! id = Some j -> job_status j = Running.
Proof.
  intros Hs%Nat.leb_le Hj. unfold evict_jobs in Hj. rw Hs in Hj. cbn [snd] in Hj.
  apply delete_jobs_Some in Hj as [Hn Hj]. destruct (decide (job_status j = Running)); [done |].
  destruct Hn. apply finished_ids_spec. by exists j.
Qed.

(** ** Properties *)

(** C14.  However the operations, watchers and processes interleave, the registry holds at
    most 64 jobs, each under its own number, a number below the next one; a job that has
    ended keeps its status in every step, so neither a watcher nor a watchdog overwrites a
    cancellation, and no number is given twice. *)
Theorem registry_invariant gate known s :
  reachable gate known s ->
  size (jobs (registry s)) <= 64
  /\ (forall id j, jobs (registry s) !! id = Some j -> job_id j = id /\ N.lt id (next_id (registry s)))
  /\ forall s' id j j', step gate known s s' ->
       jobs (registry s) !! id = Some j -> job_status j <> Running ->
       jobs (registry s') !! id = Some j' -> job_status j' = job_status j.
Proof.
  intros Hr. apply reachable_inv in Hr as Hi. split; [apply (inv_cap s Hi) | split; [apply (inv_keys s Hi) |]].
  intros s' id j j' Hst Hj Hn Hj'. inversion Hst; subst; clear Hst; cbn [registry reserve kill set_run_id snd jobs] in *; try by simplify_eq.
  - match goal with H : exec _ _ _ _ _ |- _ => rename H into He end.
    destruct (exec_jobs now r t r' ts id j' He Hj') as [Ho|[Hc Hcase]]; [by simplify_eq |].
    pose proof (inv_supported _ Hi t id ltac:(apply elem_of_app; right; by left) Hc) as Hsup.
    unfold supported in Hsup. destruct Hcase as [[Hs _]|(Hs & j0 & Ej & _ & Hkeep & _)]; rw Hs in Hsup; cbn in Hsup.
    + by rw Hj in Hsup.
    + rw Ej in Hj. simplify_eq. destruct (Hsup j Ej) as [Hrun|Hcan]; [done |]. by rw (Hkeep Hcan) Hcan.
  - assert (jobs (unheld t r) = jobs r) as Hu by (by destruct t). rw Hu in Hj'. by simplify_eq.
  - destruct (cancel_flip_jobs _ _ _ _ _ Hj') as (j0 & Ej & _ & [Hst|[Hrun _]]); rw Ej in Hj; by simplify_eq.
Qed.

(** As long as [cancel] is only asked for jobs of the registry, a job that is listed
    as running has a task that will record its end or remove it: none is left behind by a
    cancel, a removal, an eviction or the panic of its watcher. *)
Lemma running_job_attended gate s id j :
  reachable gate true s -> jobs (registry s) !! id = Some j -> job_status j = Running ->
  exists t, t ∈ tasks s /\ attends (children (registry s)) id t.
Proof. intros Hr Hj Hs. by apply (att_running s (reachable_attended gate s Hr) id j). Qed.

(** One job that has been stored. *)
Definition one_job : State :=
  mkState (mkRegistry {[1%N := with_pid (BashJob_new 1 [] None [] 0) 100]} {[1%N := 100%N]} 2 [] ∅ {[100%N]}) [Watch 1].

Lemma one_job_reachable known : reachable anything known one_job.
Proof.
  eapply rtc_l; [apply (step_spawn anything known Registry_new [] [] None None eq_refl) |].
  eapply (step_head _ _ 0); [apply exec_evict |]. eapply (step_head _ _ 0); [by apply exec_clear |].
  eapply (step_head _ _ 0); [apply (exec_started _ _ _ _ _ 100); set_solver |].
  eapply (step_head _ _ 0); [by eapply exec_insert |].
  eapply (step_head _ _ 0); [apply exec_store |]. apply rtc_refl.
Qed.

Lemma registry_invariant_witness : size (jobs (registry one_job)) <= 64.
Proof. apply (registry_invariant anything false one_job (one_job_reachable false)). Defined.

Lemma running_job_attended_witness : exists t, t ∈ [Watch 1] /\ attends {[1%N := 100%N]} 1 t.
Proof.
  apply (running_job_attended anything one_job 1 (with_pid (BashJob_new 1 [] None [] 0) 100));
    [apply one_job_reachable | by vm_compute | done].
Defined.
