(* ===== verification/Hooks.v ===== *)
(** * Lifecycle hooks (src/session/hooks.rs)

    Which hooks an event has, the payload they get, and what becomes of their answers:
    in-process handlers, the script of the user, the scripts of plugins and of Claude
    configurations.  The tool names of [src/session/agents.rs] are translated for the
    latter.  A script is read and passes the bash gate before it runs.

    Parameters: the run of a script ([bash], which may change the tree), serde_json
    ([JsonText]), the scrubber of the audit log, globset ([glob_new]) and the Unicode
    lower-case table.  In-process handlers are functions of the context. *)

From Stdlib Require Import ssreflect.
From S2P Require Import Prelude Machine AuditTrail Streams BashSafety Paths PathGuard FileTools ToolGates Shell.

(** ** Events and payloads *)

Record CompactHookStatsData := mkCompactStats {
  message_count : N;
  preserve_recent : N;
  original_count : N;
  result_count : N;
  dropped_tool_results : N;
  condensed_assistant_turns : N;
  summarised_messages : N;
  strategy : str
}.

Record HookContext := mkContext {
  event : str;
  session_id : str;
  hook_tool_name : option str;
  tool_args_json : option str;
  tool_result : option str;
  compact_stats : option CompactHookStatsData
}.

Inductive HookDecision := HookAllow | HookDeny (reason : str).

Definition KNOWN_EVENTS : list str := map lit
  ["pre-tool"; "post-tool"; "pre-turn"; "post-turn"; "session-start"; "pre-compact"; "post-compact"].

Definition event_pairs : list (str * str) :=
  [(lit "pre-tool", lit "PreToolUse"); (lit "post-tool", lit "PostToolUse"); (lit "pre-turn", lit "UserPromptSubmit");
   (lit "session-start", lit "SessionStart"); (lit "post-turn", lit "Stop"); (lit "pre-compact", lit "PreCompact")].

Definition kf_to_claude_event (kf_event : str) : option str := assoc kf_event event_pairs.
Definition claude_to_kf_event (claude_event : str) : option str :=
  assoc claude_event (map (fun p => (p.2, p.1)) event_pairs).

Definition CLAUDE_TOOL_ALIASES : list (str * str) :=
  [(lit "Read", lit "read_file"); (lit "Write", lit "write_file"); (lit "Edit", lit "edit_file");
   (lit "MultiEdit", lit "edit_file"); (lit "Bash", lit "bash"); (lit "Glob", lit "glob"); (lit "Grep", lit "grep");
   (lit "WebFetch", lit "web_fetch"); (lit "WebSearch", lit "web_search"); (lit "NotebookEdit", lit "notebook_edit");
   (lit "TodoWrite", lit "todo"); (lit "Task", lit "task"); (lit "Agent", lit "task")].

Definition alias_for (claude_name : str) : str := unwrap_or claude_name (assoc claude_name CLAUDE_TOOL_ALIASES).

Fixpoint translate_from (out : list str) (names : list str) : list str :=
  match names with
  | [] => out
  | n :: names' =>
      let native := alias_for (trim n) in
      translate_from (if listed out native then out else out ++ [native]) names'
  end.
Definition translate_tool_list (claude_names : list str) : list str := translate_from [] claude_names.

Section Payload.
Context `{JsonText}.

(** A text parsed as JSON, else as a string. *)
Definition json_or_text (s : str) : json := match parse_json s with Ok v => v | Err _ => JStr s end.

(** [HookPayload::from_ctx] and [to_stdin_json]: members that are missing are left out. *)
Definition payload (ctx : HookContext) : json :=
  JObj ([(lit "hook_event_name", JStr (unwrap_or (event ctx) (kf_to_claude_event (event ctx))))]
        ++ (if bool_decide (session_id ctx = []) then [] else [(lit "session_id", JStr (session_id ctx))])
        ++ match hook_tool_name ctx with Some n => [(lit "tool_name", JStr n)] | None => [] end
        ++ match tool_args_json ctx with Some s => [(lit "tool_input", json_or_text s)] | None => [] end
        ++ match tool_result ctx with Some s => [(lit "tool_response", json_or_text s)] | None => [] end).
Definition to_stdin_json (ctx : HookContext) : str := print_json (payload ctx).

Definition ctx_to_env_vars (ctx : HookContext) : list (str * str) :=
  [(lit "KF_EVENT", event ctx)]
  ++ (if bool_decide (session_id ctx = []) then [] else [(lit "KF_SESSION_ID", session_id ctx)])
  ++ match hook_tool_name ctx with Some n => [(lit "KF_TOOL_NAME", n)] | None => [] end
  ++ match tool_args_json ctx with Some s => [(lit "KF_TOOL_ARGS_JSON", s)] | None => [] end
  ++ match tool_result ctx with Some s => [(lit "KF_TOOL_RESULT", s)] | None => [] end.

Definition env_var_to_ctx (ctx : HookContext) (kv : str * str) : HookContext :=
  let '(k, v) := kv in
  if str_eqb k "KF_SESSION_ID" then mkContext (event ctx) v (hook_tool_name ctx) (tool_args_json ctx) (tool_result ctx) (compact_stats ctx)
  else if str_eqb k "KF_TOOL_NAME" then mkContext (event ctx) (session_id ctx) (Some v) (tool_args_json ctx) (tool_result ctx) (compact_stats ctx)
  else if str_eqb k "KF_TOOL_ARGS_JSON" then mkContext (event ctx) (session_id ctx) (hook_tool_name ctx) (Some v) (tool_result ctx) (compact_stats ctx)
  else if str_eqb k "KF_TOOL_RESULT" then mkContext (event ctx) (session_id ctx) (hook_tool_name ctx) (tool_args_json ctx) (Some v) (compact_stats ctx)
  else ctx.
Definition env_vars_to_ctx (event_name : str) (env_vars : list (str * str)) : HookContext :=
  fold_left env_var_to_ctx env_vars (mkContext event_name [] None None None None).
Definition stdin_json_from_env_vars (event_name : str) (env_vars : list (str * str)) : str :=
  to_stdin_json (env_vars_to_ctx event_name env_vars).

(** ** Claude configurations *)

Record ClaudeHookEntry := mkEntry { entry_event : str; command : str }.

Definition is_command (hook : json) : bool := str_eqb (unwrap_or [] (str_arg hook "type")) "command".

Definition claude_entry (kf_base matcher : str) (hook : json) : option ClaudeHookEntry :=
  if negb (is_command hook) then None
  else (fun c => mkEntry (if bool_decide (matcher = []) then kf_base else kf_base ++ "-" ++ alias_for matcher) c)
       <$> str_arg hook "command".

Definition claude_group (kf_base : str) (group : json) : list ClaudeHookEntry :=
  let matcher := trim (unwrap_or [] (str_arg group "matcher")) in
  match json_get group "hooks" ≫= as_array with
  | Some hook_list => omap (claude_entry kf_base matcher) hook_list
  | None => []
  end.

Definition claude_event_hooks (ev : str * json) : list ClaudeHookEntry :=
  match claude_to_kf_event ev.1, as_array ev.2 with
  | Some kf_base, Some groups => concat (map (claude_group kf_base) groups)
  | _, _ => []
  end.

Definition parse_claude_hooks_obj (hooks : json) : list ClaudeHookEntry :=
  match hooks with JObj m => concat (map claude_event_hooks m) | _ => [] end.

(** [read_to_string]. *)
Definition read_to_string (fs : Fs) (p : str) : result str str :=
  match read_bytes fs p with
  | Ok b => match from_utf8 b with Some s => Ok s | None => Err (lit "stream did not contain valid UTF-8") end
  | Err e => Err (errno_text e)
  end.

Definition load_claude_config (fs : Fs) (path : str) : list ClaudeHookEntry :=
  match read_to_string fs path with
  | Err _ => []
  | Ok data => match parse_json data with
               | Err _ => []
               | Ok root => match json_get root "hooks" with Some v => parse_claude_hooks_obj v | None => [] end
               end
  end.

(** ** The runner *)

Record HookRunner := mkRunner {
  hooks_dir : str;
  available : list str;
  plugin_hooks : list (str * str * option str);
  in_process_hooks : list (str * (HookContext -> HookDecision));
  post_hooks : list (str * (HookContext -> result unit str))
}.

Definition is_file (fs : Fs) (p : str) : bool :=
  match metadata fs p with Ok (_, File _) => true | _ => false end.

(** The names of the directory's entries, in the order of the table. *)
Definition read_dir (fs : Fs) (dir : str) : list str :=
  match resolve fs Follow dir with
  | Err _ => []
  | Ok loc => omap (fun e => match rev e.1 with
                             | n :: r => if bool_decide (rev r = loc) then Some n else None
                             | [] => None
                             end) (map_to_list (nodes fs))
  end.

Definition discover_hooks (fs : Fs) (dir : str) : list str :=
  omap (fun name => if is_file fs (path_join dir name)
                    then match strip_suffix name ".sh" with
                         | Some ((_ :: _) as stem) => Some stem
                         | _ => None
                         end
                    else None) (read_dir fs dir).

Definition HookRunner_new (fs : Fs) (dir : str) : HookRunner := mkRunner dir (discover_hooks fs dir) [] [] [].

Definition with_plugin_hooks (r : HookRunner) (l : list (str * str * option str)) : HookRunner :=
  mkRunner (hooks_dir r) (available r) (plugin_hooks r ++ l) (in_process_hooks r) (post_hooks r).

(** A plugin: its name, its root, its hooks. *)
Definition load_plugin_hooks (r : HookRunner) (active : list (str * str * list (str * str))) (disabled : list str)
    : HookRunner :=
  with_plugin_hooks r
    (concat (map (fun p => let '(name, root, hooks) := p in
                           if listed disabled name then []
                           else map (fun h => (h.1, path_join root h.2, Some name)) hooks) active)).

Definition load_claude_hooks_config (fs : Fs) (r : HookRunner) (path : str) (trust_workspace : bool) : HookRunner :=
  if negb trust_workspace || negb (is_file fs path) then r
  else let label := "claude:" ++ unwrap_or (lit "unknown") (file_name path) in
       with_plugin_hooks r (map (fun e => (entry_event e, command e, Some label)) (load_claude_config fs path)).

Definition has_hook (r : HookRunner) (event_name : str) : bool :=
  listed (available r) event_name
  || existsb (fun h => str_eqb h.1.1 event_name) (plugin_hooks r)
  || existsb (fun h => str_eqb h.1 event_name) (in_process_hooks r)
  || existsb (fun h => str_eqb h.1 event_name) (post_hooks r).

Definition plugin_hooks_for (r : HookRunner) (event_name : str) : list (str * option str) :=
  map (fun h => (h.1.2, h.2)) (List.filter (fun h => str_eqb h.1.1 event_name) (plugin_hooks r)).
End Payload.

(** ** Running hooks *)

Record HookRecord := mkRecord {
  rec_event : str;
  rec_plugin : option str;
  rec_verdict : str;
  rec_reason : option str
}.

(** The file tree and the audit log, when one is attached. *)
Record HookWorld := mkWorld { tree : Fs; audit_log : option (list HookRecord) }.

Section Run.
Context `{JsonText} `{Scrubber} `{UnicodeCase}.
Variable glob_new : str -> option (str -> bool).
(** The environment of this process. *)
Variable environ : list (str * str).
(** [bash script] with an environment and an input: what it does and the tree it leaves. *)
Variable bash : str -> list (str * str) -> str -> Fs -> Invocation * Fs.

Record HookConfig := mkHookConfig { security : SecurityConfig; cfg_bash_sandbox_workdir : bool }.

Definition audit_hook (w : HookWorld) (ev : str) (plugin : option str) (verdict : str) (reason : option str) : HookWorld :=
  mkWorld (tree w) ((fun l => l ++ [mkRecord ev plugin verdict (scrub_free_text <$> reason)]) <$> audit_log w).

(** [join_hook_drain]; [None] when the task never ends. *)
Definition join_hook_drain (t : DrainTask) (label : str) : option (result (list N * nat) str) :=
  match t with
  | Drains p => Some (map_err (fun e => "drain " ++ label ++ ": " ++ e) (drain_capped p MAX_BASH_OUTPUT_BYTES))
  | Panics e => Some (Err ("drain " ++ label ++ " task panicked: " ++ e))
  | Stuck => None
  end.

(** Both streams; the text of the second. *)
Definition hook_stderr (c : Invocation) : option (result str str) :=
  match join_hook_drain (child_stdout c) "stdout" with
  | None => None
  | Some (Err e) => Some (Err e)
  | Some (Ok _) =>
      (fun r => let? raw := r in Ok (cap_to_string raw.1 raw.2)) <$> join_hook_drain (child_stderr c) "stderr"
  end.

Definition debug_code (c : option Z) : str :=
  match c with Some z => "Some(" ++ show_Z z ++ ")" | None => lit "None" end.

Definition exit_answer (script : str) (raw : Z) (stderr_text : str) : result HookDecision str :=
  if bool_decide (status_code raw = Some 2%Z)
  then Ok (HookDeny (if str_eqb stderr_text [] then "hook " ++ script ++ " denied execution"
                     else "hook " ++ script ++ " denied execution: " ++ trim stderr_text))
  else if negb (status_success raw)
  then Err ("hook " ++ script ++ " exited with non-zero status " ++ debug_code (status_code raw) ++ ": "
            ++ (if str_eqb stderr_text [] then lit "non-zero exit" else trim stderr_text))
  else Ok HookAllow.

(** What becomes of a started script; [None] when a pipe stays open. *)
Definition script_answer (script : str) (c : Invocation) : option (result HookDecision str) :=
  match starts c with
  | Err e => Some (Err ("failed to spawn hook " ++ script ++ ": " ++ e))
  | Ok _ =>
      match ends c with
      | Exits raw => (fun r => let? stderr_text := r in exit_answer script raw stderr_text) <$> hook_stderr c
      | WaitFails _ => Some (Ok HookAllow)
      | Expires | IsCancelled => (fun r => let? _ := r in Ok HookAllow) <$> hook_stderr c
      end
  end.

(** Why a script is not run. *)
Definition script_refused (fs : Fs) (cfg : HookConfig) (script : str) : option str :=
  let '(dl, guard, _) := access_from_config glob_new (security cfg) in
  if is_path_denied dl script then Some ("hook script path denied by deny list: " ++ script)
  else match read_to_string fs script with
       | Err e => Some ("cannot read hook script " ++ script ++ ": " ++ e)
       | Ok content =>
           (fun reason => "hook script blocked: " ++ reason)
           <$> check_bash_command_str (located fs) content None dl (sandbox_dir guard) (cfg_bash_sandbox_workdir cfg)
       end.

(** The environment of a script: this process's without its credentials, then the
    variables of the event. *)
Definition hook_env (env_vars : list (str * str)) : list (str * str) :=
  fold_left (fun env kv => set_env kv.1 kv.2 env) env_vars (scrub_secrets_from_child_env environ environ).

Definition run_hook_script (cfg : HookConfig) (env_vars : list (str * str)) (stdin_json script : str) (fs : Fs)
    : option (result HookDecision str) * Fs :=
  match script_refused fs cfg script with
  | Some e => (Some (Err e), fs)
  | None => let '(c, fs') := bash script (hook_env env_vars) stdin_json fs in (script_answer script c, fs')
  end.

(** ** Decisions *)

Definition denies (d : HookDecision) : bool := match d with HookDeny _ => true | HookAllow => false end.

(** What is done with an answer: the records, the decisions so far. *)
Definition note_answer (ev : str) (plugin : option str) (a : result HookDecision str) (st : HookWorld * list HookDecision)
    : HookWorld * list HookDecision :=
  let '(w, decisions) := st in
  match a with
  | Ok (HookDeny reason) => (audit_hook w ev plugin "deny" (Some reason), decisions ++ [HookDeny reason])
  | Ok d => (w, decisions ++ [d])
  | Err e => (audit_hook w ev plugin "allow_fail_open" (Some e), decisions)
  end.

Definition run_in_process (r : HookRunner) (ev : str) (ctx : HookContext) (st : HookWorld * list HookDecision)
    : HookWorld * list HookDecision :=
  fold_left (fun st h => if str_eqb h.1 ev then note_answer ev None (Ok (h.2 ctx)) st else st) (in_process_hooks r) st.

Fixpoint run_scripts (cfg : HookConfig) (ev : str) (env_vars : list (str * str)) (stdin_json : str)
    (scripts : list (str * option str)) (st : HookWorld * list HookDecision) : option (HookWorld * list HookDecision) :=
  match scripts with
  | [] => Some st
  | (script, plugin) :: more =>
      match run_hook_script cfg env_vars stdin_json script (tree st.1) with
      | (None, _) => None
      | (Some a, fs') =>
          run_scripts cfg ev env_vars stdin_json more (note_answer ev plugin a (mkWorld fs' (audit_log st.1), st.2))
      end
  end.

(** The user's script, then those of the plugins. *)
Definition event_scripts (r : HookRunner) (ev : str) : list (str * option str) :=
  (if listed (available r) ev then [(path_join (hooks_dir r) (ev ++ ".sh"), None)] else [])
  ++ plugin_hooks_for r ev.

Definition run_decision_inner (r : HookRunner) (ev : str) (ctx : HookContext) (owned_vars : list (str * str))
    (cfg : HookConfig) (w : HookWorld) : option (HookDecision * HookWorld) :=
  (fun st => (unwrap_or HookAllow (find_first denies st.2), st.1))
  <$> run_scripts cfg ev owned_vars (to_stdin_json ctx) (event_scripts r ev) (run_in_process r ev ctx (w, [])).

Definition run_decision (r : HookRunner) (ev : str) (env_vars : list (str * str)) (cfg : HookConfig) (w : HookWorld)
    : option (HookDecision * HookWorld) :=
  run_decision_inner r ev (env_vars_to_ctx ev env_vars) env_vars cfg w.
Definition run_decision_with_context (r : HookRunner) (ev : str) (ctx : HookContext) (cfg : HookConfig) (w : HookWorld)
    : option (HookDecision * HookWorld) :=
  run_decision_inner r ev ctx (ctx_to_env_vars ctx) cfg w.

(** ** Observers *)

(** A detached task: a script, its plugin, its environment and its input. *)
Record HookTask := mkTask {
  task_script : str;
  task_plugin : option str;
  task_env : list (str * str);
  task_stdin : str
}.

(** [run]: the tasks it spawns; they run in any order. *)
Definition run (r : HookRunner) (ev : str) (env_vars : list (str * str)) : list HookTask :=
  map (fun s => mkTask s.1 s.2 env_vars (stdin_json_from_env_vars ev env_vars)) (event_scripts r ev).

Definition task_step (cfg : HookConfig) (ev : str) (t : HookTask) (w : HookWorld) : option HookWorld :=
  match run_hook_script cfg (task_env t) (task_stdin t) (task_script t) (tree w) with
  | (None, _) => None
  | (Some a, fs') => Some (note_answer ev (task_plugin t) a (mkWorld fs' (audit_log w), [])).1
  end.

Definition run_with_context (r : HookRunner) (ev : str) (ctx : HookContext) (w : HookWorld) : HookWorld * list HookTask :=
  (fold_left (fun w h => if str_eqb h.1 ev
                         then match h.2 ctx with
                              | Ok _ => w
                              | Err reason => audit_hook w ev None "deny" (Some reason)
                              end
                         else w) (post_hooks r) w,
   run r ev (ctx_to_env_vars ctx)).
End Run.

(** ** Specification *)

(** The plugin of a hook and what it answered. *)
Definition Answer : Type := option str * result HookDecision str.

Definition record_of `{Scrubber} (ev : str) (a : Answer) : option HookRecord :=
  match a.2 with
  | Ok (HookDeny reason) => Some (mkRecord ev a.1 "deny" (Some (scrub_free_text reason)))
  | Ok HookAllow => None
  | Err e => Some (mkRecord ev a.1 "allow_fail_open" (Some (scrub_free_text e)))
  end.
Definition denial_of (a : Answer) : option str :=
  match a.2 with Ok (HookDeny reason) => Some reason | _ => None end.
Definition decision_of (a : Answer) : option HookDecision :=
  match a.2 with Ok d => Some d | Err _ => None end.

(** The first denial, whatever the other hooks say. *)
Definition verdict_of (answers : list Answer) : HookDecision :=
  match find_map denial_of answers with Some reason => HookDeny reason | None => HookAllow end.

Definition in_process_answers (r : HookRunner) (ev : str) (ctx : HookContext) : list Answer :=
  map (fun h => (None, Ok (h.2 ctx))) (List.filter (fun h => str_eqb h.1 ev) (in_process_hooks r)).

Section Spec.
Context `{JsonText} `{Scrubber} `{UnicodeCase}.
Variables (glob_new : str -> option (str -> bool)) (environ : list (str * str)).

(** The answers of scripts that run one after the other, each in the tree the previous
    one left; [None] when one of them is never answered. *)
Fixpoint script_answers (bash : str -> list (str * str) -> str -> Fs -> Invocation * Fs) (cfg : HookConfig)
    (env_vars : list (str * str)) (stdin_json : str) (scripts : list (str * option str)) (fs : Fs)
    : option (list Answer * Fs) :=
  match scripts with
  | [] => Some ([], fs)
  | (script, plugin) :: more =>
      match run_hook_script glob_new environ bash cfg env_vars stdin_json script fs with
      | (None, _) => None
      | (Some a, fs') => (fun r => ((plugin, a) :: r.1, r.2)) <$> script_answers bash cfg env_vars stdin_json more fs'
      end
  end.

Definition note_all (ev : str) (answers : list Answer) (st : HookWorld * list HookDecision) : HookWorld * list HookDecision :=
  fold_left (fun st a => note_answer ev a.1 a.2 st) answers st.

Lemma note_all_cons ev a answers st : note_all ev (a :: answers) st = note_all ev answers (note_answer ev a.1 a.2 st).
Proof. done. Qed.

Lemma note_answer_spec ev a fs l ds :
  note_answer ev a.1 a.2 (mkWorld fs l, ds)
  = (mkWorld fs ((fun l => l ++ omap (record_of ev) [a]) <$> l), ds ++ omap decision_of [a]).
Proof.
  destruct a as [p [[|reason]|e]], l as [l|]; try reflexivity;
    [change (omap (record_of ev) [(p, Ok HookAllow)]) with (@nil HookRecord); cbn [fmap option_fmap option_map]
    |change (omap decision_of [(p, Err e)]) with (@nil HookDecision)
    |change (omap decision_of [(p, Err e)]) with (@nil HookDecision)]; by rw app_nil_r.
Qed.

Lemma note_all_spec ev answers fs l ds :
  note_all ev answers (mkWorld fs l, ds)
  = (mkWorld fs ((fun l => l ++ omap (record_of ev) answers) <$> l), ds ++ omap decision_of answers).
Proof.
  revert l ds. induction answers as [|a answers IH]; intros l ds.
  { change (omap (record_of ev) []) with (@nil HookRecord). change (omap decision_of []) with (@nil HookDecision).
    rw app_nil_r. destruct l; cbn [fmap option_fmap option_map]; by rw ?app_nil_r. }
  rw note_all_cons note_answer_spec IH. rw (omap_app _ [a] answers : omap decision_of (a :: answers) = _).
  rw app_assoc. f_equal. f_equal. destruct l as [l|]; [|done]. cbn [fmap option_fmap option_map].
  by rw -app_assoc -omap_app.
Qed.

Lemma run_in_process_spec r ev ctx st : run_in_process r ev ctx st = note_all ev (in_process_answers r ev ctx) st.
Proof.
  unfold run_in_process, in_process_answers, note_all. revert st.
  induction (in_process_hooks r) as [|h l IH]; intros st; [done |]. cbn [fold_left List.filter].
  destruct (str_eqb h.1 ev); cbn [map fold_left fst snd]; by rw IH.
Qed.

Lemma note_answer_tree ev p a fs l ds fs' :
  note_answer ev p a (mkWorld fs' l, ds)
  = (mkWorld fs' (audit_log (note_answer ev p a (mkWorld fs l, ds)).1), (note_answer ev p a (mkWorld fs l, ds)).2).
Proof. by destruct a as [[|]|]. Qed.

Lemma run_scripts_spec bash cfg ev vars stdin scripts fs l ds :
  run_scripts glob_new environ bash cfg ev vars stdin scripts (mkWorld fs l, ds)
  = (fun r => note_all ev r.1 (mkWorld r.2 l, ds)) <$> script_answers bash cfg vars stdin scripts fs.
Proof.
  revert fs l ds. induction scripts as [|[script plugin] more IH]; intros fs l ds; [done |].
  cbn [run_scripts script_answers tree fst snd audit_log].
  destruct (run_hook_script _ _ _ _ _ _ script fs) as [[a|] fs']; [|done].
  rw (note_answer_tree ev plugin a fs' l ds fs') IH.
  destruct (script_answers bash cfg vars stdin more fs') as [[answers fs2]|]; [|done].
  cbn [fmap option_fmap option_map fst snd].
  f_equal. rw note_all_cons. cbn [fst snd]. f_equal.
  by rw (note_answer_tree ev plugin a fs' l ds fs2).
Qed.

Lemma verdict_of_decisions answers :
  verdict_of answers = unwrap_or HookAllow (find_first denies (omap decision_of answers)).
Proof.
  unfold verdict_of. induction answers as [|[p [[|reason]|e]] answers IH]; [done | | done | done]. exact IH.
Qed.

(** *** Which scripts run *)

Lemma hook_env_clean vars kv :
  kv ∈ hook_env environ vars -> is_secret_env_name kv.1 = false \/ kv ∈ vars.
Proof.
  unfold hook_env.
  assert (forall env, (forall x, x ∈ env -> is_secret_env_name x.1 = false \/ x ∈ vars) ->
          forall l, l ⊆ vars -> forall x, x ∈ fold_left (fun env kv => set_env kv.1 kv.2 env) l env ->
          is_secret_env_name x.1 = false \/ x ∈ vars) as Hgen.
  { intros env Henv l. revert env Henv. induction l as [|[k v] l IH]; intros env Henv Hl x Hx; [by apply Henv |].
    cbn [fold_left fst snd] in Hx. revert Hx. apply IH; [|set_solver].
    intros y. unfold set_env. rw elem_of_app list_elem_of_singleton. intros [Hy| ->].
    - apply list_elem_of_In, filter_In in Hy as [Hy _]. by apply Henv, list_elem_of_In.
    - right. apply Hl. by left. }
  intros Hin. refine (Hgen _ _ vars _ kv Hin); [|done].
  intros x [Hx Hs]%scrub_spec. left. apply not_true_is_false. intros Hk. apply Hs. split; [done |].
  by apply list_elem_of_In, in_map, list_elem_of_In.
Qed.

(** A script that is run: its path is not denied, its text passes the bash gate, its
    environment has no credential of this process. *)
Definition hook_cleared (cfg : HookConfig) (env_vars : list (str * str)) (fs : Fs) (script : str) (env : list (str * str))
    : Prop :=
  script_refused glob_new fs cfg script = None
  /\ forall kv, kv ∈ env -> is_secret_env_name kv.1 = false \/ kv ∈ env_vars.

Lemma script_answers_gated b1 b2 cfg vars stdin scripts fs :
  (forall script env fs, hook_cleared cfg vars fs script env -> b1 script env stdin fs = b2 script env stdin fs) ->
  script_answers b1 cfg vars stdin scripts fs = script_answers b2 cfg vars stdin scripts fs.
Proof.
  intros Heq. revert fs. induction scripts as [|[script plugin] more IH]; intros fs; [done |]. cbn [script_answers].
  assert (run_hook_script glob_new environ b1 cfg vars stdin script fs
          = run_hook_script glob_new environ b2 cfg vars stdin script fs) as ->.
  { unfold run_hook_script. destruct (script_refused glob_new fs cfg script) eqn:Hr; [done |].
    rw Heq; [|done]. split; [done | apply hook_env_clean]. }
  destruct (run_hook_script _ _ b2 _ _ _ script fs) as [[a|] fs']; [|done]. by rw IH.
Qed.
End Spec.

(** ** Gaps *)

(** A script that runs into the time limit is allowed, and unlike the other failures that
    are let through it leaves no entry in the audit log. *)
Lemma timeout_unaudited `{JsonText} `{Scrubber} ev plugin script o e w :
  let answer := Ok HookAllow in
  script_answer script (mkInvocation (Ok tt) Expires (Drains (mkPipe o [] None)) (Drains (mkPipe e [] None)))
  = Some answer
  /\ (note_answer ev plugin answer (w, [])).1 = w.
Proof.
  cbv zeta. split; [|done]. unfold script_answer, hook_stderr, join_hook_drain. cbn [starts ends child_stdout child_stderr].
  rw !drain_capped_eq. done.
Qed.

(** A script that has ended but left its output open to a process of its own is waited
    for without a limit: the decision never comes. *)
Lemma hook_pipe_wedges script raw e :
  script_answer script (mkInvocation (Ok tt) (Exits raw) Stuck e) = None.
Proof. done. Qed.

(** The command of a Claude configuration is taken for the path of a script: one with
    arguments is not found, and what is not found is let through. *)
Lemma claude_command_fails_open `{UnicodeCase} `{JsonText} `{Scrubber} glob_new environ bash cfg vars stdin fs command e :
  metadata fs command = Err e -> exists m,
  run_hook_script glob_new environ bash cfg vars stdin command fs = (Some (Err m), fs).
Proof.
  intros Hm. unfold run_hook_script, script_refused.
  destruct (access_from_config glob_new (security cfg)) as [[dl guard] g].
  destruct (is_path_denied dl command); [by eexists |].
  unfold read_to_string, read_bytes. rw Hm. by eexists.
Qed.

(** ** Properties *)


Definition hook_tree : Fs := Paths.tree [([lit "h"], Dir); ([lit "h"; lit "pre-tool.sh"], File (utf8_encode "exit 2"))] [lit "h"].
Definition hook_cfg : HookConfig :=
  mkHookConfig (mkSecurityConfig [] [] [] [] None false false 1048576 1048576 false [] false false) false.
Definition one_hook : HookRunner := mkRunner "/h" [lit "pre-tool"] [] [(lit "pre-tool", fun _ => HookAllow)] [].
Definition plain_scrub : Scrubber := fun s => s.
Definition exits_with (raw : Z) : Invocation := mkInvocation (Ok tt) (Exits raw) (Drains (mkPipe [] [] None)) (Drains (mkPipe [] [] None)).

