(* ===== verification/PreRun.v ===== *)
(** * The gates before a tool runs (src/session/executor/pre_run.rs, approval.rs)

    [pre_run_verdict]: whether a call of the model may run.  The gates of the other
    components in the order of the code: the toolset, plan mode, the schema, the permission
    rules with the user's approval, the deny lists, the bash gate, the search paths, the
    path guard and the two hooks.

    Parameters: those of [Hooks], the git probe of the path guard, the order of a hash set
    ([hash_order]), the body of a tool, the time of an audit entry, and what the user
    answers ([ask]; other processes may change the tree meanwhile).  Metrics are not
    modelled.  The audit log is kept as one list of tool entries and one of hook entries. *)

From Stdlib Require Import ssreflect.
From S2P Require Import Prelude Names AuditTrail Streams Permission BashSafety Paths PathGuard ToolGates Shell Hooks Message Toolsets.

(** ** Events *)

Inductive VerificationOutcome := Clean | Skipped | Fixed | Suggestion | VFailed.

(** The events of the phases of a batch; [types.rs] has more. *)
Inductive TurnEvent :=
| TurnError (message : str)
| ToolStart (name : str) (args : json) (id : str)
| ToolResult (name output : str) (success : bool) (id : str)
| Verification (message : str) (outcome : VerificationOutcome) (file : option str) (line : option N)
| DoomLoopDetected (count : N) (tool last_error : str)
| DoomLoopRemediation (action : str) (hits : N).

(** ** Approval *)

Inductive ApprovalResponse := RespApproved | RespDenied | RespDeniedWithReason (reason : str) | RespAlwaysApprove.
Inductive ApprovalDecision := Approved | ApprovalDenied (reason : str) | AlwaysApproved.

(** What the handler of a request does with its responder: an answer, none, or nothing
    before the timeout. *)
Inductive Handler := Sends (r : ApprovalResponse) | Drops | Waits.

(** What the executor receives: an answer, the error of a channel that was closed, or the
    end of the timeout. *)
Inductive Received := Response (r : ApprovalResponse) | RecvError | Elapsed.

(** [ApprovalResponder]: a responder that is dropped answers. *)
Definition responder (h : Handler) : Received :=
  match h with
  | Sends r => Response r
  | Drops => Response (RespDeniedWithReason (lit "approval responder dropped without a user decision"))
  | Waits => Elapsed
  end.

Definition approval_decision (r : Received) : ApprovalDecision :=
  match r with
  | Response RespApproved => Approved
  | Response RespDenied => ApprovalDenied (lit "User denied this operation")
  | Response (RespDeniedWithReason reason) => ApprovalDenied reason
  | Response RespAlwaysApprove => AlwaysApproved
  | RecvError => ApprovalDenied (lit "Approval channel closed")
  | Elapsed => ApprovalDenied (lit "Approval timed out after 5 minutes")
  end.

(** The requests go over a channel that may have been closed. *)
Inductive Reply := ChannelClosed | Handled (h : Handler).

(** ** State *)

Record GateWorld := mkGateWorld {
  hook_world : HookWorld;
  permission_rules : list PermissionRule;
  tool_log : option (list AuditEntry)
}.

Definition gate_tree (w : GateWorld) : Fs := tree (hook_world w).
Definition with_gate_tree (fs : Fs) (w : GateWorld) : GateWorld :=
  mkGateWorld (mkWorld fs (audit_log (hook_world w))) (permission_rules w) (tool_log w).
Definition with_hook_world (h : HookWorld) (w : GateWorld) : GateWorld := mkGateWorld h (permission_rules w) (tool_log w).
Definition with_rules (rules : list PermissionRule) (w : GateWorld) : GateWorld := mkGateWorld (hook_world w) rules (tool_log w).

Definition file_tools : list str := map lit ["read_file"; "read_image"; "write_file"; "edit_file"; "notebook_edit"].
Definition reads_file (name : str) : bool := str_eqb name "read_file" || str_eqb name "read_image".
Definition path_arg (args : json) : str := unwrap_or [] (str_arg args "path").

(** The arguments with the resolved path. *)
Definition with_path (resolved : option str) (args : json) : json :=
  match resolved, args with
  | Some p, JObj members => JObj (insert_member (lit "path") (JStr p) members)
  | _, _ => args
  end.

Section Gate.
Context {Body : Type} `{JsonText} `{Scrubber} `{UnicodeCase}.
Variables (glob_new : str -> option (str -> bool)) (environ : list (str * str))
  (bash : str -> list (str * str) -> str -> Fs -> Invocation * Fs)
  (hash_order : list str -> list str) (gitignored : Fs -> str -> bool) (now : str)
  (ask : ToolInvocation -> Fs -> Reply * Fs).

(** What the executor reads. *)
Record Gate := mkGate {
  tools : @Toolset Body;
  plan_mode : bool;
  non_interactive : bool;
  auto_approve : bool;
  path_guard : PathGuard;
  sandbox_deny_list : DenyList;
  sandbox_workdir : bool;
  hook_runner : HookRunner;
  gate_session : str;
  hook_config : HookConfig
}.

Inductive PreRunVerdict :=
| Spawn (t : @Tool Body) (resolved : option str)
| Skip (events : list TurnEvent) (message : str).

Definition refuse (tc : ToolInvocation) (m : str) : PreRunVerdict := Skip [ToolResult (call_name tc) m false (call_id tc)] m.

(** A read-only shell command; a call without a command is none. *)
Definition read_only_call (tc : ToolInvocation) : bool :=
  match str_arg (arguments tc) "command" with Some cmd => is_read_only_bash cmd | None => false end.

Definition plan_allows (tc : ToolInvocation) : bool :=
  let name := call_name tc in
  if listed (map lit ["read_file"; "read_image"; "grep"; "glob"]) name then true
  else if listed (map lit ["bash_status"; "bash_cancel"]) name then true
  else if str_eqb name "bash" then read_only_call tc
  else false.

Definition plan_step (g : Gate) (tc : ToolInvocation) : result unit str :=
  deny_if (plan_mode g && negb (non_interactive g) && negb (plan_allows tc))
    ("📐 Plan mode blocked " ++ call_name tc ++ ": only read-only discovery tools are allowed until you type /implement.").

(** A check that names the reason of its denial. *)
Definition deny_for (reason : option str) (text : str -> str) : result unit str :=
  match reason with Some r => Err (text r) | None => Ok tt end.

Definition schema_step (t : @Tool Body) (tc : ToolInvocation) : result unit str :=
  deny_for (validate_args_against_schema print_json hash_order (arguments tc) (parameters (def t)))
    (fun reason => "❌ Invalid arguments for " ++ call_name tc ++ ": " ++ reason).

(** ** Rules and approval *)

Definition is_destructive (name : str) : bool := listed (map lit ["write_file"; "edit_file"; "notebook_edit"; "bash"]) name.

Definition default_action (g : Gate) (tc : ToolInvocation) : PermissionAction :=
  if negb (is_destructive (call_name tc)) || (str_eqb (call_name tc) "bash" && read_only_call tc) || auto_approve g
  then Allow else Ask.

(** [log_destructive]; redaction never fails ([redact_args_spec]). *)
Definition log_destructive (tool : str) (args : json) (success : bool) (reason : option str) (w : GateWorld) : GateWorld :=
  match entry_tool now tool args success reason with
  | Some e => mkGateWorld (hook_world w) (permission_rules w) ((fun l => l ++ [e]) <$> tool_log w)
  | None => w
  end.

Definition first_member (args : json) : str * str :=
  match args with
  | JObj ((k, v) :: _) => (k, unwrap_or [] (as_str v))
  | _ => ([], [])
  end.

Definition rule_denied (tc : ToolInvocation) : str :=
  "❌ Permission rule denied " ++ call_name tc ++ ":" ++ (first_member (arguments tc)).1 ++ "=" ++ (first_member (arguments tc)).2.

Definition log_rule_denial (tc : ToolInvocation) (matched : option nat) (w : GateWorld) : GateWorld :=
  match matched with
  | None => w
  | Some idx =>
      match permission_rules w !! idx with
      | None => w
      | Some r => log_destructive (call_name tc) (arguments tc) false
                    (Some ("denied by rule #" ++ show_nat (S idx) ++ " " ++ rule_tool r ++ ":" ++ rule_key r ++ "="
                           ++ rule_pattern r ++ " -> deny")) w
      end
  end.

Definition run_approval_flow (tc : ToolInvocation) (w : GateWorld) : result ApprovalDecision str * GateWorld :=
  match ask tc (gate_tree w) with
  | (ChannelClosed, fs) => (Err (lit "approval channel closed"), with_gate_tree fs w)
  | (Handled h, fs) =>
      let w' := with_gate_tree fs w in
      match approval_decision (responder h) with
      | AlwaysApproved =>
          (Ok AlwaysApproved,
           with_rules (push_rule_unique (permission_rules w') (suggest_rule (call_name tc) (arguments tc))) w')
      | d => (Ok d, w')
      end
  end.

(** The rules and the user: [Some] is the reason of a denial. *)
Definition permit (g : Gate) (tc : ToolInvocation) (w : GateWorld) : result (option str) str * GateWorld :=
  let '(action, matched) := evaluate (permission_rules w) (call_name tc) (arguments tc) (default_action g tc) in
  match action with
  | Deny => (Ok (Some (rule_denied tc)), log_rule_denial tc matched w)
  | Allow => (Ok None, w)
  | Ask =>
      match run_approval_flow tc w with
      | (Err e, w') => (Err e, w')
      | (Ok (ApprovalDenied reason), w') => (Ok (Some ("❌ Approval denied: " ++ reason)), w')
      | (Ok _, w') => (Ok None, w')
      end
  end.

(** ** The checks of the arguments *)

Definition bash_step (g : Gate) (fs : Fs) (tc : ToolInvocation) : result unit str :=
  if str_eqb (call_name tc) "bash" then
    deny_for (check_bash_command_str (located fs) (unwrap_or [] (str_arg (arguments tc) "command"))
                (str_arg (arguments tc) "workdir") (sandbox_deny_list g) (sandbox_dir (path_guard g)) (sandbox_workdir g))
      (fun denied => denied)
  else Ok tt.

Definition search_arg (tc : ToolInvocation) : str :=
  unwrap_or (lit ".") (str_arg (arguments tc) (if str_eqb (call_name tc) "glob" then lit "base_dir" else lit "path")).

Definition access_denied (m : str) : str := "🔒 Access denied: " ++ m.

Definition search_step (g : Gate) (fs : Fs) (tc : ToolInvocation) : result unit str :=
  if listed (map lit ["grep"; "glob"]) (call_name tc) then
    match check_search_path fs (path_guard g) (search_arg tc) with
    | Denied m => Err (access_denied m)
    | Allowed _ => Ok tt
    end
  else Ok tt.

Definition guard_verdict (g : Gate) (fs : Fs) (name path : str) : GuardVerdict :=
  if reads_file name then check_read fs (path_guard g) path else check_write (gitignored fs) fs (path_guard g) path.

(** The path a file tool will use. *)
Definition file_step (g : Gate) (fs : Fs) (tc : ToolInvocation) : result (option str) str :=
  if listed file_tools (call_name tc) then
    match guard_verdict g fs (call_name tc) (path_arg (arguments tc)) with
    | Allowed resolved => Ok (Some resolved)
    | Denied m => Err (access_denied m)
    end
  else Ok None.

Definition argument_steps (g : Gate) (fs : Fs) (tc : ToolInvocation) : result (option str) str :=
  do? deny_for (check_url_in_args (arguments tc) (sandbox_deny_list g)) (fun denied => denied) ;;
  do? deny_for (check_deny_list (sandbox_deny_list g) (call_name tc) (arguments tc)) (fun denied => denied) ;;
  do? bash_step g fs tc ;;
  do? search_step g fs tc ;;
  file_step g fs tc.

(** ** The hooks *)

Definition hook_env_vars (g : Gate) (ev name args_json : str) : list (str * str) :=
  [(lit "KF_EVENT", ev)]
  ++ (if bool_decide (gate_session g = []) then [] else [(lit "KF_SESSION_ID", gate_session g)])
  ++ [(lit "KF_TOOL_NAME", name); (lit "KF_TOOL_ARGS_JSON", args_json)].

(** [run_pre_tool_hook]: the reason of a denial. *)
Definition run_pre_tool_hook (g : Gate) (ev name args_json : str) (w : GateWorld) : option (option str * GateWorld) :=
  match run_decision glob_new environ bash (hook_runner g) ev (hook_env_vars g ev name args_json) (hook_config g) (hook_world w) with
  | None => None
  | Some (HookAllow, h) => Some (None, with_hook_world h w)
  | Some (HookDeny reason, h) => Some (Some reason, with_hook_world h w)
  end.

Definition hook_denied (tc : ToolInvocation) (reason : str) : str := "❌ Hook denied " ++ call_name tc ++ ": " ++ reason.

(** The hook of the tool, then the one of all tools. *)
Fixpoint pre_tool_hooks (g : Gate) (tc : ToolInvocation) (args_json : str) (events : list str) (w : GateWorld)
    : option (option str * GateWorld) :=
  match events with
  | [] => Some (None, w)
  | ev :: events' =>
      match run_pre_tool_hook g ev (call_name tc) args_json w with
      | None => None
      | Some (Some reason, w') => Some (Some reason, w')
      | Some (None, w') => pre_tool_hooks g tc args_json events' w'
      end
  end.
Definition pre_tool_events (tc : ToolInvocation) : list str := ["pre-tool-" ++ call_name tc; lit "pre-tool"].

(** ** The verdict *)

(** [None] when a hook never ends; an error ends the batch. *)
Definition pre_run_verdict (g : Gate) (tc : ToolInvocation) (w : GateWorld) : option (result PreRunVerdict str * GateWorld) :=
  match resolve (tools g) (call_name tc) with
  | None => let m := "Unknown tool: " ++ call_name tc in Some (Ok (Skip [TurnError m] m), w)
  | Some tool =>
      match (do? plan_step g tc ;; schema_step tool tc) with
      | Err m => Some (Ok (refuse tc m), w)
      | Ok _ =>
          match permit g tc w with
          | (Err e, w1) => Some (Err e, w1)
          | (Ok (Some m), w1) => Some (Ok (refuse tc m), w1)
          | (Ok None, w1) =>
              match argument_steps g (gate_tree w1) tc with
              | Err m => Some (Ok (refuse tc m), w1)
              | Ok resolved =>
                  match pre_tool_hooks g tc (print_json (with_path resolved (arguments tc))) (pre_tool_events tc) w1 with
                  | None => None
                  | Some (Some reason, w2) => Some (Ok (refuse tc (hook_denied tc reason)), w2)
                  | Some (None, w2) => Some (Ok (Spawn tool resolved), w2)
                  end
              end
          end
      end
  end.
End Gate.

(** ** Specification *)

Section Cleared.
Context {Body : Type} `{JsonText} `{Scrubber} `{UnicodeCase}.
Variables (glob_new : str -> option (str -> bool)) (environ : list (str * str))
  (bash : str -> list (str * str) -> str -> Fs -> Invocation * Fs)
  (hash_order : list str -> list str) (gitignored : Fs -> str -> bool) (now : str)
  (ask : ToolInvocation -> Fs -> Reply * Fs).

(** The user answered yes, in the tree that is left. *)
Definition user_agrees (tc : ToolInvocation) (fs fs' : Fs) : Prop :=
  ask tc fs = (Handled (Sends RespApproved), fs') \/ ask tc fs = (Handled (Sends RespAlwaysApprove), fs').

(** The rules as the user changed them. *)
Definition agreed_rules (tc : ToolInvocation) (w : GateWorld) : list PermissionRule :=
  match ask tc (gate_tree w) with
  | (Handled (Sends RespAlwaysApprove), _) => push_rule_unique (permission_rules w) (suggest_rule (call_name tc) (arguments tc))
  | _ => permission_rules w
  end.

(** The rules allow the call, or ask and the user agrees; [w1] is what follows. *)
Definition consented (g : @Gate Body) (tc : ToolInvocation) (w w1 : GateWorld) : Prop :=
  let action := (evaluate (permission_rules w) (call_name tc) (arguments tc) (default_action g tc)).1 in
  (action = Allow /\ w1 = w)
  \/ (action = Ask /\ user_agrees tc (gate_tree w) (gate_tree w1)
      /\ w1 = with_rules (agreed_rules tc w) (with_gate_tree (gate_tree w1) w)).

(** The path a call may use: what the argument of a read resolves to, and the argument of
    a write as it is. *)
Definition path_cleared (g : @Gate Body) (fs : Fs) (tc : ToolInvocation) (resolved : option str) : Prop :=
  match resolved with
  | Some p =>
      call_name tc ∈ file_tools
      /\ if reads_file (call_name tc)
         then traversable fs (path_guard g) (path_arg (arguments tc)) p /\ small_enough fs (path_guard g) p
              /\ textual fs (path_guard g) p
         else p = path_arg (arguments tc) /\ writable (gitignored fs) fs (path_guard g) p
  | None => call_name tc ∉ file_tools
  end.

(** The hook of an event allows the call. *)
Definition hook_allows (g : @Gate Body) (tc : ToolInvocation) (resolved : option str) (ev : str) (w w' : GateWorld) : Prop :=
  exists h, run_decision glob_new environ bash (hook_runner g) ev
              (hook_env_vars g ev (call_name tc) (print_json (with_path resolved (arguments tc)))) (hook_config g) (hook_world w)
            = Some (HookAllow, h) /\ w' = with_hook_world h w.

(** Every gate lets the call through; [w1] is the state after the approval, [w2] after
    the first hook and [w'] after both. *)
Record Cleared (g : @Gate Body) (tc : ToolInvocation) (w : GateWorld) (t : @Tool Body) (resolved : option str)
    (w1 w2 w' : GateWorld) : Prop := {
  cl_tool : resolve (tools g) (call_name tc) = Some t;
  cl_plan : plan_mode g = true -> non_interactive g = false -> plan_allows tc = true;
  cl_schema : validate_args_against_schema print_json hash_order (arguments tc) (parameters (def t)) = None;
  cl_consent : consented g tc w w1;
  cl_url : check_url_in_args (arguments tc) (sandbox_deny_list g) = None;
  cl_deny : check_deny_list (sandbox_deny_list g) (call_name tc) (arguments tc) = None;
  cl_bash : call_name tc = lit "bash" ->
    check_bash_command_str (located (gate_tree w1)) (unwrap_or [] (str_arg (arguments tc) "command"))
      (str_arg (arguments tc) "workdir") (sandbox_deny_list g) (sandbox_dir (path_guard g)) (sandbox_workdir g) = None;
  cl_search : call_name tc ∈ map lit ["grep"; "glob"] -> searchable (gate_tree w1) (path_guard g) (search_arg tc);
  cl_path : path_cleared g (gate_tree w1) tc resolved;
  cl_hook : hook_allows g tc resolved ("pre-tool-" ++ call_name tc) w1 w2;
  cl_hooks : hook_allows g tc resolved "pre-tool" w2 w'
}.

(** ** Proofs *)

Lemma deny_for_Ok reason text u : deny_for reason text = Ok u <-> reason = None.
Proof. destruct u, reason; by split. Qed.

Lemma permit_Ok g tc w w1 : permit now ask g tc w = (Ok None, w1) <-> consented g tc w w1.
Proof.
  unfold permit, consented. destruct (evaluate _ _ _ _) as [[] matched]; cbn [fst].
  - split; [intros [= <-]; by left|]. intros [[_ ->]|[? _]]; [reflexivity|discriminate].
  - unfold run_approval_flow, user_agrees, agreed_rules. split.
    + intros Hp. right. split; [reflexivity|]. destruct (ask tc (gate_tree w)) as [[|h] fs]; [discriminate|].
      destruct h as [[]| |]; cbn [responder approval_decision] in Hp; try discriminate;
        injection Hp as <-; (split; [|reflexivity]); [left|right]; reflexivity.
    + intros [[? _]|(_ & Ha & ->)]; [discriminate|]. destruct Ha as [Ha|Ha]; rw !Ha; reflexivity.
  - split; [discriminate|]. by intros [[? _]|[? _]].
Qed.

Lemma bash_step_Ok (g : @Gate Body) fs tc u :
  bash_step g fs tc = Ok u
  <-> (call_name tc = lit "bash" ->
       check_bash_command_str (located fs) (unwrap_or [] (str_arg (arguments tc) "command"))
         (str_arg (arguments tc) "workdir") (sandbox_deny_list g) (sandbox_dir (path_guard g)) (sandbox_workdir g) = None).
Proof.
  unfold bash_step. destruct u, (str_eqb _ _) eqn:E; last first.
  { apply str_eqb_neq in E. by split. }
  rw deny_for_Ok. apply str_eqb_eq in E. split; [by intros ? _|]. intros Hb. exact (Hb E).
Qed.

Lemma search_step_Ok (g : @Gate Body) fs tc u :
  fs_wf fs ->
  search_step g fs tc = Ok u
  <-> (call_name tc ∈ map lit ["grep"; "glob"] -> searchable fs (path_guard g) (search_arg tc)).
Proof.
  intros Hw. unfold search_step. destruct u, (listed _ _) eqn:E.
  - apply listed_elem in E. pose proof (check_search_path_Allowed fs (path_guard g) (search_arg tc) (search_arg tc) Hw) as Ha.
    destruct (check_search_path _ _ _) as [q|m] eqn:Hc.
    + apply check_search_path_Allowed in Hc as [-> Hs]; [|exact Hw]. by split.
    + split; [discriminate|]. intros Hs. pose proof (proj2 Ha (conj eq_refl (Hs E))). discriminate.
  - split; [|reflexivity]. intros _ Hin%listed_elem. rw Hin in E. discriminate.
Qed.

Lemma guard_verdict_Allowed (g : @Gate Body) fs name path p :
  fs_wf fs ->
  guard_verdict gitignored g fs name path = Allowed p
  <-> if reads_file name
      then traversable fs (path_guard g) path p /\ small_enough fs (path_guard g) p /\ textual fs (path_guard g) p
      else p = path /\ writable (gitignored fs) fs (path_guard g) p.
Proof.
  intros Hw. unfold guard_verdict. destruct (reads_file name); [by apply check_read_Allowed|].
  rw check_write_Allowed. by split; intros [-> ?].
Qed.

Lemma file_step_Ok (g : @Gate Body) fs tc r :
  fs_wf fs -> file_step gitignored g fs tc = Ok r <-> path_cleared g fs tc r.
Proof.
  intros Hw. unfold file_step, path_cleared. pose proof (listed_elem file_tools (call_name tc)) as Hl. destruct r as [q|].
  - rw -Hl -(guard_verdict_Allowed g fs _ _ q Hw). destruct (listed _ _).
    + destruct (guard_verdict _ _ _ _ _) as [p|m]; [|split; [discriminate|by intros [_ ?]]].
      split; [by intros [= ->]|]. by intros [_ [= ->]].
    + split; [discriminate|by intros [? _]].
  - rw -Hl. destruct (listed _ _); [|split; [discriminate|reflexivity]].
    split; [by destruct (guard_verdict _ _ _ _ _)|]. intros Hn. by destruct Hn.
Qed.

Lemma argument_steps_Ok (g : @Gate Body) fs tc r :
  fs_wf fs ->
  argument_steps gitignored g fs tc = Ok r
  <-> check_url_in_args (arguments tc) (sandbox_deny_list g) = None
      /\ check_deny_list (sandbox_deny_list g) (call_name tc) (arguments tc) = None
      /\ bash_step g fs tc = Ok tt /\ search_step g fs tc = Ok tt /\ path_cleared g fs tc r.
Proof. intros Hw. unfold argument_steps. by rw !do_Ok !deny_for_Ok (file_step_Ok g fs tc r Hw). Qed.

(** The tree stays a tree when the user and other processes keep it one. *)
Lemma consented_wf (g : @Gate Body) tc w w1 :
  (forall tc fs r fs', ask tc fs = (r, fs') -> fs_wf fs -> fs_wf fs') ->
  fs_wf (gate_tree w) -> consented g tc w w1 -> fs_wf (gate_tree w1).
Proof. intros Ha Hw [[_ ->]|(_ & [Hc|Hc] & _)]; [done|by apply (Ha _ _ _ _ Hc)..]. Qed.

Lemma pre_tool_hooks_pass (g : @Gate Body) tc resolved w w' :
  pre_tool_hooks glob_new environ bash g tc (print_json (with_path resolved (arguments tc))) (pre_tool_events tc) w = Some (None, w')
  <-> exists w2, hook_allows g tc resolved ("pre-tool-" ++ call_name tc) w w2 /\ hook_allows g tc resolved "pre-tool" w2 w'.
Proof.
  unfold pre_tool_events, hook_allows. cbn [pre_tool_hooks]. unfold run_pre_tool_hook. split.
  - destruct (run_decision _ _ _ _ _ _ _ (hook_world w)) as [[[|] h]|] eqn:E1; try discriminate.
    destruct (run_decision _ _ _ _ _ _ _ (hook_world (with_hook_world h w))) as [[[|] h2]|] eqn:E2; try discriminate.
    intros [= <-]. exists (with_hook_world h w). split; [by exists h|by exists h2].
  - intros (w2 & (h & -> & ->) & (h2 & Hr & ->)). by rw Hr.
Qed.
End Cleared.

(** ** Properties *)

(** C2.  A call may run exactly when every gate lets it through: the tool exists, plan mode
    permits it, its arguments fit the schema, the rules allow it or ask and the user agrees,
    no deny list has it, and in the tree after the approval the bash gate, the search
    check and the path guard accept it; last, both hooks allow it, shown the resolved path.
    So a file that is read resolves, and one that is written lies, inside the sandbox. *)
Theorem spawn_cleared {Body} `{JsonText} `{Scrubber} `{UnicodeCase} glob_new environ bash hash_order gitignored now ask
    (g : @Gate Body) tc w t resolved w' :
  (forall tc fs r fs', ask tc fs = (r, fs') -> fs_wf fs -> fs_wf fs') -> fs_wf (gate_tree w) ->
  pre_run_verdict glob_new environ bash hash_order gitignored now ask g tc w = Some (Ok (Spawn t resolved), w')
  <-> exists w1 w2, Cleared glob_new environ bash hash_order gitignored ask g tc w t resolved w1 w2 w'.
Proof.
  intros Hask Hw. unfold pre_run_verdict. destruct (resolve (tools g) (call_name tc)) as [t'|] eqn:Ht; last first.
  { split; [discriminate|]. intros (w1 & w2 & [Hn]). rw Hn in Ht. discriminate. }
  split.
  - destruct (result_bind _ _) as [u|m] eqn:Hs; [|discriminate]. apply do_Ok in Hs as [Hp Hs].
    destruct (permit _ _ _ _ _) as [[[m|]|e] w1] eqn:Hc; try discriminate. apply permit_Ok in Hc.
    destruct (argument_steps _ _ _ _) as [r|m] eqn:Ha; [|discriminate].
    pose proof (consented_wf _ _ _ _ _ Hask Hw Hc) as Hw1.
    apply (argument_steps_Ok _ _ _ _ _ Hw1) in Ha as (? & ? & Hb & Hse & ?).
    rw bash_step_Ok in Hb. rw (search_step_Ok _ _ _ _ Hw1) in Hse.
    destruct (pre_tool_hooks _ _ _ _ _ _ _ _) as [[[m|] w2]|] eqn:Hh; try discriminate. intros [= <- <- <-].
    apply pre_tool_hooks_pass in Hh as (w2' & ? & ?). exists w1, w2'. constructor; try assumption.
    + intros Hm Hn. unfold plan_step in Hp. rw Hm Hn in Hp. apply deny_if_Ok, negb_false_iff in Hp. exact Hp.
    + unfold schema_step in Hs. by apply deny_for_Ok in Hs.
  - intros (w1 & w2 & [Hr Hplan Hsch Hc Hu Hd Hb Hse Hpa Hh1 Hh2]). rw Ht in Hr. injection Hr as ->.
    assert ((do? plan_step g tc ;; schema_step hash_order t tc) = Ok tt) as ->.
    { apply do_Ok. unfold schema_step. rw deny_for_Ok. split; [|exact Hsch]. unfold plan_step. apply deny_if_Ok.
      destruct (plan_mode g); [|reflexivity]. destruct (non_interactive g); [reflexivity|].
      by rw Hplan. }
    pose proof (consented_wf _ _ _ _ _ Hask Hw Hc) as Hw1. apply (permit_Ok now) in Hc as ->. cbn [fst snd].
    assert (argument_steps gitignored g (gate_tree w1) tc = Ok resolved) as ->.
    { apply argument_steps_Ok; [done|]. do 2 (split; [assumption|]).
      split; [by apply bash_step_Ok|]. split; [by apply search_step_Ok|assumption]. }
    by rw (proj2 (pre_tool_hooks_pass glob_new environ bash g tc resolved w1 w') (ex_intro _ w2 (conj Hh1 Hh2))).
Qed.

(** A call a rule denies never runs, whatever the user and the hooks would say: nobody is
    asked, no hook runs and the tree and the rules stay. *)
Lemma deny_rule_final {Body} `{JsonText} `{Scrubber} `{UnicodeCase} glob_new environ bash hash_order gitignored now ask
    (g : @Gate Body) tc w :
  (evaluate (permission_rules w) (call_name tc) (arguments tc) (default_action g tc)).1 = Deny ->
  exists v w', pre_run_verdict glob_new environ bash hash_order gitignored now ask g tc w = Some (Ok v, w')
    /\ (exists events m, v = Skip events m) /\ hook_world w' = hook_world w /\ permission_rules w' = permission_rules w.
Proof.
  intros Hd. unfold pre_run_verdict. destruct (resolve _ _) as [t|]; [|by eexists _, _; eauto 10].
  destruct (result_bind _ _); [|by eexists _, _; eauto 10]. unfold permit.
  destruct (evaluate _ _ _ _) as [action matched]. cbn [fst] in Hd. subst action.
  eexists _, _. split; [reflexivity|]. split; [by eexists _, _|]. unfold log_rule_denial, log_destructive.
  destruct matched as [i|]; [|done]. destruct (permission_rules w !! i); [|done]. by destruct (entry_tool _ _ _ _ _).
Qed.

(** ** Examples *)

Definition plain_hooks : HookRunner := mkRunner "/h" [] [] [] [].
Definition two_tools : @Toolset unit :=
  VecToolset "builtin" [mkTool (mkToolDef "bash" [] (JObj [])) tt; mkTool (mkToolDef "write_file" [] (JObj [])) tt].
Definition plain_gate : @Gate unit :=
  mkGate two_tools false false false (sandboxed "/w") (DenyList_default (fun _ => None)) false plain_hooks [] hook_cfg.
Definition at_work (rules : list PermissionRule) : GateWorld := mkGateWorld (mkWorld small_tree (Some [])) rules (Some []).
Definition says (r : ApprovalResponse) (tc : ToolInvocation) (fs : Fs) : Reply * Fs := (Handled (Sends r), fs).
Definition gate_check (r : ApprovalResponse) (tc : ToolInvocation) (w : GateWorld) :=
  @pre_run_verdict unit (demo_text []) plain_scrub ascii_case (fun _ => None) [] (fun _ _ _ fs => (idle, fs)) (fun l => l)
    (fun _ _ => false) [] (says r) plain_gate tc w.
Definition bash_call (cmd : str) : ToolInvocation := mkCall "1" "bash" (JObj [(lit "command", JStr cmd)]).
Definition write_call (path : str) : ToolInvocation := mkCall "2" "write_file" (JObj [(lit "path", JStr path)]).

Lemma spawn_cleared_witness :
  exists w1 w2,
    @Cleared unit (demo_text []) plain_scrub ascii_case (fun _ => None) [] (fun _ _ _ fs => (idle, fs)) (fun l => l)
      (fun _ _ => false) (says RespApproved) plain_gate (write_call "/w/f") (at_work [])
      (mkTool (mkToolDef "write_file" [] (JObj [])) tt) (Some (lit "/w/f")) w1 w2 (at_work []).
Proof.
  refine (proj1 (@spawn_cleared unit (demo_text []) plain_scrub ascii_case (fun _ => None) [] (fun _ _ _ fs => (idle, fs))
    (fun l => l) (fun _ _ => false) [] (says RespApproved) plain_gate (write_call "/w/f") (at_work [])
    (mkTool (mkToolDef "write_file" [] (JObj [])) tt) (Some (lit "/w/f")) (at_work []) _ _) _).
  - by intros tc fs r fs' [= _ <-].
  - exact small_tree_wf.
  - by vm_compute.
Defined.

(** A call approved for ever is asked again when a rule asks: the new rule is put behind
    it, and the first match decides. *)
Lemma always_approve_asks_again :
  let w := at_work [mkRule "bash" "command" "*" Ask] in
  let tc := bash_call "make" in
  match gate_check RespAlwaysApprove tc w with
  | Some (Ok (Spawn _ _), w') =>
      length (permission_rules w') = 2
      /\ (evaluate (permission_rules w') (call_name tc) (arguments tc) (@default_action unit ascii_case plain_gate tc)).1 = Ask
  | _ => False
  end.
Proof. vm_compute. split; reflexivity. Qed.

(** A destructive call denied by the user or by the bash gate leaves no audit entry. *)
Lemma denials_unlogged :
  (match gate_check RespDenied (bash_call "make") (at_work []) with
   | Some (Ok (Skip _ _), w') => tool_log w' = Some []
   | _ => False
   end)
  /\ match gate_check RespApproved (bash_call "sudo make") (at_work []) with
     | Some (Ok (Skip _ _), w') => tool_log w' = Some []
     | _ => False
     end.
Proof. vm_compute. split; reflexivity. Qed.
