(* ===== verification/Recording.v ===== *)
(** * Recording the result of a tool call (src/session/executor/turn.rs, helpers/outcome.rs)

    What the executor does with the outcome of a call: the cut to the size limit and the
    budget slice, the answer in the conversation, recovery hints, the audit entry, the
    detector of repeated errors, the hooks after a tool and the results of the verifiers.

    The steps are a state monad over what the executor owns ([ExecState]); an append to the
    log may fail, which ends the batch.  Parameters: those of [PreRun], which appends
    succeed ([append_ok]), the verifiers ([correct]), the tokenizer, and whether the event
    channel is full when an event is only tried ([try_send]).  Metrics and the carryover are
    not modelled; an event whose reader is gone is kept in the list. *)

From Stdlib Require Import ssreflect.
From S2P Require Import Prelude Machine AuditTrail Streams Permission BashSafety Paths PathGuard FileTools ToolGates Compress Offload BudgetGuard WebFetch Outcomes Shell Hooks Toolsets Message PreRun.

Declare Scope exec_scope.
Delimit Scope exec_scope with exec.
Open Scope exec_scope.

(** ** State *)

Section State.
Context {S : Type}.

Record ExecState := mkExec {
  gate_world : GateWorld;
  conversation : list Message;
  events : list TurnEvent;
  read_gate : ReadGate;
  planning : bool;
  tracker : DoomLoopTracker;
  doom_hits : N;
  budget : option (TokenBudget * S * Mode * Listeners);
  hook_tasks : list HookTask;
  (** How often the cancel flag is still read as false; never true without. *)
  cancel_in : option nat
}.

(** A step: a value or an error that ends the batch; [None] when it panics or never ends. *)
Definition X (A : Type) : Type := ExecState -> option (result A str * ExecState).

Definition ret {A} (a : A) : X A := fun s => Some (Ok a, s).
Definition fail {A} (e : str) : X A := fun s => Some (Err e, s).
Definition crash {A} : X A := fun _ => None.
Definition bind {A B} (m : X A) (k : A -> X B) : X B := fun s =>
  match m s with
  | Some (Ok a, s') => k a s'
  | Some (Err e, s') => Some (Err e, s')
  | None => None
  end.
Definition gets {A} (f : ExecState -> A) : X A := fun s => Some (Ok (f s), s).
Definition update (f : ExecState -> ExecState) : X unit := fun s => Some (Ok tt, f s).

Definition set_gate_world (w : GateWorld) (s : ExecState) : ExecState :=
  mkExec w (conversation s) (events s) (read_gate s) (planning s) (tracker s) (doom_hits s) (budget s) (hook_tasks s) (cancel_in s).
Definition add_message (m : Message) (s : ExecState) : ExecState :=
  mkExec (gate_world s) (conversation s ++ [m]) (events s) (read_gate s) (planning s) (tracker s) (doom_hits s) (budget s)
    (hook_tasks s) (cancel_in s).
Definition add_event (e : TurnEvent) (s : ExecState) : ExecState :=
  mkExec (gate_world s) (conversation s) (events s ++ [e]) (read_gate s) (planning s) (tracker s) (doom_hits s) (budget s)
    (hook_tasks s) (cancel_in s).
Definition set_read_gate (g : ReadGate) (s : ExecState) : ExecState :=
  mkExec (gate_world s) (conversation s) (events s) g (planning s) (tracker s) (doom_hits s) (budget s) (hook_tasks s) (cancel_in s).
Definition set_planning (b : bool) (s : ExecState) : ExecState :=
  mkExec (gate_world s) (conversation s) (events s) (read_gate s) b (tracker s) (doom_hits s) (budget s) (hook_tasks s) (cancel_in s).
Definition set_tracker (t : DoomLoopTracker) (hits : N) (s : ExecState) : ExecState :=
  mkExec (gate_world s) (conversation s) (events s) (read_gate s) (planning s) t hits (budget s) (hook_tasks s) (cancel_in s).
Definition set_budget (b : option (TokenBudget * S * Mode * Listeners)) (s : ExecState) : ExecState :=
  mkExec (gate_world s) (conversation s) (events s) (read_gate s) (planning s) (tracker s) (doom_hits s) b (hook_tasks s) (cancel_in s).
Definition add_hook_tasks (l : list HookTask) (s : ExecState) : ExecState :=
  mkExec (gate_world s) (conversation s) (events s) (read_gate s) (planning s) (tracker s) (doom_hits s) (budget s)
    (hook_tasks s ++ l) (cancel_in s).
Definition set_cancel_in (c : option nat) (s : ExecState) : ExecState :=
  mkExec (gate_world s) (conversation s) (events s) (read_gate s) (planning s) (tracker s) (doom_hits s) (budget s) (hook_tasks s) c.

Definition exec_tree (s : ExecState) : Fs := gate_tree (gate_world s).
Definition set_exec_tree (fs : Fs) (s : ExecState) : ExecState := set_gate_world (with_gate_tree fs (gate_world s)) s.

Definition emit (e : TurnEvent) : X unit := update (add_event e).

(** [cancelled.load]: once true it stays true. *)
Definition is_cancelled : X bool := fun s =>
  match cancel_in s with
  | None => Some (Ok false, s)
  | Some O => Some (Ok true, s)
  | Some (Datatypes.S n) => Some (Ok false, set_cancel_in (Some n) s)
  end.
End State.
Arguments ExecState : clear implicits.
Arguments X : clear implicits.

Notation "'let!' x := m 'in' k" := (bind m (fun x => k))
  (at level 10, x pattern, m at level 99, k at level 200,
   format "'[v' 'let!'  x  :=  m  'in' '/' k ']'") : exec_scope.
Notation "'do!' m ;; k" := (bind m (fun _ => k))
  (at level 10, m at level 99, k at level 200,
   format "'[v' 'do!'  m  ;; '/' k ']'") : exec_scope.

(** ** Results of the verifiers *)

Record CorrectionResult := mkCorrection {
  verifier : str;
  verified : VerificationOutcome;
  correction_message : str;
  correction_file : option str;
  correction_line : option N
}.

Record ToolSettings := mkSettings {
  max_tool_result_chars : N;
  doom_loop_action : str;
  doom_loop_max_hits : N;
  tool_timeout_secs : N;
  deterministic : bool
}.

(** The message that answers a call. *)
Definition tool_message (tc : ToolInvocation) (c : str) : Message :=
  mkMessage Message.Tool c None None None (Some (call_id tc)) (Some (call_name tc)) None.

Section Recording.
Context {Body S : Type} `{JsonText} `{Scrubber} `{UnicodeCase} `{RegexCaptures} `{OffloadStore S}.
Variables (count_tokens : str -> N) (gitignored : Fs -> str -> bool) (now : str)
  (append_ok : list Message -> Message -> bool) (try_send : list TurnEvent -> bool)
  (correct : ToolInvocation -> json -> CallOutcome -> option Z -> Fs -> list CorrectionResult * Fs)
  (g : @Gate Body) (cfg : ToolSettings).

(** [append_async]. *)
Definition say (m : Message) : X S unit := fun s =>
  if append_ok (conversation s) m then Some (Ok tt, add_message m s)
  else Some (Err (lit "append failed"), s).

Definition respond_with (tc : ToolInvocation) (output : str) (success : bool) (m : Message) : X S unit :=
  do! emit (ToolResult (call_name tc) output success (call_id tc)) ;; say m.
Definition respond (tc : ToolInvocation) (output : str) (success : bool) : X S unit :=
  respond_with tc output success (tool_message tc output).

Definition recover (tc : ToolInvocation) (message : str) : X S unit :=
  match analyze_error (call_name tc) message (arguments tc) with
  | Some hint => say (plain User (recovery_text hint))
  | None => ret tt
  end.

Definition image_projection (path mime data : str) : str :=
  "[image: " ++ path ++ " (" ++ mime ++ ", " ++ show_N (str_len data) ++ " bytes)]".

(** [handle_tool_outcome]; the diff of an edit. *)
Definition handle_tool_outcome (o : CallOutcome) (tc : ToolInvocation) : X S (option str) :=
  match o with
  | Success c | FileContent _ c _ => do! respond tc c true ;; ret None
  | FileEdit _ diff => do! respond tc diff true ;; ret (Some diff)
  | GrepMatches path matches _ => do! respond tc (format_grep_output path matches) true ;; ret None
  | Error message =>
      do! respond tc (render_tool_error_with_hint (call_name tc) message (arguments tc)) false ;;
      do! recover tc message ;; ret None
  | Failure e =>
      let message := to_user_message e in
      do! respond tc (render_tool_error_with_hint (call_name tc) message (arguments tc)) false ;;
      do! recover tc message ;; ret None
  | BudgetGuard.Image path mime data =>
      let m := tool_message tc (image_projection path mime data) in
      do! respond_with tc (image_projection path mime data) true (with_parts m [Message.Image data mime]) ;; ret None
  end.

Definition correction_note (tc : ToolInvocation) (cr : CorrectionResult) : Message :=
  mkMessage Message.Tool (correction_message cr) None None None (Some (call_id tc)) (Some ("verifier:" ++ verifier cr)) None.

Fixpoint emit_correction_results (crs : list CorrectionResult) (tc : ToolInvocation) : X S unit :=
  match crs with
  | [] => ret tt
  | cr :: crs' =>
      do! emit (Verification (correction_message cr) (verified cr) (correction_file cr) (correction_line cr)) ;;
      do! say (correction_note tc cr) ;;
      emit_correction_results crs' tc
  end.

(** ** Repeated errors *)

Definition action_name (a : DoomLoopAction) : str :=
  match a with AutoPlan => lit "autoplan" | Halt => lit "halt" | WarnOnly => lit "warnonly" end.

(** An event that is dropped when the channel is full. *)
Definition try_emit (e : TurnEvent) : X S unit := fun s =>
  Some (Ok tt, if try_send (events s) then add_event e s else s).

(** [observe_tool_outcome] and what its answer makes the executor do. *)
Definition watch_repeats (tc : ToolInvocation) (o : CallOutcome) : X S unit :=
  let! s := gets (fun s => s) in
  let '(fired, hit, t, hits) := observe_tool_outcome (tracker s) (doom_hits s) (call_name tc) o (doom_loop_max_hits cfg)
                                  (doom_action (doom_loop_action cfg) (non_interactive g)) in
  do! update (set_tracker t hits) ;;
  do! match hit with Some h => try_emit (DoomLoopDetected (hit_count h) (hit_tool h) (last_error h)) | None => ret tt end ;;
  match fired with
  | None => ret tt
  | Some f =>
      do! try_emit (DoomLoopRemediation (action_name (doom_does f)) hits) ;;
      do! say (plain User (doom_hint f)) ;;
      match doom_does f with
      | AutoPlan =>
          do! update (set_planning true) ;;
          say (plain System "[System: doom loop detected — switched to plan mode. Read-only tools only.]")
      | Halt => fail ("doom loop halted: '" ++ doom_tool f ++ "' failed " ++ show_N (doom_count f) ++ " times")
      | WarnOnly => ret tt
      end
  end.

(** ** Hooks, audit and limits *)

(** [run_hook_with_result]: the handlers run, the scripts are detached. *)
Definition run_hook_with_result (ev name args_json result_text : str) : X S unit :=
  let! s := gets (fun s => s) in
  let ctx := mkContext ev (gate_session g) (Some name) (Some args_json) (Some result_text) None in
  let '(h, l) := run_with_context (hook_runner g) ev ctx (hook_world (gate_world s)) in
  do! update (set_gate_world (with_hook_world h (gate_world s))) ;;
  update (add_hook_tasks l).

Definition post_tool_hooks (tc : ToolInvocation) (args : json) (result_text : str) : X S unit :=
  do! run_hook_with_result ("post-tool-" ++ call_name tc) (call_name tc) (print_json args) result_text ;;
  run_hook_with_result (lit "post-tool") (call_name tc) (print_json args) result_text.

Definition audit_call (tc : ToolInvocation) (success : bool) (reason : option str) : X S unit :=
  update (fun s => set_gate_world (log_destructive now (call_name tc) (arguments tc) success reason (gate_world s)) s).

Definition should_audit (tc : ToolInvocation) : bool :=
  listed (map lit ["write_file"; "edit_file"; "notebook_edit"; "bash"; "read_file"]) (call_name tc).

Definition deny_call (tc : ToolInvocation) (denied : str) : X S unit :=
  do! (if should_audit tc then audit_call tc false (Some denied) else ret tt) ;;
  respond tc denied false.

(** A limit of 0 cuts nothing. *)
Definition cut_outcome (o : CallOutcome) : X S CallOutcome :=
  match truncate_tool_output o (max_tool_result_chars cfg) with Some o' => ret o' | None => crash end.

Definition slice_outcome (o : CallOutcome) : X S CallOutcome :=
  let! b := gets budget in
  match b with
  | None => ret o
  | Some (t, store, mode, ls) =>
      match apply_budget_slice count_tokens o t store mode ls (gate_session g) with
      | None => crash
      | Some (o', store', mode') => do! update (set_budget (Some (t, store', mode', ls))) ;; ret o'
      end
  end.

(** The verifiers run after a write, an edit and a shell command. *)
Definition run_verifiers (tc : ToolInvocation) (args : json) (o : CallOutcome) (exit_code : option Z) : X S unit :=
  if listed (map lit ["write_file"; "edit_file"; "bash"]) (call_name tc) then
    let! s := gets (fun s => s) in
    let '(crs, fs) := correct tc args o exit_code (exec_tree s) in
    do! update (set_exec_tree fs) ;;
    emit_correction_results crs tc
  else ret tt.

(** What follows the answer, for every tool. *)
Definition after_answer (tc : ToolInvocation) (args : json) (o : CallOutcome) (exit_code : option Z) : X S unit :=
  do! watch_repeats tc o ;;
  do! post_tool_hooks tc args (text_content o) ;;
  run_verifiers tc args o exit_code.

(** ** The record *)

Definition needs_read_gate (fs : Fs) (name path : str) : bool :=
  str_eqb name "edit_file" || str_eqb name "notebook_edit" || (str_eqb name "write_file" && path_exists fs path).

(** The guards again, when no resolved path came with the call. *)
Definition recheck (tc : ToolInvocation) : X S (option str) :=
  let! s := gets (fun s => s) in
  let path := path_arg (arguments tc) in
  match guard_verdict gitignored g (exec_tree s) (call_name tc) path with
  | Denied m => do! deny_call tc (access_denied m) ;; ret None
  | Allowed resolved =>
      if needs_read_gate (exec_tree s) (call_name tc) path then
        match check_edit (exec_tree s) path resolved (read_gate s) with
        | Denied m => do! deny_call tc (access_denied m) ;; ret None
        | Allowed _ => ret (Some resolved)
        end
      else ret (Some resolved)
  end.

Definition mark_successful_read (tc : ToolInvocation) (o : CallOutcome) (resolved : str) : X S unit :=
  if reads_file (call_name tc) && tool_outcome_success o
  then update (fun s => set_read_gate (mark_read (exec_tree s) resolved (read_gate s)) s)
  else ret tt.

Definition record_file_result (tc : ToolInvocation) (o : CallOutcome) (resolved : str) : X S unit :=
  let args := with_path (Some resolved) (arguments tc) in
  do! mark_successful_read tc o resolved ;;
  let! o := cut_outcome o in
  let! o := slice_outcome o in
  do! handle_tool_outcome o tc ;;
  after_answer tc args o None.

Definition record_other_result (tc : ToolInvocation) (o : CallOutcome) : X S unit :=
  let exit_code := if str_eqb (call_name tc) "bash" then (extract_bash_metrics o).1.1 else None in
  let! o := cut_outcome o in
  let! o := slice_outcome o in
  do! handle_tool_outcome o tc ;;
  do! (if should_audit tc then audit_call tc (tool_outcome_success o) None else ret tt) ;;
  after_answer tc (arguments tc) o exit_code.

Definition record_tool_result (tc : ToolInvocation) (o : CallOutcome) (resolved_path : option str) : X S unit :=
  if listed file_tools (call_name tc) then
    let! resolved := match resolved_path with Some p => ret (Some p) | None => recheck tc end in
    match resolved with
    | Some p => record_file_result tc o p
    | None => ret tt
    end
  else record_other_result tc o.
End Recording.

(** ** Specification *)

(** The answer to a call, and a message that is none: what the user or the system seems to
    say, or the note of a verifier. *)
Definition is_answer (tc : ToolInvocation) (m : Message) : Prop :=
  role m = Message.Tool /\ tool_call_id m = Some (call_id tc) /\ tool_name m = Some (call_name tc).
Definition side_note (m : Message) : Prop := role m <> Message.Tool \/ exists v, tool_name m = Some ("verifier:" ++ v).
Definition answers (tc : ToolInvocation) (ms : list Message) : Prop :=
  exists m notes, ms = m :: notes /\ is_answer tc m /\ Forall side_note notes.

(** When a step returns, it appended messages of [P]; with [never], the cancel flag stays
    clear. *)
Definition runs {S A} (never : bool) (m : X S A) (P : A -> list Message -> Prop) : Prop :=
  forall s a s', m s = Some (Ok a, s') -> (never = true -> cancel_in s = None) ->
    (never = true -> cancel_in s' = None) /\ exists ms, conversation s' = conversation s ++ ms /\ P a ms.

Definition silent {A} (_ : A) (ms : list Message) : Prop := ms = [].
Definition noting {A} (_ : A) (ms : list Message) : Prop := Forall side_note ms.

(** ** Proofs *)

Section Rules.
Context {S : Type} (never : bool).

Lemma runs_bind {A B} (m : X S A) (k : A -> X S B) P Q :
  runs never m P -> (forall a ms, P a ms -> runs never (k a) (fun b ms' => Q b (ms ++ ms'))) -> runs never (bind m k) Q.
Proof.
  intros Hm Hk s b s' Hr Hn. unfold bind in Hr. destruct (m s) as [[[a|e] s1]|] eqn:E; try discriminate.
  destruct (Hm _ _ _ E Hn) as (Hn1 & ms & Hc & HP). destruct (Hk a ms HP _ _ _ Hr Hn1) as (Hn2 & ms' & Hc' & HQ).
  split; [done|]. exists (ms ++ ms'). by rw Hc' Hc app_assoc.
Qed.

Lemma runs_weaken {A} (m : X S A) (P Q : A -> list Message -> Prop) :
  runs never m P -> (forall a ms, P a ms -> Q a ms) -> runs never m Q.
Proof. intros Hm HPQ s a s' Hr Hn. destruct (Hm _ _ _ Hr Hn) as (? & ms & ? & ?). split; [done|]. exists ms. auto. Qed.

Lemma runs_ret {A} (a : A) (P : A -> list Message -> Prop) : P a [] -> runs never (ret (S := S) a) P.
Proof. intros HP s a' s' [= <- <-] Hn. split; [done|]. exists []. by rw app_nil_r. Qed.

Lemma runs_fail {A} e (P : A -> list Message -> Prop) : runs never (fail (S := S) e) P.
Proof. intros s a s' Hr. discriminate. Qed.

Lemma runs_crash {A} (P : A -> list Message -> Prop) : runs never (crash (S := S)) P.
Proof. intros s a s' Hr. discriminate. Qed.

Lemma runs_gets {A} (f : ExecState S -> A) (P : A -> list Message -> Prop) : (forall a, P a []) -> runs never (gets f) P.
Proof. intros HP s a s' [= <- <-] Hn. split; [done|]. exists []. by rw app_nil_r. Qed.

Lemma runs_update (f : ExecState S -> ExecState S) (P : unit -> list Message -> Prop) :
  (forall s, conversation (f s) = conversation s /\ cancel_in (f s) = cancel_in s) -> P tt [] -> runs never (update f) P.
Proof.
  intros Hf HP s a s' [= <- <-] Hn. destruct (Hf s) as [Hc Hi]. rw Hi. split; [done|]. exists []. by rw Hc app_nil_r.
Qed.

Lemma silent_then {A B} (m : X S A) (k : A -> X S B) Q :
  runs never m silent -> (forall a, runs never (k a) Q) -> runs never (bind m k) Q.
Proof. intros Hm Hk. eapply runs_bind; [exact Hm|]. intros a ms ->. exact (Hk a). Qed.

Lemma noting_then {A B} (m : X S A) (k : A -> X S B) :
  runs never m noting -> (forall a, runs never (k a) noting) -> runs never (bind m k) noting.
Proof.
  intros Hm Hk. eapply runs_bind; [exact Hm|]. intros a ms Hms. eapply runs_weaken; [exact (Hk a)|].
  intros b ms' Hms'. by apply Forall_app.
Qed.

Lemma answer_then {A B} tc (m : X S A) (k : A -> X S B) :
  runs never m (fun _ => answers tc) -> (forall a, runs never (k a) noting) -> runs never (bind m k) (fun _ => answers tc).
Proof.
  intros Hm Hk. eapply runs_bind; [exact Hm|]. intros a ms (x & notes & -> & Hx & Hn). eapply runs_weaken; [exact (Hk a)|].
  intros b ms' Hms'. exists x, (notes ++ ms'). split; [done|]. split; [done|by apply Forall_app].
Qed.

Lemma silent_noting {A} (m : X S A) : runs never m silent -> runs never m noting.
Proof. intros Hm. eapply runs_weaken; [exact Hm|]. intros a ms ->. constructor. Qed.

Lemma runs_emit e : runs never (emit (S := S) e) silent.
Proof. by apply runs_update. Qed.
End Rules.

Section RecordProofs.
Context {Body S : Type} `{JsonText} `{Scrubber} `{UnicodeCase} `{RegexCaptures} `{OffloadStore S}.
Variables (count_tokens : str -> N) (gitignored : Fs -> str -> bool) (now : str)
  (append_ok : list Message -> Message -> bool) (try_send : list TurnEvent -> bool)
  (correct : ToolInvocation -> json -> CallOutcome -> option Z -> Fs -> list CorrectionResult * Fs)
  (g : @Gate Body) (cfg : ToolSettings) (never : bool).

Lemma runs_say m : runs (S := S) never (say append_ok m) (fun _ ms => ms = [m]).
Proof.
  intros s a s'. unfold say. destruct (append_ok _ _); [|discriminate]. intros [= <- <-] Hn. split; [done|]. by exists [m].
Qed.

Lemma runs_note m : side_note m -> runs (S := S) never (say append_ok m) noting.
Proof. intros Hm. eapply runs_weaken; [apply runs_say|]. intros a ms ->. by constructor. Qed.

Lemma runs_respond_with tc output success m :
  is_answer tc m -> runs (S := S) never (respond_with append_ok tc output success m) (fun _ => answers tc).
Proof.
  intros Hm. apply silent_then; [apply runs_emit|]. intros _. eapply runs_weaken; [apply runs_say|].
  intros a ms ->. by exists m, [].
Qed.

Lemma runs_respond tc output success : runs (S := S) never (respond append_ok tc output success) (fun _ => answers tc).
Proof. by apply runs_respond_with. Qed.

Lemma runs_recover tc message : runs (S := S) never (recover append_ok tc message) noting.
Proof.
  unfold recover. destruct (analyze_error _ _ _); [|by apply runs_ret; constructor]. apply runs_note. by left.
Qed.

Lemma runs_ret_note {A} (a : A) : runs never (ret (S := S) a) noting.
Proof. apply runs_ret. constructor. Qed.

Lemma runs_handle o tc : runs (S := S) never (handle_tool_outcome append_ok o tc) (fun _ => answers tc).
Proof.
  destruct o; cbn [handle_tool_outcome]; apply answer_then; try apply runs_respond.
  all: try (intros _; apply noting_then; [apply runs_recover|intros _; apply runs_ret_note]).
  all: try (intros _; apply runs_ret_note).
  apply runs_respond_with. by split_and!.
Qed.

Lemma runs_corrections crs tc : runs (S := S) never (emit_correction_results append_ok crs tc) noting.
Proof.
  induction crs as [|cr crs IH]; [apply runs_ret_note|]. cbn [emit_correction_results].
  apply silent_then; [apply runs_emit|]. intros _. apply noting_then; [|intros _; exact IH].
  apply runs_note. right. by eexists.
Qed.

Lemma runs_try_emit e : runs (S := S) never (try_emit try_send e) silent.
Proof.
  intros s a s' [= <- <-] Hn. destruct (try_send _); (split; [done|]); exists []; by rw app_nil_r.
Qed.

Lemma runs_watch tc o : runs (S := S) never (watch_repeats append_ok try_send g cfg tc o) noting.
Proof.
  unfold watch_repeats. apply silent_then; [by apply runs_gets|]. intros s.
  destruct (observe_tool_outcome _ _ _ _ _ _) as [[[fired hit] t] hits].
  apply silent_then; [by apply runs_update|]. intros _.
  apply silent_then; [destruct hit; [apply runs_try_emit|by apply runs_ret]|]. intros _.
  destruct fired as [f|]; [|apply runs_ret_note].
  apply silent_then; [apply runs_try_emit|]. intros _. apply noting_then; [apply runs_note; by left|]. intros _.
  destruct (doom_does f); [|apply runs_fail|apply runs_ret_note].
  apply silent_then; [by apply runs_update|]. intros _. apply runs_note. by left.
Qed.

Lemma runs_hook ev name args_json text : runs (S := S) never (run_hook_with_result g ev name args_json text) silent.
Proof.
  unfold run_hook_with_result. apply silent_then; [by apply runs_gets|]. intros s.
  destruct (run_with_context _ _ _ _) as [h l]. apply silent_then; [by apply runs_update|]. intros _. by apply runs_update.
Qed.

Lemma runs_post_hooks tc args text : runs (S := S) never (post_tool_hooks g tc args text) silent.
Proof. apply silent_then; [apply runs_hook|]. intros _. apply runs_hook. Qed.

Lemma runs_audit tc success reason : runs (S := S) never (audit_call now tc success reason) silent.
Proof. by apply runs_update. Qed.

Lemma runs_deny tc denied : runs (S := S) never (deny_call now append_ok tc denied) (fun _ => answers tc).
Proof.
  apply silent_then; [|intros _; apply runs_respond]. destruct (should_audit tc); [apply runs_audit|by apply runs_ret].
Qed.

Lemma runs_cut o : runs (S := S) never (cut_outcome cfg o) silent.
Proof. unfold cut_outcome. destruct (truncate_tool_output _ _); [by apply runs_ret|apply runs_crash]. Qed.

Lemma runs_slice o : runs (S := S) never (slice_outcome count_tokens g o) silent.
Proof.
  unfold slice_outcome. apply silent_then; [by apply runs_gets|]. intros [[[[t store] mode] ls]|]; [|by apply runs_ret].
  destruct (apply_budget_slice _ _ _ _ _ _ _) as [[[o' store'] mode']|]; [|apply runs_crash].
  apply silent_then; [by apply runs_update|]. intros _. by apply runs_ret.
Qed.

Lemma runs_after tc args o code : runs (S := S) never (after_answer append_ok try_send correct g cfg tc args o code) noting.
Proof.
  unfold after_answer. apply noting_then; [apply runs_watch|]. intros _.
  apply noting_then; [apply silent_noting, runs_post_hooks|]. intros _. unfold run_verifiers.
  destruct (listed _ _); [|apply runs_ret_note]. apply silent_then; [by apply runs_gets|]. intros s.
  destruct (correct _ _ _ _ _) as [crs fs]. apply silent_then; [by apply runs_update|]. intros _. apply runs_corrections.
Qed.

Lemma runs_recheck tc :
  runs (S := S) never (recheck gitignored now append_ok g tc)
    (fun r ms => match r with Some _ => ms = [] | None => answers tc ms end).
Proof.
  unfold recheck. apply silent_then; [by apply runs_gets|]. intros s.
  assert (forall m, runs (S := S) never (bind (deny_call now append_ok tc m) (fun _ => ret (@None str)))
    (fun r ms => match r with Some _ => ms = [] | None => answers tc ms end)) as Hd.
  { intros m. eapply runs_bind; [apply runs_deny|]. intros a ms Hms. apply runs_ret. by rw app_nil_r. }
  destruct (guard_verdict _ _ _ _ _) as [resolved|m]; [|apply Hd]. destruct (needs_read_gate _ _ _); [|by apply runs_ret].
  destruct (check_edit _ _ _ _); [by apply runs_ret|apply Hd].
Qed.

(** The record of a result is one answer to the call, and notes after it. *)
Lemma record_answers tc o resolved_path :
  runs (S := S) never
    (record_tool_result count_tokens gitignored now append_ok try_send correct g cfg tc o resolved_path) (fun _ => answers tc).
Proof.
  unfold record_tool_result. destruct (listed _ _).
  - apply (runs_bind never _ _ (fun r ms => match r with Some _ => ms = [] | None => answers tc ms end)).
    { destruct resolved_path; [by apply runs_ret|apply runs_recheck]. }
    intros [p|] ms Hms; [subst ms|apply runs_ret; by rw app_nil_r]. unfold record_file_result.
    apply silent_then.
    { unfold mark_successful_read. destruct (reads_file _ && _); [by apply runs_update|by apply runs_ret]. }
    intros _. apply silent_then; [apply runs_cut|]. intros o1. apply silent_then; [apply runs_slice|]. intros o2.
    apply answer_then; [apply runs_handle|]. intros _. apply runs_after.
  - unfold record_other_result. apply silent_then; [apply runs_cut|]. intros o1.
    apply silent_then; [apply runs_slice|]. intros o2. apply answer_then; [apply runs_handle|]. intros _.
    apply silent_then; [destruct (should_audit tc); [apply runs_audit|by apply runs_ret]|]. intros _. apply runs_after.
Qed.
End RecordProofs.
