(* ===== verification/Dispatch.v ===== *)
(** * Running a batch of tool calls (src/session/executor/dispatch.rs)

    The three phases of a batch: every call passes the gates of [PreRun]; the calls that
    touch no file run concurrently and are recorded as they are awaited, then the file
    calls run one after the other behind the check for swapped links and the
    read-before-edit gate; last, what is not recorded yet is recorded in the order of the
    model.  [answer_batch] is the part of the turn around it ([turn.rs]) that answers what a
    cancellation left.

    Parameters: those of [PreRun] and [Recording], and what a tool does: [run_tool] for one
    that is run in place, [join_tool] for what awaiting a spawned one gives and the tree
    at that time, whatever ran meanwhile.  The cancel flag may become true at any time it
    is read.  A batch of a subagent has a live token ([live_token]), which is fired before
    the bodies of [live_cancelled]. *)

From Stdlib Require Import ssreflect.
From S2P Require Import Prelude Machine Compress Offload AuditTrail Streams Permission BashSafety Paths PathGuard FileTools ToolGates BudgetGuard WebFetch Outcomes Shell Hooks Message Toolsets PreRun Recording.

(** The end of a body: an outcome, a panic or the timeout. *)
Inductive BodyEnd := Returns (o : CallOutcome) | Panicked (m : str) | TimesOut.

(** What Phase 2 hands to Phase 3: the outcome, the path of a file call, and whether a gate
    denied the call before its body ran. *)
Record CallResult := mkResult { result_outcome : CallOutcome; result_path : option str; gate_denied : bool }.

Section Dispatch.
Context {Body S : Type} `{JsonText} `{Scrubber} `{UnicodeCase} `{RegexCaptures} `{OffloadStore S}.
Variables (glob_new : str -> option (str -> bool)) (environ : list (str * str))
  (bash : str -> list (str * str) -> str -> Fs -> Invocation * Fs)
  (hash_order : list str -> list str) (gitignored : Fs -> str -> bool) (now : str)
  (ask : ToolInvocation -> Fs -> Reply * Fs)
  (count_tokens : str -> N) (append_ok : list Message -> Message -> bool) (try_send : list TurnEvent -> bool)
  (correct : ToolInvocation -> json -> CallOutcome -> option Z -> Fs -> list CorrectionResult * Fs).

Record PreparedCall := mkPrepared {
  idx : nat;
  invocation : ToolInvocation;
  tool : @Tool Body;
  resolved_path : option str;
  (** A token that was cancelled when the call was prepared. *)
  token_cancelled : bool
}.

(** A buffered refusal. *)
Record SkippedCall := mkSkipped { skip_idx : nat; skip_events : list TurnEvent; skip_message : str }.

Variables (run_tool : PreparedCall -> Fs -> BodyEnd * Fs) (join_tool : PreparedCall -> Fs -> option BodyEnd * Fs)
  (g : @Gate Body) (cfg : ToolSettings) (live_token : bool) (live_cancelled : PreparedCall -> bool).

Definition record (tc : ToolInvocation) (o : CallOutcome) (path : option str) : X S unit :=
  record_tool_result count_tokens gitignored now append_ok try_send correct g cfg tc o path.

(** ** Phase 1 *)

(** The gates with the plan mode of the moment. *)
Definition current_gate (s : ExecState S) : @Gate Body :=
  mkGate (tools g) (planning s) (non_interactive g) (auto_approve g) (path_guard g) (sandbox_deny_list g) (sandbox_workdir g)
    (hook_runner g) (gate_session g) (hook_config g).

Definition pre_run (tc : ToolInvocation) : X S (@PreRunVerdict Body) := fun s =>
  match pre_run_verdict glob_new environ bash hash_order gitignored now ask (current_gate s) tc (gate_world s) with
  | None => None
  | Some (r, w) => Some (r, set_gate_world w s)
  end.

(** The body sees the resolved path. *)
Definition with_resolved (tc : ToolInvocation) (resolved : option str) : ToolInvocation :=
  mkCall (call_id tc) (call_name tc) (with_path resolved (arguments tc)).

(** [tool_cancel_token]; a live token is not a copy of the flag. *)
Definition snapshot_token : X S bool := if live_token then ret false else is_cancelled.

Fixpoint prepare_from (i : nat) (tcs : list ToolInvocation) : X S (list PreparedCall * list SkippedCall) :=
  match tcs with
  | [] => ret ([], [])
  | tc :: tcs' =>
      let! v := pre_run tc in
      match v with
      | Spawn t resolved =>
          let! cancelled := snapshot_token in
          let! (prepared, skipped) := prepare_from (Datatypes.S i) tcs' in
          ret (mkPrepared i (with_resolved tc resolved) t resolved cancelled :: prepared, skipped)
      | Skip evs m =>
          let! (prepared, skipped) := prepare_from (Datatypes.S i) tcs' in
          ret (prepared, mkSkipped i evs m :: skipped)
      end
  end.
Definition prepare_batch (tcs : list ToolInvocation) : X S (list PreparedCall * list SkippedCall) := prepare_from 0 tcs.

(** ** The body of a call *)

(** [run_prepared_call]: why the body does not run. *)
Definition not_run (p : PreparedCall) : option ToolError :=
  if (if live_token then live_cancelled p else token_cancelled p) then Some Cancelled
  else match validate_tool_args (tool p) (arguments (invocation p)) with
       | Some m => Some (InvalidArgs m)
       | None => None
       end.

Definition body_outcome (e : BodyEnd) : CallOutcome :=
  match e with
  | Returns o => o
  | Panicked m => Failure (Internal ("tool panicked: " ++ m))
  | TimesOut => Failure (Timeout (tool_timeout_secs cfg))
  end.

Definition run_prepared_call (p : PreparedCall) : X S CallOutcome :=
  match not_run p with
  | Some e => ret (Failure e)
  | None =>
      let! s := gets (fun s => s) in
      let '(e, fs) := run_tool p (exec_tree s) in
      do! update (set_exec_tree fs) ;;
      ret (body_outcome e)
  end.

(** Awaiting a spawned call; [None] when its task panicked. *)
Definition join_call (p : PreparedCall) : X S (option CallOutcome) :=
  let! s := gets (fun s => s) in
  let '(e, fs) := join_tool p (exec_tree s) in
  do! update (set_exec_tree fs) ;;
  ret ((fun e => match not_run p with Some err => Failure err | None => body_outcome e end) <$> e).

Definition tool_start (p : PreparedCall) : TurnEvent :=
  ToolStart (call_name (invocation p)) (arguments (invocation p)) (call_id (invocation p)).

(** ** Phase 2 *)

Definition is_file_call (p : PreparedCall) : bool := is_some_b (resolved_path p).

(** The calls that were spawned, the file calls put off, and the results of a
    deterministic run.  A cancellation ends the loop: what comes after is not even put off. *)
Fixpoint spawn_calls (prepared : list PreparedCall) : X S (list PreparedCall * list PreparedCall * gmap nat CallResult) :=
  match prepared with
  | [] => ret ([], [], ∅)
  | p :: rest =>
      if is_file_call p then
        let! (running, deferred, results) := spawn_calls rest in
        ret (running, p :: deferred, results)
      else
        do! emit (tool_start p) ;;
        let! done := if deterministic cfg then let! o := run_prepared_call p in ret (Some o) else ret None in
        let! cancelled := is_cancelled in
        let! (running, deferred, results) := if cancelled : bool then ret ([], [], ∅) else spawn_calls rest in
        match done with
        | Some o => ret (running, deferred, <[idx p := mkResult o None false]> results)
        | None => ret (p :: running, deferred, results)
        end
  end.

(** The spawned calls are awaited in order and recorded; the indices recorded. *)
Fixpoint collect_running (tcs : list ToolInvocation) (running : list PreparedCall) : X S (list nat) :=
  match running with
  | [] => ret []
  | p :: rest =>
      let! o := join_call p in
      match o, tcs !! idx p with
      | Some o, Some tc =>
          do! record tc o None ;;
          let! cancelled := is_cancelled in
          let! recorded := if cancelled : bool then ret [] else collect_running tcs rest in
          ret (idx p :: recorded)
      | Some _, None => crash
      | None, _ => collect_running tcs rest
      end
  end.

(** [symlink_swap_denied]: the components joined one by one. *)
Definition component_text (c : component) : str :=
  match c with RootDir => lit "/" | CurDir => lit "." | ParentDir => lit ".." | Normal n => n end.
Fixpoint swapped_link (fs : Fs) (acc : str) (comps : list component) : option str :=
  match comps with
  | [] => None
  | c :: comps' =>
      let acc := path_join acc (component_text c) in
      match symlink_metadata fs acc with
      | Ok n => if is_symlink n then Some ("path component '" ++ acc ++ "' was replaced by a symlink after validation")
                else swapped_link fs acc comps'
      | Err _ => swapped_link fs acc comps'
      end
  end.
Definition symlink_swap_denied (fs : Fs) (resolved : str) : option str := swapped_link fs [] (components resolved).

(** Why the body of a file call does not run. *)
Definition file_call_denied (s : ExecState S) (p : PreparedCall) (path : str) : option str :=
  match symlink_swap_denied (exec_tree s) path with
  | Some m => Some (access_denied m)
  | None =>
      if needs_read_gate (exec_tree s) (call_name (invocation p)) path then
        match check_edit (exec_tree s) (path_arg (arguments (invocation p))) path (read_gate s) with
        | Denied m => Some (access_denied m)
        | Allowed _ => None
        end
      else None
  end.

(** One file call of Phase 2.5. *)
Definition run_file_call (p : PreparedCall) : X S CallResult :=
  match resolved_path p with
  | None =>
      ret (mkResult (Failure (Internal ("file call '" ++ call_name (invocation p)
                                        ++ "' reached Phase 2.5 without a resolved path"))) None false)
  | Some path =>
      let! s := gets (fun s => s) in
      match file_call_denied s p path with
      | Some denied => ret (mkResult (Failure (AccessDenied denied)) (Some path) true)
      | None =>
          do! emit (tool_start p) ;;
          let! o := run_prepared_call p in
          do! mark_successful_read (invocation p) o path ;;
          ret (mkResult o (Some path) false)
      end
  end.

Fixpoint run_deferred (deferred : list PreparedCall) : X S (gmap nat CallResult) :=
  match deferred with
  | [] => ret ∅
  | p :: rest =>
      let! cancelled := is_cancelled in
      if cancelled : bool then ret ∅
      else
        let! r := run_file_call p in
        let! results := run_deferred rest in
        ret (<[idx p := r]> results)
  end.

Definition spawn_batch (tcs : list ToolInvocation) (prepared : list PreparedCall) : X S (gmap nat CallResult * list nat) :=
  let! (running, deferred, results) := spawn_calls prepared in
  let! recorded := collect_running tcs running in
  let! file_results := run_deferred deferred in
  ret (file_results ∪ results, recorded).

(** ** Phase 3 *)

Fixpoint emit_all (evs : list TurnEvent) : X S unit :=
  match evs with
  | [] => ret tt
  | e :: evs' => do! emit e ;; emit_all evs'
  end.

Definition replay_skip (tc : ToolInvocation) (k : SkippedCall) : X S unit :=
  do! emit_all (skip_events k) ;;
  say append_ok (tool_message tc (skip_message k)).

Definition audited_denial (tc : ToolInvocation) : bool :=
  listed (map lit ["write_file"; "edit_file"; "notebook_edit"; "bash"; "read_file"]) (call_name tc).

(** The result of a call that has one. *)
Definition record_result (tc : ToolInvocation) (r : CallResult) : X S unit :=
  match gate_denied r, result_outcome r with
  | true, Failure (AccessDenied message) =>
      do! (if audited_denial tc then audit_call now tc false (Some message) else ret tt) ;;
      respond append_ok tc message false
  | _, _ => record tc (result_outcome r) (result_path r)
  end.

Definition no_outcome (tc : ToolInvocation) : str := "Tool call " ++ call_id tc ++ " did not return an outcome".

(** The first index that is left to the caller, or the number of calls. *)
Fixpoint collect_from (i : nat) (tcs : list ToolInvocation) (results : gmap nat CallResult) (skipped : list SkippedCall)
    (recorded : list nat) : X S nat :=
  match tcs with
  | [] => ret i
  | tc :: tcs' =>
      if bool_decide (i ∈ recorded) then collect_from (Datatypes.S i) tcs' results skipped recorded
      else
        match find_first (fun k => skip_idx k =? i) skipped, results !! i with
        | Some k, _ =>
            do! replay_skip tc k ;;
            collect_from (Datatypes.S i) tcs' results skipped recorded
        | None, Some r =>
            do! record_result tc r ;;
            collect_from (Datatypes.S i) tcs' results skipped recorded
        | None, None =>
            let! cancelled := is_cancelled in
            if cancelled : bool then ret i
            else
              do! respond append_ok tc (no_outcome tc) false ;;
              collect_from (Datatypes.S i) tcs' results skipped recorded
        end
  end.
Definition collect_batch (tcs : list ToolInvocation) (results : gmap nat CallResult) (skipped : list SkippedCall)
    (recorded : list nat) : X S nat := collect_from 0 tcs results skipped recorded.

Definition dispatch_tool_call_batch (tcs : list ToolInvocation) : X S nat :=
  match tcs with
  | [] => ret 0
  | _ =>
      let! cancelled := is_cancelled in
      if cancelled : bool then ret 0
      else
        let! (prepared, skipped) := prepare_batch tcs in
        let! (results, recorded) := spawn_batch tcs prepared in
        collect_batch tcs results skipped recorded
  end.

(** ** The answers of a turn *)

Definition cancelled_text (tc : ToolInvocation) : str := "Tool call " ++ call_id tc ++ " cancelled before execution".

Fixpoint answer_cancelled (tcs : list ToolInvocation) : X S unit :=
  match tcs with
  | [] => ret tt
  | tc :: tcs' => do! respond append_ok tc (cancelled_text tc) false ;; answer_cancelled tcs'
  end.

(** The calls of one answer of the model: the batch, then what a cancellation left. *)
Definition answer_batch (tcs : list ToolInvocation) : X S nat :=
  let! cancelled_idx := dispatch_tool_call_batch tcs in
  do! answer_cancelled (drop cancelled_idx tcs) ;;
  ret cancelled_idx.
End Dispatch.

(** ** Specification *)

Section Spec.
Context {Body S : Type} `{JsonText} `{Scrubber} `{UnicodeCase} `{RegexCaptures} `{OffloadStore S}.
Variables (glob_new : str -> option (str -> bool)) (environ : list (str * str))
  (bash : str -> list (str * str) -> str -> Fs -> Invocation * Fs)
  (hash_order : list str -> list str) (gitignored : Fs -> str -> bool) (now : str)
  (ask : ToolInvocation -> Fs -> Reply * Fs)
  (count_tokens : str -> N) (append_ok : list Message -> Message -> bool) (try_send : list TurnEvent -> bool)
  (correct : ToolInvocation -> json -> CallOutcome -> option Z -> Fs -> list CorrectionResult * Fs)
  (run_tool : @PreparedCall Body -> Fs -> BodyEnd * Fs) (join_tool : @PreparedCall Body -> Fs -> option BodyEnd * Fs)
  (g : @Gate Body) (cfg : ToolSettings) (live_token : bool) (live_cancelled : @PreparedCall Body -> bool) (never : bool).

(** The call of an index is answered by a block of messages. *)
Definition answered (tcs : list ToolInvocation) (j : nat) (b : list Message) : Prop :=
  exists tc, tcs !! j = Some tc /\ answers tc b.

(** The indices below [n] that are not recorded while they are awaited. *)
Definition others (recorded : list nat) (start n : nat) : list nat :=
  List.filter (fun j => negb (bool_decide (j ∈ recorded))) (seq start (n - start)).

(** Indices in the order of the model. *)
Definition in_order (l : list nat) : Prop := StronglySorted lt l.

(** ** Proofs *)

Lemma runs_cancelled :
  runs (S := S) never is_cancelled (fun b ms => ms = [] /\ (never = true -> b = false)).
Proof.
  intros s a s' Hr Hn. unfold is_cancelled in Hr. destruct (cancel_in s) as [[|n]|] eqn:E; injection Hr as <- <-;
    (split; [intros Ht; by specialize (Hn Ht)|]); exists []; rw app_nil_r; (split; [done|]); (split; [done|]);
    intros Ht; by specialize (Hn Ht).
Qed.

Lemma runs_snapshot : runs (S := S) never (snapshot_token live_token) silent.
Proof.
  unfold snapshot_token. destruct live_token; [by apply runs_ret|].
  eapply runs_weaken; [apply runs_cancelled|]. by intros a ms [-> _].
Qed.

Lemma runs_pre_run tc :
  runs (S := S) never (pre_run glob_new environ bash hash_order gitignored now ask g tc) silent.
Proof.
  intros s a s' Hr Hn. unfold pre_run in Hr.
  destruct (pre_run_verdict _ _ _ _ _ _ _ _ _ _) as [[[v|e] w]|]; try discriminate. injection Hr as <- <-.
  split; [done|]. exists []. by rw app_nil_r.
Qed.

(** What is prepared is in order, from [i] on. *)
Definition prepared_from (i : nat) (l : list (@PreparedCall Body)) : Prop := in_order (map idx l) /\ Forall (fun p => i <= idx p) l.

Lemma prepared_weaken i j l : j <= i -> prepared_from i l -> prepared_from j l.
Proof. intros Hle [Hs Hl]. split; [done|]. eapply Forall_impl; [exact Hl|]. cbn. lia. Qed.

Lemma prepared_cons p l : prepared_from (Datatypes.S (idx p)) l -> prepared_from (idx p) (p :: l).
Proof.
  intros [Hs Hl]. split.
  - constructor; [exact Hs|]. apply Forall_map. eapply Forall_impl; [exact Hl|]. cbn. lia.
  - constructor; [done|]. eapply Forall_impl; [exact Hl|]. cbn. lia.
Qed.

Lemma prepared_tail i p l : prepared_from i (p :: l) -> i <= idx p /\ prepared_from (Datatypes.S (idx p)) l.
Proof.
  intros [Hs Hl]. apply Forall_cons in Hl as [Hp Hl]. inversion Hs as [|x k Hk Hlt]; subst. split; [done|].
  split; [done|]. rw Forall_map in Hlt. eapply Forall_impl; [exact Hlt|]. cbn. lia.
Qed.

Lemma runs_prepare i tcs :
  runs (S := S) never (prepare_from glob_new environ bash hash_order gitignored now ask g live_token i tcs)
    (fun r ms => ms = [] /\ prepared_from i r.1).
Proof.
  revert i. induction tcs as [|tc tcs IH]; intros i; cbn [prepare_from].
  { apply runs_ret. split; [done|]. split; constructor. }
  apply silent_then; [apply runs_pre_run|]. intros [t resolved|evs m].
  - apply silent_then; [apply runs_snapshot|]. intros cancelled.
    eapply runs_bind; [apply IH|]. intros [prepared skipped] ms [-> Hp]. apply runs_ret. split; [done|]. by apply prepared_cons.
  - eapply runs_bind; [apply IH|]. intros [prepared skipped] ms [-> Hp]. apply runs_ret. split; [done|].
    eapply prepared_weaken; [|exact Hp]. lia.
Qed.

Lemma runs_body p : runs (S := S) never (run_prepared_call run_tool cfg live_token live_cancelled p) silent.
Proof.
  unfold run_prepared_call. destruct (not_run _ _ _); [by apply runs_ret|]. apply silent_then; [by apply runs_gets|].
  intros s. destruct (run_tool _ _). apply silent_then; [by apply runs_update|]. intros _. by apply runs_ret.
Qed.

Lemma runs_join p : runs (S := S) never (join_call join_tool cfg live_token live_cancelled p) silent.
Proof.
  unfold join_call. apply silent_then; [by apply runs_gets|]. intros s. destruct (join_tool _ _).
  apply silent_then; [by apply runs_update|]. intros _. by apply runs_ret.
Qed.

Lemma runs_spawn i prepared :
  prepared_from i prepared ->
  runs (S := S) never (spawn_calls run_tool cfg live_token live_cancelled prepared) (fun r ms => ms = [] /\ prepared_from i r.1.1).
Proof.
  revert i. induction prepared as [|p prepared IH]; intros i Hp; cbn [spawn_calls].
  { apply runs_ret. split; [done|]. split; constructor. }
  apply prepared_tail in Hp as [Hi Hp]. assert (forall l, prepared_from (Datatypes.S (idx p)) l -> prepared_from i l) as Hw.
  { intros l. apply prepared_weaken. lia. }
  destruct (is_file_call p).
  { eapply runs_bind; [apply (IH _ Hp)|]. intros [[running deferred] results] ms [-> Hr]. apply runs_ret. split; [done|by apply Hw]. }
  apply silent_then; [apply runs_emit|]. intros _. apply silent_then.
  { destruct (deterministic cfg); [|by apply runs_ret]. apply silent_then; [apply runs_body|]. intros o. by apply runs_ret. }
  intros done. eapply runs_bind; [apply runs_cancelled|]. intros cancelled ms [-> _].
  apply (runs_bind never _ _ (fun r ms => ms = [] /\ prepared_from (Datatypes.S (idx p)) r.1.1)).
  { destruct cancelled; [|by apply IH]. apply runs_ret. split; [reflexivity|]. split; constructor. }
  intros [[running deferred] results] ms [-> Hr].
  destruct done; apply runs_ret; (split; [reflexivity|]); [by apply Hw|].
  eapply prepared_weaken; [exact Hi|]. by apply prepared_cons.
Qed.

Lemma runs_collect_running tcs i running :
  prepared_from i running ->
  runs (S := S) never
    (collect_running gitignored now count_tokens append_ok try_send correct join_tool g cfg live_token live_cancelled tcs running)
    (fun recorded ms => in_order recorded /\ Forall (fun j => i <= j) recorded
                        /\ exists blocks, ms = concat blocks /\ Forall2 (answered tcs) recorded blocks).
Proof.
  revert i. induction running as [|p running IH]; intros i Hp; cbn [collect_running].
  { apply runs_ret. split; [constructor|]. split; [constructor|]. exists []. split; [done|constructor]. }
  apply prepared_tail in Hp as [Hi Hp]. apply silent_then; [apply runs_join|]. intros [o|].
  - destruct (tcs !! idx p) as [tc|] eqn:Htc; [|apply runs_crash].
    eapply runs_bind; [apply record_answers|]. intros u ms Hms. eapply runs_bind; [apply runs_cancelled|]. intros cancelled ms' [-> _].
    apply (runs_bind never _ _ (fun recorded ms => in_order recorded /\ Forall (fun j => Datatypes.S (idx p) <= j) recorded
                        /\ exists blocks, ms = concat blocks /\ Forall2 (answered tcs) recorded blocks)).
    { destruct cancelled; [|by apply IH]. apply runs_ret. split; [constructor|]. split; [constructor|]. exists []. split; [done|constructor]. }
    intros recorded ms' (Hs & Hf & blocks & -> & Hb). apply runs_ret. split; [|split].
    + constructor; [done|]. eapply Forall_impl; [exact Hf|]. cbn. lia.
    + constructor; [done|]. eapply Forall_impl; [exact Hf|]. cbn. lia.
    + exists (ms :: blocks). split; [cbn [concat app]; by rw app_nil_r|]. constructor; [by exists tc|done].
  - eapply runs_weaken; [apply (IH _ Hp)|]. intros recorded ms (Hs & Hf & Hb). split; [done|]. split; [|done].
    eapply Forall_impl; [exact Hf|]. cbn. lia.
Qed.

Lemma runs_file_call p : runs (S := S) never (run_file_call run_tool cfg live_token live_cancelled p) silent.
Proof.
  unfold run_file_call. destruct (resolved_path p) as [path|]; [|by apply runs_ret].
  apply silent_then; [by apply runs_gets|]. intros s. destruct (file_call_denied s p path); [by apply runs_ret|].
  apply silent_then; [apply runs_emit|]. intros _. apply silent_then; [apply runs_body|]. intros o. apply silent_then.
  { unfold mark_successful_read. destruct (reads_file _ && _); [by apply runs_update|by apply runs_ret]. }
  intros _. by apply runs_ret.
Qed.

Lemma runs_deferred deferred : runs (S := S) never (run_deferred run_tool cfg live_token live_cancelled deferred) silent.
Proof.
  induction deferred as [|p deferred IH]; cbn [run_deferred]; [by apply runs_ret|].
  eapply runs_bind; [apply runs_cancelled|]. intros cancelled ms [-> _]. destruct cancelled; [by apply runs_ret|].
  apply silent_then; [apply runs_file_call|]. intros r. apply silent_then; [exact IH|]. intros results. by apply runs_ret.
Qed.

Lemma runs_emit_all evs : runs (S := S) never (emit_all evs) silent.
Proof.
  induction evs as [|e evs IH]; cbn [emit_all]; [by apply runs_ret|]. apply silent_then; [apply runs_emit|]. by intros _.
Qed.

Lemma runs_record_result tc r :
  runs (S := S) never (record_result gitignored now count_tokens append_ok try_send correct g cfg tc r) (fun _ => answers tc).
Proof.
  unfold record_result. destruct (gate_denied r), (result_outcome r) as [| |[]| | | |]; try apply record_answers.
  apply silent_then; [|intros _; apply runs_respond]. destruct (audited_denial tc); [apply runs_audit|by apply runs_ret].
Qed.

Lemma others_here recorded i n : i < n -> i ∉ recorded -> others recorded i n = i :: others recorded (Datatypes.S i) n.
Proof.
  intros Hi Hr. unfold others. replace (n - i) with (Datatypes.S (n - Datatypes.S i)) by lia. cbn [seq List.filter].
  rw bool_decide_eq_false_2 //.
Qed.

Lemma others_skip recorded i n : i < n -> i ∈ recorded -> others recorded i n = others recorded (Datatypes.S i) n.
Proof.
  intros Hi Hr. unfold others. replace (n - i) with (Datatypes.S (n - Datatypes.S i)) by lia. cbn [seq List.filter].
  rw bool_decide_eq_true_2 //.
Qed.

(** A call that is answered, and the ones after it. *)
Lemma collect_step all recorded i tc (m k : X S nat) (u : X S unit) :
  (m = do! u ;; k) -> all !! i = Some tc -> i ∉ recorded ->
  runs never u (fun (_ : unit) => answers tc) ->
  runs never k (fun n ms => Datatypes.S i <= n <= length all /\ (never = true -> n = length all)
     /\ exists blocks, ms = concat blocks /\ Forall2 (answered all) (others recorded (Datatypes.S i) n) blocks) ->
  runs never m (fun n ms => i <= n <= length all /\ (never = true -> n = length all)
     /\ exists blocks, ms = concat blocks /\ Forall2 (answered all) (others recorded i n) blocks).
Proof.
  intros -> Hi Hr Hu Hk. eapply runs_bind; [exact Hu|]. intros a ms Hms. eapply runs_weaken; [exact Hk|].
  intros n ms' (Hn & Hnv & blocks & -> & Hb). split; [lia|]. split; [done|]. exists (ms :: blocks). split; [done|].
  rw others_here //; [lia|]. constructor; [by exists tc|done].
Qed.

Lemma runs_collect all tcs i results skipped recorded :
  drop i all = tcs -> i <= length all ->
  runs (S := S) never
    (collect_from gitignored now count_tokens append_ok try_send correct g cfg i tcs results skipped recorded)
    (fun n ms => i <= n <= length all /\ (never = true -> n = length all)
       /\ exists blocks, ms = concat blocks /\ Forall2 (answered all) (others recorded i n) blocks).
Proof.
  revert i. induction tcs as [|tc tcs IH]; intros i Hd Hi; cbn [collect_from].
  { apply runs_ret. apply (f_equal length) in Hd. rw length_drop in Hd. cbn in Hd. split; [lia|]. split; [lia|].
    exists []. split; [done|]. unfold others. rw Nat.sub_diag. constructor. }
  assert (i < length all) as Hlt by (apply (f_equal length) in Hd; rw length_drop in Hd; cbn in Hd; lia).
  assert (all !! i = Some tc) as Htc by (by rw -(Nat.add_0_r i) -lookup_drop Hd).
  assert (drop (Datatypes.S i) all = tcs) as Hd' by (by rw -Nat.add_1_r -drop_drop Hd).
  specialize (IH (Datatypes.S i) Hd' Hlt). destruct (bool_decide (i ∈ recorded)) eqn:Hr.
  { apply bool_decide_eq_true in Hr. eapply runs_weaken; [exact IH|]. intros n ms (Hn & Hnv & blocks & Hms & Hb).
    split; [lia|]. split; [done|]. exists blocks. split; [done|]. rw others_skip //. lia. }
  apply bool_decide_eq_false in Hr.
  destruct (find_first _ skipped) as [k|].
  { eapply collect_step; [reflexivity|exact Htc|exact Hr| |exact IH].
    apply silent_then; [apply runs_emit_all|]. intros _. eapply runs_weaken; [apply runs_say|].
    intros a ms ->. by exists (tool_message tc (skip_message k)), []. }
  destruct (results !! i) as [r|].
  { eapply collect_step; [reflexivity|exact Htc|exact Hr|apply runs_record_result|exact IH]. }
  eapply runs_bind; [apply runs_cancelled|]. intros cancelled ms [-> Hc]. destruct cancelled.
  { apply runs_ret. split; [lia|]. split; [by intros Hn; specialize (Hc Hn)|]. exists []. split; [done|].
    unfold others. rw Nat.sub_diag. constructor. }
  eapply collect_step; [reflexivity|exact Htc|exact Hr|apply runs_respond|exact IH].
Qed.

Lemma runs_answer_cancelled tcs :
  runs (S := S) never (answer_cancelled append_ok tcs) (fun _ ms => ms = map (fun tc => tool_message tc (cancelled_text tc)) tcs).
Proof.
  induction tcs as [|tc tcs IH]; cbn [answer_cancelled]; [by apply runs_ret|].
  apply (runs_bind never _ _ (fun _ ms => ms = [tool_message tc (cancelled_text tc)])).
  { apply silent_then; [apply runs_emit|]. intros _. apply runs_say. }
  intros u ms ->. eapply runs_weaken; [exact IH|]. by intros v ms ->.
Qed.
End Spec.

Lemma others_all recorded n :
  in_order recorded -> Forall (fun j => j < n) recorded -> recorded ++ others recorded 0 n ≡ₚ seq 0 n.
Proof.
  intros Hs Hl. apply NoDup_Permutation.
  - apply NoDup_app. split_and!.
    + clear Hl. induction Hs as [|j l Hs IH Hj]; [constructor|]. constructor; [|done].
      intros Hin. rw Forall_forall in Hj. specialize (Hj j Hin). lia.
    + intros j Hj Hin. apply list_elem_of_In, filter_In in Hin as [_ Hin]. by rw bool_decide_eq_true_2 in Hin.
    + apply NoDup_ListNoDup, List.NoDup_filter, NoDup_ListNoDup, NoDup_seq.
  - apply NoDup_seq.
  - intros j. rw elem_of_app elem_of_seq. assert (j ∈ others recorded 0 n <-> j < n /\ j ∉ recorded) as ->.
    { unfold others. rw list_elem_of_In filter_In -list_elem_of_In elem_of_seq negb_true_iff bool_decide_eq_false.
      assert (0 <= j < 0 + (n - 0) <-> j < n) as -> by lia. done. }
    rw Forall_forall in Hl. split.
    + intros [Hj|[Hj _]]; [specialize (Hl j Hj)|]; lia.
    + intros Hj. destruct (decide (j ∈ recorded)); [by left|right]. split; [lia|done].
Qed.

Lemma answered_inside tcs l blocks : Forall2 (answered tcs) l blocks -> Forall (fun j => j < length tcs) l.
Proof. induction 1 as [|j b l blocks (tc & Hj & _) _ IH]; constructor; [|done]. by apply lookup_lt_Some in Hj. Qed.

(** ** Properties *)

(** C6.  When a batch returns, every call of the model has been answered: first, in their
    order, the calls recorded while they were awaited; then, in their order, the others up
    to the first that a cancellation left, each by one message under its own identifier and
    name, with notes after it; last, one text for each call from there on.  Without a
    cancellation each call is answered exactly once. *)
Theorem batch_answered {Body S} `{JsonText} `{Scrubber} `{UnicodeCase} `{RegexCaptures} `{OffloadStore S}
    glob_new environ bash hash_order gitignored now ask count_tokens append_ok try_send correct
    run_tool join_tool (g : @Gate Body) cfg live_token live_cancelled tcs (s s' : ExecState S) n :
  answer_batch glob_new environ bash hash_order gitignored now ask count_tokens append_ok try_send correct
    run_tool join_tool g cfg live_token live_cancelled tcs s = Some (Ok n, s') ->
  exists recorded blocks,
    conversation s' = conversation s ++ concat blocks ++ map (fun tc => tool_message tc (cancelled_text tc)) (drop n tcs)
    /\ in_order recorded /\ n <= length tcs
    /\ Forall2 (answered tcs) (recorded ++ others recorded 0 n) blocks
    /\ (cancel_in s = None -> n = length tcs /\ recorded ++ others recorded 0 n ≡ₚ seq 0 (length tcs)).
Proof.
  intros Hr. set (never := bool_decide (cancel_in s = None)).
  assert (runs never (answer_batch glob_new environ bash hash_order gitignored now ask count_tokens append_ok try_send correct
    run_tool join_tool g cfg live_token live_cancelled tcs) (fun n ms => exists recorded blocks,
      ms = concat blocks ++ map (fun tc => tool_message tc (cancelled_text tc)) (drop n tcs)
      /\ in_order recorded /\ n <= length tcs /\ (never = true -> n = length tcs)
      /\ Forall2 (answered tcs) (recorded ++ others recorded 0 n) blocks)) as Hb.
  { apply (runs_bind never _ _ (fun n ms => exists recorded blocks,
      ms = concat blocks /\ in_order recorded /\ n <= length tcs /\ (never = true -> n = length tcs)
      /\ Forall2 (answered tcs) (recorded ++ others recorded 0 n) blocks)); last first.
    { intros k ms (recorded & blocks & -> & Hs & Hk & Hn & Hf). eapply runs_bind; [apply runs_answer_cancelled|].
      intros u ms ->. apply runs_ret. exists recorded, blocks. by rw app_nil_r. }
    destruct tcs as [|tc tcs']; [apply runs_ret; exists [], []; split_and!; [done|constructor|done|done|constructor]|].
    unfold dispatch_tool_call_batch. set (tcs := tc :: tcs').
    eapply runs_bind; [apply runs_cancelled|]. intros cancelled ms [-> Hc]. destruct cancelled.
    { apply runs_ret. exists [], []. split_and!; [done|constructor|lia|by intros Hn; specialize (Hc Hn)|constructor]. }
    eapply runs_bind; [apply runs_prepare|]. intros [prepared skipped] ms [-> Hp]. cbn [fst] in Hp.
    apply (runs_bind never _ _ (fun r ms => in_order r.2
      /\ exists blocks, ms = concat blocks /\ Forall2 (answered tcs) r.2 blocks)).
    - unfold spawn_batch. eapply runs_bind; [by apply runs_spawn|].
      intros [[running deferred] results] ms [-> Hrun]. cbn [fst] in Hrun.
      eapply runs_bind; [by apply runs_collect_running|]. intros recorded ms (Hs & _ & blocks & -> & Hf).
      eapply runs_bind; [apply runs_deferred|]. intros results' ms ->. apply runs_ret. split; [done|].
      exists blocks. by rw !app_nil_r.
    - intros [results recorded] ms (Hs & blocks & -> & Hf). cbn [snd] in Hs, Hf.
      eapply runs_weaken; [apply (runs_collect _ _ _ _ _ _ _ _ never tcs tcs 0); [done|lia]|].
      intros k ms (Hk & Hn & blocks' & -> & Hf'). exists recorded, (blocks ++ blocks'). cbn [app].
      rw concat_app. split_and!; [done|done|lia|done|by apply Forall2_app]. }
  destruct (Hb _ _ _ Hr (fun Hn => bool_decide_eq_true_1 _ Hn)) as (_ & ms & Hm & recorded & blocks & -> & Hs & Hk & Hn & Hf).
  exists recorded, blocks. split_and!; [done..|]. intros Hnone.
  assert (n = length tcs) as -> by (apply Hn; by apply bool_decide_eq_true_2).
  split; [done|]. apply others_all; [done|]. pose proof (answered_inside _ _ _ Hf) as Hi. by apply Forall_app in Hi as [? _].
Qed.

(** No prefix of the path is a symbolic link. *)
Definition joined (acc : str) (comps : list component) : str := foldl (fun acc c => path_join acc (component_text c)) acc comps.
Definition link_free (fs : Fs) (path : str) : Prop :=
  forall k n, k < length (components path) -> symlink_metadata fs (joined [] (take (Datatypes.S k) (components path))) = Ok n ->
    is_symlink n = false.

(** What the body of a file call needs: no link on its path, and, for an edit or an
    overwrite, that the file has been read. *)
Definition file_cleared {Body S} (s : ExecState S) (p : @PreparedCall Body) (path : str) : Prop :=
  link_free (exec_tree s) path
  /\ (needs_read_gate (exec_tree s) (call_name (invocation p)) path = true -> was_read (exec_tree s) path (read_gate s) = true).

Lemma swapped_link_None fs acc comps :
  swapped_link fs acc comps = None
  <-> forall k n, k < length comps -> symlink_metadata fs (joined acc (take (Datatypes.S k) comps)) = Ok n -> is_symlink n = false.
Proof.
  revert acc. induction comps as [|c comps IH]; intros acc; cbn [swapped_link].
  { split; [|done]. intros _ k n Hk. cbn in Hk. lia. }
  set (acc' := path_join acc (component_text c)). specialize (IH acc').
  assert ((forall k n, k < length (c :: comps) -> symlink_metadata fs (joined acc (take (Datatypes.S k) (c :: comps))) = Ok n -> is_symlink n = false)
    <-> (forall n, symlink_metadata fs acc' = Ok n -> is_symlink n = false)
        /\ forall k n, k < length comps -> symlink_metadata fs (joined acc' (take (Datatypes.S k) comps)) = Ok n -> is_symlink n = false) as ->.
  { split.
    - intros Hl. split; [intros n; apply (Hl 0 n); cbn; lia|]. intros k n Hk. apply (Hl (Datatypes.S k) n). cbn. lia.
    - intros [H0 Hl] [|k] n Hk; [apply H0|]. apply Hl. cbn in Hk. lia. }
  rw -IH. destruct (symlink_metadata fs acc') as [n|e].
  - destruct (is_symlink n) eqn:E.
    + split; [discriminate|]. intros [Hn _]. by rw (Hn n eq_refl) in E.
    + split; [|by intros [_ ?]]. intros Hs. split; [|exact Hs]. by intros n' [= <-].
  - split; [|by intros [_ ?]]. intros Hs. split; [done|exact Hs].
Qed.

Lemma file_call_denied_None {Body S} (s : ExecState S) (p : @PreparedCall Body) path :
  file_call_denied s p path = None <-> file_cleared s p path.
Proof.
  unfold file_call_denied, file_cleared, link_free. rw -(swapped_link_None (exec_tree s) [] (components path)).
  change (swapped_link (exec_tree s) [] (components path)) with (symlink_swap_denied (exec_tree s) path).
  destruct (symlink_swap_denied _ _) as [m|]; [split; [discriminate|by intros [? _]]|].
  destruct (needs_read_gate _ _ _); [|by split]. unfold check_edit, was_read.
  destruct (bool_decide _); [by split|]. split; [discriminate|]. intros [_ Hr]. discriminate (Hr eq_refl).
Qed.


(** ** Examples *)

Definition no_store : OffloadStore unit :=
  Offload.Build_OffloadStore unit (fun _ s => (Ok [], s)) (fun _ _ => Ok []) (fun _ => 0).
Definition three_tools : @Toolset unit :=
  VecToolset "builtin" (map (fun n => mkTool (mkToolDef (lit n) [] (JObj [])) tt) ["bash"; "read_file"; "write_file"]%string).
Definition open_gate : @Gate unit :=
  mkGate three_tools false false true (sandboxed "/w") (DenyList_default (fun _ => None)) false plain_hooks [] hook_cfg.
Definition read_call (path : str) : ToolInvocation := mkCall "0" "read_file" (JObj [(lit "path", JStr path)]).
Definition start_at (fs : Fs) (t : DoomLoopTracker) (cancel : option nat) : ExecState unit :=
  mkExec (mkGateWorld (mkWorld fs (Some [])) [] (Some [])) [] [] ReadGate_new false t 0 None [] cancel.
Definition settings (action : str) : ToolSettings := mkSettings 0 action 1 120 false.

(** Bodies that end with an outcome and leave the tree. *)
Definition demo_batch (o : CallOutcome) (action : str) (tcs : list ToolInvocation) (s : ExecState unit) :=
  @answer_batch unit unit (demo_text []) plain_scrub ascii_case (fun _ _ => []) no_store (fun _ => None) []
    (fun _ _ _ fs => (idle, fs)) (fun l => l) (fun _ _ => false) [] (says RespApproved) str_len (fun _ _ => true) (fun _ => true)
    (fun _ _ _ _ fs => ([], fs)) (fun _ fs => (Returns o, fs)) (fun _ fs => (Some (Returns o), fs)) open_gate (settings action)
    false (fun _ => false) tcs s.
Definition texts (s : ExecState unit) : list (option str * str) := map (fun m => (tool_call_id m, content m)) (conversation s).

Definition read_then_bash : list ToolInvocation := [read_call "/w/f"; bash_call "make"].

(** A result that is known to be there. *)
Lemma returned_ok {A B E} (r : option (result A E * B)) :
  match r with Some (Ok _, _) => true | _ => false end = true -> exists a b, r = Some (Ok a, b).
Proof. destruct r as [[[a|e] b]|]; try discriminate. intros _. by exists a, b. Qed.

(** From a state in which nothing is cancelled, a batch of two calls returns. *)
Lemma demo_returns : exists s n s', cancel_in s = None
  /\ @answer_batch unit unit (demo_text []) plain_scrub ascii_case (fun _ _ => []) no_store (fun _ => None) []
       (fun _ _ _ fs => (idle, fs)) (fun l => l) (fun _ _ => false) [] (says RespApproved) str_len (fun _ _ => true) (fun _ => true)
       (fun _ _ _ _ fs => ([], fs)) (fun _ fs => (Returns (Success "done"), fs)) (fun _ fs => (Some (Returns (Success "done")), fs))
       open_gate (settings "warn_only") false (fun _ => false) read_then_bash s = Some (Ok n, s').
Proof.
  exists (start_at small_tree DoomLoopTracker_new None).
  assert (forall r : option (result nat bytes * ExecState unit), match r with Some (Ok _, _) => true | _ => false end = true ->
    exists n s', cancel_in (start_at small_tree DoomLoopTracker_new None) = None /\ r = Some (Ok n, s')) as Hr.
  { intros r Hr. destruct (returned_ok r Hr) as (n & s' & ->). by exists n, s'. }
  apply Hr. vm_compute. reflexivity.
Qed.

Lemma batch_answered_witness :
  exists recorded n, recorded ++ others recorded 0 n ≡ₚ seq 0 (length read_then_bash).
Proof.
  destruct demo_returns as (s & n & s' & Hs & E).
  destruct (batch_answered _ _ _ _ _ _ _ _ _ _ _ _ _ _ _ _ _ _ _ _ _ E) as (recorded & blocks & _ & _ & _ & _ & Hn).
  exists recorded, n. exact (proj2 (Hn Hs)).
Defined.

(** In a batch that reads a file first, the command is answered first. *)
Lemma answers_out_of_order :
  match demo_batch (Success "done") "warn_only" read_then_bash (start_at small_tree DoomLoopTracker_new None) with
  | Some (Ok _, s') => texts s' = [(Some (lit "1"), lit "done"); (Some (lit "0"), lit "done")]
  | _ => False
  end.
Proof. by vm_compute. Qed.

(** The same batch, cancelled while the command is awaited: the command is answered by its
    result and, again, as cancelled before execution. *)
Lemma cancelled_call_answered_twice :
  match demo_batch (Success "done") "warn_only" read_then_bash (start_at small_tree DoomLoopTracker_new (Some 4)) with
  | Some (Ok _, s') =>
      texts s' = [(Some (lit "1"), lit "done"); (Some (lit "0"), lit "Tool call 0 cancelled before execution");
                  (Some (lit "1"), lit "Tool call 1 cancelled before execution")]
  | _ => False
  end.
Proof. by vm_compute. Qed.

(** A file that is written leaves no audit entry; a command does. *)
Lemma file_writes_unaudited :
  (match demo_batch (Success "done") "warn_only" [write_call "/w/new"] (start_at small_tree DoomLoopTracker_new None) with
   | Some (Ok _, s') => texts s' = [(Some (lit "2"), lit "done")] /\ tool_log (gate_world s') = Some []
   | _ => False
   end)
  /\ match demo_batch (Success "done") "warn_only" [bash_call "make"] (start_at small_tree DoomLoopTracker_new None) with
     | Some (Ok _, s') => length <$> tool_log (gate_world s') = Some 1
     | _ => False
     end.
Proof. by vm_compute. Qed.

(** When repeated errors halt the batch, the calls after the failing one stay unanswered. *)
Lemma halted_batch_unanswered :
  match demo_batch (Error "no") "halt" [bash_call "make"; read_call "/w/f"]
          (start_at small_tree (mkDoom [(lit "bash", lit "no"); (lit "bash", lit "no")] 2 None) None) with
  | Some (Err _, s') => forallb (fun t => negb (bool_decide (t.1 = Some (lit "0")))) (texts s') = true /\ length (texts s') = 2
  | _ => False
  end.
Proof. by vm_compute. Qed.

(** A directory that was a link all along is taken for one that was swapped: a write
    through it passes the path guard and is then refused. *)
Definition linked_dir : Fs := Paths.tree [([lit "w"], Dir); ([lit "w"; lit "d"], Dir); ([lit "w"; lit "l"], Link "d")] [lit "w"].
Lemma directory_link_taken_for_swap :
  check_write (H := ascii_case) (fun _ => false) linked_dir (sandboxed "/w") "/w/l/new" = Allowed "/w/l/new"
  /\ symlink_swap_denied linked_dir "/w/l/new" = Some (lit "path component '/w/l' was replaced by a symlink after validation").
Proof. by vm_compute. Qed.

Definition prepared_write : @PreparedCall unit :=
  mkPrepared 0 (write_call "/w/f") (mkTool (mkToolDef "write_file" [] (JObj [])) tt) (Some (lit "/w/f")) false.

Lemma demo_denied : exists r s', run_file_call (S := unit) (fun _ fs => (Returns (Success "done"), fs)) (settings "halt") false (fun _ => false)
    prepared_write (start_at small_tree DoomLoopTracker_new None) = Some (Ok (mkResult (Failure (AccessDenied r)) (Some (lit "/w/f")) true), s').
Proof. eexists _, _. vm_compute. reflexivity. Qed.

